(* ===== verification/_CoqProject ===== *)
-Q . S2P
Prelude.v
RustStd.v
Text.v
Addr.v
Errors.v
Config.v
Buffer.v
Task.v
ClientTaskMacro.v
Proto.v
BufIO.v
Os.v
Runtime.v
Net.v
Graceful.v
Sock.v
BufIOSpec.v
Parser.v
ServerTask.v
TcpServer.v
Timer.v
TimerLive.v
TcpClient.v
EndToEnd.v
Throttler.v
ClientStream.v
Inflight.v
Deadline.v
Server.v
Duplex.v
ServerLife.v
ServerTcp.v
Pool.v
ClientLife.v
Failover.v
FailoverLife.v
Api.v
Endpoint.v
EndpointFailover.v
Msgpack.v
ApiServer.v
Pipeline.v
TaskEnum.v
FileSuite.v
Syn.v
MacroApi.v
MacroStream.v
