(* ===== verification/Prelude.v ===== *)
(** * occams-rpc: a verification development

    ** The program

    occams-rpc is an asynchronous RPC framework in Rust.  A user defines task
    types (or, one layer up, service traits); the framework sends requests
    over a transport, matches responses to the tasks that wait for them, and
    serves requests on the other side.  Its parts (paths are
    relative to the root of the repository), from the wire upwards:

    - core/src: error types and their wire form, settings, codec and stream
      traits, buffered I/O with cancellation and timeouts;
    - stream/src/proto.rs: the packed request and response headers;
    - transport/tcp/src: addresses, listeners and streams over TCP and Unix
      sockets, and the TCP client and server, which read and write frames
      through a buffered stream;
    - core/src/graceful.rs: listeners handed over when a program restarts
      itself; core/src/runtime.rs and runtime/*/src: what the framework asks
      of an asynchronous runtime, and the adapters to tokio and smol;
    - stream/src/client: the task traits, the timer that holds the tasks
      waiting for a response, the client stream (one connection), the pool of
      connections to one address, the failover pool over several addresses;
    - stream/src/server: server tasks, dispatch, the reader and the writer of
      a connection, listening and closing;
    - stream/macros/src: the macros that make a struct a task and an enum of
      tasks a task, and the code they generate;
    - src/client, src/server and macros/src: remote method calls on top of the
      streams, and the macros that generate a client from a trait and a
      service from an impl of it.

    On the client a task is counted, encoded and written by [send_task] of the
    stream and registered with the timer; the receiver of the stream reads
    responses through the transport, which takes the task of a response from
    the timer and finishes it ([done], or the error handler of the pool above,
    which may retry it).  On the server the reader decodes requests and hands
    them to the dispatcher; a finished task goes through a channel to the
    writer, which encodes and sends the response.

    ** Files

    Under each file: the sources it models and the theorems it proves.

    - Prelude (this file): results, polls, machine-width integers
      ([wrap]/[swrap] and the casts), little-endian fields, lists and maps;
      the tactics and the hint database [rpc].
    - RustStd, Text: UTF-8 validity, [split_once], numbers in text and back.
      Addr: the socket addresses of the standard library with their parser
      and printer, each the inverse of the other.
    - Errors (core/src/error.rs): error types, their text and equality, error
      codecs as a class.  The text of framework errors is a bijection; equality
      of encoded errors is an equivalence; when a numeric error comes back.
    - Config (core/src/config.rs): the settings and their defaults.
    - Buffer (core/src/io/buffer.rs): room for a blob; when the slice handed
      out is inside the allocation.
    - Task (core/src/codec.rs, stream/src/client/task.rs, the traits of
      stream/src/server/task.rs): the interfaces between framework and user
      code as classes with laws.  ClientTaskMacro
      (stream/macros/src/client_task.rs) is an instance: the generated task.
    - Proto (stream/src/proto.rs): headers as records and as bytes.  The two
      layouts are bijections; an encoded request decodes to what was encoded.
    - BufIO, BufIOSpec (core/src/io): the reading and writing loops over any
      stream, both buffers, cancellation.  Buffering is transparent for a
      reader; after a flush the peer has what was written, in order.  Sock is
      a scripted stream that satisfies the contracts, used by the witnesses.
    - Os (core/src/runtime.rs, runtime/tokio, runtime/smol): descriptors, files
      and sockets as a state with calls that may fail, the half of the runtime
      interface about them with its laws, and the two adapters.  Runtime: the
      other half (sleep, tick, timeout, spawn) and its two adapters, over the
      timers of tokio and smol; the default facts of client and server.  Net (transport/tcp/src/net.rs):
      addresses, listeners, streams.  An address survives printing; no
      descriptor is leaked, shared or blocking along any sequence of
      operations and failures; what is bound can be reached.
    - Graceful (core/src/graceful.rs): processes that replace themselves.  A
      restart hands every listener over, for any number of generations; a
      process that gets a closing signal ends and runs its closure once.
    - Parser: parsers as the abstract view of reading code, and the relation
      [reads] between a reader and a parser.
    - ServerTask (stream/src/server/task.rs, dispatch.rs): server tasks, the
      notifier, the closure dispatcher; a task is answered once.
    - TcpServer, TcpClient (transport/tcp/src/server.rs, client.rs): the two
      ends of a connection.
    - Timer (stream/src/client/timer.rs): the tasks that wait.  No task is lost
      or finished twice; [take_task] finds a task wherever it waits; a timeout
      comes at its tick and not before.  TimerLive: every task ends within
      its time, whatever else happens to the timer.
    - EndToEnd: both ends together.  A written request is read as the same
      request; a written response completes the task of its number; the
      server's reader implements the grammar of requests; what becomes of
      unknown and malformed responses.
    - Throttler (stream/src/client/throttler.rs) and ClientStream
      (stream/src/client/stream.rs): one connection as state passing.  Every
      task sent is finished exactly once, whatever the run; the receiver's
      exit finishes the rest and terminates.  Inflight: a connection never has
      more requests in flight than its threshold.  Deadline: the receiver
      driven by the ticker of the runtime; every request is finished within
      [task_timeout] + 1 seconds of the next time the receiver is awake.
    - Server (stream/src/server/server.rs): reader, writer, listen, close.
      Duplex: the reader and the writer of a connection in turn.  ServerLife: a
      server with any number of connections and handlers as a state machine;
      when it is closed no answer is left behind, and [close] comes to an end.
      ServerTcp: the same over TCP.
    - Pool (stream/src/client/pool.rs): callers and coroutines as a step
      machine; tasks are accounted for along every interleaving and one
      coroutine monitors.  ClientLife: the pool together with every stream it
      has had, dropped ones included; each task ends once.
    - Failover (stream/src/client/failover.rs): a step machine over a store of
      pools; tasks are conserved, retries bounded, selection characterised,
      [update_addrs] installs what it is given.  The life of a task ([life]) is
      the specification it refines.  FailoverLife: the store with the streams
      of all its pools down to their receivers; it refines the same life.
    - Api (src/client, src/server, macros/src): method calls.  A call
      returns what the method returns, over the dispatcher alone and over a
      pair of TCP connections; failed calls return their error; the two
      multiplexers agree.  Endpoint: [call] with its one-shot channel over a
      connection pool, EndpointFailover: over a failover pool; every call
      returns.  ApiServer: the dispatcher under the reader and the
      writer of a connection; the output is the answers to the requests of the
      input.  Pipeline: any number of calls on one connection, from the
      requests to each caller's result.
    - Msgpack (codec/src/msgpack.rs): the MessagePack codec keeps the laws of
      codecs.
    - TaskEnum (stream/macros/src/client_task_enum.rs, server_task_enum.rs): the
      enums generated over task types, as sums.  An enum of lawful tasks is a
      lawful task; a request reaches the variant that declares its action.
    - FileSuite (test-suite/src/stream): the tasks, enums and handler of the
      file service; a session of calls returns what the service means.
    - Syn: the syntax trees the macros read.  MacroApi (macros/src): the
      expansion of [endpoint_async], [service] and [service_mux_struct]; the
      client and the service generated from one trait fit together.
      MacroStream (stream/macros/src): the expansion of [client_task] and of
      the two enum macros; what they accept, exactly, and what they generate.

    Theorems that carry a claim number (C1, C2, ...) are the properties; each
    with hypotheses is followed, at the end of its file, by a witness that
    applies it to a concrete input (that of FailoverLife is in
    EndpointFailover, with the concrete run of calls).

    ** Conventions

    An integer of Rust is a [Z] in its range; every cast and every wrapping
    counter is written out ([as_u32], [as_i32], ...).  Counters that Rust
    checks only in debug builds wrap, as in a release build, except the length
    arithmetic of [skip_resp], where an overflow is a panic.  Indexing and
    slicing out of range, [unwrap] of nothing and [unreachable!] are the panic
    outcome ([None] in pure code, [Panicked] in I/O code), so a theorem that
    gives a result also excludes the panic.  Memory that the source leaves
    uninitialised is a parameter ([stale]).

    An asynchronous function is driven as far as its inputs allow: [Done],
    [Waiting] (pending) or [Panicked].  Time and the behaviour of the peer are
    inputs.  Pool and failover pool, where coroutines interleave, are step
    machines whose atomic steps are the code between two awaits.

    The loops of BufIO that call the underlying stream take fuel, the number
    of inner calls.  Each call that makes progress moves at least one byte, so
    fuel for the bytes of the transfer is enough: the theorems state it as
    [n <= fuel] and conclude that the call is [Done], never only that its
    result is right if there is one.  The exit of the receive loop needs no
    bound on its fuel: on a connection that satisfies the invariant it ends at
    once.  [close_wait] takes fuel too; the theorem on it gives the number of
    rounds.  [recv_one_resp] takes one unit per response; the theorem on
    several calls says that the loop has gone through their responses and goes
    on, with whatever fuel is left, from the state reached.  The loop over due
    ticks has fuel for the ticks that are due ([ticks_due]).  The wait of a
    restart is given [wait_fuel]: one round per sleep until the timeout has
    passed.

    ** Outside the model

    The operating system is what Os.v says of it; name resolution, the
    descriptor flags set by close_fds, signals and what the rest of the world
    does during a sleep are parameters.  Streams and transports are seen
    through [AsyncReadLaws], [AsyncWriteLaws] and [ClientTransportLaws].
    rmp-serde is behind [RmpSerde] with [RmpLaws]; [io_buffer] behind
    [IoBuffer] with [IoBufferLaws]; the timers of tokio and smol behind
    [TokioLib] and [SmolLib] with laws that include what they do about missed
    ticks; the channels and wait groups of crossfire and sync_utils are lists
    and counts, with [wait_to] a parameter.  The reactors behind [async_read]
    and [async_write] are part of the streams.  Of the macros, the texts they
    emit are represented by the names, types and actions in them; token parsing
    is the syn crate's.  Logging and [Debug] output of tasks are left out.

    Not modelled: the crate roots (re-exports), the QUIC and RDMA transports
    (empty), and of the test suite all but the file service: its scenarios are
    uses of the parts above, and its API methods compute with [isize], which
    may panic.  A panic of a user's method or handler is outside the model of
    the framework: such code is a total function there.  (The handler of
    FileSuite can panic in the model; the theorem on it says that it does
    not.) *)

From Stdlib Require Export ZArith Lia Sorting.Sorted.
From Stdlib Require Strings.Byte.
From stdpp Require Export base list gmap strings option numbers.

(** ** Notations and automation *)

Declare Scope rpc_scope.
Delimit Scope rpc_scope with rpc.
Open Scope rpc_scope.

Create HintDb rpc.

Abbreviation byte := Byte.byte.
Abbreviation bytes := (list Byte.byte).

(** [Result<A, E>] *)
Inductive result (A E : Type) : Type :=
| Ok (a : A)
| Err (e : E).
Arguments Ok {A E} a.
Arguments Err {A E} e.

Definition is_ok {A E} (r : result A E) : bool :=
  match r with Ok _ => true | Err _ => false end.

Definition is_err {A E} (r : result A E) : bool := negb (is_ok r).

#[export] Instance result_eq_dec {A E} `{EqDecision A, EqDecision E} : EqDecision (result A E).
Proof. solve_decision. Defined.

(** [Poll<A>]: the outcome of driving a future as far as its inputs allow.
    [Pending] is a future that is still waiting. *)
Inductive poll (A : Type) : Type :=
| Ready (a : A)
| Pending.
Arguments Ready {A} a.
Arguments Pending {A}.

#[export] Instance byte_eq_dec : EqDecision byte.
Proof. exact Byte.byte_eq_dec. Defined.

#[export] Program Instance byte_countable : Countable byte :=
  inj_countable Byte.to_N Byte.of_N _.
Next Obligation. apply Byte.of_to_N. Qed.

#[export] Instance poll_eq_dec {A} `{EqDecision A} : EqDecision (poll A).
Proof. solve_decision. Defined.

(** Split every [match] of the goal and of the hypotheses, and simplify. *)
Ltac rcases :=
  repeat (case_match || case_decide || simplify_eq/= || destruct_and! ).

(** Reduce boolean comparisons on [Z] and [nat] to propositions. *)
Ltac breflect :=
  repeat match goal with
  | H : (_ && _)%bool = true |- _ => apply andb_true_iff in H as [? ?]
  | H : (_ || _)%bool = false |- _ => apply orb_false_iff in H as [? ?]
  | H : negb _ = true |- _ => apply negb_true_iff in H
  | H : negb _ = false |- _ => apply negb_false_iff in H
  | H : (_ <? _)%Z = true |- _ => apply Z.ltb_lt in H
  | H : (_ <? _)%Z = false |- _ => apply Z.ltb_ge in H
  | H : (_ <=? _)%Z = true |- _ => apply Z.leb_le in H
  | H : (_ <=? _)%Z = false |- _ => apply Z.leb_gt in H
  | H : (_ =? _)%Z = true |- _ => apply Z.eqb_eq in H
  | H : (_ =? _)%Z = false |- _ => apply Z.eqb_neq in H
  | H : (_ <? _)%nat = true |- _ => apply Nat.ltb_lt in H
  | H : (_ <? _)%nat = false |- _ => apply Nat.ltb_ge in H
  | H : (_ <=? _)%nat = true |- _ => apply Nat.leb_le in H
  | H : (_ <=? _)%nat = false |- _ => apply Nat.leb_gt in H
  | H : (_ =? _)%nat = true |- _ => apply Nat.eqb_eq in H
  | H : (_ =? _)%nat = false |- _ => apply Nat.eqb_neq in H
  | H : bool_decide _ = true |- _ => apply bool_decide_eq_true in H
  | H : bool_decide _ = false |- _ => apply bool_decide_eq_false in H
  end.

Ltac rsolve := rcases; breflect; simplify_eq/=; try done; try lia; eauto with rpc.

(** ** Machine integers

    An integer of width [w] is a [Z]; [wrap w] is the [as uw] cast and
    [swrap w] the [as iw] cast.  [usize] has 64 bits. *)

Section ints.
Local Open Scope Z_scope.

Definition wrap (w z : Z) : Z := z mod 2 ^ w.
Definition swrap (w z : Z) : Z := (z + 2 ^ (w - 1)) mod 2 ^ w - 2 ^ (w - 1).

Definition as_u8 := wrap 8.
Definition as_u32 := wrap 32.
Definition as_u64 := wrap 64.
Definition as_usize := wrap 64.
Definition as_i32 := swrap 32.

Definition u32_MAX : Z := 2 ^ 32 - 1.
Definition i32_MAX : Z := 2 ^ 31 - 1.

Definition in_u (w z : Z) : Prop := 0 <= z < 2 ^ w.
Definition in_i (w z : Z) : Prop := - 2 ^ (w - 1) <= z < 2 ^ (w - 1).

Lemma wrap_range w z : 0 <= w -> in_u w (wrap w z).
Proof. intros. apply Z.mod_pos_bound. by apply Z.pow_pos_nonneg. Qed.

Lemma wrap_small w z : in_u w z -> wrap w z = z.
Proof. apply Z.mod_small. Qed.

Lemma swrap_range w z : 0 < w -> in_i w (swrap w z).
Proof.
  intros Hw. unfold swrap, in_i.
  pose proof (Z.mod_pos_bound (z + 2 ^ (w - 1)) (2 ^ w)) as Hb.
  assert (2 ^ w = 2 * 2 ^ (w - 1)) as Hp.
  { rewrite <- Z.pow_succ_r by lia. f_equal. lia. }
  assert (0 < 2 ^ (w - 1)) by (apply Z.pow_pos_nonneg; lia). lia.
Qed.

Lemma swrap_small w z : 0 < w -> in_i w z -> swrap w z = z.
Proof.
  intros Hw [Hl Hu]. unfold swrap.
  assert (2 ^ w = 2 * 2 ^ (w - 1)) as Hp.
  { rewrite <- Z.pow_succ_r by lia. f_equal. lia. }
  rewrite Z.mod_small; lia.
Qed.

(** [x as u32 as i32] and back is the identity on [i32]. *)
Lemma swrap_wrap w z : 0 < w -> in_i w z -> swrap w (wrap w z) = z.
Proof.
  intros Hw Hz. rewrite <- (swrap_small w z) at 2 by done.
  unfold swrap, wrap. f_equal. rewrite Z.add_mod_idemp_l; [done|].
  pose proof (Z.pow_pos_nonneg 2 w). lia.
Qed.

Lemma wrap_nonneg_i32 z : 0 <= z < 2 ^ 31 -> as_u32 z = z.
Proof. intros. apply wrap_small. unfold in_u. lia. Qed.
End ints.

#[export] Hint Resolve wrap_range swrap_range : rpc.

(** ** Bytes and little-endian integers *)

Section bytes.
Local Open Scope Z_scope.

Definition byte_val (b : byte) : Z := Z.of_N (Byte.to_N b).

Definition byte_of (z : Z) : byte :=
  match Byte.of_N (Z.to_N (z mod 256)) with
  | Some b => b
  | None => Byte.x00
  end.

Lemma byte_val_range b : 0 <= byte_val b < 256.
Proof. unfold byte_val. pose proof (Byte.to_N_bounded b). lia. Qed.

Lemma byte_val_of z : byte_val (byte_of z) = z mod 256.
Proof.
  unfold byte_of, byte_val.
  pose proof (Z.mod_pos_bound z 256 ltac:(lia)) as Hb.
  destruct (Byte.of_N _) eqn:E.
  - apply Byte.to_of_N in E. rewrite E. lia.
  - apply Byte.of_N_None_iff in E. lia.
Qed.

Lemma byte_of_val b : byte_of (byte_val b) = b.
Proof.
  unfold byte_of. rewrite Z.mod_small by apply byte_val_range.
  unfold byte_val. rewrite N2Z.id, Byte.of_to_N. done.
Qed.

(** [n] little-endian bytes of [z], and the value of a byte string. *)
Fixpoint le_bytes (n : nat) (z : Z) : bytes :=
  match n with
  | O => []
  | S n' => byte_of z :: le_bytes n' (z / 256)
  end.

Fixpoint le_val (bs : bytes) : Z :=
  match bs with
  | [] => 0
  | b :: bs' => byte_val b + 256 * le_val bs'
  end.

Lemma length_le_bytes n z : length (le_bytes n z) = n.
Proof. revert z. induction n; intros; simpl; by f_equal. Qed.

Lemma le_val_range bs : 0 <= le_val bs < 256 ^ Z.of_nat (length bs).
Proof.
  induction bs as [|b bs IH]; simpl; [lia|].
  pose proof (byte_val_range b).
  rewrite Nat2Z.inj_succ, Z.pow_succ_r by lia. lia.
Qed.

Lemma le_val_bytes n z : le_val (le_bytes n z) = z mod 256 ^ Z.of_nat n.
Proof.
  revert z. induction n as [|n IH]; intros z; cbn [le_bytes le_val].
  { simpl. by rewrite Z.mod_1_r. }
  rewrite IH, byte_val_of, Nat2Z.inj_succ, Z.pow_succ_r by lia.
  rewrite Z.rem_mul_r; [lia|lia|]. apply Z.pow_pos_nonneg; lia.
Qed.

Lemma le_bytes_val n bs : length bs = n -> le_bytes n (le_val bs) = bs.
Proof.
  intros <-. induction bs as [|b bs IH]; [done|]. cbn [length le_bytes le_val].
  pose proof (byte_val_range b).
  f_equal.
  - rewrite <- (byte_of_val b) at 2. unfold byte_of.
    rewrite (Z.mul_comm 256), Z.mod_add by lia. done.
  - rewrite (Z.mul_comm 256), Z.div_add by lia.
    rewrite Z.div_small, Z.add_0_l by lia. done.
Qed.

Lemma le_val_bytes_u w n z :
  w = 8 * Z.of_nat n -> in_u w z -> le_val (le_bytes n z) = z.
Proof.
  intros -> [? Hz]. rewrite le_val_bytes. apply Z.mod_small. split; [done|].
  replace (256 ^ Z.of_nat n) with (2 ^ (8 * Z.of_nat n)); [done|].
  rewrite Z.pow_mul_r by lia. done.
Qed.

Lemma le_val_u w n bs :
  w = 8 * Z.of_nat n -> length bs = n -> in_u w (le_val bs).
Proof.
  intros -> <-. pose proof (le_val_range bs) as [? ?]. split; [done|].
  rewrite Z.pow_mul_r by lia. done.
Qed.
End bytes.

Lemma join_map_cons {A B} (f : A -> list B) x l :
  mjoin (f <$> (x :: l)) = f x ++ mjoin (f <$> l).
Proof. done. Qed.

Lemma filter_fmap {A B} (f : A -> B) (P : B -> Prop) `{!forall x, Decision (P x)} (l : list A) :
  filter P (f <$> l) = f <$> filter (fun x => P (f x)) l.
Proof.
  induction l as [|x l IH]; [done|]. cbn [fmap list_fmap]. destruct (decide (P (f x))).
  - by rewrite !filter_cons_True, IH.
  - by rewrite !filter_cons_False, IH.
Qed.

Lemma filter_id {A} (P : A -> Prop) `{!forall x, Decision (P x)} (l : list A) : Forall P l -> filter P l = l.
Proof. induction 1 as [|x l Hx _ IH]; [done|]. by rewrite filter_cons_True, IH. Qed.

Lemma filter_none {A} (P : A -> Prop) `{!forall x, Decision (P x)} (l : list A) :
  Forall (fun x => ~ P x) l -> filter P l = [].
Proof. induction 1 as [|x l Hx _ IH]; [done|]. by rewrite filter_cons_False, IH. Qed.

(** What has [P] on the left is in the part on the right that may have it. *)
Lemma submseteq_separate {A} (P : A -> Prop) `{!forall x, Decision (P x)} (l1 l2 k1 k2 : list A) :
  l1 ++ l2 ≡ₚ k1 ++ k2 -> Forall P l2 -> Forall (fun x => ~ P x) k2 -> l2 ⊆+ k1.
Proof.
  intros Hp H2 Hk. apply (filter_Permutation P) in Hp. rewrite !list.filter_app, (filter_id P l2), (filter_none P k2) in Hp by done.
  rewrite app_nil_r in Hp. transitivity (filter P k1); [|by apply sublist_submseteq, sublist_filter].
  rewrite <- Hp. by apply submseteq_inserts_l.
Qed.

Lemma join_map_insert {A B} (f : A -> list B) l i x y :
  l !! i = Some x -> f x ++ mjoin (f <$> <[i := y]> l) ≡ₚ f y ++ mjoin (f <$> l).
Proof.
  revert i. induction l as [|z l IH]; intros [|i] E; simplify_eq/=.
  - apply Permutation_app_swap_app.
  - rewrite Permutation_app_swap_app, (IH i E). apply Permutation_app_swap_app.
Qed.

Lemma insert_delete_perm {A} (l : list A) i x y : l !! i = Some x -> <[i := y]> l ≡ₚ y :: delete i l.
Proof.
  intros E. assert (<[i := y]> l !! i = Some y) as E' by (by eapply list_lookup_insert_eq, lookup_lt_Some).
  rewrite (delete_Permutation _ _ _ E') at 1.
  by rewrite !delete_take_drop, take_insert_ge, drop_insert_lt by lia.
Qed.

(** What is collected from the other elements. *)
Lemma join_map_split {A B} (f : A -> list B) l i x :
  l !! i = Some x ->
  exists R, mjoin (f <$> l) ≡ₚ f x ++ R /\ forall y, mjoin (f <$> <[i := y]> l) ≡ₚ f y ++ R.
Proof.
  intros E. exists (mjoin (f <$> delete i l)). split.
  - by rewrite (delete_Permutation _ _ _ E) at 1.
  - intros y. by rewrite (insert_delete_perm _ _ _ _ E).
Qed.

(** [x.len()] of a slice, at the width of the headers' arithmetic. *)
Definition zlen {A} (l : list A) : Z := Z.of_nat (length l).

Lemma zlen_nonneg {A} (l : list A) : (0 <= zlen l)%Z.
Proof. unfold zlen. lia. Qed.

Lemma zlen_pos {A} (l : list A) : l <> [] -> (0 < zlen l)%Z.
Proof. unfold zlen. destruct l; [done|simpl; lia]. Qed.

Lemma zlen_app {A} (l k : list A) : zlen (l ++ k) = (zlen l + zlen k)%Z.
Proof. unfold zlen. rewrite length_app. lia. Qed.

Lemma zlen_cons {A} (a : A) l : zlen (a :: l) = (zlen l + 1)%Z.
Proof. unfold zlen. simpl. lia. Qed.

Lemma to_nat_zlen {A} (l : list A) : Z.to_nat (zlen l) = length l.
Proof. unfold zlen. lia. Qed.

Lemma zlen_nil {A} (l : list A) : zlen l = 0%Z <-> l = [].
Proof. unfold zlen. destruct l; simpl; split; intros; try done; lia. Qed.

Lemma length_zlen {A} (l : list A) n : zlen l = n -> length l = Z.to_nat n.
Proof. unfold zlen. lia. Qed.

#[export] Hint Resolve length_le_bytes zlen_nonneg : rpc.

(** ** I/O errors ([std::io::ErrorKind], the kinds the sources distinguish) *)
Inductive io_error :=
| Interrupted
| UnexpectedEof
| WriteZero
| TimedOut
| OutOfMemory
| AddrNotAvailable
| OtherIO.

#[export] Instance io_error_eq_dec : EqDecision io_error.
Proof. solve_decision. Defined.

Abbreviation io_result A := (result A io_error).

(** ** The async I/O monad

    A computation over a state [S] that awaits I/O: it finishes with an
    [io::Result] or is left waiting.  The state after [Pending] is the
    state the dropped future leaves behind. *)
Definition ioM (S A : Type) : Type := S -> poll (io_result A) * S.

Definition io_ret {S A} (a : A) : ioM S A := fun s => (Ready (Ok a), s).
Definition io_fail {S A} (e : io_error) : ioM S A := fun s => (Ready (Err e), s).

Definition io_bind {S A B} (m : ioM S A) (k : A -> ioM S B) : ioM S B :=
  fun s =>
    match m s with
    | (Ready (Ok a), s') => k a s'
    | (Ready (Err e), s') => (Ready (Err e), s')
    | (Pending, s') => (Pending, s')
    end.

Notation "'let!' x := m 'in' k" := (io_bind m (fun x => k))
  (at level 10, x name, m at level 100, k at level 200) : rpc_scope.

(** ** Runs that may panic

    The outcome of an async function of the framework: finished, still
    waiting, or panicked.  [runM S E A] threads a state and returns a
    [Result<A, E>]. *)
Inductive run (A : Type) : Type :=
| Done (a : A)
| Waiting
| Panicked.
Arguments Done {A} a.
Arguments Waiting {A}.
Arguments Panicked {A}.

Definition runM (S E A : Type) : Type := S -> run (result A E) * S.

Definition run_ret {S E A} (a : A) : runM S E A := fun s => (Done (Ok a), s).
Definition run_err {S E A} (e : E) : runM S E A := fun s => (Done (Err e), s).
Definition run_panic {S E A} : runM S E A := fun s => (Panicked, s).

Definition run_bind {S E A B} (m : runM S E A) (k : A -> runM S E B) : runM S E B :=
  fun s =>
    match m s with
    | (Done (Ok a), s') => k a s'
    | (Done (Err e), s') => (Done (Err e), s')
    | (Waiting, s') => (Waiting, s')
    | (Panicked, s') => (Panicked, s')
    end.

Notation "'let*' x := m 'in' k" := (run_bind m (fun x => k))
  (at level 10, x name, m at level 100, k at level 200) : rpc_scope.

(** [m?] on a value that a panic may replace. *)
Definition run_option {S E A} (o : option A) : runM S E A :=
  match o with
  | Some a => run_ret a
  | None => run_panic
  end.

(** Run an I/O action on a part of the state, with its error mapped. *)
Definition run_io {S T E A} (get : S -> T) (put : T -> S -> S) (err : io_error -> E)
    (m : ioM T A) : runM S E A :=
  fun s =>
    match m (get s) with
    | (Ready (Ok a), t) => (Done (Ok a), put t s)
    | (Ready (Err e), t) => (Done (Err (err e)), put t s)
    | (Pending, t) => (Waiting, put t s)
    end.

Definition run_get {S E A} (f : S -> A) : runM S E A := fun s => (Done (Ok (f s)), s).
Definition run_put {S E} (f : S -> S) : runM S E unit := fun s => (Done (Ok ()), f s).

Lemma run_bind_ok {S E A B} (m : runM S E A) (k : A -> runM S E B) s a s' :
  m s = (Done (Ok a), s') -> run_bind m k s = k a s'.
Proof. unfold run_bind. by intros ->. Qed.

Lemma run_bind_err {S E A B} (m : runM S E A) (k : A -> runM S E B) s e s' :
  m s = (Done (Err e), s') -> run_bind m k s = (Done (Err e), s').
Proof. unfold run_bind. by intros ->. Qed.

Lemma run_bind_put {S E B} f (k : unit -> runM S E B) s :
  run_bind (run_put f) k s = k () (f s).
Proof. done. Qed.

Lemma run_io_ok {S T E A} (get : S -> T) put (err : io_error -> E) (m : ioM T A) s a t :
  m (get s) = (Ready (Ok a), t) -> run_io get put err m s = (Done (Ok a), put t s).
Proof. unfold run_io. by intros ->. Qed.

Lemma run_io_err {S T E A} (get : S -> T) put (err : io_error -> E) (m : ioM T A) s e t :
  m (get s) = (Ready (Err e), t) -> run_io get put err m s = (Done (Err (err e)), put t s).
Proof. unfold run_io. by intros ->. Qed.

(** ** Bit masks *)

Section bits.
Local Open Scope Z_scope.

Lemma land_pow2_small x n : 0 <= x < 2 ^ n -> Z.land x (2 ^ n) = 0.
Proof.
  intros Hx. destruct (Z.neg_nonneg_cases n) as [Hn|Hn].
  { rewrite Z.pow_neg_r by done. apply Z.land_0_r. }
  apply Z.bits_inj'. intros i Hi.
  rewrite Z.land_spec, Z.pow2_bits_eqb, Z.bits_0 by done.
  destruct (Z.eqb_spec n i); [subst|by rewrite andb_false_r].
  rewrite <- (Z.mod_small x (2 ^ i)) by done.
  by rewrite Z.mod_pow2_bits_high by lia.
Qed.

(** A value with the top bit set, split from its lower bits. *)
Lemma lor_pow2_small x n : 0 <= x < 2 ^ n -> Z.lor x (2 ^ n) = x + 2 ^ n.
Proof. intros Hx. pose proof (Z.add_lor_land x (2 ^ n)). rewrite land_pow2_small in *; lia. Qed.

Lemma lxor_pow2_high x n : 0 <= x < 2 ^ n -> Z.lxor (x + 2 ^ n) (2 ^ n) = x.
Proof.
  intros Hx. rewrite Z.add_nocarry_lxor by by apply land_pow2_small.
  by rewrite Z.lxor_assoc, Z.lxor_nilpotent, Z.lxor_0_r.
Qed.

Lemma land_pow2_high x n : 0 <= n -> 0 <= x < 2 ^ n -> Z.land (x + 2 ^ n) (2 ^ n) = 2 ^ n.
Proof.
  intros Hn Hx. rewrite <- lor_pow2_small, Z.land_lor_distr_l, land_pow2_small by done.
  by rewrite Z.land_diag, Z.lor_0_l.
Qed.
End bits.
