(* ===== verification/RustStd.v ===== *)
(** * The parts of Rust's standard library the sources use

    [str] and [String] are byte strings; [utf8_valid] is the acceptance
    condition of [str::from_utf8] (the well-formed byte sequences of the
    Unicode standard, table 3-7, which [core::str::validations] walks).
    [fmt] output is a byte string too; decimal printing is stdpp's [pretty]. *)

From S2P Require Import Prelude.
From stdpp Require Import pretty.
From Stdlib Require Strings.Byte.

(** A string literal as bytes. *)
Definition lit (s : string) : bytes := String.list_byte_of_string s.

(** [{}] of an integer. *)
Definition fmt_int (z : Z) : bytes := lit (pretty z).

Section utf8.
Local Open Scope Z_scope.

Definition in_range (lo hi : Z) (b : byte) : bool :=
  (lo <=? byte_val b) && (byte_val b <=? hi).

Definition is_cont : byte -> bool := in_range 128 191.

(** [str::from_utf8(bs).is_ok()] *)
Fixpoint utf8_valid (bs : bytes) : bool :=
  match bs with
  | [] => true
  | b1 :: r1 =>
      if in_range 0 127 b1 then utf8_valid r1
      else
        match r1 with
        | [] => false
        | b2 :: r2 =>
            if in_range 194 223 b1 then is_cont b2 && utf8_valid r2
            else
              match r2 with
              | [] => false
              | b3 :: r3 =>
                  if in_range 224 224 b1 then in_range 160 191 b2 && is_cont b3 && utf8_valid r3
                  else if in_range 225 236 b1 || in_range 238 239 b1
                  then is_cont b2 && is_cont b3 && utf8_valid r3
                  else if in_range 237 237 b1
                  then in_range 128 159 b2 && is_cont b3 && utf8_valid r3
                  else
                    match r3 with
                    | [] => false
                    | b4 :: r4 =>
                        if in_range 240 240 b1
                        then in_range 144 191 b2 && is_cont b3 && is_cont b4 && utf8_valid r4
                        else if in_range 241 243 b1
                        then is_cont b2 && is_cont b3 && is_cont b4 && utf8_valid r4
                        else if in_range 244 244 b1
                        then in_range 128 143 b2 && is_cont b3 && is_cont b4 && utf8_valid r4
                        else false
                    end
              end
        end
  end.

(** A byte string of ASCII characters only. *)
Definition is_ascii : bytes -> bool := forallb (in_range 0 127).

Lemma ascii_utf8 bs : is_ascii bs = true -> utf8_valid bs = true.
Proof.
  induction bs as [|b bs IH]; [done|]. cbn. intros [Hb H]%andb_true_iff.
  rewrite Hb. by apply IH.
Qed.

(** Concatenation of ASCII text with a [str] is a [str]. *)
Lemma ascii_app_utf8 bs cs :
  is_ascii bs = true -> utf8_valid (bs ++ cs) = utf8_valid cs.
Proof.
  induction bs as [|b bs IH]; [done|]. cbn. intros [Hb H]%andb_true_iff.
  rewrite Hb. by apply IH.
Qed.
End utf8.

(** [slice.starts_with(prefix)] *)
Fixpoint starts_with (bs prefix : bytes) : bool :=
  match prefix, bs with
  | [], _ => true
  | p :: ps, b :: bs' => bool_decide (p = b) && starts_with bs' ps
  | _ :: _, [] => false
  end.

Lemma starts_with_spec bs prefix :
  starts_with bs prefix = true <-> exists rest, bs = prefix ++ rest.
Proof.
  revert bs. induction prefix as [|p ps IH]; intros bs.
  { destruct bs; simpl; split; eauto. }
  destruct bs as [|b bs]; simpl; [split; [done|by intros []]|].
  rewrite andb_true_iff, bool_decide_eq_true, IH.
  split; [intros [-> [r ->]]; eauto|intros [r ?]; simplify_eq; eauto].
Qed.

(** [s.split_once(c)]: the text before and after the first [c]. *)
Fixpoint split_once (c : byte) (bs : bytes) : option (bytes * bytes) :=
  match bs with
  | [] => None
  | b :: bs' =>
      if decide (b = c) then Some ([], bs')
      else
        match split_once c bs' with
        | Some (l, r) => Some (b :: l, r)
        | None => None
        end
  end.

Lemma split_once_spec c bs l r :
  split_once c bs = Some (l, r) <-> bs = l ++ c :: r /\ c ∉ l.
Proof.
  revert l r. induction bs as [|b bs IH]; intros l r; simpl.
  { split; [done|]. intros [H _]. by destruct l. }
  case_decide as Hb; subst.
  { split; [intros; simplify_eq; set_solver|].
    intros [H Hl]. destruct l as [|x l]; simplify_eq/=; [done|set_solver]. }
  destruct (split_once c bs) as [[l' r']|] eqn:E; split; try done.
  - intros; simplify_eq. destruct (proj1 (IH l' r) eq_refl) as [-> ?].
    split; [done|]. set_solver.
  - intros [H Hl]. destruct l as [|x l]; simplify_eq/=.
    assert (Some (l', r') = Some (l, r)) as H' by (apply IH; set_solver).
    by simplify_eq.
  - intros [H Hl]. destruct l as [|x l]; simplify_eq/=.
    assert (None = Some (l, r)) as H' by (apply IH; set_solver). done.
Qed.

Lemma split_once_app c l r : c ∉ l -> split_once c (l ++ c :: r) = Some (l, r).
Proof. intros. by apply split_once_spec. Qed.

(** [buf.resize(len, 0)] *)
Definition vec_resize (len : nat) (bs : bytes) : bytes :=
  take len bs ++ replicate (len - length bs) Byte.x00.

Lemma length_vec_resize n bs : length (vec_resize n bs) = n.
Proof. unfold vec_resize. rewrite length_app, length_take, length_replicate. lia. Qed.

#[export] Hint Resolve ascii_utf8 length_vec_resize : rpc.
