(* ===== verification/Text.v ===== *)
(** * Numbers and separated lists in text

    The parts of Rust's standard library that turn numbers into text and back:
    [{}] and [{:x}] of an integer, [char::to_digit], [str::parse] for [i32],
    [str::split] at a character and [join] of a slice of strings.  Every
    printed number reads back as itself. *)

From S2P Require Import Prelude RustStd.
From stdpp Require Import pretty.

(** ** Digits *)

Section digits.
Local Open Scope Z_scope.
Context (radix : Z).

(** The digits of a number, most significant first. *)
Fixpoint digits_go (fuel : nat) (n : Z) (acc : list Z) : list Z :=
  match fuel with
  | O => acc
  | S fuel => if n =? 0 then acc else digits_go fuel (n / radix) (n mod radix :: acc)
  end.

Definition digits_fuel (n : Z) : nat := S (Z.to_nat (Z.log2 n)).

Definition to_digits (n : Z) : list Z :=
  if n =? 0 then [0] else digits_go (digits_fuel n) n [].

(** The number a list of digits stands for. *)
Definition digits_val (ds : list Z) : Z := fold_left (fun acc d => acc * radix + d) ds 0.

Lemma digits_val_go acc ds :
  fold_left (fun acc d => acc * radix + d) ds acc
  = acc * radix ^ Z.of_nat (length ds) + digits_val ds.
Proof.
  unfold digits_val. revert acc. induction ds as [|d ds IH]; intros acc; cbn [fold_left length]; [change (Z.of_nat 0) with 0; lia|].
  rewrite IH, (IH (0 * radix + d)). replace (Z.of_nat (S (length ds))) with (Z.succ (Z.of_nat (length ds))) by lia.
  rewrite Z.pow_succ_r by lia. lia.
Qed.

Lemma digits_val_cons d ds :
  digits_val (d :: ds) = d * radix ^ Z.of_nat (length ds) + digits_val ds.
Proof. unfold digits_val at 1. simpl. by rewrite digits_val_go. Qed.

Lemma digits_val_snoc ds d : digits_val (ds ++ [d]) = digits_val ds * radix + d.
Proof. unfold digits_val. by rewrite fold_left_app. Qed.

Context (Hradix : 2 <= radix).

Lemma digits_fuel_div n : 0 < n -> n / radix = 0 \/ (S (digits_fuel (n / radix)) <= digits_fuel n)%nat.
Proof.
  intros Hn. destruct (Z.eq_dec (n / radix) 0) as [|Hq]; [by left|right].
  assert (0 < n / radix) as Hq' by (pose proof (Z.div_pos n radix); lia).
  assert (Z.log2 (n / radix) < Z.log2 n); [|unfold digits_fuel; pose proof (Z.log2_nonneg (n / radix)); lia].
  apply Z.log2_lt_pow2; [done|]. apply Z.div_lt_upper_bound; [lia|].
  pose proof (Z.log2_spec n Hn) as [_ Hl]. rewrite Z.pow_succ_r in Hl by apply Z.log2_nonneg.
  pose proof (Z.pow_pos_nonneg 2 (Z.log2 n) ltac:(lia) (Z.log2_nonneg n)). nia.
Qed.

Lemma digits_go_app fuel n acc : digits_go fuel n acc = digits_go fuel n [] ++ acc.
Proof.
  revert n acc. induction fuel as [|fuel IH]; intros n acc; simpl; [done|].
  destruct (n =? 0); [done|]. rewrite IH, (IH _ [_]). by rewrite <- app_assoc.
Qed.

(** Enough fuel: the digits of [n] are those of [n / radix] and its remainder. *)
Lemma digits_go_fuel fuel fuel' n :
  0 <= n -> n = 0 \/ (digits_fuel n <= fuel)%nat -> n = 0 \/ (digits_fuel n <= fuel')%nat ->
  digits_go fuel n [] = digits_go fuel' n [].
Proof.
  revert fuel' n. induction fuel as [|fuel IH]; intros fuel' n Hn H1 H2.
  - destruct H1 as [->|H1]; [by destruct fuel'|unfold digits_fuel in H1; lia].
  - destruct fuel' as [|fuel'].
    { destruct H2 as [->|H2]; [done|unfold digits_fuel in H2; lia]. }
    simpl. destruct (Z.eqb_spec n 0) as [|Hne]; [done|].
    rewrite digits_go_app, (digits_go_app fuel'). f_equal.
    pose proof (digits_fuel_div n ltac:(lia)) as Hd.
    apply IH; [apply Z.div_pos; lia|..]; destruct Hd as [?|?]; (by left) || right; destruct H1, H2; lia.
Qed.

Definition ndigits (n : Z) : list Z := digits_go (digits_fuel n) n [].

Lemma ndigits_0 : ndigits 0 = [].
Proof. done. Qed.

Lemma ndigits_step n : 0 < n -> ndigits n = ndigits (n / radix) ++ [n mod radix].
Proof.
  intros Hn. unfold ndigits at 1. unfold digits_fuel at 1. cbn [digits_go].
  destruct (Z.eqb_spec n 0) as [|_]; [lia|]. rewrite digits_go_app. f_equal.
  pose proof (digits_fuel_div n Hn) as Hd.
  apply digits_go_fuel; [apply Z.div_pos; lia| |right; lia].
  destruct Hd as [?|Hd]; [by left|right]. unfold digits_fuel in Hd at 2. lia.
Qed.

Lemma to_digits_ndigits n : 0 < n -> to_digits n = ndigits n.
Proof. intros Hn. unfold to_digits. by destruct (Z.eqb_spec n 0); [lia|]. Qed.

(** Induction on a number through its digits. *)
Lemma digits_ind (P : Z -> list Z -> Prop) :
  P 0 [] -> (forall n, 0 < n -> P (n / radix) (ndigits (n / radix)) ->
              P n (ndigits (n / radix) ++ [n mod radix])) ->
  forall n, 0 <= n -> P n (ndigits n).
Proof.
  intros H0 HS n Hn. revert n Hn. apply (Zlt_0_ind (fun n => P n (ndigits n))). intros n IH Hn.
  destruct (Z.eq_dec n 0) as [->|Hne]; [done|]. rewrite ndigits_step by lia. apply HS; [lia|].
  apply IH. split; [apply Z.div_pos; lia|]. apply Z.div_lt; lia.
Qed.

Lemma ndigits_val n : 0 <= n -> digits_val (ndigits n) = n.
Proof.
  apply (digits_ind (fun n ds => digits_val ds = n)); [done|]. clear n. intros n Hn IH. rewrite digits_val_snoc, IH.
  pose proof (Z.div_mod n radix). lia.
Qed.

Lemma ndigits_range n : 0 <= n -> Forall (fun d => 0 <= d < radix) (ndigits n).
Proof.
  apply (digits_ind (fun _ ds => Forall (fun d => 0 <= d < radix) ds)); [done|]. clear n.
  intros n Hn IH. apply Forall_app. split; [done|]. repeat constructor; apply Z.mod_pos_bound; lia.
Qed.

Lemma ndigits_head n d : 0 <= n -> head (ndigits n) = Some d -> d <> 0.
Proof.
  intros Hn. revert d. apply (digits_ind (fun n ds => forall d, head ds = Some d -> d <> 0) ltac:(done)); [|done].
  clear n Hn. intros n Hn IH d. destruct (ndigits (n / radix)) as [|d' ds] eqn:E; [|by apply IH].
  simpl. intros [= <-]. intros Hm. assert (n / radix = 0) as Hq.
  { rewrite <- (ndigits_val (n / radix)), E by (apply Z.div_pos; lia). done. }
  pose proof (Z.div_mod n radix). lia.
Qed.

Lemma ndigits_nonempty n : 0 < n -> ndigits n <> [].
Proof. intros Hn. rewrite ndigits_step by done. by destruct (ndigits _). Qed.

Lemma to_digits_val n : 0 <= n -> digits_val (to_digits n) = n.
Proof.
  intros Hn. destruct (Z.eq_dec n 0) as [->|]; [done|]. rewrite to_digits_ndigits by lia.
  by apply ndigits_val.
Qed.

Lemma to_digits_range n : 0 <= n -> Forall (fun d => 0 <= d < radix) (to_digits n).
Proof.
  intros Hn. destruct (Z.eq_dec n 0) as [->|]; [repeat constructor; lia|].
  rewrite to_digits_ndigits by lia. by apply ndigits_range.
Qed.

Lemma to_digits_nonempty n : 0 <= n -> to_digits n <> [].
Proof.
  intros Hn. destruct (Z.eq_dec n 0) as [->|]; [done|]. rewrite to_digits_ndigits by lia.
  apply ndigits_nonempty; lia.
Qed.

(** No leading zero, but for zero itself. *)
Lemma to_digits_head n : 0 <= n -> head (to_digits n) = Some 0 -> to_digits n = [0].
Proof.
  intros Hn. destruct (Z.eq_dec n 0) as [->|]; [done|]. rewrite to_digits_ndigits by lia.
  intros Hh. by apply ndigits_head in Hh.
Qed.

Lemma to_digits_length n k : 0 <= n < radix ^ Z.of_nat k -> (0 < k)%nat -> (length (to_digits n) <= k)%nat.
Proof.
  intros Hn Hk. destruct (Z.eq_dec n 0) as [->|]; [simpl; lia|]. rewrite to_digits_ndigits by lia.
  destruct (decide (length (ndigits n) <= k)%nat) as [|Hlt]; [done|exfalso].
  pose proof (ndigits_nonempty n ltac:(lia)) as Hne.
  pose proof (ndigits_val n ltac:(lia)) as Hv. pose proof (ndigits_range n ltac:(lia)) as Hr.
  pose proof (fun d => ndigits_head n d ltac:(lia)) as Hh.
  destruct (ndigits n) as [|d ds]; [done|]. specialize (Hh d eq_refl).
  rewrite digits_val_cons in Hv. apply Forall_cons in Hr as [Hd Hr].
  assert (0 <= digits_val ds) as H0.
  { clear -Hr Hradix. induction ds as [|x ds IH] using rev_ind; [done|]. rewrite digits_val_snoc.
    apply Forall_app in Hr as [Hr Hx]. apply Forall_cons in Hx as [Hx _]. specialize (IH Hr). nia. }
  simpl in Hlt. assert (radix ^ Z.of_nat k <= radix ^ Z.of_nat (length ds)) by (apply Z.pow_le_mono_r; lia).
  nia.
Qed.
End digits.

(** ** Digit characters *)

(** Decide the comparisons of the goal, dropping the impossible cases. *)
Ltac zcases :=
  repeat match goal with
  | |- context [(?a <=? ?b)%Z] => destruct (Z.leb_spec a b); try lia; cbn [andb orb]
  | |- context [(?a <? ?b)%Z] => destruct (Z.ltb_spec a b); try lia; cbn [andb orb]
  | |- context [(?a =? ?b)%Z] => destruct (Z.eqb_spec a b); try lia; cbn [andb orb]
  end.

(** The character of a digit, in lower case. *)
Definition digit_char (d : Z) : byte :=
  byte_of (if (d <? 10)%Z then 48 + d else 87 + d).

(** [char::to_digit(radix)] *)
Definition to_digit (radix : Z) (c : byte) : option Z :=
  let v := byte_val c in
  let d := (if (48 <=? v) && (v <=? 57) then v - 48
            else if (97 <=? v) && (v <=? 122) then v - 87
            else if (65 <=? v) && (v <=? 90) then v - 55
            else radix)%Z in
  if (d <? radix)%Z then Some d else None.

Definition is_digit (radix : Z) (c : byte) : bool :=
  match to_digit radix c with Some _ => true | None => false end.

Lemma to_digit_char radix d :
  (0 <= d < radix)%Z -> (radix <= 36)%Z -> to_digit radix (digit_char d) = Some d.
Proof.
  intros Hd Hr. unfold to_digit, digit_char.
  destruct (Z.ltb_spec d 10); rewrite byte_val_of, Z.mod_small by lia; zcases; f_equal; lia.
Qed.

(** A number in a radix. *)
Definition digit_text (radix n : Z) : bytes := digit_char <$> to_digits radix n.

(** [{:x}] *)
Definition fmt_hex (n : Z) : bytes := digit_text 16 n.

(** The longest run of digits at the front of a text. *)
Fixpoint read_digits (radix : Z) (bs : bytes) : list Z * bytes :=
  match bs with
  | [] => ([], [])
  | c :: bs' =>
      match to_digit radix c with
      | Some d => let '(ds, rest) := read_digits radix bs' in (d :: ds, rest)
      | None => ([], bs)
      end
  end.

(** What follows does not go on with a digit. *)
Definition stops (radix : Z) (bs : bytes) : Prop :=
  match bs with [] => True | c :: _ => to_digit radix c = None end.

Lemma read_digits_chars radix ds rest :
  (radix <= 36)%Z -> Forall (fun d => 0 <= d < radix)%Z ds -> stops radix rest ->
  read_digits radix ((digit_char <$> ds) ++ rest) = (ds, rest).
Proof.
  intros Hr Hds Hs. induction Hds as [|d ds Hd Hds IH]; csimpl.
  - destruct rest as [|c rest]; [done|]. simpl in *. by rewrite Hs.
  - by rewrite to_digit_char, IH.
Qed.

Lemma read_digits_text radix n rest :
  (2 <= radix <= 36)%Z -> (0 <= n)%Z -> stops radix rest ->
  read_digits radix (digit_text radix n ++ rest) = (to_digits radix n, rest).
Proof. intros. apply read_digits_chars; [lia|apply to_digits_range; lia|done]. Qed.

Lemma read_digits_split radix bs ds rest :
  read_digits radix bs = (ds, rest) ->
  exists front, bs = front ++ rest /\ length front = length ds /\ stops radix rest
    /\ Forall (fun c => is_digit radix c = true) front.
Proof.
  revert ds rest. induction bs as [|c bs IH]; intros ds rest; simpl.
  { intros [= <- <-]. by exists []. }
  destruct (to_digit radix c) as [d|] eqn:E.
  - destruct (read_digits radix bs) as [ds' rest'] eqn:E'. intros [= <- <-].
    destruct (IH _ _ eq_refl) as (front & -> & Hl & Hs & Hf). exists (c :: front). simpl.
    split; [done|]. split; [lia|]. split; [done|]. constructor; [|done]. unfold is_digit. by rewrite E.
  - intros [= <- <-]. by exists [].
Qed.

(** [{}] of a number is its decimal digits, after a minus sign. *)
Lemma pretty_N_char_digit (x : N) :
  (x < 10)%N -> Ascii.byte_of_ascii (pretty_N_char x) = digit_char (Z.of_N x).
Proof.
  intros Hx. assert (x = 0 \/ x = 1 \/ x = 2 \/ x = 3 \/ x = 4 \/ x = 5 \/ x = 6 \/ x = 7
    \/ x = 8 \/ x = 9)%N as Hc by lia.
  by repeat destruct Hc as [->|Hc]; [..|subst].
Qed.

Lemma pretty_go_digits (x : N) (s : string) :
  lit (pretty_N_go x s) = (digit_char <$> ndigits 10 (Z.of_N x)) ++ lit s.
Proof.
  revert s. induction (N.lt_wf_0 x) as [x _ IH]; intros s.
  destruct (decide (x = 0)%N) as [->|Hx]; [done|].
  rewrite pretty_N_go_step by lia. rewrite IH by (apply N.div_lt; lia).
  rewrite (ndigits_step 10 ltac:(lia) (Z.of_N x)) by lia.
  rewrite fmap_app, <- app_assoc, N2Z.inj_div. f_equal.
  change (Ascii.byte_of_ascii (pretty_N_char (x `mod` 10)) :: lit s
          = digit_char (Z.of_N x `mod` 10) :: lit s).
  rewrite pretty_N_char_digit by (apply N.mod_lt; lia). by rewrite N2Z.inj_mod.
Qed.

Lemma fmt_int_digits n : (0 <= n)%Z -> fmt_int n = digit_text 10 n.
Proof.
  intros Hn. unfold fmt_int, digit_text. destruct n as [|p|p]; [reflexivity| |lia].
  rewrite to_digits_ndigits by lia. unfold pretty, pretty_Z, pretty, pretty_positive, pretty, pretty_N.
  case_decide; [done|]. rewrite pretty_go_digits. by rewrite app_nil_r.
Qed.

Lemma fmt_int_neg n : (n < 0)%Z -> fmt_int n = Byte.x2d :: digit_text 10 (- n).
Proof.
  intros Hn. rewrite <- fmt_int_digits by lia. destruct n as [|p|p]; [lia|lia|]. reflexivity.
Qed.

Lemma digit_text_nonempty radix n : (2 <= radix)%Z -> (0 <= n)%Z -> digit_text radix n <> [].
Proof.
  intros Hr Hn E. apply fmap_nil_inv in E. by eapply (to_digits_nonempty radix Hr n Hn).
Qed.

Lemma digit_text_digits radix n :
  (2 <= radix <= 36)%Z -> (0 <= n)%Z -> Forall (fun c => is_digit radix c = true) (digit_text radix n).
Proof.
  intros Hr Hn. apply Forall_fmap. eapply Forall_impl; [apply (to_digits_range radix ltac:(lia) n Hn)|].
  intros d Hd. simpl in *. unfold is_digit. by rewrite to_digit_char by lia.
Qed.

(** A character that is no digit does not occur in a number. *)
Lemma digit_text_no radix n c :
  (2 <= radix <= 36)%Z -> (0 <= n)%Z -> to_digit radix c = None -> c ∉ digit_text radix n.
Proof.
  intros Hr Hn Hc Hin. pose proof (digit_text_digits radix n Hr Hn) as Hf.
  rewrite list.Forall_forall in Hf. specialize (Hf c Hin). unfold is_digit in Hf. by rewrite Hc in Hf.
Qed.

(** ** [str::parse::<i32>] *)

(** The digits of a magnitude; [None] when there is a character that is none. *)
Definition parse_digits (bs : bytes) : option Z :=
  match read_digits 10 bs with
  | ((_ :: _) as ds, []) => Some (digits_val 10 ds)
  | _ => None
  end.

Definition in_i32 (z : Z) : bool := (- 2 ^ 31 <=? z)%Z && (z <? 2 ^ 31)%Z.

(** A sign alone, no digits, a foreign character and an overflow are errors. *)
Definition parse_i32 (bs : bytes) : option Z :=
  let signed :=
    match bs with
    | Byte.x2d :: ds => Z.opp <$> parse_digits ds
    | Byte.x2b :: ds => parse_digits ds
    | _ => parse_digits bs
    end in
  match signed with
  | Some z => if in_i32 z then Some z else None
  | None => None
  end.

Lemma parse_digits_text n : (0 <= n)%Z -> parse_digits (digit_text 10 n) = Some n.
Proof.
  intros Hn. unfold parse_digits. rewrite <- (app_nil_r (digit_text 10 n)).
  rewrite read_digits_text by (done || lia).
  pose proof (to_digits_nonempty 10 ltac:(lia) n Hn). pose proof (to_digits_val 10 ltac:(lia) n Hn) as Hv.
  destruct (to_digits 10 n); [done|]. by rewrite <- Hv.
Qed.

Lemma parse_i32_fmt z : in_i32 z = true -> parse_i32 (fmt_int z) = Some z.
Proof.
  intros Hz. unfold parse_i32. destruct (Z.ltb_spec z 0) as [Hneg|Hpos].
  - rewrite fmt_int_neg by done. rewrite parse_digits_text by lia. simpl.
    by rewrite Z.opp_involutive, Hz.
  - rewrite fmt_int_digits by done. pose proof (parse_digits_text z Hpos) as Hp.
    pose proof (digit_text_digits 10 z ltac:(lia) Hpos) as Hd.
    destruct (digit_text 10 z) as [|c bs] eqn:E; [by rewrite Hp, Hz|].
    apply Forall_cons in Hd as [Hc _].
    assert (match c :: bs with Byte.x2d :: ds => Z.opp <$> parse_digits ds
            | Byte.x2b :: ds => parse_digits ds | _ => parse_digits (c :: bs) end = Some z) as ->.
    { rewrite <- Hp. by destruct c. }
    by rewrite Hz.
Qed.

(** ** [split] and [join] *)

(** [s.split(c)]: the pieces between the separators; one, empty, for [""]. *)
Fixpoint split_on (c : byte) (bs : bytes) : list bytes :=
  match bs with
  | [] => [[]]
  | b :: bs =>
      if decide (b = c) then [] :: split_on c bs
      else
        match split_on c bs with
        | piece :: pieces => (b :: piece) :: pieces
        | [] => [[b]]
        end
  end.

(** [pieces.join(sep)] *)
Fixpoint join_with (sep : bytes) (pieces : list bytes) : bytes :=
  match pieces with
  | [] => []
  | [piece] => piece
  | piece :: pieces => piece ++ sep ++ join_with sep pieces
  end.

Lemma split_on_nonempty c bs : split_on c bs <> [].
Proof. destruct bs as [|b bs]; simpl; [done|]. case_decide; [done|]. by destruct (split_on c bs). Qed.

Lemma split_on_piece c piece bs :
  c ∉ piece -> split_on c (piece ++ c :: bs) = piece :: split_on c bs.
Proof.
  induction piece as [|b piece IH]; intros Hc; simpl; [by rewrite decide_True|].
  rewrite decide_False by set_solver. rewrite IH by set_solver. done.
Qed.

Lemma split_on_last c piece : c ∉ piece -> split_on c piece = [piece].
Proof.
  induction piece as [|b piece IH]; intros Hc; simpl; [done|].
  rewrite decide_False by set_solver. by rewrite IH by set_solver.
Qed.

(** Splitting undoes joining, but for the empty list, which joins to [""]. *)
Lemma split_join c pieces :
  pieces <> [] -> Forall (fun piece => c ∉ piece) pieces ->
  split_on c (join_with [c] pieces) = pieces.
Proof.
  induction pieces as [|piece pieces IH]; intros Hne Hc; [done|].
  apply Forall_cons in Hc as [Hp Hc]. destruct pieces as [|piece' pieces]; [by apply split_on_last|].
  cbn [join_with]. simpl. rewrite split_on_piece by done. f_equal. by apply IH.
Qed.
