(* ===== verification/Addr.v ===== *)
(** * Socket addresses in text

    [IpAddr] and [SocketAddr] of Rust's standard library, with the parser
    behind [str::parse] ([core::net::parser]) and the [Display] impls, which
    [UnifyAddr] of transport/tcp/src/net.rs relies on.  Every address prints to
    a text that parses back to it. *)

From S2P Require Import Prelude RustStd Text.

(** ** Addresses *)

(** [Ipv4Addr] is its four octets, [Ipv6Addr] its eight segments. *)
Inductive IpAddr :=
| IpV4 (octets : list Z)
| IpV6 (segments : list Z).

Inductive SocketAddr :=
| SockV4 (octets : list Z) (port : Z)
| SockV6 (segments : list Z) (port flowinfo scope_id : Z).

#[export] Instance IpAddr_eq_dec : EqDecision IpAddr.
Proof. solve_decision. Defined.
#[export] Instance SocketAddr_eq_dec : EqDecision SocketAddr.
Proof. solve_decision. Defined.

Definition ip_wf (ip : IpAddr) : Prop :=
  match ip with
  | IpV4 octets => length octets = 4 /\ Forall (in_u 8) octets
  | IpV6 segments => length segments = 8 /\ Forall (in_u 16) segments
  end.

Definition sock_wf (a : SocketAddr) : Prop :=
  match a with
  | SockV4 octets port => ip_wf (IpV4 octets) /\ in_u 16 port
  | SockV6 segments port flow scope =>
      ip_wf (IpV6 segments) /\ in_u 16 port /\ in_u 32 flow /\ in_u 32 scope
  end.

(** [SocketAddr::ip] *)
Definition sock_ip (a : SocketAddr) : IpAddr :=
  match a with SockV4 o _ => IpV4 o | SockV6 s _ _ _ => IpV6 s end.

(** ** Printing *)

Definition colon : bytes := lit ":".
Definition dot : bytes := lit ".".

Definition fmt_v4 (octets : list Z) : bytes := join_with dot (fmt_int <$> octets).

(** The longest run of zero segments: where it starts and its length.  [i] is
    the index of the next segment, [cur] the run that ends there. *)
Fixpoint zero_span (i : nat) (cur longest : nat * nat) (segs : list Z) : nat * nat :=
  match segs with
  | [] => longest
  | s :: segs =>
      if (s =? 0)%Z then
        let cur := ((if (cur.2 =? 0)%nat then i else cur.1), S cur.2) in
        zero_span (S i) cur (if (longest.2 <? cur.2)%nat then cur else longest) segs
      else zero_span (S i) (0, 0) longest segs
  end.

(** [fmt_subslice]: the segments in hexadecimal, separated by colons. *)
Definition fmt_segments (segs : list Z) : bytes := join_with colon (fmt_hex <$> segs).

(** [to_ipv4_mapped]: the address is [::ffff:a.b.c.d]. *)
Definition v4_mapped (segs : list Z) : option (list Z) :=
  match segs with
  | [s0; s1; s2; s3; s4; s5; s6; s7] =>
      if bool_decide ([s0; s1; s2; s3; s4; s5] = [0; 0; 0; 0; 0; 65535]%Z)
      then Some [s6 / 256; s6 mod 256; s7 / 256; s7 mod 256]%Z
      else None
  | _ => None
  end.

Definition fmt_v6 (segs : list Z) : bytes :=
  match v4_mapped segs with
  | Some octets => lit "::ffff:" ++ fmt_v4 octets
  | None =>
      let '(start, len) := zero_span 0 (0, 0) (0, 0) segs in
      if (1 <? len)%nat
      then fmt_segments (take start segs) ++ lit "::" ++ fmt_segments (drop (start + len) segs)
      else fmt_segments segs
  end.

Definition fmt_ip (ip : IpAddr) : bytes :=
  match ip with IpV4 o => fmt_v4 o | IpV6 s => fmt_v6 s end.

Definition fmt_sock (a : SocketAddr) : bytes :=
  match a with
  | SockV4 octets port => fmt_v4 octets ++ colon ++ fmt_int port
  | SockV6 segs port _ scope =>
      lit "[" ++ fmt_v6 segs ++ (if (scope =? 0)%Z then [] else lit "%" ++ fmt_int scope)
        ++ lit "]:" ++ fmt_int port
  end.

(** ** Parsing *)

(** A parser takes a prefix of the text or fails and leaves it. *)
Definition reader (A : Type) : Type := bytes -> option (A * bytes).

Definition read_given_char (c : byte) : reader unit := fun bs =>
  match bs with
  | b :: bs => if decide (b = c) then Some ((), bs) else None
  | [] => None
  end.

(** [read_number]: at most [max_digits] digits, a value of at most [max]. *)
Definition read_number (radix : Z) (max_digits : option nat) (allow_zero_prefix : bool) (max : Z)
    : reader Z := fun bs =>
  let '(ds, rest) := read_digits radix bs in
  let has_leading_zero := match ds with d :: _ => (d =? 0)%Z | [] => false end in
  if match max_digits with Some m => (m <? length ds)%nat | None => false end then None
  else if (length ds =? 0)%nat then None
  else if negb allow_zero_prefix && has_leading_zero && (1 <? length ds)%nat then None
  else if (digits_val radix ds <=? max)%Z then Some (digits_val radix ds, rest) else None.

(** [read_separator]: the separator comes first but for item 0. *)
Definition read_separator {A} (sep : byte) (index : nat) (inner : reader A) : reader A := fun bs =>
  if (0 <? index)%nat then
    match read_given_char sep bs with
    | Some (_, bs) => inner bs
    | None => None
    end
  else inner bs.

(** The items [i], [i + 1], .. of a sequence of [k]. *)
Fixpoint read_items {A} (sep : byte) (inner : reader A) (k i : nat) : reader (list A) := fun bs =>
  match k with
  | O => Some ([], bs)
  | S k =>
      match read_separator sep i inner bs with
      | Some (x, bs) =>
          match read_items sep inner k (S i) bs with
          | Some (xs, bs) => Some (x :: xs, bs)
          | None => None
          end
      | None => None
      end
  end.

Definition read_ipv4_addr : reader (list Z) :=
  read_items Byte.x2e (read_number 10 (Some 3) false 255) 4 0.

(** [read_groups] with [k] groups left: the groups, and whether an IPv4
    address ended them. *)
Fixpoint read_groups (k i : nat) (bs : bytes) : list Z * bool * bytes :=
  match k with
  | O => ([], false, bs)
  | S k =>
      match (if (0 <? k)%nat then read_separator Byte.x3a i read_ipv4_addr bs else None) with
      | Some ([one; two; three; four], bs) => ([one * 256 + two; three * 256 + four]%Z, true, bs)
      | _ =>
          match read_separator Byte.x3a i (read_number 16 (Some 4) true 65535) bs with
          | Some (g, bs) => let '(gs, v4, bs) := read_groups k (S i) bs in (g :: gs, v4, bs)
          | None => ([], false, bs)
          end
      end
  end.

Definition read_ipv6_addr : reader (list Z) := fun bs =>
  let '(head, head_ipv4, bs) := read_groups 8 0 bs in
  if (length head =? 8)%nat then Some (head, bs)
  else if head_ipv4 then None
  else
    match read_given_char Byte.x3a bs with
    | None => None
    | Some (_, bs) =>
        match read_given_char Byte.x3a bs with
        | None => None
        | Some (_, bs) =>
            let '(tail, _, bs) := read_groups (8 - (length head + 1)) 0 bs in
            Some (head ++ replicate (8 - length head - length tail) 0%Z ++ tail, bs)
        end
    end.

Definition read_port : reader Z := fun bs =>
  match read_given_char Byte.x3a bs with
  | Some (_, bs) => read_number 10 None true 65535 bs
  | None => None
  end.

Definition read_scope_id : reader Z := fun bs =>
  match read_given_char Byte.x25 bs with
  | Some (_, bs) => read_number 10 None true u32_MAX bs
  | None => None
  end.

Definition read_socket_addr_v4 : reader SocketAddr := fun bs =>
  match read_ipv4_addr bs with
  | None => None
  | Some (ip, bs) =>
      match read_port bs with
      | Some (port, bs) => Some (SockV4 ip port, bs)
      | None => None
      end
  end.

Definition read_socket_addr_v6 : reader SocketAddr := fun bs =>
  match read_given_char Byte.x5b bs with
  | None => None
  | Some (_, bs) =>
      match read_ipv6_addr bs with
      | None => None
      | Some (ip, bs) =>
          let '(scope_id, bs) :=
            match read_scope_id bs with Some (s, bs) => (s, bs) | None => (0%Z, bs) end in
          match read_given_char Byte.x5d bs with
          | None => None
          | Some (_, bs) =>
              match read_port bs with
              | Some (port, bs) => Some (SockV6 ip port 0 scope_id, bs)
              | None => None
              end
          end
      end
  end.

Definition or_else {A} (p q : reader A) : reader A := fun bs =>
  match p bs with Some r => Some r | None => q bs end.

(** [parse_with]: the whole text is consumed. *)
Definition parse_with {A} (p : reader A) (bs : bytes) : option A :=
  match p bs with
  | Some (a, []) => Some a
  | _ => None
  end.

(** [str::parse::<SocketAddr>] and [str::parse::<IpAddr>] *)
Definition parse_sock : bytes -> option SocketAddr :=
  parse_with (or_else read_socket_addr_v4 read_socket_addr_v6).

Definition parse_ip : bytes -> option IpAddr :=
  parse_with (or_else
    (fun bs => match read_ipv4_addr bs with Some (o, bs) => Some (IpV4 o, bs) | None => None end)
    (fun bs => match read_ipv6_addr bs with Some (s, bs) => Some (IpV6 s, bs) | None => None end)).

Example parse_sock_v4 : parse_sock (lit "127.0.0.1:18555") = Some (SockV4 [127; 0; 0; 1]%Z 18555).
Proof. reflexivity. Qed.
Example parse_sock_v6 :
  parse_sock (lit "[fe80::1%3]:80") = Some (SockV6 [65152; 0; 0; 0; 0; 0; 0; 1]%Z 80 0 3).
Proof. vm_compute. reflexivity. Qed.
Example parse_sock_octal : parse_sock (lit "127.0.0.01:80") = None.
Proof. vm_compute. reflexivity. Qed.
Example parse_sock_mapped :
  parse_sock (lit "[::ffff:1.2.3.4]:80") = Some (SockV6 [0; 0; 0; 0; 0; 65535; 258; 772]%Z 80 0 0).
Proof. vm_compute. reflexivity. Qed.
Example fmt_sock_v6 : fmt_sock (SockV6 [65152; 0; 0; 7; 0; 0; 0; 1]%Z 80 0 3) = lit "[fe80:0:0:7::1%3]:80".
Proof. vm_compute. reflexivity. Qed.

(** ** Reading back what was printed *)

Lemma read_given_char_eq c bs : read_given_char c (c :: bs) = Some ((), bs).
Proof. simpl. by rewrite decide_True. Qed.

Lemma read_separator_0 {A} sep (inner : reader A) bs : read_separator sep 0 inner bs = inner bs.
Proof. done. Qed.

Lemma read_separator_S {A} sep i (inner : reader A) bs :
  read_separator sep (S i) inner (sep :: bs) = inner bs.
Proof. unfold read_separator. by rewrite read_given_char_eq. Qed.

Lemma read_separator_no {A} sep i (inner : reader A) c bs :
  c <> sep -> read_separator sep (S i) inner (c :: bs) = None.
Proof. intros Hc. unfold read_separator; simpl. by rewrite decide_False. Qed.

Lemma read_number_text radix max_digits allow max n rest :
  (2 <= radix <= 36)%Z -> (0 <= n <= max)%Z -> stops radix rest ->
  match max_digits with Some m => (n < radix ^ Z.of_nat m)%Z /\ 0 < m | None => True end ->
  read_number radix max_digits allow max (digit_text radix n ++ rest) = Some (n, rest).
Proof.
  intros Hr Hn Hs Hm. unfold read_number. rewrite read_digits_text by (done || lia).
  pose proof (to_digits_nonempty radix ltac:(lia) n ltac:(lia)) as Hne.
  pose proof (to_digits_head radix ltac:(lia) n ltac:(lia)) as Hh.
  pose proof (to_digits_val radix ltac:(lia) n ltac:(lia)) as Hv.
  assert (match max_digits with Some m => (m <? length (to_digits radix n))%nat | None => false end = false)
    as ->.
  { destruct max_digits as [m|]; [|done]. apply Nat.ltb_ge. apply to_digits_length; [lia|lia|apply Hm]. }
  destruct (to_digits radix n) as [|d ds]; [done|]. rewrite Hv. cbn [length Nat.eqb].
  replace (negb allow && (d =? 0)%Z && (1 <? S (length ds))) with false.
  - by destruct (Z.leb_spec n max); [|lia].
  - symmetry. destruct (Z.eqb_spec d 0) as [->|]; [|by rewrite andb_false_r].
    specialize (Hh eq_refl). injection Hh as ->. by rewrite andb_false_r.
Qed.

(** Items, each after a separator. *)
Definition seps (sep : byte) (ts : list bytes) : bytes := mjoin ((fun t => sep :: t) <$> ts).

Lemma join_with_seps sep t ts : join_with [sep] (t :: ts) = t ++ seps sep ts.
Proof.
  revert t. induction ts as [|t' ts IH]; intros t; [by rewrite app_nil_r|].
  change (join_with [sep] (t :: t' :: ts)) with (t ++ [sep] ++ join_with [sep] (t' :: ts)).
  by rewrite IH.
Qed.

Section items.
Context {A : Type} (sep : byte) (inner : reader A) (stop : bytes -> Prop).

(** [inner] reads [x] from the text [t] when a stop follows. *)
Definition reads_item (x : A) (t : bytes) : Prop :=
  forall rest, stop rest -> inner (t ++ rest) = Some (x, rest).

Lemma read_items_seps xs ts i rest :
  (forall bs, stop (sep :: bs)) -> stop rest -> Forall2 reads_item xs ts ->
  read_items sep inner (length xs) (S i) (seps sep ts ++ rest) = Some (xs, rest).
Proof.
  intros Hsep Hrest Hf. revert i. induction Hf as [|x t xs ts Hx Hf IH]; intros i; [done|].
  cbn [length read_items]. change (seps sep (t :: ts)) with (sep :: t ++ seps sep ts).
  cbn [app]. rewrite read_separator_S, <- app_assoc, Hx; [by rewrite IH|].
  destruct Hf; [done|]. apply Hsep.
Qed.

Lemma read_items_join x t xs ts rest :
  (forall bs, stop (sep :: bs)) -> stop rest -> Forall2 reads_item (x :: xs) (t :: ts) ->
  read_items sep inner (S (length xs)) 0 (join_with [sep] (t :: ts) ++ rest) = Some (x :: xs, rest).
Proof.
  intros Hsep Hrest Hf. apply Forall2_cons_1 in Hf as [Hx Hf]. cbn [read_items].
  rewrite read_separator_0, join_with_seps, <- app_assoc, Hx.
  - by rewrite (read_items_seps xs ts 0 rest).
  - destruct Hf; [done|]. apply Hsep.
Qed.
End items.

Lemma read_ipv4_text octets rest :
  ip_wf (IpV4 octets) -> stops 10 rest ->
  read_ipv4_addr (fmt_v4 octets ++ rest) = Some (octets, rest).
Proof.
  intros [Hl Hf] Hs. destruct octets as [|a [|b [|c [|d []]]]]; try done.
  refine (read_items_join Byte.x2e (read_number 10 (Some 3) false 255) (stops 10) a (fmt_int a)
    [b; c; d] [fmt_int b; fmt_int c; fmt_int d] rest _ Hs _); [intros ?; reflexivity|].
  assert (forall x, in_u 8 x -> reads_item (read_number 10 (Some 3) false 255) (stops 10) x (fmt_int x))
    as Hx.
  { intros x Hx r Hr. unfold in_u in Hx. rewrite fmt_int_digits by lia.
    apply read_number_text; (lia || done || split; lia). }
  decompose_Forall_hyps. repeat (apply list.Forall2_cons; split; [by apply Hx|]). by apply list.Forall2_nil.
Qed.

Lemma read_port_text port rest :
  in_u 16 port -> stops 10 rest -> read_port (colon ++ fmt_int port ++ rest) = Some (port, rest).
Proof.
  intros Hp Hs. unfold in_u in Hp. unfold read_port. simpl. rewrite fmt_int_digits by lia.
  apply read_number_text; (lia || done).
Qed.

Lemma read_scope_text scope rest :
  in_u 32 scope -> stops 10 rest -> read_scope_id (lit "%" ++ fmt_int scope ++ rest) = Some (scope, rest).
Proof.
  intros Hp Hs. unfold in_u in Hp. unfold read_scope_id. simpl. rewrite fmt_int_digits by lia.
  apply read_number_text; (unfold u32_MAX; lia || done).
Qed.

(** *** IPv6 groups *)

(** What follows a group: no hexadecimal digit and no dot. *)
Definition ends_group (bs : bytes) : Prop :=
  match bs with [] => True | c :: _ => to_digit 16 c = None /\ c <> Byte.x2e end.

Lemma dec_hex c : to_digit 16 c = None -> to_digit 10 c = None.
Proof. by destruct c. Qed.

Lemma is_digit_hex c : is_digit 10 c = true -> is_digit 16 c = true.
Proof. by destruct c. Qed.

Lemma ends_group_stops bs : ends_group bs -> stops 16 bs.
Proof. destruct bs; [done|]. by intros []. Qed.

(** A hexadecimal group that no dot follows is no IPv4 address. *)
Lemma read_ipv4_group front rest :
  Forall (fun c => is_digit 16 c = true) front -> ends_group rest ->
  read_ipv4_addr (front ++ rest) = None.
Proof.
  intros Hf He. unfold read_ipv4_addr. cbn [read_items]. rewrite read_separator_0.
  unfold read_number at 1. destruct (read_digits 10 (front ++ rest)) as [ds r] eqn:Ed.
  apply read_digits_split in Ed as (f' & Heq & Hlen & Hs & Hf').
  destruct (_ <? _)%nat; [done|]. destruct (length ds =? 0)%nat; [done|].
  destruct (_ && _ && _); [done|]. destruct (_ <=? _)%Z; [|done].
  destruct r as [|c r]; [done|]. destruct (decide (c = Byte.x2e)) as [->|]; [|by rewrite read_separator_no].
  exfalso.
  apply app_eq_inv in Heq as [(k & -> & Hk)|(k & -> & Hk)].
  - destruct k as [|k0 k]; simplify_eq/=; [by destruct He|].
    apply Forall_app in Hf as [_ Hf]. by inversion Hf.
  - destruct k as [|k0 k]; simplify_eq/=; [by destruct He|]. destruct He as [He _].
    apply Forall_app in Hf' as [_ Hf']. apply list.Forall_cons in Hf' as [Hk _]. apply is_digit_hex in Hk.
    unfold is_digit in Hk. by rewrite He in Hk.
Qed.

Lemma hex_group g : in_u 16 g -> Forall (fun c => is_digit 16 c = true) (fmt_hex g).
Proof. intros Hg. apply digit_text_digits; [lia|unfold in_u in Hg; lia]. Qed.

Lemma read_hex_text g rest :
  in_u 16 g -> ends_group rest ->
  read_number 16 (Some 4) true 65535 (fmt_hex g ++ rest) = Some (g, rest).
Proof.
  intros Hg He. unfold in_u in Hg. apply read_number_text; [lia|lia|by apply ends_group_stops|].
  split; [|lia]. simpl. lia.
Qed.

(** A group is read as such, and not as the start of an IPv4 address. *)
Lemma read_groups_cons k i g rest :
  in_u 16 g -> ends_group rest ->
  read_groups (S k) i ((if (0 <? i)%nat then colon else []) ++ fmt_hex g ++ rest)
  = let '(gs, v4, bs) := read_groups k (S i) rest in (g :: gs, v4, bs).
Proof.
  intros Hg He. cbn [read_groups].
  assert (forall A (p : reader A), read_separator Byte.x3a i p
    ((if (0 <? i)%nat then colon else []) ++ fmt_hex g ++ rest) = p (fmt_hex g ++ rest)) as Hsep.
  { intros A p. unfold read_separator. by destruct (0 <? i)%nat. }
  rewrite !Hsep, read_ipv4_group, read_hex_text by (done || by apply hex_group).
  by destruct (0 <? k)%nat.
Qed.

(** The text on which [read_groups] stops: nothing that continues the list. *)
Definition ends_list (i : nat) (bs : bytes) : Prop :=
  match bs with
  | [] => True
  | c :: bs' =>
      to_digit 16 c = None /\ c <> Byte.x2e
      /\ (0 < i -> c = Byte.x3a -> match bs' with [] => True | c' :: _ => to_digit 16 c' = None end)
  end.

Lemma ends_list_group i bs : ends_list i bs -> ends_group bs.
Proof. destruct bs; [done|]. by intros (? & ? & _). Qed.

Lemma read_ipv4_stop bs : stops 16 bs -> read_ipv4_addr bs = None.
Proof.
  destruct bs as [|c bs]; intros Hs; [done|]. simpl in Hs. unfold read_ipv4_addr. cbn [read_items].
  rewrite read_separator_0. unfold read_number. simpl. by rewrite (dec_hex c Hs).
Qed.

Lemma read_groups_stop k i bs : ends_list i bs -> read_groups k i bs = ([], false, bs).
Proof.
  intros He. destruct k as [|k]; [done|]. cbn [read_groups].
  assert (forall A (p : reader A), (forall bs, stops 16 bs -> p bs = None) ->
    read_separator Byte.x3a i p bs = None) as Hsep.
  { intros A p Hp. unfold read_separator. destruct (Nat.ltb_spec 0 i) as [Hi|Hi].
    - destruct bs as [|c bs]; [done|]. simpl. destruct (decide (c = Byte.x3a)) as [->|]; [|done].
      destruct He as (_ & _ & He). apply Hp. by apply He.
    - apply Hp. destruct bs; [done|]. by destruct He. }
  rewrite !Hsep; [by destruct (0 <? k)%nat| |by apply read_ipv4_stop].
  intros bs' Hs. unfold read_number. destruct bs' as [|c bs']; [done|]. simpl in *. by rewrite Hs.
Qed.

Lemma read_groups_seps k i gs rest :
  length gs <= k -> Forall (in_u 16) gs -> ends_list (S i + length gs) rest ->
  read_groups k (S i) (seps Byte.x3a (fmt_hex <$> gs) ++ rest) = (gs, false, rest).
Proof.
  intros Hk Hf. revert k i Hk. induction Hf as [|g gs Hg Hf IH]; intros k i Hk He; simpl in Hk.
  - apply read_groups_stop. simpl in He. by rewrite Nat.add_0_r in He.
  - destruct k as [|k]; [lia|].
    assert (ends_group (seps Byte.x3a (fmt_hex <$> gs) ++ rest)) as Hg'.
    { destruct gs; [by eapply ends_list_group|done]. }
    replace (seps Byte.x3a (fmt_hex <$> g :: gs) ++ rest)
      with (colon ++ fmt_hex g ++ seps Byte.x3a (fmt_hex <$> gs) ++ rest)
      by (unfold seps; csimpl; by rewrite <- app_assoc).
    refine (eq_trans (read_groups_cons k (S i) g _ Hg Hg') _).
    rewrite IH; [done|lia|]. simpl in He. by replace (S (S i) + length gs) with (S (i + S (length gs))) by lia.
Qed.

Lemma read_groups_text k gs rest :
  length gs <= k -> Forall (in_u 16) gs -> ends_list (length gs) rest ->
  read_groups k 0 (fmt_segments gs ++ rest) = (gs, false, rest).
Proof.
  intros Hk Hf He. unfold fmt_segments. destruct gs as [|g gs]; [by apply read_groups_stop|].
  destruct k as [|k]; [simpl in Hk; lia|]. 
  change (fmt_hex <$> g :: gs) with (fmt_hex g :: (fmt_hex <$> gs)).
  change colon with [Byte.x3a]. rewrite join_with_seps, <- app_assoc. apply list.Forall_cons in Hf as [Hg Hf].
  assert (ends_group (seps Byte.x3a (fmt_hex <$> gs) ++ rest)) as Hg'
    by (destruct gs; [by eapply ends_list_group|done]).
  refine (eq_trans (read_groups_cons k 0 g _ Hg Hg') _).
  rewrite read_groups_seps; [done|simpl in Hk; lia|done|done].
Qed.

(** *** The compressed run *)

(** [n] zeros from position [s] on. *)
Definition zeros_at (l : list Z) (span : nat * nat) : Prop :=
  span.1 + span.2 <= length l /\ take span.2 (drop span.1 l) = replicate span.2 0%Z.

Lemma zeros_at_app l l' span : zeros_at l span -> zeros_at (l ++ l') span.
Proof.
  intros [Hl Hz]. split; [rewrite length_app; lia|].
  rewrite drop_app_le, take_app_le by (rewrite ?length_drop; lia). done.
Qed.

Lemma zeros_at_nil l : zeros_at l (0, 0).
Proof. split; [simpl; lia|done]. Qed.

Lemma zero_span_zeros segs pre cur longest :
  zeros_at pre longest -> zeros_at pre cur -> (cur.2 = 0 \/ cur.1 + cur.2 = length pre) ->
  zeros_at (pre ++ segs) (zero_span (length pre) cur longest segs).
Proof.
  revert pre cur longest. induction segs as [|s segs IH]; intros pre cur longest Hl Hc Hend; simpl.
  { by rewrite app_nil_r. }
  replace (pre ++ s :: segs) with ((pre ++ [s]) ++ segs) by (by rewrite <- app_assoc).
  replace (S (length pre)) with (length (pre ++ [s])) by (rewrite length_app; simpl; lia).
  destruct (Z.eqb_spec s 0) as [->|]; [|apply IH; [by apply zeros_at_app|apply zeros_at_nil|by left]].
  set (cur' := ((if (cur.2 =? 0)%nat then length pre else cur.1), S cur.2)).
  assert (zeros_at (pre ++ [0%Z]) cur') as Hc'.
  { destruct Hc as [Hc1 Hc2]. split; simpl; [rewrite length_app; simpl; case_match; breflect; lia|].
    assert ((if (cur.2 =? 0)%nat then length pre else cur.1) = length pre - cur.2) as ->
      by (case_match; breflect; lia).
    assert (length pre - cur.2 = cur.1 \/ cur.2 = 0) as Hcase by lia.
    assert (take cur.2 (drop (length pre - cur.2) pre) = replicate cur.2 0%Z) as Hz.
    { destruct Hcase as [-> | ->]; done. }
    rewrite drop_app_le by lia. rewrite take_app_ge by (rewrite length_drop; lia).
    rewrite length_drop. replace (S cur.2 - (length pre - (length pre - cur.2))) with 1 by lia.
    rewrite <- (take_ge (drop (length pre - cur.2) pre) cur.2) by (rewrite length_drop; lia).
    rewrite Hz. simpl. by rewrite <- replicate_cons_app. }
  apply IH; [|done|right; simpl; rewrite length_app; simpl; case_match; breflect; lia].
  case_match; [done|by apply zeros_at_app].
Qed.

Lemma zero_span_split segs start len :
  zero_span 0 (0, 0) (0, 0) segs = (start, len) ->
  start + len <= length segs
  /\ segs = take start segs ++ replicate len 0%Z ++ drop (start + len) segs.
Proof.
  intros E. pose proof (zero_span_zeros segs [] (0, 0) (0, 0) (zeros_at_nil _) (zeros_at_nil _)
    (or_introl eq_refl)) as [Hl Hz]. simpl in Hl, Hz. rewrite E in Hl, Hz. simpl in Hl, Hz.
  split; [done|]. rewrite <- Hz, <- drop_drop. by rewrite !take_drop.
Qed.

(** *** Whole addresses *)

(** What follows an address: none of its characters. *)
Definition ends_addr (bs : bytes) : Prop :=
  match bs with [] => True | c :: _ => to_digit 16 c = None /\ c <> Byte.x2e /\ c <> Byte.x3a end.

Lemma ends_addr_list i bs : ends_addr bs -> ends_list i bs.
Proof. destruct bs as [|c bs]; [done|]. by intros (? & ? & ?). Qed.

Lemma ends_addr_stops bs : ends_addr bs -> stops 10 bs.
Proof. destruct bs as [|c bs]; [done|]. intros (? & ? & ?). by apply dec_hex. Qed.

Lemma v4_mapped_spec segs octets :
  ip_wf (IpV6 segs) -> v4_mapped segs = Some octets ->
  exists a b c d, octets = [a; b; c; d] /\ ip_wf (IpV4 octets)
    /\ segs = [0; 0; 0; 0; 0; 65535; a * 256 + b; c * 256 + d]%Z.
Proof.
  intros [Hl Hf]. unfold v4_mapped. destruct segs as [|s0 [|s1 [|s2 [|s3 [|s4 [|s5 [|s6 [|s7 []]]]]]]]]; try done.
  case_bool_decide as E; [|done]. simplify_eq. intros [= <-].
  assert (in_u 16 s6 /\ in_u 16 s7) as [H6 H7] by (decompose_Forall_hyps; done). unfold in_u in *.
  exists (s6 / 256)%Z, (s6 mod 256)%Z, (s7 / 256)%Z, (s7 mod 256)%Z. split; [done|]. split.
  - split; [done|]. pose proof (Z.mod_pos_bound s6 256). pose proof (Z.mod_pos_bound s7 256).
    repeat constructor; unfold in_u; try lia; try (apply Z.div_pos; lia); apply Z.div_lt_upper_bound; lia.
  - pose proof (Z.div_mod s6 256). pose proof (Z.div_mod s7 256). repeat f_equal; lia.
Qed.

Lemma read_groups_v4 k i a b c d rest :
  ip_wf (IpV4 [a; b; c; d]) -> ends_addr rest -> 0 < k ->
  read_groups (S k) (S i) (Byte.x3a :: fmt_v4 [a; b; c; d] ++ rest)
  = ([a * 256 + b; c * 256 + d]%Z, true, rest).
Proof.
  intros Hwf He Hk. cbn [read_groups]. destruct (Nat.ltb_spec 0 k); [|lia].
  by rewrite read_separator_S, read_ipv4_text by (done || by apply ends_addr_stops).
Qed.

Lemma read_ipv6_mapped a b c d rest :
  ip_wf (IpV4 [a; b; c; d]) -> ends_addr rest ->
  read_ipv6_addr (lit "::ffff:" ++ fmt_v4 [a; b; c; d] ++ rest)
  = Some ([0; 0; 0; 0; 0; 65535; a * 256 + b; c * 256 + d]%Z, rest).
Proof.
  intros Hwf He. unfold read_ipv6_addr.
  change (lit "::ffff:" ++ fmt_v4 [a; b; c; d] ++ rest)
    with (Byte.x3a :: Byte.x3a :: fmt_hex 65535 ++ Byte.x3a :: fmt_v4 [a; b; c; d] ++ rest).
  rewrite read_groups_stop by (split; [done|split; [done|lia]]).
  cbn [length Nat.eqb]. rewrite !read_given_char_eq.
  assert (read_groups 7 0 (fmt_hex 65535 ++ Byte.x3a :: fmt_v4 [a; b; c; d] ++ rest)
    = ([65535; a * 256 + b; c * 256 + d]%Z, true, rest)) as Hg.
  { assert (ends_group (Byte.x3a :: fmt_v4 [a; b; c; d] ++ rest)) as Hg by done.
    refine (eq_trans (read_groups_cons 6 0 65535 _ ltac:(unfold in_u; lia) Hg) _).
    by rewrite (read_groups_v4 5 0 a b c d rest Hwf He ltac:(lia)). }
  cbn [Nat.sub Nat.add]. rewrite Hg. done.
Qed.

Lemma read_ipv6_text segs rest :
  ip_wf (IpV6 segs) -> ends_addr rest -> read_ipv6_addr (fmt_v6 segs ++ rest) = Some (segs, rest).
Proof.
  intros Hwf He. unfold fmt_v6. destruct (v4_mapped segs) as [octets|] eqn:Em.
  { apply v4_mapped_spec in Em as (a & b & c & d & -> & Ho & ->); [|done].
    rewrite <- app_assoc. by apply read_ipv6_mapped. }
  destruct Hwf as [Hl Hf]. destruct (zero_span 0 (0, 0) (0, 0) segs) as [start len] eqn:Ez.
  apply zero_span_split in Ez as [Hb Hz]. unfold read_ipv6_addr.
  destruct (Nat.ltb_spec 1 len) as [Hlen|_].
  - rewrite <- !app_assoc.
    rewrite read_groups_text; [|rewrite length_take; lia|by apply Forall_take|].
    2:{ split; [done|]. split; [done|]. intros _ _. done. }
    rewrite length_take, Nat.min_l by lia. destruct (Nat.eqb_spec start 8); [lia|].
    change (lit "::" ++ fmt_segments (drop (start + len) segs) ++ rest)
      with (Byte.x3a :: Byte.x3a :: fmt_segments (drop (start + len) segs) ++ rest).
    rewrite !read_given_char_eq.
    rewrite read_groups_text; [|rewrite length_drop; lia|by apply Forall_drop|by apply ends_addr_list].
    rewrite length_drop. replace (8 - start - (length segs - (start + len))) with len by lia.
    by rewrite <- Hz.
  - rewrite read_groups_text; [|lia|done|by apply ends_addr_list]. by rewrite Hl.
Qed.

(** An address without flow label prints to a text that parses to it. *)
Definition plain (a : SocketAddr) : Prop :=
  match a with SockV4 _ _ => True | SockV6 _ _ flow _ => flow = 0%Z end.

Lemma read_port_end port : in_u 16 port -> read_port (colon ++ fmt_int port) = Some (port, []).
Proof. intros Hp. rewrite <- (app_nil_r (fmt_int port)). by apply read_port_text. Qed.

Lemma parse_sock_fmt a : sock_wf a -> plain a -> parse_sock (fmt_sock a) = Some a.
Proof.
  intros Hwf Hp. unfold parse_sock, parse_with, or_else. destruct a as [octets port|segs port flow scope].
  - destruct Hwf as [Hip Hport]. cbn [fmt_sock]. unfold read_socket_addr_v4.
    rewrite read_ipv4_text by done. by rewrite read_port_end.
  - destruct Hwf as (Hip & Hport & _ & Hscope). simpl in Hp. subst flow. cbn [fmt_sock].
    set (tail := (if (scope =? 0)%Z then [] else lit "%" ++ fmt_int scope) ++ lit "]:" ++ fmt_int port).
    change (lit "[" ++ fmt_v6 segs ++ tail) with (Byte.x5b :: fmt_v6 segs ++ tail).
    unfold read_socket_addr_v4. rewrite read_ipv4_stop by done. unfold read_socket_addr_v6.
    rewrite read_given_char_eq, read_ipv6_text; [|done|].
    + assert (match read_scope_id tail with Some (s, bs) => (s, bs) | None => (0%Z, tail) end
        = (scope, lit "]:" ++ fmt_int port)) as ->.
      { unfold tail. destruct (Z.eqb_spec scope 0) as [->|]; [done|].
        rewrite <- app_assoc. by rewrite read_scope_text. }
      change (lit "]:" ++ fmt_int port) with (Byte.x5d :: colon ++ fmt_int port).
      by rewrite read_given_char_eq, read_port_end.
    + unfold tail. by destruct (scope =? 0)%Z.
Qed.

(** The text of an IPv6 address is not that of an IPv4 address. *)
Lemma fmt_segments_v4 g g' gs rest :
  in_u 16 g -> read_ipv4_addr (fmt_segments (g :: g' :: gs) ++ rest) = None.
Proof.
  intros Hg. unfold fmt_segments. change colon with [Byte.x3a].
  change (fmt_hex <$> g :: g' :: gs) with (fmt_hex g :: (fmt_hex <$> g' :: gs)).
  rewrite join_with_seps, <- app_assoc. apply read_ipv4_group; [by apply hex_group|done].
Qed.

Lemma read_ipv4_v6 segs : ip_wf (IpV6 segs) -> read_ipv4_addr (fmt_v6 segs) = None.
Proof.
  intros [Hl Hf]. unfold fmt_v6. destruct (v4_mapped segs); [by rewrite read_ipv4_stop|].
  destruct (zero_span 0 (0, 0) (0, 0) segs) as [start len].
  destruct segs as [|g [|g' segs]]; [done|done|]. apply list.Forall_cons in Hf as [Hg _].
  destruct (1 <? len)%nat.
  - destruct start as [|[|start]]; cbn [take].
    + by rewrite read_ipv4_stop.
    + unfold fmt_segments; simpl. apply read_ipv4_group; [by apply hex_group|done].
    + by apply fmt_segments_v4.
  - rewrite <- (app_nil_r (fmt_segments _)). by apply fmt_segments_v4.
Qed.

Lemma parse_ip_fmt ip : ip_wf ip -> parse_ip (fmt_ip ip) = Some ip.
Proof.
  intros Hwf. unfold parse_ip, parse_with, or_else. destruct ip as [octets|segs]; cbn [fmt_ip].
  - rewrite <- (app_nil_r (fmt_v4 octets)). by rewrite read_ipv4_text.
  - rewrite read_ipv4_v6 by done. rewrite <- (app_nil_r (fmt_v6 segs)). by rewrite read_ipv6_text.
Qed.

(** An address without port is no socket address. *)
Lemma parse_sock_ip ip : ip_wf ip -> parse_sock (fmt_ip ip) = None.
Proof.
  intros Hwf. unfold parse_sock, parse_with, or_else.
  unfold read_socket_addr_v4, read_socket_addr_v6. destruct ip as [octets|segs]; cbn [fmt_ip].
  - pose proof (read_ipv4_text octets [] Hwf I) as Hr. rewrite app_nil_r in Hr. rewrite Hr. simpl.
    destruct (fmt_v4 octets) as [|c bs]; [done|]. simpl. case_decide as Hc; [subst|done].
    by rewrite read_ipv4_stop in Hr.
  - pose proof (read_ipv6_text segs [] Hwf I) as Hr. rewrite app_nil_r in Hr.
    rewrite read_ipv4_v6 by done. destruct (fmt_v6 segs) as [|c bs]; [done|]. simpl.
    case_decide as Hc; [subst|done]. unfold read_ipv6_addr in Hr.
    by rewrite read_groups_stop in Hr by done.
Qed.
