(* ===== verification/Errors.v ===== *)
(** * core/src/error.rs: error types and their wire form

    [RpcIntErr] (framework errors, sent as their [rpc_*] text), [EncodedErr]
    (the transport's container), [RpcError] (what a caller sees) and the
    [RpcErrCodec] interface with its instances for numbers, [()], [String]
    and [nix::errno::Errno]. *)

From S2P Require Import Prelude RustStd.

(** "rpc_" prefix is reserved for internal errors *)
Definition RPC_ERR_PREFIX : bytes := lit "rpc_".

Inductive RpcIntErr :=
| Unreachable
| IO
| Timeout
| Method
| Service
| Encode
| Decode
| Internal
| Version.

#[export] Instance RpcIntErr_eq_dec : EqDecision RpcIntErr.
Proof. solve_decision. Defined.

(** The [repr(u8)] discriminants. *)
Definition RpcIntErr_discr (e : RpcIntErr) : Z :=
  match e with
  | Unreachable => 0
  | IO => 1
  | Timeout => 2
  | Method => 3
  | Service => 4
  | Encode => 5
  | Decode => 6
  | Internal => 7
  | Version => 8
  end.

(** Derived [PartialOrd]: the order of the discriminants. *)
Definition RpcIntErr_lt (a b : RpcIntErr) : bool :=
  (RpcIntErr_discr a <? RpcIntErr_discr b)%Z.

(** [strum::AsRefStr] and [strum::Display] *)
Definition RpcIntErr_as_ref (e : RpcIntErr) : bytes :=
  match e with
  | Unreachable => lit "rpc_unreachable"
  | IO => lit "rpc_io_err"
  | Timeout => lit "rpc_timeout"
  | Method => lit "rpc_method_notfound"
  | Service => lit "rpc_service_notfound"
  | Encode => lit "rpc_encode"
  | Decode => lit "rpc_decode"
  | Internal => lit "rpc_internal_err"
  | Version => lit "rpc_invalid_ver"
  end.

Definition RpcIntErr_as_bytes (e : RpcIntErr) : bytes := RpcIntErr_as_ref e.

Definition RpcIntErr_all : list RpcIntErr :=
  [Unreachable; IO; Timeout; Method; Service; Encode; Decode; Internal; Version].

(** [strum::EnumString]: the variant whose serialization is the text. *)
Definition RpcIntErr_from_str (s : bytes) : result RpcIntErr unit :=
  match list_find (fun e => RpcIntErr_as_ref e = s) RpcIntErr_all with
  | Some (_, e) => Ok e
  | None => Err ()
  end.

(** [From<std::io::Error> for RpcIntErr] *)
Definition RpcIntErr_from_io (_ : io_error) : RpcIntErr := IO.

(** A container for error messages parsed from or sent into the transport. *)
Inductive EncodedErr :=
| EncRpc (e : RpcIntErr)
| EncNum (n : Z)
| EncStatic (s : bytes)
| EncBuf (b : bytes).

#[export] Instance EncodedErr_eq_dec : EqDecision EncodedErr.
Proof. solve_decision. Defined.

Definition EncodedErr_try_as_str (e : EncodedErr) : result bytes unit :=
  match e with
  | EncStatic s => Ok s
  | EncBuf b => if utf8_valid b then Ok b else Err ()
  | _ => Err ()
  end.

(** [PartialEq for EncodedErr]: a static text equals the buffer holding it. *)
Definition EncodedErr_eqb (self other : EncodedErr) : bool :=
  match self with
  | EncRpc e => match other with EncRpc o => bool_decide (e = o) | _ => false end
  | EncNum e => match other with EncNum o => bool_decide (e = o) | _ => false end
  | EncStatic s =>
      match EncodedErr_try_as_str other with
      | Ok o => bool_decide (s = o)
      | Err _ => false
      end
  | EncBuf s =>
      match other with
      | EncBuf o => bool_decide (s = o)
      | _ =>
          match EncodedErr_try_as_str other with
          | Ok o => if utf8_valid s then bool_decide (s = o) else false
          | Err _ => false
          end
      end
  end.

(** [Display for EncodedErr] *)
Definition EncodedErr_fmt (e : EncodedErr) : bytes :=
  match e with
  | EncRpc e => RpcIntErr_as_ref e
  | EncNum no => lit "errno " ++ fmt_int no
  | EncStatic s => s
  | EncBuf b =>
      if utf8_valid b then b
      else lit "err blob " ++ fmt_int (zlen b) ++ lit " length"
  end.

(** [From<RpcIntErr> for EncodedErr] *)
Definition EncodedErr_from (e : RpcIntErr) : EncodedErr := EncRpc e.

(** ** [RpcErrCodec]: how a user error type travels

    [buf] is [Ok n] for an errno and [Err text] for an error string. *)
Class RpcErrCodec (C E : Type) := {
  err_encode : C -> E -> EncodedErr;
  err_decode : C -> result Z bytes -> result E unit;
  err_fmt : E -> bytes;
}.

(** What a caller of an API method sees. *)
Inductive RpcError (E : Type) :=
| User (e : E)
| Rpc (e : RpcIntErr).
Arguments User {E} e.
Arguments Rpc {E} e.

#[export] Instance RpcError_eq_dec {E} `{EqDecision E} : EqDecision (RpcError E).
Proof. solve_decision. Defined.

(** [Display for RpcError] *)
Definition RpcError_fmt {C E} `{RpcErrCodec C E} (e : RpcError E) : bytes :=
  match e with
  | User e => err_fmt e
  | Rpc e => RpcIntErr_as_ref e
  end.

(** [PartialEq<RpcIntErr>], [PartialEq<E>] and [PartialEq<RpcError<E>>] *)
Definition RpcError_eq_int {E} (self : RpcError E) (other : RpcIntErr) : bool :=
  match self with
  | Rpc r => bool_decide (r = other)
  | User _ => false
  end.

Definition RpcError_eq_user {E} `{EqDecision E} (self : RpcError E) (other : E) : bool :=
  match self with
  | User r => bool_decide (r = other)
  | Rpc _ => false
  end.

Definition RpcError_eqb {E} `{EqDecision E} (self other : RpcError E) : bool :=
  match self with
  | Rpc r => match other with Rpc o => bool_decide (r = o) | User _ => false end
  | User r => match other with User o => bool_decide (r = o) | Rpc _ => false end
  end.

(** [From<E>], [From<&str>] and [From<RpcIntErr> for RpcError<E>] *)
Definition RpcError_from {E} (e : E) : RpcError E := User e.
Definition RpcError_from_str (e : bytes) : RpcError bytes := User e.
Definition RpcError_from_int {E} (e : RpcIntErr) : RpcError E := Rpc e.

(** ** The instances the crate provides *)

Section codecs.
Context {C : Type}.
Local Open Scope Z_scope.

(** The integer types of [impl_rpc_error_for_num!]. *)
Record num_ty := { nt_width : Z; nt_signed : bool }.

Definition ty_i8 : num_ty := {| nt_width := 8; nt_signed := true |}.
Definition ty_u8 : num_ty := {| nt_width := 8; nt_signed := false |}.
Definition ty_i16 : num_ty := {| nt_width := 16; nt_signed := true |}.
Definition ty_u16 : num_ty := {| nt_width := 16; nt_signed := false |}.
Definition ty_i32 : num_ty := {| nt_width := 32; nt_signed := true |}.
Definition ty_u32 : num_ty := {| nt_width := 32; nt_signed := false |}.

Definition num_types : list num_ty := [ty_i8; ty_u8; ty_i16; ty_u16; ty_i32; ty_u32].

(** [i as t] and the values of [t]. *)
Definition num_cast (t : num_ty) (i : Z) : Z :=
  if nt_signed t then swrap (nt_width t) i else wrap (nt_width t) i.

Definition num_in (t : num_ty) (v : Z) : Prop :=
  if nt_signed t then in_i (nt_width t) v else in_u (nt_width t) v.

(** [$t::max] names the method [Ord::max] of the type, so [$t::max as u32]
    is the address of that function truncated to 32 bits.  The address is
    chosen by the linker. *)
Variable max_fn_addr : num_ty -> Z.

Definition num_err_encode (v : Z) : EncodedErr := EncNum (as_u32 v).

Definition num_err_decode (t : num_ty) (buf : result Z bytes) : result Z unit :=
  match buf with
  | Ok i => if i <=? as_u32 (max_fn_addr t) then Ok (num_cast t i) else Err ()
  | Err _ => Err ()
  end.

Definition num_err_fmt (v : Z) : bytes := lit "errno " ++ fmt_int v.

Definition num_RpcErrCodec (t : num_ty) : RpcErrCodec C Z := {|
  err_encode _ v := num_err_encode v;
  err_decode _ buf := num_err_decode t buf;
  err_fmt := num_err_fmt;
|}.

(** [nix::errno::Errno] and its conversions are the [nix] crate's. *)
Context {Errno : Type}.
Variable errno_raw : Errno -> Z.
Variable errno_from_raw : Z -> Errno.
Variable errno_debug : Errno -> bytes.

Definition errno_err_encode (e : Errno) : EncodedErr := EncNum (as_u32 (errno_raw e)).

Definition errno_err_decode (buf : result Z bytes) : result Errno unit :=
  match buf with
  | Ok i => if i <=? as_u32 (max_fn_addr ty_i32) then Ok (errno_from_raw (as_i32 i)) else Err ()
  | Err _ => Err ()
  end.

Definition errno_RpcErrCodec : RpcErrCodec C Errno := {|
  err_encode _ e := errno_err_encode e;
  err_decode _ buf := errno_err_decode buf;
  err_fmt := errno_debug;
|}.

(** [()] *)
Definition unit_err_encode (_ : unit) : EncodedErr := EncNum 0.

Definition unit_err_decode (buf : result Z bytes) : result unit unit :=
  match buf with
  | Ok i => if i =? 0 then Ok () else Err ()
  | Err _ => Err ()
  end.

#[export] Instance unit_RpcErrCodec : RpcErrCodec C unit := {|
  err_encode _ e := unit_err_encode e;
  err_decode _ buf := unit_err_decode buf;
  err_fmt _ := lit "err";
|}.

(** [String] *)
Definition string_err_encode (s : bytes) : EncodedErr := EncBuf s.

Definition string_err_decode (buf : result Z bytes) : result bytes unit :=
  match buf with
  | Err s => if utf8_valid s then Ok s else Err ()
  | Ok _ => Err ()
  end.

#[export] Instance string_RpcErrCodec : RpcErrCodec C bytes := {|
  err_encode _ e := string_err_encode e;
  err_decode _ buf := string_err_decode buf;
  err_fmt e := e;
|}.
End codecs.

(** A user error reaches the caller: the form it is sent in decodes to it,
    and is not taken for a framework error on the way. *)
Definition err_travels {C E} `{RpcErrCodec C E} (c : C) (e : E) : Prop :=
  match err_encode c e with
  | EncNum n => in_u 32 n /\ err_decode c (Ok n) = Ok e
  | EncBuf b => err_decode c (Err b) = Ok e /\ RpcIntErr_from_str b = Err () /\ (zlen b <= i32_MAX)%Z
  | EncStatic _ | EncRpc _ => False
  end.

(** ** Properties *)

Lemma RpcIntErr_all_complete e : e ∈ RpcIntErr_all.
Proof. destruct e; set_solver. Qed.

Lemma RpcIntErr_as_ref_inj : Inj (=) (=) RpcIntErr_as_ref.
Proof. intros a b. destruct a, b; vm_compute; congruence. Qed.

Lemma RpcIntErr_from_str_as_ref e : RpcIntErr_from_str (RpcIntErr_as_ref e) = Ok e.
Proof. by destruct e; vm_compute. Qed.

Lemma RpcIntErr_from_str_inv s e : RpcIntErr_from_str s = Ok e -> s = RpcIntErr_as_ref e.
Proof.
  unfold RpcIntErr_from_str. intros H. case_match eqn:E; [|done].
  destruct p as [i e']; simplify_eq.
  apply list_find_Some in E as (_ & <- & _). done.
Qed.

Lemma RpcIntErr_text_prefix e : starts_with (RpcIntErr_as_bytes e) RPC_ERR_PREFIX = true.
Proof. by destruct e; vm_compute. Qed.

Lemma RpcIntErr_text_utf8 e : utf8_valid (RpcIntErr_as_bytes e) = true.
Proof. by destruct e; vm_compute. Qed.

Lemma RpcIntErr_text_len e : (0 < zlen (RpcIntErr_as_bytes e) <= 20)%Z.
Proof. destruct e; vm_compute; done. Qed.

(** A text without the reserved prefix is never a framework error. *)
Lemma RpcIntErr_from_str_no_prefix s :
  starts_with s RPC_ERR_PREFIX = false -> RpcIntErr_from_str s = Err ().
Proof.
  intros H. destruct (RpcIntErr_from_str s) as [e|[]] eqn:E; [|done].
  apply RpcIntErr_from_str_inv in E as ->.
  pose proof (RpcIntErr_text_prefix e) as H'. unfold RpcIntErr_as_bytes in H'. congruence.
Qed.

#[export] Hint Resolve RpcIntErr_from_str_as_ref RpcIntErr_text_prefix RpcIntErr_text_utf8 : rpc.

Lemma num_types_width t :
  t ∈ num_types -> (0 < nt_width t)%Z /\ (2 ^ nt_width t | 2 ^ 32)%Z.
Proof.
  intros Ht. repeat (apply elem_of_cons in Ht as [->|Ht]); [..|by apply not_elem_of_nil in Ht];
    (split; [done|]); apply Z.mod_divide; vm_compute; done.
Qed.

Lemma num_cast_as_u32 t v : t ∈ num_types -> num_in t v -> num_cast t (as_u32 v) = v.
Proof.
  intros [Hw Hdiv]%num_types_width Hv.
  assert (2 ^ nt_width t <> 0)%Z by (apply Z.pow_nonzero; lia).
  unfold as_u32, num_cast, num_in, wrap in *. destruct (nt_signed t).
  - unfold swrap. rewrite <- Z.add_mod_idemp_l, Z.mod_mod_divide, Z.add_mod_idemp_l by done.
    by apply swrap_small.
  - rewrite Z.mod_mod_divide by done. by apply Z.mod_small.
Qed.

(** C38: the text form of framework errors is a bijection onto nine [rpc_]-prefixed
    UTF-8 texts of at most 20 bytes: a text parses to [e] exactly when it is the
    text of [e]. *)
Theorem rpc_int_err_text_bijective (s : bytes) (e : RpcIntErr) :
  (RpcIntErr_from_str s = Ok e <-> s = RpcIntErr_as_bytes e)
  /\ starts_with (RpcIntErr_as_bytes e) RPC_ERR_PREFIX = true
  /\ utf8_valid (RpcIntErr_as_bytes e) = true
  /\ (0 < zlen (RpcIntErr_as_bytes e) <= 20)%Z.
Proof.
  split; [|by auto using RpcIntErr_text_prefix, RpcIntErr_text_utf8, RpcIntErr_text_len].
  split; [apply RpcIntErr_from_str_inv|intros ->; apply RpcIntErr_from_str_as_ref].
Qed.

(** C39: a numeric user error comes back unchanged exactly when its [as u32] image
    does not exceed the truncated address of the type's [Ord::max] function, which
    is what [$t::max as u32] compares against. *)
Theorem num_err_roundtrip_iff (max_fn_addr : num_ty -> Z) (t : num_ty) (v : Z)
    (Ht : t ∈ num_types) (Hv : num_in t v) :
  (match num_err_encode v with
   | EncNum n => num_err_decode max_fn_addr t (Ok n)
   | _ => Err ()
   end = Ok v)
  <-> (as_u32 v <= as_u32 (max_fn_addr t))%Z.
Proof.
  simpl. destruct (Z.leb_spec (as_u32 v) (as_u32 (max_fn_addr t))) as [Hle|Hlt].
  - split; [done|]. intros _. by rewrite num_cast_as_u32.
  - split; [done|lia].
Qed.

Lemma num_err_roundtrip_iff_witness :
  num_err_decode (fun _ => 2 ^ 22)%Z ty_u16 (Ok (as_u32 404)) = Ok 404%Z
  /\ num_err_decode (fun _ => 2 ^ 22)%Z ty_i32 (Ok (as_u32 (-5))) <> Ok (-5)%Z.
Proof.
  split.
  - apply (num_err_roundtrip_iff (fun _ => 2 ^ 22)%Z ty_u16 404); [set_solver| |]; vm_compute; done.
  - assert (ty_i32 ∈ num_types) as Ht by set_solver.
    assert (num_in ty_i32 (-5)) as Hv by (vm_compute; done).
    intros H. by apply (num_err_roundtrip_iff (fun _ => 2 ^ 22)%Z ty_i32 (-5) Ht Hv) in H.
Defined.

(** The class of an [EncodedErr] under its [PartialEq]: static texts are
    identified with the buffer of their bytes. *)
Definition encoded_err_canon (e : EncodedErr) : EncodedErr :=
  match e with
  | EncStatic s => EncBuf s
  | _ => e
  end.

(** A [&'static str] is valid UTF-8. *)
Definition encoded_err_wf (e : EncodedErr) : Prop :=
  match e with
  | EncStatic s => utf8_valid s = true
  | _ => True
  end.

(** [PartialEq for EncodedErr] is the equality of canonical forms, hence an
    equivalence relation, and equal errors print the same text. *)
Theorem encoded_err_eq_equivalence (a b : EncodedErr)
    (Ha : encoded_err_wf a) (Hb : encoded_err_wf b) :
  (EncodedErr_eqb a b = true <-> encoded_err_canon a = encoded_err_canon b)
  /\ (EncodedErr_eqb a b = true -> EncodedErr_fmt a = EncodedErr_fmt b).
Proof.
  assert (EncodedErr_eqb a b = true <-> encoded_err_canon a = encoded_err_canon b) as Heq.
  { destruct a, b; simpl in *; try (rewrite bool_decide_eq_true; naive_solver);
      try (split; [done|naive_solver]).
    - destruct (utf8_valid b) eqn:E; rewrite ?bool_decide_eq_true; naive_solver.
    - destruct (utf8_valid b0) eqn:E; rewrite ?bool_decide_eq_true; naive_solver. }
  split; [done|]. intros H%Heq. destruct a, b; simplify_eq/=; try done;
    by rewrite ?Ha, ?Hb.
Qed.

Lemma encoded_err_eq_equivalence_witness :
  EncodedErr_eqb (EncStatic (lit "oops")) (EncBuf (lit "oops")) = true
  /\ EncodedErr_fmt (EncStatic (lit "oops")) = EncodedErr_fmt (EncBuf (lit "oops")).
Proof.
  destruct (encoded_err_eq_equivalence (EncStatic (lit "oops")) (EncBuf (lit "oops")))
    as [H1 H2]; [vm_compute; done|done|].
  split; [by apply H1|]. apply H2. by apply H1.
Defined.

(** ** When a user error travels *)

Lemma unit_err_travels {C} (c : C) : err_travels c ().
Proof. unfold err_travels; simpl. split; [unfold in_u; lia|done]. Qed.

Lemma string_err_travels {C} (c : C) (s : bytes) :
  utf8_valid s = true -> RpcIntErr_from_str s = Err () -> (zlen s <= i32_MAX)%Z ->
  err_travels c s.
Proof. intros Hu Hf Hl. unfold err_travels; simpl. by rewrite Hu. Qed.

Lemma num_err_travels {C} (addr : num_ty -> Z) (c : C) t v :
  t ∈ num_types -> num_in t v -> (as_u32 v <= as_u32 (addr t))%Z ->
  @err_travels C Z (num_RpcErrCodec addr t) c v.
Proof.
  intros Ht Hv Hle. unfold err_travels; simpl. split; [by apply wrap_range|].
  apply Z.leb_le in Hle. rewrite Hle. by rewrite num_cast_as_u32.
Qed.

#[export] Hint Resolve unit_err_travels string_err_travels num_err_travels : rpc.
