(* ===== verification/Config.v ===== *)
(** * core/src/config.rs: client and server settings

    Durations are in milliseconds; a zero read or write timeout means that no
    timer is armed (see [io_with_timeout]). *)

From S2P Require Import Prelude.

Section durations.
Local Open Scope Z_scope.

Definition from_secs (s : Z) : Z := s * 1000.
Definition from_millis (ms : Z) : Z := ms.
End durations.

Record ClientConfig := mkClientConfig {
  cc_task_timeout : Z;    (* seconds *)
  cc_read_timeout : Z;
  cc_write_timeout : Z;
  cc_idle_timeout : Z;
  cc_connect_timeout : Z;
  cc_thresholds : Z;
  cc_stream_buf_size : nat;
}.

Definition ClientConfig_default : ClientConfig :=
  {| cc_task_timeout := 20; cc_read_timeout := from_secs 5; cc_write_timeout := from_secs 5;
     cc_idle_timeout := from_secs 120; cc_connect_timeout := from_secs 10;
     cc_thresholds := 128; cc_stream_buf_size := 0 |}.

Record ServerConfig := mkServerConfig {
  sc_read_timeout : Z;
  sc_write_timeout : Z;
  sc_idle_timeout : Z;
  sc_server_close_wait : Z;
  sc_stream_buf_size : nat;
}.

Definition ServerConfig_default : ServerConfig :=
  {| sc_read_timeout := from_secs 5; sc_write_timeout := from_secs 5;
     sc_idle_timeout := from_secs 120; sc_server_close_wait := from_secs 90;
     sc_stream_buf_size := 0 |}.
