(* ===== verification/Buffer.v ===== *)
(** * core/src/io/buffer.rs: room for a received blob

    [AllocateBuf::reserve] is asked for a slice of [blob_len] bytes before a
    blob is read into it.  A [Vec<u8>] is its length and its capacity; setting
    the length past the capacity is undefined behaviour, which the model keeps
    as a length larger than the capacity.  [io_buffer::Buffer] is an external
    type, given by the operations of [IoBuffer]. *)

From S2P Require Import Prelude.

Section alloc.
Local Open Scope Z_scope.

Record vec := mkVec { vlen : Z; vcap : Z }.

(** [Vec::with_capacity], [Vec::reserve] (amortised growth of a byte vector)
    and [Vec::set_len]. *)
Definition vec_with_capacity (n : Z) : vec := {| vlen := 0; vcap := n |}.

Definition vec_reserve (additional : Z) (v : vec) : vec :=
  if vcap v - vlen v <? additional then
    {| vlen := vlen v;
       vcap := Z.max 8 (Z.max (2 * vcap v) (vlen v + additional)) |}
  else v.

Definition vec_set_length (n : Z) (v : vec) : vec := {| vlen := n; vcap := vcap v |}.

(** [AllocateBuf for Vec<u8>]: the slice handed out has the vector's length. *)
Definition Vec_AllocateBuf_reserve (self : vec) (blob_len : Z) : option Z * vec :=
  let blob_len := as_usize blob_len in
  let self :=
    if negb (vlen self =? blob_len) then
      let self := if vcap self <? blob_len then vec_reserve (blob_len - vcap self) self
                  else self in
      vec_set_length blob_len self
    else self in
  (Some (vlen self), self).

(** [AllocateBuf for Option<Vec<u8>>] *)
Definition OptVec_AllocateBuf_reserve (self : option vec) (blob_len : Z)
    : option Z * option vec :=
  let blob_len := as_usize blob_len in
  let self :=
    match self with
    | Some buf =>
        Some (if negb (vlen buf =? blob_len) then
                let buf := if vcap buf <? blob_len then vec_reserve (blob_len - vcap buf) buf
                           else buf in
                vec_set_length blob_len buf
              else buf)
    | None => Some (vec_set_length blob_len (vec_with_capacity blob_len))
    end in
  (option_map vlen self, self).
End alloc.

(** The operations of [io_buffer::Buffer] that the crates use. *)
Class IoBuffer (B : Type) := {
  buf_len : B -> Z;
  buf_capacity : B -> Z;
  buf_set_len : Z -> B -> B;
  buf_alloc : Z -> result B unit;
}.

(** What its documentation promises. *)
Class IoBufferLaws (B : Type) `{IoBuffer B} := {
  buf_len_set n b : buf_len (buf_set_len n b) = n;
  buf_capacity_set n b : buf_capacity (buf_set_len n b) = buf_capacity b;
  buf_alloc_len n b : buf_alloc n = Ok b -> buf_len b = n /\ buf_capacity b = n;
}.

Section io_buffer.
Local Open Scope Z_scope.
Context {B : Type} `{IoBuffer B}.

(** [AllocateBuf for Buffer] *)
Definition Buffer_AllocateBuf_reserve (self : B) (blob_len : Z) : option Z * B :=
  let blob_len := as_usize blob_len in
  if negb (buf_len self =? blob_len) then
    if buf_capacity self <? blob_len then (None, self)
    else let self := buf_set_len blob_len self in (Some (buf_len self), self)
  else (Some (buf_len self), self).

(** [AllocateBuf for Option<Buffer>]: [alloc] takes the length as given. *)
Definition OptBuffer_AllocateBuf_reserve (self : option B) (blob_len : Z)
    : option Z * option B :=
  match self with
  | Some buf =>
      let blob_len := as_usize blob_len in
      if negb (buf_len buf =? blob_len) then
        if buf_capacity buf <? blob_len then (None, self)
        else let buf := buf_set_len blob_len buf in (Some (buf_len buf), Some buf)
      else (Some (buf_len buf), self)
  | None =>
      match buf_alloc blob_len with
      | Ok v => (Some (buf_len v), Some v)
      | Err _ => (None, None)
      end
  end.
End io_buffer.

(** [AllocateBuf]: what a field for a response blob can do. *)
Class AllocateBuf (F : Type) := { ab_reserve : F -> Z -> option Z * F }.

#[export] Instance Vec_AllocateBuf : AllocateBuf vec := {| ab_reserve := Vec_AllocateBuf_reserve |}.
#[export] Instance OptVec_AllocateBuf : AllocateBuf (option vec) := {| ab_reserve := OptVec_AllocateBuf_reserve |}.

Definition Buffer_AllocateBuf {B} `{IoBuffer B} : AllocateBuf B := {| ab_reserve := Buffer_AllocateBuf_reserve |}.
Definition OptBuffer_AllocateBuf {B} `{IoBuffer B} : AllocateBuf (option B) :=
  {| ab_reserve := OptBuffer_AllocateBuf_reserve |}.

(** A slice that is handed out has the size asked for. *)
Class AllocateBufLaws (F : Type) `{AllocateBuf F} :=
  ab_reserve_len (f : F) size n f' :
    (0 <= size < 2 ^ 31)%Z -> ab_reserve f size = (Some n, f') -> n = size.

(** ** Properties *)

Section props.
Local Open Scope Z_scope.

Lemma as_usize_i32 n : 0 <= n < 2 ^ 31 -> as_usize n = n.
Proof. intros. apply wrap_small. unfold in_u. lia. Qed.

#[export] Instance Vec_AllocateBuf_Laws : AllocateBufLaws vec.
Proof.
  intros v size n v' Hs. unfold ab_reserve; simpl. unfold Vec_AllocateBuf_reserve. rewrite as_usize_i32 by done.
  destruct (Z.eqb_spec (vlen v) size); simpl; intros [= <- _]; done.
Qed.

#[export] Instance OptVec_AllocateBuf_Laws : AllocateBufLaws (option vec).
Proof.
  intros f size n f' Hs. unfold ab_reserve; simpl. unfold OptVec_AllocateBuf_reserve. rewrite as_usize_i32 by done.
  destruct f as [v|]; simpl; [|by intros [= <- _]].
  destruct (Z.eqb_spec (vlen v) size); simpl; intros [= <- _]; done.
Qed.

Lemma Buffer_AllocateBuf_Laws {B} `{IoBufferLaws B} : @AllocateBufLaws B Buffer_AllocateBuf.
Proof.
  intros b size n b' Hs. unfold ab_reserve; simpl. unfold Buffer_AllocateBuf_reserve. rewrite as_usize_i32 by done.
  destruct (Z.eqb_spec (buf_len b) size); simpl; [by intros [= <- _]|].
  case_match; intros [=]. subst. by rewrite buf_len_set.
Qed.

Lemma OptBuffer_AllocateBuf_Laws {B} `{IoBufferLaws B} : @AllocateBufLaws (option B) OptBuffer_AllocateBuf.
Proof.
  intros f size n f' Hs. unfold ab_reserve; simpl. unfold OptBuffer_AllocateBuf_reserve. rewrite as_usize_i32 by done.
  destruct f as [b|]; [|destruct (buf_alloc size) eqn:E; intros [= <- _]; by apply buf_alloc_len in E as [-> _]].
  destruct (Z.eqb_spec (buf_len b) size); simpl; [by intros [= <- _]|].
  case_match; intros [=]. subst. by rewrite buf_len_set.
Qed.

(** The capacity after the growth that [reserve] asks for. *)
Lemma vec_reserve_room n v :
  0 <= vlen v <= vcap v ->
  (n <= vcap (vec_reserve (n - vcap v) v)
   <-> n <= vcap v \/ vlen v = vcap v
       \/ (2 * vcap v < n + vlen v /\ n <= Z.max 8 (2 * vcap v))).
Proof.
  intros Hv. unfold vec_reserve.
  destruct (Z.ltb_spec (vcap v - vlen v) (n - vcap v)); simpl; lia.
Qed.

(** [reserve] on a vector always hands out a slice of exactly the blob's
    length, but that slice stays inside the allocation only when the blob
    fits the old capacity, the vector was full, or the amortised growth
    happens to be enough: the code reserves [blob_len - capacity] more than
    the LENGTH, so a vector with spare capacity can be too small, and
    [set_len] then exposes memory that was never allocated. *)
Theorem vec_reserve_in_bounds (v : vec) (blob_len : Z)
    (Hv : 0 <= vlen v <= vcap v) (Hn : 0 <= blob_len < 2 ^ 31) :
  let '(slice, v') := Vec_AllocateBuf_reserve v blob_len in
  slice = Some blob_len /\ vlen v' = blob_len
  /\ (vlen v' <= vcap v' <->
        blob_len <= vcap v \/ vlen v = vcap v
        \/ (2 * vcap v < blob_len + vlen v /\ blob_len <= Z.max 8 (2 * vcap v))).
Proof.
  unfold Vec_AllocateBuf_reserve. rewrite as_usize_i32 by done.
  destruct (Z.eqb_spec (vlen v) blob_len) as [<-|Hne]; simpl.
  { split; [done|]. split; [done|]. lia. }
  split; [done|]. split; [done|].
  destruct (Z.ltb_spec (vcap v) blob_len); [|simpl; lia].
  by rewrite <- vec_reserve_room.
Qed.

Example vec_reserve_in_bounds_witness :
  let '(slice, v') := Vec_AllocateBuf_reserve (vec_with_capacity 512) 600 in
  slice = Some 600 /\ vcap v' = 512
  /\ (vlen v' <= vcap v' <->
        600 <= 512 \/ 0 = 512 \/ (2 * 512 < 600 + 0 /\ 600 <= Z.max 8 (2 * 512))).
Proof.
  destruct (vec_reserve_in_bounds (vec_with_capacity 512) 600) as (H1 & H2 & H3);
    [simpl; lia|lia|].
  split; [exact H1|]. split; [reflexivity|exact H3].
Defined.

(** the other implementations are in bounds: a missing vector is allocated
    at the blob's length; a [Buffer] is never grown: too small a capacity
    is refused and leaves the buffer as it was, otherwise the slice has the
    blob's length and lies within the capacity; a missing [Buffer] is
    allocated, or refused when the allocation fails. *)
Theorem buffer_reserve_in_bounds {B : Type} `{IoBufferLaws B} (b : B) (blob_len : Z)
    (Hb : 0 <= buf_len b <= buf_capacity b) (Hn : 0 <= blob_len < 2 ^ 31) :
  OptVec_AllocateBuf_reserve None blob_len
    = (Some blob_len, Some {| vlen := blob_len; vcap := blob_len |})
  /\ (if buf_capacity b <? blob_len then Buffer_AllocateBuf_reserve b blob_len = (None, b)
      else exists b', Buffer_AllocateBuf_reserve b blob_len = (Some blob_len, b')
             /\ buf_len b' = blob_len /\ buf_capacity b' = buf_capacity b)
  /\ OptBuffer_AllocateBuf_reserve (Some b) blob_len
     = (let '(s, b') := Buffer_AllocateBuf_reserve b blob_len in (s, Some b'))
  /\ (match buf_alloc blob_len with
      | Ok b' => OptBuffer_AllocateBuf_reserve None blob_len = (Some blob_len, Some b')
      | Err _ => OptBuffer_AllocateBuf_reserve (B := B) None blob_len = (None, None)
      end).
Proof.
  unfold OptVec_AllocateBuf_reserve, OptBuffer_AllocateBuf_reserve, Buffer_AllocateBuf_reserve.
  rewrite as_usize_i32 by done. split; [done|]. split; [|split].
  - destruct (Z.ltb_spec (buf_capacity b) blob_len), (Z.eqb_spec (buf_len b) blob_len)
      as [Hl|Hl]; simpl; try lia; [done|rewrite Hl; by eauto|].
    eexists. rewrite buf_len_set. split; [done|]. by rewrite buf_len_set, buf_capacity_set.
  - destruct (buf_len b =? blob_len); simpl; [done|]. by destruct (buf_capacity b <? blob_len).
  - destruct (buf_alloc blob_len) as [b'|[]] eqn:E; [|done].
    by apply buf_alloc_len in E as [-> _].
Qed.
End props.

(** A buffer type that meets the promises: length and capacity, at most 1 MiB. *)
Definition vec_IoBuffer : IoBuffer vec :=
  {| buf_len := vlen; buf_capacity := vcap; buf_set_len := vec_set_length;
     buf_alloc n := if (n <=? 1048576)%Z then Ok {| vlen := n; vcap := n |} else Err () |}.

Definition vec_IoBufferLaws : @IoBufferLaws vec vec_IoBuffer.
Proof.
  split; [done|done|]. intros n b. unfold buf_alloc; simpl. case_match; by intros [= <-].
Defined.

Example buffer_reserve_in_bounds_witness :
  @OptBuffer_AllocateBuf_reserve vec vec_IoBuffer (Some {| vlen := 0; vcap := 64 |}) 65
  = (None, Some {| vlen := 0; vcap := 64 |}).
Proof.
  destruct (@buffer_reserve_in_bounds vec vec_IoBuffer vec_IoBufferLaws
    {| vlen := 0; vcap := 64 |} 65) as (_ & Hb & Ho & _); [simpl; lia|lia|].
  rewrite Ho. simpl in Hb. rewrite Hb. reflexivity.
Defined.
