(* ===== verification/Task.v ===== *)
(** * Task and codec interfaces

    The traits through which the framework sees user code: [Codec]
    (core/src/codec.rs), [ClientTask] and its parts
    (stream/src/client/task.rs), [ServerTaskEncode]
    (stream/src/server/task.rs), with the laws their documentation states,
    and [RpcAction] (stream/src/proto.rs), which they mention. *)

From S2P Require Import Prelude RustStd Errors.

(** ** [RpcAction] *)

Inductive RpcAction :=
| ActStr (s : bytes)
| ActNum (n : Z).

Inductive RpcActionOwned :=
| OwnedStr (s : bytes)
| OwnedNum (n : Z).

#[export] Instance RpcAction_eq_dec : EqDecision RpcAction.
Proof. solve_decision. Defined.

(** [From<RpcAction> for RpcActionOwned] and [RpcActionOwned::to_action] *)
Definition RpcActionOwned_from (a : RpcAction) : RpcActionOwned :=
  match a with
  | ActStr s => OwnedStr s
  | ActNum n => OwnedNum n
  end.

Definition RpcActionOwned_to_action (a : RpcActionOwned) : RpcAction :=
  match a with
  | OwnedStr s => ActStr s
  | OwnedNum n => ActNum n
  end.

Lemma to_action_from a : RpcActionOwned_to_action (RpcActionOwned_from a) = a.
Proof. by destruct a. Qed.

(** ** [Codec]

    [encode_into] appends to a buffer and returns the size written; when it
    fails the buffer keeps what was written before the failure. *)
Class Codec (C M : Type) := {
  codec_encode : C -> M -> result bytes unit;
  codec_encode_into : C -> M -> bytes -> result Z unit * bytes;
  codec_decode : C -> bytes -> result M unit;
}.

(** What the framework relies on: both encoders produce the same text, and
    decoding gives the message back. *)
Class CodecLaws (C M : Type) `{Codec C M} := {
  encode_into_encode c m buf n buf' :
    codec_encode_into c m buf = (Ok n, buf') ->
    exists msg, codec_encode c m = Ok msg /\ buf' = buf ++ msg /\ n = zlen msg;
  decode_encode c m msg :
    codec_encode c m = Ok msg -> codec_decode c msg = Ok m;
}.

(** ** Client tasks *)

(** [ClientTaskCommon] *)
Record ClientTaskCommon := { common_seq : Z }.

Definition ClientTaskCommon_default : ClientTaskCommon := {| common_seq := 0 |}.
Definition ClientTaskCommon_seq (c : ClientTaskCommon) : Z := common_seq c.
Definition ClientTaskCommon_set_seq (c : ClientTaskCommon) (seq : Z) : ClientTaskCommon :=
  {| common_seq := seq |}.

(** [ClientTask]: action, encoding, decoding, completion, and the shared
    [ClientTaskCommon] reached through [Deref].  [reserve_resp_blob] returns
    the length of the slice it hands out; [put_resp_blob] is the write of the
    received bytes through that slice. *)
Class ClientTask (C T : Type) := {
  get_action : T -> RpcAction;
  encode_req : C -> T -> bytes -> result Z unit * bytes;
  get_req_blob : T -> option bytes;
  decode_resp : C -> T -> bytes -> result unit unit * T;
  reserve_resp_blob : T -> Z -> option Z * T;
  put_resp_blob : T -> bytes -> T;
  set_custom_error : C -> T -> EncodedErr -> T;
  set_rpc_error : T -> RpcIntErr -> T;
  set_ok : T -> T;
  task_common : T -> ClientTaskCommon;
  set_common : T -> ClientTaskCommon -> T;
}.

Section client_task.
Context {C T : Type} `{ClientTask C T}.

Definition task_seq (t : T) : Z := ClientTaskCommon_seq (task_common t).
Definition task_set_seq (t : T) (seq : Z) : T :=
  set_common t (ClientTaskCommon_set_seq (task_common t) seq).
End client_task.

(** Laws of a client task: [encode_req] appends and returns the size written;
    the common part can be read back after it is set and is not touched by the
    operations that set the result or the response; a reserved slice has the size asked for. *)
Class ClientTaskLaws (C T : Type) `{ClientTask C T} := {
  encode_req_appends c t buf n buf' :
    encode_req c t buf = (Ok n, buf') -> exists msg, buf' = buf ++ msg /\ n = zlen msg;
  common_set t cm : task_common (set_common t cm) = cm;
  common_rpc_error t e : task_common (set_rpc_error t e) = task_common t;
  common_custom_error c t e : task_common (set_custom_error c t e) = task_common t;
  common_ok t : task_common (set_ok t) = task_common t;
  common_decode c t bs : task_common (decode_resp c t bs).2 = task_common t;
  common_reserve t size : task_common (reserve_resp_blob t size).2 = task_common t;
  common_put_blob t bs : task_common (put_resp_blob t bs) = task_common t;
  reserve_len t size n t' :
    (0 <= size < 2 ^ 31)%Z -> reserve_resp_blob t size = (Some n, t') -> n = size;
}.

(** What identifies a task through all the changes the framework makes to it. *)
Class TaskKey (C T A : Type) `{ClientTask C T} := {
  key : T -> A;
  key_common t cm : key (set_common t cm) = key t;
  key_rpc_error t e : key (set_rpc_error t e) = key t;
  key_custom_error (c : C) t e : key (set_custom_error c t e) = key t;
  key_ok t : key (set_ok t) = key t;
  key_decode (c : C) t bs : key (decode_resp c t bs).2 = key t;
  key_reserve t n : key (reserve_resp_blob t n).2 = key t;
  key_put_blob t bs : key (put_resp_blob t bs) = key t;
}.

(** What the framework does to finish a task: [task.done()], or handing it to
    [ClientFacts::error_handle]. *)
Inductive task_event (T : Type) :=
| EvDone (t : T)
| EvErrorHandle (t : T).
Arguments EvDone {T} t.
Arguments EvErrorHandle {T} t.

#[export] Instance task_event_eq_dec {T} `{EqDecision T} : EqDecision (task_event T).
Proof. solve_decision. Defined.

Definition event_task {T} (e : task_event T) : T :=
  match e with EvDone t => t | EvErrorHandle t => t end.

(** ** Server tasks

    [encode_resp] yields the sequence number, either the message length and
    the blob or the error, the buffer, and the task it leaves.  [None] is the
    panic of an unset result. *)
Class ServerTaskEncode (C T : Type) := {
  encode_resp : C -> T -> bytes -> option (Z * result (Z * option bytes) EncodedErr * bytes * T);
}.

(** A response encoder appends the message it announces. *)
Class ServerTaskEncodeLaws (C T : Type) `{ServerTaskEncode C T} := {
  encode_resp_appends c t buf seq n blob buf' t' :
    encode_resp c t buf = Some (seq, Ok (n, blob), buf', t') ->
    exists msg, buf' = buf ++ msg /\ n = zlen msg;
}.

Lemma task_seq_set {C T} `{ClientTaskLaws C T} (t : T) seq :
  task_seq (task_set_seq t seq) = seq.
Proof. unfold task_seq, task_set_seq. by rewrite common_set. Qed.

Lemma task_seq_rpc_error {C T} `{ClientTaskLaws C T} (t : T) e :
  task_seq (set_rpc_error t e) = task_seq t.
Proof. unfold task_seq. by rewrite common_rpc_error. Qed.

Lemma task_seq_custom_error {C T} `{ClientTaskLaws C T} c (t : T) e :
  task_seq (set_custom_error c t e) = task_seq t.
Proof. unfold task_seq. by rewrite common_custom_error. Qed.

Lemma task_seq_decode {C T} `{ClientTaskLaws C T} c (t t' : T) bs r :
  decode_resp c t bs = (r, t') -> task_seq t' = task_seq t.
Proof. intros E. unfold task_seq. by rewrite <- (common_decode c t bs), E. Qed.

Lemma task_seq_reserve {C T} `{ClientTaskLaws C T} (t t' : T) size r :
  reserve_resp_blob t size = (r, t') -> task_seq t' = task_seq t.
Proof. intros E. unfold task_seq. by rewrite <- (common_reserve t size), E. Qed.

Lemma task_seq_put_blob {C T} `{ClientTaskLaws C T} (t : T) bs :
  task_seq (put_resp_blob t bs) = task_seq t.
Proof. unfold task_seq. by rewrite common_put_blob. Qed.

Lemma task_seq_ok {C T} `{ClientTaskLaws C T} (t : T) : task_seq (set_ok t) = task_seq t.
Proof. unfold task_seq. by rewrite common_ok. Qed.

(** ** A codec that meets the laws: messages are byte strings, sent as they are;
    a message of more than 256 bytes is refused half-way. *)
Inductive RawCodec := Raw.

#[export] Instance RawCodec_Codec : Codec RawCodec bytes := {|
  codec_encode _ m := if (length m <=? 256)%nat then Ok m else Err ();
  codec_encode_into _ m buf :=
    if (length m <=? 256)%nat then (Ok (zlen m), buf ++ m) else (Err (), buf ++ take 256 m);
  codec_decode _ bs := if (length bs <=? 256)%nat then Ok bs else Err ();
|}.

#[export] Instance RawCodec_Laws : CodecLaws RawCodec bytes.
Proof.
  split.
  - intros c m buf n buf'. unfold codec_encode_into, codec_encode; simpl.
    destruct (length m <=? 256)%nat; [|done]. intros [= <- <-]. eauto.
  - intros c m msg. unfold codec_encode, codec_decode; simpl.
    destruct (length m <=? 256)%nat eqn:E; [|done]. intros [= <-]. by rewrite E.
Qed.
