(* ===== verification/ClientTaskMacro.v ===== *)
(** * stream/macros/src/client_task.rs: what [#[client_task]] generates

    The impls the attribute adds to a struct with fields tagged [common],
    [action], [req], [resp], [res] and [noti], and optionally [req_blob] and
    [resp_blob] (of a type with [AllocateBuf]).  How the macro
     reads the attributes is MacroStream.v; here the parameters of the
    record stand for the field types, and an absent optional field is [None]. *)

From S2P Require Import Prelude RustStd Errors Task Buffer.

Record MacroTask (Buf Req Resp E : Type) := mkMacroTask {
  mt_common : ClientTaskCommon;
  mt_action : RpcActionOwned;
  mt_req : Req;
  mt_req_blob : option bytes;
  mt_resp : option Resp;
  mt_resp_blob : option Buf;
  mt_resp_data : bytes;                (* what was read through the reserved slice *)
  mt_res : option (result unit (RpcError E));
  mt_noti : bool;                      (* [noti] is [Some] *)
}.
Arguments mkMacroTask {Buf Req Resp E}.
Arguments mt_common {Buf Req Resp E}.
Arguments mt_action {Buf Req Resp E}.
Arguments mt_req {Buf Req Resp E}.
Arguments mt_req_blob {Buf Req Resp E}.
Arguments mt_resp {Buf Req Resp E}.
Arguments mt_resp_blob {Buf Req Resp E}.
Arguments mt_resp_data {Buf Req Resp E}.
Arguments mt_res {Buf Req Resp E}.
Arguments mt_noti {Buf Req Resp E}.

Section macro_task.
Context {C Buf Req Resp E : Type} `{AllocateBuf Buf, Codec C Req, Codec C Resp, RpcErrCodec C E}.
Let T := MacroTask Buf Req Resp E.
Implicit Types self : T.

Definition mt_put_res (r : option (result unit (RpcError E))) self : T :=
  mkMacroTask (mt_common self) (mt_action self) (mt_req self) (mt_req_blob self) (mt_resp self)
    (mt_resp_blob self) (mt_resp_data self) r (mt_noti self).

(** [get_action]: the text of a [String] field, or the number of any other. *)
Definition MacroTask_get_action self : RpcAction :=
  match mt_action self with
  | OwnedStr s => ActStr s
  | OwnedNum n => ActNum (as_i32 n)
  end.

Definition MacroTask_encode_req (codec : C) self (buf : bytes) : result Z unit * bytes :=
  codec_encode_into codec (mt_req self) buf.

Definition MacroTask_get_req_blob self : option bytes := mt_req_blob self.

Definition MacroTask_decode_resp (codec : C) self (buffer : bytes) : result unit unit * T :=
  match codec_decode codec buffer with
  | Err e => (Err e, self)
  | Ok resp =>
      (Ok (), mkMacroTask (mt_common self) (mt_action self) (mt_req self) (mt_req_blob self)
                (Some resp) (mt_resp_blob self) (mt_resp_data self) (mt_res self) (mt_noti self))
  end.

Definition MacroTask_reserve_resp_blob self (size : Z) : option Z * T :=
  match mt_resp_blob self with
  | None => (None, self)
  | Some field =>
      let '(r, field) := ab_reserve field size in
      (r, mkMacroTask (mt_common self) (mt_action self) (mt_req self) (mt_req_blob self)
            (mt_resp self) (Some field) (mt_resp_data self) (mt_res self) (mt_noti self))
  end.

Definition MacroTask_put_resp_blob self (data : bytes) : T :=
  mkMacroTask (mt_common self) (mt_action self) (mt_req self) (mt_req_blob self)
    (mt_resp self) (mt_resp_blob self) data (mt_res self) (mt_noti self).

(** A user error that cannot be decoded becomes [RpcIntErr::Decode]. *)
Definition decode_user_error (codec : C) (buf : result Z bytes) : RpcError E :=
  match err_decode codec buf with
  | Ok e => RpcError_from e
  | Err _ => RpcError_from_int Decode
  end.

Definition MacroTask_set_custom_error (codec : C) self (res : EncodedErr) : T :=
  let rpc_error :=
    match res with
    | EncRpc e => RpcError_from_int e
    | EncNum n => decode_user_error codec (Ok (as_u32 n))
    | EncStatic s => decode_user_error codec (Err s)
    | EncBuf b => decode_user_error codec (Err b)
    end in
  mt_put_res (Some (Err rpc_error)) self.

Definition MacroTask_set_rpc_error self (e : RpcIntErr) : T :=
  mt_put_res (Some (Err (RpcError_from_int e))) self.

Definition MacroTask_set_ok self : T := mt_put_res (Some (Ok ())) self.

(** [done]: the notifier is taken, and the task sent through it. *)
Definition MacroTask_done self : option T :=
  if mt_noti self then
    Some (mkMacroTask (mt_common self) (mt_action self) (mt_req self) (mt_req_blob self)
            (mt_resp self) (mt_resp_blob self) (mt_resp_data self) (mt_res self) false)
  else None.

Definition MacroTask_get_result self : result unit (RpcError E) :=
  match mt_res self with
  | Some (Ok _) => Ok ()
  | Some (Err e) => Err e
  | None => Err (Rpc Internal)
  end.

(** [Deref] and [DerefMut] to the common part. *)
Definition MacroTask_set_common self (c : ClientTaskCommon) : T :=
  mkMacroTask c (mt_action self) (mt_req self) (mt_req_blob self) (mt_resp self)
    (mt_resp_blob self) (mt_resp_data self) (mt_res self) (mt_noti self).

#[export] Instance MacroTask_ClientTask : ClientTask C T := {|
  get_action := MacroTask_get_action;
  encode_req := MacroTask_encode_req;
  get_req_blob := MacroTask_get_req_blob;
  decode_resp := MacroTask_decode_resp;
  reserve_resp_blob := MacroTask_reserve_resp_blob;
  put_resp_blob := MacroTask_put_resp_blob;
  set_custom_error := MacroTask_set_custom_error;
  set_rpc_error := MacroTask_set_rpc_error;
  set_ok := MacroTask_set_ok;
  task_common := mt_common;
  set_common := MacroTask_set_common;
|}.
End macro_task.

#[export] Instance MacroTask_Laws {C Buf Req Resp E}
    `{AllocateBufLaws Buf, CodecLaws C Req, Codec C Resp, RpcErrCodec C E} :
  ClientTaskLaws C (MacroTask Buf Req Resp E).
Proof.
  split; try done.
  - intros c t buf n buf' Ee. apply encode_into_encode in Ee as (msg & _ & -> & ->). eauto.
  - intros c t bs. unfold decode_resp; simpl. unfold MacroTask_decode_resp.
    by destruct (codec_decode c bs).
  - intros t size. unfold reserve_resp_blob; simpl. unfold MacroTask_reserve_resp_blob.
    destruct (mt_resp_blob t) as [field|]; [|done]. by destruct (ab_reserve field size).
  - intros t size n t' Hs. unfold reserve_resp_blob; simpl. unfold MacroTask_reserve_resp_blob.
    destruct (mt_resp_blob t) as [field|]; [|done].
    destruct (ab_reserve field size) as [r field'] eqn:Er. intros [= -> _]. by eapply ab_reserve_len.
Qed.

(** A task over the raw codec, as the examples use it. *)
Abbreviation RawTask := (MacroTask (option vec) bytes bytes unit).

Definition raw_task (seq : Z) (action : RpcActionOwned) (req : bytes) (blob : option bytes)
    : RawTask :=
  mkMacroTask {| common_seq := seq |} action req blob None (Some None) [] None true.

(** how a generated task reports its end: before completion the result is
    [Internal]; after [set_ok] it is [Ok]; after [set_rpc_error e] it is [e];
    after [set_custom_error] with the encoding of a user error that the error
    type can decode, it is that user error, and [Decode] when it cannot; and
    [done] notifies exactly once. *)
Theorem macro_task_results {C Buf Req Resp E} `{Codec C Req, Codec C Resp, RpcErrCodec C E}
    (c : C) (t : MacroTask Buf Req Resp E) (ie : RpcIntErr) (n : Z) (s : bytes)
    (Hnew : mt_res t = None) (Hnoti : mt_noti t = true) :
  MacroTask_get_result t = Err (Rpc Internal)
  /\ MacroTask_get_result (MacroTask_set_ok t) = Ok ()
  /\ MacroTask_get_result (MacroTask_set_rpc_error t ie) = Err (Rpc ie)
  /\ MacroTask_get_result (MacroTask_set_custom_error c t (EncRpc ie)) = Err (Rpc ie)
  /\ (in_u 32 n -> MacroTask_get_result (MacroTask_set_custom_error c t (EncNum n))
        = Err (match err_decode c (Ok n) with Ok e => User e | Err _ => Rpc Decode end))
  /\ MacroTask_get_result (MacroTask_set_custom_error c t (EncBuf s))
     = Err (match err_decode c (Err s) with Ok e => User e | Err _ => Rpc Decode end)
  /\ (exists t', MacroTask_done t = Some t' /\ MacroTask_done t' = None).
Proof.
  unfold MacroTask_get_result, MacroTask_done. rewrite Hnew, Hnoti.
  split; [done|]. split; [done|]. split; [done|]. split; [done|].
  split; [|split; [|by eauto]]; unfold MacroTask_set_custom_error, decode_user_error; simpl.
  - intros Hn. unfold as_u32. rewrite (wrap_small 32 n Hn). by destruct (err_decode c (Ok n)).
  - by destruct (err_decode c (Err s)).
Qed.

Example macro_task_results_witness :
  MacroTask_get_result (MacroTask_set_custom_error Raw (raw_task 1 (OwnedNum 2) [] None) (EncNum 0))
  = Err (User ()).
Proof.
  destruct (macro_task_results Raw (raw_task 1 (OwnedNum 2) [] None) IO 0 [])
    as (_ & _ & _ & _ & H5 & _); [reflexivity|reflexivity|].
  rewrite H5 by (unfold in_u; lia). reflexivity.
Defined.
