(* ===== verification/Proto.v ===== *)
(** * stream/src/proto.rs: the wire protocol

    The fixed-length request and response headers, their packed little-endian
    layout, the encoders that fill a reusable buffer, and the decoders. *)

From S2P Require Import Prelude RustStd Errors Task Buffer ClientTaskMacro.

Section consts.
Local Open Scope Z_scope.

Definition PING_ACTION : Z := 0.
Definition RPC_MAGIC : Z := 19749.
Definition U32_HIGH_MASK : Z := Z.shiftl 1 31.
Definition RESP_FLAG_HAS_ERRNO : Z := 1.
Definition RESP_FLAG_HAS_ERR_STRING : Z := 2.
Definition RPC_VERSION_1 : Z := 1.
End consts.

(** ** Request header *)

Record ReqHead := mkReqHead {
  rq_magic : Z;     (* U16 *)
  rq_ver : Z;       (* u8 *)
  rq_format : Z;    (* u8 *)
  rq_action : Z;    (* U32: highest bit 0: action number, 1: action length *)
  rq_seq : Z;       (* U64 *)
  rq_client_id : Z; (* U64 *)
  rq_msg_len : Z;   (* U32 *)
  rq_blob_len : Z;  (* U32 *)
}.

#[export] Instance ReqHead_eq_dec : EqDecision ReqHead.
Proof. solve_decision. Defined.

Definition RPC_REQ_HEADER_LEN : nat := 2 + 1 + 1 + 4 + 8 + 8 + 4 + 4.

(** [IntoBytes] of the packed struct: the fields in declaration order. *)
Definition ReqHead_as_bytes (h : ReqHead) : bytes :=
  le_bytes 2 (rq_magic h) ++ le_bytes 1 (rq_ver h) ++ le_bytes 1 (rq_format h)
  ++ le_bytes 4 (rq_action h) ++ le_bytes 8 (rq_seq h) ++ le_bytes 8 (rq_client_id h)
  ++ le_bytes 4 (rq_msg_len h) ++ le_bytes 4 (rq_blob_len h).

(** A field of a byte string. *)
Definition field (off n : nat) (bs : bytes) : Z := le_val (take n (drop off bs)).

(** [ref_from_bytes]: [None] when the size differs. *)
Definition ReqHead_from_bytes (bs : bytes) : option ReqHead :=
  if (length bs =? RPC_REQ_HEADER_LEN)%nat then
    Some {| rq_magic := field 0 2 bs; rq_ver := field 2 1 bs; rq_format := field 3 1 bs;
            rq_action := field 4 4 bs; rq_seq := field 8 8 bs; rq_client_id := field 16 8 bs;
            rq_msg_len := field 24 4 bs; rq_blob_len := field 28 4 bs |}
  else None.

(** ** Response header *)

Record RespHead := mkRespHead {
  rp_magic : Z;    (* U16 *)
  rp_ver : Z;      (* u8 *)
  rp_flag : Z;     (* u8 *)
  rp_msg_len : Z;  (* U32: message length, or errno *)
  rp_seq : Z;      (* U64 *)
  rp_blob_len : Z; (* I32 *)
}.

#[export] Instance RespHead_eq_dec : EqDecision RespHead.
Proof. solve_decision. Defined.

Definition RPC_RESP_HEADER_LEN : nat := 2 + 1 + 1 + 4 + 8 + 4.

Definition RespHead_as_bytes (h : RespHead) : bytes :=
  le_bytes 2 (rp_magic h) ++ le_bytes 1 (rp_ver h) ++ le_bytes 1 (rp_flag h)
  ++ le_bytes 4 (rp_msg_len h) ++ le_bytes 8 (rp_seq h) ++ le_bytes 4 (rp_blob_len h).

Definition RespHead_from_bytes (bs : bytes) : option RespHead :=
  if (length bs =? RPC_RESP_HEADER_LEN)%nat then
    Some {| rp_magic := field 0 2 bs; rp_ver := field 2 1 bs; rp_flag := field 3 1 bs;
            rp_msg_len := field 4 4 bs; rp_seq := field 8 8 bs;
            rp_blob_len := as_i32 (field 16 4 bs) |}
  else None.

(** ** Operations

    A [Vec<u8>] is its contents; the bytes past its length, which
    [set_len] exposes, are [stale]. *)
Section ops.
Variable stale : nat -> byte.

Definition vec_set_len (n : nat) (buf : bytes) : bytes :=
  take n buf ++ map stale (seq (length buf) (n - length buf)).

(** [&mut buf[0..n]] overwritten by a header; [None] is the out-of-range panic. *)
Definition write_prefix (head buf : bytes) : option bytes :=
  if (length head <=? length buf)%nat then Some (head ++ drop (length head) buf) else None.

Definition ReqHead_write_head (buf : bytes) (client_id action seq msg_len blob_len : Z)
    : option bytes :=
  write_prefix
    (ReqHead_as_bytes
       {| rq_magic := RPC_MAGIC; rq_ver := RPC_VERSION_1; rq_format := 0;
          rq_action := action; rq_seq := seq; rq_client_id := client_id;
          rq_msg_len := msg_len; rq_blob_len := as_u32 blob_len |})
    buf.

Definition ReqHead_encode_ping (buf : bytes) (client_id seq : Z) : option bytes :=
  ReqHead_write_head (vec_set_len RPC_REQ_HEADER_LEN buf) client_id PING_ACTION seq 0 0.

(** [encode]: header, action and message go into [buf], the blob is returned.
    [None] is a panic. *)
Definition ReqHead_encode {C T} `{ClientTask C T}
    (codec : C) (buf : bytes) (client_id : Z) (task : T)
    : option (result (option bytes) unit * bytes) :=
  let buf := vec_set_len RPC_REQ_HEADER_LEN buf in
  let '(action_flag, buf) :=
    match get_action task with
    | ActNum num => (as_u32 num, buf)
    | ActStr s => (Z.lor (as_u32 (zlen s)) U32_HIGH_MASK, buf ++ s)
    end in
  match encode_req codec task buf with
  | (Err _, buf) => Some (Err (), buf)
  | (Ok msg_len, buf) =>
      if (u32_MAX <? msg_len)%Z then Some (Err (), buf)
      else
        let blob := get_req_blob task in
        let blob_len := match blob with Some b => zlen b | None => 0%Z end in
        if (i32_MAX <? blob_len)%Z then Some (Err (), buf)
        else
          match ReqHead_write_head buf client_id action_flag (task_seq task)
                  (as_u32 msg_len) (as_i32 blob_len) with
          | None => None
          | Some buf => Some (Ok blob, buf)
          end
  end.

(** [decode_head]: [None] is the panic of a wrong buffer size. *)
Definition ReqHead_decode_head (head_buf : bytes) : option (result ReqHead RpcIntErr) :=
  match ReqHead_from_bytes head_buf with
  | None => None
  | Some head =>
      if negb (rq_magic head =? RPC_MAGIC)%Z then Some (Err IO)
      else if negb (rq_ver head =? RPC_VERSION_1)%Z then Some (Err Version)
      else Some (Ok head)
  end.

(** [get_action]: [Ok] an action number, [Err] the length of an action text. *)
Definition ReqHead_get_action (h : ReqHead) : result Z Z :=
  if (Z.land (rq_action h) U32_HIGH_MASK =? 0)%Z then Ok (as_i32 (rq_action h))
  else Err (as_i32 (Z.lxor (rq_action h) U32_HIGH_MASK)).

(** [Display for ReqHead] *)
Definition ReqHead_fmt (h : ReqHead) : bytes :=
  lit "[client_id:" ++ fmt_int (rq_client_id h) ++ lit ", seq:" ++ fmt_int (rq_seq h)
  ++ lit ", msg:" ++ fmt_int (rq_msg_len h) ++ lit ", blob:" ++ fmt_int (rq_blob_len h)
  ++ match ReqHead_get_action h with
     | Ok action_num => lit ", action:" ++ fmt_int action_num ++ lit "]"
     | Err action_len => lit "action_len:" ++ fmt_int action_len ++ lit "]"
     end.

Definition RespHead_write_head (buf : bytes) (flag seq msg_len blob_len : Z) : option bytes :=
  write_prefix
    (RespHead_as_bytes
       {| rp_magic := RPC_MAGIC; rp_ver := RPC_VERSION_1; rp_flag := flag;
          rp_msg_len := msg_len; rp_seq := seq; rp_blob_len := blob_len |})
    buf.

(** [write_err!]: the header announces the text, the text is appended. *)
Definition RespHead_write_err (buf : bytes) (seq : Z) (s : bytes) : option bytes :=
  match RespHead_write_head buf RESP_FLAG_HAS_ERR_STRING seq 0 (as_i32 (zlen s)) with
  | None => None
  | Some buf => Some (buf ++ s)
  end.

Definition RespHead_encode_error (buf : bytes) (seq : Z) (e : EncodedErr) : option bytes :=
  match e with
  | EncNum n => RespHead_write_head buf RESP_FLAG_HAS_ERRNO seq (as_u32 n) 0
  | EncRpc s => RespHead_write_err buf seq (RpcIntErr_as_bytes s)
  | EncBuf s => RespHead_write_err buf seq s
  | EncStatic s => RespHead_write_err buf seq s
  end.

(** [encode]: the response goes into [buf]; returns the sequence number and
    the blob to send after it. *)
Definition RespHead_encode {C T} `{ServerTaskEncode C T}
    (codec : C) (buf : bytes) (task : T) : option (Z * option bytes * bytes) :=
  let buf := vec_set_len RPC_RESP_HEADER_LEN buf in
  match encode_resp codec task buf with
  | None => None
  | Some (seq, r, buf, _) =>
      let on_error e := match RespHead_encode_error buf seq e with
                        | None => None
                        | Some buf => Some (seq, None, buf)
                        end in
      match r with
      | Ok (msg_len, None) =>
          if (u32_MAX <? msg_len)%Z then on_error (EncRpc Encode)
          else
            match RespHead_write_head buf 0 seq (as_u32 msg_len) 0 with
            | None => None
            | Some buf => Some (seq, None, buf)
            end
      | Ok (msg_len, Some blob) =>
          if (u32_MAX <? msg_len)%Z then on_error (EncRpc Encode)
          else if (i32_MAX <? zlen blob)%Z then on_error (EncRpc Encode)
          else
            match RespHead_write_head buf 0 seq (as_u32 msg_len) (as_i32 (zlen blob)) with
            | None => None
            | Some buf => Some (seq, Some blob, buf)
            end
      | Err e => on_error e
      end
  end.

(** [encode_internal]: a framework error, or the reply to a ping. *)
Definition RespHead_encode_internal (buf : bytes) (seq : Z) (err : option RpcIntErr)
    : option (Z * bytes) :=
  let buf := vec_set_len RPC_RESP_HEADER_LEN buf in
  match err with
  | Some e =>
      match RespHead_encode_error buf seq (EncodedErr_from e) with
      | None => None
      | Some buf => Some (seq, buf)
      end
  | None =>
      match RespHead_write_head buf 0 seq 0 0 with
      | None => None
      | Some buf => Some (seq, buf)
      end
  end.

Definition RespHead_decode_head (head_buf : bytes) : option (result RespHead RpcIntErr) :=
  match RespHead_from_bytes head_buf with
  | None => None
  | Some head =>
      if negb (rp_magic head =? RPC_MAGIC)%Z then Some (Err IO)
      else if negb (rp_ver head =? RPC_VERSION_1)%Z then Some (Err Version)
      else Some (Ok head)
  end.

(** [Display for RespHead] *)
Definition RespHead_fmt (h : RespHead) : bytes :=
  lit "[seq:" ++ fmt_int (rp_seq h) ++ lit ", flag:" ++ fmt_int (rp_flag h)
  ++ lit ", msg:" ++ fmt_int (rp_msg_len h) ++ lit ", blob:" ++ fmt_int (rp_blob_len h)
  ++ lit "]".
End ops.

(** ** Header layout *)

Definition ReqHead_wf (h : ReqHead) : Prop :=
  in_u 16 (rq_magic h) /\ in_u 8 (rq_ver h) /\ in_u 8 (rq_format h) /\ in_u 32 (rq_action h)
  /\ in_u 64 (rq_seq h) /\ in_u 64 (rq_client_id h) /\ in_u 32 (rq_msg_len h)
  /\ in_u 32 (rq_blob_len h).

Definition RespHead_wf (h : RespHead) : Prop :=
  in_u 16 (rp_magic h) /\ in_u 8 (rp_ver h) /\ in_u 8 (rp_flag h) /\ in_u 32 (rp_msg_len h)
  /\ in_u 64 (rp_seq h) /\ in_i 32 (rp_blob_len h).

Lemma length_ReqHead_as_bytes h : length (ReqHead_as_bytes h) = RPC_REQ_HEADER_LEN.
Proof. reflexivity. Qed.

Lemma length_RespHead_as_bytes h : length (RespHead_as_bytes h) = RPC_RESP_HEADER_LEN.
Proof. reflexivity. Qed.

(** A field of a header's bytes is the little-endian image of the field. *)
Ltac solve_field :=
  match goal with
  | |- field _ ?n _ = ?z =>
      change (le_val (le_bytes n z) = z);
      apply (le_val_bytes_u (8 * Z.of_nat n) n); [done|assumption]
  end.

Lemma ReqHead_from_as_bytes h : ReqHead_wf h -> ReqHead_from_bytes (ReqHead_as_bytes h) = Some h.
Proof.
  intros (?&?&?&?&?&?&?&?). unfold ReqHead_from_bytes. rewrite length_ReqHead_as_bytes.
  cbn [Nat.eqb RPC_REQ_HEADER_LEN Nat.add]. destruct h as [m v f a s c ml bl]. f_equal.
  f_equal; solve_field.
Qed.

Lemma RespHead_from_as_bytes h : RespHead_wf h -> RespHead_from_bytes (RespHead_as_bytes h) = Some h.
Proof.
  intros (?&?&?&?&?&?). unfold RespHead_from_bytes. rewrite length_RespHead_as_bytes.
  cbn [Nat.eqb RPC_RESP_HEADER_LEN Nat.add]. destruct h as [m v f ml s bl]. f_equal.
  f_equal; try solve_field.
  transitivity (as_i32 (le_val (le_bytes 4 bl))); [reflexivity|].
  rewrite le_val_bytes. by apply swrap_wrap.
Qed.

Lemma le_bytes_field off n bs :
  (off + n <= length bs)%nat -> le_bytes n (field off n bs) = take n (drop off bs).
Proof. intros. apply le_bytes_val. rewrite length_take, length_drop. lia. Qed.

Lemma field_range off n w bs :
  w = (8 * Z.of_nat n)%Z -> (off + n <= length bs)%nat -> in_u w (field off n bs).
Proof. intros. apply (le_val_u w n); [done|]. rewrite length_take, length_drop. lia. Qed.

Lemma le_bytes_mod n z : le_bytes n (z mod 256 ^ Z.of_nat n) = le_bytes n z.
Proof. rewrite <- le_val_bytes. apply le_bytes_val, length_le_bytes. Qed.

Lemma ReqHead_as_from_bytes bs h :
  ReqHead_from_bytes bs = Some h -> ReqHead_as_bytes h = bs /\ ReqHead_wf h.
Proof.
  unfold ReqHead_from_bytes. case_match eqn:E; [|done]. intros [= <-]. breflect.
  unfold RPC_REQ_HEADER_LEN in E. split.
  - unfold ReqHead_as_bytes; cbn -[le_bytes field]. rewrite !le_bytes_field by lia.
    do 33 (destruct bs as [|? bs]; try done).
  - unfold ReqHead_wf; cbn -[field].
    repeat (split; [apply field_range; (done || lia)|]). apply field_range; (done || lia).
Qed.

Lemma RespHead_as_from_bytes bs h :
  RespHead_from_bytes bs = Some h -> RespHead_as_bytes h = bs /\ RespHead_wf h.
Proof.
  unfold RespHead_from_bytes. case_match eqn:E; [|done]. intros [= <-]. breflect.
  unfold RPC_RESP_HEADER_LEN in E. split.
  - unfold RespHead_as_bytes; cbn -[le_bytes field as_i32].
    assert (le_bytes 4 (as_i32 (field 16 4 bs)) = le_bytes 4 (field 16 4 bs)) as ->.
    { rewrite <- (le_bytes_mod 4 (as_i32 _)), <- (le_bytes_mod 4 (field 16 4 bs)). f_equal.
      unfold as_i32, swrap. change (256 ^ Z.of_nat 4)%Z with (2 ^ 32)%Z.
      rewrite Zminus_mod_idemp_l. f_equal. lia. }
    rewrite !le_bytes_field by lia. do 21 (destruct bs as [|? bs]; try done).
  - unfold RespHead_wf; cbn -[field].
    repeat (split; [apply field_range; (done || lia)|]). apply swrap_range; lia.
Qed.

(** ** What the encoders produce *)

(** The bytes an action adds after the header, and its header field. *)
Definition action_text (a : RpcAction) : bytes :=
  match a with
  | ActStr s => s
  | ActNum _ => []
  end.

Definition action_flag (a : RpcAction) : Z :=
  match a with
  | ActStr s => Z.lor (as_u32 (zlen s)) U32_HIGH_MASK
  | ActNum n => as_u32 n
  end.

Definition opt_len (b : option bytes) : Z :=
  match b with
  | Some b => zlen b
  | None => 0
  end.

Lemma opt_len_nonneg b : (0 <= opt_len b)%Z.
Proof. destruct b; simpl; [apply zlen_nonneg|lia]. Qed.

Definition req_head_of (client_id : Z) (a : RpcAction) (seq : Z) (msg : bytes)
    (blob : option bytes) : ReqHead :=
  {| rq_magic := RPC_MAGIC; rq_ver := RPC_VERSION_1; rq_format := 0; rq_action := action_flag a;
     rq_seq := seq; rq_client_id := client_id; rq_msg_len := zlen msg;
     rq_blob_len := opt_len blob |}.

Definition resp_head_of (seq : Z) (msg : bytes) (blob : option bytes) : RespHead :=
  {| rp_magic := RPC_MAGIC; rp_ver := RPC_VERSION_1; rp_flag := 0; rp_msg_len := zlen msg;
     rp_seq := seq; rp_blob_len := opt_len blob |}.

(** The text of an error response, and its header. *)
Definition err_text (e : EncodedErr) : bytes :=
  match e with
  | EncNum _ => []
  | EncRpc e => RpcIntErr_as_bytes e
  | EncBuf s | EncStatic s => s
  end.

Definition err_head_of (seq : Z) (e : EncodedErr) : RespHead :=
  {| rp_magic := RPC_MAGIC; rp_ver := RPC_VERSION_1;
     rp_flag := match e with EncNum _ => RESP_FLAG_HAS_ERRNO | _ => RESP_FLAG_HAS_ERR_STRING end;
     rp_msg_len := match e with EncNum n => as_u32 n | _ => 0 end;
     rp_seq := seq; rp_blob_len := as_i32 (zlen (err_text e)) |}.

(** The actions the header can carry. *)
Definition action_ok (a : RpcAction) : Prop :=
  match a with
  | ActStr s => zlen s < 2 ^ 31
  | ActNum n => 0 <= n < 2 ^ 31
  end%Z.

Lemma length_vec_set_len stale n buf : length (vec_set_len stale n buf) = n.
Proof.
  unfold vec_set_len. rewrite length_app, length_take, length_map, length_seq. lia.
Qed.

Lemma write_prefix_app head room rest :
  length room = length head -> write_prefix head (room ++ rest) = Some (head ++ rest).
Proof.
  intros Hl. unfold write_prefix. rewrite length_app, Hl.
  rewrite (proj2 (Nat.leb_le _ _)) by lia.
  by rewrite <- Hl, drop_app_length.
Qed.

Section specs.
Context (stale : nat -> byte).

Lemma ReqHead_write_head_app room rest cid action seq msg_len blob_len :
  length room = RPC_REQ_HEADER_LEN ->
  ReqHead_write_head (room ++ rest) cid action seq msg_len blob_len =
  Some (ReqHead_as_bytes
          {| rq_magic := RPC_MAGIC; rq_ver := RPC_VERSION_1; rq_format := 0;
             rq_action := action; rq_seq := seq; rq_client_id := cid;
             rq_msg_len := msg_len; rq_blob_len := as_u32 blob_len |} ++ rest).
Proof. intros. by apply write_prefix_app. Qed.

Lemma RespHead_write_head_app room rest flag seq msg_len blob_len :
  length room = RPC_RESP_HEADER_LEN ->
  RespHead_write_head (room ++ rest) flag seq msg_len blob_len =
  Some (RespHead_as_bytes
          {| rp_magic := RPC_MAGIC; rp_ver := RPC_VERSION_1; rp_flag := flag;
             rp_msg_len := msg_len; rp_seq := seq; rp_blob_len := blob_len |} ++ rest).
Proof. intros. by apply write_prefix_app. Qed.

Lemma RespHead_encode_error_app room junk seq e :
  length room = RPC_RESP_HEADER_LEN ->
  RespHead_encode_error (room ++ junk) seq e =
  Some (RespHead_as_bytes (err_head_of seq e) ++ junk ++ err_text e).
Proof.
  intros Hl. unfold RespHead_encode_error, RespHead_write_err.
  destruct e; rewrite RespHead_write_head_app by done; rewrite <- ?app_assoc, ?app_nil_r; done.
Qed.

Context {C T : Type}.

Lemma ReqHead_encode_spec `{ClientTaskLaws C T} (c : C) (t : T) buf cid :
  exists room, length room = RPC_REQ_HEADER_LEN /\
  match encode_req c t (room ++ action_text (get_action t)) with
  | (Err _, buf') => ReqHead_encode stale c buf cid t = Some (Err (), buf')
  | (Ok n, buf') =>
      exists msg, buf' = room ++ action_text (get_action t) ++ msg /\ n = zlen msg /\
      ReqHead_encode stale c buf cid t =
        if (u32_MAX <? n)%Z || (i32_MAX <? opt_len (get_req_blob t))%Z then Some (Err (), buf')
        else Some (Ok (get_req_blob t),
                   ReqHead_as_bytes (req_head_of cid (get_action t) (task_seq t) msg (get_req_blob t))
                   ++ action_text (get_action t) ++ msg)
  end.
Proof.
  set (room := vec_set_len stale RPC_REQ_HEADER_LEN buf).
  assert (length room = RPC_REQ_HEADER_LEN) as Hr by apply length_vec_set_len.
  exists room. split; [done|].
  assert (ReqHead_encode stale c buf cid t =
    match encode_req c t (room ++ action_text (get_action t)) with
    | (Err _, buf) => Some (Err (), buf)
    | (Ok msg_len, buf) =>
        if (u32_MAX <? msg_len)%Z then Some (Err (), buf)
        else if (i32_MAX <? opt_len (get_req_blob t))%Z then Some (Err (), buf)
        else match ReqHead_write_head buf cid (action_flag (get_action t)) (task_seq t)
                     (as_u32 msg_len) (as_i32 (opt_len (get_req_blob t))) with
             | None => None
             | Some buf => Some (Ok (get_req_blob t), buf)
             end
    end) as ->.
  { unfold ReqHead_encode. fold room. destruct (get_action t); simpl; [done|].
    by rewrite app_nil_r. }
  destruct (encode_req c t _) as [[n|[]] buf'] eqn:E; [|done].
  apply encode_req_appends in E as (msg & -> & ->). exists msg. rewrite <- app_assoc.
  split; [done|]. split; [done|].
  destruct (Z.ltb_spec u32_MAX (zlen msg)); [done|]. simpl.
  destruct (Z.ltb_spec i32_MAX (opt_len (get_req_blob t))); [done|].
  rewrite ReqHead_write_head_app by done. unfold req_head_of.
  pose proof (opt_len_nonneg (get_req_blob t)).
  pose proof (zlen_nonneg msg).
  unfold u32_MAX, i32_MAX in *.
  unfold as_i32. rewrite swrap_small by (unfold in_i; lia).
  unfold as_u32. rewrite !wrap_small by (unfold in_u; lia). done.
Qed.
End specs.

(** ** What the decoders recover *)

Lemma action_flag_range a : action_ok a -> in_u 32 (action_flag a).
Proof.
  destruct a as [s|n]; simpl; intros Ha.
  - pose proof (zlen_nonneg s). rewrite wrap_nonneg_i32 by lia.
    change U32_HIGH_MASK with (2 ^ 31)%Z. rewrite lor_pow2_small by lia. unfold in_u. lia.
  - by apply wrap_range.
Qed.

Lemma get_action_of_flag h :
  in_u 32 (rq_action h) ->
  ReqHead_get_action h =
    if (rq_action h <? 2 ^ 31)%Z then Ok (rq_action h) else Err (rq_action h - 2 ^ 31)%Z.
Proof.
  intros Hr. unfold ReqHead_get_action. change U32_HIGH_MASK with (2 ^ 31)%Z.
  unfold in_u in Hr. destruct (Z.ltb_spec (rq_action h) (2 ^ 31)).
  - rewrite land_pow2_small by lia. simpl. unfold as_i32. rewrite swrap_small; [done|done|].
    unfold in_i. lia.
  - assert (rq_action h = (rq_action h - 2 ^ 31) + 2 ^ 31)%Z as Heq by lia.
    rewrite Heq. set (x := (rq_action h - 2 ^ 31)%Z) in *.
    rewrite land_pow2_high, lxor_pow2_high by lia. simpl. f_equal.
    unfold as_i32. rewrite swrap_small; [lia|done|]. unfold in_i. lia.
Qed.

(** The decoded action field of an action the header can carry. *)
Definition action_field (a : RpcAction) : result Z Z :=
  match a with
  | ActNum n => Ok n
  | ActStr s => Err (zlen s)
  end.

Lemma get_action_flag h a :
  rq_action h = action_flag a -> action_ok a -> ReqHead_get_action h = action_field a.
Proof.
  intros Hf Ha. rewrite get_action_of_flag; rewrite Hf; [|by apply action_flag_range].
  destruct a as [s|n]; simpl in *.
  - pose proof (zlen_nonneg s). rewrite wrap_nonneg_i32 by lia.
    change U32_HIGH_MASK with (2 ^ 31)%Z. rewrite lor_pow2_small by lia.
    destruct (Z.ltb_spec (zlen s + 2 ^ 31) (2 ^ 31)); [lia|]. f_equal. lia.
  - rewrite wrap_nonneg_i32 by lia. by destruct (Z.ltb_spec n (2 ^ 31)); [|lia].
Qed.

Lemma ReqHead_decode_wf h :
  ReqHead_wf h -> rq_magic h = RPC_MAGIC -> rq_ver h = RPC_VERSION_1 ->
  ReqHead_decode_head (ReqHead_as_bytes h) = Some (Ok h).
Proof.
  intros Hw Hm Hv. unfold ReqHead_decode_head. by rewrite ReqHead_from_as_bytes, Hm, Hv.
Qed.

Lemma RespHead_decode_wf h :
  RespHead_wf h -> rp_magic h = RPC_MAGIC -> rp_ver h = RPC_VERSION_1 ->
  RespHead_decode_head (RespHead_as_bytes h) = Some (Ok h).
Proof.
  intros Hw Hm Hv. unfold RespHead_decode_head. by rewrite RespHead_from_as_bytes, Hm, Hv.
Qed.

Lemma req_head_of_wf cid a seq msg blob :
  in_u 64 cid -> in_u 64 seq -> action_ok a -> (zlen msg <= u32_MAX)%Z ->
  (opt_len blob <= i32_MAX)%Z -> ReqHead_wf (req_head_of cid a seq msg blob).
Proof.
  intros Hc Hs Ha Hm Hb. pose proof (action_flag_range a Ha). pose proof (zlen_nonneg msg).
  pose proof (opt_len_nonneg blob).
  unfold ReqHead_wf, in_u, u32_MAX, i32_MAX in *. simpl. unfold RPC_MAGIC, RPC_VERSION_1. lia.
Qed.

Lemma resp_head_of_wf seq msg blob :
  in_u 64 seq -> (zlen msg <= u32_MAX)%Z -> (opt_len blob <= i32_MAX)%Z ->
  RespHead_wf (resp_head_of seq msg blob).
Proof.
  intros Hs Hm Hb. pose proof (zlen_nonneg msg).
  pose proof (opt_len_nonneg blob).
  unfold RespHead_wf, in_u, in_i, u32_MAX, i32_MAX in *. simpl.
  unfold RPC_MAGIC, RPC_VERSION_1. lia.
Qed.

Lemma err_head_of_wf seq e : in_u 64 seq -> RespHead_wf (err_head_of seq e).
Proof.
  intros Hs. unfold RespHead_wf. simpl.
  assert (in_u 32 match e with EncNum n => as_u32 n | _ => 0 end).
  { destruct e; try (unfold in_u; lia). by apply wrap_range. }
  repeat split; try done; try (by destruct e); try apply Hs; try apply H; by apply swrap_range.
Qed.

#[export] Hint Resolve req_head_of_wf resp_head_of_wf err_head_of_wf : rpc.

(** ** Response encoding *)

Section resp_specs.
Context (stale : nat -> byte) {C T : Type} `{ServerTaskEncode C T}.

(** The room [set_len] leaves for the header. *)
Definition resp_room (buf : bytes) : bytes := vec_set_len stale RPC_RESP_HEADER_LEN buf.

Lemma length_resp_room buf : length (resp_room buf) = RPC_RESP_HEADER_LEN.
Proof. apply length_vec_set_len. Qed.

Lemma RespHead_encode_ok (c : C) (t t' : T) buf seq msg blob :
  encode_resp c t (resp_room buf) = Some (seq, Ok (zlen msg, blob), resp_room buf ++ msg, t') ->
  (zlen msg <= u32_MAX)%Z -> (opt_len blob <= i32_MAX)%Z ->
  RespHead_encode stale c buf t =
    Some (seq, blob, RespHead_as_bytes (resp_head_of seq msg blob) ++ msg).
Proof.
  intros E Hm Hb. unfold RespHead_encode. fold (resp_room buf). rewrite E. simpl.
  pose proof (zlen_nonneg msg).
  pose proof (opt_len_nonneg blob).
  pose proof (length_resp_room buf). unfold resp_head_of, u32_MAX, i32_MAX in *.
  destruct blob as [b|]; simpl in *;
    destruct (Z.ltb_spec (2 ^ 32 - 1) (zlen msg)); try lia;
    try (destruct (Z.ltb_spec (2 ^ 31 - 1) (zlen b)); try lia);
    rewrite RespHead_write_head_app by done; unfold as_i32, as_u32;
    rewrite ?swrap_small, wrap_small by (unfold in_u, in_i; lia); done.
Qed.

Lemma RespHead_encode_err (c : C) (t t' : T) buf seq junk e :
  encode_resp c t (resp_room buf) = Some (seq, Err e, resp_room buf ++ junk, t') ->
  RespHead_encode stale c buf t =
    Some (seq, None, RespHead_as_bytes (err_head_of seq e) ++ junk ++ err_text e).
Proof.
  intros E. unfold RespHead_encode. fold (resp_room buf). rewrite E.
  by rewrite RespHead_encode_error_app by apply length_resp_room.
Qed.

Lemma RespHead_encode_internal_spec buf seq err :
  RespHead_encode_internal stale buf seq err =
  Some (seq, match err with
             | Some e => RespHead_as_bytes (err_head_of seq (EncRpc e)) ++ RpcIntErr_as_bytes e
             | None => RespHead_as_bytes (resp_head_of seq [] None)
             end).
Proof.
  unfold RespHead_encode_internal. fold (resp_room buf).
  pose proof (length_resp_room buf) as Hr.
  rewrite <- (app_nil_r (resp_room buf)). destruct err as [e|].
  - by rewrite RespHead_encode_error_app by done.
  - rewrite RespHead_write_head_app by done. by rewrite app_nil_r.
Qed.
End resp_specs.

(** ** Properties *)

(** C37: the packed layouts are bijections: a header whose fields fit their widths
    survives encoding to bytes and back, and any 32 (20) bytes are the image of
    exactly the header they decode to. *)
Theorem head_layout_bijective :
  (forall h, ReqHead_wf h -> ReqHead_from_bytes (ReqHead_as_bytes h) = Some h)
  /\ (forall bs h, ReqHead_from_bytes bs = Some h -> ReqHead_as_bytes h = bs /\ ReqHead_wf h)
  /\ (forall h, RespHead_wf h -> RespHead_from_bytes (RespHead_as_bytes h) = Some h)
  /\ (forall bs h, RespHead_from_bytes bs = Some h -> RespHead_as_bytes h = bs /\ RespHead_wf h)
  /\ RPC_REQ_HEADER_LEN = 32 /\ RPC_RESP_HEADER_LEN = 20.
Proof.
  split; [apply ReqHead_from_as_bytes|]. split; [apply ReqHead_as_from_bytes|].
  split; [apply RespHead_from_as_bytes|]. split; [apply RespHead_as_from_bytes|done].
Qed.

(** [ReqHead::encode] on a task whose message and blob fit produces header,
    action text and message in that order, never panics, and its header decodes
    to the task's sequence number, lengths and action. *)
Theorem req_encode_decodes {C T} `{ClientTaskLaws C T} (stale : nat -> byte)
    (c : C) (t : T) (buf : bytes) (cid : Z)
    (Hcid : in_u 64 cid) (Hseq : in_u 64 (task_seq t)) (Hact : action_ok (get_action t)) :
  exists r buf', ReqHead_encode stale c buf cid t = Some (r, buf') /\
  forall blob, r = Ok blob ->
    blob = get_req_blob t /\
    exists msg head,
      buf' = ReqHead_as_bytes head ++ action_text (get_action t) ++ msg
      /\ ReqHead_decode_head (take RPC_REQ_HEADER_LEN buf') = Some (Ok head)
      /\ ReqHead_get_action head = action_field (get_action t)
      /\ rq_seq head = task_seq t /\ rq_client_id head = cid
      /\ rq_msg_len head = zlen msg /\ rq_blob_len head = opt_len blob.
Proof.
  destruct (ReqHead_encode_spec stale c t buf cid) as (room & Hroom & E).
  destruct (encode_req c t _) as [[n|[]] buf1]; [|rewrite E; by eexists _, _].
  destruct E as (msg & -> & -> & ->).
  destruct (_ || _) eqn:Eb; [by eexists _, _|]. apply orb_false_iff in Eb as [E1 E2]. breflect.
  eexists _, _. split; [done|]. intros blob [= <-]. split; [done|].
  exists msg, (req_head_of cid (get_action t) (task_seq t) msg (get_req_blob t)).
  split; [done|]. rewrite take_app_le by done. rewrite take_ge by done.
  split; [apply ReqHead_decode_wf; auto with rpc|].
  split; [by apply get_action_flag|done].
Qed.

Example req_encode_decodes_witness :
  exists (msg : bytes) head buf',
    ReqHead_encode (fun _ => Byte.x00) Raw [] 9 (raw_task 7 (OwnedStr (lit "echo")) (lit "hi") None)
      = Some (Ok None, buf')
    /\ ReqHead_decode_head (take RPC_REQ_HEADER_LEN buf') = Some (Ok head)
    /\ ReqHead_get_action head = Err 4%Z /\ rq_msg_len head = zlen msg.
Proof.
  destruct (req_encode_decodes (fun _ => Byte.x00) Raw
    (raw_task 7 (OwnedStr (lit "echo")) (lit "hi") None) [] 9) as (r & buf' & E & Hr).
  - unfold in_u; lia.
  - vm_compute; split; [discriminate|reflexivity].
  - vm_compute; reflexivity.
  - assert (r = Ok None) as -> by (vm_compute in E; injection E as <- _; reflexivity).
    destruct (Hr None eq_refl) as (_ & msg & head & _ & Hd & Ha & _ & _ & Hm & _).
    exists msg, head, buf'. split; [exact E|]. split; [exact Hd|]. split; [exact Ha|exact Hm].
Defined.

(** a numeric action below zero is read back as the length of an action text:
    its sign bit is the header's string mark. *)
Theorem negative_action_misread (cid seq n : Z) (msg : bytes) (blob : option bytes)
    (Hn : (- 2 ^ 31 <= n < 0)%Z) :
  ReqHead_get_action (req_head_of cid (ActNum n) seq msg blob) = Err (n + 2 ^ 31)%Z.
Proof.
  assert (as_u32 n = n + 2 ^ 32)%Z as Hf.
  { unfold as_u32, wrap. rewrite <- (Z.mod_add _ 1) by done. apply Z.mod_small. lia. }
  rewrite get_action_of_flag; simpl; rewrite Hf; [|unfold in_u; lia].
  destruct (Z.ltb_spec (n + 2 ^ 32) (2 ^ 31)); [lia|]. f_equal. lia.
Qed.

Lemma negative_action_misread_witness :
  ReqHead_get_action (req_head_of 0 (ActNum (-1)) 1 [] None) = Err (2 ^ 31 - 1)%Z.
Proof. by rewrite (negative_action_misread 0 1 (-1) [] None) by lia. Defined.
