(* ===== verification/BufIO.v ===== *)
(** * core/src/io: byte streams, buffering, cancellation

    [AsyncRead] and [AsyncWrite] with their provided methods, the buffered
    reader and writer, [AsyncBufStream], [Cancellable] and [io_with_timeout!].

    A read into a buffer of [n] bytes returns the bytes read.  The loops take
    a fuel that bounds the number of inner calls; running out of fuel is a
    future that has not finished yet, [Pending]. *)

From S2P Require Import Prelude RustStd.

(** ** The traits *)

Class AsyncRead (T : Type) := { async_read : nat -> ioM T bytes }.
Class AsyncWrite (T : Type) := { async_write : bytes -> ioM T nat }.

Section provided.
Context {T : Type}.

(** [read_exact]: [acc] is the filled part of the buffer, [n] what is left. *)
Fixpoint read_exact_loop `{AsyncRead T} (fuel n : nat) (acc : bytes) : ioM T bytes :=
  fun t =>
    match n with
    | O => (Ready (Ok acc), t)
    | _ =>
        match fuel with
        | O => (Pending, t)
        | S fuel' =>
            match async_read n t with
            | (Ready (Ok []), t') => (Ready (Err UnexpectedEof), t')
            | (Ready (Ok bs), t') => read_exact_loop fuel' (n - length bs) (acc ++ bs) t'
            | (Ready (Err Interrupted), t') => read_exact_loop fuel' n acc t'
            | (Ready (Err e), t') => (Ready (Err e), t')
            | (Pending, t') => (Pending, t')
            end
        end
    end.

Definition read_exact `{AsyncRead T} (fuel n : nat) : ioM T bytes := read_exact_loop fuel n [].

(** [read_at_least]: stops once [min_len] bytes, or the whole buffer, are read. *)
Fixpoint read_at_least_loop `{AsyncRead T} (fuel buf_len min_len : nat) (acc : bytes)
    : ioM T bytes :=
  fun t =>
    if (length acc <? min_len) && (length acc <? buf_len) then
      match fuel with
      | O => (Pending, t)
      | S fuel' =>
          match async_read (buf_len - length acc) t with
          | (Ready (Ok []), t') => (Ready (Err UnexpectedEof), t')
          | (Ready (Ok bs), t') => read_at_least_loop fuel' buf_len min_len (acc ++ bs) t'
          | (Ready (Err Interrupted), t') => read_at_least_loop fuel' buf_len min_len acc t'
          | (Ready (Err e), t') => (Ready (Err e), t')
          | (Pending, t') => (Pending, t')
          end
      end
    else (Ready (Ok acc), t).

Definition read_at_least `{AsyncRead T} (fuel buf_len min_len : nat) : ioM T bytes :=
  read_at_least_loop fuel buf_len min_len [].

(** [write_all] *)
Fixpoint write_all `{AsyncWrite T} (fuel : nat) (buf : bytes) : ioM T unit :=
  fun t =>
    match buf with
    | [] => (Ready (Ok ()), t)
    | _ =>
        match fuel with
        | O => (Pending, t)
        | S fuel' =>
            match async_write buf t with
            | (Ready (Ok O), t') => (Ready (Err WriteZero), t')
            | (Ready (Ok n), t') => write_all fuel' (drop n buf) t'
            | (Ready (Err Interrupted), t') => write_all fuel' buf t'
            | (Ready (Err e), t') => (Ready (Err e), t')
            | (Pending, t') => (Pending, t')
            end
        end
    end.
End provided.

(** ** Buffered reader and writer *)

Record AsyncBufRead := mkBufRead { rb_buf : bytes; rb_pos : nat; rb_cap : nat }.

(** [new]: [None] is the failed assertion. *)
Definition AsyncBufRead_new (capacity : nat) : option AsyncBufRead :=
  if (0 <? capacity)%nat then
    Some {| rb_buf := replicate capacity Byte.x00; rb_pos := 0; rb_cap := 0 |}
  else None.

Definition read_buffered {T} `{AsyncRead T} (n : nat) : ioM (AsyncBufRead * T) bytes :=
  fun '(self, reader) =>
    if (rb_pos self <? rb_cap self)%nat then
      let k := (n `min` (rb_cap self - rb_pos self))%nat in
      (Ready (Ok (take k (drop (rb_pos self) (rb_buf self)))),
       ({| rb_buf := rb_buf self; rb_pos := rb_pos self + k; rb_cap := rb_cap self |}, reader))
    else if (length (rb_buf self) <=? n)%nat then
      let '(r, reader') := async_read n reader in (r, (self, reader'))
    else
      match async_read (length (rb_buf self)) reader with
      | (Ready (Ok bs), reader') =>
          let buf := bs ++ drop (length bs) (rb_buf self) in
          let k := (n `min` length bs)%nat in
          (Ready (Ok (take k buf)),
           ({| rb_buf := buf; rb_pos := k; rb_cap := length bs |}, reader'))
      | (Ready (Err e), reader') => (Ready (Err e), (self, reader'))
      | (Pending, reader') => (Pending, (self, reader'))
      end.

Record AsyncBufWrite := mkBufWrite { wb_buf : bytes; wb_pos : nat }.

Definition AsyncBufWrite_new (capacity : nat) : option AsyncBufWrite :=
  if (0 <? capacity)%nat then
    Some {| wb_buf := replicate capacity Byte.x00; wb_pos := 0 |}
  else None.

Definition buf_flush {T} `{AsyncWrite T} (fuel : nat) : ioM (AsyncBufWrite * T) unit :=
  fun '(self, writer) =>
    if (0 <? wb_pos self)%nat then
      match write_all fuel (take (wb_pos self) (wb_buf self)) writer with
      | (Ready (Ok _), writer') =>
          (Ready (Ok ()), ({| wb_buf := wb_buf self; wb_pos := 0 |}, writer'))
      | (Ready (Err e), writer') => (Ready (Err e), (self, writer'))
      | (Pending, writer') => (Pending, (self, writer'))
      end
    else (Ready (Ok ()), (self, writer)).

(** The copy at the end of [write_buffered]. *)
Definition buf_append (buf : bytes) (self : AsyncBufWrite) : AsyncBufWrite :=
  {| wb_buf := take (wb_pos self) (wb_buf self) ++ buf
               ++ drop (wb_pos self + length buf) (wb_buf self);
     wb_pos := wb_pos self + length buf |}.

Definition write_buffered {T} `{AsyncWrite T} (fuel : nat) (buf : bytes)
    : ioM (AsyncBufWrite * T) nat :=
  fun st =>
    if (length (wb_buf st.1) <=? length buf)%nat then
      match buf_flush fuel st with
      | (Ready (Ok _), (self, writer)) =>
          let '(r, writer') := async_write buf writer in (r, (self, writer'))
      | (Ready (Err e), st') => (Ready (Err e), st')
      | (Pending, st') => (Pending, st')
      end
    else
      match (if (length (wb_buf st.1) - wb_pos st.1 <? length buf)%nat
             then buf_flush fuel st else (Ready (Ok ()), st)) with
      | (Ready (Ok _), (self, writer)) =>
          (Ready (Ok (length buf)), (buf_append buf self, writer))
      | (Ready (Err e), st') => (Ready (Err e), st')
      | (Pending, st') => (Pending, st')
      end.

(** [AsyncBufStream]: both buffers over one stream *)
Record AsyncBufStream (T : Type) := mkBufStream {
  bs_read : AsyncBufRead;
  bs_write : AsyncBufWrite;
  bs_inner : T;
}.
Arguments mkBufStream {T}.
Arguments bs_read {T}.
Arguments bs_write {T}.
Arguments bs_inner {T}.

Definition AsyncBufStream_new {T} (stream : T) (buf_size : nat) : option (AsyncBufStream T) :=
  match AsyncBufRead_new buf_size, AsyncBufWrite_new buf_size with
  | Some r, Some w => Some {| bs_read := r; bs_write := w; bs_inner := stream |}
  | _, _ => None
  end.

Section buf_stream.
Context {T : Type} `{AsyncRead T, AsyncWrite T}.
(** The number of inner writes a flush may need. *)
Variable fuel : nat.

Definition AsyncBufStream_flush : ioM (AsyncBufStream T) unit :=
  fun s =>
    let '(r, (w, i)) := buf_flush fuel (bs_write s, bs_inner s) in
    (r, {| bs_read := bs_read s; bs_write := w; bs_inner := i |}).

Definition AsyncBufStream_read (n : nat) : ioM (AsyncBufStream T) bytes :=
  fun s =>
    let '(r, (rd, i)) := read_buffered n (bs_read s, bs_inner s) in
    (r, {| bs_read := rd; bs_write := bs_write s; bs_inner := i |}).

Definition AsyncBufStream_write (buf : bytes) : ioM (AsyncBufStream T) nat :=
  fun s =>
    let '(r, (w, i)) := write_buffered fuel buf (bs_write s, bs_inner s) in
    (r, {| bs_read := bs_read s; bs_write := w; bs_inner := i |}).

#[export] Instance AsyncBufStream_AsyncRead : AsyncRead (AsyncBufStream T) :=
  {| async_read := AsyncBufStream_read |}.
Definition AsyncBufStream_AsyncWrite : AsyncWrite (AsyncBufStream T) :=
  {| async_write := AsyncBufStream_write |}.
End buf_stream.

(** ** [Cancellable] and [io_with_timeout!]

    The I/O future is polled first; the cancel future only matters while the
    I/O future waits, and the I/O future is then dropped where it stands. *)
Definition cancellable {S A} (future : ioM S A) (cancel : poll unit) :
    S -> poll (result (io_result A) unit) * S :=
  fun s =>
    match future s with
    | (Ready output, s') => (Ready (Ok output), s')
    | (Pending, s') =>
        match cancel with
        | Ready _ => (Ready (Err ()), s')
        | Pending => (Pending, s')
        end
    end.

(** With a zero timeout there is no timer; otherwise the timer fires while the
    future waits. *)
Definition io_with_timeout {S A} (timeout : Z) (f : ioM S A) : ioM S A :=
  fun s =>
    if (timeout =? 0)%Z then f s
    else
      match cancellable f (Ready ()) s with
      | (Ready (Ok r), s') => (Ready r, s')
      | (Ready (Err _), s') => (Ready (Err TimedOut), s')
      | (Pending, s') => (Pending, s')
      end.

(** ** Contracts

    What an implementor of the traits promises.  [incoming] is the data that
    is still to be delivered, [outgoing] what has been handed to the peer;
    [r_inv]/[w_inv] are well-formedness, [r_ready] says that no fault comes
    before the data. *)
Class AsyncReadLaws (T : Type) `{AsyncRead T} := {
  incoming : T -> bytes;
  r_inv : T -> Prop;
  r_ready : T -> Prop;
  read_ok n t bs t' :
    r_inv t -> async_read n t = (Ready (Ok bs), t') ->
    length bs <= n /\ incoming t = bs ++ incoming t' /\ r_inv t' /\ (r_ready t -> r_ready t');
  read_not_ok n t r t' :
    r_inv t -> async_read n t = (r, t') -> (forall bs, r <> Ready (Ok bs)) ->
    incoming t' = incoming t /\ r_inv t' /\ (r_ready t -> r_ready t');
  read_eof n t t' :
    r_inv t -> 0 < n -> async_read n t = (Ready (Ok []), t') -> incoming t = [];
  read_progress n t :
    r_inv t -> r_ready t -> 0 < n -> incoming t <> [] ->
    exists b bs t', async_read n t = (Ready (Ok (b :: bs)), t');
}.

Class AsyncWriteLaws (T : Type) `{AsyncWrite T} := {
  outgoing : T -> bytes;
  w_inv : T -> Prop;
  w_ready : T -> Prop;
  write_ok buf t n t' :
    w_inv t -> async_write buf t = (Ready (Ok n), t') ->
    n <= length buf /\ outgoing t' = outgoing t ++ take n buf /\ w_inv t'
    /\ (w_ready t -> w_ready t');
  write_interrupted buf t t' :
    w_inv t -> async_write buf t = (Ready (Err Interrupted), t') ->
    outgoing t' = outgoing t /\ w_inv t' /\ (w_ready t -> w_ready t');
  write_progress buf t :
    w_inv t -> w_ready t -> buf <> [] ->
    exists n t', async_write buf t = (Ready (Ok (S n)), t');
}.

(** A raw stream sends nothing with a write that does not succeed. *)
Class RawWriteLaws (T : Type) `{AsyncWriteLaws T} := {
  write_not_ok buf t r t' :
    w_inv t -> async_write buf t = (r, t') -> (forall n, r <> Ready (Ok n)) ->
    outgoing t' = outgoing t /\ w_inv t' /\ (w_ready t -> w_ready t');
}.

(** A stream whose peer has closed its side reports the end of the data. *)
Class AsyncReadEofLaws (T : Type) `{AsyncReadLaws T} := {
  r_closed : T -> Prop;
  read_closed n t :
    r_inv t -> r_closed t -> incoming t = [] -> 0 < n ->
    exists t', async_read n t = (Ready (Ok []), t');
  closed_read n t r t' : r_inv t -> r_closed t -> async_read n t = (r, t') -> r_closed t';
}.

Section provided_laws.
Context {T : Type}.

Lemma read_exact_loop_ok `{AsyncReadLaws T} fuel n acc t bs t' :
  r_inv t -> read_exact_loop fuel n acc t = (Ready (Ok bs), t') ->
  exists ds, bs = acc ++ ds /\ length ds = n /\ incoming t = ds ++ incoming t'
    /\ r_inv t' /\ (r_ready t -> r_ready t').
Proof.
  revert n acc t. induction fuel as [|fuel IH]; intros n acc t Hi.
  { destruct n; [|done]. intros [= <- <-]. exists []. by rewrite app_nil_r. }
  destruct n as [|n]; [intros [= <- <-]; exists []; by rewrite app_nil_r|].
  simpl. destruct (async_read (S n) t) as [[[[|b cs]|e]|] t1] eqn:E; [done|..|done].
  - intros Hl. apply read_ok in E as (Hle & Hin & Hi1 & Hr1); [|done].
    apply IH in Hl as (ds & -> & Hd & Hin' & Hi' & Hr'); [|done].
    exists ((b :: cs) ++ ds). rewrite Hin, Hin', <- !app_assoc. split_and!; auto.
    rewrite length_app. lia.
  - intros Hl. assert (e = Interrupted) as -> by (by destruct e).
    destruct (read_not_ok _ _ _ _ Hi E) as (Hin & Hi1 & Hr1); [done|].
    apply IH in Hl as (ds & -> & Hd & Hin' & Hi' & Hr'); [|done].
    exists ds. rewrite <- Hin. split_and!; auto.
Qed.

(** [read_exact] delivers exactly the next [n] bytes of the stream. *)
Lemma read_exact_ok `{AsyncReadLaws T} fuel n t bs t' :
  r_inv t -> read_exact fuel n t = (Ready (Ok bs), t') ->
  length bs = n /\ incoming t = bs ++ incoming t' /\ r_inv t' /\ (r_ready t -> r_ready t').
Proof. intros Hi (ds & -> & ?)%read_exact_loop_ok; done. Qed.

Lemma read_exact_loop_enough `{AsyncReadLaws T} fuel n acc t :
  r_inv t -> r_ready t -> n <= length (incoming t) -> n <= fuel ->
  exists t', read_exact_loop fuel n acc t = (Ready (Ok (acc ++ take n (incoming t))), t')
    /\ incoming t' = drop n (incoming t) /\ r_inv t' /\ r_ready t'.
Proof.
  revert n acc t. induction fuel as [|fuel IH]; intros n acc t Hi Hr Hn Hf.
  { replace n with 0 by lia. exists t. by rewrite take_0, app_nil_r. }
  destruct n as [|n]; [exists t; by rewrite take_0, app_nil_r|].
  assert (incoming t <> []) as Hne by (intros E; rewrite E in Hn; simpl in Hn; lia).
  destruct (read_progress (S n) t Hi Hr ltac:(lia) Hne) as (b & cs & t1 & E).
  destruct (read_ok _ _ _ _ Hi E) as (Hle & Hin & Hi1 & Hr1).
  cbn [read_exact_loop]. rewrite E. set (ds := b :: cs) in *.
  assert (1 <= length ds) by (simpl; lia).
  rewrite Hin, length_app in Hn.
  destruct (IH (S n - length ds) (acc ++ ds) t1) as (t' & E' & Hin' & Hi' & Hr');
    [done|by apply Hr1|lia|lia|].
  exists t'. rewrite E', Hin', Hin, take_app_ge, drop_app_ge, app_assoc by done. done.
Qed.

(** Given the data and no fault, [read_exact] returns it; one read per byte
    is enough fuel. *)
Lemma read_exact_enough `{AsyncReadLaws T} fuel n t :
  r_inv t -> r_ready t -> n <= length (incoming t) -> n <= fuel ->
  exists t', read_exact fuel n t = (Ready (Ok (take n (incoming t))), t')
    /\ incoming t' = drop n (incoming t) /\ r_inv t' /\ r_ready t'.
Proof. apply (read_exact_loop_enough fuel n []). Qed.

(** The form the transports use: the next frame part is at the front. *)
Lemma read_exact_front `{AsyncReadLaws T} fuel t bs rest :
  r_inv t -> r_ready t -> incoming t = bs ++ rest -> length bs <= fuel ->
  exists t', read_exact fuel (length bs) t = (Ready (Ok bs), t')
    /\ incoming t' = rest /\ r_inv t' /\ r_ready t'.
Proof.
  intros Hi Hr Hin Hf. destruct (read_exact_enough fuel (length bs) t) as (t' & E & Hin' & ?).
  - done.
  - done.
  - rewrite Hin, length_app. lia.
  - done.
  - exists t'. rewrite Hin, take_app_length in E. rewrite Hin, drop_app_length in Hin'. done.
Qed.

Lemma read_exact_loop_short `{AsyncReadEofLaws T} fuel n acc t :
  r_inv t -> r_ready t -> r_closed t -> length (incoming t) < n -> length (incoming t) < fuel ->
  exists t', read_exact_loop fuel n acc t = (Ready (Err UnexpectedEof), t').
Proof.
  revert n acc t. induction fuel as [|fuel IH]; intros n acc t Hi Hr Hc Hn Hf; [lia|].
  destruct n as [|n]; [lia|]. cbn [read_exact_loop].
  destruct (decide (incoming t = [])) as [Hnil|Hne].
  { destruct (read_closed (S n) t Hi Hc Hnil ltac:(lia)) as [t' ->]. eauto. }
  destruct (read_progress (S n) t Hi Hr ltac:(lia) Hne) as (b & cs & t1 & E).
  destruct (read_ok _ _ _ _ Hi E) as (Hle & Hin & Hi1 & Hr1). rewrite E.
  rewrite Hin, length_app in Hn, Hf. set (ds := b :: cs) in *.
  assert (1 <= length ds) by (simpl; lia).
  apply IH; [done|by apply Hr1|exact (closed_read _ _ _ _ Hi Hc E)|lia|lia].
Qed.

Lemma read_exact_loop_closed `{AsyncReadEofLaws T} fuel n acc t r t' :
  r_inv t -> r_closed t -> read_exact_loop fuel n acc t = (r, t') -> r_closed t'.
Proof.
  revert n acc t. induction fuel as [|fuel IH]; intros n acc t Hi Hc;
    (destruct n as [|n]; [by intros [= _ <-]|]); [by intros [= _ <-]|].
  cbn [read_exact_loop]. destruct (async_read (S n) t) as [q t1] eqn:E.
  pose proof (closed_read _ _ _ _ Hi Hc E) as Hc1.
  destruct q as [[[|b cs]|e]|].
  - by intros [= _ <-].
  - apply IH; [|done]. by apply read_ok in E as (_ & _ & ? & _).
  - assert (r_inv t1) by (by apply read_not_ok in E as (_ & ? & _)).
    destruct e; try (by intros [= _ <-]). by apply IH.
  - by intros [= _ <-].
Qed.

(** On a stream that delivers its data and then ends, [read_exact] takes the
    next [n] bytes or reports the end. *)
Lemma read_exact_total `{AsyncReadEofLaws T} fuel n t :
  r_inv t -> r_ready t -> r_closed t -> length (incoming t) < fuel ->
  if n <=? length (incoming t) then
    exists t', read_exact fuel n t = (Ready (Ok (take n (incoming t))), t')
      /\ incoming t' = drop n (incoming t) /\ r_inv t' /\ r_ready t' /\ r_closed t'
  else exists t', read_exact fuel n t = (Ready (Err UnexpectedEof), t').
Proof.
  intros Hi Hr Hc Hf. destruct (Nat.leb_spec n (length (incoming t))).
  - destruct (read_exact_enough fuel n t) as (t' & E & ? & ? & ?); [done|done|done|lia|].
    exists t'. split_and!; auto. exact (read_exact_loop_closed _ _ _ _ _ _ Hi Hc E).
  - apply read_exact_loop_short; auto with lia.
Qed.

Lemma read_at_least_loop_ok `{AsyncReadLaws T} fuel buf_len min_len acc t bs t' :
  r_inv t -> length acc <= buf_len ->
  read_at_least_loop fuel buf_len min_len acc t = (Ready (Ok bs), t') ->
  exists ds, bs = acc ++ ds /\ min_len `min` buf_len <= length bs <= buf_len
    /\ incoming t = ds ++ incoming t' /\ r_inv t'.
Proof.
  revert acc t. induction fuel as [|fuel IH]; intros acc t Hi Hl; cbn [read_at_least_loop].
  all: destruct ((length acc <? min_len) && (length acc <? buf_len)) eqn:Eb;
    [|intros [= <- <-]; exists []; rewrite app_nil_r; split_and!; try done;
      apply andb_false_iff in Eb as [Eb|Eb]; breflect; lia].
  { done. }
  breflect.
  destruct (async_read (buf_len - length acc) t) as [[[[|b cs]|e]|] t1] eqn:E; [done|..|done].
  - intros Hr. apply read_ok in E as (Hle & Hin & Hi1 & _); [|done].
    apply IH in Hr as (ds & -> & Hd & Hin' & Hi'); [|done|rewrite length_app; lia].
    exists ((b :: cs) ++ ds). split; [by rewrite app_assoc|]. split; [done|].
    by rewrite Hin, Hin', app_assoc.
  - intros Hr. assert (e = Interrupted) as -> by (by destruct e).
    destruct (read_not_ok _ _ _ _ Hi E) as (Hin & Hi1 & _); [done|].
    apply IH in Hr as (ds & -> & Hd & Hin' & Hi'); [|done|done].
    exists ds. by rewrite <- Hin.
Qed.

Lemma write_all_ok `{AsyncWriteLaws T} fuel buf t t' :
  w_inv t -> write_all fuel buf t = (Ready (Ok ()), t') ->
  outgoing t' = outgoing t ++ buf /\ w_inv t' /\ (w_ready t -> w_ready t').
Proof.
  revert buf t. induction fuel as [|fuel IH]; intros buf t Hi.
  { destruct buf; [|done]. intros [= <-]. by rewrite app_nil_r. }
  destruct buf as [|b buf]; [intros [= <-]; by rewrite app_nil_r|].
  cbn [write_all]. destruct (async_write (b :: buf) t) as [[[[|n]|e]|] t1] eqn:E; [done|..|done].
  - intros Hl. apply write_ok in E as (Hle & Ho & Hi1 & Hr1); [|done].
    apply IH in Hl as (Ho' & ? & ?); [|done].
    rewrite Ho', Ho, <- app_assoc, take_drop. auto.
  - intros Hl. assert (e = Interrupted) as -> by (by destruct e).
    destruct (write_interrupted _ _ _ Hi E) as (Ho & Hi1 & Hr1).
    apply IH in Hl as (Ho' & ? & ?); [|done]. rewrite Ho', Ho. auto.
Qed.

(** Whatever the outcome, only a prefix of the buffer has gone out. *)
Lemma write_all_prefix `{RawWriteLaws T} fuel buf t r t' :
  w_inv t -> write_all fuel buf t = (r, t') ->
  exists k, k <= length buf /\ outgoing t' = outgoing t ++ take k buf /\ w_inv t'
    /\ (w_ready t -> w_ready t').
Proof.
  revert buf t. induction fuel as [|fuel IH]; intros buf t Hi.
  { destruct buf; intros [= <- <-]; exists 0; rewrite take_0, app_nil_r; split_and!; auto with lia. }
  destruct buf as [|b buf];
    [intros [= <- <-]; exists 0; rewrite take_0, app_nil_r; split_and!; auto with lia|].
  cbn [write_all]. destruct (async_write (b :: buf) t) as [[[n|e]|] t1] eqn:E.
  - destruct (write_ok _ _ _ _ Hi E) as (Hle & Ho & Hi1 & Hr1). destruct n as [|n].
    + intros [= <- <-]. exists 0. rewrite Ho. split_and!; auto with lia.
    + intros Hl. apply IH in Hl as (k & Hk & Ho' & Hi' & Hr'); [|done].
      rewrite length_drop in Hk. exists (S n + k). split; [lia|].
      rewrite Ho', Ho, <- app_assoc, take_take_drop. split_and!; auto.
  - destruct (write_not_ok _ _ _ _ Hi E) as (Ho & Hi1 & Hr1); [done|].
    destruct (decide (e = Interrupted)) as [->|He].
    + intros Hl. apply IH in Hl as (k & Hk & Ho' & Hi' & Hr'); [|done].
      exists k. rewrite Ho', Ho. split_and!; auto.
    + intros Hl. assert (t' = t1) as -> by (destruct e; simplify_eq; done).
      exists 0. rewrite take_0, app_nil_r. split_and!; auto with lia.
  - destruct (write_not_ok _ _ _ _ Hi E) as (Ho & Hi1 & Hr1); [done|].
    intros [= <- <-]. exists 0. rewrite take_0, app_nil_r. split_and!; auto with lia.
Qed.

Lemma write_all_enough `{AsyncWriteLaws T} fuel buf t :
  w_inv t -> w_ready t -> length buf <= fuel ->
  exists t', write_all fuel buf t = (Ready (Ok ()), t').
Proof.
  revert buf t. induction fuel as [|fuel IH]; intros buf t Hi Hr Hf.
  { destruct buf; [|simpl in Hf; lia]. eauto. }
  destruct buf as [|b buf]; [eauto|]. cbn [write_all].
  destruct (write_progress (b :: buf) t Hi Hr ltac:(done)) as (n & t1 & E). rewrite E.
  destruct (write_ok _ _ _ _ Hi E) as (_ & _ & ? & Hr1).
  apply IH; [done|by apply Hr1|]. rewrite length_drop. simpl in *. lia.
Qed.
End provided_laws.

(** A future that finishes is not affected by the timer or by a cancel. *)
Lemma io_with_timeout_ready {S A} timeout (f : ioM S A) s r s' :
  f s = (Ready r, s') -> io_with_timeout timeout f s = (Ready r, s').
Proof. intros E. unfold io_with_timeout, cancellable. rewrite E. by case_match. Qed.

Lemma cancellable_ready {S A} (f : ioM S A) cancel s r s' :
  f s = (Ready r, s') -> cancellable f cancel s = (Ready (Ok r), s').
Proof. intros E. unfold cancellable. by rewrite E. Qed.

(** ** The buffered reader delivers the stream *)

(** The bytes a buffered reader holds but has not handed out. *)
Definition rb_rest (r : AsyncBufRead) : bytes :=
  take (rb_cap r - rb_pos r) (drop (rb_pos r) (rb_buf r)).

Definition rb_inv (r : AsyncBufRead) : Prop :=
  rb_pos r <= rb_cap r /\ rb_cap r <= length (rb_buf r) /\ 0 < length (rb_buf r).

Lemma AsyncBufRead_new_inv n r : AsyncBufRead_new n = Some r -> rb_inv r /\ rb_rest r = [].
Proof.
  unfold AsyncBufRead_new. case_match; [|done]. intros [= <-]. breflect.
  unfold rb_inv, rb_rest; simpl. rewrite length_replicate, take_0. auto with lia.
Qed.

Section buf_read_laws.
Context {T : Type} `{AsyncReadLaws T}.

Lemma read_buffered_ok n r t bs r' t' :
  rb_inv r -> r_inv t -> read_buffered n (r, t) = (Ready (Ok bs), (r', t')) ->
  length bs <= n /\ rb_rest r ++ incoming t = bs ++ rb_rest r' ++ incoming t'
  /\ rb_inv r' /\ r_inv t' /\ (r_ready t -> r_ready t').
Proof.
  intros (Hp & Hc & Hb) Hi. unfold read_buffered.
  destruct (Nat.ltb_spec (rb_pos r) (rb_cap r)).
  { intros [= <- <- <-]. unfold rb_rest, rb_inv; simpl.
    rewrite length_take, app_assoc. split; [lia|]. split; [|auto with lia].
    f_equal. rewrite <- drop_drop, take_take_drop. f_equal. lia. }
  assert (rb_rest r = []) as Hrest.
  { unfold rb_rest. replace (rb_cap r - rb_pos r) with 0 by lia. apply take_0. }
  destruct (Nat.leb_spec (length (rb_buf r)) n).
  { destruct (async_read n t) as [q t1] eqn:E. intros [= -> <- <-].
    apply read_ok in E as (? & ? & ? & ?); [|done]. rewrite Hrest. done. }
  destruct (async_read (length (rb_buf r)) t) as [[[ds|e]|] t1] eqn:E; [|done..].
  intros [= <- <- <-]. apply read_ok in E as (Hl & Hin & Hi1 & Hr1); [|done].
  unfold rb_inv, rb_rest in *; simpl in *. rewrite Hrest, Hin.
  set (k := n `min` length ds). assert (k <= length ds) by lia.
  rewrite take_app_le by done. split; [rewrite length_take; lia|].
  split; [|rewrite length_app, length_drop; auto with lia].
  rewrite drop_app_le, take_app_le by (rewrite ?length_drop; lia).
  rewrite (take_ge (drop k ds)) by (rewrite length_drop; lia).
  by rewrite (app_assoc (take k ds)), take_drop.
Qed.

Lemma read_buffered_not_ok n r t q r' t' :
  rb_inv r -> r_inv t -> read_buffered n (r, t) = (q, (r', t')) ->
  (forall bs, q <> Ready (Ok bs)) ->
  r' = r /\ incoming t' = incoming t /\ r_inv t' /\ (r_ready t -> r_ready t').
Proof.
  intros Hr Hi. unfold read_buffered.
  destruct (_ <? _)%nat; [intros [= <- <- <-] Hq; by destruct (Hq _ eq_refl)|].
  destruct (_ <=? _)%nat.
  - destruct (async_read n t) as [q1 t1] eqn:E. intros [= -> <- <-] Hq.
    split; [done|]. by eapply read_not_ok.
  - destruct (async_read _ t) as [[[ds|e]|] t1] eqn:E; intros [= <- <- <-] Hq;
      [by destruct (Hq _ eq_refl)|..]; (split; [done|]); by eapply read_not_ok.
Qed.

Lemma read_buffered_eof n r t r' t' :
  rb_inv r -> r_inv t -> 0 < n -> read_buffered n (r, t) = (Ready (Ok []), (r', t')) ->
  rb_rest r ++ incoming t = [].
Proof.
  intros (Hp & Hc & Hb) Hi Hn. unfold read_buffered.
  destruct (Nat.ltb_spec (rb_pos r) (rb_cap r)).
  { intros [= E _ _]. apply (f_equal length) in E.
    rewrite length_take, length_drop in E. simpl in E. lia. }
  assert (rb_rest r = []) as ->.
  { unfold rb_rest. replace (rb_cap r - rb_pos r) with 0 by lia. apply take_0. }
  destruct (Nat.leb_spec (length (rb_buf r)) n).
  { destruct (async_read n t) as [q t1] eqn:E. intros [= -> _ _]. by eapply read_eof. }
  destruct (async_read (length (rb_buf r)) t) as [[[ds|e]|] t1] eqn:E; [|done..].
  intros [= E' _ _]. apply (f_equal length) in E'.
  rewrite length_take, length_app in E'. simpl in E'.
  destruct ds; [|simpl in E'; lia]. by eapply (read_eof (length (rb_buf r))).
Qed.

Lemma read_buffered_progress n r t :
  rb_inv r -> r_inv t -> r_ready t -> 0 < n -> rb_rest r ++ incoming t <> [] ->
  exists b bs st', read_buffered n (r, t) = (Ready (Ok (b :: bs)), st').
Proof.
  intros (Hp & Hc & Hb) Hi Hr Hn Hne. unfold read_buffered.
  destruct (Nat.ltb_spec (rb_pos r) (rb_cap r)).
  { destruct (take _ (drop (rb_pos r) (rb_buf r))) eqn:E; [|eauto].
    apply (f_equal length) in E. rewrite length_take, length_drop in E. simpl in E. lia. }
  assert (rb_rest r = []) as Hrest.
  { unfold rb_rest. replace (rb_cap r - rb_pos r) with 0 by lia. apply take_0. }
  rewrite Hrest in Hne.
  destruct (Nat.leb_spec (length (rb_buf r)) n).
  { destruct (read_progress n t Hi Hr Hn Hne) as (b & cs & t1 & ->). eauto. }
  destruct (read_progress (length (rb_buf r)) t Hi Hr Hb Hne) as (b & cs & t1 & ->).
  destruct n as [|n]; [lia|]. simpl. eauto.
Qed.
End buf_read_laws.

(** ** The buffered writer sends the stream *)

(** Bytes accepted but not yet sent. *)
Definition wb_pend (w : AsyncBufWrite) : bytes := take (wb_pos w) (wb_buf w).

Definition wb_inv (w : AsyncBufWrite) : Prop :=
  wb_pos w <= length (wb_buf w) /\ 0 < length (wb_buf w).

Lemma wb_pend_0 w : wb_pos w = 0 -> wb_pend w = [].
Proof. unfold wb_pend. intros ->. apply take_0. Qed.

Lemma AsyncBufWrite_new_inv n w : AsyncBufWrite_new n = Some w -> wb_inv w /\ wb_pend w = [].
Proof.
  unfold AsyncBufWrite_new. case_match; [|done]. intros [= <-]. breflect.
  unfold wb_inv, wb_pend; simpl. rewrite length_replicate, take_0. auto with lia.
Qed.

Lemma buf_append_spec w buf :
  wb_inv w -> wb_pos w + length buf <= length (wb_buf w) ->
  wb_inv (buf_append buf w) /\ wb_pend (buf_append buf w) = wb_pend w ++ buf
  /\ length (wb_buf (buf_append buf w)) = length (wb_buf w).
Proof.
  intros [Hp Hb] Hl. unfold wb_inv, wb_pend, buf_append; simpl.
  rewrite !length_app, length_take, length_drop. split; [lia|]. split; [|lia].
  rewrite app_assoc, take_app_le by (rewrite length_app, length_take; lia).
  apply take_ge. rewrite length_app, length_take. lia.
Qed.

Section buf_write_laws.
Context {T : Type} `{AsyncWriteLaws T} (fuel : nat).

Lemma buf_flush_ok w t w' t' :
  wb_inv w -> w_inv t -> buf_flush fuel (w, t) = (Ready (Ok ()), (w', t')) ->
  wb_inv w' /\ wb_pos w' = 0 /\ length (wb_buf w') = length (wb_buf w)
  /\ outgoing t' = outgoing t ++ wb_pend w /\ w_inv t' /\ (w_ready t -> w_ready t').
Proof.
  intros [Hp Hb] Hi. unfold buf_flush. destruct (Nat.ltb_spec 0 (wb_pos w)).
  - destruct (write_all _ _ _) as [[[[]|e]|] t1] eqn:E; [|done..]. intros [= <- <-].
    apply write_all_ok in E as (Ho & Hi1 & Hr1); [|done].
    unfold wb_inv; simpl. auto 10 with lia.
  - intros [= <- <-]. unfold wb_inv, wb_pend.
    replace (wb_pos w) with 0 by lia. rewrite take_0, app_nil_r. auto 10 with lia.
Qed.

Lemma buf_flush_enough w t :
  wb_inv w -> w_inv t -> w_ready t -> length (wb_buf w) <= fuel ->
  exists st', buf_flush fuel (w, t) = (Ready (Ok ()), st').
Proof.
  intros [Hp Hb] Hi Hr Hf. unfold buf_flush. destruct (0 <? wb_pos w)%nat; [|eauto].
  destruct (write_all_enough fuel (take (wb_pos w) (wb_buf w)) t) as [t' ->]; auto.
  - rewrite length_take. lia.
  - eauto.
Qed.

Lemma write_buffered_ok buf w t n w' t' :
  wb_inv w -> w_inv t -> write_buffered fuel buf (w, t) = (Ready (Ok n), (w', t')) ->
  n <= length buf
  /\ outgoing t' ++ wb_pend w' = (outgoing t ++ wb_pend w) ++ take n buf
  /\ wb_inv w' /\ length (wb_buf w') = length (wb_buf w)
  /\ w_inv t' /\ (w_ready t -> w_ready t').
Proof.
  intros Hw Hi. unfold write_buffered; cbn [fst].
  destruct (Nat.leb_spec (length (wb_buf w)) (length buf)).
  - destruct (buf_flush fuel (w, t)) as [[[[]|e]|] [w1 t1]] eqn:E; [|done..].
    apply buf_flush_ok in E as (Hw1 & Hp1 & Hl1 & Ho1 & Hi1 & Hr1); [|done|done].
    destruct (async_write buf t1) as [q t2] eqn:E2. intros [= -> <- <-].
    apply write_ok in E2 as (Hn & Ho2 & Hi2 & Hr2); [|done].
    rewrite Ho2, Ho1. rewrite (wb_pend_0 w1 Hp1), app_nil_r. split_and!; auto.
  - set (fl := (length (wb_buf w) - wb_pos w <? length buf)%nat) in *.
    destruct (if fl then buf_flush fuel (w, t) else (Ready (Ok ()), (w, t)))
      as [[[[]|e]|] [w1 t1]] eqn:E; [|done..]. intros [= <- <- <-].
    assert (wb_inv w1 /\ wb_pos w1 + length buf <= length (wb_buf w1)
      /\ length (wb_buf w1) = length (wb_buf w)
      /\ outgoing t1 ++ wb_pend w1 = outgoing t ++ wb_pend w
      /\ w_inv t1 /\ (w_ready t -> w_ready t1)) as (Hw1 & Hfit & Hl1 & Ho1 & Hi1 & Hr1).
    { destruct fl eqn:Hfl.
      - apply buf_flush_ok in E as (Hw1 & Hp1 & Hl1 & Ho1 & Hi1 & Hr1); [|done|done].
        rewrite (wb_pend_0 w1 Hp1), app_nil_r. split_and!; auto with lia.
      - simplify_eq. apply Nat.ltb_ge in Hfl. pose proof Hw as [? ?]. split_and!; auto with lia. }
    destruct (buf_append_spec w1 buf Hw1 Hfit) as (Ha & Hpe & Hlb).
    rewrite Hpe, app_assoc, Ho1, firstn_all, Hlb. split_and!; auto.
Qed.

Lemma write_buffered_progress buf w t :
  wb_inv w -> w_inv t -> w_ready t -> length (wb_buf w) <= fuel -> buf <> [] ->
  exists n st', write_buffered fuel buf (w, t) = (Ready (Ok (S n)), st').
Proof.
  intros Hw Hi Hr Hf Hne. unfold write_buffered; cbn [fst].
  destruct (buf_flush_enough w t Hw Hi Hr Hf) as [[w1 t1] E].
  destruct (_ <=? _)%nat.
  - rewrite E. apply buf_flush_ok in E as (_ & _ & _ & _ & Hi1 & Hr1); [|done|done].
    destruct (write_progress buf t1) as (n & t2 & ->); eauto.
  - destruct (_ <? _)%nat; [rewrite E|]; destruct buf; try done; eauto.
Qed.

(** The flush inside a buffered write never reports [Interrupted]. *)
Lemma write_all_not_interrupted buf t t' :
  write_all fuel buf t <> (Ready (Err Interrupted), t').
Proof.
  revert buf t. induction fuel as [|f IH]; intros [|b buf] t; try done. cbn [write_all].
  destruct (async_write _ t) as [[[[|n]|[]]|] t1]; done || apply IH.
Qed.

Lemma write_buffered_interrupted buf w t w' t' :
  wb_inv w -> w_inv t ->
  write_buffered fuel buf (w, t) = (Ready (Err Interrupted), (w', t')) ->
  outgoing t' ++ wb_pend w' = outgoing t ++ wb_pend w
  /\ wb_inv w' /\ length (wb_buf w') = length (wb_buf w)
  /\ w_inv t' /\ (w_ready t -> w_ready t').
Proof.
  intros Hw Hi. unfold write_buffered; cbn [fst].
  assert (forall st, buf_flush fuel (w, t) <> (Ready (Err Interrupted), st)) as Hfl.
  { intros st. unfold buf_flush. destruct (_ <? _)%nat; [|done].
    destruct (write_all _ _ _) as [[[[]|e]|] t1] eqn:E; try done.
    intros [= -> _]. by apply write_all_not_interrupted in E. }
  destruct (_ <=? _)%nat.
  - destruct (buf_flush fuel (w, t)) as [[[[]|e]|] [w1 t1]] eqn:E; [| |done].
    + apply buf_flush_ok in E as (Hw1 & Hp1 & Hl1 & Ho1 & Hi1 & Hr1); [|done|done].
      destruct (async_write buf t1) as [q t2] eqn:E2. intros [= -> <- <-].
      apply write_interrupted in E2 as (Ho2 & Hi2 & Hr2); [|done].
      rewrite Ho2, Ho1. rewrite (wb_pend_0 w1 Hp1), app_nil_r. split_and!; auto.
    + intros [= -> <- <-]. by destruct (Hfl (w1, t1)).
  - destruct (_ <? _)%nat; [|done].
    destruct (buf_flush fuel (w, t)) as [[[[]|e]|] [w1 t1]] eqn:E; try done.
    intros [= -> <- <-]. by destruct (Hfl (w1, t1)).
Qed.
End buf_write_laws.

(** ** [AsyncBufStream] meets the contracts of the stream it wraps *)

Section buf_stream_laws.
Context {T : Type} `{AsyncReadLaws T}.

#[export, refine] Instance AsyncBufStream_ReadLaws : AsyncReadLaws (AsyncBufStream T) := {
  incoming s := rb_rest (bs_read s) ++ incoming (bs_inner s);
  r_inv s := rb_inv (bs_read s) /\ r_inv (bs_inner s);
  r_ready s := r_ready (bs_inner s);
}.
Proof.
  all: unfold async_read, AsyncBufStream_AsyncRead, AsyncBufStream_read.
  - intros n s bs s' [Hr Hi].
    destruct (read_buffered n _) as [q [r1 t1]] eqn:E. intros [= -> <-]. simpl.
    apply read_buffered_ok in E as (? & -> & ? & ? & ?); auto; split_and!; auto.
  - intros n s q s' [Hr Hi].
    destruct (read_buffered n _) as [q1 [r1 t1]] eqn:E. intros [= -> <-] Hq. simpl.
    apply read_buffered_not_ok in E as (-> & -> & ? & ?); auto; split_and!; auto.
  - intros n s s' [Hr Hi] Hn.
    destruct (read_buffered n _) as [q1 [r1 t1]] eqn:E. intros [= -> <-].
    by apply read_buffered_eof in E.
  - intros n s [Hr Hi] Hrdy Hn Hne.
    destruct (read_buffered_progress n _ _ Hr Hi Hrdy Hn Hne) as (b & bs & [r1 t1] & ->). eauto.
Defined.
End buf_stream_laws.

#[export, refine] Instance AsyncBufStream_EofLaws {T} `{AsyncReadEofLaws T} :
    AsyncReadEofLaws (AsyncBufStream T) := { r_closed s := r_closed (bs_inner s) }.
Proof.
  all: unfold async_read, AsyncBufStream_AsyncRead, AsyncBufStream_read, read_buffered; simpl.
  - intros n [rd w t] [(Hp & Hc & Hb) Hi] Hcl Hin Hn; simpl in *.
    apply app_eq_nil in Hin as [Hrest Hin].
    destruct (Nat.ltb_spec (rb_pos rd) (rb_cap rd)).
    { apply (f_equal length) in Hrest. unfold rb_rest in Hrest.
      rewrite length_take, length_drop in Hrest. simpl in Hrest. lia. }
    destruct (_ <=? _)%nat.
    + destruct (read_closed n t) as [t' ->]; eauto.
    + destruct (read_closed (length (rb_buf rd)) t) as [t' ->]; eauto. simpl.
      rewrite Nat.min_0_r. simpl. eauto.
  - intros n [rd w t] q s' [_ Hi] Hcl; simpl in *.
    destruct (_ <? _)%nat; [by intros [= _ <-]|]. destruct (_ <=? _)%nat.
    + destruct (async_read n t) as [q1 t1] eqn:E. intros [= _ <-]. exact (closed_read _ _ _ _ Hi Hcl E).
    + destruct (async_read _ t) as [[[ds|e]|] t1] eqn:E; intros [= _ <-]; exact (closed_read _ _ _ _ Hi Hcl E).
Defined.

Section buf_stream_write_laws.
Context {T : Type} `{AsyncWriteLaws T} (fuel : nat).
Existing Instance AsyncBufStream_AsyncWrite.

(** The buffered stream has accepted what was sent and what is pending; the
    fuel covers a full buffer. *)
#[refine] Definition AsyncBufStream_WriteLaws :
    @AsyncWriteLaws (AsyncBufStream T) (AsyncBufStream_AsyncWrite fuel) := {|
  outgoing s := outgoing (bs_inner s) ++ wb_pend (bs_write s);
  w_inv s := wb_inv (bs_write s) /\ w_inv (bs_inner s)
             /\ length (wb_buf (bs_write s)) <= fuel;
  w_ready s := w_ready (bs_inner s);
|}.
Proof.
  all: unfold async_write, AsyncBufStream_AsyncWrite, AsyncBufStream_write.
  - intros buf s n s' (Hw & Hi & Hf).
    destruct (write_buffered fuel buf _) as [q [w1 t1]] eqn:E. intros [= -> <-]. simpl.
    apply write_buffered_ok in E as (? & ? & ? & -> & ? & ?); auto; split_and!; auto.
  - intros buf s s' (Hw & Hi & Hf).
    destruct (write_buffered fuel buf _) as [q [w1 t1]] eqn:E. intros [= -> <-]. simpl.
    apply write_buffered_interrupted in E as (? & ? & -> & ? & ?); auto; split_and!; auto.
  - intros buf s (Hw & Hi & Hf) Hr Hne.
    destruct (write_buffered_progress fuel buf _ _ Hw Hi Hr Hf Hne) as (n & [w1 t1] & ->). eauto.
Defined.

Lemma AsyncBufStream_flush_ok s s' :
  wb_inv (bs_write s) -> w_inv (bs_inner s) ->
  AsyncBufStream_flush fuel s = (Ready (Ok ()), s') ->
  outgoing (bs_inner s') = outgoing (bs_inner s) ++ wb_pend (bs_write s)
  /\ wb_pend (bs_write s') = [] /\ wb_inv (bs_write s') /\ w_inv (bs_inner s')
  /\ length (wb_buf (bs_write s')) = length (wb_buf (bs_write s))
  /\ bs_read s' = bs_read s.
Proof.
  intros Hw Hi. unfold AsyncBufStream_flush.
  destruct (buf_flush fuel _) as [q [w1 t1]] eqn:E. intros [= -> <-]. simpl.
  apply buf_flush_ok in E as (? & ? & ? & ? & ? & ?); auto.
  split_and!; auto. by apply wb_pend_0.
Qed.

Lemma AsyncBufStream_flush_enough s :
  wb_inv (bs_write s) -> w_inv (bs_inner s) -> w_ready (bs_inner s) ->
  length (wb_buf (bs_write s)) <= fuel ->
  exists s', AsyncBufStream_flush fuel s = (Ready (Ok ()), s').
Proof.
  intros Hw Hi Hr Hf. unfold AsyncBufStream_flush.
  destruct (buf_flush_enough fuel _ _ Hw Hi Hr Hf) as [[w1 t1] ->]. eauto.
Qed.
End buf_stream_write_laws.
