(* ===== verification/Os.v ===== *)
(** * Files, sockets and descriptors

    The operating system as the listeners and the runtimes see it through
    [std::fs], [std::net] and [std::os::unix::net]: a table of paths (hard
    links share an inode), a table of open descriptors with their flags, and
    the connections that wait to be accepted.  Any call may fail: the state
    carries a script of faults, one entry per call.

    Then the runtime interface of core/src/runtime.rs, with what the framework
    relies on as laws, and its two adapters, runtime/tokio/src/lib.rs and
    runtime/smol/src/lib.rs. *)

From S2P Require Import Prelude RustStd Text Addr BufIO.

(** ** State *)

(** What a descriptor is for.  A stream that nothing bound has no local path. *)
Inductive socket :=
| TcpListening (addr : SocketAddr)
| UnixListening (path : bytes) (inode : nat)
| TcpStreaming (local peer : SocketAddr)
| UnixStreaming (local : option bytes).

#[export] Instance socket_eq_dec : EqDecision socket.
Proof. solve_decision. Defined.

Inductive interest := Readable | ReadWrite.

#[export] Instance interest_eq_dec : EqDecision interest.
Proof. solve_decision. Defined.

Record descriptor := mkDescr {
  d_socket : socket;
  d_nonblocking : bool;
  d_cloexec : bool;
  d_registered : option interest;   (* known to the reactor of the runtime *)
  d_shut : bool;                    (* its write direction is shut down *)
}.

Record os := mkOs {
  os_files : gmap bytes nat;        (* path to inode *)
  os_modes : gmap nat Z;            (* permissions of an inode *)
  os_next_inode : nat;
  os_fds : gmap Z descriptor;
  os_next_fd : Z;
  os_next_port : Z;                 (* for a bind to port 0 *)
  os_backlog : gmap Z (list socket);  (* connections a listener can accept *)
  os_mute : bool;                   (* nobody answers a connect *)
  os_faults : list (option io_error);
}.

Definition put_files (files : gmap bytes nat) (modes : gmap nat Z) (next : nat) (o : os) : os :=
  mkOs files modes next (os_fds o) (os_next_fd o) (os_next_port o) (os_backlog o) (os_mute o) (os_faults o).
Definition put_fds (fds : gmap Z descriptor) (o : os) : os :=
  mkOs (os_files o) (os_modes o) (os_next_inode o) fds (os_next_fd o) (os_next_port o) (os_backlog o)
    (os_mute o) (os_faults o).
Definition put_next_fd (n : Z) (o : os) : os :=
  mkOs (os_files o) (os_modes o) (os_next_inode o) (os_fds o) n (os_next_port o) (os_backlog o)
    (os_mute o) (os_faults o).
Definition put_next_port (n : Z) (o : os) : os :=
  mkOs (os_files o) (os_modes o) (os_next_inode o) (os_fds o) (os_next_fd o) n (os_backlog o)
    (os_mute o) (os_faults o).
Definition put_backlog (b : gmap Z (list socket)) (o : os) : os :=
  mkOs (os_files o) (os_modes o) (os_next_inode o) (os_fds o) (os_next_fd o) (os_next_port o) b
    (os_mute o) (os_faults o).
Definition put_faults (l : list (option io_error)) (o : os) : os :=
  mkOs (os_files o) (os_modes o) (os_next_inode o) (os_fds o) (os_next_fd o) (os_next_port o)
    (os_backlog o) (os_mute o) l.

Definition os_empty : os := mkOs ∅ ∅ 0 ∅ 3 49152 ∅ false [].

(** ** Calls *)

Abbreviation osM A := (runM os io_error A).

(** A call that the next entry of the script may make fail. *)
Definition call {A} (f : os -> io_result A * os) : osM A := fun o =>
  match os_faults o with
  | Some e :: faults => (Done (Err e), put_faults faults o)
  | _ => let '(r, o) := f (put_faults (tail (os_faults o)) o) in (Done r, o)
  end.

(** [Path::exists], [fs::remove_file], [fs::hard_link], [fs::set_permissions] *)
Definition fs_exists (path : bytes) (o : os) : bool := bool_decide (is_Some (os_files o !! path)).

Definition fs_remove_file (path : bytes) : osM unit := call (fun o =>
  match os_files o !! path with
  | Some _ => (Ok (), put_files (delete path (os_files o)) (os_modes o) (os_next_inode o) o)
  | None => (Err OtherIO, o)
  end).

Definition fs_hard_link (original link : bytes) : osM unit := call (fun o =>
  match os_files o !! original, os_files o !! link with
  | Some inode, None =>
      (Ok (), put_files (<[link := inode]> (os_files o)) (os_modes o) (os_next_inode o) o)
  | _, _ => (Err OtherIO, o)
  end).

Definition fs_set_permissions (path : bytes) (mode : Z) : osM unit := call (fun o =>
  match os_files o !! path with
  | Some inode => (Ok (), put_files (os_files o) (<[inode := mode]> (os_modes o)) (os_next_inode o) o)
  | None => (Err OtherIO, o)
  end).

(** A new descriptor. *)
Definition alloc_fd (d : descriptor) (o : os) : Z * os :=
  (os_next_fd o, put_next_fd (os_next_fd o + 1) (put_fds (<[os_next_fd o := d]> (os_fds o)) o)).

(** A socket of the standard library: blocking, closed on [exec]. *)
Definition std_descr (s : socket) : descriptor := mkDescr s false true None false.

(** [UnixListener::bind]: the path must be free. *)
Definition unix_bind (path : bytes) : osM Z := call (fun o =>
  match os_files o !! path with
  | Some _ => (Err OtherIO, o)
  | None =>
      let inode := os_next_inode o in
      let o := put_files (<[path := inode]> (os_files o)) (<[inode := 493%Z]> (os_modes o)) (S inode) o in
      let '(fd, o) := alloc_fd (std_descr (UnixListening path inode)) o in
      (Ok fd, o)
  end).

Definition with_port (a : SocketAddr) (port : Z) : SocketAddr :=
  match a with SockV4 ip _ => SockV4 ip port | SockV6 ip _ f s => SockV6 ip port f s end.

Definition sock_port (a : SocketAddr) : Z :=
  match a with SockV4 _ p => p | SockV6 _ p _ _ => p end.

(** The descriptor of a socket that listens as asked, and the socket. *)
Definition find_listener (listening : socket -> bool) (o : os) : option (Z * socket) :=
  (fun p => (p.1, d_socket p.2))
    <$> head (filter (fun p => listening (d_socket p.2) = true) (map_to_list (os_fds o))).

Definition listens_tcp (addr : SocketAddr) (s : socket) : bool := bool_decide (s = TcpListening addr).

Definition listens_unix (inode : nat) (s : socket) : bool :=
  match s with UnixListening _ i => (i =? inode)%nat | _ => false end.

(** [TcpListener::bind]: port 0 stands for a free one. *)
Definition tcp_bind (addr : SocketAddr) : osM Z := call (fun o =>
  let '(addr, o) :=
    if (sock_port addr =? 0)%Z
    then (with_port addr (os_next_port o), put_next_port (os_next_port o + 1) o)
    else (addr, o) in
  match find_listener (listens_tcp addr) o with
  | Some _ => (Err OtherIO, o)
  | None => let '(fd, o) := alloc_fd (std_descr (TcpListening addr)) o in (Ok fd, o)
  end).

(** Change the descriptor, which has to be open. *)
Definition with_descr (fd : Z) (f : descriptor -> descriptor) : osM unit := call (fun o =>
  match os_fds o !! fd with
  | Some d => (Ok (), put_fds (<[fd := f d]> (os_fds o)) o)
  | None => (Err OtherIO, o)
  end).

Definition set_nonblocking (fd : Z) : osM unit :=
  with_descr fd (fun d => mkDescr (d_socket d) true (d_cloexec d) (d_registered d) (d_shut d)).

(** Tell the reactor about the descriptor. *)
Definition register (fd : Z) (i : interest) : osM unit :=
  with_descr fd (fun d => mkDescr (d_socket d) (d_nonblocking d) (d_cloexec d) (Some i) (d_shut d)).

Definition shutdown (fd : Z) : osM unit :=
  with_descr fd (fun d => mkDescr (d_socket d) (d_nonblocking d) (d_cloexec d) (d_registered d) true).

(** [libc::fcntl(fd, F_SETFD, 0)], its result ignored. *)
Definition clear_cloexec (fd : Z) (o : os) : os :=
  match os_fds o !! fd with
  | Some d => put_fds (<[fd := mkDescr (d_socket d) (d_nonblocking d) false (d_registered d) (d_shut d)]>
                         (os_fds o)) o
  | None => o
  end.

(** Dropping the owner of a descriptor closes it. *)
Definition close_fd (fd : Z) (o : os) : os := put_fds (delete fd (os_fds o)) o.

(** A descriptor owned by [m]: it is closed when [m] does not return it. *)
Definition owning {A} (fd : Z) (m : osM A) : osM A := fun o =>
  match m o with
  | (Done (Ok a), o) => (Done (Ok a), o)
  | (r, o) => (r, close_fd fd o)
  end.

(** [accept]: waits for a connection; the stream it returns is blocking. *)
Definition os_accept (fd : Z) : osM Z := fun o =>
  match os_backlog o !! fd with
  | Some (conn :: rest) =>
      call (fun o =>
        let o := put_backlog (<[fd := rest]> (os_backlog o)) o in
        let '(fd, o) := alloc_fd (std_descr conn) o in (Ok fd, o)) o
  | _ => (Waiting, o)
  end.

(** Connecting, as the libraries of the runtimes do it: the stream they return
    is non-blocking and no longer known to the reactor. *)
Definition connected_descr (s : socket) : descriptor := mkDescr s true true None false.

Definition dial (listening : socket -> bool) (accepted : socket -> socket) (mine : socket)
    : ioM os Z := fun o =>
  if os_mute o then (Pending, o)
  else
    match call (fun o =>
      match find_listener listening o with
      | Some (l, s) =>
          let '(fd, o) := alloc_fd (connected_descr mine) o in
          (Ok fd, put_backlog (<[l := default [] (os_backlog o !! l) ++ [accepted s]]> (os_backlog o)) o)
      | None => (Err OtherIO, o)
      end) o with
    | (Done r, o) => (Ready r, o)
    | (_, o) => (Pending, o)
    end.

(** The address of the connecting side. *)
Definition ephemeral (addr : SocketAddr) (o : os) : SocketAddr := with_port addr (os_next_port o).

Definition dial_tcp (addr : SocketAddr) : ioM os Z := fun o =>
  dial (listens_tcp addr) (fun _ => TcpStreaming addr (ephemeral addr o))
    (TcpStreaming (ephemeral addr o) addr) o.

(** A path names an inode, and the inode the listener bound to it. *)
Definition bound_path (s : socket) : option bytes :=
  match s with UnixListening p _ => Some p | _ => None end.

Definition dial_unix (path : bytes) : ioM os Z := fun o =>
  match os_files o !! path with
  | Some inode =>
      dial (listens_unix inode) (fun s => UnixStreaming (bound_path s)) (UnixStreaming None) o
  | None => (Ready (Err OtherIO), o)
  end.

(** ** [AsyncIO] *)

Class AsyncIO := {
  to_async_fd_rd : Z -> osM unit;
  to_async_fd_rw : Z -> osM unit;
  connect_tcp : SocketAddr -> Z -> osM Z;
  connect_unix : bytes -> Z -> osM Z;
}.

(** [io_with_timeout!(Self, timeout, connect)?], then
    [Self::to_async_fd_rw(stream.into_inner()?)]. *)
Definition connect_with (to_rw : Z -> osM unit) (timeout : Z) (dial : ioM os Z) : osM Z :=
  let* fd := run_io id (fun o _ => o) id (io_with_timeout timeout dial) in
  owning fd (let* _ := to_rw fd in run_ret fd).

(** *** tokio: [AsyncFd::with_interest] *)

Definition TokioRT_to_async_fd_rd (fd : Z) : osM unit := register fd Readable.
Definition TokioRT_to_async_fd_rw (fd : Z) : osM unit := register fd ReadWrite.

Definition TokioRT_connect_tcp (addr : SocketAddr) (timeout : Z) : osM Z :=
  connect_with TokioRT_to_async_fd_rw timeout (dial_tcp addr).
Definition TokioRT_connect_unix (path : bytes) (timeout : Z) : osM Z :=
  connect_with TokioRT_to_async_fd_rw timeout (dial_unix path).

Definition TokioRT : AsyncIO := {|
  to_async_fd_rd := TokioRT_to_async_fd_rd;
  to_async_fd_rw := TokioRT_to_async_fd_rw;
  connect_tcp := TokioRT_connect_tcp;
  connect_unix := TokioRT_connect_unix;
|}.

(** *** smol: [Async::new], which also makes the descriptor non-blocking *)

Definition Async_new (fd : Z) : osM unit :=
  let* _ := set_nonblocking fd in register fd ReadWrite.

Definition SmolRT_to_async_fd_rd (fd : Z) : osM unit := Async_new fd.
Definition SmolRT_to_async_fd_rw (fd : Z) : osM unit := Async_new fd.

Definition SmolRT_connect_tcp (addr : SocketAddr) (timeout : Z) : osM Z :=
  connect_with SmolRT_to_async_fd_rw timeout (dial_tcp addr).
Definition SmolRT_connect_unix (path : bytes) (timeout : Z) : osM Z :=
  connect_with SmolRT_to_async_fd_rw timeout (dial_unix path).

Definition SmolRT : AsyncIO := {|
  to_async_fd_rd := SmolRT_to_async_fd_rd;
  to_async_fd_rw := SmolRT_to_async_fd_rw;
  connect_tcp := SmolRT_connect_tcp;
  connect_unix := SmolRT_connect_unix;
|}.

(** ** Descriptors are accounted for

    [holds held regs o]: exactly the descriptors [held] and [regs] are open;
    the reactor knows those of [regs], and non-blocking ones only. *)

Definition fd_ok (d : descriptor) : Prop := d_registered d <> None -> d_nonblocking d = true.

(** The descriptor is open and non-blocking; it is known to the reactor. *)
Definition nonblocking (fd : Z) (o : os) : Prop :=
  exists d, os_fds o !! fd = Some d /\ d_nonblocking d = true.
Definition registered (fd : Z) (o : os) : Prop :=
  exists d i, os_fds o !! fd = Some d /\ d_registered d = Some i.

Record holds (held regs : list Z) (o : os) : Prop := {
  held_fds : held ++ regs ≡ₚ (map_to_list (os_fds o)).*1;
  held_regs : Forall (fun fd => registered fd o) regs;
  held_next : map_Forall (fun fd _ => (fd < os_next_fd o)%Z) (os_fds o);
  held_ok : map_Forall (fun _ d => fd_ok d) (os_fds o);
}.

(** [triple P m Q E]: from [P], [m] ends in [Q] with its value, or, when it
    fails, waits or panics, in [E]. *)
Definition triple {A} (P : os -> Prop) (m : osM A) (Q : A -> os -> Prop) (E : os -> Prop) : Prop :=
  forall o, P o -> match m o with (Done (Ok a), o') => Q a o' | (_, o') => E o' end.

Lemma triple_ret {A} (a : A) P (Q : A -> os -> Prop) E :
  (forall o, P o -> Q a o) -> triple P (run_ret a) Q E.
Proof. intros HQ o Ho. by apply HQ. Qed.

Lemma triple_bind {A B} P (m : osM A) R (k : A -> osM B) Q E :
  triple P m R E -> (forall a, triple (R a) (k a) Q E) -> triple P (run_bind m k) Q E.
Proof.
  intros Hm Hk o Ho. specialize (Hm o Ho). unfold run_bind.
  destruct (m o) as [[[a|e]| |] o']; try done. by apply Hk.
Qed.

Lemma triple_weaken {A} P P' (m : osM A) Q Q' E E' :
  triple P m Q E -> (forall o, P' o -> P o) -> (forall a o, Q a o -> Q' a o) ->
  (forall o, E o -> E' o) -> triple P' m Q' E'.
Proof.
  intros Hm HP HQ HE o Ho. specialize (Hm o (HP o Ho)).
  destruct (m o) as [[[a|e]| |] o']; by auto.
Qed.

Lemma triple_panic {A} P (Q : A -> os -> Prop) E : (forall o, P o -> E o) -> triple P run_panic Q E.
Proof. intros HE o Ho. by apply HE. Qed.

Lemma triple_err {A} e P (Q : A -> os -> Prop) E : (forall o, P o -> E o) -> triple P (run_err e) Q E.
Proof. intros HE o Ho. by apply HE. Qed.

Lemma holds_faults held regs l o : holds held regs (put_faults l o) <-> holds held regs o.
Proof. split; intros [H1 H2 H3 H4]; by split. Qed.

Lemma holds_lookup held regs o fd :
  holds held regs o -> fd ∈ held ++ regs <-> is_Some (os_fds o !! fd).
Proof.
  intros Hh. rewrite (held_fds _ _ _ Hh), list_elem_of_fmap. split.
  - intros ([k d] & -> & Hin). apply elem_of_map_to_list in Hin. by eauto.
  - intros [d Hd]. exists (fd, d). split; [done|]. by apply elem_of_map_to_list.
Qed.

Lemma holds_nodup held regs o : holds held regs o -> NoDup (held ++ regs).
Proof. intros Hh. rewrite (held_fds _ _ _ Hh). apply NoDup_fst_map_to_list. Qed.

(** A new descriptor joins the held ones, a closed one leaves them. *)
Lemma holds_alloc held regs d o :
  holds held regs o -> fd_ok d -> holds ((alloc_fd d o).1 :: held) regs (alloc_fd d o).2.
Proof.
  intros [H1 Hr H2 H3] Hd. unfold alloc_fd; simpl.
  assert (os_fds o !! os_next_fd o = None) as Hfresh.
  { destruct (os_fds o !! os_next_fd o) eqn:E; [|done]. apply H2 in E. lia. }
  split; simpl.
  - rewrite map_to_list_insert by done. simpl. by rewrite H1.
  - eapply list.Forall_impl; [exact Hr|]. intros fd (d' & i & Hl & Hi). exists d', i. split; [|done]. simpl.
    rewrite lookup_insert_ne; [done|]. by intros <-; simplify_eq.
  - apply map_Forall_insert; [done|]. split; [lia|]. eapply map_Forall_impl; [exact H2|]. simpl. lia.
  - by apply map_Forall_insert.
Qed.

Lemma holds_close held regs fd o : holds (fd :: held) regs o -> holds held regs (close_fd fd o).
Proof.
  intros Hh. assert (is_Some (os_fds o !! fd)) as [d Hd] by (eapply holds_lookup; [done|set_solver]).
  pose proof (holds_nodup _ _ _ Hh) as Hnd. destruct Hh as [H1 Hr H2 H3]. unfold close_fd. split; simpl.
  - rewrite <- (map_to_list_delete (os_fds o) fd d Hd) in H1. simpl in H1.
    by apply Permutation_cons_inv in H1.
  - apply list.NoDup_cons in Hnd as [Hnd _]. rewrite list.Forall_forall in Hr. apply list.Forall_forall.
    intros fd' Hin. destruct (Hr fd' Hin) as (d' & i & Hl & Hi). exists d', i. split; [|done]. simpl.
    rewrite lookup_delete_ne; [done|]. set_solver.
  - by apply map_Forall_delete.
  - by apply map_Forall_delete.
Qed.

Lemma holds_update held regs fd d d' o :
  holds held regs o -> os_fds o !! fd = Some d -> fd_ok d' ->
  (d_registered d <> None -> d_registered d' <> None) ->
  holds held regs (put_fds (<[fd := d']> (os_fds o)) o).
Proof.
  intros [H1 Hr H2 H3] Hd Hok Hreg. split; simpl.
  - rewrite H1, <- (insert_delete_eq (os_fds o) fd d') , map_to_list_insert by apply lookup_delete_eq.
    rewrite <- (map_to_list_delete (os_fds o) fd d Hd). done.
  - eapply list.Forall_impl; [exact Hr|]. intros fd' (e & i & Hl & Hi). unfold registered; simpl.
    destruct (decide (fd' = fd)) as [->|]; [|rewrite lookup_insert_ne by done; by eauto].
    rewrite lookup_insert_eq. assert (d = e) as -> by (rewrite Hd in Hl; by injection Hl).
    destruct (d_registered d') eqn:E; [by eauto|]. by destruct Hreg; [rewrite Hi|].
  - apply map_Forall_insert_2; [by eapply H2|done].
  - by apply map_Forall_insert_2.
Qed.

Lemma holds_fds held regs o o' :
  holds held regs o -> os_fds o' = os_fds o -> os_next_fd o' = os_next_fd o -> holds held regs o'.
Proof.
  intros [H1 H4 H2 H3] E1 E2. split; rewrite ?E1, ?E2; [done| |done|done].
  eapply list.Forall_impl; [exact H4|]. unfold registered. by rewrite E1.
Qed.

(** A registered descriptor can be kept. *)
Lemma holds_keep held regs fd o :
  holds (fd :: held) regs o -> registered fd o -> holds held (fd :: regs) o.
Proof.
  intros [H1 Hr H2 H3] Hfd. split; [|by constructor|done|done]. by rewrite <- Permutation_middle.
Qed.

Lemma holds_perm held regs regs' o : regs ≡ₚ regs' -> holds held regs o -> holds held regs' o.
Proof. intros Hp [H1 H2 H3 H4]. split; by rewrite <- ?Hp. Qed.

(** A registered descriptor that is closed. *)
Lemma holds_close_reg held regs rest fd o :
  regs ≡ₚ fd :: rest -> holds held regs o -> holds held rest (close_fd fd o).
Proof.
  intros Hp Hh. apply (holds_perm _ _ _ _ Hp) in Hh as [H1 H2 H3 H4]. apply holds_close.
  apply list.Forall_cons in H2 as [_ H2]. split; [|done|done|done]. by rewrite <- H1, <- Permutation_middle.
Qed.

Lemma triple_call {A} held regs P (f : os -> io_result A * os) Q :
  (forall l o, P o -> P (put_faults l o)) -> (forall o, P o -> holds held regs o) ->
  (forall o, P o -> match f o with (Ok a, o') => Q a o' | (Err _, o') => holds held regs o' end) ->
  triple P (call f) Q (holds held regs).
Proof.
  intros HP Hh Hf o Ho. unfold call.
  destruct (os_faults o) as [|[e|] l]; simpl; [|by apply Hh, HP|].
  - specialize (Hf _ (HP [] o Ho)). by destruct (f _) as [[a|e] o'].
  - specialize (Hf _ (HP l o Ho)). by destruct (f _) as [[a|e] o'].
Qed.

(** A descriptor that is owned is closed when the computation fails. *)
Lemma triple_owning {A} held regs fd P (m : osM A) Q :
  triple P m Q (holds (fd :: held) regs) -> triple P (owning fd m) Q (holds held regs).
Proof.
  intros Hm o Ho. specialize (Hm o Ho). unfold owning.
  by destruct (m o) as [[[a|e]| |] o']; [|apply holds_close..].
Qed.

Lemma files_spec held regs (m : osM unit) :
  (exists f, m = call f /\ forall o, os_fds (f o).2 = os_fds o /\ os_next_fd (f o).2 = os_next_fd o) ->
  triple (holds held regs) m (fun _ => holds held regs) (holds held regs).
Proof.
  intros (f & -> & Hf). eapply triple_call; [intros; by apply holds_faults|done|].
  intros o Ho. specialize (Hf o) as [E1 E2].
  destruct (f o) as [[a|e] o']; simpl in *; by eapply holds_fds.
Qed.

Lemma fs_remove_file_spec held regs path :
  triple (holds held regs) (fs_remove_file path) (fun _ => holds held regs) (holds held regs).
Proof. apply files_spec. eexists. split; [done|]. intros o. cbv beta. by case_match. Qed.

Lemma fs_hard_link_spec held regs original link :
  triple (holds held regs) (fs_hard_link original link) (fun _ => holds held regs) (holds held regs).
Proof. apply files_spec. eexists. split; [done|]. intros o. cbv beta. by repeat case_match. Qed.

Lemma fs_set_permissions_spec held regs path mode :
  triple (holds held regs) (fs_set_permissions path mode) (fun _ => holds held regs) (holds held regs).
Proof. apply files_spec. eexists. split; [done|]. intros o. cbv beta. by case_match. Qed.

Lemma std_descr_ok s : fd_ok (std_descr s).
Proof. by intros []. Qed.

Lemma unix_bind_spec held regs path :
  triple (holds held regs) (unix_bind path) (fun fd => holds (fd :: held) regs) (holds held regs).
Proof.
  eapply triple_call; [intros; by apply holds_faults|done|]. intros o Ho.
  destruct (os_files o !! path); [done|].
  refine (holds_alloc held regs (std_descr (UnixListening path _)) (put_files _ _ _ o) _ (std_descr_ok _)).
  by eapply holds_fds.
Qed.

Lemma tcp_bind_spec held regs addr :
  triple (holds held regs) (tcp_bind addr) (fun fd => holds (fd :: held) regs) (holds held regs).
Proof.
  eapply triple_call; [intros; by apply holds_faults|done|]. intros o Ho.
  set (p := if (sock_port addr =? 0)%Z then _ else _).
  assert (holds held regs p.2) as Hp by (unfold p; case_match; [by eapply holds_fds|done]).
  destruct p as [a o1]. simpl in Hp. destruct (find_listener _ o1); [done|].
  exact (holds_alloc held regs (std_descr (TcpListening a)) o1 Hp (std_descr_ok _)).
Qed.

Lemma set_nonblocking_spec held regs fd :
  triple (holds held regs) (set_nonblocking fd) (fun _ o => holds held regs o /\ nonblocking fd o) (holds held regs).
Proof.
  eapply triple_call; [intros; by apply holds_faults|done|]. intros o Ho.
  destruct (os_fds o !! fd) as [d|] eqn:Hd; [|done]. split.
  - by eapply holds_update.
  - unfold nonblocking; simpl. rewrite lookup_insert_eq. by eauto.
Qed.

Lemma register_spec held regs fd i :
  triple (fun o => holds held regs o /\ nonblocking fd o) (register fd i)
    (fun _ o => holds held regs o /\ registered fd o) (holds held regs).
Proof.
  eapply triple_call; [intros l o [? ?]; by split; [apply holds_faults|]|by intros o []|].
  intros o [Ho (d & Hd & Hn)]. rewrite Hd. split.
  - by eapply holds_update; [..|intros _|].
  - unfold registered; simpl. rewrite lookup_insert_eq. by eauto.
Qed.

Lemma shutdown_spec held regs fd :
  triple (holds held regs) (shutdown fd) (fun _ => holds held regs) (holds held regs).
Proof.
  eapply triple_call; [intros; by apply holds_faults|done|]. intros o Ho.
  destruct (os_fds o !! fd) as [d|] eqn:Hd; [|done]. eapply holds_update; [done|done| |done].
  intros Hr. exact (held_ok _ _ _ Ho fd d Hd Hr).
Qed.

Lemma os_accept_spec held regs fd :
  triple (holds held regs) (os_accept fd) (fun s => holds (s :: held) regs) (holds held regs).
Proof.
  intros o Ho. unfold os_accept. destruct (os_backlog o !! fd) as [[|conn rest]|]; [done| |done].
  refine (triple_call held regs (holds held regs) _ (fun s => holds (s :: held) regs) _ _ _ o Ho);
    [intros; by apply holds_faults|done|]. clear o Ho. intros o Ho.
  refine (holds_alloc held regs (std_descr conn) (put_backlog _ o) _ (std_descr_ok _)). by eapply holds_fds.
Qed.

Lemma dial_spec held regs l a m o :
  holds held regs o ->
  match dial l a m o with
  | (Ready (Ok fd), o') => holds (fd :: held) regs o' /\ nonblocking fd o'
  | (_, o') => holds held regs o'
  end.
Proof.
  intros Ho. unfold dial. destruct (os_mute o); [done|].
  match goal with |- context [call ?f o] => set (g := f) end.
  assert (triple (holds held regs) (call g) (fun fd o => holds (fd :: held) regs o /\ nonblocking fd o) (holds held regs))
    as Ht.
  { eapply triple_call; [intros; by apply holds_faults|done|]. clear o Ho. intros o Ho. unfold g.
    destruct (find_listener l o) as [[fd s]|]; [|done]. split.
    - eapply holds_fds; [apply (holds_alloc held regs (connected_descr m) o Ho)|done|done]. by intros [].
    - unfold nonblocking; simpl. rewrite lookup_insert_eq. by eauto. }
  specialize (Ht o Ho). by destruct (call g o) as [[[fd|e]| |] o'].
Qed.

Lemma with_timeout_spec held regs timeout (f : ioM os Z) :
  (forall o, holds held regs o ->
     match f o with
     | (Ready (Ok fd), o') => holds (fd :: held) regs o' /\ nonblocking fd o'
     | (_, o') => holds held regs o'
     end) ->
  triple (holds held regs) (run_io id (fun o _ => o) id (io_with_timeout timeout f))
    (fun fd o => holds (fd :: held) regs o /\ nonblocking fd o) (holds held regs).
Proof.
  intros Hf o Ho. specialize (Hf o Ho). unfold run_io, io_with_timeout, cancellable. simpl.
  destruct (timeout =? 0)%Z; destruct (f o) as [[[fd|e]|] o']; done.
Qed.

(** ** Descriptors that stay

    [evolves m m']: what is open in [m] is still open in [m'], for the same
    socket, and survives an exec if it did. *)

Definition evolves (m m' : gmap Z descriptor) : Prop :=
  forall fd d, m !! fd = Some d -> exists d', m' !! fd = Some d' /\ d_socket d' = d_socket d
    /\ (d_cloexec d = false -> d_cloexec d' = false).

#[export] Instance evolves_preorder : PreOrder evolves.
Proof.
  split; [intros m fd d Hd; by eauto|]. intros m1 m2 m3 H1 H2 fd d Hd.
  destruct (H1 _ _ Hd) as (d2 & Hd2 & Hs2 & Hc2). destruct (H2 _ _ Hd2) as (d3 & Hd3 & Hs3 & Hc3).
  exists d3. split; [done|]. split; [congruence|auto].
Qed.

Lemma evolves_insert (m : gmap Z descriptor) fd d d' :
  m !! fd = Some d -> d_socket d' = d_socket d -> (d_cloexec d = false -> d_cloexec d' = false) ->
  evolves m (<[fd := d']> m).
Proof.
  intros Hd Hs Hc fd' e He. destruct (decide (fd' = fd)) as [->|].
  - rewrite lookup_insert_eq. by simplify_eq; eauto.
  - rewrite lookup_insert_ne by done. by eauto.
Qed.

Lemma evolves_weaken (m m' : gmap Z descriptor) fd d :
  m !! fd = None -> evolves (<[fd := d]> m) m' -> evolves m (delete fd m').
Proof.
  intros Hfd Hm fd' e He. assert (fd' <> fd) as Hne by (intros ->; simplify_eq).
  destruct (Hm fd' e) as (e' & He' & ?); [by rewrite lookup_insert_ne|].
  exists e'. split; [|done]. by rewrite lookup_delete_ne.
Qed.

(** [frames m o]: the descriptors of [m] are still there, and a new one will
    not be among them. *)
Record frames (m : gmap Z descriptor) (o : os) : Prop := {
  frames_evolve : evolves m (os_fds o);
  frames_next : map_Forall (fun fd _ => (0 <= fd < os_next_fd o)%Z) m;
  frames_pos : (0 <= os_next_fd o)%Z;
}.

Lemma frames_fds m o o' :
  frames m o -> evolves (os_fds o) (os_fds o') -> (os_next_fd o <= os_next_fd o')%Z -> frames m o'.
Proof.
  intros [H1 H2 H3] He Hn. split; [by transitivity (os_fds o)| |lia].
  eapply map_Forall_impl; [exact H2|]. simpl. lia.
Qed.

Lemma frames_close m fd d o :
  m !! fd = None -> frames (<[fd := d]> m) o -> frames m (close_fd fd o).
Proof.
  intros Hfd [H1 H2 H3]. split; [by eapply evolves_weaken| |done].
  by apply map_Forall_insert_1_2 in H2.
Qed.

Lemma frames_drop m fd d o : m !! fd = None -> frames (<[fd := d]> m) o -> frames m o.
Proof.
  intros Hfd [H1 H2 H3]. split; [|by apply map_Forall_insert_1_2 in H2|done].
  transitivity (<[fd := d]> m); [|done]. intros fd' e He. exists e.
  by rewrite lookup_insert_ne by (intros ->; simplify_eq).
Qed.

Lemma frames_alloc m d o :
  frames m o -> m !! (alloc_fd d o).1 = None /\ frames (<[(alloc_fd d o).1 := d]> m) (alloc_fd d o).2.
Proof.
  intros [H1 H2 H3]. simpl.
  assert (m !! os_next_fd o = None) as Hf by (destruct (m !! _) eqn:E; [apply H2 in E; lia|done]).
  split; [done|]. split; simpl.
  - intros fd e He. destruct (decide (fd = os_next_fd o)) as [->|].
    + rewrite lookup_insert_eq in *. by simplify_eq; eauto.
    + rewrite lookup_insert_ne in * by done. by apply H1.
  - apply map_Forall_insert_2; [lia|]. eapply map_Forall_impl; [exact H2|]. simpl. lia.
  - lia.
Qed.

(** A computation that opens and closes nothing. *)
Definition evolving {A} (m : osM A) : Prop :=
  forall o, evolves (os_fds o) (os_fds (m o).2) /\ (os_next_fd o <= os_next_fd (m o).2)%Z.

Lemma evolving_frames {A} m (c : osM A) : evolving c -> triple (frames m) c (fun _ => frames m) (frames m).
Proof.
  intros Hc o Ho. destruct (Hc o) as [He Hn].
  destruct (c o) as [[[a|e]| |] o']; by eapply frames_fds.
Qed.

Lemma evolving_bind {A B} (c : osM A) (k : A -> osM B) :
  evolving c -> (forall a, evolving (k a)) -> evolving (run_bind c k).
Proof.
  intros Hc Hk o. destruct (Hc o) as [He Hn]. unfold run_bind.
  destruct (c o) as [[[a|e]| |] o']; try done. destruct (Hk a o') as [He' Hn'].
  split; [by etransitivity|simpl in *; lia].
Qed.

Lemma evolving_ret {A} (a : A) : evolving (run_ret a).
Proof. intros o. split; [done|]. simpl. lia. Qed.

Lemma evolving_call {A} (f : os -> io_result A * os) :
  (forall o, evolves (os_fds o) (os_fds (f o).2) /\ (os_next_fd o <= os_next_fd (f o).2)%Z) ->
  evolving (call f).
Proof.
  intros Hf o. unfold call. destruct (os_faults o) as [|[e|] l]; [|split; simpl; [done|lia]|].
  - specialize (Hf (put_faults [] o)). by destruct (f _).
  - specialize (Hf (put_faults l o)). by destruct (f _).
Qed.

Lemma with_descr_evolving fd f :
  (forall d, d_socket (f d) = d_socket d /\ d_cloexec (f d) = d_cloexec d) -> evolving (with_descr fd f).
Proof.
  intros Hf. apply evolving_call. intros o. destruct (os_fds o !! fd) as [d|] eqn:E; simpl; [|split; [done|lia]].
  split; [|lia]. eapply evolves_insert; [done|apply Hf|]. by intros; rewrite (proj2 (Hf d)).
Qed.

Lemma fs_evolving (f : os -> io_result unit * os) :
  (forall o, os_fds (f o).2 = os_fds o /\ os_next_fd (f o).2 = os_next_fd o) -> evolving (call f).
Proof. intros Hf. apply evolving_call. intros o. destruct (Hf o) as [-> ->]. split; [done|lia]. Qed.

Lemma fs_remove_file_evolving path : evolving (fs_remove_file path).
Proof. apply fs_evolving. intros o. by case_match. Qed.
Lemma fs_hard_link_evolving p q : evolving (fs_hard_link p q).
Proof. apply fs_evolving. intros o. by repeat case_match. Qed.
Lemma fs_set_permissions_evolving path mode : evolving (fs_set_permissions path mode).
Proof. apply fs_evolving. intros o. by case_match. Qed.
Lemma set_nonblocking_evolving fd : evolving (set_nonblocking fd).
Proof. by apply with_descr_evolving. Qed.
Lemma register_evolving fd i : evolving (register fd i).
Proof. by apply with_descr_evolving. Qed.

#[export] Hint Resolve fs_remove_file_evolving fs_hard_link_evolving fs_set_permissions_evolving
  set_nonblocking_evolving register_evolving evolving_ret : rpc.

Lemma call_frames {A} m (f : os -> io_result A * os) Q :
  (forall o, frames m o -> match f o with (Ok a, o') => Q a o' | (Err _, o') => frames m o' end) ->
  triple (frames m) (call f) Q (frames m).
Proof.
  intros Hf o Ho. unfold call.
  assert (forall l, frames m (put_faults l o)) as Hl by (intros l; by destruct Ho).
  destruct (os_faults o) as [|[e|] l]; simpl; [|by apply Hl|].
  - specialize (Hf _ (Hl [])). by destruct (f _) as [[a|e] o'].
  - specialize (Hf _ (Hl l)). by destruct (f _) as [[a|e] o'].
Qed.

(** What a bind gives: a descriptor that is not one of [m]. *)
Definition opened (m : gmap Z descriptor) (fd : Z) (o : os) : Prop :=
  m !! fd = None /\ exists d, frames (<[fd := d]> m) o.

Lemma unix_bind_frames m path : triple (frames m) (unix_bind path) (opened m) (frames m).
Proof.
  apply call_frames. intros o Ho. destruct (os_files o !! path); [done|].
  destruct (frames_alloc m (std_descr (UnixListening path (os_next_inode o)))
    (put_files (<[path := os_next_inode o]> (os_files o)) (<[os_next_inode o := 493%Z]> (os_modes o))
       (S (os_next_inode o)) o)) as [H1 H2]; [by destruct Ho|].
  split; [exact H1|]. eexists. exact H2.
Qed.

Lemma tcp_bind_frames m addr : triple (frames m) (tcp_bind addr) (opened m) (frames m).
Proof.
  apply call_frames. intros o Ho.
  set (p := if (sock_port addr =? 0)%Z then _ else _).
  assert (frames m p.2) as Hp by (unfold p; case_match; by destruct Ho).
  destruct p as [a o1]. simpl in Hp. destruct (find_listener _ o1); [done|].
  destruct (frames_alloc m (std_descr (TcpListening a)) o1 Hp) as [H1 H2].
  split; [exact H1|]. eexists. exact H2.
Qed.

(** A descriptor owned by a computation that opens and closes nothing else. *)
Lemma owning_frames {A} m fd d (c : osM A) :
  evolving c -> m !! fd = None ->
  triple (frames (<[fd := d]> m)) (owning fd c) (fun _ => frames (<[fd := d]> m)) (frames m).
Proof.
  intros Hc Hfd o Ho. pose proof (evolving_frames _ c Hc o Ho) as Hs. unfold owning.
  destruct (c o) as [[[a|e]| |] o']; [done|by eapply frames_close..].
Qed.

(** ** What the framework relies on *)

Definition registered_as (i : interest) (d : descriptor) : descriptor :=
  mkDescr (d_socket d) (d_nonblocking d) (d_cloexec d) (Some i) (d_shut d).

(** A runtime takes a non-blocking descriptor without opening or closing any,
    and succeeds when the system does; a connect returns a descriptor it has
    registered. *)
Class AsyncIOLaws `{AsyncIO} := {
  to_rd_spec held regs fd :
    triple (fun o => holds held regs o /\ nonblocking fd o) (to_async_fd_rd fd)
      (fun _ o => holds held regs o /\ registered fd o) (holds held regs);
  to_rw_spec held regs fd :
    triple (fun o => holds held regs o /\ nonblocking fd o) (to_async_fd_rw fd)
      (fun _ o => holds held regs o /\ registered fd o) (holds held regs);
  connect_tcp_spec held regs addr timeout :
    triple (holds held regs) (connect_tcp addr timeout)
      (fun fd o => holds (fd :: held) regs o /\ registered fd o) (holds held regs);
  connect_unix_spec held regs path timeout :
    triple (holds held regs) (connect_unix path timeout)
      (fun fd o => holds (fd :: held) regs o /\ registered fd o) (holds held regs);
  to_rd_ok fd d o :
    os_faults o = [] -> os_fds o !! fd = Some d -> d_nonblocking d = true ->
    exists i, to_async_fd_rd fd o = (Done (Ok ()), put_fds (<[fd := registered_as i d]> (os_fds o)) o);
  to_rw_ok fd d o :
    os_faults o = [] -> os_fds o !! fd = Some d -> d_nonblocking d = true ->
    exists i, to_async_fd_rw fd o = (Done (Ok ()), put_fds (<[fd := registered_as i d]> (os_fds o)) o);
  connect_tcp_dials addr timeout :
    connect_tcp addr timeout = connect_with to_async_fd_rw timeout (dial_tcp addr);
  connect_unix_dials path timeout :
    connect_unix path timeout = connect_with to_async_fd_rw timeout (dial_unix path);
  to_rd_evolving fd : evolving (to_async_fd_rd fd);
}.

Lemma call_ok {A} (f : os -> io_result A * os) o :
  os_faults o = [] -> call f o = let '(r, o) := f o in (Done r, o).
Proof. intros Hf. unfold call. rewrite Hf. destruct o; simpl in *. by rewrite Hf. Qed.

Lemma with_descr_ok fd f d o :
  os_faults o = [] -> os_fds o !! fd = Some d ->
  with_descr fd f o = (Done (Ok ()), put_fds (<[fd := f d]> (os_fds o)) o).
Proof. intros Hf Hd. unfold with_descr. rewrite call_ok by done. by rewrite Hd. Qed.

Lemma connect_with_spec held regs to_rw timeout (f : ioM os Z) :
  (forall held regs fd, triple (fun o => holds held regs o /\ nonblocking fd o) (to_rw fd)
      (fun _ o => holds held regs o /\ registered fd o) (holds held regs)) ->
  (forall o, holds held regs o ->
     match f o with
     | (Ready (Ok fd), o') => holds (fd :: held) regs o' /\ nonblocking fd o'
     | (_, o') => holds held regs o'
     end) ->
  triple (holds held regs) (connect_with to_rw timeout f)
    (fun fd o => holds (fd :: held) regs o /\ registered fd o) (holds held regs).
Proof.
  intros Hrw Hf. eapply triple_bind; [by apply with_timeout_spec|]. intros fd.
  apply triple_owning. eapply triple_bind; [apply Hrw|]. intros []. by apply triple_ret.
Qed.

Lemma dial_unix_spec held regs path o :
  holds held regs o ->
  match dial_unix path o with
  | (Ready (Ok fd), o') => holds (fd :: held) regs o' /\ nonblocking fd o'
  | (_, o') => holds held regs o'
  end.
Proof. intros Ho. unfold dial_unix. destruct (os_files o !! path); [by apply dial_spec|done]. Qed.

Lemma register_ok fd i d o :
  os_faults o = [] -> os_fds o !! fd = Some d ->
  register fd i o = (Done (Ok ()), put_fds (<[fd := registered_as i d]> (os_fds o)) o).
Proof. apply with_descr_ok. Qed.

Lemma Async_new_ok fd d o :
  os_faults o = [] -> os_fds o !! fd = Some d -> d_nonblocking d = true ->
  Async_new fd o = (Done (Ok ()), put_fds (<[fd := registered_as ReadWrite d]> (os_fds o)) o).
Proof.
  intros Hf Hd Hn. unfold Async_new. erewrite run_bind_ok by (by apply with_descr_ok).
  erewrite register_ok; [|done|simpl; apply lookup_insert_eq]. simpl. rewrite insert_insert_eq.
  unfold registered_as, put_fds; simpl. by rewrite Hn.
Qed.

#[export] Instance TokioRT_Laws : @AsyncIOLaws TokioRT.
Proof.
  split; [| | | |intros; eexists; by apply register_ok|intros; eexists; by apply register_ok|done|done|intros; apply register_evolving].
  - intros. apply register_spec.
  - intros. apply register_spec.
  - intros. apply connect_with_spec; [intros; apply register_spec|intros; by apply dial_spec].
  - intros. apply connect_with_spec; [intros; apply register_spec|intros; by apply dial_unix_spec].
Qed.

Lemma Async_new_spec held regs fd :
  triple (fun o => holds held regs o /\ nonblocking fd o) (Async_new fd)
    (fun _ o => holds held regs o /\ registered fd o) (holds held regs).
Proof.
  apply (triple_bind _ _ (fun _ o => holds held regs o /\ nonblocking fd o)); [|intros []; apply register_spec].
  eapply triple_weaken; [apply set_nonblocking_spec|by intros o []|done|done].
Qed.

#[export] Instance SmolRT_Laws : @AsyncIOLaws SmolRT.
Proof.
  split; [| | | |intros; eexists; by apply Async_new_ok|intros; eexists; by apply Async_new_ok|done|done|intros; apply evolving_bind; auto with rpc].
  - intros. apply Async_new_spec.
  - intros. apply Async_new_spec.
  - intros. apply connect_with_spec; [intros; apply Async_new_spec|intros; by apply dial_spec].
  - intros. apply connect_with_spec; [intros; apply Async_new_spec|intros; by apply dial_unix_spec].
Qed.
