(* ===== verification/Runtime.v ===== *)
(** * core/src/runtime.rs, runtime/tokio, runtime/smol: time and coroutines

    The half of [AsyncIO] that is not about descriptors (for those see Os.v):
    sleeping, ticking, timeouts and the start of coroutines.  The timers and
    the executors of tokio and smol are external: classes of the entry points
    the adapters call, with their documented behaviour as laws.  An instant is
    a number of milliseconds; an operation that looks at the clock takes the
    current instant [now]. *)

From S2P Require Import Prelude Config BufIO.

Local Open Scope Z_scope.

(** ** The interface *)

(** [TimeInterval]: the value of a tick is the instant it was due. *)
Class TimeInterval (I : Type) := poll_tick : Z -> I -> run Z * I.

(** A ticker has a next tick and a period.  A tick that comes late does not
    put the following ones off. *)
Class TimeIntervalLaws (I : Type) `{TimeInterval I} := {
  next_tick : I -> Z;
  period : I -> Z;
  poll_tick_due now i :
    0 < period i -> next_tick i <= now ->
    exists t i', poll_tick now i = (Done t, i')
      /\ next_tick i' = next_tick i + period i /\ period i' = period i;
  poll_tick_early now i :
    0 < period i -> now < next_tick i ->
    exists i', poll_tick now i = (Waiting, i') /\ next_tick i' = next_tick i /\ period i' = period i;
}.

(** [IO] is the runtime, [F] the type of coroutines, [X] what runs them. *)
Class AsyncTime (IO F X : Type) := {
  Sleep : Type;
  Interval : Type;
  sleep : Z -> Z -> Sleep;
  poll_sleep : Z -> Sleep -> poll unit;
  tick : Z -> Z -> Interval;
  Interval_poll_tick :: TimeInterval Interval;
  spawn_detach : IO -> F -> list (X * F) -> option (list (X * F));
}.

Class AsyncTimeLaws (IO F X : Type) `{AsyncTime IO F X} := {
  Interval_laws :: TimeIntervalLaws Interval;
  poll_sleep_spec now start d : poll_sleep now (sleep start d) = if start + d <=? now then Ready () else Pending;
  tick_spec now d : 0 < d -> next_tick (tick now d) = now + d /\ period (tick now d) = d;
  runtime_ok : IO -> Prop;
  spawn_detach_ok rt f l : runtime_ok rt -> exists x, spawn_detach rt f l = Some (l ++ [(x, f)]);
}.

Section provided.
Context {IO F X : Type} `{AsyncTime IO F X}.

(** The provided [timeout]: [Cancellable::new(func, Self::sleep(d))], made at
    [start] and polled at [now]. *)
Definition AsyncIO_timeout {S A} (start d : Z) (func : ioM S A) (now : Z) :
    S -> poll (result (io_result A) unit) * S :=
  cancellable func (poll_sleep now (sleep start d)).

(** [io_with_timeout!] with the clock of the runtime. *)
Definition io_with_timeout_at {S A} (start timeout : Z) (f : ioM S A) (now : Z) : ioM S A :=
  fun s =>
    if timeout =? 0 then f s
    else
      match AsyncIO_timeout start timeout f now s with
      | (Ready (Ok r), s') => (Ready r, s')
      | (Ready (Err _), s') => (Ready (Err TimedOut), s')
      | (Pending, s') => (Pending, s')
      end.

(** The blanket impl: a type that dereferences to a runtime is one. *)
Definition AsyncTime_Deref {D} (deref : D -> IO) : AsyncTime D F X := {|
  Sleep := Sleep;
  Interval := Interval;
  sleep := sleep;
  poll_sleep := poll_sleep;
  tick := tick;
  Interval_poll_tick := Interval_poll_tick;
  spawn_detach d f := spawn_detach (deref d) f;
|}.

Context `{!AsyncTimeLaws IO F X}.

Definition AsyncTime_Deref_Laws {D} (deref : D -> IO) : @AsyncTimeLaws D F X (AsyncTime_Deref deref).
Proof.
  destruct AsyncTimeLaws0 as [Hi Hs Ht ok Hsp].
  exact (@Build_AsyncTimeLaws D F X (AsyncTime_Deref deref) Hi Hs Ht (fun d => ok (deref d))
    (fun d f l => Hsp (deref d) f l)).
Defined.

(** Before the deadline nothing happens to the call, after it the call is over
    as [io_with_timeout] says. *)
Lemma io_with_timeout_early {S A} start timeout (f : ioM S A) now s :
  now < start + timeout -> io_with_timeout_at start timeout f now s = f s.
Proof.
  intros Hn. unfold io_with_timeout_at, AsyncIO_timeout, cancellable. rewrite poll_sleep_spec.
  destruct (Z.leb_spec (start + timeout) now); [lia|]. destruct (timeout =? 0); [done|].
  by destruct (f s) as [[r|] s'].
Qed.

Lemma io_with_timeout_late {S A} start timeout (f : ioM S A) now s :
  start + timeout <= now -> io_with_timeout_at start timeout f now s = io_with_timeout timeout f s.
Proof.
  intros Hn. unfold io_with_timeout_at, AsyncIO_timeout, io_with_timeout. rewrite poll_sleep_spec.
  by destruct (Z.leb_spec (start + timeout) now); [|lia].
Qed.

(** A call with a timeout is over when its time has passed. *)
Lemma io_with_timeout_ends {S A} start timeout (f : ioM S A) now s :
  0 < timeout -> start + timeout <= now -> (io_with_timeout_at start timeout f now s).1 <> Pending.
Proof.
  intros Ht Hn. rewrite io_with_timeout_late by done. unfold io_with_timeout, cancellable.
  destruct (Z.eqb_spec timeout 0); [lia|]. by destruct (f s) as [[r|] s'].
Qed.
End provided.

(** ** tokio *)

(** [tokio::time] and [tokio::runtime::Handle::spawn]. *)
Class TokioLib := {
  tokio_Sleep : Type;
  tokio_Interval : Type;
  tokio_sleep : Z -> Z -> tokio_Sleep;
  tokio_poll_sleep : Z -> tokio_Sleep -> poll unit;
  tokio_interval_at : Z -> Z -> tokio_Interval;
  tokio_poll_tick : Z -> tokio_Interval -> poll Z * tokio_Interval;
}.

(** Missed ticks come in a burst, which is tokio's default. *)
Class TokioLibLaws `{TokioLib} := {
  tokio_next : tokio_Interval -> Z;
  tokio_period : tokio_Interval -> Z;
  tokio_poll_sleep_spec now start d :
    tokio_poll_sleep now (tokio_sleep start d) = if start + d <=? now then Ready () else Pending;
  tokio_interval_at_spec start p :
    0 < p -> tokio_next (tokio_interval_at start p) = start /\ tokio_period (tokio_interval_at start p) = p;
  tokio_poll_tick_spec now i :
    0 < tokio_period i ->
    let '(r, i') := tokio_poll_tick now i in
    tokio_period i' = tokio_period i
    /\ if tokio_next i <=? now then (exists t, r = Ready t) /\ tokio_next i' = tokio_next i + tokio_period i
       else r = Pending /\ tokio_next i' = tokio_next i;
}.

Section tokio.
Context {H F : Type} `{TokioLib}.

Record TokioInterval := mkTokioInterval { ti_interval : tokio_Interval }.

Definition TokioInterval_poll_tick (now : Z) (i : TokioInterval) : run Z * TokioInterval :=
  match tokio_poll_tick now (ti_interval i) with
  | (Ready t, i) => (Done t, mkTokioInterval i)
  | (Pending, i) => (Waiting, mkTokioInterval i)
  end.

(** [TokioRT(Handle)] *)
Definition TokioRT_new (handle : H) : H := handle.

Definition TokioRT_sleep (now d : Z) : tokio_Sleep := tokio_sleep now d.

Definition TokioRT_tick (now d : Z) : TokioInterval :=
  let later := now + d in mkTokioInterval (tokio_interval_at later d).

Definition TokioRT_spawn_detach (rt : H) (f : F) (spawned : list (H * F)) : option (list (H * F)) :=
  Some (spawned ++ [(rt, f)]).

#[export] Instance TokioRT_AsyncTime : AsyncTime H F H := {|
  Sleep := tokio_Sleep;
  Interval := TokioInterval;
  sleep := TokioRT_sleep;
  poll_sleep := tokio_poll_sleep;
  tick := TokioRT_tick;
  Interval_poll_tick := TokioInterval_poll_tick;
  spawn_detach := TokioRT_spawn_detach;
|}.

#[export] Instance TokioInterval_Laws `{!TokioLibLaws} : @TimeIntervalLaws TokioInterval TokioInterval_poll_tick.
Proof.
  refine {| next_tick i := tokio_next (ti_interval i); period i := tokio_period (ti_interval i) |};
    intros now [i] Hp Hn; cbn [ti_interval] in *; unfold poll_tick, TokioInterval_poll_tick; cbn [ti_interval];
    pose proof (tokio_poll_tick_spec now i Hp) as Hs; destruct (tokio_poll_tick now i) as [r i'];
    destruct (Z.leb_spec (tokio_next i) now); try lia; destruct Hs as [Hp' [Hr Hx]].
  - destruct Hr as [t ->]. by exists t, (mkTokioInterval i').
  - subst r. by exists (mkTokioInterval i').
Defined.

#[export] Instance TokioRT_AsyncTimeLaws `{!TokioLibLaws} : AsyncTimeLaws H F H.
Proof.
  refine {| runtime_ok _ := True |}; [apply tokio_poll_sleep_spec| |].
  - intros now d Hd. by apply tokio_interval_at_spec.
  - intros rt f l _. by exists rt.
Defined.
End tokio.

(** ** smol *)

(** [async_io::Timer], a future and a stream. *)
Class SmolLib := {
  Timer : Type;
  Timer_after : Z -> Z -> Timer;
  Timer_poll : Z -> Timer -> poll unit;
  Timer_interval_at : Z -> Z -> Timer;
  Timer_poll_next : Z -> Timer -> poll (option Z) * Timer;
}.

Class SmolLibLaws `{SmolLib} := {
  Timer_next : Timer -> Z;
  Timer_period : Timer -> Z;
  Timer_poll_spec now start d :
    Timer_poll now (Timer_after start d) = if start + d <=? now then Ready () else Pending;
  Timer_interval_at_spec start p :
    0 < p -> Timer_next (Timer_interval_at start p) = start /\ Timer_period (Timer_interval_at start p) = p;
  Timer_poll_next_spec now i :
    0 < Timer_period i ->
    let '(r, i') := Timer_poll_next now i in
    Timer_period i' = Timer_period i
    /\ if Timer_next i <=? now then (exists t, r = Ready (Some t)) /\ Timer_next i' = Timer_next i + Timer_period i
       else r = Pending /\ Timer_next i' = Timer_next i;
}.

Section smol.
Context {E F : Type} `{SmolLib}.

(** The library's timers always have a next event; an end of the stream is
    [unreachable!]. *)
Record SmolInterval := mkSmolInterval { si_timer : Timer }.

Definition SmolInterval_poll_tick (now : Z) (i : SmolInterval) : run Z * SmolInterval :=
  match Timer_poll_next now (si_timer i) with
  | (Ready (Some t), i) => (Done t, mkSmolInterval i)
  | (Ready None, i) => (Panicked, mkSmolInterval i)
  | (Pending, i) => (Waiting, mkSmolInterval i)
  end.

(** [SmolRT(Option<Arc<Executor>>)]: coroutines run on the executor, or on the
    global one when there is none. *)
Inductive executor := Global | Own (e : E).

Definition SmolRT_new (e : E) : option E := Some e.

(** There is no [new_global] without the feature "global". *)
Definition SmolRT_new_global (global : bool) : option (option E) := if global then Some None else None.

Definition SmolRT_sleep (now d : Z) : Timer := Timer_after now d.

Definition SmolRT_tick (now d : Z) : SmolInterval :=
  let later := now + d in mkSmolInterval (Timer_interval_at later d).

(** [None] is [unreachable!]. *)
Definition SmolRT_spawn_detach (global : bool) (rt : option E) (f : F) (spawned : list (executor * F)) :
    option (list (executor * F)) :=
  match rt with
  | Some e => Some (spawned ++ [(Own e, f)])
  | None => if global then Some (spawned ++ [(Global, f)]) else None
  end.

(** The runtime of a build with the feature "global", or without it. *)
Definition SmolRT_AsyncTime (global : bool) : AsyncTime (option E) F executor := {|
  Sleep := Timer;
  Interval := SmolInterval;
  sleep := SmolRT_sleep;
  poll_sleep := Timer_poll;
  tick := SmolRT_tick;
  Interval_poll_tick := SmolInterval_poll_tick;
  spawn_detach := SmolRT_spawn_detach global;
|}.

#[export] Instance SmolInterval_Laws `{!SmolLibLaws} : @TimeIntervalLaws SmolInterval SmolInterval_poll_tick.
Proof.
  refine {| next_tick i := Timer_next (si_timer i); period i := Timer_period (si_timer i) |};
    intros now [i] Hp Hn; cbn [si_timer] in *; unfold poll_tick, SmolInterval_poll_tick; cbn [si_timer];
    pose proof (Timer_poll_next_spec now i Hp) as Hs; destruct (Timer_poll_next now i) as [r i'];
    destruct (Z.leb_spec (Timer_next i) now); try lia; destruct Hs as [Hp' [Hr Hx]].
  - destruct Hr as [t ->]. by exists t, (mkSmolInterval i').
  - subst r. by exists (mkSmolInterval i').
Defined.

(** The values of [SmolRT] a build has: those its constructors give. *)
Definition SmolRT_made (global : bool) (rt : option E) : Prop :=
  (exists e, rt = SmolRT_new e) \/ SmolRT_new_global global = Some rt.

Definition SmolRT_AsyncTimeLaws `{!SmolLibLaws} (global : bool) :
  @AsyncTimeLaws (option E) F executor (SmolRT_AsyncTime global).
Proof.
  refine (@Build_AsyncTimeLaws _ _ _ (SmolRT_AsyncTime global) SmolInterval_Laws
    Timer_poll_spec _ (SmolRT_made global) _).
  - intros now d Hd. by apply Timer_interval_at_spec.
  - intros rt f l [[e ->]|Hg]; [by exists (Own e)|].
    destruct global; [|done]. injection Hg as <-. by exists Global.
Defined.
End smol.

(** ** The default facts: a configuration and a runtime *)

Record ClientDefault (IO : Type) := mkClientDefault { cd_config : ClientConfig; cd_rt : IO }.
Arguments mkClientDefault {IO} cd_config cd_rt.
Arguments cd_config {IO} c.
Arguments cd_rt {IO} c.

Definition ClientDefault_new {IO} (config : ClientConfig) (rt : IO) : ClientDefault IO := mkClientDefault config rt.
Definition ClientDefault_get_config {IO} (f : ClientDefault IO) : ClientConfig := cd_config f.

Record ServerDefault (IO : Type) := mkServerDefault { sd_config : ServerConfig; sd_rt : IO }.
Arguments mkServerDefault {IO} sd_config sd_rt.
Arguments sd_config {IO} s.
Arguments sd_rt {IO} s.

Definition ServerDefault_new {IO} (config : ServerConfig) (rt : IO) : ServerDefault IO := mkServerDefault config rt.
Definition ServerDefault_get_config {IO} (f : ServerDefault IO) : ServerConfig := sd_config f.

(** [Deref]: the facts are a runtime themselves. *)
Section facts.
Context {IO F X : Type} `{AsyncTimeLaws IO F X}.

Definition ClientDefault_AsyncTime : AsyncTime (ClientDefault IO) F X := AsyncTime_Deref cd_rt.
Definition ServerDefault_AsyncTime : AsyncTime (ServerDefault IO) F X := AsyncTime_Deref sd_rt.

(** What the framework spawns on the facts runs on the runtime they were made
    with. *)
Lemma facts_spawn cconfig sconfig rt f l :
  runtime_ok rt ->
  exists x, spawn_detach rt f l = Some (l ++ [(x, f)])
    /\ @spawn_detach _ _ _ ClientDefault_AsyncTime (ClientDefault_new cconfig rt) f l = Some (l ++ [(x, f)])
    /\ @spawn_detach _ _ _ ServerDefault_AsyncTime (ServerDefault_new sconfig rt) f l = Some (l ++ [(x, f)]).
Proof. intros Hrt. destruct (spawn_detach_ok rt f l Hrt) as [x E]. exists x. by rewrite <- E. Qed.
End facts.

(** ** A library of timers *)

(** Timers that keep the laws: an instant, or the next tick with the period. *)
Definition clock_poll (now deadline : Z) : poll unit := if deadline <=? now then Ready () else Pending.

Definition clock_tick (now : Z) (i : Z * Z) : poll Z * (Z * Z) :=
  let '(next, p) := i in
  if next <=? now then (Ready next, (next + p, p)) else (Pending, i).

Definition clock_TokioLib : TokioLib := {|
  tokio_Sleep := Z;
  tokio_Interval := Z * Z;
  tokio_sleep := Z.add;
  tokio_poll_sleep := clock_poll;
  tokio_interval_at := pair;
  tokio_poll_tick := clock_tick;
|}.

Definition clock_TokioLibLaws : @TokioLibLaws clock_TokioLib.
Proof.
  refine (@Build_TokioLibLaws clock_TokioLib fst snd _ _ _); [done|done|].
  intros now [next p] Hp. simpl. destruct (Z.leb_spec next now) as [Hn|Hn]; simpl; [by eauto|done].
Defined.
