(* ===== verification/Net.v ===== *)
(** * transport/tcp/src/net.rs: TCP and Unix sockets behind one interface

    [UnifyAddr] (a socket address or a path), [UnifyListener] and
    [UnifyStream].  A handle is the descriptor it owns; what the operating
    system does is Os.v, the runtime is its [AsyncIO].  Resolving host names is
    external: [to_socket_addrs] is a parameter. *)

From S2P Require Import Prelude RustStd Text Addr Errors BufIO Os.

(** ** Paths *)

Definition slash : byte := Byte.x2f.

(** [Path::components]: whether the path starts at the root, and its parts;
    repeated separators and [.] do not count, but for a leading [.]. *)
Definition path_components (p : bytes) : bool * list bytes :=
  let parts := split_on slash p in
  let real part := negb (bool_decide (part = [])) && negb (bool_decide (part = dot)) in
  match parts with
  | [] :: rest => if bool_decide (p = []) then (false, []) else (true, filter (fun x => real x = true) rest)
  | first :: rest =>
      (false, (if bool_decide (first = []) then [] else [first]) ++ filter (fun x => real x = true) rest)
  | [] => (false, [])
  end.

(** [Path == Path] *)
Definition path_eq (p q : bytes) : bool := bool_decide (path_components p = path_components q).

(** ** [UnifyAddr] *)

Inductive UnifyAddr :=
| USocket (a : SocketAddr)
| UPath (p : bytes).

(** [Display] and [Debug]: the path is UTF-8. *)
Definition UnifyAddr_fmt (a : UnifyAddr) : bytes :=
  match a with
  | USocket s => fmt_sock s
  | UPath p => p
  end.

Section addr.
Variable to_socket_addrs : bytes -> io_result (list SocketAddr).

(** [from_str]; [None] is the panic on an empty text. *)
Definition UnifyAddr_from_str (s : bytes) : option (result UnifyAddr unit) :=
  match s with
  | [] => None
  | b :: _ =>
      if decide (b = slash) then Some (Ok (UPath s))
      else
        match parse_sock s with
        | Some a => Some (Ok (USocket a))
        | None =>
            match to_socket_addrs s with
            | Ok (a :: _) => Some (Ok (USocket a))
            | Ok [] => Some (Err ())
            | Err _ => Some (Err ())
            end
        end
  end.

(** [PartialEq<str>] *)
Definition UnifyAddr_eq_str (self : UnifyAddr) (other : bytes) : bool :=
  match self with
  | USocket s =>
      match parse_sock other with
      | Some addr => bool_decide (s = addr)
      | None =>
          match parse_ip other with
          | Some addr => bool_decide (sock_ip s = addr)
          | None => false
          end
      end
  | UPath p => path_eq p other
  end.

(** ** [UnifyListener] and [UnifyStream] *)

Inductive UnifyListener := LTcp (fd : Z) | LUnix (fd : Z).
Inductive UnifyStream := STcp (fd : Z) | SUnix (fd : Z).

Definition UnifyListener_as_raw_fd (l : UnifyListener) : Z :=
  match l with LTcp fd => fd | LUnix fd => fd end.

Definition stream_fd (s : UnifyStream) : Z := match s with STcp fd => fd | SUnix fd => fd end.

Context `{AsyncIO}.

Definition from_unix (fd : Z) : osM UnifyListener :=
  owning fd (let* _ := set_nonblocking fd in let* _ := to_async_fd_rd fd in run_ret (LUnix fd)).

Definition from_tcp (fd : Z) : osM UnifyListener :=
  owning fd (let* _ := set_nonblocking fd in let* _ := to_async_fd_rd fd in run_ret (LTcp fd)).

(** [{path}_dup] *)
Definition path_dup (path : bytes) : bytes := path ++ lit "_dup".

(** [if path.exists() { fs::remove_file(path)?; }] *)
Definition remove_stale (path : bytes) : osM unit := fun o =>
  if fs_exists path o then fs_remove_file path o else (Done (Ok ()), o).

Definition bind_path (path : bytes) : osM UnifyListener :=
  let* _ := remove_stale path in
  let* _ := remove_stale (path_dup path) in
  let* l := unix_bind (path_dup path) in
  let* _ := owning l (let* _ := fs_hard_link (path_dup path) path in
                      fs_set_permissions path 438) in
  from_unix l.

Definition UnifyListener_bind (addr : bytes) : osM UnifyListener :=
  match UnifyAddr_from_str addr with
  | None => run_panic
  | Some (Err _) => run_err OtherIO
  | Some (Ok (USocket a)) => let* l := tcp_bind a in from_tcp l
  | Some (Ok (UPath path)) => bind_path path
  end.

(** [stream.set_nonblocking(true).expect(..)] *)
Definition expect_nonblocking (fd : Z) : osM unit := fun o =>
  match set_nonblocking fd o with
  | (Done (Err _), o) => (Panicked, o)
  | r => r
  end.

Definition accept_stream (wrap : Z -> UnifyStream) (fd : Z) : osM UnifyStream :=
  let* stream := os_accept fd in
  owning stream (let* _ := expect_nonblocking stream in
                 let* _ := to_async_fd_rw stream in run_ret (wrap stream)).

Definition UnifyListener_accept (self : UnifyListener) : osM UnifyStream :=
  match self with
  | LTcp fd => accept_stream STcp fd
  | LUnix fd => accept_stream SUnix fd
  end.

(** [l.local_addr()] of the standard library *)
Definition sock_local_addr (fd : Z) (o : os) : option socket := d_socket <$> os_fds o !! fd.

Definition UnifyListener_local_addr (self : UnifyListener) : osM bytes := fun o =>
  match self, sock_local_addr (UnifyListener_as_raw_fd self) o with
  | LTcp _, Some (TcpListening a) => (Done (Ok (fmt_sock a)), o)
  | LTcp _, Some (TcpStreaming a _) => (Done (Ok (fmt_sock a)), o)
  | LUnix _, Some (UnixListening p _) => (Done (Ok p), o)
  | LUnix _, Some (UnixStreaming (Some p)) => (Done (Ok p), o)
  | LUnix _, Some (UnixStreaming None) => (Panicked, o)
  | _, _ => (Done (Err OtherIO), o)
  end.

Definition UnifyListener_try_from_raw_fd (addr : bytes) (raw_fd : Z) : osM UnifyListener :=
  match UnifyAddr_from_str addr with
  | None => run_panic
  | Some (Err _) => run_err OtherIO
  | Some (Ok (USocket _)) => from_tcp raw_fd
  | Some (Ok (UPath _)) => from_unix raw_fd
  end.

Definition UnifyStream_shutdown_write (self : UnifyStream) : osM unit := shutdown (stream_fd self).

Definition UnifyStream_peer_addr (self : UnifyStream) : osM SocketAddr := fun o =>
  match self with
  | STcp fd =>
      match sock_local_addr fd o with
      | Some (TcpStreaming _ peer) => (Done (Ok peer), o)
      | _ => (Done (Err OtherIO), o)
      end
  | SUnix _ => (Done (Err AddrNotAvailable), o)
  end.

(** [Debug]; [None] is the panic on a Unix stream without a path. *)
Definition UnifyStream_fmt (self : UnifyStream) (o : os) : option bytes :=
  match self, sock_local_addr (stream_fd self) o with
  | STcp _, Some (TcpStreaming addr peer) => Some (fmt_sock addr ++ lit "->" ++ fmt_sock peer)
  | STcp _, Some (TcpListening addr) => Some (fmt_sock addr)
  | STcp _, _ => Some (lit "tcp addr unknown")
  | SUnix _, Some (UnixStreaming (Some p)) => Some p
  | SUnix _, Some (UnixListening p _) => Some p
  | SUnix _, Some (UnixStreaming None) => None
  | SUnix _, _ => Some (lit "unixsocket addr unknown")
  end.

Definition UnifyListener_fmt (self : UnifyListener) (o : os) : option bytes :=
  match self, sock_local_addr (UnifyListener_as_raw_fd self) o with
  | LTcp _, Some (TcpListening addr) => Some (lit "listener " ++ fmt_sock addr)
  | LTcp _, Some (TcpStreaming addr _) => Some (lit "listener " ++ fmt_sock addr)
  | LTcp _, _ => Some (lit "tcp listener unknown")
  | LUnix _, Some (UnixListening p _) => Some (lit "listener " ++ p)
  | LUnix _, Some (UnixStreaming (Some p)) => Some (lit "listener " ++ p)
  | LUnix _, Some (UnixStreaming None) => None
  | LUnix _, _ => Some (lit "unix listener unknown")
  end.

(** The connection that [TcpClient::connect] asks for. *)
Definition connect_stream (addr : bytes) (connect_timeout : Z) : osM UnifyStream :=
  match UnifyAddr_from_str addr with
  | None => run_panic
  | Some (Err _) => run_err OtherIO
  | Some (Ok (USocket a)) => let* fd := connect_tcp a connect_timeout in run_ret (STcp fd)
  | Some (Ok (UPath path)) => let* fd := connect_unix path connect_timeout in run_ret (SUnix fd)
  end.

(** Its failures, whatever they are, are [Unreachable] to the caller. *)
Definition TcpClient_connect_stream (addr : bytes) (connect_timeout : Z) : runM os RpcIntErr UnifyStream := fun o =>
  match connect_stream addr connect_timeout o with
  | (Done (Ok s), o) => (Done (Ok s), o)
  | (Done (Err _), o) => (Done (Err Unreachable), o)
  | (Waiting, o) => (Waiting, o)
  | (Panicked, o) => (Panicked, o)
  end.
End addr.

Example eq_str_port :
  UnifyAddr_eq_str (USocket (SockV4 [127; 0; 0; 1]%Z 18555)) (lit "127.0.0.1:18555") = true
  /\ UnifyAddr_eq_str (USocket (SockV4 [127; 0; 0; 1]%Z 18555)) (lit "127.0.0.1") = true
  /\ UnifyAddr_eq_str (USocket (SockV4 [127; 0; 0; 1]%Z 18555)) (lit "127.0.0.2") = false
  /\ UnifyAddr_eq_str (USocket (SockV4 [127; 0; 0; 1]%Z 18555)) (lit "127.0.0.1:18888") = false.
Proof. vm_compute. done. Qed.
Example eq_str_path : UnifyAddr_eq_str (UPath (lit "/run/a.sock")) (lit "/run//./a.sock/") = true.
Proof. vm_compute. done. Qed.

(** ** Addresses *)

Lemma parse_sock_slash bs : parse_sock (slash :: bs) = None.
Proof.
  unfold parse_sock, parse_with, or_else, read_socket_addr_v4. by rewrite read_ipv4_stop.
Qed.

Lemma unify_addr_parses (to_socket_addrs : bytes -> io_result (list SocketAddr)) (a : UnifyAddr) :
  match a with USocket s => sock_wf s /\ plain s | UPath p => head p = Some slash end ->
  UnifyAddr_from_str to_socket_addrs (UnifyAddr_fmt a) = Some (Ok a).
Proof.
  destruct a as [s|p]; cbn [UnifyAddr_fmt]; intros Ha.
  - destruct Ha as [Hwf Hp]. pose proof (parse_sock_fmt s Hwf Hp) as Hparse.
    unfold UnifyAddr_from_str. destruct (fmt_sock s) as [|b bs] eqn:E; [done|].
    case_decide as Hb; [subst b; by rewrite parse_sock_slash in Hparse|]. by rewrite Hparse.
  - destruct p as [|b p]; [done|]. by injection Ha as ->.
Qed.

(** C30: An address survives being printed: [from_str] of what [Display] prints
    gives the address back, IPv4 and IPv6 (with zone, compressed runs and
    embedded IPv4) and absolute paths, without asking the resolver; [==] with
    a text holds for the address's own text and for its bare IP, and between
    socket addresses only for the same one.  The empty text panics. *)
Theorem unify_addr_roundtrip (to_socket_addrs : bytes -> io_result (list SocketAddr)) (a : UnifyAddr)
    (Ha : match a with
          | USocket s => sock_wf s /\ plain s
          | UPath p => head p = Some slash
          end) :
  UnifyAddr_from_str to_socket_addrs (UnifyAddr_fmt a) = Some (Ok a)
  /\ UnifyAddr_eq_str a (UnifyAddr_fmt a) = true
  /\ match a with
     | USocket s =>
         UnifyAddr_eq_str a (fmt_ip (sock_ip s)) = true
         /\ forall s', sock_wf s' -> plain s' -> UnifyAddr_eq_str a (fmt_sock s') = bool_decide (s = s')
     | UPath _ => True
     end
  /\ UnifyAddr_from_str to_socket_addrs [] = None.
Proof.
  split; [by apply unify_addr_parses|]. destruct a as [s|p]; cbn [UnifyAddr_fmt].
  - destruct Ha as [Hwf Hp]. unfold UnifyAddr_eq_str. rewrite parse_sock_fmt by done.
    split; [by apply bool_decide_eq_true|]. split; [split|done].
    + assert (ip_wf (sock_ip s)) as Hip by (destruct s; apply Hwf).
      rewrite parse_sock_ip, parse_ip_fmt by done. by apply bool_decide_eq_true.
    + intros s' Hwf' Hp'. by rewrite parse_sock_fmt.
  - split; [by apply bool_decide_eq_true|done].
Qed.

(** ** Descriptors *)

Section safety.
Context `{AsyncIOLaws} (to_socket_addrs : bytes -> io_result (list SocketAddr)).

(** The listener owns [fd], which the reactor knows. *)
Lemma from_fd_spec held regs (wrap : Z -> UnifyListener) fd :
  (forall fd, UnifyListener_as_raw_fd (wrap fd) = fd) ->
  triple (holds (fd :: held) regs)
    (owning fd (let* _ := set_nonblocking fd in let* _ := to_async_fd_rd fd in run_ret (wrap fd)))
    (fun l => holds held (UnifyListener_as_raw_fd l :: regs)) (holds held regs).
Proof.
  intros Hw. apply triple_owning. eapply triple_bind; [apply set_nonblocking_spec|]. intros [].
  eapply triple_bind; [apply to_rd_spec|]. intros []. apply triple_ret. intros o [Ho Hr].
  rewrite Hw. by apply holds_keep.
Qed.

Lemma remove_stale_spec held regs path :
  triple (holds held regs) (remove_stale path) (fun _ => holds held regs) (holds held regs).
Proof.
  intros o Ho. unfold remove_stale. destruct (fs_exists path o); [by apply fs_remove_file_spec|done].
Qed.

Lemma bind_path_spec held regs path :
  triple (holds held regs) (bind_path path)
    (fun l => holds held (UnifyListener_as_raw_fd l :: regs)) (holds held regs).
Proof.
  eapply triple_bind; [apply remove_stale_spec|]. intros [].
  eapply triple_bind; [apply remove_stale_spec|]. intros [].
  eapply triple_bind; [apply unix_bind_spec|]. intros fd.
  apply (triple_bind _ _ (fun _ => holds (fd :: held) regs));
    [|intros []; by apply (from_fd_spec held regs LUnix fd)].
  apply triple_owning. eapply triple_bind; [apply fs_hard_link_spec|]. intros [].
  apply fs_set_permissions_spec.
Qed.

Lemma bind_spec held regs addr :
  triple (holds held regs) (UnifyListener_bind to_socket_addrs addr)
    (fun l => holds held (UnifyListener_as_raw_fd l :: regs)) (holds held regs).
Proof.
  unfold UnifyListener_bind. destruct (UnifyAddr_from_str to_socket_addrs addr) as [[[a|p]|[]]|].
  - eapply triple_bind; [apply tcp_bind_spec|]. intros fd. by apply (from_fd_spec held regs LTcp fd).
  - apply bind_path_spec.
  - by apply triple_err.
  - by apply triple_panic.
Qed.

(** A raw descriptor is taken over or closed, unless the address is bad. *)
Lemma try_from_raw_fd_spec held regs addr fd :
  triple (holds (fd :: held) regs) (UnifyListener_try_from_raw_fd to_socket_addrs addr fd)
    (fun l => holds held (UnifyListener_as_raw_fd l :: regs))
    (fun o => holds held regs o \/ holds (fd :: held) regs o).
Proof.
  unfold UnifyListener_try_from_raw_fd.
  destruct (UnifyAddr_from_str to_socket_addrs addr) as [[[a|p]|[]]|].
  - eapply triple_weaken; [by apply (from_fd_spec held regs LTcp fd)|done|done|by left].
  - eapply triple_weaken; [by apply (from_fd_spec held regs LUnix fd)|done|done|by left].
  - apply triple_err. by right.
  - apply triple_panic. by right.
Qed.

Lemma expect_nonblocking_spec held regs fd :
  triple (holds held regs) (expect_nonblocking fd)
    (fun _ o => holds held regs o /\ nonblocking fd o) (holds held regs).
Proof.
  intros o Ho. pose proof (set_nonblocking_spec held regs fd o Ho) as Hs. unfold expect_nonblocking.
  by destruct (set_nonblocking fd o) as [[[[]|e]| |] o'].
Qed.

Lemma accept_spec held regs (l : UnifyListener) :
  triple (holds held regs) (UnifyListener_accept l)
    (fun s => holds held (stream_fd s :: regs)) (holds held regs).
Proof.
  assert (forall (wrap : Z -> UnifyStream) fd, (forall fd, stream_fd (wrap fd) = fd) ->
    triple (holds held regs) (accept_stream wrap fd)
      (fun s => holds held (stream_fd s :: regs)) (holds held regs)) as Hw.
  { intros wrap fd Hwrap. eapply triple_bind; [apply os_accept_spec|]. intros s.
    apply triple_owning. eapply triple_bind; [apply expect_nonblocking_spec|]. intros [].
    eapply triple_bind; [apply to_rw_spec|]. intros []. apply triple_ret. intros o [Ho Hr].
    rewrite Hwrap. by apply holds_keep. }
  destruct l; by apply Hw.
Qed.

Lemma connect_spec held regs addr timeout :
  triple (holds held regs) (connect_stream to_socket_addrs addr timeout)
    (fun s => holds held (stream_fd s :: regs)) (holds held regs).
Proof.
  unfold connect_stream. destruct (UnifyAddr_from_str to_socket_addrs addr) as [[[a|p]|[]]|].
  - eapply triple_bind; [apply connect_tcp_spec|]. intros fd. apply triple_ret.
    intros o [Ho Hr]. by apply holds_keep.
  - eapply triple_bind; [apply connect_unix_spec|]. intros fd. apply triple_ret.
    intros o [Ho Hr]. by apply holds_keep.
  - by apply triple_err.
  - by apply triple_panic.
Qed.

(** *** A process and its handles *)

Record net := mkNet {
  n_os : os;
  n_listeners : list UnifyListener;
  n_streams : list UnifyStream;
  n_inherited : list Z;     (* open from before [exec], nobody's yet *)
}.

Inductive net_op :=
| NBind (addr : bytes)
| NRecover (addr : bytes)          (* [try_from_raw_fd] of the next inherited one *)
| NAccept (i : nat)
| NConnect (addr : bytes) (timeout : Z)
| NShutdown (j : nat)
| NCloseListener (i : nat)
| NCloseStream (j : nat).

(** What the program does with the result of a call: it keeps the handle. *)
Definition keep_listener (r : run (io_result UnifyListener) * os) (n : net) : net :=
  match r with
  | (Done (Ok l), o) => mkNet o (l :: n_listeners n) (n_streams n) (n_inherited n)
  | (_, o) => mkNet o (n_listeners n) (n_streams n) (n_inherited n)
  end.

Definition keep_stream (r : run (io_result UnifyStream) * os) (n : net) : net :=
  match r with
  | (Done (Ok s), o) => mkNet o (n_listeners n) (s :: n_streams n) (n_inherited n)
  | (_, o) => mkNet o (n_listeners n) (n_streams n) (n_inherited n)
  end.

Definition net_step (n : net) (op : net_op) : net :=
  match op with
  | NBind addr => keep_listener (UnifyListener_bind to_socket_addrs addr (n_os n)) n
  | NRecover addr =>
      match n_inherited n with
      | fd :: rest =>
          let n' := mkNet (n_os n) (n_listeners n) (n_streams n) rest in
          match UnifyListener_try_from_raw_fd to_socket_addrs addr fd (n_os n) with
          | (Done (Ok l), o) => keep_listener (Done (Ok l), o) n'
          | (_, o) =>
              (* a bad address leaves the descriptor as it is *)
              if bool_decide (is_Some (os_fds o !! fd))
              then mkNet o (n_listeners n) (n_streams n) (n_inherited n)
              else mkNet o (n_listeners n) (n_streams n) rest
          end
      | [] => n
      end
  | NAccept i =>
      match n_listeners n !! i with
      | Some l => keep_stream (UnifyListener_accept l (n_os n)) n
      | None => n
      end
  | NConnect addr timeout => keep_stream (connect_stream to_socket_addrs addr timeout (n_os n)) n
  | NShutdown j =>
      match n_streams n !! j with
      | Some s => mkNet (UnifyStream_shutdown_write s (n_os n)).2 (n_listeners n) (n_streams n) (n_inherited n)
      | None => n
      end
  | NCloseListener i =>
      match n_listeners n !! i with
      | Some l => mkNet (close_fd (UnifyListener_as_raw_fd l) (n_os n)) (delete i (n_listeners n))
                    (n_streams n) (n_inherited n)
      | None => n
      end
  | NCloseStream j =>
      match n_streams n !! j with
      | Some s => mkNet (close_fd (stream_fd s) (n_os n)) (n_listeners n) (delete j (n_streams n))
                    (n_inherited n)
      | None => n
      end
  end.

Definition net_run (n : net) (ops : list net_op) : net := fold_left net_step ops n.

Definition handle_fds (n : net) : list Z :=
  (UnifyListener_as_raw_fd <$> n_listeners n) ++ (stream_fd <$> n_streams n).

Definition net_ok (n : net) : Prop := holds (n_inherited n) (handle_fds n) (n_os n).

Lemma keep_listener_ok n r :
  match r with
  | (Done (Ok l), o) => holds (n_inherited n) (UnifyListener_as_raw_fd l :: handle_fds n) o
  | (_, o) => holds (n_inherited n) (handle_fds n) o
  end -> net_ok (keep_listener r n).
Proof. by destruct r as [[[l|e]| |] o]. Qed.

Lemma keep_stream_ok n r :
  match r with
  | (Done (Ok s), o) => holds (n_inherited n) (stream_fd s :: handle_fds n) o
  | (_, o) => holds (n_inherited n) (handle_fds n) o
  end -> net_ok (keep_stream r n).
Proof.
  destruct r as [[[s|e]| |] o]; [|done..]. intros Hh. eapply holds_perm; [|exact Hh].
  unfold handle_fds; simpl. by rewrite Permutation_middle.
Qed.

Lemma recover_ok n addr : net_ok n -> net_ok (net_step n (NRecover addr)).
Proof.
  intros Hn. cbn [net_step]. destruct (n_inherited n) as [|fd rest] eqn:Einh; [done|].
  unfold net_ok in Hn. rewrite Einh in Hn.
  pose proof (try_from_raw_fd_spec rest (handle_fds n) addr fd (n_os n) Hn) as Hs.
  pose proof (holds_nodup _ _ _ Hn) as Hnd. apply list.NoDup_cons in Hnd as [Hfd _].
  destruct (UnifyListener_try_from_raw_fd to_socket_addrs addr fd (n_os n)) as [[[l|e]| |] o];
    [exact Hs|..]; (destruct Hs as [Hs|Hs];
      [rewrite bool_decide_eq_false_2 by (by rewrite <- (holds_lookup _ _ _ fd Hs)); exact Hs
      |rewrite bool_decide_eq_true_2 by (apply (holds_lookup _ _ _ fd Hs); left); exact Hs]).
Qed.

Lemma net_step_ok n op : net_ok n -> net_ok (net_step n op).
Proof.
  intros Hn. destruct op as [addr|addr|i|addr timeout|j|i|j]; cbn [net_step].
  - apply keep_listener_ok. exact (bind_spec (n_inherited n) (handle_fds n) addr (n_os n) Hn).
  - by apply recover_ok.
  - destruct (n_listeners n !! i) as [l|]; [|done]. apply keep_stream_ok.
    exact (accept_spec (n_inherited n) (handle_fds n) l (n_os n) Hn).
  - apply keep_stream_ok. exact (connect_spec (n_inherited n) (handle_fds n) addr timeout (n_os n) Hn).
  - destruct (n_streams n !! j) as [s|]; [|done].
    pose proof (shutdown_spec (n_inherited n) (handle_fds n) (stream_fd s) (n_os n) Hn) as Hs.
    unfold UnifyStream_shutdown_write. by destruct (shutdown (stream_fd s) (n_os n)) as [[[[]|e]| |] o].
  - destruct (n_listeners n !! i) as [l|] eqn:El; [|done]. eapply holds_close_reg; [|exact Hn].
    pose proof (fmap_Permutation UnifyListener_as_raw_fd _ _ (delete_Permutation _ i l El)) as Hp.
    unfold handle_fds; simpl. by rewrite Hp.
  - destruct (n_streams n !! j) as [s|] eqn:Es; [|done]. eapply holds_close_reg; [|exact Hn].
    pose proof (fmap_Permutation stream_fd _ _ (delete_Permutation _ j s Es)) as Hp.
    unfold handle_fds; simpl. rewrite Hp. simpl. by rewrite Permutation_middle.
Qed.

(** C17: No descriptor is leaked, shared or blocking: whatever sequence of
    binds, recoveries, accepts, connects, shutdowns and drops a process runs,
    and whichever system calls fail on the way, the open descriptors are
    exactly those of its listeners and streams (and those inherited and not
    yet recovered), each with one owner, and every listener and stream is
    registered with the runtime and non-blocking. *)
Theorem net_descriptors_safe (inherited : list Z) (o : os) (ops : list net_op)
    (Ho : holds inherited [] o) (n := net_run (mkNet o [] [] inherited) ops) :
  n_inherited n ++ handle_fds n ≡ₚ (map_to_list (os_fds (n_os n))).*1
  /\ NoDup (n_inherited n ++ handle_fds n)
  /\ Forall (fun fd => exists d i, os_fds (n_os n) !! fd = Some d /\ d_registered d = Some i
                         /\ d_nonblocking d = true) (handle_fds n).
Proof.
  assert (net_ok n) as Hn.
  { unfold n, net_run. assert (net_ok (mkNet o [] [] inherited)) as Hinit by done. revert Hinit.
    generalize (mkNet o [] [] inherited). induction ops as [|op ops IH]; intros m Hm; [done|].
    by apply IH, net_step_ok. }
  split; [apply Hn|]. split; [by eapply holds_nodup|].
  eapply list.Forall_impl; [apply (held_regs _ _ _ Hn)|]. intros fd (d & i & Hd & Hi). exists d, i.
  split; [done|]. split; [done|]. eapply (held_ok _ _ _ Hn); [done|]. by rewrite Hi.
Qed.
End safety.

(** ** From a listener to its clients *)

(** A system on which nothing fails, with its numbers in order. *)
Record os_calm (o : os) : Prop := {
  calm_faults : os_faults o = [];
  calm_mute : os_mute o = false;
  calm_fds : map_Forall (fun fd _ => (fd < os_next_fd o)%Z) (os_fds o);
  calm_backlog : map_Forall (fun fd _ => (fd < os_next_fd o)%Z) (os_backlog o);
  calm_inodes : map_Forall (fun _ d => match d_socket d with
                                       | UnixListening _ i => i < os_next_inode o
                                       | _ => True
                                       end) (os_fds o);
  calm_port : in_u 16 (os_next_port o);
}.

Lemma find_listener_none P o :
  find_listener P o = None -> map_Forall (fun _ d => P (d_socket d) = false) (os_fds o).
Proof.
  unfold find_listener. destruct (filter _ _) as [|p l] eqn:E; [|done]. intros _ fd d Hd.
  destruct (P (d_socket d)) eqn:EP; [|done].
  assert ((fd, d) ∈ filter (fun p : Z * descriptor => P (d_socket p.2) = true) (map_to_list (os_fds o))) as Hin.
  { apply list_elem_of_filter. split; [done|]. by apply elem_of_map_to_list. }
  rewrite E in Hin. by apply not_elem_of_nil in Hin.
Qed.

(** The only listener of its kind is found. *)
Lemma find_listener_new P fd d o :
  map_Forall (fun _ d => P (d_socket d) = false) (delete fd (os_fds o)) ->
  os_fds o !! fd = Some d -> P (d_socket d) = true -> find_listener P o = Some (fd, d_socket d).
Proof.
  intros Hno Hd HP. unfold find_listener.
  destruct (filter (fun p : Z * descriptor => P (d_socket p.2) = true) (map_to_list (os_fds o)))
    as [|[fd' d'] l] eqn:E.
  - assert ((fd, d) ∈ filter (fun p : Z * descriptor => P (d_socket p.2) = true) (map_to_list (os_fds o))) as Hin.
    { apply list_elem_of_filter. split; [done|]. by apply elem_of_map_to_list. }
    rewrite E in Hin. by apply not_elem_of_nil in Hin.
  - assert ((fd', d') ∈ filter (fun p : Z * descriptor => P (d_socket p.2) = true) (map_to_list (os_fds o))) as Hin
      by (rewrite E; left).
    apply list_elem_of_filter in Hin as [HP' Hin]. apply elem_of_map_to_list in Hin. simpl in HP'.
    destruct (decide (fd' = fd)) as [->|Hne]; [simpl; by simplify_eq|].
    assert (delete fd (os_fds o) !! fd' = Some d') as Hd' by (by rewrite lookup_delete_ne).
    apply Hno in Hd'. by rewrite HP' in Hd'.
Qed.

Section reachable.
Context `{AsyncIOLaws} (to_socket_addrs : bytes -> io_result (list SocketAddr)).

Definition nonblocking_descr (d : descriptor) : descriptor :=
  mkDescr (d_socket d) true (d_cloexec d) (d_registered d) (d_shut d).

Lemma from_fd_ok (wrap : Z -> UnifyListener) fd d o :
  os_faults o = [] -> os_fds o !! fd = Some d ->
  exists i, owning fd (let* _ := set_nonblocking fd in let* _ := to_async_fd_rd fd in run_ret (wrap fd)) o
    = (Done (Ok (wrap fd)), put_fds (<[fd := registered_as i (nonblocking_descr d)]> (os_fds o)) o).
Proof.
  intros Hf Hd. unfold owning. erewrite run_bind_ok by (by apply with_descr_ok).
  destruct (to_rd_ok fd (nonblocking_descr d) (put_fds (<[fd := nonblocking_descr d]> (os_fds o)) o))
    as [i Hi]; [done|apply lookup_insert_eq|done|]. exists i. unfold run_bind.
  unfold nonblocking_descr in Hi at 1. rewrite Hi. simpl. by rewrite insert_insert_eq.
Qed.

(** A connect that finds the listener [l], and the accept that follows. *)
Lemma connect_accept P acc mine l s timeout wrap o :
  os_faults o = [] -> os_mute o = false -> find_listener P o = Some (l, s) ->
  default [] (os_backlog o !! l) = [] -> is_Some (os_fds o !! l) ->
  map_Forall (fun fd _ => (fd < os_next_fd o)%Z) (os_fds o) ->
  exists fd o2 fd' o3,
    connect_with to_async_fd_rw timeout (dial P acc mine) o = (Done (Ok fd), o2)
    /\ sock_local_addr fd o2 = Some mine
    /\ accept_stream wrap l o2 = (Done (Ok (wrap fd')), o3)
    /\ sock_local_addr fd' o3 = Some (acc s) /\ sock_local_addr fd o3 = Some mine.
Proof.
  intros Hf Hm Hfind Hback [dl Hl] Hlt. pose proof (Hlt l dl Hl) as Hll.
  set (fd := os_next_fd o).
  set (o1 := put_backlog (<[l := [acc s]]> (os_backlog o))
    (put_next_fd (fd + 1) (put_fds (<[fd := connected_descr mine]> (os_fds o)) o))).
  assert (dial P acc mine o = (Ready (Ok fd), o1)) as Hdial.
  { unfold dial. rewrite Hm, call_ok by done. rewrite Hfind. simpl. by rewrite Hback. }
  destruct (to_rw_ok fd (connected_descr mine) o1) as [i Hi]; [done|apply lookup_insert_eq|done|].
  set (o2 := put_fds (<[fd := registered_as i (connected_descr mine)]> (os_fds o1)) o1) in *.
  assert (connect_with to_async_fd_rw timeout (dial P acc mine) o = (Done (Ok fd), o2)) as Hconn.
  { unfold connect_with. erewrite run_bind_ok.
    2:{ unfold run_io, id, io_with_timeout, cancellable. rewrite Hdial. by destruct (timeout =? 0)%Z. }
    unfold owning. by erewrite run_bind_ok by exact Hi. }
  set (fd' := os_next_fd o2). set (d0 := std_descr (acc s)).
  set (o2' := put_next_fd (fd' + 1) (put_fds (<[fd' := d0]> (os_fds o2)) (put_backlog (<[l := []]> (os_backlog o2)) o2))).
  assert (os_accept l o2 = (Done (Ok fd'), o2')) as Hacc.
  { unfold os_accept. change (os_backlog o2) with (<[l := [acc s]]> (os_backlog o)).
    rewrite lookup_insert_eq. by rewrite call_ok. }
  destruct (to_rw_ok fd' (nonblocking_descr d0) (put_fds (<[fd' := nonblocking_descr d0]> (os_fds o2')) o2'))
    as [i' Hi']; [done|apply lookup_insert_eq|done|].
  eexists fd, o2, fd', _. split; [exact Hconn|].
  assert (fd <> fd') as Hne by (unfold fd', fd, o2, o1; simpl; lia).
  split; [unfold sock_local_addr; simpl; by rewrite lookup_insert_eq|]. split.
  - unfold accept_stream. erewrite run_bind_ok by exact Hacc. unfold owning.
    assert (expect_nonblocking fd' o2' = (Done (Ok ()), put_fds (<[fd' := nonblocking_descr d0]> (os_fds o2')) o2')) as He.
    { unfold expect_nonblocking, set_nonblocking. erewrite with_descr_ok; [done|done|apply lookup_insert_eq]. }
    erewrite run_bind_ok by exact He. erewrite run_bind_ok by exact Hi'. done.
  - unfold sock_local_addr; simpl. rewrite !insert_insert_eq, lookup_insert_eq. split; [done|].
    rewrite lookup_insert_ne by done. by rewrite lookup_insert_eq.
Qed.

(** The address a bind to [a] gets. *)
Definition bound_addr (a : SocketAddr) (o : os) : SocketAddr :=
  if (sock_port a =? 0)%Z then with_port a (os_next_port o) else a.

Lemma bound_addr_wf a o : sock_wf a -> in_u 16 (os_next_port o) -> sock_wf (bound_addr a o).
Proof.
  intros Hwf Hp. unfold bound_addr. destruct (_ =? _)%Z; [|done]. destruct a; simpl in *; tauto.
Qed.

Lemma bound_addr_plain a o : plain a -> plain (bound_addr a o).
Proof. unfold bound_addr. destruct (_ =? _)%Z; [|done]. by destruct a. Qed.

Lemma find_listener_fds P o o' : os_fds o' = os_fds o -> find_listener P o' = find_listener P o.
Proof. unfold find_listener. by intros ->. Qed.

(** What a fresh listener at descriptor [fd] leaves to the system. *)
Record listening_at (fd : Z) (s : socket) (o o1 : os) : Prop := {
  la_faults : os_faults o1 = [];
  la_mute : os_mute o1 = false;
  la_fd : exists d, os_fds o1 !! fd = Some d /\ d_socket d = s;
  la_others : delete fd (os_fds o1) = os_fds o;
  la_backlog : os_backlog o1 !! fd = None;
  la_next : map_Forall (fun fd _ => (fd < os_next_fd o1)%Z) (os_fds o1);
}.

Lemma from_fd_listening (wrap : Z -> UnifyListener) s o o0 :
  os_calm o -> os_fds o0 = <[os_next_fd o := std_descr s]> (os_fds o) -> os_next_fd o0 = (os_next_fd o + 1)%Z ->
  os_faults o0 = [] -> os_mute o0 = false -> os_backlog o0 = os_backlog o ->
  exists o1,
    owning (os_next_fd o) (let* _ := set_nonblocking (os_next_fd o) in
      let* _ := to_async_fd_rd (os_next_fd o) in run_ret (wrap (os_next_fd o))) o0
    = (Done (Ok (wrap (os_next_fd o))), o1)
    /\ listening_at (os_next_fd o) s o o1 /\ os_files o1 = os_files o0 /\ os_modes o1 = os_modes o0.
Proof.
  intros Hc Hfds Hnext Hf Hm Hb. set (fd := os_next_fd o) in *.
  assert (os_fds o !! fd = None) as Hfresh.
  { destruct (os_fds o !! fd) eqn:E; [|done]. apply (calm_fds _ Hc) in E. unfold fd in E. lia. }
  destruct (from_fd_ok wrap fd (std_descr s) o0) as [i Hi]; [done|by rewrite Hfds, lookup_insert_eq|].
  eexists. split; [exact Hi|]. split; [|done]. rewrite Hfds, insert_insert_eq. split; simpl.
  - done.
  - done.
  - rewrite lookup_insert_eq. by eauto.
  - by rewrite delete_insert_eq, delete_id.
  - rewrite Hb. destruct (os_backlog o !! fd) eqn:E; [|done]. apply (calm_backlog _ Hc) in E. unfold fd in E. lia.
  - rewrite Hnext. apply map_Forall_insert_2; [lia|]. eapply map_Forall_impl; [apply (calm_fds _ Hc)|].
    simpl. unfold fd. lia.
Qed.

(** Clients that dial the listener get through to it. *)
Lemma listening_accepts P acc mine fd s o o1 timeout wrap :
  listening_at fd s o o1 -> P s = true ->
  map_Forall (fun _ d => P (d_socket d) = false) (os_fds o) ->
  exists c o2 c' o3,
    connect_with to_async_fd_rw timeout (dial P acc mine) o1 = (Done (Ok c), o2)
    /\ accept_stream wrap fd o2 = (Done (Ok (wrap c')), o3)
    /\ sock_local_addr c' o3 = Some (acc s) /\ sock_local_addr c o3 = Some mine.
Proof.
  intros [Hf Hm (d & Hd & <-) Ho Hb Hn] HP Hno.
  destruct (connect_accept P acc mine fd (d_socket d) timeout wrap o1) as (c & o2 & c' & o3 & H1 & _ & H2 & H3 & H4);
    [done|done| |by rewrite Hb|by eauto|done|by eauto 10].
  apply find_listener_new; [by rewrite Ho|done|done].
Qed.

Lemma bind_tcp_ok a o :
  os_calm o -> find_listener (listens_tcp (bound_addr a o)) o = None ->
  exists o1, (let* l := tcp_bind a in from_tcp l) o = (Done (Ok (LTcp (os_next_fd o))), o1)
    /\ listening_at (os_next_fd o) (TcpListening (bound_addr a o)) o o1.
Proof.
  intros Hc Hfree.
  set (o' := if (sock_port a =? 0)%Z then put_next_port (os_next_port o + 1) o else o).
  set (o0 := put_next_fd (os_next_fd o + 1)
    (put_fds (<[os_next_fd o := std_descr (TcpListening (bound_addr a o))]> (os_fds o)) o')).
  assert (tcp_bind a o = (Done (Ok (os_next_fd o)), o0)) as Hb.
  { unfold tcp_bind. rewrite call_ok by apply Hc. unfold o0, o', bound_addr in *.
    destruct (sock_port a =? 0)%Z.
    - by rewrite (find_listener_fds _ o) by done; rewrite Hfree.
    - by rewrite Hfree. }
  erewrite run_bind_ok by exact Hb.
  destruct (from_fd_listening LTcp (TcpListening (bound_addr a o)) o o0) as (o1 & H1 & H2 & _ & _); [done|done|done|..].
  - unfold o0, o'. destruct (_ =? _)%Z; apply Hc.
  - unfold o0, o'. destruct (_ =? _)%Z; apply Hc.
  - unfold o0, o'. by destruct (_ =? _)%Z.
  - by exists o1.
Qed.

(** The files that [bind] leaves: the path and its duplicate name the socket,
    open to everyone; nothing else changes. *)
Definition bound_files (path : bytes) (o o1 : os) : Prop :=
  os_files o1 !! path = Some (os_next_inode o) /\ os_files o1 !! path_dup path = Some (os_next_inode o)
  /\ os_modes o1 !! os_next_inode o = Some 438%Z
  /\ forall p, p <> path -> p <> path_dup path -> os_files o1 !! p = os_files o !! p.

Lemma path_dup_ne path : path_dup path <> path.
Proof. unfold path_dup. intros E. apply (f_equal length) in E. rewrite length_app in E. simpl in E. lia. Qed.

Lemma remove_stale_ok path o :
  os_faults o = [] ->
  remove_stale path o
  = (Done (Ok ()), put_files (delete path (os_files o)) (os_modes o) (os_next_inode o) o).
Proof.
  intros Hf. unfold remove_stale, fs_exists. case_bool_decide as Hex.
  - unfold fs_remove_file. rewrite call_ok by done. destruct Hex as [i ->]. done.
  - rewrite delete_id by (by apply eq_None_not_Some). by destruct o.
Qed.

Lemma bind_path_ok path o :
  os_calm o ->
  exists o1, bind_path path o = (Done (Ok (LUnix (os_next_fd o))), o1)
    /\ listening_at (os_next_fd o) (UnixListening (path_dup path) (os_next_inode o)) o o1
    /\ bound_files path o o1.
Proof.
  intros Hc. pose proof (calm_faults _ Hc) as Hf. unfold bind_path.
  erewrite run_bind_ok by (by apply remove_stale_ok). erewrite run_bind_ok by (by apply remove_stale_ok).
  set (oa := put_files _ _ _ (put_files _ _ _ o)).
  set (files := delete (path_dup path) (delete path (os_files o))).
  set (inode := os_next_inode o). set (fd := os_next_fd o).
  set (d := std_descr (UnixListening (path_dup path) inode)).
  set (ob := put_next_fd (fd + 1) (put_fds (<[fd := d]> (os_fds o))
    (put_files (<[path_dup path := inode]> files) (<[inode := 493%Z]> (os_modes o)) (S inode) oa))).
  assert (unix_bind (path_dup path) oa = (Done (Ok fd), ob)) as Hbind.
  { unfold unix_bind. rewrite call_ok by done. change (os_files oa) with files. unfold files at 1.
    by rewrite lookup_delete_eq. }
  erewrite run_bind_ok by exact Hbind.
  assert (<[path_dup path := inode]> files !! path = None) as Hfree.
  { unfold files. rewrite lookup_insert_ne by apply path_dup_ne.
    by rewrite lookup_delete_ne, lookup_delete_eq by apply path_dup_ne. }
  set (oc := put_files (<[path := inode]> (<[path_dup path := inode]> files)) (<[inode := 438%Z]> (os_modes ob))
    (S inode) ob).
  assert (owning fd (let* _ := fs_hard_link (path_dup path) path in fs_set_permissions path 438) ob
    = (Done (Ok ()), oc)) as Hlink.
  { unfold owning, run_bind, fs_hard_link. rewrite call_ok by done.
    change (os_files ob) with (<[path_dup path := inode]> files). rewrite lookup_insert_eq, Hfree.
    unfold fs_set_permissions. rewrite call_ok by done. simpl. by rewrite lookup_insert_eq. }
  erewrite run_bind_ok by exact Hlink.
  destruct (from_fd_listening LUnix (UnixListening (path_dup path) inode) o oc) as (o1 & H1 & H2 & H3 & H4);
    [done|done|done|done|apply Hc|done|].
  exists o1. split; [exact H1|]. split; [exact H2|]. unfold bound_files. rewrite H3, H4. simpl.
  rewrite !lookup_insert_eq. rewrite (lookup_insert_ne _ path) by (intros E; by apply (path_dup_ne path)).
  rewrite lookup_insert_eq. split; [done|]. split; [done|]. split; [done|]. intros p Hp1 Hp2.
  rewrite !lookup_insert_ne by done. unfold files. by rewrite !lookup_delete_ne by done.
Qed.

(** A listener reports where it listens. *)
Lemma listening_local_addr l fd s o o1 text :
  listening_at fd s o o1 ->
  (l = LTcp fd /\ (exists a, s = TcpListening a /\ text = fmt_sock a))
  \/ (l = LUnix fd /\ (exists i, s = UnixListening text i)) ->
  UnifyListener_local_addr l o1 = (Done (Ok text), o1).
Proof.
  intros Hlis Hl. destruct (la_fd _ _ _ _ Hlis) as (d & Hd & Hs).
  destruct Hl as [(-> & a & Ha & ->)|(-> & i & Hi)];
    unfold UnifyListener_local_addr, sock_local_addr; simpl; rewrite Hd; simpl; rewrite Hs; subst s; done.
Qed.

Lemma tcp_client_accepted b o o1 timeout (peer := bound_addr b o) :
  os_calm o -> sock_wf b -> plain b -> find_listener (listens_tcp peer) o = None ->
  listening_at (os_next_fd o) (TcpListening peer) o o1 ->
  exists s o2 s' o3 mine,
    connect_stream to_socket_addrs (fmt_sock peer) timeout o1 = (Done (Ok s), o2)
    /\ UnifyListener_accept (LTcp (os_next_fd o)) o2 = (Done (Ok s'), o3)
    /\ UnifyStream_peer_addr s o3 = (Done (Ok peer), o3)
    /\ UnifyStream_peer_addr s' o3 = (Done (Ok mine), o3)
    /\ UnifyStream_fmt s o3 = Some (fmt_sock mine ++ lit "->" ++ fmt_sock peer).
Proof.
  intros Ho Hwf Hp Hfree Hlis.
  assert (UnifyAddr_from_str to_socket_addrs (fmt_sock peer) = Some (Ok (USocket peer))) as Htgt.
  { apply (unify_addr_parses to_socket_addrs (USocket peer)).
    split; [by apply bound_addr_wf, calm_port|by apply bound_addr_plain]. }
  unfold connect_stream. rewrite Htgt, connect_tcp_dials.
  destruct (listening_accepts (listens_tcp peer) (fun _ => TcpStreaming peer (ephemeral peer o1))
    (TcpStreaming (ephemeral peer o1) peer) _ _ o o1 timeout STcp Hlis) as (c & o2 & c' & o3 & H1 & H2 & H3 & H4).
  - by apply bool_decide_eq_true.
  - by apply find_listener_none.
  - exists (STcp c), o2, (STcp c'), o3, (ephemeral peer o1). split; [by erewrite run_bind_ok|].
    split; [exact H2|]. unfold UnifyStream_peer_addr, UnifyStream_fmt. simpl. by rewrite H3, H4.
Qed.

Lemma unix_client_accepted p target o o1 timeout :
  os_calm o -> head target = Some slash -> os_files o1 !! target = Some (os_next_inode o) ->
  listening_at (os_next_fd o) (UnixListening (path_dup p) (os_next_inode o)) o o1 ->
  exists s o2 s' o3,
    connect_stream to_socket_addrs target timeout o1 = (Done (Ok s), o2)
    /\ UnifyListener_accept (LUnix (os_next_fd o)) o2 = (Done (Ok s'), o3)
    /\ UnifyStream_fmt s' o3 = Some (path_dup p).
Proof.
  intros Ho Htgt Hino Hlis. apply (unify_addr_parses to_socket_addrs (UPath target)) in Htgt.
  cbn [UnifyAddr_fmt] in Htgt.
  unfold connect_stream. rewrite Htgt, connect_unix_dials.
  destruct (listening_accepts (listens_unix (os_next_inode o)) (fun s => UnixStreaming (bound_path s))
    (UnixStreaming None) _ _ o o1 timeout SUnix Hlis) as (c & o2 & c' & o3 & H1 & H2 & H3 & H4).
  - simpl. by apply Nat.eqb_eq.
  - eapply map_Forall_impl; [apply (calm_inodes _ Ho)|]. intros fd d. simpl.
    destruct (d_socket d); simpl; try done. intros Hlt. apply Nat.eqb_neq. lia.
  - exists (SUnix c), o2, (SUnix c'), o3. split; [|split; [exact H2|]].
    + assert (connect_with to_async_fd_rw timeout (dial_unix target) o1
        = connect_with to_async_fd_rw timeout (dial (listens_unix (os_next_inode o))
            (fun s => UnixStreaming (bound_path s)) (UnixStreaming None)) o1) as Heq.
      { unfold connect_with, run_bind, run_io, io_with_timeout, cancellable, dial_unix, id. by rewrite Hino. }
      rewrite <- Heq in H1. by erewrite run_bind_ok.
    + unfold UnifyStream_fmt. simpl. by rewrite H3.
Qed.

(** C18: A listener can be reached: on a system without faults, [bind] of an
    address listens there (on the port the system chose, for port 0), and a
    client that connects to what [local_addr] prints, or to the path it was
    bound to, is the next connection it accepts, whose two ends name each
    other.  A stale file at the path is replaced, the path and its duplicate
    are one socket file that everyone may open, and no other file changes. *)
Theorem listener_reachable (a : UnifyAddr) (o : os) (timeout : Z) (Ho : os_calm o)
    (Ha : match a with
          | USocket s => sock_wf s /\ plain s /\ find_listener (listens_tcp (bound_addr s o)) o = None
          | UPath p => head p = Some slash
          end) :
  exists l o1 text,
    UnifyListener_bind to_socket_addrs (UnifyAddr_fmt a) o = (Done (Ok l), o1)
    /\ UnifyListener_local_addr l o1 = (Done (Ok text), o1)
    /\ match a with
       | USocket s => text = fmt_sock (bound_addr s o)
       | UPath p => text = path_dup p /\ bound_files p o o1
       end
    /\ forall target, target = text \/ (exists p, a = UPath p /\ target = p) ->
       exists s o2 s' o3,
         connect_stream to_socket_addrs target timeout o1 = (Done (Ok s), o2)
         /\ UnifyListener_accept l o2 = (Done (Ok s'), o3)
         /\ match a with
            | USocket b =>
                exists mine, UnifyStream_peer_addr s o3 = (Done (Ok (bound_addr b o)), o3)
                  /\ UnifyStream_peer_addr s' o3 = (Done (Ok mine), o3)
                  /\ UnifyStream_fmt s o3 = Some (fmt_sock mine ++ lit "->" ++ text)
            | UPath p => UnifyStream_fmt s' o3 = Some (path_dup p)
            end.
Proof.
  destruct a as [b|p]; cbn [UnifyAddr_fmt]; unfold UnifyListener_bind.
  - destruct Ha as (Hwf & Hp & Hfree).
    rewrite (unify_addr_parses to_socket_addrs (USocket b) (conj Hwf Hp) : UnifyAddr_from_str _ (fmt_sock b) = _).
    destruct (bind_tcp_ok b o Ho Hfree) as (o1 & Hbind & Hlis).
    exists (LTcp (os_next_fd o)), o1, (fmt_sock (bound_addr b o)). split; [exact Hbind|].
    split; [eapply listening_local_addr; eauto 6|]. split; [done|]. intros target [->|(p & ? & _)]; [|done].
    destruct (tcp_client_accepted b o o1 timeout) as (s & o2 & s' & o3 & mine & ? & ? & ? & ? & ?); [done..|].
    eauto 10.
  - rewrite (unify_addr_parses to_socket_addrs (UPath p) Ha : UnifyAddr_from_str _ p = _).
    destruct (bind_path_ok p o Ho) as (o1 & Hbind & Hlis & Hfiles).
    exists (LUnix (os_next_fd o)), o1, (path_dup p). split; [exact Hbind|].
    split; [eapply listening_local_addr; eauto 6|]. split; [done|]. intros target Ht.
    destruct Hfiles as (Hf1 & Hf2 & _).
    assert (head target = Some slash /\ os_files o1 !! target = Some (os_next_inode o)) as [? ?].
    { destruct Ht as [->|(p' & [= <-] & ->)]; [|done]. split; [by destruct p|done]. }
    by apply unix_client_accepted.
Qed.
End reachable.

(** ** Concrete runs *)

Definition no_resolver : bytes -> io_result (list SocketAddr) := fun _ => Err OtherIO.

(** [fe80::1%3], port 80 *)
Definition demo_v6 : SocketAddr := SockV6 [65152; 0; 0; 0; 0; 0; 0; 1]%Z 80 0 3.

Example unify_addr_roundtrip_witness :
  UnifyAddr_from_str no_resolver (lit "[fe80::1%3]:80") = Some (Ok (USocket demo_v6))
  /\ UnifyAddr_eq_str (USocket demo_v6) (lit "fe80::1") = true.
Proof.
  destruct (unify_addr_roundtrip no_resolver (USocket demo_v6)) as (H1 & _ & [H2 _] & _).
  - repeat split; try (unfold in_u; lia). repeat constructor; unfold in_u; lia.
  - split; [exact H1|exact H2].
Defined.

Lemma holds_empty : holds [] [] os_empty.
Proof. split; [done|constructor|apply map_Forall_empty|apply map_Forall_empty]. Qed.

(** Two listeners, the second of which cannot be linked; a client of the first. *)
Definition demo_os : os := mkOs ∅ ∅ 0 ∅ 3 49152 ∅ false [None; None; None; None; Some OtherIO].

Definition demo_ops : list net_op :=
  [NBind (lit "127.0.0.1:80"); NBind (lit "/run/a"); NConnect (lit "127.0.0.1:80") 0; NAccept 0; NShutdown 0;
   NCloseListener 0].

Example net_descriptors_safe_witness :
  let n := @net_run TokioRT no_resolver (mkNet demo_os [] [] []) demo_ops in
  n_listeners n = [] /\ length (n_streams n) = 2
  /\ n_inherited n ++ handle_fds n ≡ₚ (map_to_list (os_fds (n_os n))).*1.
Proof.
  destruct (@net_descriptors_safe TokioRT TokioRT_Laws no_resolver [] demo_os demo_ops) as [Hp _].
  - split; [done|constructor|apply map_Forall_empty|apply map_Forall_empty].
  - split; [vm_compute; reflexivity|]. split; [vm_compute; reflexivity|exact Hp].
Defined.

Lemma os_empty_calm : os_calm os_empty.
Proof. split; try done; unfold in_u; simpl; try lia; apply map_Forall_empty. Qed.

Example listener_reachable_witness :
  exists l o1 s o2 s' o3,
    @UnifyListener_bind no_resolver SmolRT (lit "127.0.0.1:0") os_empty = (Done (Ok l), o1)
    /\ @connect_stream no_resolver SmolRT (lit "127.0.0.1:49152") 5000 o1 = (Done (Ok s), o2)
    /\ @UnifyListener_accept SmolRT l o2 = (Done (Ok s'), o3).
Proof.
  destruct (@listener_reachable SmolRT SmolRT_Laws no_resolver (USocket (SockV4 [127; 0; 0; 1]%Z 0)) os_empty
    5000 os_empty_calm) as (l & o1 & text & H1 & _ & Ht & Hc).
  - repeat split; try (unfold in_u; lia). repeat constructor; unfold in_u; lia.
  - destruct (Hc text (or_introl eq_refl)) as (s & o2 & s' & o3 & H2 & H3 & _).
    exists l, o1, s, o2, s', o3. split; [exact H1|]. split; [|exact H3].
    rewrite Ht in H2. exact H2.
Defined.
