(* ===== verification/Graceful.v ===== *)
(** * core/src/graceful.rs: listeners that outlive the program

    [GracefulServer] names its listeners to the program it spawns, which
    recovers them by number.  Processes, their environment and the files they
    tell each other by are a [world]; what an exec keeps of a process's
    descriptors is [os_exec].  [set_fds_cloexec] (crate close_fds) and the
    signals that arrive (crate signal_hook) are parameters, and so is whatever
    the rest of the world does while the parent sleeps. *)

From stdpp Require Import sorting.
From S2P Require Import Prelude RustStd Text Addr BufIO Os Net.

(** ** [AsyncListener], as far as this component uses it *)

Class AsyncListener (L : Type) := {
  listener_bind : bytes -> osM L;
  try_from_raw_fd : bytes -> Z -> osM L;
  as_raw_fd : L -> Z;
}.

#[export] Instance UnifyListener_AsyncListener `{AsyncIO} (resolve : bytes -> io_result (list SocketAddr)) :
    AsyncListener UnifyListener := {|
  listener_bind := UnifyListener_bind resolve;
  try_from_raw_fd := UnifyListener_try_from_raw_fd resolve;
  as_raw_fd := UnifyListener_as_raw_fd;
|}.

(** ** [GracefulServer] *)

Record GracefulServer := mkGraceful {
  g_run_dir : bytes;
  g_prog_name : bytes;
  g_listen_fds : list bytes;
  g_recovered : bool;
  g_recover_listen_fds : list Z;
  g_restart_timeout : Z;      (* milliseconds *)
  g_close_signals : list Z;
}.

Definition put_listen_fds (fds : list bytes) (g : GracefulServer) : GracefulServer :=
  mkGraceful (g_run_dir g) (g_prog_name g) fds (g_recovered g) (g_recover_listen_fds g)
    (g_restart_timeout g) (g_close_signals g).
Definition put_recover_fds (fds : list Z) (g : GracefulServer) : GracefulServer :=
  mkGraceful (g_run_dir g) (g_prog_name g) (g_listen_fds g) (g_recovered g) fds
    (g_restart_timeout g) (g_close_signals g).
Definition put_recovered (b : bool) (g : GracefulServer) : GracefulServer :=
  mkGraceful (g_run_dir g) (g_prog_name g) (g_listen_fds g) b (g_recover_listen_fds g)
    (g_restart_timeout g) (g_close_signals g).

Definition comma : byte := Byte.x2c.

(** [env] is the value of [_GRACEFUL_RESTART]; [None] is a panic. *)
Definition check_recover (env : option bytes) (g : GracefulServer) : option GracefulServer :=
  match env with
  | None => Some g
  | Some s =>
      if utf8_valid s then
        fds ← mapM parse_i32 (split_on comma s);
        Some (put_recovered true (put_recover_fds (g_recover_listen_fds g ++ fds) g))
      else None
  end.

Definition GracefulServer_new (env : option bytes) (run_dir prog_name : bytes) (restart_timeout : Z)
    (close_signals : list Z) : option GracefulServer :=
  check_recover env (mkGraceful run_dir prog_name [] false [] restart_timeout close_signals).

(** *** [new_listener] *)

Abbreviation gM A := (runM (GracefulServer * os) io_error A).

Definition on_os {A} (m : osM A) : gM A := fun s => let '(r, o) := m s.2 in (r, (s.1, o)).
Definition push_listen_fd (raw_fd : Z) : gM unit :=
  run_put (fun s => (put_listen_fds (g_listen_fds s.1 ++ [fmt_int raw_fd]) s.1, s.2)).

Section listener.
Context {L : Type} `{AsyncListener L}.

Definition bind_listener (addr : bytes) : gM L :=
  let* listener := on_os (listener_bind addr) in
  let raw_fd := as_raw_fd listener in
  let* _ := run_put (fun s => (s.1, clear_cloexec raw_fd s.2)) in
  let* _ := push_listen_fd raw_fd in
  run_ret listener.

Definition new_listener (addr : bytes) : gM L := fun s =>
  match g_recover_listen_fds s.1 with
  | raw_fd :: rest =>
      match on_os (try_from_raw_fd addr raw_fd) (put_recover_fds rest s.1, s.2) with
      | (Done (Ok listener), s) => (let* _ := push_listen_fd raw_fd in run_ret listener) s
      | (Done (Err _), s) => bind_listener addr s
      | (Waiting, s) => (Waiting, s)
      | (Panicked, s) => (Panicked, s)
      end
  | [] => bind_listener addr s
  end.

(** The program asks for its listeners, always in the same order. *)
Fixpoint new_listeners (addrs : list bytes) : gM (list L) :=
  match addrs with
  | [] => run_ret []
  | addr :: addrs =>
      let* l := new_listener addr in
      let* ls := new_listeners addrs in
      run_ret (l :: ls)
  end.
End listener.

(** ** The world of a restart *)

(** A process that was spawned, as it starts. *)
Record Child := mkChild {
  c_pid : Z;
  c_args : list bytes;
  c_env : bytes;            (* [_GRACEFUL_RESTART] *)
  c_os : os;
}.

Record world := mkWorld {
  w_os : os;                        (* as this process sees it *)
  w_text : gmap nat bytes;          (* the regular files, by inode *)
  w_now : Z;                        (* milliseconds *)
  w_next_pid : Z;
  w_spawned : list Child;
  w_exited : gset Z;                (* children that are gone *)
  w_closed : nat;                   (* calls of the exit closure *)
}.

Abbreviation wM A := (runM world io_error A).

Definition put_os (o : os) (w : world) : world :=
  mkWorld o (w_text w) (w_now w) (w_next_pid w) (w_spawned w) (w_exited w) (w_closed w).
Definition put_text (t : gmap nat bytes) (w : world) : world :=
  mkWorld (w_os w) t (w_now w) (w_next_pid w) (w_spawned w) (w_exited w) (w_closed w).

(** A call that the script of the system may make fail. *)
Definition wcall {A} (f : world -> io_result A * world) : wM A := fun w =>
  let o := w_os w in
  match os_faults o with
  | Some e :: faults => (Done (Err e), put_os (put_faults faults o) w)
  | _ => let '(r, w) := f (put_os (put_faults (tail (os_faults o)) o) w) in (Done r, w)
  end.

Definition on_os_w {A} (m : osM A) : wM A := fun w =>
  let '(r, o) := m (w_os w) in (r, put_os o w).

(** [OpenOptions::new().write(true).truncate(true).create(true).open(p)]; only
    a regular file opens. *)
Definition open_truncate (p : bytes) : wM nat := wcall (fun w =>
  let o := w_os w in
  match os_files o !! p with
  | Some inode =>
      match w_text w !! inode with
      | Some _ => (Ok inode, put_text (<[inode := []]> (w_text w)) w)
      | None => (Err OtherIO, w)
      end
  | None =>
      let inode := os_next_inode o in
      (Ok inode,
       put_text (<[inode := []]> (w_text w))
         (put_os (put_files (<[p := inode]> (os_files o)) (<[inode := 420%Z]> (os_modes o)) (S inode) o) w))
  end).

(** [f.write_all(bytes)] *)
Definition write_all_file (inode : nat) (bs : bytes) : wM unit := wcall (fun w =>
  (Ok (), put_text (<[inode := default [] (w_text w !! inode) ++ bs]> (w_text w)) w)).

(** [f.sync_data()] *)
Definition sync_data : wM unit := wcall (fun w => (Ok (), w)).

(** [File::open] *)
Definition file_open (p : bytes) : wM unit := wcall (fun w =>
  match os_files (w_os w) !! p with
  | Some inode => if bool_decide (is_Some (w_text w !! inode)) then (Ok (), w) else (Err OtherIO, w)
  | None => (Err OtherIO, w)
  end).

(** [Path::join] *)
Definition path_join (base p : bytes) : bytes :=
  if bool_decide (head p = Some slash) then p
  else if bool_decide (base = []) then p
  else if bool_decide (list.last base = Some slash) then base ++ p
  else base ++ [slash] ++ p.

Definition write_pid_file (p : bytes) (pid : Z) : wM unit :=
  let* f := open_truncate p in
  let* _ := write_all_file f (fmt_int pid) in
  let* _ := sync_data in
  run_ret ().

Definition pid_file_path (g : GracefulServer) : bytes :=
  path_join (g_run_dir g) (g_prog_name g ++ lit ".pid").

(** [{prog_name}_{pid}], by which a child tells its parent that it runs. *)
Definition child_pid_file_path (g : GracefulServer) (pid : Z) : bytes :=
  path_join (g_run_dir g) (g_prog_name g ++ lit "_" ++ fmt_int pid).

Definition write_child_pid_file (g : GracefulServer) (pid : Z) : wM unit :=
  write_pid_file (child_pid_file_path g pid) pid.

(** What an exec leaves of the descriptors: those without [FD_CLOEXEC], unknown
    to the reactor of the new program. *)
Definition fresh_descr (d : descriptor) : descriptor :=
  mkDescr (d_socket d) (d_nonblocking d) (d_cloexec d) None (d_shut d).

Definition os_exec (o : os) : os :=
  put_fds (fresh_descr <$> filter (fun p => d_cloexec p.2 = false) (os_fds o)) o.

Section restart.
Variable args_os : list bytes.
Variable set_fds_cloexec : Z -> list Z -> os -> os.
(** [thread::sleep(1s)], and what the others do meanwhile. *)
Variable sleep : world -> world.

(** [cmd.spawn()?] *)
Definition spawn_child (args : list bytes) (env : bytes) : wM Z := wcall (fun w =>
  let pid := w_next_pid w in
  let c := mkChild pid args env (os_exec (w_os w)) in
  (Ok pid, mkWorld (w_os w) (w_text w) (w_now w) (pid + 1) (w_spawned w ++ [c]) (w_exited w) (w_closed w))).

(** [child.try_wait()]: whether it is gone. *)
Definition try_wait (pid : Z) : wM bool := wcall (fun w => (Ok (bool_decide (pid ∈ w_exited w)), w)).

(** The loop that waits for the child: whether it reported in time. *)
Fixpoint wait_child (fuel : nat) (path : bytes) (start_ts restart_timeout : Z) : wM bool := fun w =>
  match fuel with
  | O => (Waiting, w)
  | S fuel =>
      if (w_now w - start_ts <=? restart_timeout)%Z then
        match file_open path w with
        | (Done (Ok _), w) => (Done (Ok true), (on_os_w (fs_remove_file path) w).2)
        | (_, w) => wait_child fuel path start_ts restart_timeout (sleep w)
        end
      else (Done (Ok false), w)
  end.

(** Enough turns when a sleep takes a second. *)
Definition wait_fuel (restart_timeout : Z) : nat := S (S (Z.to_nat (restart_timeout / 1000))).

(** The first half of [restart]: the child is spawned, with nothing but the
    listeners passed on. *)
Definition launch (g : GracefulServer) : wM Z :=
  let* _ := run_option (head args_os) in
  let* preserved_fds := run_option (mapM parse_i32 (g_listen_fds g)) in
  let listen_fds_str := join_with [comma] (g_listen_fds g) in
  let min_fd := 3%Z in
  let* _ := run_put (fun w => put_os (set_fds_cloexec min_fd (merge_sort Z.le preserved_fds) (w_os w)) w) in
  spawn_child args_os listen_fds_str.

Definition restart (g : GracefulServer) : wM unit :=
  let* child_pid := launch g in
  let* start_ts := run_get w_now in
  let* ready := wait_child (wait_fuel (g_restart_timeout g)) (child_pid_file_path g child_pid) start_ts
                  (g_restart_timeout g) in
  if ready : bool then run_ret ()
  else
    let* exited := try_wait child_pid in
    if exited : bool then run_err OtherIO else run_ret ().

(** The signals the process listens to. *)
Definition ready_signals (g : GracefulServer) (restart_signal : option Z) : list Z :=
  match restart_signal with
  | Some s => if bool_decide (s ∈ g_close_signals g) then g_close_signals g else g_close_signals g ++ [s]
  | None => g_close_signals g
  end.

(** [for signal in signals.forever()] over the signals that arrive. *)
Fixpoint signal_loop (g : GracefulServer) (restart_signal : option Z) (signals : list Z) : wM unit := fun w =>
  match signals with
  | [] => (Waiting, w)
  | signal :: signals =>
      if bool_decide (restart_signal = Some signal) then
        match restart g w with
        | (Done (Ok _), w) => (Done (Ok ()), w)
        | (Done (Err _), w) => signal_loop g restart_signal signals w
        | (r, w) => (r, w)
        end
      else (Done (Ok ()), w)
  end.

Definition exit_closure (w : world) : world :=
  mkWorld (w_os w) (w_text w) (w_now w) (w_next_pid w) (w_spawned w) (w_exited w) (S (w_closed w)).

(** [signals_new]: whether the signals can be handled ([Signals::new], which
    refuses some). *)
Definition ready (g : GracefulServer) (pid : Z) (signals_new : list Z -> bool) (arriving : list Z)
    (restart_signal : option Z) : wM unit :=
  let* _ := write_pid_file (pid_file_path g) pid in
  let* _ := (if g_recovered g
             then fun w => (Done (Ok ()), (write_child_pid_file g pid w).2)
             else run_ret ()) in
  let sigs := ready_signals g restart_signal in
  let* _ := (if signals_new sigs then run_ret () else run_panic) in
  let* _ := signal_loop g restart_signal (filter (fun s => s ∈ sigs) arriving) in
  let* _ := run_put exit_closure in
  run_ret ().
End restart.

(** ** What a listener promises *)

(** [adopts addr l]: the raw descriptor of [l] becomes [l] again, in a system
    without faults, and nothing but that descriptor changes. *)
Definition adopts {L} `{AsyncListener L} (addr : bytes) (l : L) : Prop :=
  forall o d, os_faults o = [] -> os_fds o !! as_raw_fd l = Some d ->
  exists i, try_from_raw_fd addr (as_raw_fd l) o
    = (Done (Ok l), put_fds (<[as_raw_fd l := registered_as i (nonblocking_descr d)]> (os_fds o)) o).

Class AsyncListenerLaws (L : Type) `{AsyncListener L} := {
  bind_frames m addr :
    triple (frames m) (listener_bind addr) (fun l => opened m (as_raw_fd l)) (frames m);
  recover_frames m addr fd d :
    m !! fd = None ->
    triple (frames (<[fd := d]> m)) (try_from_raw_fd addr fd)
      (fun l o => as_raw_fd l = fd /\ frames (<[fd := d]> m) o) (frames m);
  bind_adopts addr o l o' : listener_bind addr o = (Done (Ok l), o') -> adopts addr l;
  recover_adopts addr fd o l o' : try_from_raw_fd addr fd o = (Done (Ok l), o') -> adopts addr l;
}.

Section unify.
Context `{AsyncIOLaws} (resolve : bytes -> io_result (list SocketAddr)).

Lemma owning_ok {A} fd (c : osM A) o a o' : owning fd c o = (Done (Ok a), o') -> c o = (Done (Ok a), o').
Proof. unfold owning. by destruct (c o) as [[[x|e]| |] o1]. Qed.

Lemma run_bind_inv {S E A B} (c : runM S E A) (k : A -> runM S E B) s b s' :
  run_bind c k s = (Done (Ok b), s') -> exists a s1, c s = (Done (Ok a), s1) /\ k a s1 = (Done (Ok b), s').
Proof. unfold run_bind. destruct (c s) as [[[a|e]| |] s1]; naive_solver. Qed.

Lemma from_fd_evolving {A} fd (a : A) :
  evolving (let* _ := set_nonblocking fd in let* _ := to_async_fd_rd fd in run_ret a).
Proof.
  apply evolving_bind; [auto with rpc|]. intros []. apply evolving_bind; [apply to_rd_evolving|].
  intros []. auto with rpc.
Qed.

Lemma from_fd_frames m fd d (wrap : Z -> UnifyListener) :
  (forall fd, UnifyListener_as_raw_fd (wrap fd) = fd) -> m !! fd = None ->
  triple (frames (<[fd := d]> m))
    (owning fd (let* _ := set_nonblocking fd in let* _ := to_async_fd_rd fd in run_ret (wrap fd)))
    (fun l o => UnifyListener_as_raw_fd l = fd /\ frames (<[fd := d]> m) o) (frames m).
Proof.
  intros Hw Hfd o Ho. pose proof (owning_frames m fd d _ (from_fd_evolving fd (wrap fd)) Hfd o Ho) as Hs.
  destruct (owning fd _ o) as [[[l|e]| |] o'] eqn:E; try done. split; [|done].
  apply owning_ok, run_bind_inv in E as (a & o1 & _ & E).
  apply run_bind_inv in E as (b & o2 & _ & E). by injection E as <- _.
Qed.

Lemma from_fd_opened m fd (wrap : Z -> UnifyListener) :
  (forall fd, UnifyListener_as_raw_fd (wrap fd) = fd) ->
  triple (opened m fd)
    (owning fd (let* _ := set_nonblocking fd in let* _ := to_async_fd_rd fd in run_ret (wrap fd)))
    (fun l => opened m (UnifyListener_as_raw_fd l)) (frames m).
Proof.
  intros Hw o (Hfd & d & Ho). pose proof (from_fd_frames m fd d wrap Hw Hfd o Ho) as Hs.
  destruct (owning fd _ o) as [[[l|e]| |] o'] eqn:E; try done. destruct Hs as [Hl Hs].
  rewrite Hl. split; [done|]. by exists d.
Qed.

Lemma remove_stale_evolving path : evolving (remove_stale path).
Proof.
  intros o. unfold remove_stale. destruct (fs_exists path o); [apply fs_remove_file_evolving|].
  split; [done|]. simpl. lia.
Qed.

Lemma unify_bind_frames m addr :
  triple (frames m) (UnifyListener_bind resolve addr) (fun l => opened m (UnifyListener_as_raw_fd l)) (frames m).
Proof.
  unfold UnifyListener_bind. destruct (UnifyAddr_from_str resolve addr) as [[[a|p]|[]]|].
  - eapply triple_bind; [apply tcp_bind_frames|]. intros fd. by apply (from_fd_opened m fd LTcp).
  - eapply triple_bind; [apply evolving_frames, remove_stale_evolving|]. intros [].
    eapply triple_bind; [apply evolving_frames, remove_stale_evolving|]. intros [].
    eapply triple_bind; [apply unix_bind_frames|]. intros fd.
    apply (triple_bind _ _ (fun _ => opened m fd)); [|intros []; by apply (from_fd_opened m fd LUnix)].
    intros o (Hfd & d & Ho).
    assert (evolving (let* _ := fs_hard_link (path_dup p) p in fs_set_permissions p 438)) as Hev
      by (apply evolving_bind; [auto with rpc|intros []; auto with rpc]).
    pose proof (owning_frames m fd d _ Hev Hfd o Ho) as Hs.
    destruct (owning fd _ o) as [[[l|e]| |] o'] eqn:E; try done. split; [done|]. by exists d.
  - by apply triple_err.
  - by apply triple_panic.
Qed.

Lemma unify_recover_frames m addr fd d :
  m !! fd = None ->
  triple (frames (<[fd := d]> m)) (UnifyListener_try_from_raw_fd resolve addr fd)
    (fun l o => UnifyListener_as_raw_fd l = fd /\ frames (<[fd := d]> m) o) (frames m).
Proof.
  intros Hfd. unfold UnifyListener_try_from_raw_fd.
  destruct (UnifyAddr_from_str resolve addr) as [[[a|p]|[]]|].
  - by apply (from_fd_frames m fd d LTcp).
  - by apply (from_fd_frames m fd d LUnix).
  - apply triple_err. intros o. by apply frames_drop.
  - apply triple_panic. intros o. by apply frames_drop.
Qed.

(** The kind of a listener follows from the address alone. *)
Definition wraps (addr : bytes) (l : UnifyListener) : Prop :=
  match UnifyAddr_from_str resolve addr with
  | Some (Ok (USocket _)) => l = LTcp (UnifyListener_as_raw_fd l)
  | Some (Ok (UPath _)) => l = LUnix (UnifyListener_as_raw_fd l)
  | _ => False
  end.

Lemma from_fd_wraps {A} fd (a : A) o l o' :
  owning fd (let* _ := set_nonblocking fd in let* _ := to_async_fd_rd fd in run_ret a) o = (Done (Ok l), o') -> l = a.
Proof.
  intros E. apply owning_ok, run_bind_inv in E as (? & ? & _ & E). apply run_bind_inv in E as (? & ? & _ & E).
  by injection E as <- _.
Qed.

Lemma unify_bind_wraps addr o l o' : UnifyListener_bind resolve addr o = (Done (Ok l), o') -> wraps addr l.
Proof.
  unfold UnifyListener_bind, wraps. destruct (UnifyAddr_from_str resolve addr) as [[[a|p]|[]]|]; try done; intros E.
  - apply run_bind_inv in E as (fd & ? & _ & E). by apply from_fd_wraps in E as ->.
  - do 4 apply run_bind_inv in E as (? & ? & _ & E). by apply from_fd_wraps in E as ->.
Qed.

Lemma unify_recover_wraps addr fd o l o' :
  UnifyListener_try_from_raw_fd resolve addr fd o = (Done (Ok l), o') -> wraps addr l.
Proof.
  unfold UnifyListener_try_from_raw_fd, wraps.
  destruct (UnifyAddr_from_str resolve addr) as [[[a|p]|[]]|]; try done; intros E;
    by apply from_fd_wraps in E as ->.
Qed.

Lemma wraps_adopts addr l : wraps addr l -> @adopts _ (UnifyListener_AsyncListener resolve) addr l.
Proof.
  intros Hw o d Hf Hd. simpl in *. unfold UnifyListener_try_from_raw_fd, wraps in *.
  destruct (UnifyAddr_from_str resolve addr) as [[[a|p]|[]]|]; try done.
  - destruct (from_fd_ok LTcp (UnifyListener_as_raw_fd l) d o Hf Hd) as [i Hi]. exists i.
    rewrite Hw at 2. exact Hi.
  - destruct (from_fd_ok LUnix (UnifyListener_as_raw_fd l) d o Hf Hd) as [i Hi]. exists i.
    rewrite Hw at 2. exact Hi.
Qed.

#[export] Instance UnifyListener_Laws : @AsyncListenerLaws UnifyListener (UnifyListener_AsyncListener resolve).
Proof.
  split.
  - exact unify_bind_frames.
  - exact unify_recover_frames.
  - intros addr o l o' E. by eapply wraps_adopts, unify_bind_wraps.
  - intros addr fd o l o' E. apply wraps_adopts. exact (unify_recover_wraps addr fd o l o' E).
Qed.
End unify.

(** ** The listeners a process owns survive an exec *)

Definition inheritable (m : gmap Z descriptor) (fd : Z) : Prop :=
  exists d, m !! fd = Some d /\ d_cloexec d = false.

(** The process has the listeners [fds], in order, and those it may still
    recover; each is open and passes on. *)
Record inherits (m : gmap Z descriptor) (g : GracefulServer) (fds : list Z) (o : os) : Prop := {
  inh_text : g_listen_fds g = fmt_int <$> fds;
  inh_frames : frames m o;
  inh_nodup : NoDup (fds ++ g_recover_listen_fds g);
  inh_fds : Forall (inheritable m) (fds ++ g_recover_listen_fds g);
}.

Definition nocloexec (d : descriptor) : descriptor :=
  mkDescr (d_socket d) (d_nonblocking d) false (d_registered d) (d_shut d).

Lemma clear_cloexec_frames m fd d o :
  frames (<[fd := d]> m) o -> frames (<[fd := nocloexec d]> m) (clear_cloexec fd o).
Proof.
  intros [H1 H2 H3]. destruct (H1 fd d) as (d' & Hd' & Hs & _); [apply lookup_insert_eq|].
  unfold clear_cloexec. rewrite Hd'. split; simpl; [| |done].
  - intros fd' e He. destruct (decide (fd' = fd)) as [->|Hne].
    + rewrite lookup_insert_eq in He. injection He as <-. rewrite lookup_insert_eq. by eexists.
    + rewrite lookup_insert_ne in He by done. rewrite lookup_insert_ne by done. apply H1.
      by rewrite lookup_insert_ne.
  - intros fd' e He. destruct (decide (fd' = fd)) as [->|Hne].
    + apply (H2 fd d), lookup_insert_eq.
    + rewrite lookup_insert_ne in He by done. apply (H2 fd' e). by rewrite lookup_insert_ne.
Qed.

Section handover.
Context {L : Type} `{AsyncListenerLaws L}.

Lemma bind_listener_inherits m g fds o addr :
  inherits m g fds o ->
  match bind_listener addr (g, o) with
  | (Done (Ok l), (g', o')) =>
      adopts addr l /\ g_recover_listen_fds g' = g_recover_listen_fds g
      /\ exists m', inherits m' g' (fds ++ [as_raw_fd l]) o'
  | (_, (g', o')) => inherits m g' fds o'
  end.
Proof.
  intros [Ht Hf Hnd Hfds]. pose proof (bind_frames m addr o Hf) as Hb.
  unfold bind_listener, run_bind, on_os, run_put, push_listen_fd, run_ret; simpl.
  destruct (listener_bind addr o) as [[[l|e]| |] o'] eqn:E; try by split.
  split; [by eapply bind_adopts|]. split; [done|]. destruct Hb as (Hfresh & d & Hd).
  exists (<[as_raw_fd l := nocloexec d]> m).
  assert (as_raw_fd l ∉ fds ++ g_recover_listen_fds g) as Hnew.
  { intros Hin. rewrite list.Forall_forall in Hfds. destruct (Hfds _ Hin) as (d' & Hd' & _). simplify_eq. }
  assert (fds ++ as_raw_fd l :: g_recover_listen_fds g ≡ₚ as_raw_fd l :: fds ++ g_recover_listen_fds g) as Hp
    by (by rewrite Permutation_middle).
  split; simpl.
  - by rewrite Ht, fmap_app.
  - by apply clear_cloexec_frames.
  - rewrite <- app_assoc. simpl. rewrite Hp. by apply list.NoDup_cons.
  - rewrite <- app_assoc. simpl. rewrite Hp. apply list.Forall_cons. split.
    + eexists. by rewrite lookup_insert_eq.
    + apply list.Forall_forall. intros fd Hin. rewrite list.Forall_forall in Hfds.
      destruct (Hfds fd Hin) as (e & He & Hc). exists e. by rewrite lookup_insert_ne by (intros <-; done).
Qed.

Lemma inherits_drop m g fds fd rest o :
  inherits m g fds o -> g_recover_listen_fds g = fd :: rest ->
  exists d, m = <[fd := d]> (delete fd m) /\ delete fd m !! fd = None
    /\ forall o', frames (delete fd m) o' -> inherits (delete fd m) (put_recover_fds rest g) fds o'.
Proof.
  intros [Ht Hf Hnd Hfds] Hrec. rewrite Hrec in *. rewrite <- Permutation_middle in Hnd, Hfds.
  apply list.NoDup_cons in Hnd as [Hfd Hnd]. apply list.Forall_cons in Hfds as [(d & Hd & _) Hfds].
  exists d. rewrite insert_delete_id by done. split; [done|]. split; [apply lookup_delete_eq|].
  intros o' Ho'. split; [done|done|done|]. simpl. apply list.Forall_forall. intros fd' Hin.
  rewrite list.Forall_forall in Hfds. destruct (Hfds fd' Hin) as (e & He & Hc). exists e.
  by rewrite lookup_delete_ne by (intros <-; done).
Qed.

Lemma new_listener_inherits m g fds o addr :
  inherits m g fds o ->
  match new_listener addr (g, o) with
  | (Done (Ok l), (g', o')) =>
      adopts addr l /\ g_recover_listen_fds g' = tail (g_recover_listen_fds g)
      /\ exists m', inherits m' g' (fds ++ [as_raw_fd l]) o'
  | (_, (g', o')) => exists m', inherits m' g' fds o'
  end.
Proof.
  intros Hi. unfold new_listener. simpl. destruct (g_recover_listen_fds g) as [|fd rest] eqn:Hrec.
  - pose proof (bind_listener_inherits m g fds o addr Hi) as Hb. rewrite Hrec in Hb.
    destruct (bind_listener addr (g, o)) as [[[l|e]| |] [g' o']]; eauto.
  - destruct (inherits_drop _ _ _ _ _ _ Hi Hrec) as (d & Hm & Hnone & Hdrop).
    assert (frames (<[fd := d]> (delete fd m)) o) as Hfr by (rewrite <- Hm; apply Hi).
    pose proof (recover_frames (delete fd m) addr fd d Hnone o Hfr) as Hs. unfold on_os; simpl.
    destruct (try_from_raw_fd addr fd o) as [[[l|e]| |] o'] eqn:E.
    + destruct Hs as [Hl Hs]. simpl. split; [by eapply recover_adopts|]. split; [done|]. exists m.
      destruct Hi as [Ht _ Hnd Hfds]. rewrite Hrec in *. split; simpl.
      * by rewrite Ht, fmap_app, Hl.
      * by rewrite Hm.
      * by rewrite <- app_assoc, Hl.
      * by rewrite <- app_assoc, Hl.
    + pose proof (bind_listener_inherits _ (put_recover_fds rest g) fds o' addr (Hdrop _ Hs)) as Hb. simpl in Hb.
      destruct (bind_listener addr (put_recover_fds rest g, o')) as [[[l|e']| |] [g' o'']]; eauto.
    + by eauto.
    + by eauto.
Qed.

Lemma new_listeners_inherits addrs m g fds o ls g' o' :
  inherits m g fds o -> new_listeners addrs (g, o) = (Done (Ok ls), (g', o')) ->
  Forall2 adopts addrs ls /\ g_recover_listen_fds g' = drop (length addrs) (g_recover_listen_fds g)
  /\ exists m', inherits m' g' (fds ++ (as_raw_fd <$> ls)) o'.
Proof.
  revert m g fds o ls g' o'. induction addrs as [|addr addrs IH]; intros m g fds o ls g' o' Hi E.
  - injection E as <- <- <-. rewrite fmap_nil, app_nil_r. by eauto.
  - cbn [new_listeners] in E. apply run_bind_inv in E as (l & [g1 o1] & E1 & E).
    apply run_bind_inv in E as (ls' & [g2 o2] & E2 & E). injection E as <- <- <-.
    pose proof (new_listener_inherits m g fds o addr Hi) as Hn. rewrite E1 in Hn.
    destruct Hn as (Ha & Hr & m1 & Hi1). destruct (IH _ _ _ _ _ _ _ Hi1 E2) as (Has & Hr2 & m2 & Hi2).
    split; [by constructor|]. split; [rewrite Hr2, Hr; destruct (g_recover_listen_fds g); [simpl; apply drop_nil|done]|].
    exists m2. by rewrite fmap_cons, cons_middle, app_assoc.
Qed.

(** *** What the child is told *)

Lemma digit_ascii c : is_digit 10 c = true -> in_range 0 127 c = true.
Proof. destruct c; vm_compute; done. Qed.

Lemma fmt_nat_ascii n : (0 <= n)%Z -> Forall (fun c => in_range 0 127 c = true) (fmt_int n).
Proof.
  intros Hn. rewrite fmt_int_digits by done. eapply list.Forall_impl; [by apply digit_text_digits|].
  apply digit_ascii.
Qed.

Lemma join_ascii pieces :
  Forall (Forall (fun c => in_range 0 127 c = true)) pieces ->
  Forall (fun c => in_range 0 127 c = true) (join_with [comma] pieces).
Proof.
  induction 1 as [|piece pieces Hp Hps IH]; [constructor|]. destruct pieces as [|q pieces]; [done|].
  cbn [join_with]. apply Forall_app. split; [done|]. apply Forall_app. split; [by repeat constructor|done].
Qed.

(** The text names the descriptors, in order. *)
Lemma check_recover_join g fds :
  fds <> [] -> Forall (fun fd => (0 <= fd < 2 ^ 31)%Z) fds ->
  check_recover (Some (join_with [comma] (fmt_int <$> fds))) g
  = Some (put_recovered true (put_recover_fds (g_recover_listen_fds g ++ fds) g)).
Proof.
  intros Hne Hfds. unfold check_recover. rewrite ascii_utf8.
  2:{ apply forallb_forall. intros c Hc. apply list_elem_of_In in Hc. revert c Hc. apply list.Forall_forall.
      apply join_ascii, Forall_fmap. eapply list.Forall_impl; [exact Hfds|].
      intros fd [Hfd _]. by apply fmt_nat_ascii. }
  rewrite split_join.
  - assert (mapM parse_i32 (fmt_int <$> fds) = Some fds) as ->; [|done].
    apply mapM_Some_2, Forall2_fmap_l. apply Forall_Forall2_diag.
    eapply list.Forall_impl; [exact Hfds|]. intros fd [Hfd1 Hfd2]. apply parse_i32_fmt. unfold in_i32. by zcases.
  - by destruct fds.
  - apply Forall_fmap. eapply list.Forall_impl; [exact Hfds|]. intros fd [Hfd _]. simpl.
    rewrite fmt_int_digits by lia. apply digit_text_no; [lia|lia|done].
Qed.

(** *** What the child finds *)

Definition adopted_descr (d d' : descriptor) : Prop :=
  d' = d \/ exists i, d' = registered_as i (nonblocking_descr d).

Definition adopted (m m' : gmap Z descriptor) : Prop :=
  forall fd d, m !! fd = Some d -> exists d', m' !! fd = Some d' /\ adopted_descr d d'.

#[local] Instance adopted_preorder : PreOrder adopted.
Proof.
  split; [intros m fd d Hd; exists d; split; [done|by left]|]. intros m1 m2 m3 H1 H2 fd d Hd.
  destruct (H1 _ _ Hd) as (d2 & Hd2 & Ha2). destruct (H2 _ _ Hd2) as (d3 & Hd3 & Ha3).
  exists d3. split; [done|]. destruct Ha2 as [->|[i ->]]; [done|]. right. destruct Ha3 as [->|[j ->]]; by eexists.
Qed.

Lemma adopt_insert (m : gmap Z descriptor) fd d i :
  m !! fd = Some d -> adopted m (<[fd := registered_as i (nonblocking_descr d)]> m).
Proof.
  intros Hd fd' e He. destruct (decide (fd' = fd)) as [->|].
  - rewrite lookup_insert_eq. simplify_eq. eexists. split; [done|]. right. by eexists.
  - rewrite lookup_insert_ne by done. exists e. split; [done|]. by left.
Qed.

Definition live (m : gmap Z descriptor) (fd : Z) : Prop :=
  exists d i, m !! fd = Some d /\ d_registered d = Some i /\ d_nonblocking d = true.

Lemma adopted_live m m' fd : adopted m m' -> live m fd -> live m' fd.
Proof.
  intros Ha (d & i & Hd & Hr & Hn). destruct (Ha fd d Hd) as (d' & Hd' & [->|[j ->]]); by repeat eexists.
Qed.

(** With its descriptors at hand, the child gets the listeners themselves. *)
Lemma recover_listeners addrs ls g o :
  Forall2 adopts addrs ls -> g_recover_listen_fds g = as_raw_fd <$> ls -> os_faults o = [] ->
  Forall (fun l => is_Some (os_fds o !! as_raw_fd l)) ls ->
  exists m', new_listeners addrs (g, o)
    = (Done (Ok ls),
       (put_recover_fds [] (put_listen_fds (g_listen_fds g ++ (fmt_int ∘ as_raw_fd <$> ls)) g), put_fds m' o))
    /\ adopted (os_fds o) m' /\ Forall (fun l => live m' (as_raw_fd l)) ls.
Proof.
  intros Ha. revert g o. induction Ha as [|addr l addrs ls Hl Ha IH]; intros g o Hrec Hf Hopen.
  - exists (os_fds o). split; [|split; [done|constructor]]. destruct g, o; simpl in *. subst. by rewrite app_nil_r.
  - apply list.Forall_cons in Hopen as [[d Hd] Hopen]. destruct (Hl o d Hf Hd) as [i Hi].
    set (m1 := <[as_raw_fd l := registered_as i (nonblocking_descr d)]> (os_fds o)) in *.
    pose proof (adopt_insert (os_fds o) (as_raw_fd l) d i Hd) as Had. fold m1 in Had.
    set (g1 := put_listen_fds (g_listen_fds g ++ [fmt_int (as_raw_fd l)])
      (put_recover_fds (as_raw_fd <$> ls) g)).
    assert (new_listener addr (g, o) = (Done (Ok l), (g1, put_fds m1 o))) as Hnew.
    { unfold new_listener. simpl. rewrite Hrec. simpl. unfold on_os; simpl. by rewrite Hi. }
    destruct (IH g1 (put_fds m1 o)) as (m' & Hrun & Had' & Hlive); [done|done| |].
    { eapply list.Forall_impl; [exact Hopen|]. intros l' [e He]. destruct (Had _ _ He) as (e' & He' & _).
      by exists e'. }
    simpl in Had'. exists m'. split; [|split; [by transitivity m1|]].
    + cbn [new_listeners]. erewrite run_bind_ok by exact Hnew. erewrite run_bind_ok by exact Hrun.
      unfold run_ret. simpl. by rewrite <- app_assoc.
    + constructor; [|done]. eapply adopted_live; [exact Had'|]. unfold m1. eexists _, i.
      by rewrite lookup_insert_eq.
Qed.

(** ** The hand-over *)

Definition cloexec (d : descriptor) : descriptor :=
  mkDescr (d_socket d) (d_nonblocking d) true (d_registered d) (d_shut d).

(** What close_fds documents of [set_fds_cloexec(min_fd, keep)]: every open
    descriptor from [min_fd] on gets [FD_CLOEXEC], but for those of [keep],
    which must be sorted. *)
Definition marks_cloexec (set_fds_cloexec : Z -> list Z -> os -> os) : Prop :=
  forall min keep o, Sorted Z.le keep ->
  exists m, set_fds_cloexec min keep o = put_fds m o
    /\ forall fd, m !! fd = (fun d => if bool_decide (fd < min \/ fd ∈ keep)%Z then d else cloexec d) <$> os_fds o !! fd.

(** The process listens at [addrs] with [ls], and can pass them on. *)
Definition serves (addrs : list bytes) (ls : list L) (g : GracefulServer) (o : os) : Prop :=
  Forall2 adopts addrs ls /\ g_recover_listen_fds g = [] /\ exists m, inherits m g (as_raw_fd <$> ls) o.

Lemma serves_evolves addrs ls g o o' :
  serves addrs ls g o -> evolves (os_fds o) (os_fds o') -> (os_next_fd o <= os_next_fd o')%Z ->
  serves addrs ls g o'.
Proof.
  intros (Ha & Hr & m & [H1 H2 H3 H4]) He Hn. split; [done|]. split; [done|]. exists m.
  split; [done| |done|done]. by eapply frames_fds.
Qed.

Lemma serves_fresh addrs ls run_dir prog_name timeout sigs g0 g o o' :
  (0 <= os_next_fd o)%Z -> GracefulServer_new None run_dir prog_name timeout sigs = Some g0 ->
  new_listeners addrs (g0, o) = (Done (Ok ls), (g, o')) -> serves addrs ls g o'.
Proof.
  intros Ho Hnew Hrun. injection Hnew as <-.
  destruct (new_listeners_inherits addrs ∅ (mkGraceful run_dir prog_name [] false [] timeout sigs) [] o ls g o')
    as (H1 & H2 & H3); [|exact Hrun|].
  - split; [done| |constructor|constructor]. split; [intros fd d Hd; by rewrite lookup_empty in Hd|apply map_Forall_empty|done].
  - split; [exact H1|]. split; [|exact H3]. rewrite H2. apply drop_nil.
Qed.

(** The descriptors that are passed on, with their sockets. *)
Lemma exec_lookup set_fds_cloexec min keep o fd d :
  marks_cloexec set_fds_cloexec -> Sorted Z.le keep ->
  os_fds (os_exec (set_fds_cloexec min keep o)) !! fd = Some d <->
  exists e, os_fds o !! fd = Some e /\ d = fresh_descr e /\ d_cloexec e = false /\ (fd < min \/ fd ∈ keep)%Z.
Proof.
  intros Hm Hs. destruct (Hm min keep o Hs) as (m & -> & Hl). simpl. rewrite lookup_fmap, fmap_Some.
  setoid_rewrite map_lookup_filter_Some. setoid_rewrite Hl. setoid_rewrite fmap_Some. simpl. split.
  - intros (e & [(e' & He' & ->) Hc] & ->). case_bool_decide; [|done]. by exists e'.
  - intros (e & He & -> & Hc & Hk). exists e. split; [|done]. split; [|done]. exists e. split; [done|].
    by rewrite bool_decide_eq_true_2.
Qed.

Section generations.
Variable args_os : list bytes.
Variable set_fds_cloexec : Z -> list Z -> os -> os.
Hypothesis cloexec_marked : marks_cloexec set_fds_cloexec.

Lemma serves_range addrs ls g o :
  serves addrs ls g o -> (os_next_fd o <= 2 ^ 31)%Z ->
  Forall (fun fd => (0 <= fd < 2 ^ 31)%Z) (as_raw_fd <$> ls).
Proof.
  intros (_ & _ & m & [_ Hf _ Hfds]) Hn. apply Forall_app in Hfds as [Hfds _].
  eapply list.Forall_impl; [exact Hfds|]. intros fd (d & Hd & _). apply (frames_next _ _ Hf) in Hd. lia.
Qed.

(** Parsing what [listen_fds] holds cannot fail. *)
Lemma serves_parse addrs ls g o :
  serves addrs ls g o -> (os_next_fd o <= 2 ^ 31)%Z -> mapM parse_i32 (g_listen_fds g) = Some (as_raw_fd <$> ls).
Proof.
  intros Hs Hn. pose proof (serves_range _ _ _ _ Hs Hn) as Hfds. destruct Hs as (_ & _ & m & [Ht _ _ _]).
  rewrite Ht. apply mapM_Some_2, Forall2_fmap_l, Forall_Forall2_diag.
  eapply list.Forall_impl; [exact Hfds|]. intros fd [H1 H2]. apply parse_i32_fmt. unfold in_i32. by zcases.
Qed.

(** The child of a process that serves: its environment and its descriptors. *)
Definition child_for (ls : list L) (w : world) : Child :=
  mkChild (w_next_pid w) args_os (join_with [comma] (fmt_int <$> (as_raw_fd <$> ls)))
    (os_exec (put_faults (tail (os_faults (w_os w)))
       (set_fds_cloexec 3 (merge_sort Z.le (as_raw_fd <$> ls)) (w_os w)))).

Lemma sorted_fds ls : Sorted Z.le (merge_sort Z.le (as_raw_fd <$> ls : list Z)).
Proof. apply Sorted_merge_sort. intros x y. unfold relation. lia. Qed.

Lemma launch_serves addrs ls g w :
  serves addrs ls g (w_os w) -> (os_next_fd (w_os w) <= 2 ^ 31)%Z -> args_os <> [] ->
  match launch args_os set_fds_cloexec g w with
  | (Done (Ok pid), w') => pid = w_next_pid w /\ w_spawned w' = w_spawned w ++ [child_for ls w]
  | (Done (Err e), w') => (exists l, os_faults (w_os w) = Some e :: l) /\ w_spawned w' = w_spawned w
  | _ => False
  end.
Proof.
  intros Hs Hn Hargs. pose proof (serves_parse _ _ _ _ Hs Hn) as Hparse. destruct Hs as (_ & _ & m & [Ht _ _ _]).
  assert (exists a0, head args_os = Some a0) as [a0 Ha0] by (destruct args_os; by eauto).
  unfold launch. rewrite Ha0. erewrite run_bind_ok by done.
  rewrite Hparse. erewrite run_bind_ok by done. rewrite run_bind_put. rewrite Ht.
  destruct (cloexec_marked 3%Z _ (w_os w) (sorted_fds ls)) as (fds & Hclo & _).
  unfold spawn_child, wcall, child_for. rewrite Hclo. simpl.
  destruct (os_faults (w_os w)) as [|[e|] l]; simpl; by eauto.
Qed.

(** The child starts with the listeners to recover. *)
Lemma child_inherits addrs ls g w run_dir prog_name timeout sigs :
  serves addrs ls g (w_os w) -> (os_next_fd (w_os w) <= 2 ^ 31)%Z -> ls <> [] ->
  exists g' m, GracefulServer_new (Some (c_env (child_for ls w))) run_dir prog_name timeout sigs = Some g'
    /\ g_recovered g' = true /\ g_listen_fds g' = [] /\ g_recover_listen_fds g' = as_raw_fd <$> ls
    /\ inherits m g' [] (c_os (child_for ls w)).
Proof.
  intros Hs Hn Hls. pose proof (serves_range _ _ _ _ Hs Hn) as Hfds. destruct Hs as (_ & Hr & m & [Ht Hf Hnd Hi]).
  rewrite Hr, app_nil_r in *. unfold GracefulServer_new. cbn [c_env child_for].
  rewrite check_recover_join; [|by destruct ls|done]. eexists _, (filter (fun p => p.1 ∈ (as_raw_fd <$> ls)) m).
  split; [done|]. do 3 (split; [done|]). split; simpl; [done| |done|].
  - assert (forall fd d, filter (fun p => p.1 ∈ (as_raw_fd <$> ls)) m !! fd = Some d -> m !! fd = Some d
      /\ fd ∈ (as_raw_fd <$> ls)) as Hm by (intros fd d Hd; by apply map_lookup_filter_Some in Hd).
    destruct (cloexec_marked 3%Z _ (w_os w) (sorted_fds ls)) as (fds & Hclo & _).
    split; simpl.
    + intros fd d Hd. destruct (Hm fd d Hd) as [Hd' Hin]. rewrite list.Forall_forall in Hi.
      destruct (Hi fd Hin) as (d0 & Hd0 & Hc). simplify_eq.
      destruct (frames_evolve _ _ Hf fd d Hd') as (e & He & Hse & Hce). exists (fresh_descr e).
      split; [|by auto]. change (os_fds (os_exec (set_fds_cloexec 3 (merge_sort Z.le (as_raw_fd <$> ls)) (w_os w))) !! fd
        = Some (fresh_descr e)). apply exec_lookup; [done|apply sorted_fds|]. exists e.
      split; [done|]. split; [done|]. split; [by auto|]. right. by rewrite merge_sort_Permutation.
    + intros fd d Hd. destruct (Hm fd d Hd) as [Hd' _]. rewrite Hclo. simpl. by apply (frames_next _ _ Hf) in Hd'.
    + rewrite Hclo. simpl. apply (frames_pos _ _ Hf).
  - apply list.Forall_forall. intros fd Hin. rewrite list.Forall_forall in Hi.
    destruct (Hi fd Hin) as (d & Hd & Hc). exists d. split; [|done]. by apply map_lookup_filter_Some.
Qed.

(** A process and its descendants by restart: one that was started without
    [_GRACEFUL_RESTART], a while later, or in the next program; the fds are
    machine integers. *)
Inductive generation (addrs : list bytes) : list L -> GracefulServer -> os -> Prop :=
| gen_first run_dir prog_name timeout sigs g0 g o ls o' :
    (0 <= os_next_fd o)%Z -> GracefulServer_new None run_dir prog_name timeout sigs = Some g0 ->
    new_listeners addrs (g0, o) = (Done (Ok ls), (g, o')) -> generation addrs ls g o'
| gen_later ls g o o' :
    generation addrs ls g o -> evolves (os_fds o) (os_fds o') -> (os_next_fd o <= os_next_fd o')%Z ->
    generation addrs ls g o'
| gen_restarted ls g w pid w' c run_dir prog_name timeout sigs g0 ls' g' o' :
    generation addrs ls g (w_os w) -> (os_next_fd (w_os w) <= 2 ^ 31)%Z -> args_os <> [] ->
    launch args_os set_fds_cloexec g w = (Done (Ok pid), w') -> w_spawned w' = w_spawned w ++ [c] ->
    GracefulServer_new (Some (c_env c)) run_dir prog_name timeout sigs = Some g0 ->
    new_listeners addrs (g0, c_os c) = (Done (Ok ls'), (g', o')) -> generation addrs ls' g' o'.

Lemma generation_serves addrs ls g o : generation addrs ls g o -> serves addrs ls g o.
Proof.
  induction 1 as [run_dir prog_name timeout sigs g0 g o ls o' Ho Hnew Hrun|ls g o o' _ IH He Hn
    |ls g w pid w' c run_dir prog_name timeout sigs g0 ls' g' o' _ IH Hn Hargs Hl Hsp Hnew Hrun].
  - by eapply serves_fresh.
  - by eapply serves_evolves.
  - pose proof (launch_serves _ _ _ _ IH Hn Hargs) as Hla. rewrite Hl in Hla. destruct Hla as [-> Hsp'].
    rewrite Hsp' in Hsp. apply app_inj_tail in Hsp as [_ <-].
    assert (ls <> []) as Hls by (intros ->; done).
    destruct (child_inherits _ _ _ _ run_dir prog_name timeout sigs IH Hn Hls)
      as (g1 & m & Hnew' & _ & _ & Hrec & Hinh).
    rewrite Hnew' in Hnew. injection Hnew as ->.
    destruct (new_listeners_inherits _ _ _ _ _ _ _ _ Hinh Hrun) as (Had & Hrec' & m' & Hinh').
    split; [done|]. split; [|by exists m']. rewrite Hrec', Hrec. destruct IH as (Had0 & _).
    apply Forall2_length in Had0. apply nil_length_inv. rewrite length_drop, length_fmap. lia.
Qed.

(** C16: A restart hands over every listener and no other descriptor.  Take any
    process of any generation, started afresh or by earlier restarts (some
    listeners recovered, some bound again), with at least one listener: the
    program it spawns is told the listeners' descriptors in order, starts with
    none open from 3 on but these, and asking for the same addresses in the
    same order it gets the same listeners, on the same sockets, with the
    connections that wait on them, registered with its own runtime, without
    binding or touching a file.  The child is itself a generation that can
    restart. *)
Theorem restart_hands_over (addrs : list bytes) (ls : list L) (g : GracefulServer) (w : world)
    (run_dir prog_name : bytes) (timeout : Z) (sigs : list Z)
    (Hgen : generation addrs ls g (w_os w)) (Hls : ls <> []) (Hargs : args_os <> [])
    (Hfd : (os_next_fd (w_os w) <= 2 ^ 31)%Z) (Hf : os_faults (w_os w) = []) :
  exists c w' g' g'' o',
    launch args_os set_fds_cloexec g w = (Done (Ok (c_pid c)), w') /\ w_spawned w' = w_spawned w ++ [c]
    /\ (forall fd, (3 <= fd)%Z -> is_Some (os_fds (c_os c) !! fd) -> fd ∈ as_raw_fd <$> ls)
    /\ GracefulServer_new (Some (c_env c)) run_dir prog_name timeout sigs = Some g'
    /\ g_recovered g' = true /\ g_recover_listen_fds g' = as_raw_fd <$> ls
    /\ new_listeners addrs (g', c_os c) = (Done (Ok ls), (g'', o'))
    /\ g_listen_fds g'' = g_listen_fds g
    /\ Forall (fun l => live (os_fds o') (as_raw_fd l)
                 /\ sock_local_addr (as_raw_fd l) o' = sock_local_addr (as_raw_fd l) (w_os w)) ls
    /\ os_backlog o' = os_backlog (w_os w) /\ os_files o' = os_files (w_os w)
    /\ generation addrs ls g'' o'.
Proof.
  pose proof (generation_serves _ _ _ _ Hgen) as Hs.
  pose proof (launch_serves _ _ _ _ Hs Hfd Hargs) as Hla.
  destruct (launch args_os set_fds_cloexec g w) as [[[pid|e]| |] w'] eqn:El; try done;
    [|destruct Hla as [[l Hl] _]; congruence].
  destruct Hla as [-> Hsp]. set (c := child_for ls w) in *.
  destruct (child_inherits _ _ _ _ run_dir prog_name timeout sigs Hs Hfd Hls)
    as (g' & m & Hnew & Hrecd & Hlis & Hrec & Hinh). fold c in Hnew, Hinh.
  destruct (cloexec_marked 3%Z _ (w_os w) (sorted_fds ls)) as (fds & Hclo & _).
  assert (os_fds (c_os c) = os_fds (os_exec (set_fds_cloexec 3 (merge_sort Z.le (as_raw_fd <$> ls)) (w_os w))))
    as Hcfds by done.
  pose proof Hs as (Had & _ & mp & [Ht Hfr _ Hi]). apply Forall_app in Hi as [Hi _].
  assert (forall l, l ∈ ls -> exists d, os_fds (w_os w) !! as_raw_fd l = Some d
    /\ os_fds (c_os c) !! as_raw_fd l = Some (fresh_descr d)) as Hopen.
  { intros l Hin. assert (as_raw_fd l ∈ as_raw_fd <$> ls) as Hin' by (apply list_elem_of_fmap; eauto).
    rewrite list.Forall_forall in Hi. destruct (Hi _ Hin') as (d0 & Hd0 & Hc0).
    destruct (frames_evolve _ _ Hfr _ _ Hd0) as (d & Hd & _ & Hc). exists d. split; [done|]. rewrite Hcfds.
    apply exec_lookup; [done|apply sorted_fds|]. exists d. split; [done|]. split; [done|]. split; [by auto|].
    right. by rewrite merge_sort_Permutation. }
  destruct (recover_listeners addrs ls g' (c_os c)) as (m' & Hrun & Hadp & Hlive); [done|done| | |].
  { simpl. rewrite Hf. done. }
  { apply list.Forall_forall. intros l Hin. destruct (Hopen l Hin) as (d & _ & Hd). by eauto. }
  eexists c, w', g', _, _. split; [done|]. split; [done|]. split.
  { intros fd Hfd3 [d Hd]. rewrite Hcfds in Hd. apply exec_lookup in Hd as (e & _ & _ & _ & [?|Hk]);
      [lia| |done|apply sorted_fds]. by rewrite merge_sort_Permutation in Hk. }
  split; [done|]. split; [done|]. split; [done|]. split; [exact Hrun|]. split.
  { simpl. rewrite Hlis, Ht. simpl. by rewrite <- list_fmap_compose. }
  split.
  { apply list.Forall_forall. intros l Hin. split; [by rewrite list.Forall_forall in Hlive; apply Hlive|].
    destruct (Hopen l Hin) as (d & Hd & Hd'). unfold sock_local_addr. rewrite Hd. simpl.
    destruct (Hadp _ _ Hd') as (d'' & -> & [->|[i ->]]); done. }
  split; [simpl; by rewrite Hclo|]. split; [simpl; by rewrite Hclo|].
  by eapply (gen_restarted addrs ls g w).
Qed.
End generations.
End handover.

(** ** The parent's side: waiting, signals, exit *)

Section waiting.
Variable args_os : list bytes.
Variable set_fds_cloexec : Z -> list Z -> os -> os.
Variable sleep : world -> world.
(** [thread::sleep(Duration::from_secs(1))] takes a second or more, and nobody
    else runs this process's exit closure. *)
Hypothesis sleep_time : forall w, (w_now w + 1000 <= w_now (sleep w))%Z.
Hypothesis sleep_closed : forall w, w_closed (sleep w) = w_closed w.

(** A call changes neither the clock nor the count of closures. *)
Definition quiet {A} (m : wM A) : Prop := forall w,
  match m w with
  | (Done _, w') => w_now w' = w_now w /\ w_closed w' = w_closed w
  | _ => False
  end.

Lemma quiet_wcall {A} (f : world -> io_result A * world) :
  (forall w, w_now (f w).2 = w_now w /\ w_closed (f w).2 = w_closed w) -> quiet (wcall f).
Proof.
  intros Hf w. unfold wcall. destruct (os_faults (w_os w)) as [|[e|] l]; [|done|].
  - specialize (Hf (put_os (put_faults [] (w_os w)) w)). by destruct (f _).
  - specialize (Hf (put_os (put_faults l (w_os w)) w)). by destruct (f _).
Qed.

Lemma quiet_bind {A B} (m : wM A) (k : A -> wM B) : quiet m -> (forall a, quiet (k a)) -> quiet (run_bind m k).
Proof.
  intros Hm Hk w. specialize (Hm w). unfold run_bind. destruct (m w) as [[[a|e]| |] w1]; try done.
  specialize (Hk a w1). destruct (k a w1) as [[r| |] w2]; try done. by destruct Hm as [<- <-].
Qed.

Lemma quiet_ret {A} (a : A) : quiet (run_ret a).
Proof. done. Qed.

Lemma file_open_quiet p : quiet (file_open p).
Proof. apply quiet_wcall. intros w. by repeat case_match. Qed.

Lemma remove_quiet p : quiet (on_os_w (fs_remove_file p)).
Proof.
  intros w. unfold on_os_w, fs_remove_file, call. destruct (os_faults (w_os w)) as [|[e|] l]; try done.
  all: by destruct (os_files _ !! p).
Qed.

Lemma write_pid_file_quiet p pid : quiet (write_pid_file p pid).
Proof.
  apply quiet_bind; [apply quiet_wcall; intros w; cbv zeta; by repeat case_match|]. intros f.
  apply quiet_bind; [by apply quiet_wcall|]. intros []. apply quiet_bind; [by apply quiet_wcall|]. intros [].
  apply quiet_ret.
Qed.

(** The world in which the child's file is found. *)
Definition reported (path : bytes) (w : world) : Prop :=
  exists inode, os_files (w_os w) !! path = Some inode /\ is_Some (w_text w !! inode).

Lemma file_open_reported path w a w' :
  file_open path w = (Done (Ok a), w') -> reported path w' /\ w_now w' = w_now w /\ w_closed w' = w_closed w.
Proof.
  intros E. pose proof (file_open_quiet path w) as Hq. rewrite E in Hq. split; [|done].
  unfold file_open, wcall in E. unfold reported.
  destruct (os_faults (w_os w)) as [|[e|] l]; simpl in E; try done;
    destruct (os_files (w_os w) !! path) as [i|] eqn:Ei; simplify_eq;
    case_bool_decide; simplify_eq; by exists i.
Qed.

(** The loop ends: the child reported within the time, and its file was
    removed (or the removal failed, which does not matter); or time is up. *)
Lemma wait_child_ends path start timeout fuel w :
  (1 <= Z.of_nat fuel)%Z -> ((start + timeout - w_now w) / 1000 + 1 < Z.of_nat fuel)%Z ->
  match wait_child sleep fuel path start timeout w with
  | (Done (Ok true), w') =>
      w_closed w' = w_closed w
      /\ exists w1, reported path w1 /\ (w_now w1 - start <= timeout)%Z /\ w' = (on_os_w (fs_remove_file path) w1).2
  | (Done (Ok false), w') => w_closed w' = w_closed w /\ (timeout < w_now w' - start)%Z
  | _ => False
  end.
Proof.
  revert w. induction fuel as [|fuel IH]; intros w H1 Hfuel; [lia|]. cbn [wait_child].
  destruct (Z.leb_spec (w_now w - start) timeout) as [Hle|Hgt]; [|done].
  pose proof (file_open_quiet path w) as Hq.
  destruct (file_open path w) as [[[u|e]| |] w1] eqn:E; try done.
  - pose proof (remove_quiet path w1) as Hr. destruct (file_open_reported _ _ _ _ E) as (Hrep & Hnow & Hcl).
    split; [|exists w1; rewrite Hnow; done].
    destruct (on_os_w (fs_remove_file path) w1) as [[r| |] w2]; try done. simpl. destruct Hr. congruence.
  - destruct Hq as [Hnow Hcl]. pose proof (sleep_time w1) as Ht.
    assert ((start + timeout - w_now (sleep w1)) / 1000 <= (start + timeout - w_now w) / 1000 - 1)%Z as Hdiv.
    { assert ((start + timeout - w_now w) / 1000 - 1 = (start + timeout - w_now w + (-1) * 1000) / 1000)%Z as ->
        by (rewrite Z.div_add; lia). apply Z.div_le_mono; lia. }
    assert (0 <= (start + timeout - w_now w) / 1000)%Z by (apply Z.div_pos; lia).
    specialize (IH (sleep w1)). rewrite sleep_closed, Hcl in IH. apply IH; lia.
Qed.

Section server.
Context (g : GracefulServer) (fds : list Z).
Hypothesis g_fds : mapM parse_i32 (g_listen_fds g) = Some fds.
Hypothesis g_timeout : (0 <= g_restart_timeout g)%Z.
Hypothesis args_nonempty : args_os <> [].

Lemma launch_quiet : quiet (launch args_os set_fds_cloexec g).
Proof.
  intros w. unfold launch. assert (exists a0, head args_os = Some a0) as [a0 ->] by (destruct args_os; by eauto).
  erewrite run_bind_ok by done. rewrite g_fds. erewrite run_bind_ok by done. rewrite run_bind_put.
  set (w1 := put_os _ w). assert (w_now w1 = w_now w /\ w_closed w1 = w_closed w) as [<- <-] by done.
  revert w1. generalize (join_with [comma] (g_listen_fds g)). intros s w1. by refine (quiet_wcall _ _ w1).
Qed.

(** [restart] always comes back: with [Ok], when the child reported in time or
    is still alive when time is up, and with an error, when it could not be
    spawned, is gone, or its state cannot be read. *)
Lemma restart_ends w :
  match restart args_os set_fds_cloexec sleep g w with
  | (Done (Ok _), w') =>
      w_closed w' = w_closed w
      /\ exists pid w1, launch args_os set_fds_cloexec g w = (Done (Ok pid), w1)
         /\ ((exists w2, reported (child_pid_file_path g pid) w2 /\ (w_now w2 - w_now w <= g_restart_timeout g)%Z)
             \/ ((g_restart_timeout g < w_now w' - w_now w)%Z /\ pid ∉ w_exited w'))
  | (Done (Err e), w') =>
      w_closed w' = w_closed w
      /\ (launch args_os set_fds_cloexec g w = (Done (Err e), w')
          \/ (g_restart_timeout g < w_now w' - w_now w)%Z)
  | _ => False
  end.
Proof.
  pose proof (launch_quiet w) as Hq. unfold restart, run_bind at 1.
  destruct (launch args_os set_fds_cloexec g w) as [[[pid|e]| |] w1] eqn:El; try done;
    [|split; [by destruct Hq|by left]].
  destruct Hq as [Hnow Hcl]. erewrite run_bind_ok by done. unfold run_bind at 1.
  pose proof (wait_child_ends (child_pid_file_path g pid) (w_now w1) (g_restart_timeout g)
    (wait_fuel (g_restart_timeout g)) w1) as Hw.
  rewrite Z.add_simpl_l, Hnow, Hcl in Hw.
  assert (0 <= g_restart_timeout g / 1000)%Z by (apply Z.div_pos; lia).
  specialize (Hw ltac:(unfold wait_fuel; lia) ltac:(unfold wait_fuel; lia)). rewrite Hnow.
  destruct (wait_child sleep _ _ _ _ w1) as [[[[|]|e]| |] w2]; try done.
  - destruct Hw as (Hc & w3 & Hrep & Ht & _). split; [done|]. exists pid, w1. split; [done|]. left. by exists w3.
  - destruct Hw as [Hc Ht]. pose proof (quiet_wcall (fun w => (Ok (bool_decide (pid ∈ w_exited w)), w)) ltac:(done) w2) as Hq.
    unfold try_wait, run_bind. destruct (wcall _ w2) as [[[b|e]| |] w3] eqn:Ew; try done; destruct Hq as [Hn3 Hc3].
    + assert (b = bool_decide (pid ∈ w_exited w3)) as ->.
      { unfold wcall in Ew. destruct (os_faults (w_os w2)) as [|[e|] l]; simpl in Ew; by simplify_eq. }
      case_bool_decide as Hex; (split; [simpl; congruence|]); [right; simpl; lia|].
      exists pid, w1. split; [done|]. right. simpl. split; [lia|done].
    + split; [congruence|]. right. lia.
Qed.

Lemma signal_loop_ends rs signals w :
  Exists (fun s => rs <> Some s) signals ->
  exists w', signal_loop args_os set_fds_cloexec sleep g rs signals w = (Done (Ok ()), w') /\ w_closed w' = w_closed w.
Proof.
  revert w. induction signals as [|s signals IH]; intros w Hex; [by inversion Hex|]. cbn [signal_loop].
  case_bool_decide as Hs; [|by eauto]. apply Exists_cons in Hex as [?|Hex]; [done|].
  pose proof (restart_ends w) as Hr.
  destruct (restart args_os set_fds_cloexec sleep g w) as [[[[]|e]| |] w1]; try done.
  - destruct Hr as [Hc _]. by eauto.
  - destruct Hr as [Hc _]. destruct (IH w1 Hex) as (w' & H1 & H2). exists w'. split; [done|]. congruence.
Qed.
End server.

Lemma write_pid_file_text p pid w a w' :
  write_pid_file p pid w = (Done (Ok a), w') ->
  exists inode, os_files (w_os w') !! p = Some inode /\ w_text w' !! inode = Some (fmt_int pid).
Proof.
  intros E. apply run_bind_inv in E as (f & w1 & E1 & E). apply run_bind_inv in E as ([] & w2 & E2 & E).
  apply run_bind_inv in E as ([] & w3 & E3 & E). injection E as _ <-. exists f.
  assert (os_files (w_os w1) !! p = Some f /\ w_text w1 !! f = Some []) as [Hp Ht].
  { unfold open_truncate, wcall in E1. destruct (os_faults (w_os w)) as [|[e|] l]; simpl in E1; try done.
    all: destruct (os_files (w_os w) !! p) as [i|] eqn:Ei; [destruct (w_text w !! i)|]; simplify_eq; simpl.
    all: by rewrite ?lookup_insert_eq. }
  assert (os_files (w_os w2) = os_files (w_os w1) /\ w_text w2 !! f = Some (fmt_int pid)) as [Hp2 Ht2].
  { unfold write_all_file, wcall in E2. destruct (os_faults (w_os w1)) as [|[e|] l]; simpl in E2; simplify_eq.
    all: simpl; by rewrite Ht, lookup_insert_eq. }
  unfold sync_data, wcall in E3. destruct (os_faults (w_os w2)) as [|[e|] l]; simpl in E3; simplify_eq.
  all: simpl; by rewrite Hp2.
Qed.

(** C19: [ready] always ends, once a closing signal arrives.  Whatever the rest
    of the world does meanwhile and whichever calls fail: if the pid file
    cannot be written [ready] returns that error without running the closure;
    otherwise it holds the decimal process id, every restart asked for before
    the closing signal is tried and comes back (a failed one leaves the process
    waiting for the next signal), and [ready] returns with the exit closure run
    exactly once. *)
Theorem ready_ends {L} `{AsyncListenerLaws L} (addrs : list bytes) (ls : list L) (g : GracefulServer)
    (pid stop : Z) (signals_new : list Z -> bool) (arriving : list Z) (restart_signal : option Z) (w : world)
    (Hclo : marks_cloexec set_fds_cloexec)
    (Hgen : generation args_os set_fds_cloexec addrs ls g (w_os w)) (Hfd : (os_next_fd (w_os w) <= 2 ^ 31)%Z)
    (Hargs : args_os <> []) (Htimeout : (0 <= g_restart_timeout g)%Z)
    (Hsig : signals_new (ready_signals g restart_signal) = true)
    (Hstop : stop ∈ arriving /\ stop ∈ g_close_signals g /\ restart_signal <> Some stop) :
  match write_pid_file (pid_file_path g) pid w with
  | (Done (Ok _), w1) =>
      (exists inode, os_files (w_os w1) !! pid_file_path g = Some inode /\ w_text w1 !! inode = Some (fmt_int pid))
      /\ exists w', ready args_os set_fds_cloexec sleep g pid signals_new arriving restart_signal w = (Done (Ok ()), w')
           /\ w_closed w' = S (w_closed w)
  | (Done (Err e), w1) =>
      ready args_os set_fds_cloexec sleep g pid signals_new arriving restart_signal w = (Done (Err e), w1)
      /\ w_closed w1 = w_closed w
  | _ => False
  end.
Proof.
  pose proof (generation_serves _ _ Hclo _ _ _ _ Hgen) as Hs.
  pose proof (serves_parse _ _ _ _ Hs Hfd) as Hfds.
  pose proof (write_pid_file_quiet (pid_file_path g) pid w) as Hq. unfold ready.
  destruct (write_pid_file (pid_file_path g) pid w) as [[[[]|e]| |] w1] eqn:Ew; try done.
  - split; [by eapply write_pid_file_text|]. erewrite run_bind_ok by exact Ew.
    assert (exists w2, (if g_recovered g then fun w => (Done (Ok ()), (write_child_pid_file g pid w).2)
      else run_ret ()) w1 = (Done (Ok ()) : run (io_result unit), w2) /\ w_closed w2 = w_closed w1)
      as (w2 & H2 & Hc2).
    { destruct (g_recovered g); [|by eexists]. eexists. split; [done|].
      pose proof (write_pid_file_quiet (child_pid_file_path g pid) pid w1) as Hq1.
      unfold write_child_pid_file. destruct (write_pid_file _ pid w1) as [[r| |] w3]; [by destruct Hq1|done|done]. }
    erewrite run_bind_ok by exact H2. rewrite Hsig. erewrite run_bind_ok by done.
    destruct (signal_loop_ends g _ Hfds Htimeout Hargs restart_signal
      (filter (fun s => s ∈ ready_signals g restart_signal) arriving) w2) as (w3 & H3 & Hc3).
    { apply list.Exists_exists. exists stop. destruct Hstop as (Harr & Hcl & Hne). split; [|done].
      apply list_elem_of_filter. split; [|done]. unfold ready_signals.
      destruct restart_signal as [s|]; [|done]. case_bool_decide; [done|]. apply elem_of_app. by left. }
    erewrite run_bind_ok by exact H3. rewrite run_bind_put. eexists. split; [done|]. simpl.
    destruct Hq. congruence.
  - split; [by erewrite run_bind_err by exact Ew|by destruct Hq].
Qed.
End waiting.

(** A server that restarts before it has any listener spawns a program that
    panics as it starts: the empty text is not the empty list. *)
Theorem restart_without_listeners args_os set_fds_cloexec g w run_dir prog_name timeout sigs :
  args_os <> [] -> g_listen_fds g = [] -> os_faults (set_fds_cloexec 3%Z [] (w_os w)) = [] ->
  exists c w', launch args_os set_fds_cloexec g w = (Done (Ok (c_pid c)), w') /\ w_spawned w' = w_spawned w ++ [c]
    /\ GracefulServer_new (Some (c_env c)) run_dir prog_name timeout sigs = None.
Proof.
  intros Hargs Hg Hf. assert (exists a0, head args_os = Some a0) as [a0 Ha0] by (destruct args_os; by eauto).
  unfold launch. rewrite Ha0, Hg. erewrite run_bind_ok by done. erewrite run_bind_ok by done.
  rewrite run_bind_put. unfold spawn_child, wcall. change (merge_sort Z.le []) with ([] : list Z).
  simpl. rewrite Hf. by eexists (mkChild _ _ _ _), _.
Qed.

(** ** Concrete runs *)

Definition mark_cloexec (min : Z) (keep : list Z) (o : os) : os :=
  put_fds (map_imap (fun fd d => Some (if bool_decide (fd < min \/ fd ∈ keep)%Z then d else cloexec d)) (os_fds o)) o.

Lemma mark_cloexec_marks : marks_cloexec mark_cloexec.
Proof.
  intros min keep o _. eexists. split; [done|]. intros fd. rewrite map_lookup_imap.
  by destruct (os_fds o !! fd).
Qed.

Definition demo_addrs : list bytes := [lit "127.0.0.1:80"; lit "/run/a"].
Definition demo_graceful : GracefulServer := mkGraceful (lit "/run") (lit "srv") [] false [] 5000 [15%Z].

(** A world after the process has bound its two listeners, with a connection
    it serves, which must not be passed on. *)
Definition demo_bound : run (io_result (list UnifyListener)) * (GracefulServer * os) :=
  @new_listeners UnifyListener (@UnifyListener_AsyncListener TokioRT no_resolver) demo_addrs (demo_graceful, os_empty).

Definition demo_world : world :=
  mkWorld (alloc_fd (std_descr (UnixStreaming None)) demo_bound.2.2).2 ∅ 0 100 [] ∅ 0.

Lemma demo_generation :
  @generation UnifyListener (@UnifyListener_AsyncListener TokioRT no_resolver) [lit "srv"] mark_cloexec demo_addrs
    [LTcp 3; LUnix 4] demo_bound.2.1 (w_os demo_world).
Proof.
  eapply gen_later.
  - eapply (@gen_first _ _ [lit "srv"] mark_cloexec demo_addrs (lit "/run") (lit "srv") 5000 [15%Z] demo_graceful
      demo_bound.2.1 os_empty [LTcp 3; LUnix 4] demo_bound.2.2); [done|reflexivity|vm_compute; reflexivity].
  - intros fd d Hd. exists d. split; [|split; [reflexivity|exact (fun Hc => Hc)]].
    assert (os_fds demo_bound.2.2 !! os_next_fd demo_bound.2.2 = None) as Hn by (vm_compute; reflexivity).
    change (<[os_next_fd demo_bound.2.2 := std_descr (UnixStreaming None)]> (os_fds demo_bound.2.2) !! fd = Some d).
    rewrite lookup_insert_ne; [exact Hd|]. intros E. rewrite E in Hn. rewrite Hn in Hd. discriminate Hd.
  - vm_compute. discriminate.
Qed.

Example restart_hands_over_witness :
  exists c w' g' g'' o',
    launch [lit "srv"] mark_cloexec demo_bound.2.1 demo_world = (Done (Ok (c_pid c)), w')
    /\ GracefulServer_new (Some (c_env c)) (lit "/run") (lit "srv") 5000 [15%Z] = Some g'
    /\ @new_listeners UnifyListener (@UnifyListener_AsyncListener TokioRT no_resolver) demo_addrs (g', c_os c)
       = (Done (Ok [LTcp 3; LUnix 4]), (g'', o')).
Proof.
  destruct (@restart_hands_over UnifyListener (@UnifyListener_AsyncListener TokioRT no_resolver) _
    [lit "srv"] mark_cloexec mark_cloexec_marks demo_addrs [LTcp 3; LUnix 4] demo_bound.2.1 demo_world
    (lit "/run") (lit "srv") 5000 [15%Z] demo_generation) as (c & w' & g' & g'' & o' & H1 & _ & _ & H2 & _ & _ & H3 & _).
  - discriminate.
  - discriminate.
  - vm_compute. discriminate.
  - vm_compute. reflexivity.
  - exists c, w', g', g'', o'. split; [exact H1|]. split; [exact H2|exact H3].
Defined.

Definition demo_sleep (w : world) : world :=
  mkWorld (w_os w) (w_text w) (w_now w + 1000) (w_next_pid w) (w_spawned w) (w_exited w) (w_closed w).

(** A restart whose child never reports, then nothing; a closing signal. *)
Example ready_ends_witness :
  exists w', ready [lit "srv"] mark_cloexec demo_sleep demo_bound.2.1 7 (fun _ => true) [15%Z] (Some 1%Z) demo_world
    = (Done (Ok ()), w') /\ w_closed w' = 1%nat.
Proof.
  pose proof (@ready_ends [lit "srv"] mark_cloexec demo_sleep ltac:(intros; simpl; lia) ltac:(done) UnifyListener
    (@UnifyListener_AsyncListener TokioRT no_resolver) _ demo_addrs [LTcp 3; LUnix 4] demo_bound.2.1 7 15
    (fun _ => true) [15%Z] (Some 1%Z) demo_world mark_cloexec_marks demo_generation
    ltac:(vm_compute; discriminate) ltac:(discriminate) ltac:(vm_compute; discriminate) eq_refl) as Hr.
  assert (15%Z ∈ [15%Z] /\ 15%Z ∈ g_close_signals demo_bound.2.1 /\ Some 1%Z <> Some 15%Z) as Hs.
  { split; [by left|]. split; [vm_compute; left|done]. }
  specialize (Hr Hs).
  assert ((write_pid_file (pid_file_path demo_bound.2.1) 7 demo_world).1 = Done (Ok ())) as E
    by (vm_compute; reflexivity).
  destruct (write_pid_file (pid_file_path demo_bound.2.1) 7 demo_world) as [[[[]|e]| |] w1];
    cbn [fst] in E; try discriminate E.
  destruct Hr as (_ & w' & H1 & H2). exists w'. split; [exact H1|exact H2].
Defined.
