(* ===== verification/Sock.v ===== *)
(** * A scripted byte stream

    The sockets of the operating system are outside the sources; the
    transports are proved against [AsyncReadLaws] and [AsyncWriteLaws].  This
    file gives a concrete stream that satisfies both contracts, on which the
    definitions run: what arrives and what each write does is a script. *)

From S2P Require Import Prelude RustStd BufIO.

Inductive rx_event :=
| RxData (bs : bytes)
| RxErr (e : io_error)
| RxWait.

Inductive tx_event :=
| TxAccept (n : nat)
| TxErr (e : io_error)
| TxWait.

Record sock := mkSock {
  sk_rx : list rx_event;
  sk_eof : bool;
  sk_tx : list tx_event;
  sk_out : bytes;
}.

(** One read takes from the event at the front; at the end of the script the
    stream is closed or waits. *)
Definition sock_read (n : nat) : ioM sock bytes :=
  fun s =>
    match sk_rx s with
    | [] => (if sk_eof s then Ready (Ok []) else Pending, s)
    | RxErr e :: evs => (Ready (Err e), mkSock evs (sk_eof s) (sk_tx s) (sk_out s))
    | RxWait :: evs => (Pending, mkSock evs (sk_eof s) (sk_tx s) (sk_out s))
    | RxData bs :: evs =>
        let evs' := match drop n bs with [] => evs | bs' => RxData bs' :: evs end in
        (Ready (Ok (take n bs)), mkSock evs' (sk_eof s) (sk_tx s) (sk_out s))
    end.

(** One write is accepted in part, fails or waits as the script says; past the
    end of the script writes are accepted whole. *)
Definition sock_write (buf : bytes) : ioM sock nat :=
  fun s =>
    match sk_tx s with
    | [] => (Ready (Ok (length buf)), mkSock (sk_rx s) (sk_eof s) [] (sk_out s ++ buf))
    | TxErr e :: evs => (Ready (Err e), mkSock (sk_rx s) (sk_eof s) evs (sk_out s))
    | TxWait :: evs => (Pending, mkSock (sk_rx s) (sk_eof s) evs (sk_out s))
    | TxAccept n :: evs =>
        let k := (n `min` length buf)%nat in
        (Ready (Ok k), mkSock (sk_rx s) (sk_eof s) evs (sk_out s ++ take k buf))
    end.

#[export] Instance sock_AsyncRead : AsyncRead sock := {| async_read := sock_read |}.
#[export] Instance sock_AsyncWrite : AsyncWrite sock := {| async_write := sock_write |}.

Definition rx_data (e : rx_event) : bytes := match e with RxData bs => bs | _ => [] end.
Definition rx_good (e : rx_event) : Prop := match e with RxData [] => False | _ => True end.
Definition rx_is_data (e : rx_event) : Prop := match e with RxData _ => True | _ => False end.
Definition tx_is_accept (e : tx_event) : Prop := match e with TxAccept (S _) => True | _ => False end.

#[export, refine] Instance sock_ReadLaws : AsyncReadLaws sock := {
  incoming s := mjoin (rx_data <$> sk_rx s);
  r_inv s := Forall rx_good (sk_rx s);
  r_ready s := Forall rx_is_data (sk_rx s);
}.
Proof.
  all: unfold async_read, sock_AsyncRead, sock_read.
  - intros n [rx eof tx out] bs t' Hg; simpl in *.
    destruct Hg as [|[ds|e|] rx Hd Hg]; simpl; [destruct eof|..]; intros E; try done.
    { simplify_eq. simpl. split_and!; auto with lia. }
    simplify_eq. simpl. rewrite length_take. split; [lia|].
    destruct (drop n ds) as [|d ds'] eqn:Ed; simpl.
    + rewrite <- (take_drop n ds) at 1. rewrite Ed, app_nil_r. split_and!; auto.
      by intros Hf; inv Hf.
    + rewrite <- (take_drop n ds) at 1. rewrite Ed, <- app_assoc. split_and!; auto.
      * by constructor.
      * intros Hf; inv Hf; by constructor.
  - intros n [rx eof tx out] q t' Hg E Hq; simpl in *.
    destruct Hg as [|[ds|e|] rx Hd Hg]; simpl in *; simplify_eq/=; auto.
    + by destruct (Hq (take n ds)).
    + split_and!; auto. by intros Hf; inv Hf.
    + split_and!; auto. by intros Hf; inv Hf.
  - intros n [rx eof tx out] t' Hg Hn E; simpl in *.
    destruct Hg as [|[[|d ds]|e|] rx Hd Hg]; simpl in *; try done.
    destruct n; [lia|done].
  - intros n [rx eof tx out] Hg Hr Hn Hne; simpl in *.
    destruct Hg as [|[[|d ds]|e|] rx Hd Hg]; try done; [|by inv Hr..].
    destruct n; [lia|]. simpl. eauto.
Defined.

#[export, refine] Instance sock_EofLaws : AsyncReadEofLaws sock := {
  r_closed s := sk_eof s = true /\ Forall rx_is_data (sk_rx s);
}.
Proof.
  all: unfold async_read, sock_AsyncRead, sock_read.
  - intros n [rx eof tx out] Hg [Hc Hd] Hin Hn; simpl in *. subst eof.
    destruct Hg as [|[[|d ds]|e|] rx Hg Hgs]; simpl in *; try done; [by eauto|by inv Hd..].
  - intros n [rx eof tx out] q t' Hg [Hc Hd] E; simpl in *. subst eof.
    destruct Hd as [|[ds|e|] rx Hx Hd]; simpl in *; try done; simplify_eq/=; [done|].
    split; [done|]. destruct (drop n ds); [done|by constructor].
Defined.

#[export, refine] Instance sock_WriteLaws : AsyncWriteLaws sock := {
  outgoing := sk_out;
  w_inv _ := True;
  w_ready s := Forall tx_is_accept (sk_tx s);
}.
Proof.
  all: unfold async_write, sock_AsyncWrite, sock_write.
  - intros buf [rx eof tx out] n t' _; simpl. destruct tx as [|[k|e|] tx]; intros; simplify_eq/=.
    + rewrite firstn_all. auto.
    + split_and!; auto with lia. by intros Hf; inv Hf.
  - intros buf [rx eof tx out] t' _; simpl. destruct tx as [|[k|e|] tx]; intros; simplify_eq/=.
    split_and!; auto. by intros Hf; inv Hf.
  - intros [|b buf] [rx eof tx out] _ Hr Hne; simpl in *; [done|].
    destruct Hr as [|[[|k]|e|] tx Hk Hr]; simpl in *; try done; eauto.
Defined.

#[export] Instance sock_RawWriteLaws : RawWriteLaws sock.
Proof.
  split. intros buf [rx eof tx out] q t' _; unfold async_write, sock_AsyncWrite, sock_write; simpl.
  destruct tx as [|[k|e|] tx]; intros E Hq; simplify_eq/=.
  - by destruct (Hq (length buf)).
  - by destruct (Hq (k `min` length buf)%nat).
  - split_and!; auto. by intros Hf; inv Hf.
  - split_and!; auto. by intros Hf; inv Hf.
Qed.

(** A fresh socket that will deliver [bs] in chunks of the given sizes. *)
Fixpoint chunks (sizes : list nat) (bs : bytes) : list rx_event :=
  match sizes with
  | [] => match bs with [] => [] | _ => [RxData bs] end
  | n :: sizes' =>
      match take n bs with
      | [] => chunks sizes' bs
      | b :: c => RxData (b :: c) :: chunks sizes' (drop n bs)
      end
  end.

Definition sock_of (sizes : list nat) (bs : bytes) : sock := mkSock (chunks sizes bs) true [] [].

Lemma chunks_ok sizes bs :
  mjoin (rx_data <$> chunks sizes bs) = bs
  /\ Forall rx_good (chunks sizes bs) /\ Forall rx_is_data (chunks sizes bs).
Proof.
  revert bs. induction sizes as [|n sizes IH]; intros bs; simpl.
  { destruct bs; simpl; rewrite ?app_nil_r; repeat constructor. }
  destruct (take n bs) as [|b c] eqn:E; [apply IH|].
  destruct (IH (drop n bs)) as (H1 & H2 & H3). split_and!; [|by constructor..].
  transitivity ((b :: c) ++ mjoin (rx_data <$> chunks sizes (drop n bs))); [done|].
  by rewrite H1, <- E, take_drop.
Qed.

Lemma sock_of_incoming sizes bs : incoming (sock_of sizes bs) = bs.
Proof. apply chunks_ok. Qed.

Lemma sock_of_ready sizes bs : r_inv (sock_of sizes bs) /\ r_ready (sock_of sizes bs).
Proof. destruct (chunks_ok sizes bs) as (_ & ? & ?). done. Qed.
