(* ===== verification/BufIOSpec.v ===== *)
(** * Properties of the buffered streams

    What the buffered reader and writer of core/src/io/buf_io.rs guarantee to
    the transports: buffering is transparent for a reader, everything written
    reaches the peer in order after a flush, and what a failed flush leaves
    behind. *)

From S2P Require Import Prelude RustStd BufIO Sock.

(** Several [write_all] calls in a row, as the transports make them. *)
Fixpoint write_all_list {T} `{AsyncWrite T} (fuel : nat) (bufs : list bytes) : ioM T unit :=
  match bufs with
  | [] => io_ret ()
  | b :: bufs' => let! _ := write_all fuel b in write_all_list fuel bufs'
  end.

Lemma write_all_list_enough {T} `{AsyncWriteLaws T} fuel bufs (t : T) :
  w_inv t -> w_ready t -> Forall (fun b => length b <= fuel) bufs ->
  exists t', write_all_list fuel bufs t = (Ready (Ok ()), t')
    /\ outgoing t' = outgoing t ++ mjoin bufs /\ w_inv t' /\ w_ready t'.
Proof.
  intros Hi Hr Hf. revert t Hi Hr. induction Hf as [|b bufs Hb _ IH]; intros t Hi Hr.
  { exists t. by rewrite app_nil_r. }
  destruct (write_all_enough fuel b t Hi Hr Hb) as [t1 E]. simpl. unfold io_bind. rewrite E.
  apply write_all_ok in E as (Ho1 & Hi1 & Hr1); [|done].
  destruct (IH t1 Hi1 (Hr1 Hr)) as (t' & -> & Ho & ?). exists t'.
  rewrite Ho, Ho1, <- app_assoc. done.
Qed.

Section buf_props.
Context {T : Type}.

(** C34: On a stream that accepts data, any sequence of [write_all] calls on an
    [AsyncBufStream] followed by [flush_buf] completes, and the bytes that
    then reach the inner stream are exactly what was pending followed by the
    written buffers in order: nothing is lost, reordered or repeated,
    whatever the buffer size and however the inner stream splits writes. *)
Theorem buf_stream_write_flush `{AsyncWriteLaws T} fuel bufs (s : AsyncBufStream T) :
  wb_inv (bs_write s) -> w_inv (bs_inner s) -> w_ready (bs_inner s) ->
  length (wb_buf (bs_write s)) <= fuel -> Forall (fun b => length b <= fuel) bufs ->
  exists s1 s2,
    @write_all_list _ (AsyncBufStream_AsyncWrite fuel) fuel bufs s = (Ready (Ok ()), s1)
    /\ AsyncBufStream_flush fuel s1 = (Ready (Ok ()), s2)
    /\ outgoing (bs_inner s2) = outgoing (bs_inner s) ++ wb_pend (bs_write s) ++ mjoin bufs
    /\ wb_pend (bs_write s2) = [].
Proof.
  intros Hw Hi Hr Hf Hb.
  destruct (@write_all_list_enough _ _ (AsyncBufStream_WriteLaws fuel) fuel bufs s)
    as (s1 & E1 & Ho1 & (Hw1 & Hi1 & Hf1) & Hr1); [done..|].
  destruct (AsyncBufStream_flush_enough fuel s1) as [s2 E2]; [done..|].
  exists s1, s2. split; [done|]. split; [done|].
  apply AsyncBufStream_flush_ok in E2 as (-> & -> & _); [|done|done].
  simpl in Ho1. by rewrite Ho1, <- app_assoc.
Qed.

(** C35: Buffering is invisible to a reader: when [n] bytes are available and
    no fault comes before them, [read_exact] on an [AsyncBufStream] returns
    the same bytes as on the inner stream read directly after the bytes the
    buffer still holds, and leaves the same data to be read. *)
Theorem buf_stream_read_exact `{AsyncReadLaws T} fuel n (s : AsyncBufStream T) :
  rb_inv (bs_read s) -> r_inv (bs_inner s) -> r_ready (bs_inner s) ->
  n <= length (rb_rest (bs_read s) ++ incoming (bs_inner s)) -> n <= fuel ->
  exists s', read_exact fuel n s
      = (Ready (Ok (take n (rb_rest (bs_read s) ++ incoming (bs_inner s)))), s')
    /\ rb_rest (bs_read s') ++ incoming (bs_inner s')
       = drop n (rb_rest (bs_read s) ++ incoming (bs_inner s))
    /\ (rb_rest (bs_read s) = [] -> exists t',
          read_exact fuel n (bs_inner s) = (Ready (Ok (take n (incoming (bs_inner s)))), t')
          /\ incoming t' = rb_rest (bs_read s') ++ incoming (bs_inner s')).
Proof.
  intros Hb Hi Hr Hn Hf.
  destruct (read_exact_enough fuel n s) as (s' & E & Hd & _); [done..|].
  exists s'. split; [done|]. split; [done|]. intros Hrest. simpl in Hd. rewrite Hrest in *.
  destruct (read_exact_enough fuel n (bs_inner s)) as (t' & E' & Hd' & _); [done..|].
  exists t'. by rewrite Hd, Hd'.
Qed.

(** A flush whose write fails or is cut off keeps the whole buffer: the
    prefix that already went out is sent again by the next flush that
    succeeds, so the peer sees it twice. *)
Theorem failed_flush_resends `{RawWriteLaws T} fuel r (s s1 s2 : AsyncBufStream T) :
  wb_inv (bs_write s) -> w_inv (bs_inner s) ->
  AsyncBufStream_flush fuel s = (r, s1) -> r <> Ready (Ok ()) ->
  AsyncBufStream_flush fuel s1 = (Ready (Ok ()), s2) ->
  exists k, k <= length (wb_pend (bs_write s))
    /\ outgoing (bs_inner s1) = outgoing (bs_inner s) ++ take k (wb_pend (bs_write s))
    /\ outgoing (bs_inner s2) = outgoing (bs_inner s) ++ take k (wb_pend (bs_write s))
                                ++ wb_pend (bs_write s).
Proof.
  intros Hw Hi E1 Hne E2. unfold AsyncBufStream_flush, buf_flush in E1.
  destruct (0 <? wb_pos (bs_write s))%nat; [|by simplify_eq].
  destruct (write_all fuel _ _) as [q t1] eqn:E.
  apply write_all_prefix in E as (k & Hk & Ho & Hi1 & _); [|done].
  assert (bs_write s1 = bs_write s /\ bs_inner s1 = t1) as [Hb Ht].
  { destruct q as [[[]|e]|]; by simplify_eq/=. }
  apply AsyncBufStream_flush_ok in E2 as (Ho2 & _); [|by rewrite Hb|by rewrite Ht].
  exists k. split; [done|]. rewrite Ho2, Hb, Ht, Ho, <- app_assoc. done.
Qed.
End buf_props.

(** A small-buffer stream over a socket that splits reads and writes. *)
Definition demo_stream (sizes : list nat) (data : bytes) (tx : list tx_event) : AsyncBufStream sock :=
  {| bs_read := {| rb_buf := replicate 4 Byte.x00; rb_pos := 0; rb_cap := 0 |};
     bs_write := {| wb_buf := replicate 4 Byte.x00; wb_pos := 0 |};
     bs_inner := mkSock (chunks sizes data) false tx [] |}.

Example buf_stream_write_flush_witness :
  exists s2, outgoing (bs_inner s2) = lit "abcdefghij" /\ wb_pend (bs_write s2) = [].
Proof.
  destruct (buf_stream_write_flush 10 [lit "abc"; lit "defgh"; lit "ij"]
    (demo_stream [] [] [TxAccept 2; TxAccept 1])) as (s1 & s2 & _ & _ & Ho & Hp).
  - split; simpl; lia.
  - done.
  - by repeat constructor.
  - simpl; lia.
  - repeat constructor; simpl; lia.
  - exists s2. split; [exact Ho|exact Hp].
Defined.

Example buf_stream_read_exact_witness :
  exists s', read_exact 6 6 (demo_stream [1; 3] (lit "abcdefghij") [])
    = (Ready (Ok (lit "abcdef")), s').
Proof.
  destruct (buf_stream_read_exact 6 6 (demo_stream [1; 3] (lit "abcdefghij") []))
    as (s' & E & _).
  - split; simpl; [lia|]. split; simpl; lia.
  - repeat constructor.
  - repeat constructor.
  - vm_compute; lia.
  - lia.
  - exists s'. exact E.
Defined.

(** Three pending bytes, a socket that takes one of them and then fails. *)
Definition demo_pending : AsyncBufStream sock :=
  {| bs_read := {| rb_buf := replicate 4 Byte.x00; rb_pos := 0; rb_cap := 0 |};
     bs_write := {| wb_buf := lit "abc" ++ [Byte.x00]; wb_pos := 3 |};
     bs_inner := mkSock [] false [TxAccept 1; TxErr OtherIO] [] |}.

Example failed_flush_resends_witness :
  let p1 := AsyncBufStream_flush 4 demo_pending in
  let p2 := AsyncBufStream_flush 4 p1.2 in
  p1.1 = Ready (Err OtherIO) /\ p2.1 = Ready (Ok ())
  /\ outgoing (bs_inner p2.2) = lit "aabc"
  /\ exists k, outgoing (bs_inner p2.2) = take k (lit "abc") ++ lit "abc".
Proof.
  set (p1 := AsyncBufStream_flush 4 demo_pending). set (p2 := AsyncBufStream_flush 4 p1.2).
  split; [reflexivity|]. split; [reflexivity|]. split; [reflexivity|].
  destruct (failed_flush_resends 4 p1.1 demo_pending p1.2 p2.2) as (k & Hk & H1 & H2).
  - split; simpl; lia.
  - done.
  - reflexivity.
  - done.
  - reflexivity.
  - exists k. exact H2.
Defined.
