(* ===== verification/Parser.v ===== *)
(** * Reading as parsing

    An abstract view of code that reads a byte stream: a parser consumes a
    prefix of the data or fails.  [reads m p] says that the computation [m]
    implements the parser [p]: where [p] succeeds, [m] finishes with the same
    value and leaves the rest unread; where [p] fails and [full] is set (the
    stream ends after its data), [m] finishes with the same error. *)

From S2P Require Import Prelude.

Definition parser (E A : Type) : Type := bytes -> result (A * bytes) E.

Definition p_ret {E A} (a : A) : parser E A := fun bs => Ok (a, bs).
Definition p_err {E A} (e : E) : parser E A := fun _ => Err e.
Definition p_bind {E A B} (p : parser E A) (k : A -> parser E B) : parser E B :=
  fun bs => match p bs with Ok (a, bs') => k a bs' | Err e => Err e end.

(** The next [n] bytes; [e] when there are fewer. *)
Definition p_take {E} (e : E) (n : nat) : parser E bytes :=
  fun bs => if (n <=? length bs)%nat then Ok (take n bs, drop n bs) else Err e.

Notation "'let%' x := m 'in' k" := (p_bind m (fun x => k))
  (at level 10, x name, m at level 100, k at level 200) : rpc_scope.

Lemma p_take_app {E} (e : E) n bs rest :
  length bs = n -> p_take e n (bs ++ rest) = Ok (bs, rest).
Proof.
  intros <-. unfold p_take. rewrite length_app, (proj2 (Nat.leb_le _ _)) by lia.
  by rewrite take_app_length, drop_app_length.
Qed.

Section reads.
Context {S E : Type} (full : bool) (ok : S -> Prop) (rest : S -> bytes).

Definition reads {A} (m : runM S E A) (p : parser E A) : Prop :=
  forall s, ok s ->
    match p (rest s) with
    | Ok (a, bs) => exists s', m s = (Done (Ok a), s') /\ ok s' /\ rest s' = bs
    | Err e => full = true -> exists s', m s = (Done (Err e), s')
    end.

Lemma reads_ret {A} (a : A) : reads (run_ret a) (p_ret a).
Proof. intros s Hs. simpl. eauto. Qed.

Lemma reads_err {A} (e : E) : reads (A := A) (run_err e) (p_err e).
Proof. intros s Hs. simpl. unfold run_err. eauto. Qed.

Lemma reads_bind {A B} (m : runM S E A) (k : A -> runM S E B) p q :
  reads m p -> (forall a, reads (k a) (q a)) -> reads (run_bind m k) (p_bind p q).
Proof.
  intros Hm Hk s Hs. specialize (Hm s Hs). unfold p_bind.
  destruct (p (rest s)) as [[a bs]|e].
  - destruct Hm as (s1 & E1 & Hs1 & <-). rewrite (run_bind_ok _ _ _ _ _ E1). by apply Hk.
  - intros Hfull. destruct (Hm Hfull) as (s1 & E1). rewrite (run_bind_err _ _ _ _ _ E1). eauto.
Qed.

(** An update that leaves the stream alone. *)
Lemma reads_put {B} f (k : runM S E B) q :
  (forall s, ok s -> ok (f s) /\ rest (f s) = rest s) -> reads k q ->
  reads (run_bind (run_put f) (fun _ => k)) q.
Proof.
  intros Hf Hk s Hs. rewrite (run_bind_ok _ _ s () (f s)) by done.
  destruct (Hf s Hs) as [Hs' <-]. by apply Hk.
Qed.
End reads.

#[export] Hint Resolve reads_ret reads_err : rpc.
