(* ===== verification/ServerTask.v ===== *)
(** * stream/src/server: tasks, responses and dispatch

    The request a transport hands to a dispatcher ([RpcSvrReq]), the response
    it takes back ([RpcSvrResp], [ServerTaskVariant], [ServerTaskVariantFull]),
    the notifier a task answers through ([RespNoti]) and the closure
    dispatcher.

    The channel behind a [RespNoti] is external; a notifier names the channel
    of its connection, and what is sent through it is the message that the
    connection's writer will receive. *)

From S2P Require Import Prelude RustStd Errors Task.

(** ** Messages to the connection's writer *)

(** [Result<T, (u64, Option<RpcIntErr>)>]: a finished task, or a bare reply. *)
Definition resp_msg (T : Type) : Type := result T (Z * option RpcIntErr).

Record RespNoti := mkRespNoti { noti_chan : nat }.

#[export] Instance RespNoti_eq_dec : EqDecision RespNoti.
Proof. solve_decision. Defined.

(** [done] and [send_err]: the message that goes into the channel.  A send fails
    once the receiver is gone; [done] ignores that, [send_err] reports it. *)
Definition RespNoti_done {T} (rx_alive : bool) (task : T) : list (resp_msg T) :=
  if rx_alive then [Ok task] else [].

Definition RespNoti_send_err {T} (rx_alive : bool) (seq : Z) (err : option RpcIntErr)
    : result unit unit * list (resp_msg T) :=
  if rx_alive then (Ok (), [Err (seq, err)]) else (Err (), []).

(** ** The traits *)

Class ServerTaskDecode (C T : Type) := {
  decode_req : C -> RpcAction -> Z -> bytes -> option bytes -> RespNoti -> result T unit;
}.

(** [_set_result] stores the result and gives the notifier up; [None] is the
    panic when it was already taken. *)
Class ServerTaskDone (T E : Type) := {
  _set_result : T -> result unit E -> option (RespNoti * T);
}.

Class ServerTaskAction (T : Type) := {
  server_get_action : T -> RpcAction;
}.

(** [ServerTaskDone::set_result]: consume the task and send it, as its enum. *)
Definition set_result {S T E} `{ServerTaskDone S E} (into : S -> T) (rx_alive : bool)
    (self : S) (res : result unit E) : option (list (resp_msg T)) :=
  match _set_result self res with
  | None => None
  | Some (_, self) => Some (RespNoti_done rx_alive (into self))
  end.

(** ** [ServerTaskVariant]: request and response of one message type *)

Record ServerTaskVariant (M E : Type) := mkVariant {
  sv_seq : Z;
  sv_action : RpcActionOwned;
  sv_msg : M;
  sv_blob : option bytes;
  sv_res : option (result unit E);
  sv_noti : option RespNoti;
}.
Arguments mkVariant {M E}.
Arguments sv_seq {M E}.
Arguments sv_action {M E}.
Arguments sv_msg {M E}.
Arguments sv_blob {M E}.
Arguments sv_res {M E}.
Arguments sv_noti {M E}.

Section variant.
Context {C M E : Type} `{Codec C M, RpcErrCodec C E}.
Let T := ServerTaskVariant M E.

Definition Variant_set_result (self : T) (res : result unit E) : option (RespNoti * T) :=
  match sv_noti self with
  | None => None
  | Some noti =>
      Some (noti, mkVariant (sv_seq self) (sv_action self) (sv_msg self) (sv_blob self)
                    (Some res) None)
  end.

Definition Variant_decode_req (codec : C) (action : RpcAction) (seq : Z) (msg : bytes)
    (blob : option bytes) (noti : RespNoti) : result T unit :=
  match codec_decode codec msg with
  | Err e => Err e
  | Ok req => Ok (mkVariant seq (RpcActionOwned_from action) req blob None (Some noti))
  end.

Definition Variant_get_action (self : T) : RpcAction :=
  RpcActionOwned_to_action (sv_action self).

Definition Variant_encode_resp (codec : C) (self : T) (buf : bytes)
    : option (Z * result (Z * option bytes) EncodedErr * bytes * T) :=
  match sv_res self with
  | Some (Ok _) =>
      match codec_encode_into codec (sv_msg self) buf with
      | (Err _, buf) => Some (sv_seq self, Err (EncodedErr_from Encode), buf, self)
      | (Ok msg_len, buf) => Some (sv_seq self, Ok (msg_len, sv_blob self), buf, self)
      end
  | Some (Err e) => Some (sv_seq self, Err (err_encode codec e), buf, self)
  | None => None
  end.

#[export] Instance Variant_ServerTaskDone : ServerTaskDone T E :=
  {| _set_result := Variant_set_result |}.
#[export] Instance Variant_ServerTaskDecode : ServerTaskDecode C T :=
  {| decode_req := Variant_decode_req |}.
#[export] Instance Variant_ServerTaskAction : ServerTaskAction T :=
  {| server_get_action := Variant_get_action |}.
#[export] Instance Variant_ServerTaskEncode : ServerTaskEncode C T :=
  {| encode_resp := Variant_encode_resp |}.
End variant.

(** ** [ServerTaskVariantFull]: separate request and response messages *)

Record ServerTaskVariantFull (R P E : Type) := mkFull {
  sf_seq : Z;
  sf_action : RpcActionOwned;
  sf_req : R;
  sf_req_blob : option bytes;
  sf_resp : option P;
  sf_resp_blob : option bytes;
  sf_res : option (result unit E);
  sf_noti : option RespNoti;
}.
Arguments mkFull {R P E}.
Arguments sf_seq {R P E}.
Arguments sf_action {R P E}.
Arguments sf_req {R P E}.
Arguments sf_req_blob {R P E}.
Arguments sf_resp {R P E}.
Arguments sf_resp_blob {R P E}.
Arguments sf_res {R P E}.
Arguments sf_noti {R P E}.

Section full.
Context {C R P E : Type} `{Codec C R, Codec C P, RpcErrCodec C E}.
Let T := ServerTaskVariantFull R P E.

Definition Full_set_result (self : T) (res : result unit E) : option (RespNoti * T) :=
  match sf_noti self with
  | None => None
  | Some noti =>
      Some (noti, mkFull (sf_seq self) (sf_action self) (sf_req self) (sf_req_blob self)
                    (sf_resp self) (sf_resp_blob self) (Some res) None)
  end.

Definition Full_decode_req (codec : C) (action : RpcAction) (seq : Z) (msg : bytes)
    (blob : option bytes) (noti : RespNoti) : result T unit :=
  match codec_decode codec msg with
  | Err e => Err e
  | Ok req => Ok (mkFull seq (RpcActionOwned_from action) req blob None None None (Some noti))
  end.

Definition Full_get_action (self : T) : RpcAction :=
  RpcActionOwned_to_action (sf_action self).

Definition Full_encode_resp (codec : C) (self : T) (buf : bytes)
    : option (Z * result (Z * option bytes) EncodedErr * bytes * T) :=
  match sf_res self with
  | Some (Ok _) =>
      match sf_resp self with
      | Some resp =>
          match codec_encode_into codec resp buf with
          | (Err _, buf) => Some (sf_seq self, Err (EncodedErr_from Encode), buf, self)
          | (Ok msg_len, buf) => Some (sf_seq self, Ok (msg_len, sf_resp_blob self), buf, self)
          end
      | None => Some (sf_seq self, Ok (0%Z, sf_resp_blob self), buf, self)
      end
  | Some (Err e) => Some (sf_seq self, Err (err_encode codec e), buf, self)
  | None => None
  end.

#[export] Instance Full_ServerTaskDone : ServerTaskDone T E :=
  {| _set_result := Full_set_result |}.
#[export] Instance Full_ServerTaskDecode : ServerTaskDecode C T :=
  {| decode_req := Full_decode_req |}.
#[export] Instance Full_ServerTaskAction : ServerTaskAction T :=
  {| server_get_action := Full_get_action |}.
#[export] Instance Full_ServerTaskEncode : ServerTaskEncode C T :=
  {| encode_resp := Full_encode_resp |}.
End full.

(** ** [RpcSvrReq] and [RpcSvrResp] *)

Record RpcSvrReq := mkSvrReq {
  sq_seq : Z;
  sq_action : RpcAction;
  sq_msg : bytes;
  sq_blob : option bytes;
}.

#[export] Instance RpcSvrReq_eq_dec : EqDecision RpcSvrReq.
Proof. solve_decision. Defined.

Record RpcSvrResp := mkSvrResp {
  sp_seq : Z;
  sp_msg : option bytes;
  sp_blob : option bytes;
  sp_res : option (result unit EncodedErr);
}.

(** The pre-encoded response: [res] is taken out. *)
Definition RpcSvrResp_encode_resp {C} (_ : C) (self : RpcSvrResp) (buf : bytes)
    : option (Z * result (Z * option bytes) EncodedErr * bytes * RpcSvrResp) :=
  let self' := mkSvrResp (sp_seq self) (sp_msg self) (sp_blob self) None in
  match sp_res self with
  | None => None
  | Some (Ok _) =>
      match sp_msg self with
      | Some msg => Some (sp_seq self, Ok (zlen msg, sp_blob self), buf ++ msg, self')
      | None => Some (sp_seq self, Ok (0%Z, sp_blob self), buf, self')
      end
  | Some (Err e) => Some (sp_seq self, Err e, buf, self')
  end.

#[export] Instance RpcSvrResp_ServerTaskEncode {C} : ServerTaskEncode C RpcSvrResp :=
  {| encode_resp := RpcSvrResp_encode_resp |}.

(** ** [Dispatch] and [DispatchClosure]

    Dispatching a request yields a result and the messages that the handler
    sends before it returns. *)
Class Dispatch (C D R : Type) := {
  dispatch_req : D -> C -> RpcSvrReq -> RespNoti -> result unit unit * list (resp_msg R);
}.

Section closure.
Context {C T R : Type} `{ServerTaskDecode C T}.

Record DispatchClosure := mkClosure {
  task_handle : T -> result unit unit * list (resp_msg R);
}.

Definition DispatchClosure_dispatch_req (self : DispatchClosure) (codec : C)
    (req : RpcSvrReq) (noti : RespNoti) : result unit unit * list (resp_msg R) :=
  match decode_req codec (sq_action req) (sq_seq req) (sq_msg req) (sq_blob req) noti with
  | Err _ => (Err (), [])
  | Ok task =>
      match task_handle self task with
      | (Err _, sent) => (Err (), sent)
      | (Ok _, sent) => (Ok (), sent)
      end
  end.

#[export] Instance DispatchClosure_Dispatch : Dispatch C DispatchClosure R :=
  {| dispatch_req := DispatchClosure_dispatch_req |}.
End closure.
Arguments DispatchClosure T R : clear implicits.

(** ** Laws and properties *)

#[export] Instance Variant_EncodeLaws {C M E} `{CodecLaws C M, RpcErrCodec C E} :
  ServerTaskEncodeLaws C (ServerTaskVariant M E).
Proof.
  split. intros c t buf seq n blob buf' t'. unfold encode_resp; simpl. unfold Variant_encode_resp.
  destruct (sv_res t) as [[[]|e]|]; [|done..].
  destruct (codec_encode_into c (sv_msg t) buf) as [[k|[]] b] eqn:Ec; [|done].
  intros [= _ <- _ <- _]. apply encode_into_encode in Ec as (msg & _ & ? & ?). eauto.
Qed.

#[export] Instance Full_EncodeLaws {C R P E} `{Codec C R, CodecLaws C P, RpcErrCodec C E} :
  ServerTaskEncodeLaws C (ServerTaskVariantFull R P E).
Proof.
  split. intros c t buf seq n blob buf' t'. unfold encode_resp; simpl. unfold Full_encode_resp.
  destruct (sf_res t) as [[[]|e]|]; [|done..]. destruct (sf_resp t) as [p|].
  - destruct (codec_encode_into c p buf) as [[k|[]] b] eqn:Ec; [|done].
    intros [= _ <- _ <- _]. apply encode_into_encode in Ec as (msg & _ & ? & ?). eauto.
  - intros [= _ <- _ <- _]. exists []. by rewrite app_nil_r.
Qed.

#[export] Instance RpcSvrResp_EncodeLaws {C} : ServerTaskEncodeLaws C RpcSvrResp.
Proof.
  split. intros c [seq msg blob res] buf seq' n blob' buf' t'. unfold encode_resp; simpl.
  unfold RpcSvrResp_encode_resp; simpl. destruct res as [[[]|e]|]; [|done..].
  destruct msg as [m|]; intros [= _ <- _ <- _]; [by eauto|].
  exists []. by rewrite app_nil_r.
Qed.

(** the life of a server task: once decoded from a request it cannot be
    encoded (no result yet); [set_result] sends it through its notifier exactly
    once, with the request's sequence number; encoding it then appends the
    message and yields the blob when the result is [Ok], and yields the encoded
    user error, with nothing appended, when it is [Err]. *)
Theorem variant_task_lifecycle {C M E T} `{CodecLaws C M, RpcErrCodec C E}
    (into : ServerTaskVariant M E -> T) (c : C) (act : RpcAction) (seq : Z) (msg : bytes)
    (blob : option bytes) (noti : RespNoti) (m : M) (res : result unit E) (buf : bytes)
    (Hdec : codec_decode c msg = Ok m) :
  exists t t',
    decode_req c act seq msg blob noti = Ok t
    /\ server_get_action t = act
    /\ encode_resp c t buf = None
    /\ set_result into true t res = Some [Ok (into t')]
    /\ set_result into true t' res = None
    /\ match res with
       | Err e => encode_resp c t' buf = Some (seq, Err (err_encode c e), buf, t')
       | Ok _ =>
           match codec_encode_into c m buf with
           | (Ok n, buf') => exists body, buf' = buf ++ body /\ n = zlen body
               /\ encode_resp c t' buf = Some (seq, Ok (n, blob), buf', t')
           | (Err _, buf') => encode_resp c t' buf = Some (seq, Err (EncRpc Encode), buf', t')
           end
       end.
Proof.
  exists (mkVariant seq (RpcActionOwned_from act) m blob None (Some noti)),
    (mkVariant seq (RpcActionOwned_from act) m blob (Some res) None).
  unfold decode_req, encode_resp, set_result; simpl. unfold Variant_decode_req, Variant_encode_resp.
  rewrite Hdec; simpl. split; [done|]. split; [by apply to_action_from|].
  split; [done|]. split; [done|]. split; [done|].
  destruct res as [[]|e]; [|done].
  destruct (codec_encode_into c m buf) as [[n|[]] buf'] eqn:Ec; [|done].
  apply encode_into_encode in Ec as (body & _ & ? & ?). eauto.
Qed.

Example variant_task_lifecycle_witness :
  exists t t' : ServerTaskVariant bytes unit,
    decode_req Raw (ActNum 3) 7 (lit "hi") (Some (lit "blob")) (mkRespNoti 0) = Ok t
    /\ encode_resp Raw t' [] = Some (7%Z, Ok (2%Z, Some (lit "blob")), lit "hi", t').
Proof.
  destruct (variant_task_lifecycle (E := unit) id Raw (ActNum 3) 7 (lit "hi") (Some (lit "blob"))
    (mkRespNoti 0) (lit "hi") (Ok ()) []) as (t & t' & H1 & _ & _ & _ & _ & H6);
    [reflexivity|].
  exists t, t'. split; [exact H1|]. simpl in H6. destruct H6 as (body & <- & _ & H). exact H.
Defined.
