(* ===== verification/TcpServer.v ===== *)
(** * transport/tcp/src/server.rs: the server side of a connection

    [TcpServer] owns the buffered stream and the scratch buffers of a
    connection.  [read_req] reads one request frame, [write_resp] and
    [write_resp_internal] write one response frame, [flush_resp] and
    [close_conn] push the buffered output out. *)

From S2P Require Import Prelude RustStd Errors Task Config Buffer Proto BufIO Parser ServerTask.

Definition SERVER_DEFAULT_BUF_SIZE : nat := Z.to_nat (8 * 1024).

Record TcpServer (T : Type) := mkTcpServer {
  ts_stream : AsyncBufStream T;
  ts_config : ServerConfig;
  ts_action_buf : bytes;
  ts_msg_buf : bytes;
  ts_encode_buf : bytes;
}.
Arguments mkTcpServer {T}.
Arguments ts_stream {T}.
Arguments ts_config {T}.
Arguments ts_action_buf {T}.
Arguments ts_msg_buf {T}.
Arguments ts_encode_buf {T}.

Section server.
Context {T : Type} `{AsyncRead T, AsyncWrite T}.
(** [io_buffer::Buffer], and the write-side shutdown of the socket. *)
Context (B : Type) `{IoBuffer B} (shutdown_write : T -> T).
(** The number of inner reads or writes of one call, and the bytes past the
    length of a reused vector. *)
Variables (fuel : nat) (stale : nat -> byte).

Local Instance stream_AsyncWrite : AsyncWrite (AsyncBufStream T) :=
  AsyncBufStream_AsyncWrite fuel.

(** Updates of one field. *)
Definition put_stream (st : AsyncBufStream T) (s : TcpServer T) : TcpServer T :=
  mkTcpServer st (ts_config s) (ts_action_buf s) (ts_msg_buf s) (ts_encode_buf s).
Definition put_action_buf (b : bytes) (s : TcpServer T) : TcpServer T :=
  mkTcpServer (ts_stream s) (ts_config s) b (ts_msg_buf s) (ts_encode_buf s).
Definition put_msg_buf (b : bytes) (s : TcpServer T) : TcpServer T :=
  mkTcpServer (ts_stream s) (ts_config s) (ts_action_buf s) b (ts_encode_buf s).
Definition put_encode_buf (b : bytes) (s : TcpServer T) : TcpServer T :=
  mkTcpServer (ts_stream s) (ts_config s) (ts_action_buf s) (ts_msg_buf s) b.

(** [new_conn]: [None] is the failed assertion on an empty buffer. *)
Definition TcpServer_new_conn (stream : T) (config : ServerConfig) : option (TcpServer T) :=
  let buf_size := sc_stream_buf_size config in
  let buf_size := if (buf_size =? 0)%nat then SERVER_DEFAULT_BUF_SIZE else buf_size in
  match AsyncBufStream_new stream buf_size with
  | Some st => Some (mkTcpServer st config [] [] [])
  | None => None
  end.

(** Read into a buffer of [n] bytes under the read timeout. *)
Definition srv_read (n : nat) : runM (TcpServer T) RpcIntErr bytes :=
  fun s =>
    run_io ts_stream put_stream (fun _ => IO)
      (io_with_timeout (sc_read_timeout (ts_config s)) (read_exact fuel n)) s.

(** The header is awaited together with the close channel and the idle timer. *)
Definition srv_read_header (cancel_f : poll unit) : runM (TcpServer T) RpcIntErr bytes :=
  fun s =>
    match cancellable (read_exact fuel RPC_REQ_HEADER_LEN) cancel_f (ts_stream s) with
    | (Ready (Ok (Ok bs)), st) => (Done (Ok bs), put_stream st s)
    | (Ready (Ok (Err _)), st) => (Done (Err IO), put_stream st s)
    | (Ready (Err _), st) => (Done (Err Timeout), put_stream st s)
    | (Pending, st) => (Waiting, put_stream st s)
    end.

Definition srv_read_action (rpc_head : ReqHead) : runM (TcpServer T) RpcIntErr RpcAction :=
  match ReqHead_get_action rpc_head with
  | Ok num => run_ret (ActNum num)
  | Err action_len =>
      let len := Z.to_nat (as_usize action_len) in
      let* _ := run_put (fun s => put_action_buf (vec_resize len (ts_action_buf s)) s) in
      let* bs := srv_read len in
      let* _ := run_put (put_action_buf bs) in
      if utf8_valid bs then run_ret (ActStr bs) else run_err Decode
  end.

Definition srv_read_msg (rpc_head : ReqHead) : runM (TcpServer T) RpcIntErr bytes :=
  let len := Z.to_nat (rq_msg_len rpc_head) in
  let* _ := run_put (fun s => put_msg_buf (vec_resize len (ts_msg_buf s)) s) in
  if (0 <? rq_msg_len rpc_head)%Z then
    let* bs := srv_read len in
    let* _ := run_put (put_msg_buf bs) in
    run_ret bs
  else run_get ts_msg_buf.

Definition srv_read_blob (rpc_head : ReqHead) : runM (TcpServer T) RpcIntErr (option bytes) :=
  let blob_len := as_i32 (rq_blob_len rpc_head) in
  if (0 <? blob_len)%Z then
    match buf_alloc (B := B) blob_len with
    | Err _ => run_err Decode
    | Ok ext_buf =>
        let* bs := srv_read (Z.to_nat (buf_len ext_buf)) in
        run_ret (Some bs)
    end
  else run_ret None.

Definition TcpServer_read_req (cancel_f : poll unit)
    : runM (TcpServer T) RpcIntErr RpcSvrReq :=
  let* req_header_buf := srv_read_header cancel_f in
  let* decoded := run_option (ReqHead_decode_head req_header_buf) in
  match decoded with
  | Err _ => run_err Decode
  | Ok rpc_head =>
      let* action := srv_read_action rpc_head in
      let* msg := srv_read_msg rpc_head in
      let* blob := srv_read_blob rpc_head in
      run_ret (mkSvrReq (rq_seq rpc_head) action msg blob)
  end.

(** [write_all] under the write timeout. *)
Definition srv_write (buf : bytes) : runM (TcpServer T) io_error unit :=
  fun s =>
    run_io ts_stream put_stream id
      (io_with_timeout (sc_write_timeout (ts_config s)) (write_all fuel buf)) s.

Definition TcpServer_write_resp {C R} `{ServerTaskEncode C R} (codec : C) (task : R)
    : runM (TcpServer T) io_error unit :=
  let* buf := run_get ts_encode_buf in
  let* enc := run_option (RespHead_encode stale codec buf task) in
  let '(_, blob_buf, buf) := enc in
  let* _ := run_put (put_encode_buf buf) in
  let* _ := srv_write buf in
  match blob_buf with
  | Some blob => srv_write blob
  | None => run_ret ()
  end.

Definition TcpServer_write_resp_internal (seq : Z) (err : option RpcIntErr)
    : runM (TcpServer T) io_error unit :=
  let* buf := run_get ts_encode_buf in
  let* enc := run_option (RespHead_encode_internal stale buf seq err) in
  let '(_, buf) := enc in
  let* _ := run_put (put_encode_buf buf) in
  srv_write buf.

Definition TcpServer_flush_resp : runM (TcpServer T) io_error unit :=
  fun s =>
    run_io ts_stream put_stream id
      (io_with_timeout (sc_write_timeout (ts_config s)) (AsyncBufStream_flush fuel)) s.

Definition TcpServer_close_conn : TcpServer T -> run unit * TcpServer T :=
  fun s =>
    match TcpServer_flush_resp s with
    | (Done (Ok _), s) =>
        let st := ts_stream s in
        (Done (), put_stream (mkBufStream (bs_read st) (bs_write st) (shutdown_write (bs_inner st))) s)
    | (Done (Err _), s) => (Done (), s)
    | (Waiting, s) => (Waiting, s)
    | (Panicked, s) => (Panicked, s)
    end.
End server.

(** ** The request grammar

    What a request frame is, independently of how it is read. *)
Section grammar.
(** Whether a blob of that length can be allocated. *)
Variable alloc_ok : Z -> bool.

Definition parse_action (h : ReqHead) : parser RpcIntErr RpcAction :=
  match ReqHead_get_action h with
  | Ok num => p_ret (ActNum num)
  | Err len =>
      let% bs := p_take IO (Z.to_nat len) in
      if utf8_valid bs then p_ret (ActStr bs) else p_err Decode
  end.

Definition parse_blob (h : ReqHead) : parser RpcIntErr (option bytes) :=
  if (0 <? as_i32 (rq_blob_len h))%Z then
    if alloc_ok (as_i32 (rq_blob_len h)) then
      let% bs := p_take IO (Z.to_nat (rq_blob_len h)) in p_ret (Some bs)
    else p_err Decode
  else p_ret None.

Definition parse_req : parser RpcIntErr RpcSvrReq :=
  let% hb := p_take IO RPC_REQ_HEADER_LEN in
  match ReqHead_decode_head hb with
  | Some (Ok h) =>
      let% action := parse_action h in
      let% msg := p_take IO (Z.to_nat (rq_msg_len h)) in
      let% blob := parse_blob h in
      p_ret (mkSvrReq (rq_seq h) action msg blob)
  | _ => p_err Decode
  end.

(** The frame of a request. *)
Definition req_frame (cid : Z) (a : RpcAction) (seq : Z) (msg : bytes) (blob : option bytes)
    : bytes :=
  ReqHead_as_bytes (req_head_of cid a seq msg blob)
  ++ action_text a ++ msg ++ default [] blob.

(** A blob of no bytes is not seen by the server. *)
Definition seen_blob (blob : option bytes) : option bytes :=
  match blob with
  | Some [] => None
  | b => b
  end.

Lemma parse_req_frame cid a seq msg blob rest :
  in_u 64 cid -> in_u 64 seq -> action_ok a -> utf8_valid (action_text a) = true ->
  (zlen msg <= u32_MAX)%Z -> (opt_len blob <= i32_MAX)%Z -> alloc_ok (opt_len blob) = true ->
  parse_req (req_frame cid a seq msg blob ++ rest) = Ok (mkSvrReq seq a msg (seen_blob blob), rest).
Proof.
  intros Hc Hs Ha Hu Hm Hb Hal. unfold parse_req, req_frame, p_bind at 1.
  rewrite <- !app_assoc, p_take_app by done. set (h := req_head_of cid a seq msg blob).
  rewrite (ReqHead_decode_wf h) by (try done; by apply req_head_of_wf).
  pose proof (opt_len_nonneg blob).
  assert (as_i32 (rq_blob_len h) = opt_len blob) as Hbl.
  { simpl. unfold as_i32, i32_MAX in *. apply swrap_small; [done|]. unfold in_i. lia. }
  assert (forall bs, parse_action h (action_text a ++ bs) = Ok (a, bs)) as Hact.
  { intros bs. unfold parse_action. rewrite (get_action_flag h a) by done.
    destruct a as [s|n]; simpl in *; [|done]. unfold p_bind.
    rewrite p_take_app by (by rewrite to_nat_zlen). by rewrite Hu. }
  unfold p_bind at 1. rewrite Hact. unfold p_bind at 1.
  rewrite p_take_app by (simpl; by rewrite to_nat_zlen).
  unfold p_bind, parse_blob. rewrite Hbl, Hal. destruct blob as [[|b bs]|]; [done| |done].
  cbn [opt_len default id]. change (0 <? zlen (b :: bs))%Z with true. unfold p_bind.
  rewrite (p_take_app IO _ (b :: bs)); [done|].
  change (rq_blob_len h) with (zlen (b :: bs)). by rewrite to_nat_zlen.
Qed.
End grammar.

Section refinement.
Context {T : Type} `{AsyncReadEofLaws T, AsyncWrite T} (B : Type) `{IoBufferLaws B}.
Variables (fuel : nat) (full : bool).

(** A connection that delivers its data, and with [full] ends after it; the
    fuel covers one read per byte. *)
Definition srv_ok (s : TcpServer T) : Prop :=
  r_inv (ts_stream s) /\ r_ready (ts_stream s) /\ (full = true -> r_closed (ts_stream s))
  /\ length (incoming (ts_stream s)) < fuel.

Definition srv_rest (s : TcpServer T) : bytes := incoming (ts_stream s).

Lemma srv_exact_reads n s :
  srv_ok s ->
  match p_take IO n (srv_rest s) with
  | Ok (bs, rest) => exists st, read_exact fuel n (ts_stream s) = (Ready (Ok bs), st)
      /\ srv_ok (put_stream st s) /\ srv_rest (put_stream st s) = rest
  | Err e => full = true -> e = IO
      /\ exists st, read_exact fuel n (ts_stream s) = (Ready (Err UnexpectedEof), st)
  end.
Proof.
  intros (Hi & Hr & Hc & Hf). unfold p_take, srv_rest.
  destruct (Nat.leb_spec n (length (incoming (ts_stream s)))) as [Hle|Hgt].
  - destruct (read_exact_enough fuel n (ts_stream s)) as (st & E & Hin & Hi' & Hr');
      [done|done|done|lia|].
    exists st. split; [done|]. split; [|done]. split; [done|]. split; [done|].
    change (ts_stream (put_stream st s)) with st. split; [|rewrite Hin, length_drop; lia].
    intros Hfull. exact (read_exact_loop_closed _ _ _ _ _ _ Hi (Hc Hfull) E).
  - intros Hfull. pose proof (read_exact_total fuel n (ts_stream s) Hi Hr (Hc Hfull) Hf) as Ht.
    destruct (Nat.leb_spec n (length (incoming (ts_stream s)))); [lia|]. by eauto.
Qed.

Lemma srv_read_reads n : reads full srv_ok srv_rest (srv_read fuel n) (p_take IO n).
Proof.
  intros s Hs. pose proof (srv_exact_reads n s Hs) as Hx.
  destruct (p_take IO n (srv_rest s)) as [[bs rest]|e].
  - destruct Hx as (st & E & Hok & Hrest). exists (put_stream st s). split; [|done].
    apply run_io_ok, io_with_timeout_ready, E.
  - intros Hfull. destruct (Hx Hfull) as (-> & st & E). exists (put_stream st s).
    eapply (run_io_err _ _ (fun _ => IO)), io_with_timeout_ready, E.
Qed.

Lemma srv_read_header_reads cancel :
  reads full srv_ok srv_rest (srv_read_header fuel cancel) (p_take IO RPC_REQ_HEADER_LEN).
Proof.
  intros s Hs. pose proof (srv_exact_reads RPC_REQ_HEADER_LEN s Hs) as Hx.
  unfold srv_read_header.
  destruct (p_take IO RPC_REQ_HEADER_LEN (srv_rest s)) as [[bs rest]|e].
  - destruct Hx as (st & E & Hok & Hrest). rewrite (cancellable_ready _ _ _ _ _ E). eauto.
  - intros Hfull. destruct (Hx Hfull) as (-> & st & E).
    rewrite (cancellable_ready _ _ _ _ _ E). eauto.
Qed.

Lemma get_action_len h len :
  ReqHead_wf h -> ReqHead_get_action h = Err len -> as_usize len = len.
Proof.
  intros (_ & _ & _ & Ha & _) E. rewrite get_action_of_flag in E by done.
  destruct (Z.ltb_spec (rq_action h) (2 ^ 31)); [done|]. injection E as <-.
  apply wrap_small. unfold in_u in *. lia.
Qed.

Lemma srv_read_action_reads h :
  ReqHead_wf h -> reads full srv_ok srv_rest (srv_read_action fuel h) (parse_action h).
Proof.
  intros Hw. unfold srv_read_action, parse_action.
  destruct (ReqHead_get_action h) as [num|len] eqn:E; [apply reads_ret|].
  rewrite (get_action_len h len Hw E). apply reads_put; [done|].
  apply reads_bind; [apply srv_read_reads|]. intros bs. apply reads_put; [done|].
  destruct (utf8_valid bs); [apply reads_ret|apply reads_err].
Qed.

Lemma srv_read_msg_reads h :
  reads full srv_ok srv_rest (srv_read_msg fuel h) (p_take IO (Z.to_nat (rq_msg_len h))).
Proof.
  intros s Hs. unfold srv_read_msg. rewrite run_bind_put.
  set (s1 := put_msg_buf _ s). assert (srv_ok s1) as Hs1 by done.
  change (srv_rest s) with (srv_rest s1). destruct (Z.ltb_spec 0 (rq_msg_len h)).
  - pose proof (srv_read_reads (Z.to_nat (rq_msg_len h)) s1 Hs1) as Hx.
    destruct (p_take IO _ (srv_rest s1)) as [[bs rest]|e].
    + destruct Hx as (s2 & E & Hok & Hrest). rewrite (run_bind_ok _ _ _ _ _ E).
      eexists. split; [done|]. done.
    + intros Hfull. destruct (Hx Hfull) as (s2 & E). rewrite (run_bind_err _ _ _ _ _ E). eauto.
  - replace (Z.to_nat (rq_msg_len h)) with 0 by lia. unfold p_take; simpl.
    exists s1. unfold run_get. split; [|done]. subst s1.
    replace (Z.to_nat (rq_msg_len h)) with 0 by lia. done.
Qed.

Definition alloc_ok (n : Z) : bool := is_ok (buf_alloc (B := B) n).

Lemma srv_read_blob_reads h :
  ReqHead_wf h -> reads full srv_ok srv_rest (srv_read_blob B fuel h) (parse_blob alloc_ok h).
Proof.
  intros (_ & _ & _ & _ & _ & _ & _ & Hb). unfold srv_read_blob, parse_blob, alloc_ok.
  destruct (Z.ltb_spec 0 (as_i32 (rq_blob_len h))); [|apply reads_ret].
  destruct (buf_alloc (as_i32 (rq_blob_len h))) as [b|[]] eqn:E; simpl; [|apply reads_err].
  apply buf_alloc_len in E as [-> _].
  replace (Z.to_nat (rq_blob_len h)) with (Z.to_nat (as_i32 (rq_blob_len h))).
  { apply reads_bind; [apply srv_read_reads|]. intros bs. apply reads_ret. }
  f_equal. unfold as_i32, swrap, in_u in *.
  pose proof (Z.mod_pos_bound (rq_blob_len h + 2 ^ (32 - 1)) (2 ^ 32)). 
  destruct (Z.lt_ge_cases (rq_blob_len h) (2 ^ 31)).
  - rewrite Z.mod_small; lia.
  - rewrite (Z.mod_eq _ (2 ^ 32)) in * by done.
    assert ((rq_blob_len h + 2 ^ (32 - 1)) / 2 ^ 32 = 1)%Z; [|lia].
    symmetry. apply (Z.div_unique _ _ 1 (rq_blob_len h - 2 ^ 31)%Z); lia.
Qed.

Lemma read_req_reads cancel :
  reads full srv_ok srv_rest (TcpServer_read_req B fuel cancel) (parse_req alloc_ok).
Proof.
  unfold TcpServer_read_req, parse_req.
  intros s Hs. pose proof (srv_read_header_reads cancel s Hs) as Hx.
  unfold p_bind at 1. destruct (p_take IO RPC_REQ_HEADER_LEN (srv_rest s)) as [[hb rest]|e] eqn:Ep.
  2:{ intros Hfull. destruct (Hx Hfull) as (s1 & E). rewrite (run_bind_err _ _ _ _ _ E). eauto. }
  destruct Hx as (s1 & E & Hs1 & <-). rewrite (run_bind_ok _ _ _ _ _ E). clear E.
  assert (length hb = RPC_REQ_HEADER_LEN) as Hl.
  { unfold p_take in Ep. case_match; [|done]. breflect. injection Ep as <- _.
    rewrite length_take. lia. }
  unfold ReqHead_decode_head. destruct (ReqHead_from_bytes hb) as [h|] eqn:Eh.
  2:{ unfold ReqHead_from_bytes in Eh. by rewrite Hl in Eh. }
  apply ReqHead_as_from_bytes in Eh as [_ Hw].
  destruct (negb _); [by apply reads_err|]. destruct (negb _); [by apply reads_err|].
  refine (reads_bind full srv_ok srv_rest _ _ (parse_action h) _ (srv_read_action_reads h Hw) _ s1 Hs1).
  intros a.
  apply reads_bind; [apply srv_read_msg_reads|]. intros msg.
  apply reads_bind; [by apply srv_read_blob_reads|]. intros blob. apply reads_ret.
Qed.
End refinement.

(** ** Writing responses *)

Section writing.
Context {T : Type} `{AsyncRead T, AsyncWriteLaws T}.
Variables (fuel : nat) (stale : nat -> byte).

(** A connection whose socket accepts data; the fuel covers a full buffer. *)
Definition srv_can_write (s : TcpServer T) : Prop :=
  @w_inv _ _ (AsyncBufStream_WriteLaws fuel) (ts_stream s) /\ w_ready (bs_inner (ts_stream s)).

(** What has been written: sent, or waiting in the buffer. *)
Definition srv_out (s : TcpServer T) : bytes :=
  @outgoing _ _ (AsyncBufStream_WriteLaws fuel) (ts_stream s).

Lemma srv_write_ok buf s :
  srv_can_write s -> length buf <= fuel ->
  exists s', srv_write fuel buf s = (Done (Ok ()), s')
    /\ srv_out s' = srv_out s ++ buf /\ srv_can_write s'
    /\ ts_encode_buf s' = ts_encode_buf s /\ ts_config s' = ts_config s.
Proof.
  intros [Hi Hr] Hf.
  destruct (@write_all_enough _ _ (AsyncBufStream_WriteLaws fuel) fuel buf (ts_stream s))
    as [st E]; [done..|].
  exists (put_stream st s). split; [by apply run_io_ok, io_with_timeout_ready|].
  destruct (@write_all_ok _ _ (AsyncBufStream_WriteLaws fuel) _ _ _ _ Hi E) as (Ho & Hi' & Hr').
  split; [done|]. split; [split; [done|by apply Hr']|done].
Qed.

Lemma write_resp_frame {C R} `{ServerTaskEncode C R} (c : C) (t : R) s seq blob buf :
  srv_can_write s ->
  RespHead_encode stale c (ts_encode_buf s) t = Some (seq, blob, buf) ->
  length buf <= fuel -> (opt_len blob <= Z.of_nat fuel)%Z ->
  exists s', TcpServer_write_resp fuel stale c t s = (Done (Ok ()), s')
    /\ srv_out s' = srv_out s ++ buf ++ default [] blob /\ srv_can_write s'.
Proof.
  intros Hs E Hf Hb. unfold TcpServer_write_resp.
  rewrite (run_bind_ok _ _ s (ts_encode_buf s) s) by done. rewrite E. cbn [run_option].
  rewrite (run_bind_ok _ _ s (seq, blob, buf) s) by done. rewrite run_bind_put.
  destruct (srv_write_ok buf (put_encode_buf buf s)) as (s1 & E1 & Ho & Hs1 & _); [done..|].
  rewrite (run_bind_ok _ _ _ _ _ E1). destruct blob as [b|]; simpl.
  - destruct (srv_write_ok b s1) as (s2 & E2 & Ho2 & Hs2 & _); [done| |].
    { simpl in Hb. unfold zlen in Hb. lia. }
    exists s2. rewrite E2, Ho2, Ho, <- app_assoc. done.
  - exists s1. rewrite app_nil_r. done.
Qed.

Lemma write_resp_internal_frame seq err s :
  srv_can_write s -> 64 <= fuel ->
  exists s', TcpServer_write_resp_internal fuel stale seq err s = (Done (Ok ()), s')
    /\ srv_out s' = srv_out s ++
         match err with
         | Some e => RespHead_as_bytes (err_head_of seq (EncRpc e)) ++ RpcIntErr_as_bytes e
         | None => RespHead_as_bytes (resp_head_of seq [] None)
         end
    /\ srv_can_write s'.
Proof.
  intros Hs Hf. unfold TcpServer_write_resp_internal.
  rewrite (run_bind_ok _ _ s (ts_encode_buf s) s) by done.
  rewrite RespHead_encode_internal_spec. cbn [run_option].
  set (buf := match err with Some e => _ | None => _ end).
  rewrite (run_bind_ok _ _ s (seq, buf) s) by done. rewrite run_bind_put.
  destruct (srv_write_ok buf (put_encode_buf buf s)) as (s1 & E1 & Ho & Hs1 & _); [done| |by eauto].
  transitivity 64; [|done]. by destruct err as [[]|]; vm_compute; lia.
Qed.

Lemma flush_resp_ok s :
  srv_can_write s ->
  exists s', TcpServer_flush_resp fuel s = (Done (Ok ()), s')
    /\ outgoing (bs_inner (ts_stream s')) = srv_out s /\ srv_out s' = srv_out s
    /\ w_inv (bs_inner (ts_stream s')).
Proof.
  intros [(Hw & Hi & Hf) Hr].
  destruct (AsyncBufStream_flush_enough fuel (ts_stream s) Hw Hi Hr Hf) as [st E].
  exists (put_stream st s). split; [by apply run_io_ok, io_with_timeout_ready|].
  apply AsyncBufStream_flush_ok in E as (Ho & Hp & _ & Hi' & _); [|done|done].
  unfold srv_out; simpl. by rewrite Hp, Ho, app_nil_r.
Qed.
End writing.
