(* ===== verification/Timer.v ===== *)
(** * stream/src/client/timer.rs: requests waiting for their response

    [ClientTaskTimer] keeps the tasks whose request has been sent: first in the
    registration channel, then in [sent_tasks] (the current second), then in
    [delay_tasks_queue] (one batch per past second).  A task leaves it through
    [take_task] (its response arrived), [adjust_task_queue] (it timed out) or
    [clean_pending_tasks] (the connection died).

    A registered item holds [Some task] until the item is taken out of the
    timer, so the model keeps the task itself.  The channel is its contents in
    order.  Hash maps are visited in the order of [map_to_list]; the theorems
    hold up to permutation.  An operation that finishes tasks returns the
    events in order. *)

From S2P Require Import Prelude RustStd Errors Task ClientTaskMacro Buffer.

Record ClientTaskTimer (T : Type) := mkTimer {
  tm_pending : list T;          (* pending_tasks_recv *)
  tm_count : Z;                 (* pending_task_count: AtomicU64 *)
  tm_sent : gmap Z T;           (* sent_tasks *)
  tm_delay : list (gmap Z T);   (* delay_tasks_queue, newest first *)
  tm_min_delay_seq : Z;
  tm_task_timeout : nat;
  tm_processed_seq : Z;
  tm_reg_stopped : bool;
}.
Arguments mkTimer {T}.
Arguments tm_pending {T}.
Arguments tm_count {T}.
Arguments tm_sent {T}.
Arguments tm_delay {T}.
Arguments tm_min_delay_seq {T}.
Arguments tm_task_timeout {T}.
Arguments tm_processed_seq {T}.
Arguments tm_reg_stopped {T}.

Section timer.
Context {C T : Type} `{ClientTask C T}.
Implicit Types t : ClientTaskTimer T.

Definition ClientTaskTimer_new (task_timeout : nat) : ClientTaskTimer T :=
  {| tm_pending := []; tm_count := 0; tm_sent := ∅; tm_delay := []; tm_min_delay_seq := 0;
     tm_task_timeout := task_timeout; tm_processed_seq := 0; tm_reg_stopped := false |}.

(** The capacity of the registration channel. *)
Definition pending_capacity (thresholds : Z) : Z :=
  ((if thresholds =? 0 then 500 else thresholds) * 2)%Z.

Definition put_count (n : Z) t : ClientTaskTimer T :=
  mkTimer (tm_pending t) n (tm_sent t) (tm_delay t) (tm_min_delay_seq t)
    (tm_task_timeout t) (tm_processed_seq t) (tm_reg_stopped t).
Definition put_maps (sent : gmap Z T) (delay : list (gmap Z T)) t : ClientTaskTimer T :=
  mkTimer (tm_pending t) (tm_count t) sent delay (tm_min_delay_seq t)
    (tm_task_timeout t) (tm_processed_seq t) (tm_reg_stopped t).

(** [pending_task_count_ref().fetch_add(1)] and [fetch_sub(1)] *)
Definition count_add t : ClientTaskTimer T := put_count (as_u64 (tm_count t + 1)) t.
Definition count_sub t : ClientTaskTimer T := put_count (as_u64 (tm_count t - 1)) t.

(** [reg_task] once the bounded channel has room. *)
Definition reg_task (task : T) t : ClientTaskTimer T :=
  mkTimer (tm_pending t ++ [task]) (tm_count t) (tm_sent t) (tm_delay t) (tm_min_delay_seq t)
    (tm_task_timeout t) (tm_processed_seq t) (tm_reg_stopped t).

Definition stop_reg_task t : ClientTaskTimer T :=
  mkTimer (tm_pending t) (tm_count t) (tm_sent t) (tm_delay t) (tm_min_delay_seq t)
    (tm_task_timeout t) (tm_processed_seq t) true.

Definition got_pending_task (task : T) t : ClientTaskTimer T :=
  let t := count_sub t in
  mkTimer (tm_pending t) (tm_count t) (<[task_seq task := task]> (tm_sent t)) (tm_delay t)
    (tm_min_delay_seq t) (tm_task_timeout t) (task_seq task) (tm_reg_stopped t).

(** Receive everything the channel holds: the [try_recv] loop of
    [clean_pending_tasks] and [check_pending_tasks_empty]. *)
Definition drain_pending t : ClientTaskTimer T :=
  fold_left (fun t task => got_pending_task task t) (tm_pending t)
    (mkTimer [] (tm_count t) (tm_sent t) (tm_delay t) (tm_min_delay_seq t)
       (tm_task_timeout t) (tm_processed_seq t) (tm_reg_stopped t)).

(** [poll_sent_task]: the same through [poll_item], and whether any came. *)
Definition poll_sent_task t : bool * ClientTaskTimer T :=
  (match tm_pending t with [] => false | _ => true end, drain_pending t).

(** The tasks of a map, in visiting order. *)
Definition map_tasks (m : gmap Z T) : list T := (map_to_list m).*2.

(** Fail every task of a map. *)
Definition fail_all (e : RpcIntErr) (m : gmap Z T) : list (task_event T) :=
  (fun task => EvErrorHandle (set_rpc_error task e)) <$> map_tasks m.

Definition clean_pending_tasks t : list (task_event T) * ClientTaskTimer T :=
  let t := drain_pending t in
  (fail_all IO (tm_sent t) ++ mjoin (fail_all IO <$> tm_delay t),
   put_maps ∅ ((fun _ => ∅) <$> tm_delay t) t).

Definition check_pending_tasks_empty t : bool * ClientTaskTimer T :=
  let t := drain_pending t in
  (bool_decide (tm_sent t = ∅) && forallb (fun m => bool_decide (m = ∅)) (tm_delay t), t).

(** One poll of [WaitRegTaskFuture]. *)
Definition WaitRegTask_poll (target_seq : Z) t : poll (result unit unit) * ClientTaskTimer T :=
  if (target_seq <=? tm_processed_seq t)%Z then (Ready (Ok ()), t)
  else if tm_reg_stopped t then (Ready (Err ()), t)
  else
    let '(got, t) := poll_sent_task t in
    if got && (target_seq <=? tm_processed_seq t)%Z then (Ready (Ok ()), t) else (Pending, t).

(** The first batch that holds the sequence number. *)
Fixpoint take_from_batches (seq : Z) (batches : list (gmap Z T))
    : option T * list (gmap Z T) :=
  match batches with
  | [] => (None, [])
  | m :: batches =>
      match m !! seq with
      | Some task => (Some task, delete seq m :: batches)
      | None => let '(r, batches) := take_from_batches seq batches in (r, m :: batches)
      end
  end.

(** The second half of [take_task], after the wait. *)
Definition take_registered (seq : Z) t : option T * ClientTaskTimer T :=
  match tm_sent t !! seq with
  | Some task => (Some task, put_maps (delete seq (tm_sent t)) (tm_delay t) t)
  | None =>
      let '(r, delay) := take_from_batches seq (tm_delay t) in
      (r, put_maps (tm_sent t) delay t)
  end.

(** [take_task], polled once. *)
Definition take_task (seq : Z) t : poll (option T) * ClientTaskTimer T :=
  if (seq <? tm_min_delay_seq t)%Z then (Ready None, t)
  else if (tm_processed_seq t <? seq)%Z then
    match WaitRegTask_poll seq t with
    | (Ready (Ok _), t) => let '(r, t) := take_registered seq t in (Ready r, t)
    | (Ready (Err _), t) => (Ready None, t)
    | (Pending, t) => (Pending, t)
    end
  else let '(r, t) := take_registered seq t in (Ready r, t).

(** The smallest sequence number seen, [0] standing for none. *)
Definition min_seq_step (min_seq seq : Z) : Z :=
  if (min_seq =? 0)%Z then seq else if (seq <? min_seq)%Z then seq else min_seq.

(** [adjust_task_queue]: one second has passed. *)
Definition adjust_task_queue t : list (task_event T) * ClientTaskTimer T :=
  let delay := tm_sent t :: tm_delay t in
  let t := put_maps ∅ delay t in
  if (tm_task_timeout t <? length delay)%nat then
    match delay !! (length delay - 1) with
    | None => ([], t)
    | Some real_timeout =>
        let t := put_maps ∅ (take (length delay - 1) delay) t in
        if bool_decide (real_timeout = ∅) then ([], t)
        else
          (fail_all Timeout real_timeout,
           mkTimer (tm_pending t) (tm_count t) (tm_sent t) (tm_delay t)
             (fold_left min_seq_step (task_seq <$> map_tasks real_timeout) 0%Z)
             (tm_task_timeout t) (tm_processed_seq t) (tm_reg_stopped t))
    end
  else ([], t).
End timer.

(** ** The contract

    The timer as a bag of live tasks.  Sequence numbers grow in the order of
    registration; [0] is never used. *)
Section spec.
Context {C T : Type} `{ClientTaskLaws C T}.
Implicit Types t : ClientTaskTimer T.

Definition gens t : list (gmap Z T) := tm_sent t :: tm_delay t.

Definition live_tasks t : list T := tm_pending t ++ mjoin (map_tasks <$> gens t).

(** Every task of [m1] was registered after every task of [m2]. *)
Definition gen_newer (m1 m2 : gmap Z T) : Prop :=
  forall k1 k2, is_Some (m1 !! k1) -> is_Some (m2 !! k2) -> (k2 < k1)%Z.

(** A batch is indexed by sequence number, within the given bounds. *)
Definition gen_ok (lo hi : Z) (m : gmap Z T) : Prop :=
  forall k x, m !! k = Some x -> task_seq x = k /\ (0 < k)%Z /\ (lo <= k <= hi)%Z.

Record timer_inv t : Prop := {
  ti_gens : Forall (gen_ok (tm_min_delay_seq t) (tm_processed_seq t)) (gens t);
  ti_order : StronglySorted gen_newer (gens t);
  ti_pending : StronglySorted Z.lt (task_seq <$> tm_pending t);
  ti_fresh : Forall (fun x => tm_processed_seq t < task_seq x)%Z (tm_pending t);
  ti_bounds : (0 <= tm_min_delay_seq t <= tm_processed_seq t)%Z;
  ti_count : (Z.of_nat (length (tm_pending t)) <= tm_count t < 2 ^ 64)%Z;
  ti_len : length (tm_delay t) <= tm_task_timeout t;
}.

Lemma timer_inv_new n : timer_inv (ClientTaskTimer_new n).
Proof.
  split; simpl; try (by repeat constructor); lia.
Qed.

(** *** Draining the channel *)

Definition put_pending (l : list T) t : ClientTaskTimer T :=
  mkTimer l (tm_count t) (tm_sent t) (tm_delay t) (tm_min_delay_seq t)
    (tm_task_timeout t) (tm_processed_seq t) (tm_reg_stopped t).

Lemma drain_pending_cons t x l :
  tm_pending t = x :: l ->
  drain_pending t = drain_pending (got_pending_task x (put_pending l t)).
Proof. intros E. unfold drain_pending. rewrite E. done. Qed.

Lemma map_tasks_insert m k (x : T) :
  m !! k = None -> map_tasks (<[k := x]> m) ≡ₚ x :: map_tasks m.
Proof. intros E. unfold map_tasks. by rewrite (map_to_list_insert m k x E). Qed.

Lemma map_tasks_delete m k (x : T) :
  m !! k = Some x -> map_tasks m ≡ₚ x :: map_tasks (delete k m).
Proof. intros E. unfold map_tasks. by rewrite <- (map_to_list_delete m k x E). Qed.

Lemma gen_ok_fresh lo hi m k : gen_ok lo hi m -> (hi < k)%Z -> m !! k = None.
Proof.
  intros Hm Hk. destruct (m !! k) as [x|] eqn:E; [|done].
  destruct (Hm k x E) as (_ & _ & ?). lia.
Qed.

Lemma gen_ok_mono lo hi lo' hi' m :
  gen_ok lo hi m -> (lo' <= lo)%Z -> (hi <= hi')%Z -> gen_ok lo' hi' m.
Proof. intros Hm ? ? k x Hk. destruct (Hm k x Hk) as (? & ? & ?). split_and!; auto; lia. Qed.

Lemma got_pending_step t x l :
  timer_inv t -> tm_pending t = x :: l ->
  let t' := got_pending_task x (put_pending l t) in
  timer_inv t' /\ live_tasks t' ≡ₚ live_tasks t.
Proof.
  intros [Hg Ho Hp Hf Hb Hc Hl] E t'. rewrite E in *. simpl in *.
  apply Forall_cons_1 in Hg as [Hs Hd]. apply Forall_cons_1 in Hf as [Hx Hf].
  apply StronglySorted_inv in Ho as [Ho Hso]. apply StronglySorted_inv in Hp as [Hp Hsp].
  assert (tm_sent t !! task_seq x = None) as Hnone by (by eapply gen_ok_fresh).
  subst t'. unfold got_pending_task, put_pending, count_sub, put_count. split.
  - split; unfold gens; simpl.
    + constructor; [|eapply Forall_impl; [|exact Hd]; intros m Hm; eapply gen_ok_mono; [done|lia|lia]].
      intros k y Hk. destruct (decide (k = task_seq x)) as [->|Hne].
      * rewrite lookup_insert_eq in Hk. simplify_eq. split; [done|]. lia.
      * rewrite lookup_insert_ne in Hk by done.
        destruct (Hs k y Hk) as (? & ? & ?). split; [done|]. lia.
    + constructor; [done|]. rewrite list.Forall_forall in Hso, Hd |- *.
      intros m Hm k1 k2 Hk1 Hk2. destruct (decide (k1 = task_seq x)) as [->|Hne].
      * destruct Hk2 as [y Hy]. destruct (Hd m Hm k2 y Hy) as (_ & _ & ?). lia.
      * rewrite lookup_insert_ne in Hk1 by done. by eapply Hso.
    + done.
    + rewrite Forall_fmap in Hsp. done.
    + lia.
    + unfold as_u64, wrap. rewrite Z.mod_small; lia.
    + done.
  - unfold live_tasks, gens. rewrite E. cbn [tm_pending tm_sent tm_delay].
    transitivity (l ++ map_tasks (<[task_seq x := x]> (tm_sent t))
                  ++ mjoin (map_tasks <$> tm_delay t)); [done|].
    rewrite (map_tasks_insert _ _ x Hnone), <- app_comm_cons, <- Permutation_middle. done.
Qed.

Lemma drain_pending_ok t :
  timer_inv t ->
  timer_inv (drain_pending t) /\ live_tasks (drain_pending t) ≡ₚ live_tasks t
  /\ tm_pending (drain_pending t) = []
  /\ tm_processed_seq (drain_pending t)
     = default (tm_processed_seq t) (task_seq <$> list.last (tm_pending t))
  /\ tm_reg_stopped (drain_pending t) = tm_reg_stopped t
  /\ tm_min_delay_seq (drain_pending t) = tm_min_delay_seq t
  /\ tm_delay (drain_pending t) = tm_delay t
  /\ tm_task_timeout (drain_pending t) = tm_task_timeout t.
Proof.
  remember (tm_pending t) as l eqn:E. revert t E.
  induction l as [|x l IH]; intros t E Hi.
  { unfold drain_pending. rewrite <- E. destruct t; simpl in *; subst. done. }
  rewrite (drain_pending_cons t x l) by done.
  destruct (got_pending_step t x l Hi) as [Hi' Hl']; [done|].
  destruct (IH (got_pending_task x (put_pending l t)) eq_refl Hi')
    as (H1 & H2 & H3 & H4 & H5 & H6 & H7 & H8).
  split; [done|]. split; [by rewrite H2|]. split; [done|].
  rewrite H4, H5, H6, H7, H8. split; [|done]. rewrite last_cons. by destruct (list.last l).
Qed.
Lemma drain_count t :
  timer_inv t ->
  tm_count (drain_pending t) = (tm_count t - Z.of_nat (length (tm_pending t)))%Z.
Proof.
  remember (tm_pending t) as l eqn:E. revert t E.
  induction l as [|x l IH]; intros t E Hi.
  { unfold drain_pending. rewrite <- E. simpl. lia. }
  rewrite (drain_pending_cons t x l) by done.
  destruct (got_pending_step t x l Hi) as [Hi' _]; [done|].
  rewrite (IH (got_pending_task x (put_pending l t)) eq_refl Hi').
  pose proof (ti_count t Hi) as Hc. rewrite <- E in Hc.
  unfold got_pending_task, put_pending, count_sub, put_count; simpl in *.
  unfold as_u64, wrap. rewrite Z.mod_small; lia.
Qed.

(** *** Removing tasks *)

Lemma gens_sub_ok lo hi (l' l : list (gmap Z T)) :
  Forall2 (⊆) l' l -> Forall (gen_ok lo hi) l -> Forall (gen_ok lo hi) l'.
Proof.
  induction 1 as [|m' m l' l Hm _ IH]; [done|]. intros [Hg Hl]%Forall_cons_1.
  constructor; [|by apply IH]. intros k x Hk. apply Hg. by eapply lookup_weaken.
Qed.

Lemma gens_sub_sorted (l' l : list (gmap Z T)) :
  Forall2 (⊆) l' l -> StronglySorted gen_newer l -> StronglySorted gen_newer l'.
Proof.
  induction 1 as [|m' m l' l Hm Hl IH]; [done|]. intros [Hs Hn]%StronglySorted_inv.
  constructor; [by apply IH|]. clear IH Hs.
  induction Hl as [|n' n l' l Hn' Hl IH]; [done|]. apply Forall_cons_1 in Hn as [Hmn Hn].
  constructor; [|by apply IH]. intros k1 k2 [x1 H1] [x2 H2].
  apply Hmn; eexists; eapply lookup_weaken; eauto.
Qed.

Lemma put_maps_inv t sent delay :
  timer_inv t -> Forall2 (⊆) (sent :: delay) (gens t) -> timer_inv (put_maps sent delay t).
Proof.
  intros [Hg Ho Hp Hf Hb Hc Hl] Hsub. split; simpl; try done.
  - by eapply gens_sub_ok.
  - by eapply gens_sub_sorted.
  - apply Forall2_length in Hsub. simpl in Hsub. lia.
Qed.

Lemma sub_refl (l : list (gmap Z T)) : Forall2 (⊆) l l.
Proof. by apply Forall_Forall2_diag, Forall_true. Qed.

Lemma take_from_batches_ok seq (l : list (gmap Z T)) r l' :
  take_from_batches seq l = (r, l') ->
  Forall2 (⊆) l' l /\
  match r with
  | Some x => (exists m, m ∈ l /\ m !! seq = Some x)
      /\ mjoin (map_tasks <$> l) ≡ₚ x :: mjoin (map_tasks <$> l')
  | None => l' = l /\ Forall (fun m => m !! seq = None) l
  end.
Proof.
  revert r l'. induction l as [|m l IH]; intros r l'; cbn [take_from_batches].
  { intros [= <- <-]. by repeat constructor. }
  destruct (m !! seq) as [x|] eqn:E.
  - intros [= <- <-]. split; [constructor; [apply delete_subseteq|apply sub_refl]|].
    split; [by exists m; split; [left|]|]. cbn.
    by rewrite (map_tasks_delete m seq x E).
  - destruct (take_from_batches seq l) as [r1 l1] eqn:E1. intros [= <- <-].
    destruct (IH _ _ eq_refl) as [Hs Hr]. split; [by constructor|]. destruct r1 as [x|].
    + destruct Hr as [(m1 & Hm1 & Hx) Hp]. split; [by exists m1; split; [right|]|].
      cbn. rewrite Hp. by rewrite Permutation_middle.
    + destruct Hr as [-> Hn]. split; [done|by constructor].
Qed.

(** The sequence numbers held in the maps. *)
Lemma gens_seqs t x :
  timer_inv t -> x ∈ mjoin (map_tasks <$> gens t) ->
  exists m, m ∈ gens t /\ m !! task_seq x = Some x
    /\ (tm_min_delay_seq t <= task_seq x <= tm_processed_seq t)%Z.
Proof.
  intros Hi Hx. apply list_elem_of_join in Hx as (l & Hx & Hl).
  apply list_elem_of_fmap in Hl as (m & -> & Hm). apply list_elem_of_fmap in Hx as ([k y] & -> & Hy).
  apply elem_of_map_to_list in Hy. simpl.
  pose proof (proj1 (list.Forall_forall _ _) (ti_gens t Hi) m Hm k y Hy) as (-> & _ & ?). eauto.
Qed.

Lemma take_registered_ok seq t r t' :
  timer_inv t -> take_registered seq t = (r, t') ->
  timer_inv t' /\
  match r with
  | Some x => task_seq x = seq /\ live_tasks t ≡ₚ x :: live_tasks t'
  | None => live_tasks t' = live_tasks t /\ Forall (fun m => m !! seq = None) (gens t)
  end.
Proof.
  intros Hi. unfold take_registered. destruct (tm_sent t !! seq) as [x|] eqn:E.
  - intros [= <- <-]. split.
    { apply put_maps_inv; [done|]. constructor; [apply delete_subseteq|apply sub_refl]. }
    pose proof (ti_gens t Hi) as [Hs _]%Forall_cons_1. split; [by apply Hs in E as [? _]|].
    unfold live_tasks, gens. cbn. rewrite (map_tasks_delete _ seq x E). cbn.
    symmetry. apply Permutation_middle.
  - destruct (take_from_batches seq (tm_delay t)) as [r1 d1] eqn:E1. intros [= <- <-].
    apply take_from_batches_ok in E1 as [Hs Hr]. split.
    { apply put_maps_inv; [done|]. by constructor. }
    destruct r1 as [x|].
    + destruct Hr as [(m & Hm & Hx) Hp].
      pose proof (ti_gens t Hi) as [_ Hd]%Forall_cons_1. rewrite list.Forall_forall in Hd.
      split; [by apply (Hd m Hm) in Hx as [? _]|].
      unfold live_tasks, gens. cbn. rewrite Hp, <- !Permutation_middle. done.
    + destruct Hr as [-> Hn]. split; [by destruct t|]. by constructor.
Qed.

(** A sequence number in no map and past no pending task is not live. *)
Lemma not_in_gens t seq :
  timer_inv t -> Forall (fun m => m !! seq = None) (gens t) ->
  seq ∉ (task_seq <$> mjoin (map_tasks <$> gens t)).
Proof.
  intros Hi Hn (x & -> & Hx)%list_elem_of_fmap.
  apply gens_seqs in Hx as (m & Hm & Hx & _); [|done].
  rewrite list.Forall_forall in Hn. by rewrite (Hn m Hm) in Hx.
Qed.

Lemma live_seq_bounds t x :
  timer_inv t -> x ∈ live_tasks t ->
  (tm_min_delay_seq t <= task_seq x)%Z
  /\ (tm_pending t = [] -> (task_seq x <= tm_processed_seq t)%Z).
Proof.
  intros Hi [Hx|Hx]%elem_of_app.
  - pose proof (proj1 (list.Forall_forall _ _) (ti_fresh t Hi) x Hx). pose proof (ti_bounds t Hi).
    simpl in *. split; [lia|]. intros E. rewrite E in Hx. by apply not_elem_of_nil in Hx.
  - apply gens_seqs in Hx as (_ & _ & _ & ?); [|done]. split; [lia|]. intros _. lia.
Qed.

Lemma take_task_ok seq t r t' :
  timer_inv t -> take_task seq t = (r, t') ->
  timer_inv t' /\
  match r with
  | Ready (Some x) => task_seq x = seq /\ live_tasks t ≡ₚ x :: live_tasks t'
  | Ready None => live_tasks t' ≡ₚ live_tasks t
      /\ (tm_reg_stopped t = false -> seq ∉ (task_seq <$> live_tasks t))
  | Pending => live_tasks t' ≡ₚ live_tasks t /\ tm_reg_stopped t = false
      /\ Forall (fun x => task_seq x < seq)%Z (live_tasks t)
  end.
Proof.
  intros Hi. unfold take_task. destruct (Z.ltb_spec seq (tm_min_delay_seq t)).
  { intros [= <- <-]. split; [done|]. split; [done|]. intros _ (x & -> & Hx)%list_elem_of_fmap.
    destruct (live_seq_bounds t x Hi Hx). lia. }
  destruct (Z.ltb_spec (tm_processed_seq t) seq) as [Hps|Hps].
  2:{ destruct (take_registered seq t) as [r1 t1] eqn:E. intros [= <- <-].
      apply take_registered_ok in E as [Hi1 Hr]; [|done]. split; [done|].
      destruct r1 as [x|]; [done|]. destruct Hr as [-> Hn]. split; [done|]. intros _.
      unfold live_tasks. rewrite fmap_app. intros [Hx|Hx]%elem_of_app.
      - apply list_elem_of_fmap in Hx as (x & -> & Hx).
        pose proof (proj1 (list.Forall_forall _ _) (ti_fresh t Hi) x Hx). simpl in *. lia.
      - exact (not_in_gens t seq Hi Hn Hx). }
  unfold WaitRegTask_poll. destruct (Z.leb_spec seq (tm_processed_seq t)); [lia|].
  destruct (tm_reg_stopped t) eqn:Est; [by intros [= <- <-]|]. unfold poll_sent_task.
  destruct (drain_pending_ok t Hi) as (Hi1 & Hl1 & Hp1 & Hq1 & _).
  set (t1 := drain_pending t) in *.
  destruct (match tm_pending t with [] => false | _ => true end
            && (seq <=? tm_processed_seq t1)%Z) eqn:Eb.
  - destruct (take_registered seq t1) as [r1 t2] eqn:E. intros [= <- <-].
    apply take_registered_ok in E as [Hi2 Hr]; [|done]. split; [done|].
    destruct r1 as [x|]; [by rewrite <- Hl1|]. destruct Hr as [-> Hn]. split; [done|].
    intros _. rewrite <- Hl1. unfold live_tasks. rewrite Hp1. by apply not_in_gens.
  - intros [= <- <-]. split; [done|]. split; [done|]. split; [done|].
    apply list.Forall_forall. intros x Hx. rewrite <- Hl1 in Hx.
    destruct (live_seq_bounds t1 x Hi1 Hx) as [_ Hb]. specialize (Hb Hp1).
    apply andb_false_iff in Eb as [Eb|Eb]; [|breflect; lia].
    destruct (tm_pending t) eqn:Ep; [|done]. rewrite Hq1 in Hb. simpl in Hb. lia.
Qed.

Lemma take_registered_maps seq t r t' :
  take_registered seq t = (r, t') -> exists sent delay, t' = put_maps sent delay t.
Proof.
  unfold take_registered. destruct (_ !! _); [intros [= _ <-]; eauto|].
  destruct (take_from_batches seq (tm_delay t)). intros [= _ <-]. eauto.
Qed.

(** [take_task] drains the channel or not, and otherwise changes the maps only. *)
Lemma take_task_cases seq t r t' :
  take_task seq t = (r, t') ->
  exists t1 sent delay, (t1 = t \/ t1 = drain_pending t) /\ t' = put_maps sent delay t1.
Proof.
  assert (forall t1 u v, (let '(q, u) := take_registered seq t1 in (Ready q, u)) = (u, v) ->
    exists sent delay, v = put_maps sent delay t1) as Hreg.
  { intros t1 u v. destruct (take_registered seq t1) as [q w] eqn:E. intros [= _ <-].
    by apply take_registered_maps in E. }
  assert (forall t1, exists sent delay, t1 = put_maps sent delay t1) as Hid.
  { intros t1. exists (tm_sent t1), (tm_delay t1). by destruct t1. }
  assert (forall t1, (t1 = t \/ t1 = drain_pending t) -> (exists sent delay, t' = put_maps sent delay t1) ->
    exists t1 sent delay, (t1 = t \/ t1 = drain_pending t) /\ t' = put_maps sent delay t1) as Hex.
  { intros t1 ? (sent & delay & ->). by exists t1, sent, delay. }
  unfold take_task, WaitRegTask_poll, poll_sent_task. destruct (_ <? _)%Z; [intros [= _ <-]; eauto|].
  destruct (_ <? _)%Z; [|intros E; apply Hreg in E; eauto].
  destruct (_ <=? _)%Z; [intros E; apply Hreg in E; eauto|].
  destruct (tm_reg_stopped t); [intros [= _ <-]; eauto|].
  destruct (_ && _); [intros E; apply Hreg in E; eauto|]. intros [= _ <-]; eauto.
Qed.

Lemma take_task_stopped seq t r t' :
  timer_inv t -> take_task seq t = (r, t') -> tm_reg_stopped t' = tm_reg_stopped t.
Proof.
  intros Hi (t1 & sent & delay & [->| ->] & ->)%take_task_cases; [done|]. by apply drain_pending_ok.
Qed.

(** A live task is found, and nothing else is touched. *)
Lemma take_task_live t x :
  timer_inv t -> tm_reg_stopped t = false -> NoDup (task_seq <$> live_tasks t) ->
  x ∈ live_tasks t ->
  exists t', take_task (task_seq x) t = (Ready (Some x), t') /\ timer_inv t'
    /\ tm_reg_stopped t' = false /\ live_tasks t ≡ₚ x :: live_tasks t'.
Proof.
  intros Hi Hst Hnd Hx. destruct (take_task (task_seq x) t) as [r t'] eqn:E.
  pose proof (take_task_stopped _ _ _ _ Hi E) as Hst'. rewrite Hst in Hst'.
  apply take_task_ok in E as [Hi' Hr]; [|done]. destruct r as [[y|]|].
  - destruct Hr as [Hy Hl]. assert (y = x) as ->; [|by exists t'].
    rewrite Hl in Hx, Hnd. csimpl in Hnd. apply list.NoDup_cons in Hnd as [Hn _].
    apply elem_of_cons in Hx as [->|Hx]; [done|]. exfalso. apply Hn. rewrite Hy.
    by apply list_elem_of_fmap_2.
  - destruct Hr as [_ Hn]. exfalso. apply Hn; [done|]. by apply list_elem_of_fmap_2.
  - destruct Hr as (_ & _ & Hall). rewrite list.Forall_forall in Hall.
    specialize (Hall x Hx). simpl in Hall. lia.
Qed.

(** Registrations announced through the counter that are not in the channel. *)
Definition announced t : Z := (tm_count t - zlen (tm_pending t))%Z.

Lemma drain_announced t : timer_inv t -> announced (drain_pending t) = announced t.
Proof.
  intros Hi. unfold announced. rewrite drain_count by done.
  destruct (drain_pending_ok t Hi) as (_ & _ & -> & _). unfold zlen. simpl. lia.
Qed.

Lemma take_task_announced seq t r t' :
  timer_inv t -> take_task seq t = (r, t') -> announced t' = announced t.
Proof.
  intros Hi (t1 & sent & delay & [->| ->] & ->)%take_task_cases; [done|]. by apply drain_announced.
Qed.

(** *** Time *)

Lemma min_seq_fold l a :
  (0 < a)%Z -> Forall (fun k => 0 < k)%Z l ->
  let m := fold_left min_seq_step l a in m ∈ a :: l /\ Forall (fun k => m <= k)%Z (a :: l).
Proof.
  revert a. induction l as [|b l IH]; intros a Ha Hl; simpl.
  { split; [by left|]. repeat constructor; lia. }
  apply Forall_cons_1 in Hl as [Hb Hl]. unfold min_seq_step at 2 4.
  destruct (Z.eqb_spec a 0); [lia|]. destruct (Z.ltb_spec b a).
  - destruct (IH b Hb Hl) as [Hm1 Hm2]. split; [by right|]. constructor; [|done].
    apply Forall_cons_1 in Hm2 as [? _]. lia.
  - destruct (IH a Ha Hl) as [Hm1 Hm2]. apply Forall_cons_1 in Hm2 as [Hm2 Hm3].
    split; [apply elem_of_cons in Hm1 as [Hm1|Hm1]; [rewrite Hm1; by left|by right; right]|].
    constructor; [done|]. constructor; [lia|done].
Qed.

Lemma min_seq_fold_0 l :
  l <> [] -> Forall (fun k => 0 < k)%Z l ->
  let m := fold_left min_seq_step l 0%Z in m ∈ l /\ Forall (fun k => m <= k)%Z l.
Proof.
  destruct l as [|a l]; [done|]. intros _ [Ha Hl]%Forall_cons_1. simpl. by apply min_seq_fold.
Qed.

(** The batch that times out at the next tick. *)
Definition expiring t : gmap Z T := default ∅ (gens t !! tm_task_timeout t).

Lemma adjust_gens t :
  timer_inv t ->
  let '(evs, t') := adjust_task_queue t in
  evs = fail_all Timeout (expiring t) /\ gens t' = ∅ :: take (tm_task_timeout t) (gens t)
  /\ tm_pending t' = tm_pending t /\ tm_count t' = tm_count t
  /\ tm_task_timeout t' = tm_task_timeout t
  /\ tm_processed_seq t' = tm_processed_seq t /\ tm_reg_stopped t' = tm_reg_stopped t
  /\ tm_min_delay_seq t' =
       (if decide (expiring t = ∅) then tm_min_delay_seq t
        else fold_left min_seq_step (task_seq <$> map_tasks (expiring t)) 0%Z).
Proof.
  intros Hi. pose proof (ti_len t Hi) as Hl. unfold adjust_task_queue, expiring.
  fold (gens t). set (g := gens t). assert (length g = S (length (tm_delay t))) as Hg by done.
  change (tm_task_timeout (put_maps ∅ g t)) with (tm_task_timeout t).
  destruct (Nat.ltb_spec (tm_task_timeout t) (length g)).
  - replace (length g - 1) with (tm_task_timeout t) by lia.
    destruct (g !! tm_task_timeout t) as [m|] eqn:E; [|apply lookup_ge_None in E; lia]. simpl.
    destruct (decide (m = ∅)) as [->|Hm].
    + rewrite bool_decide_eq_true_2 by done. done.
    + rewrite bool_decide_eq_false_2 by done. done.
  - rewrite lookup_ge_None_2 by lia. simpl. rewrite take_ge by lia. done.
Qed.

Lemma expiring_elem t x :
  timer_inv t -> x ∈ map_tasks (expiring t) ->
  (0 < task_seq x <= tm_processed_seq t)%Z
  /\ expiring t !! task_seq x = Some x /\ gens t !! tm_task_timeout t = Some (expiring t).
Proof.
  intros Hi ([k y] & -> & Hy%elem_of_map_to_list)%list_elem_of_fmap. simpl.
  unfold expiring in *. destruct (gens t !! tm_task_timeout t) as [m|] eqn:E; [|done].
  pose proof (proj1 (Forall_lookup _ _) (ti_gens t Hi) _ m E k y Hy) as (-> & ? & ?).
  split; [lia|]. done.
Qed.

Lemma expiring_older t m k :
  timer_inv t -> m ∈ take (tm_task_timeout t) (gens t) -> is_Some (m !! k) ->
  forall x, x ∈ map_tasks (expiring t) -> (task_seq x < k)%Z.
Proof.
  intros Hi Hm Hk x Hx. apply expiring_elem in Hx as (_ & Hx & Hg); [|done].
  pose proof (ti_order t Hi) as Ho. rewrite <- (take_drop (tm_task_timeout t) (gens t)) in Ho.
  rewrite (drop_S _ _ _ Hg) in Ho. revert Ho Hm.
  generalize (take (tm_task_timeout t) (gens t)). intros l. induction l as [|n l IH].
  - intros _ Hm. by apply not_elem_of_nil in Hm.
  - intros [Ho Hn]%StronglySorted_inv [<-|Hm]%elem_of_cons; [|by apply IH].
    rewrite list.Forall_forall in Hn. eapply (Hn (expiring t)); [|done|by eauto].
    apply elem_of_app. right. left.
Qed.

Lemma gens_sorted_take n (l : list (gmap Z T)) :
  StronglySorted gen_newer l -> StronglySorted gen_newer (∅ :: take n l).
Proof.
  intros Hl. constructor.
  - revert n. induction Hl as [|m l Hl IH Hm]; intros [|n]; simpl; constructor; [apply IH|].
    by apply Forall_take.
  - apply list.Forall_forall. intros m _ k1 k2 [x Hx]. by rewrite lookup_empty in Hx.
Qed.

Lemma adjust_task_queue_ok t evs t' :
  timer_inv t -> adjust_task_queue t = (evs, t') ->
  timer_inv t' /\ evs = fail_all Timeout (expiring t)
  /\ live_tasks t ≡ₚ map_tasks (expiring t) ++ live_tasks t'.
Proof.
  intros Hi E. pose proof (adjust_gens t Hi) as Ha. rewrite E in Ha.
  destruct Ha as (-> & Hg & Hp & Hc & Ht & Hq & _ & Hm).
  assert (live_tasks t ≡ₚ map_tasks (expiring t) ++ live_tasks t') as Hlive.
  { unfold live_tasks. rewrite Hp, Hg.
    assert (mjoin (map_tasks <$> gens t) ≡ₚ
      map_tasks (expiring t) ++ mjoin (map_tasks <$> take (tm_task_timeout t) (gens t))) as Hj.
    { rewrite <- (take_drop (tm_task_timeout t) (gens t)) at 1.
      rewrite fmap_app, join_app, Permutation_app_comm. f_equiv. unfold expiring.
      pose proof (ti_len t Hi) as Hl.
      destruct (gens t !! tm_task_timeout t) as [m|] eqn:El; simpl.
      - rewrite (drop_S _ _ _ El), drop_ge by (unfold gens; simpl; lia). cbn.
        by rewrite app_nil_r.
      - by rewrite drop_ge by (by apply lookup_ge_None). }
    rewrite Hj. rewrite (Permutation_app_swap_app (tm_pending t)). done. }
  split; [|done].
  assert (expiring t <> ∅ -> tm_min_delay_seq t' ∈ (task_seq <$> map_tasks (expiring t))
    /\ Forall (fun k => tm_min_delay_seq t' <= k)%Z (task_seq <$> map_tasks (expiring t))) as Hmin.
  { intros Hne. rewrite Hm. destruct (decide _); [done|]. apply min_seq_fold_0.
    - intros Hnil%fmap_nil_inv. unfold map_tasks in Hnil. apply fmap_nil_inv in Hnil.
      by apply map_to_list_empty_iff in Hnil.
    - apply Forall_fmap, list.Forall_forall. intros x Hx.
      apply expiring_elem in Hx as [? _]; simpl; [lia|done]. }
  pose proof Hi as [Hgs Ho Hpe Hf Hb Hct Hl].
  assert (0 <= tm_min_delay_seq t' <= tm_processed_seq t)%Z as Hb'.
  { destruct (decide (expiring t = ∅)) as [He|He]; [by rewrite Hm|].
    destruct (Hmin He) as [(x & -> & Hx)%list_elem_of_fmap _].
    apply expiring_elem in Hx as [? _]; [lia|done]. }
  split; rewrite ?Hp, ?Hc, ?Ht, ?Hq; try done.
  - rewrite Hg. constructor; [intros k x Hk; by rewrite lookup_empty in Hk|].
    apply list.Forall_forall. intros m Hin k x Hk.
    assert (m ∈ gens t) as Hin' by (eapply elem_of_take in Hin as (i & ? & _);
      by eapply list_elem_of_lookup_2).
    destruct (proj1 (list.Forall_forall _ _) Hgs m Hin' k x Hk) as (? & ? & ?).
    split; [done|]. split; [done|]. split; [|lia].
    destruct (decide (expiring t = ∅)) as [He|He]; [rewrite Hm; lia|].
    destruct (Hmin He) as [(y & Hy & Hyin)%list_elem_of_fmap _].
    pose proof (expiring_older t m k Hi Hin ltac:(eauto) y Hyin). lia.
  - rewrite Hg. by apply gens_sorted_take.
  - transitivity (length (take (tm_task_timeout t) (gens t))); [|rewrite length_take; lia].
    unfold gens in Hg at 1. injection Hg as _ ->. done.
Qed.

(** *** Cleaning up *)

Lemma clean_pending_tasks_ok t evs t' :
  timer_inv t -> clean_pending_tasks t = (evs, t') ->
  timer_inv t' /\ live_tasks t' = []
  /\ evs ≡ₚ (fun x => EvErrorHandle (set_rpc_error x IO)) <$> live_tasks t.
Proof.
  intros Hi. unfold clean_pending_tasks.
  destruct (drain_pending_ok t Hi) as (Hi1 & Hl1 & Hp1 & _).
  set (t1 := drain_pending t) in *. intros [= <- <-]. split; [|split].
  - apply put_maps_inv; [done|]. constructor; [apply map_empty_subseteq|].
    clear. induction (tm_delay t1); constructor; [apply map_empty_subseteq|done].
  - unfold live_tasks, gens. cbn. rewrite Hp1. simpl.
    induction (tm_delay t1) as [|m l IH]; [done|]. exact IH.
  - rewrite <- Hl1. unfold live_tasks, gens. rewrite Hp1, app_nil_l, join_map_cons, fmap_app.
    apply Permutation_app; [done|]. induction (tm_delay t1) as [|m l IH]; [done|].
    rewrite !join_map_cons, fmap_app. by apply Permutation_app.
Qed.

Lemma check_pending_tasks_empty_ok t b t' :
  timer_inv t -> check_pending_tasks_empty t = (b, t') ->
  timer_inv t' /\ live_tasks t' ≡ₚ live_tasks t /\ (b = true <-> live_tasks t = []).
Proof.
  intros Hi. unfold check_pending_tasks_empty.
  destruct (drain_pending_ok t Hi) as (Hi1 & Hl1 & Hp1 & _).
  set (t1 := drain_pending t) in *. intros [= <- <-]. split; [done|]. split; [done|].
  assert (live_tasks t = [] <-> live_tasks t1 = []) as ->.
  { split; intros E; rewrite E in Hl1; [by apply Permutation_nil_r in Hl1|].
    by apply Permutation_nil in Hl1. }
  unfold live_tasks, gens. rewrite Hp1, app_nil_l, join_map_cons.
  assert (forall m : gmap Z T, bool_decide (m = ∅) = true <-> map_tasks m = []) as Hm.
  { intros m. rewrite bool_decide_eq_true. unfold map_tasks. split; [by intros ->|].
    intros Hnil%fmap_nil_inv. by apply map_to_list_empty_iff. }
  rewrite andb_true_iff, app_nil, Hm. f_equiv.
  induction (tm_delay t1) as [|m l IH]; [done|]. cbn [forallb].
  by rewrite join_map_cons, andb_true_iff, app_nil, Hm, IH.
Qed.

(** *** Registering *)

Lemma reg_task_ok t x :
  timer_inv t -> (tm_count t + 1 < 2 ^ 64)%Z ->
  (tm_processed_seq t < task_seq x)%Z -> Forall (fun y => task_seq y < task_seq x)%Z (tm_pending t) ->
  timer_inv (reg_task x (count_add t)) /\ live_tasks (reg_task x (count_add t)) ≡ₚ x :: live_tasks t.
Proof.
  intros [Hg Ho Hp Hf Hb Hc Hl] Hct Hx Hlt. split.
  - split; unfold reg_task, count_add, put_count; simpl; try done.
    + rewrite fmap_app. clear -Hp Hlt. induction (tm_pending t) as [|y l IH]; simpl in *.
      { repeat constructor. }
      apply StronglySorted_inv in Hp as [Hp Hy]. apply Forall_cons_1 in Hlt as [Hlt Hl].
      constructor; [by apply IH|]. apply Forall_app. split; [done|]. by repeat constructor.
    + apply Forall_app. split; [done|]. by repeat constructor.
    + rewrite length_app. simpl. unfold as_u64, wrap. rewrite Z.mod_small; lia.
  - unfold live_tasks, gens, reg_task, count_add, put_count; simpl.
    rewrite <- app_assoc. simpl. symmetry. apply Permutation_middle.
Qed.
End spec.

(** ** Properties *)

Section run.
Context {C T : Type} `{ClientTaskLaws C T}.

(** What happens to a timer: a task is registered (after the counter was
    raised for it), the channel is polled, a response arrives, a second
    passes, registration stops, the connection dies. *)
Inductive timer_op :=
| OpReg (x : T)
| OpPoll
| OpTake (seq : Z)
| OpTick
| OpStop
| OpClean.

(** One operation, with the sequence numbers of the tasks it hands out or
    finishes. *)
Definition timer_step (o : timer_op) (t : ClientTaskTimer T) : list Z * ClientTaskTimer T :=
  match o with
  | OpReg x => ([], reg_task x (count_add t))
  | OpPoll => ([], (poll_sent_task t).2)
  | OpTake seq =>
      match take_task seq t with
      | (Ready (Some x), t') => ([task_seq x], t')
      | (_, t') => ([], t')
      end
  | OpTick => let '(evs, t') := adjust_task_queue t in ((task_seq ∘ event_task) <$> evs, t')
  | OpStop => ([], stop_reg_task t)
  | OpClean => let '(evs, t') := clean_pending_tasks t in ((task_seq ∘ event_task) <$> evs, t')
  end.

Fixpoint timer_run (ops : list timer_op) (t : ClientTaskTimer T) : list Z * ClientTaskTimer T :=
  match ops with
  | [] => ([], t)
  | o :: ops =>
      let '(fin, t) := timer_step o t in
      let '(fin', t) := timer_run ops t in (fin ++ fin', t)
  end.

Definition registered (ops : list timer_op) : list Z :=
  omap (fun o => match o with OpReg x => Some (task_seq x) | _ => None end) ops.

(** Every number registered so far is below [hi], and the counter is at most [c]. *)
Definition regs_below (hi c : Z) (t : ClientTaskTimer T) : Prop :=
  (tm_processed_seq t < hi)%Z /\ Forall (fun y => task_seq y < hi)%Z (tm_pending t)
  /\ (tm_count t <= c)%Z.

Lemma regs_below_mono hi hi' c t : regs_below hi c t -> (hi <= hi')%Z -> regs_below hi' c t.
Proof. intros [? [Hp ?]] ?. split; [lia|]. split; [|done]. eapply Forall_impl; [|exact Hp]. simpl. lia. Qed.

Lemma regs_below_drain hi c t :
  timer_inv t -> regs_below hi c t -> regs_below hi c (drain_pending t).
Proof.
  intros Hi [? [Hp Hc]]. destruct (drain_pending_ok t Hi) as (_ & _ & Hp1 & Hq1 & _).
  split; [|split; [rewrite Hp1; constructor|rewrite drain_count by done; lia]]. rewrite Hq1.
  destruct (list.last (tm_pending t)) as [y|] eqn:E; simpl; [|done].
  apply last_Some_elem_of in E. by apply (proj1 (list.Forall_forall _ _) Hp).
Qed.

Lemma regs_below_take hi c seq t r t' :
  timer_inv t -> regs_below hi c t -> take_task seq t = (r, t') -> regs_below hi c t'.
Proof.
  intros Hi Hb (t1 & sent & delay & [->| ->] & ->)%take_task_cases; [done|]. by apply regs_below_drain.
Qed.

Lemma seqs_of_events e (l : list T) :
  (task_seq ∘ event_task) <$> ((fun x => EvErrorHandle (set_rpc_error x e)) <$> l) = task_seq <$> l.
Proof.
  rewrite <- list_fmap_compose. apply list_fmap_ext. intros i x _. apply task_seq_rpc_error.
Qed.

(** The invariant, the number of registrations the counter has room for, and
    conservation, for one operation other than registering. *)
Lemma timer_step_ok hi c o t fin t' :
  timer_inv t -> regs_below hi c t -> (forall x, o <> OpReg x) -> timer_step o t = (fin, t') ->
  timer_inv t' /\ regs_below hi c t' /\ task_seq <$> live_tasks t ≡ₚ fin ++ (task_seq <$> live_tasks t').
Proof.
  intros Hi Hb Hno. destruct o as [x| |seq| | |]; cbn [timer_step].
  - by destruct (Hno x).
  - intros [= <- <-]. destruct (drain_pending_ok t Hi) as (? & Hl & _).
    split; [done|]. split; [by apply regs_below_drain|]. by rewrite Hl.
  - destruct (take_task seq t) as [r t1] eqn:E. pose proof (regs_below_take _ _ _ _ _ _ Hi Hb E).
    apply take_task_ok in E as [Hi1 Hr]; [|done].
    destruct r as [[x|]|]; intros [= <- <-].
    + destruct Hr as [_ ->]. done.
    + destruct Hr as [-> _]. done.
    + destruct Hr as [-> _]. done.
  - destruct (adjust_task_queue t) as [evs t1] eqn:E. intros [= <- <-].
    pose proof (adjust_gens t Hi) as Ha. rewrite E in Ha.
    destruct Ha as (_ & _ & Hp & Hc & _ & Hq & _).
    apply adjust_task_queue_ok in E as (Hi1 & -> & Hl); [|done].
    split; [done|]. split; [by unfold regs_below; rewrite Hp, Hq, Hc|].
    unfold fail_all. by rewrite Hl, fmap_app, seqs_of_events.
  - intros [= <- <-]. split; [|done]. by destruct Hi.
  - destruct (clean_pending_tasks t) as [evs t1] eqn:E. intros [= <- <-].
    pose proof (regs_below_drain hi c t Hi Hb) as Hd.
    assert (regs_below hi c t1) by (unfold clean_pending_tasks in E; by injection E as _ <-).
    apply clean_pending_tasks_ok in E as (Hi1 & Hl & He); [|done].
    split; [done|]. split; [done|]. rewrite Hl. cbn [fmap list_fmap]. rewrite app_nil_r.
    apply (fmap_Permutation (task_seq ∘ event_task)) in He. rewrite seqs_of_events in He.
    by symmetry.
Qed.

(** Registrations are made in increasing order of positive numbers. *)
Definition ops_ok (lo : Z) (ops : list timer_op) : Prop :=
  StronglySorted Z.lt (lo :: registered ops).

(** One operation of a run: the invariant, conservation, and room for the rest. *)
Lemma timer_step_run lo c o ops t fin t' :
  timer_inv t -> regs_below (lo + 1) c t -> ops_ok lo (o :: ops) ->
  (c + zlen (registered (o :: ops)) < 2 ^ 64)%Z -> timer_step o t = (fin, t') ->
  timer_inv t' /\ (task_seq <$> live_tasks t) ++ registered [o] ≡ₚ fin ++ (task_seq <$> live_tasks t')
  /\ exists lo' c', regs_below (lo' + 1) c' t' /\ ops_ok lo' ops /\ (c' + zlen (registered ops) < 2 ^ 64)%Z.
Proof.
  intros Hi Hb Ho Hc E1.
  assert ((exists x, o = OpReg x) \/ forall x, o <> OpReg x) as [[x ->]|Hno] by (destruct o; by eauto).
  2:{ assert (registered (o :: ops) = registered ops /\ registered [o] = []) as [Hreg Hreg1].
      { destruct o as [x| | | | |]; try done. by destruct (Hno x). }
      unfold ops_ok in Ho. rewrite Hreg in *. rewrite Hreg1, app_nil_r.
      apply (timer_step_ok (lo + 1) c) in E1 as (Hi1 & Hb1 & Hl1); [|done|done|done].
      split; [done|]. split; [done|]. by exists lo, c. }
  injection E1 as <- <-. change (registered (OpReg x :: ops)) with (task_seq x :: registered ops) in *.
  unfold ops_ok in *. apply StronglySorted_inv in Ho as [Ho Hlo].
  apply Forall_cons_1 in Hlo as [Hlo _]. destruct Hb as (Hb1 & Hb2 & Hb3).
  unfold zlen in Hc. cbn [length] in Hc.
  destruct (reg_task_ok t x Hi) as [Hi1 Hl1]; [lia|lia| |].
  { eapply Forall_impl; [|exact Hb2]. simpl. lia. }
  split; [done|]. split.
  { rewrite Hl1. simpl. by rewrite Permutation_app_comm. }
  exists (task_seq x), (c + 1)%Z. split; [|split; [done|unfold zlen; lia]].
  split_and!; [unfold reg_task, count_add; simpl; lia| |].
  - simpl. apply Forall_app. split; [|repeat constructor; lia].
    eapply Forall_impl; [|exact Hb2]. simpl. lia.
  - unfold reg_task, count_add, put_count, as_u64, wrap; simpl.
    pose proof (ti_count t Hi). rewrite Z.mod_small; lia.
Qed.

Lemma registered_cons o ops : registered (o :: ops) = registered [o] ++ registered ops.
Proof. by destruct o. Qed.

Lemma timer_run_ok ops lo c t fin t' :
  timer_inv t -> regs_below (lo + 1) c t -> ops_ok lo ops ->
  (c + zlen (registered ops) < 2 ^ 64)%Z -> timer_run ops t = (fin, t') ->
  timer_inv t'
  /\ (task_seq <$> live_tasks t) ++ registered ops ≡ₚ fin ++ (task_seq <$> live_tasks t').
Proof.
  revert lo c t fin. induction ops as [|o ops IH]; intros lo c t fin Hi Hb Ho Hc; cbn [timer_run].
  { intros [= <- <-]. split; [done|]. by rewrite app_nil_r. }
  destruct (timer_step o t) as [fin1 t1] eqn:E1.
  destruct (timer_run ops t1) as [fin2 t2] eqn:E2. intros [= <- <-].
  destruct (timer_step_run lo c o ops t fin1 t1 Hi Hb Ho Hc E1) as (Hi1 & Hl1 & lo' & c' & Hb1 & Ho1 & Hc1).
  destruct (IH _ _ _ _ Hi1 Hb1 Ho1 Hc1 E2) as [Hi2 Hl2]. split; [done|].
  rewrite registered_cons, app_assoc, Hl1, <- !app_assoc. by f_equiv.
Qed.
End run.
Arguments timer_op T : clear implicits.

Section props.
Context {C T : Type} `{ClientTaskLaws C T}.

Lemma StronglySorted_lt_NoDup (l : list Z) : StronglySorted Z.lt l -> NoDup l.
Proof.
  induction 1 as [|x l _ IH Hx]; constructor; [|done]. intros Hin.
  pose proof (proj1 (list.Forall_forall _ _) Hx x Hin). lia.
Qed.

(** C20: No task is lost and none is finished twice: along any sequence of
    registrations, channel polls, responses, ticks, stop and clean-up, the
    registered tasks are exactly the ones handed out or failed so far
    together with the ones still held, each once. *)
Theorem timer_conservation (ops : list (timer_op T)) (timeout : nat)
    (Hord : ops_ok 0 ops) (Hlen : (zlen (registered ops) < 2 ^ 64)%Z) :
  let '(fin, t) := timer_run ops (ClientTaskTimer_new timeout) in
  timer_inv t /\ registered ops ≡ₚ fin ++ (task_seq <$> live_tasks t)
  /\ NoDup (fin ++ (task_seq <$> live_tasks t)).
Proof.
  destruct (timer_run ops (ClientTaskTimer_new timeout)) as [fin t] eqn:E.
  apply (timer_run_ok ops 0 0) in E as [Hi Hl]; [|apply timer_inv_new|done|done|done].
  split; [done|]. split; [done|]. rewrite <- Hl. apply StronglySorted_inv in Hord as [Hord _].
  by apply StronglySorted_lt_NoDup.
Qed.

(** C21: [take_task] finds the task of a response wherever it is (channel,
    current second or a past second) and removes just that one; it answers
    [None] only when no live task has the number (or registration has
    stopped), and waits only for a number above every live task. *)
Theorem take_task_spec (seq : Z) (t : ClientTaskTimer T) (Hi : timer_inv t) :
  let '(r, t') := take_task seq t in
  timer_inv t' /\
  match r with
  | Ready (Some x) => task_seq x = seq /\ live_tasks t ≡ₚ x :: live_tasks t'
  | Ready None => live_tasks t' ≡ₚ live_tasks t
      /\ (tm_reg_stopped t = false -> seq ∉ (task_seq <$> live_tasks t))
  | Pending => live_tasks t' ≡ₚ live_tasks t /\ tm_reg_stopped t = false
      /\ Forall (fun x => task_seq x < seq)%Z (live_tasks t)
  end.
Proof. destruct (take_task seq t) as [r t'] eqn:E. by apply take_task_ok. Qed.

(** [n] ticks, with the tasks they failed. *)
Fixpoint ticks (n : nat) (t : ClientTaskTimer T) : list (task_event T) * ClientTaskTimer T :=
  match n with
  | O => ([], t)
  | S n =>
      let '(evs, t) := ticks n t in
      let '(evs', t) := adjust_task_queue t in (evs ++ evs', t)
  end.

Lemma sorted_lookup_newer (l : list (gmap Z T)) i j m1 m2 :
  StronglySorted gen_newer l -> l !! i = Some m1 -> l !! j = Some m2 -> i < j -> gen_newer m1 m2.
Proof.
  intros Hs. revert i j. induction Hs as [|m l _ IH Hm]; intros [|i] [|j] H1 H2 Hij;
    simplify_eq/=; try lia; [|by eapply IH; eauto with lia].
  by apply (proj1 (Forall_lookup _ _) Hm j).
Qed.

Lemma ticks_gens n t :
  timer_inv t -> n <= tm_task_timeout t ->
  let '(evs, t') := ticks n t in
  timer_inv t' /\ gens t' !! n = Some (tm_sent t) /\ tm_task_timeout t' = tm_task_timeout t
  /\ Forall (fun e => tm_sent t !! task_seq (event_task e) = None) evs.
Proof.
  intros Hi. induction n as [|n IH]; intros Hn; cbn [ticks]; [done|].
  destruct (ticks n t) as [evs t1]. destruct IH as (Hi1 & Hg1 & Ht1 & He1); [lia|].
  pose proof (adjust_gens t1 Hi1) as Ha.
  destruct (adjust_task_queue t1) as [evs' t2] eqn:E.
  destruct Ha as (-> & Hg2 & _ & _ & Ht2 & _).
  apply adjust_task_queue_ok in E as (Hi2 & _); [|done].
  split; [done|]. split; [rewrite Hg2; simpl; by rewrite lookup_take_lt by lia|].
  split; [congruence|]. apply Forall_app. split; [done|].
  apply list.Forall_forall. intros e (x & -> & Hx)%list_elem_of_fmap. simpl.
  rewrite task_seq_rpc_error. apply expiring_elem in Hx as (_ & Hx & Hgx); [|done].
  destruct (tm_sent t !! task_seq x) as [y|] eqn:Ey; [|done].
  pose proof (sorted_lookup_newer _ _ _ _ _ (ti_order t1 Hi1) Hg1 Hgx ltac:(lia)
    (task_seq x) (task_seq x) ltac:(eauto) ltac:(eauto)). lia.
Qed.

(** C26: A task that gets no response times out at exactly the tick after
    [task_timeout] full seconds: during the first [task_timeout] ticks it is
    neither failed nor dropped, and at the next one it is handed to the error
    handler with [RpcIntErr::Timeout]. *)
Theorem task_timeout_exact (t : ClientTaskTimer T) (x : T)
    (Hi : timer_inv t) (Hx : tm_sent t !! task_seq x = Some x) :
  (forall n, n <= tm_task_timeout t ->
     x ∈ live_tasks (ticks n t).2
     /\ Forall (fun e => task_seq (event_task e) <> task_seq x) (ticks n t).1)
  /\ EvErrorHandle (set_rpc_error x Timeout)
     ∈ (adjust_task_queue (ticks (tm_task_timeout t) t).2).1.
Proof.
  assert (x ∈ map_tasks (tm_sent t)) as Hin.
  { apply list_elem_of_fmap. exists (task_seq x, x). split; [done|].
    by apply elem_of_map_to_list. }
  split.
  - intros n Hn. pose proof (ticks_gens n t Hi Hn) as Ht.
    destruct (ticks n t) as [evs t1]. destruct Ht as (Hi1 & Hg & _ & He). simpl. split.
    + apply elem_of_app. right. apply list_elem_of_join. exists (map_tasks (tm_sent t)).
      split; [done|]. apply list_elem_of_fmap. exists (tm_sent t). split; [done|].
      by eapply list_elem_of_lookup_2.
    + eapply Forall_impl; [|exact He]. simpl. intros e Hnone Heq.
      by rewrite Heq, Hx in Hnone.
  - pose proof (ticks_gens (tm_task_timeout t) t Hi (le_n _)) as Ht.
    destruct (ticks (tm_task_timeout t) t) as [evs t1]. destruct Ht as (Hi1 & Hg & Htt & _). simpl.
    pose proof (adjust_gens t1 Hi1) as Ha. destruct (adjust_task_queue t1) as [evs' t2].
    destruct Ha as (-> & _). simpl. unfold fail_all, expiring. rewrite Htt, Hg. simpl.
    apply list_elem_of_fmap. eauto.
Qed.
End props.

(** Two tasks registered, one answered, the other timed out after its second. *)
Definition demo_task (seq : Z) : RawTask := raw_task seq (OwnedNum 1) [] None.

Definition demo_ops : list (timer_op RawTask) :=
  [OpReg (demo_task 1); OpReg (demo_task 2); OpTake 2; OpTick; OpTick; OpStop; OpClean].

Example timer_conservation_witness :
  let '(fin, t) := timer_run demo_ops (ClientTaskTimer_new 1) in
  fin = [2%Z; 1%Z] /\ [1%Z; 2%Z] ≡ₚ fin ++ (task_seq <$> live_tasks t).
Proof.
  pose proof (timer_conservation demo_ops 1) as Hc.
  destruct (timer_run demo_ops (ClientTaskTimer_new 1)) as [fin t] eqn:E.
  vm_compute in E. injection E as <- Ht.
  destruct Hc as (_ & Hp & _).
  - repeat constructor.
  - reflexivity.
  - split; [reflexivity|exact Hp].
Defined.

(** A timer that holds task [3] in the current second. *)
Definition demo_timer : ClientTaskTimer RawTask :=
  drain_pending (reg_task (demo_task 3) (count_add (ClientTaskTimer_new 2))).

Lemma demo_timer_inv : timer_inv demo_timer.
Proof.
  apply drain_pending_ok. apply reg_task_ok; [apply timer_inv_new|simpl; lia|vm_compute; reflexivity|].
  constructor.
Qed.

Example take_task_spec_witness :
  exists x t', take_task 3 demo_timer = (Ready (Some x), t') /\ task_seq x = 3%Z
    /\ live_tasks demo_timer ≡ₚ x :: live_tasks t'.
Proof.
  pose proof (take_task_spec 3 demo_timer demo_timer_inv) as Hs.
  destruct (take_task 3 demo_timer) as [[[x|]|] t'] eqn:E.
  - exists x, t'. split; [reflexivity|]. exact (proj2 Hs).
  - exfalso. vm_compute in E. discriminate E.
  - exfalso. vm_compute in E. discriminate E.
Defined.

Example task_timeout_exact_witness :
  (forall n, n <= 2 ->
     demo_task 3 ∈ live_tasks (ticks n demo_timer).2
     /\ Forall (fun e => task_seq (event_task e) <> 3%Z) (ticks n demo_timer).1)
  /\ EvErrorHandle (set_rpc_error (demo_task 3) Timeout)
     ∈ (adjust_task_queue (ticks 2 demo_timer).2).1.
Proof.
  exact (task_timeout_exact demo_timer (demo_task 3) demo_timer_inv eq_refl).
Defined.
