(* ===== verification/TimerLive.v ===== *)
(** * stream/src/client/timer.rs: every request ends

    Timer.v shows that no task is lost and that a task without a response
    fails at an exact tick.  Here the two meet any interleaving: whatever else
    happens to the timer meanwhile, a task that was registered when the
    receiver polled is finished when [task_timeout + 1] more ticks have
    passed. *)

From stdpp Require Import sorting.
From S2P Require Import Prelude RustStd Errors Task ClientTaskMacro Buffer Timer.

Section live.
Context {C T : Type} `{ClientTaskLaws C T}.
Implicit Types t : ClientTaskTimer T.

(** The tasks up to number [B] are out of the channel and [k] batches old. *)
Record aged (B : Z) (k : nat) t : Prop := {
  ag_seq : (B <= tm_processed_seq t)%Z;
  ag_gens : forall i m key, i < k -> gens t !! i = Some m -> is_Some (m !! key) -> (B < key)%Z;
}.

(** Taking tasks out of the batches does not make the others younger. *)
Lemma aged_sub B k t t' :
  aged B k t -> (tm_processed_seq t <= tm_processed_seq t')%Z -> Forall2 (⊆) (gens t') (gens t) -> aged B k t'.
Proof.
  intros [Hs Hg] Hq Hsub. split; [lia|]. intros i m key Hi Hm [x Hx].
  destruct (Forall2_lookup_l _ _ _ _ _ Hsub Hm) as (m' & Hm' & Hle). eapply Hg; [done|done|].
  exists x. by eapply lookup_weaken.
Qed.

Lemma drain_keys t key :
  is_Some (tm_sent (drain_pending t) !! key) ->
  is_Some (tm_sent t !! key) \/ key ∈ task_seq <$> tm_pending t.
Proof.
  remember (tm_pending t) as l eqn:E. revert t E. induction l as [|x l IH]; intros t E Hk.
  { left. unfold drain_pending in Hk. by rewrite <- E in Hk. }
  rewrite (drain_pending_cons t x l) in Hk by done. apply IH in Hk as [Hk|Hk]; [|right; by right|done].
  simpl in Hk. destruct (decide (key = task_seq x)) as [->|Hne]; [right; left|].
  left. by rewrite lookup_insert_ne in Hk.
Qed.

Lemma drain_processed t : timer_inv t -> (tm_processed_seq t <= tm_processed_seq (drain_pending t))%Z.
Proof.
  intros Hi. destruct (drain_pending_ok t Hi) as (_ & _ & _ & -> & _).
  destruct (list.last (tm_pending t)) as [y|] eqn:E; simpl; [|lia]. apply last_Some_elem_of in E.
  pose proof (proj1 (list.Forall_forall _ _) (ti_fresh t Hi) y E). simpl in *. lia.
Qed.

Lemma aged_drain B k t : timer_inv t -> aged B k t -> aged B k (drain_pending t).
Proof.
  intros Hi [Hs Hg]. pose proof (drain_processed t Hi). split; [lia|].
  destruct (drain_pending_ok t Hi) as (_ & _ & _ & _ & _ & _ & Hd & _).
  intros [|i] m key Hik Hm Hk.
  - injection Hm as <-. apply drain_keys in Hk as [Hk|Hk]; [by apply (Hg 0 (tm_sent t))|].
    apply list_elem_of_fmap in Hk as (x & -> & Hx).
    pose proof (proj1 (list.Forall_forall _ _) (ti_fresh t Hi) x Hx). simpl in *. lia.
  - apply (Hg (S i) m); [done| |done]. simpl in Hm |- *. by rewrite Hd in Hm.
Qed.

(** Everything registered is out of the channel once it was polled. *)
Lemma aged_now t : timer_inv t -> aged (tm_processed_seq (drain_pending t)) 0 (drain_pending t).
Proof. intros _. split; [lia|]. intros i m key Hi. lia. Qed.

Lemma aged_take_registered B k seq t r t' :
  aged B k t -> take_registered seq t = (r, t') -> aged B k t'.
Proof.
  intros Ha. unfold take_registered. destruct (tm_sent t !! seq) as [x|] eqn:E.
  - intros [= _ <-]. eapply aged_sub; [exact Ha|done|]. constructor; [apply delete_subseteq|apply sub_refl].
  - destruct (take_from_batches seq (tm_delay t)) as [r1 d1] eqn:E1. intros [= _ <-].
    apply take_from_batches_ok in E1 as [Hs _]. eapply aged_sub; [exact Ha|done|]. by constructor.
Qed.

Lemma aged_take B k seq t r t' : timer_inv t -> aged B k t -> take_task seq t = (r, t') -> aged B k t'.
Proof.
  intros Hi Ha. pose proof (aged_drain B k t Hi Ha) as Hd.
  unfold take_task, WaitRegTask_poll, poll_sent_task.
  destruct (_ <? _)%Z; [by intros [= _ <-]|]. destruct (_ <? _)%Z.
  - destruct (_ <=? _)%Z.
    { destruct (take_registered seq t) as [q u] eqn:E. intros [= _ <-]. exact (aged_take_registered _ _ _ _ _ _ Ha E). }
    destruct (tm_reg_stopped t); [by intros [= _ <-]|]. destruct (_ && _); [|by intros [= _ <-]].
    destruct (take_registered seq _) as [q u] eqn:E. intros [= _ <-]. exact (aged_take_registered _ _ _ _ _ _ Hd E).
  - destruct (take_registered seq t) as [q u] eqn:E. intros [= _ <-]. exact (aged_take_registered _ _ _ _ _ _ Ha E).
Qed.

(** A tick makes everything one batch older. *)
Lemma aged_tick B k t evs t' : timer_inv t -> aged B k t -> adjust_task_queue t = (evs, t') -> aged B (S k) t'.
Proof.
  intros Hi [Hs Hg] E. pose proof (adjust_gens t Hi) as Ha. rewrite E in Ha.
  destruct Ha as (_ & Hgens & _ & _ & _ & Hq & _). split; [by rewrite Hq|].
  intros [|i] m key Hik Hm Hk; rewrite Hgens in Hm; simpl in Hm.
  - injection Hm as <-. rewrite lookup_empty in Hk. by destruct Hk.
  - apply lookup_take_Some in Hm as [Hm _]. apply (Hg i m); [lia|done|done].
Qed.

Definition is_tick (o : timer_op T) : bool := match o with OpTick => true | _ => false end.

Lemma timer_step_timeout o t : timer_inv t -> tm_task_timeout (timer_step o t).2 = tm_task_timeout t.
Proof.
  intros Hi. destruct (drain_pending_ok t Hi) as (_ & _ & _ & _ & _ & _ & _ & Hd).
  destruct o as [x| |seq| | |]; cbn [timer_step]; try done.
  - unfold take_task, WaitRegTask_poll, poll_sent_task.
    assert (forall u : ClientTaskTimer T, tm_task_timeout (take_registered seq u).2 = tm_task_timeout u) as Htr.
    { intros u. unfold take_registered. destruct (_ !! _); [done|]. by destruct (take_from_batches _ _). }
    destruct (_ <? _)%Z; [done|]. destruct (_ <? _)%Z; [destruct (_ <=? _)%Z|].
    + specialize (Htr t). by destruct (take_registered seq t) as [[x|] u].
    + destruct (tm_reg_stopped t); [done|]. destruct (_ && _); [|done].
      specialize (Htr (drain_pending t)). destruct (take_registered seq _) as [[x|] u]; simpl in *; congruence.
    + specialize (Htr t). by destruct (take_registered seq t) as [[x|] u].
  - pose proof (adjust_gens t Hi) as Ha. destruct (adjust_task_queue t) as [evs t']. simpl. apply Ha.
Qed.

Lemma aged_step B k o t :
  timer_inv t -> aged B k t -> aged B (k + if is_tick o then 1 else 0) (timer_step o t).2.
Proof.
  intros Hi Ha. destruct o as [x| |seq| | |]; cbn [timer_step is_tick]; rewrite ?Nat.add_0_r.
  - by destruct Ha.
  - by apply aged_drain.
  - destruct (take_task seq t) as [r t'] eqn:E. apply (aged_take B k) in E; [|done..].
    by destruct r as [[x|]|].
  - destruct (adjust_task_queue t) as [evs t'] eqn:E. rewrite Nat.add_1_r. simpl. by eapply aged_tick.
  - by destruct Ha.
  - destruct (clean_pending_tasks t) as [evs t'] eqn:E. simpl. unfold clean_pending_tasks in E. injection E as _ <-.
    apply (aged_drain B k) in Ha; [|done]. eapply aged_sub; [exact Ha|done|]. constructor; [apply map_empty_subseteq|].
    simpl. induction (tm_delay (drain_pending t)); constructor; [apply map_empty_subseteq|done].
Qed.
(** [t'] comes after [t]: no task of [t] is younger in [t']. *)
Record ages t t' : Prop := {
  ages_batches B k : aged B k t -> aged B k t';
  ages_timeout : tm_task_timeout t' = tm_task_timeout t;
}.

#[export] Instance ages_preorder : PreOrder ages.
Proof.
  split; [by split|]. intros t1 t2 t3 [H1 H1'] [H2 H2']. split; [auto|congruence].
Qed.

(** Only the batches, the last number and the timeout count. *)
Lemma ages_same t t' :
  gens t' = gens t -> tm_processed_seq t' = tm_processed_seq t -> tm_task_timeout t' = tm_task_timeout t -> ages t t'.
Proof. intros Hg Hq Ht. split; [|done]. intros B k [Hs Ha]. split; [by rewrite Hq|by rewrite Hg]. Qed.

Lemma timer_step_ages o t : timer_inv t -> ages t (timer_step o t).2.
Proof.
  intros Hi. split; [|by apply timer_step_timeout]. intros B k Ha.
  destruct (aged_step B k o t Hi Ha) as [Hs Hg]. split; [done|]. intros i m key Hik. apply Hg. lia.
Qed.

Lemma ages_drain t : timer_inv t -> ages t (drain_pending t).
Proof. apply (timer_step_ages OpPoll). Qed.

Lemma ages_take seq t r t' : timer_inv t -> take_task seq t = (r, t') -> ages t t'.
Proof.
  intros Hi E. pose proof (timer_step_ages (OpTake seq) t Hi) as Ha. cbn [timer_step] in Ha. rewrite E in Ha.
  by destruct r as [[x|]|].
Qed.

Lemma ages_tick t evs t' : timer_inv t -> adjust_task_queue t = (evs, t') -> ages t t'.
Proof. intros Hi E. pose proof (timer_step_ages OpTick t Hi) as Ha. cbn [timer_step] in Ha. by rewrite E in Ha. Qed.

Lemma ages_clean t evs t' : timer_inv t -> clean_pending_tasks t = (evs, t') -> ages t t'.
Proof. intros Hi E. pose proof (timer_step_ages OpClean t Hi) as Ha. cbn [timer_step] in Ha. by rewrite E in Ha. Qed.

(** Along a run, the batches age with the ticks. *)
Lemma aged_run B ops lo c k t :
  timer_inv t -> regs_below (lo + 1) c t -> ops_ok lo ops -> (c + zlen (registered ops) < 2 ^ 64)%Z -> aged B k t ->
  aged B (k + length (filter (fun o => is_tick o = true) ops)) (timer_run ops t).2
  /\ tm_task_timeout (timer_run ops t).2 = tm_task_timeout t.
Proof.
  revert lo c k t. induction ops as [|o ops IH]; intros lo c k t Hi Hb Ho Hc Ha; cbn [timer_run].
  { by rewrite Nat.add_0_r. }
  pose proof (aged_step B k o t Hi Ha) as Ha1. pose proof (timer_step_timeout o t Hi) as Ht1.
  destruct (timer_step o t) as [fin1 t1] eqn:E1. simpl in Ha1, Ht1.
  destruct (timer_step_run lo c o ops t fin1 t1 Hi Hb Ho Hc E1) as (Hi1 & _ & lo' & c' & Hb1 & Ho1 & Hc1).
  destruct (IH lo' c' _ t1 Hi1 Hb1 Ho1 Hc1 Ha1) as [Ha2 Ht2].
  destruct (timer_run ops t1) as [fin2 t2]. simpl in *. split; [|congruence].
  rewrite filter_cons. destruct (is_tick o); [rewrite decide_True by done|rewrite decide_False by done]; simpl.
  - by rewrite <- Nat.add_succ_comm, <- Nat.add_1_r.
  - by rewrite Nat.add_0_r in Ha2.
Qed.

(** Past the last batch there is nothing. *)
Lemma aged_gone B t x :
  timer_inv t -> aged B (S (tm_task_timeout t)) t -> x ∈ live_tasks t -> (B < task_seq x)%Z.
Proof.
  intros Hi [Hs Hg] [Hx|Hx]%elem_of_app.
  - pose proof (proj1 (list.Forall_forall _ _) (ti_fresh t Hi) x Hx). simpl in *. lia.
  - apply gens_seqs in Hx as (m & Hm & Hx & _); [|done]. apply list_elem_of_lookup in Hm as [i Hi'].
    apply (Hg i m); [|done|by eauto]. apply lookup_lt_Some in Hi'. pose proof (ti_len t Hi).
    unfold gens in Hi'. simpl in Hi'. lia.
Qed.

Lemma timer_run_app ops1 ops2 t :
  timer_run (ops1 ++ ops2) t
  = ((timer_run ops1 t).1 ++ (timer_run ops2 (timer_run ops1 t).2).1, (timer_run ops2 (timer_run ops1 t).2).2).
Proof.
  revert t. induction ops1 as [|o ops1 IH]; intros t; simpl; [by destruct (timer_run ops2 t)|].
  destruct (timer_step o t) as [fin t1]. rewrite IH. destruct (timer_run ops1 t1) as [fin1 t2]. simpl.
  by rewrite app_assoc.
Qed.

Lemma timer_run_room ops1 ops2 lo c t :
  timer_inv t -> regs_below (lo + 1) c t -> ops_ok lo (ops1 ++ ops2) ->
  (c + zlen (registered (ops1 ++ ops2)) < 2 ^ 64)%Z ->
  exists lo' c', timer_inv (timer_run ops1 t).2 /\ regs_below (lo' + 1) c' (timer_run ops1 t).2
    /\ ops_ok lo' ops2 /\ (c' + zlen (registered ops2) < 2 ^ 64)%Z.
Proof.
  revert lo c t. induction ops1 as [|o ops1 IH]; intros lo c t Hi Hb Ho Hc; simpl in *; [by exists lo, c|].
  destruct (timer_step o t) as [fin1 t1] eqn:E1.
  destruct (timer_step_run lo c o (ops1 ++ ops2) t fin1 t1 Hi Hb Ho Hc E1) as (Hi1 & _ & lo' & c' & Hb1 & Ho1 & Hc1).
  destruct (IH lo' c' t1 Hi1 Hb1 Ho1 Hc1) as (lo2 & c2 & Hr). exists lo2, c2. by destruct (timer_run ops1 t1).
Qed.

(** C15: Every request ends: whatever the interleaving of registrations,
    channel polls, responses, ticks, stop and clean-up, a task registered
    before a poll of the receiver has been handed out for its response or
    failed by the time [task_timeout + 1] ticks have passed since, and is no
    longer held. *)
Theorem task_ends_in_time (pre post : list (timer_op T)) (timeout : nat)
    (Hord : ops_ok 0 (pre ++ OpPoll :: post)) (Hlen : (zlen (registered (pre ++ OpPoll :: post)) < 2 ^ 64)%Z)
    (Hticks : timeout < length (filter (fun o => is_tick o = true) post)) :
  let '(fin, t) := timer_run (pre ++ OpPoll :: post) (ClientTaskTimer_new timeout) in
  forall seq, seq ∈ registered pre -> seq ∈ fin /\ seq ∉ (task_seq <$> live_tasks t).
Proof.
  set (t0 := ClientTaskTimer_new timeout).
  assert (timer_inv t0) as Hi0 by apply timer_inv_new.
  assert (regs_below (0 + 1) 0 t0) as Hb0 by (split_and!; simpl; [lia|constructor|lia]).
  destruct (timer_run_room pre (OpPoll :: post) 0 0 t0 Hi0 Hb0 Hord) as (lo1 & c1 & Hi1 & Hb1 & Ho1 & Hc1); [lia|].
  destruct (timer_run pre t0) as [fin1 t1] eqn:E1. simpl in Hi1, Hb1.
  assert (registered (pre ++ OpPoll :: post) = registered pre ++ registered post) as Hreg
    by (unfold registered; by rewrite omap_app).
  destruct (timer_run_ok pre 0 0 t0 fin1 t1 Hi0 Hb0) as [_ Hl1]; [| |done|].
  { unfold ops_ok in *. rewrite Hreg, app_comm_cons in Hord. by apply StronglySorted_app_1_l in Hord. }
  { unfold zlen in *. rewrite Hreg, length_app in Hlen. lia. }
  pose proof (timer_run_ok (pre ++ OpPoll :: post) 0 0 t0) as Hall. rewrite timer_run_app, E1 in Hall |- *.
  cbn [fst snd timer_run timer_step poll_sent_task] in *.
  destruct (drain_pending_ok t1 Hi1) as (Hi2 & Hl2 & Hp2 & _ & _ & _ & _ & Htt2).
  pose proof (aged_now t1 Hi1) as Ha2. set (t2 := drain_pending t1) in *.
  destruct (timer_step_run lo1 c1 OpPoll post t1 [] t2 Hi1 Hb1 Ho1 Hc1 eq_refl) as (_ & _ & lo2 & c2 & Hb2 & Ho2 & Hc2).
  destruct (aged_run _ post lo2 c2 0 t2 Hi2 Hb2 Ho2 Hc2 Ha2) as [Ha3 Htt3].
  destruct (timer_run post t2) as [fin2 t3] eqn:E3. cbn [fst snd app] in *.
  destruct (Hall _ _ Hi0 Hb0 Hord ltac:(lia) eq_refl) as [Hi3 Hl3].
  assert (task_seq <$> live_tasks t0 = []) as Hnil by done. rewrite Hnil in Hl1, Hl3. simpl in Hl1, Hl3.
  assert (tm_task_timeout t1 = timeout) as Ht1.
  { pose proof (aged_run 0 pre 0 0 0 t0 Hi0 Hb0) as Hr. rewrite E1 in Hr. apply Hr.
    - unfold ops_ok in *. rewrite Hreg, app_comm_cons in Hord. by apply StronglySorted_app_1_l in Hord.
    - unfold zlen in *. rewrite Hreg, length_app in Hlen. lia.
    - split; [simpl; lia|]. lia. }
  assert (aged (tm_processed_seq t2) (S (tm_task_timeout t3)) t3) as Ha4.
  { rewrite Htt3, Htt2, Ht1. destruct Ha3 as [Hs Hg]. split; [done|]. intros i m key Hik. apply Hg. lia. }
  intros seq Hseq.
  assert (seq ∉ (task_seq <$> live_tasks t3)) as Hgone.
  { intros (x & -> & Hx)%list_elem_of_fmap. pose proof (aged_gone _ t3 x Hi3 Ha4 Hx) as Hlt.
    rewrite Hl1 in Hseq. apply elem_of_app in Hseq as [Hfin|Hlive].
    - assert (NoDup (registered (pre ++ OpPoll :: post))) as Hnd.
      { apply StronglySorted_inv in Hord as [Hord _]. by apply StronglySorted_lt_NoDup. }
      rewrite Hl3 in Hnd. apply list.NoDup_app in Hnd as (_ & Hdis & _). apply (Hdis (task_seq x)); set_solver.
    - apply list_elem_of_fmap in Hlive as (y & Hxy & Hy). rewrite <- Hl2 in Hy.
      destruct (live_seq_bounds t2 y Hi2 Hy) as [_ Hle]. specialize (Hle Hp2). lia. }
  split; [|done]. assert (seq ∈ registered (pre ++ OpPoll :: post)) as Hin by (rewrite Hreg; set_solver).
  rewrite Hl3 in Hin. apply elem_of_app in Hin as [Hin|Hin]; done.
Qed.
End live.

(** Tasks 1 and 2 are registered; the response to 2 arrives, a third task
    comes in between, and with a timeout of one second two ticks end them. *)
Example task_ends_in_time_witness :
  let '(fin, _) := timer_run ([OpReg (demo_task 1); OpReg (demo_task 2)]
    ++ OpPoll :: [OpTick; OpTake 2; OpReg (demo_task 3); OpTick]) (ClientTaskTimer_new 1) in
  fin = [2%Z; 1%Z] /\ 1%Z ∈ fin.
Proof.
  pose proof (task_ends_in_time [OpReg (demo_task 1); OpReg (demo_task 2)]
    [OpTick; OpTake 2; OpReg (demo_task 3); OpTick] 1) as Ht.
  assert (ops_ok 0 ([OpReg (demo_task 1); OpReg (demo_task 2)]
    ++ OpPoll :: [OpTick; OpTake 2; OpReg (demo_task 3); OpTick])) as H1 by (repeat constructor).
  specialize (Ht H1 eq_refl (le_n _)).
  destruct (timer_run _ _) as [fin t] eqn:E in Ht |- *. vm_compute in E. injection E as <- _.
  split; [reflexivity|]. apply Ht. vm_compute. left.
Defined.
