(* ===== verification/TcpClient.v ===== *)
(** * transport/tcp/src/client.rs: the client side of a connection

    [TcpClient] writes request frames and reads response frames.  [read_resp]
    works on the connection and on the stream's [ClientTaskTimer]; finishing a
    task is recorded as an event ([task.done()] or [facts.error_handle]). *)

From S2P Require Import Prelude RustStd Errors Task Config Buffer Proto BufIO Timer TimerLive.

Definition CLIENT_DEFAULT_BUF_SIZE : nat := Z.to_nat (8 * 1024).

Record TcpClient (T : Type) := mkTcpClient {
  tc_stream : AsyncBufStream T;
  tc_resp_buf : bytes;
  tc_conn_id : bytes;
  tc_read_timeout : Z;
  tc_write_timeout : Z;
}.
Arguments mkTcpClient {T}.
Arguments tc_stream {T}.
Arguments tc_resp_buf {T}.
Arguments tc_conn_id {T}.
Arguments tc_read_timeout {T}.
Arguments tc_write_timeout {T}.

(** What [read_resp] works on: the connection, the timer, and the events so far. *)
Record ClientSide (T K : Type) := mkClientSide {
  cs_conn : TcpClient T;
  cs_timer : ClientTaskTimer K;
  cs_events : list (task_event K);
}.
Arguments mkClientSide {T K}.
Arguments cs_conn {T K}.
Arguments cs_timer {T K}.
Arguments cs_events {T K}.

Section conn.
Context {T : Type} `{AsyncRead T, AsyncWrite T} (shutdown_write : T -> T).
Variable fuel : nat.

Local Instance client_AsyncWrite : AsyncWrite (AsyncBufStream T) :=
  AsyncBufStream_AsyncWrite fuel.

Definition put_conn_stream (st : AsyncBufStream T) (c : TcpClient T) : TcpClient T :=
  mkTcpClient st (tc_resp_buf c) (tc_conn_id c) (tc_read_timeout c) (tc_write_timeout c).
Definition put_resp_buf (b : bytes) (c : TcpClient T) : TcpClient T :=
  mkTcpClient (tc_stream c) b (tc_conn_id c) (tc_read_timeout c) (tc_write_timeout c).

(** [connect], from the stream that the runtime connected; its failures and
    an address that does not parse are [Unreachable]. *)
Definition TcpClient_connect (connected : result (io_result T) unit) (conn_id : bytes)
    (config : ClientConfig) : option (result (TcpClient T) RpcIntErr) :=
  match connected with
  | Err _ => Some (Err Unreachable)
  | Ok (Err _) => Some (Err Unreachable)
  | Ok (Ok stream) =>
      let buf_size := cc_stream_buf_size config in
      let buf_size := if (buf_size =? 0)%nat then CLIENT_DEFAULT_BUF_SIZE else buf_size in
      match AsyncBufStream_new stream buf_size with
      | None => None
      | Some st => Some (Ok (mkTcpClient st [] conn_id (cc_read_timeout config)
                               (cc_write_timeout config)))
      end
  end.

Definition cl_write (buf : bytes) : runM (TcpClient T) io_error unit :=
  fun c =>
    run_io tc_stream put_conn_stream id
      (io_with_timeout (tc_write_timeout c) (write_all fuel buf)) c.

Definition TcpClient_flush_req : runM (TcpClient T) io_error unit :=
  fun c =>
    run_io tc_stream put_conn_stream id
      (io_with_timeout (tc_write_timeout c) (AsyncBufStream_flush fuel)) c.

Definition TcpClient_close_conn : TcpClient T -> run unit * TcpClient T :=
  fun c =>
    match TcpClient_flush_req c with
    | (Done (Ok _), c) =>
        let st := tc_stream c in
        (Done (), put_conn_stream
                    (mkBufStream (bs_read st) (bs_write st) (shutdown_write (bs_inner st))) c)
    | (Done (Err _), c) => (Done (), c)
    | (Waiting, c) => (Waiting, c)
    | (Panicked, c) => (Panicked, c)
    end.

Definition TcpClient_write_req (buf : bytes) (blob : option bytes) (need_flush : bool)
    : runM (TcpClient T) io_error unit :=
  let* _ := cl_write buf in
  let* _ := match blob with Some blob_buf => cl_write blob_buf | None => run_ret () end in
  if need_flush then TcpClient_flush_req else run_ret ().
End conn.

Section reading.
Context {T C K : Type} `{AsyncRead T} `{ClientTask C K} (B : Type) `{IoBuffer B}.
Variable fuel : nat.
Let S := ClientSide T K.

Definition side_stream (s : S) : AsyncBufStream T := tc_stream (cs_conn s).
Definition put_side_stream (st : AsyncBufStream T) (s : S) : S :=
  mkClientSide (put_conn_stream st (cs_conn s)) (cs_timer s) (cs_events s).
Definition put_side_resp_buf (b : bytes) (s : S) : S :=
  mkClientSide (put_resp_buf b (cs_conn s)) (cs_timer s) (cs_events s).
Definition put_timer (t : ClientTaskTimer K) (s : S) : S :=
  mkClientSide (cs_conn s) t (cs_events s).

(** [task.done()] and [facts.error_handle(task)] *)
Definition emit {E} (ev : task_event K) : runM S E unit :=
  run_put (fun s => mkClientSide (cs_conn s) (cs_timer s) (cs_events s ++ [ev])).

(** [read_exact] of [n] bytes under the read timeout. *)
Definition cl_read (n : nat) : runM S io_error bytes :=
  fun s =>
    run_io side_stream put_side_stream id
      (io_with_timeout (tc_read_timeout (cs_conn s)) (read_exact fuel n)) s.

(** A read whose failure also ends the task, with [RpcIntErr::IO]. *)
Definition cl_read_for (task : K) (n : nat) : runM S io_error bytes :=
  fun s =>
    match cl_read n s with
    | (Done (Err e), s) =>
        (let* _ := emit (EvErrorHandle (set_rpc_error task IO)) in run_err e) s
    | r => r
    end.

(** [get_resp_buf]: a length over [isize::MAX] is the capacity panic. *)
Definition get_resp_buf (len : Z) : runM S io_error unit :=
  if (2 ^ 63 <=? len)%Z then run_panic
  else run_put (fun s => put_side_resp_buf
                           (vec_resize (Z.to_nat len) (tc_resp_buf (cs_conn s))) s).

Definition recv_and_dump (l : Z) : runM S io_error unit :=
  match buf_alloc (B := B) (as_i32 l) with
  | Err _ => run_err OutOfMemory
  | Ok buf => let* _ := cl_read (Z.to_nat (buf_len buf)) in run_ret ()
  end.

(** [_recv_error]: the response carries an error for the task. *)
Definition recv_error (codec : C) (resp_head : RespHead) (task : K) : runM S io_error unit :=
  if (rp_flag resp_head =? 1)%Z then
    emit (EvErrorHandle (set_custom_error codec task (EncNum (rp_msg_len resp_head))))
  else if (rp_flag resp_head =? 2)%Z then
    let len := as_usize (rp_blob_len resp_head) in
    let* _ := get_resp_buf len in
    let* buf := cl_read_for task (Z.to_nat len) in
    let* _ := run_put (put_side_resp_buf buf) in
    let custom := emit (EvErrorHandle (set_custom_error codec task (EncBuf buf))) in
    if starts_with buf RPC_ERR_PREFIX then
      if utf8_valid buf then
        match RpcIntErr_from_str buf with
        | Ok e => emit (EvErrorHandle (set_rpc_error task e))
        | Err _ => custom
        end
      else custom
    else custom
  else run_panic.

(** The end of [_recv_resp_body] for a task whose data has arrived. *)
Definition finish_task (codec : C) (resp_head : RespHead) (task : K) (read_buf : bytes)
    : runM S io_error unit :=
  if (0 <? rp_msg_len resp_head)%Z then
    match decode_resp codec task read_buf with
    | (Err _, task) => emit (EvErrorHandle (set_rpc_error task Decode))
    | (Ok _, task) => emit (EvDone (set_ok task))
    end
  else emit (EvDone (set_ok task)).

(** The response carries a message and a blob for the task. *)
Definition recv_task (codec : C) (resp_head : RespHead) (task : K) : runM S io_error unit :=
  let blob_len := rp_blob_len resp_head in
  let* read_buf :=
    (if (0 <? rp_msg_len resp_head)%Z then
       let* bs := cl_read_for task (Z.to_nat (rp_msg_len resp_head)) in
       let* _ := run_put (put_side_resp_buf bs) in run_ret bs
     else run_ret []) in
  if (0 <? blob_len)%Z then
    match reserve_resp_blob task blob_len with
    | (None, task) =>
        let* _ := emit (EvErrorHandle (set_rpc_error task Decode)) in
        recv_and_dump (as_usize blob_len)
    | (Some len, task) =>
        let* blob := cl_read_for task (Z.to_nat len) in
        finish_task codec resp_head (put_resp_blob task blob) read_buf
    end
  else finish_task codec resp_head task read_buf.

(** No task waits for the response: its data is skipped.  The lengths are
    added as [u32]; an overflow is the debug panic. *)
Definition skip_resp (resp_head : RespHead) : runM S io_error unit :=
  let blob_len := as_u32 (rp_blob_len resp_head) in
  let* data_len :=
    (if (rp_flag resp_head =? 0)%Z then
       if (u32_MAX <? rp_msg_len resp_head + blob_len)%Z then run_panic
       else run_ret (rp_msg_len resp_head + blob_len)%Z
     else if (rp_flag resp_head =? RESP_FLAG_HAS_ERR_STRING)%Z then run_ret blob_len
     else run_ret 0%Z) in
  if (0 <? data_len)%Z then recv_and_dump data_len else run_ret ().

Definition recv_resp_body (codec : C) (resp_head : RespHead) : runM S io_error unit :=
  let* _ := get_resp_buf (rp_msg_len resp_head) in
  fun s =>
    match take_task (rp_seq resp_head) (cs_timer s) with
    | (Pending, t) => (Waiting, put_timer t s)
    | (Ready None, t) => skip_resp resp_head (put_timer t s)
    | (Ready (Some task), t) =>
        if (0 <? rp_flag resp_head)%Z then recv_error codec resp_head task (put_timer t s)
        else recv_task codec resp_head task (put_timer t s)
    end.

(** [read_resp]: the header is awaited with the close channel when there is
    one, else under the read timeout. *)
Definition read_resp_header (close_ch : option (poll unit)) : runM S RpcIntErr (option bytes) :=
  fun s =>
    match close_ch with
    | Some close_f =>
        match cancellable (read_exact fuel RPC_RESP_HEADER_LEN) close_f (side_stream s) with
        | (Ready (Ok (Ok bs)), st) => (Done (Ok (Some bs)), put_side_stream st s)
        | (Ready (Ok (Err e)), st) => (Done (Err (RpcIntErr_from_io e)), put_side_stream st s)
        | (Ready (Err _), st) => (Done (Ok None), put_side_stream st s)
        | (Pending, st) => (Waiting, put_side_stream st s)
        end
    | None =>
        match cl_read RPC_RESP_HEADER_LEN s with
        | (Done (Ok bs), s) => (Done (Ok (Some bs)), s)
        | (Done (Err e), s) => (Done (Err (RpcIntErr_from_io e)), s)
        | (Waiting, s) => (Waiting, s)
        | (Panicked, s) => (Panicked, s)
        end
    end.

Definition run_map_err {A} (m : runM S io_error A) : runM S RpcIntErr A :=
  fun s =>
    match m s with
    | (Done (Ok a), s) => (Done (Ok a), s)
    | (Done (Err e), s) => (Done (Err (RpcIntErr_from_io e)), s)
    | (Waiting, s) => (Waiting, s)
    | (Panicked, s) => (Panicked, s)
    end.

Definition TcpClient_read_resp (codec : C) (close_ch : option (poll unit))
    : runM S RpcIntErr bool :=
  let* header := read_resp_header close_ch in
  match header with
  | None => run_ret false
  | Some resp_head_buf =>
      let* decoded := run_option (RespHead_decode_head resp_head_buf) in
      match decoded with
      | Err e => run_err e
      | Ok head =>
          let* _ := run_map_err (recv_resp_body codec head) in
          run_ret true
      end
  end.
End reading.

(** ** What a response means to a task *)

(** The two kinds of response a server sends. *)
Inductive resp :=
| RespOk (msg : bytes) (blob : option bytes)
| RespErr (e : EncodedErr).

Definition resp_frame (seq : Z) (r : resp) : bytes :=
  match r with
  | RespOk msg blob => RespHead_as_bytes (resp_head_of seq msg blob) ++ msg ++ default [] blob
  | RespErr e => RespHead_as_bytes (err_head_of seq e) ++ err_text e
  end.

(** The responses a header can announce. *)
Definition resp_wf (r : resp) : Prop :=
  match r with
  | RespOk msg blob => zlen msg <= u32_MAX /\ opt_len blob <= i32_MAX
  | RespErr e => zlen (err_text e) <= i32_MAX
  end%Z.

(** The length of the data after the header. *)
Definition resp_data_len (r : resp) : Z :=
  match r with
  | RespOk msg blob => zlen msg + opt_len blob
  | RespErr e => zlen (err_text e)
  end.

Lemma resp_data_len_nonneg r : (0 <= resp_data_len r)%Z.
Proof.
  destruct r as [msg blob|e]; simpl; [|apply zlen_nonneg].
  pose proof (zlen_nonneg msg). pose proof (opt_len_nonneg blob). lia.
Qed.

Section meaning.
Context {C K : Type} `{ClientTask C K}.

Definition complete_msg (codec : C) (x : K) (msg : bytes) : task_event K :=
  match msg with
  | [] => EvDone (set_ok x)
  | _ =>
      match decode_resp codec x msg with
      | (Err _, x) => EvErrorHandle (set_rpc_error x Decode)
      | (Ok _, x) => EvDone (set_ok x)
      end
  end.

Definition complete (codec : C) (x : K) (r : resp) : task_event K :=
  match r with
  | RespOk msg (Some (b :: bs)) =>
      match reserve_resp_blob x (zlen (b :: bs)) with
      | (None, x) => EvErrorHandle (set_rpc_error x Decode)
      | (Some _, x) => complete_msg codec (put_resp_blob x (b :: bs)) msg
      end
  | RespOk msg _ => complete_msg codec x msg
  | RespErr (EncNum n) => EvErrorHandle (set_custom_error codec x (EncNum (as_u32 n)))
  | RespErr e =>
      if starts_with (err_text e) RPC_ERR_PREFIX && utf8_valid (err_text e) then
        match RpcIntErr_from_str (err_text e) with
        | Ok ie => EvErrorHandle (set_rpc_error x ie)
        | Err _ => EvErrorHandle (set_custom_error codec x (EncBuf (err_text e)))
        end
      else EvErrorHandle (set_custom_error codec x (EncBuf (err_text e)))
  end.
End meaning.

Section reading_frames.
Context {T C K : Type} `{AsyncReadLaws T} `{ClientTaskLaws C K} (B : Type) `{IoBufferLaws B}.
Variable fuel : nat.
Implicit Types s : ClientSide T K.

(** The stream will deliver [bs] without a fault. *)
Definition side_in s (bs : bytes) : Prop :=
  r_inv (side_stream s) /\ r_ready (side_stream s) /\ incoming (side_stream s) = bs.

(** A step that leaves the stream, or the timer and events, alone. *)
Definition same_side s s' : Prop := cs_timer s' = cs_timer s /\ cs_events s' = cs_events s.

Lemma cl_read_in s bs rest :
  side_in s (bs ++ rest) -> length bs <= fuel ->
  exists s', cl_read fuel (length bs) s = (Done (Ok bs), s') /\ side_in s' rest /\ same_side s s'.
Proof.
  intros (Hi & Hr & Hin) Hf.
  destruct (read_exact_front fuel (side_stream s) bs rest) as (st & E & Hin' & Hi' & Hr'); [done..|].
  exists (put_side_stream st s). split; [|done].
  apply run_io_ok, io_with_timeout_ready, E.
Qed.

Lemma cl_read_for_in s x bs rest :
  side_in s (bs ++ rest) -> length bs <= fuel ->
  exists s', cl_read_for fuel x (length bs) s = (Done (Ok bs), s')
    /\ side_in s' rest /\ same_side s s'.
Proof.
  intros Hs Hf. destruct (cl_read_in s bs rest Hs Hf) as (s' & E & ?).
  exists s'. unfold cl_read_for. by rewrite E.
Qed.

Lemma recv_and_dump_in s bs rest n :
  side_in s (bs ++ rest) -> length bs <= fuel -> n = zlen bs -> (n < 2 ^ 31)%Z ->
  is_ok (buf_alloc (B := B) n) = true ->
  exists s', recv_and_dump B fuel n s = (Done (Ok ()), s') /\ side_in s' rest /\ same_side s s'.
Proof.
  intros Hs Hf -> Hn Ha. unfold recv_and_dump. pose proof (zlen_nonneg bs).
  unfold as_i32. rewrite swrap_small by (unfold in_i; lia).
  destruct (buf_alloc (zlen bs)) as [b|[]] eqn:Eb; [|done].
  apply buf_alloc_len in Eb as [-> _]. rewrite to_nat_zlen.
  destruct (cl_read_in s bs rest Hs Hf) as (s' & E & ?).
  exists s'. by rewrite (run_bind_ok _ _ _ _ _ E).
Qed.

Lemma finish_task_spec c h x msg s :
  rp_msg_len h = zlen msg ->
  finish_task c h x msg s =
    (Done (Ok ()), mkClientSide (cs_conn s) (cs_timer s) (cs_events s ++ [complete_msg c x msg])).
Proof.
  intros Hm. unfold finish_task, complete_msg. rewrite Hm.
  destruct msg as [|b msg]; [done|]. change (0 <? zlen (b :: msg))%Z with true. simpl.
  by destruct (decode_resp c x (b :: msg)) as [[[]|[]] x'].
Qed.

Lemma recv_task_in c x msg blob seq s rest :
  side_in s (msg ++ default [] blob ++ rest) -> resp_wf (RespOk msg blob) ->
  length msg <= fuel -> (opt_len blob <= Z.of_nat fuel)%Z ->
  is_ok (buf_alloc (B := B) (opt_len blob)) = true ->
  exists s', recv_task B fuel c (resp_head_of seq msg blob) x s = (Done (Ok ()), s')
    /\ side_in s' rest /\ cs_timer s' = cs_timer s
    /\ cs_events s' = cs_events s ++ [complete c x (RespOk msg blob)].
Proof.
  intros Hs [Hm Hb] Hfm Hfb Ha. unfold recv_task. cbn [rp_msg_len rp_blob_len resp_head_of].
  set (rd := if (0 <? zlen msg)%Z then _ else _).
  assert (exists s1, rd s = (Done (Ok msg), s1) /\ side_in s1 (default [] blob ++ rest)
    /\ same_side s s1) as (s1 & E1 & Hs1 & Ht1 & He1).
  { subst rd. destruct msg as [|b msg]; [by exists s|].
    change (0 <? zlen (b :: msg))%Z with true. cbn [negb]. rewrite to_nat_zlen.
    destruct (cl_read_for_in s x (b :: msg) _ Hs Hfm) as (s1 & E & Hs1 & Hsame).
    exists (put_side_resp_buf (b :: msg) s1). by rewrite (run_bind_ok _ _ _ _ _ E). }
  rewrite (run_bind_ok _ _ _ _ _ E1). rewrite <- Ht1, <- He1.
  assert (forall h, rp_msg_len h = zlen msg -> side_in s1 rest ->
    exists s', finish_task c h x msg s1 = (Done (Ok ()), s') /\ side_in s' rest
      /\ cs_timer s' = cs_timer s1 /\ cs_events s' = cs_events s1 ++ [complete_msg c x msg]) as Hfin.
  { intros h Hh Hin. rewrite finish_task_spec by done. eauto. }
  destruct blob as [[|b bs]|]; [by apply Hfin| |by apply Hfin].
  cbn [opt_len default id] in *. change (0 <? zlen (b :: bs))%Z with true. cbv iota.
  unfold complete. pose proof (zlen_nonneg (b :: bs)). unfold i32_MAX in Hb.
  destruct (reserve_resp_blob x (zlen (b :: bs))) as [[n|] x1] eqn:Er.
  - apply reserve_len in Er as ->; [|lia]. rewrite to_nat_zlen.
    destruct (cl_read_for_in s1 x1 (b :: bs) rest Hs1) as (s2 & E2 & Hs2 & Ht2 & He2).
    { unfold zlen in Hfb. lia. }
    rewrite (run_bind_ok _ _ _ _ _ E2), finish_task_spec by done.
    rewrite <- Ht2, <- He2. eauto.
  - unfold emit. rewrite run_bind_put.
    set (s2 := mkClientSide _ _ _). 
    destruct (recv_and_dump_in s2 (b :: bs) rest (as_usize (zlen (b :: bs))))
      as (s3 & E3 & Hs3 & Ht3 & He3).
    + done.
    + unfold zlen in Hfb. lia.
    + apply as_usize_i32. lia.
    + rewrite as_usize_i32; lia.
    + rewrite as_usize_i32; [done|lia].
    + rewrite E3. eexists. split; [done|]. split; [done|]. rewrite Ht3, He3. done.
Qed.

Lemma recv_error_in c x e seq s rest :
  side_in s (err_text e ++ rest) -> resp_wf (RespErr e) -> length (err_text e) <= fuel ->
  exists s', recv_error fuel c (err_head_of seq e) x s = (Done (Ok ()), s')
    /\ side_in s' rest /\ cs_timer s' = cs_timer s
    /\ cs_events s' = cs_events s ++ [complete c x (RespErr e)].
Proof.
  intros Hs Hw Hf. simpl in Hw. unfold i32_MAX in Hw. unfold recv_error.
  assert ((exists n, e = EncNum n) \/ forall n, e <> EncNum n) as [[n ->]|Hne]
    by (destruct e; by eauto).
  { cbn [err_head_of rp_flag rp_msg_len]. simpl in Hs. eexists. split; [done|]. done. }
  assert (rp_flag (err_head_of seq e) = 2%Z) as -> by (destruct e as [|n| |]; try done; by destruct (Hne n)).
  assert (complete c x (RespErr e) =
    if starts_with (err_text e) RPC_ERR_PREFIX && utf8_valid (err_text e) then
      match RpcIntErr_from_str (err_text e) with
      | Ok ie => EvErrorHandle (set_rpc_error x ie)
      | Err _ => EvErrorHandle (set_custom_error c x (EncBuf (err_text e)))
      end
    else EvErrorHandle (set_custom_error c x (EncBuf (err_text e)))) as ->
    by (destruct e as [|n| |]; try done; by destruct (Hne n)).
  cbn [Z.eqb Pos.eqb rp_blob_len err_head_of]. pose proof (zlen_nonneg (err_text e)).
  unfold as_i32. rewrite swrap_small by (unfold in_i; lia). rewrite as_usize_i32 by lia.
  unfold get_resp_buf. destruct (Z.leb_spec (2 ^ 63) (zlen (err_text e))); [lia|].
  rewrite run_bind_put. set (s1 := put_side_resp_buf _ s). rewrite to_nat_zlen.
  destruct (cl_read_for_in s1 x (err_text e) rest Hs Hf) as (s2 & E2 & Hs2 & Ht2 & He2).
  rewrite (run_bind_ok _ _ _ _ _ E2), run_bind_put.
  change (cs_timer s) with (cs_timer s1). change (cs_events s) with (cs_events s1).
  rewrite <- Ht2, <- He2.
  destruct (starts_with (err_text e) RPC_ERR_PREFIX); simpl; [|by eauto].
  destruct (utf8_valid (err_text e)); [|by eauto].
  destruct (RpcIntErr_from_str (err_text e)) as [ie|[]]; by eauto.
Qed.

Lemma read_resp_header_in s close bs rest :
  side_in s (bs ++ rest) -> length bs = RPC_RESP_HEADER_LEN -> RPC_RESP_HEADER_LEN <= fuel ->
  exists s', read_resp_header fuel close s = (Done (Ok (Some bs)), s')
    /\ side_in s' rest /\ same_side s s'.
Proof.
  intros Hs Hl Hf. destruct close as [close|]; unfold read_resp_header.
  - destruct Hs as (Hi & Hr & Hin).
    destruct (read_exact_front fuel (side_stream s) bs rest) as (st & E & Hin' & Hi' & Hr');
      [done..|by rewrite Hl|].
    rewrite Hl in E. rewrite (cancellable_ready _ _ _ _ _ E).
    exists (put_side_stream st s). done.
  - destruct (cl_read_in s bs rest Hs) as (s' & E & ?); [by rewrite Hl|].
    rewrite Hl in E. rewrite E. eauto.
Qed.

(** The header of a response frame, and what follows it. *)
Definition frame_head (seq : Z) (r : resp) : RespHead :=
  match r with
  | RespOk msg blob => resp_head_of seq msg blob
  | RespErr e => err_head_of seq e
  end.

Definition frame_data (r : resp) : bytes :=
  match r with
  | RespOk msg blob => msg ++ default [] blob
  | RespErr e => err_text e
  end.

Lemma resp_frame_split seq r : resp_frame seq r = RespHead_as_bytes (frame_head seq r) ++ frame_data r.
Proof. by destruct r. Qed.

Lemma frame_head_wf seq r : in_u 64 seq -> resp_wf r -> RespHead_wf (frame_head seq r).
Proof.
  intros Hs Hw. destruct r; simpl in *; [apply resp_head_of_wf|apply err_head_of_wf]; naive_solver.
Qed.

Lemma frame_head_decode seq r :
  in_u 64 seq -> resp_wf r ->
  RespHead_decode_head (RespHead_as_bytes (frame_head seq r)) = Some (Ok (frame_head seq r)).
Proof.
  intros Hs Hw. apply RespHead_decode_wf; [by apply frame_head_wf|by destruct r..].
Qed.

(** [recv_resp_body] after the response buffer was sized. *)
Definition recv_body (c : C) (h : RespHead) : runM (ClientSide T K) io_error unit :=
  fun s =>
    match take_task (rp_seq h) (cs_timer s) with
    | (Pending, t) => (Waiting, put_timer t s)
    | (Ready None, t) => skip_resp B fuel h (put_timer t s)
    | (Ready (Some task), t) =>
        if (0 <? rp_flag h)%Z then recv_error fuel c h task (put_timer t s)
        else recv_task B fuel c h task (put_timer t s)
    end.

(** [read_resp] is the header followed by the body on the rest of the frame. *)
Lemma read_resp_head c close h s rest :
  side_in s (RespHead_as_bytes h ++ rest) -> RespHead_wf h ->
  RespHead_decode_head (RespHead_as_bytes h) = Some (Ok h) -> RPC_RESP_HEADER_LEN <= fuel ->
  exists s1, side_in s1 rest /\ same_side s s1
    /\ TcpClient_read_resp B fuel c close s =
       (let* _ := run_map_err (recv_body c h) in run_ret true) s1.
Proof.
  intros Hs Hw Hd Hf.
  destruct (read_resp_header_in s close _ _ Hs) as (s1 & E & Hs1 & Hsame); [done..|].
  unfold TcpClient_read_resp. rewrite (run_bind_ok _ _ _ _ _ E), Hd.
  cbn [run_option]. rewrite (run_bind_ok _ _ s1 (Ok h) s1) by done.
  destruct Hw as (_ & _ & _ & Hlen & _). unfold in_u in Hlen.
  exists (put_side_resp_buf (vec_resize (Z.to_nat (rp_msg_len h)) (tc_resp_buf (cs_conn s1))) s1).
  split; [done|]. split; [done|].
  assert (recv_resp_body B fuel c h =
    let* _ := run_put (fun s => put_side_resp_buf
                (vec_resize (Z.to_nat (rp_msg_len h)) (tc_resp_buf (cs_conn s))) s) in
    recv_body c h) as ->; [|done].
  unfold recv_resp_body, get_resp_buf. by destruct (Z.leb_spec (2 ^ 63) (rp_msg_len h)); [lia|].
Qed.

Lemma read_resp_frame_head c close seq r s rest :
  side_in s (resp_frame seq r ++ rest) -> in_u 64 seq -> resp_wf r ->
  RPC_RESP_HEADER_LEN <= fuel ->
  exists s1, side_in s1 (frame_data r ++ rest) /\ same_side s s1
    /\ TcpClient_read_resp B fuel c close s =
       (let* _ := run_map_err (recv_body c (frame_head seq r)) in run_ret true) s1.
Proof.
  intros Hs Hseq Hw Hf. rewrite resp_frame_split, <- app_assoc in Hs.
  apply read_resp_head; auto using frame_head_decode, frame_head_wf.
Qed.

Lemma frame_head_seq seq r : rp_seq (frame_head seq r) = seq.
Proof. by destruct r. Qed.

Lemma read_resp_registered c close seq r s rest x t' :
  side_in s (resp_frame seq r ++ rest) -> in_u 64 seq -> resp_wf r ->
  take_task seq (cs_timer s) = (Ready (Some x), t') ->
  RPC_RESP_HEADER_LEN <= fuel -> (resp_data_len r <= Z.of_nat fuel)%Z ->
  (forall n, (0 <= n <= resp_data_len r)%Z -> is_ok (buf_alloc (B := B) n) = true) ->
  exists s', TcpClient_read_resp B fuel c close s = (Done (Ok true), s')
    /\ side_in s' rest /\ cs_timer s' = t' /\ cs_events s' = cs_events s ++ [complete c x r].
Proof.
  intros Hs Hseq Hw Ht Hf Hd Ha.
  destruct (read_resp_frame_head c close seq r s rest Hs Hseq Hw Hf) as (s1 & Hs1 & [Ht1 He1] & ->).
  unfold run_bind, run_map_err, recv_body. rewrite frame_head_seq, Ht1, Ht.
  destruct r as [msg blob|e].
  - pose proof (zlen_nonneg msg). pose proof (opt_len_nonneg blob).
    simpl in Hd. cbn [frame_head].
    change (0 <? rp_flag (resp_head_of seq msg blob))%Z with false. cbv iota.
    destruct (recv_task_in c x msg blob seq (put_timer t' s1) rest) as (s2 & E2 & Hs2 & Ht2 & He2).
    + simpl in Hs1. by rewrite <- app_assoc in Hs1.
    + done.
    + unfold zlen in *. lia.
    + lia.
    + apply Ha. simpl. lia.
    + rewrite E2. exists s2. rewrite He2. simpl. by rewrite He1.
  - assert ((0 <? rp_flag (frame_head seq (RespErr e)))%Z = true) as -> by (by destruct e).
    destruct (recv_error_in c x e seq (put_timer t' s1) rest) as (s2 & E2 & Hs2 & Ht2 & He2).
    + done.
    + done.
    + simpl in Hd. unfold zlen in Hd. lia.
    + simpl frame_head. rewrite E2. exists s2. rewrite He2. simpl. by rewrite He1.
Qed.

Lemma skip_resp_in seq r s rest :
  side_in s (frame_data r ++ rest) -> resp_wf r -> (resp_data_len r < 2 ^ 31)%Z ->
  (resp_data_len r <= Z.of_nat fuel)%Z ->
  is_ok (buf_alloc (B := B) (resp_data_len r)) = true ->
  exists s', skip_resp B fuel (frame_head seq r) s = (Done (Ok ()), s')
    /\ side_in s' rest /\ same_side s s'.
Proof.
  intros Hs Hw Hlt Hf Ha.
  assert (zlen (frame_data r) = resp_data_len r) as Hz.
  { destruct r as [msg [b|]|e]; simpl; rewrite ?zlen_app; [done| |done]. change (zlen []) with 0%Z. lia. }
  assert (skip_resp B fuel (frame_head seq r) s =
    (if (0 <? resp_data_len r)%Z then recv_and_dump B fuel (resp_data_len r) else run_ret ()) s) as ->.
  { unfold skip_resp. destruct r as [msg blob|e]; simpl in *.
    - pose proof (opt_len_nonneg blob).
      pose proof (zlen_nonneg msg). rewrite wrap_nonneg_i32 by lia.
      destruct (Z.ltb_spec u32_MAX (zlen msg + opt_len blob)); [unfold u32_MAX in *; lia|]. done.
    - pose proof (zlen_nonneg (err_text e)). unfold as_i32.
      rewrite swrap_small by (unfold in_i; lia). rewrite wrap_nonneg_i32 by lia. by destruct e. }
  destruct (Z.ltb_spec 0 (resp_data_len r)).
  - eapply recv_and_dump_in; [done| |by rewrite Hz|done|done].
    unfold zlen in Hz. lia.
  - exists s. split; [done|]. split; [|done]. 
    assert (frame_data r = []) as Hnil by (apply zlen_nil; pose proof (zlen_nonneg (frame_data r)); lia).
    by rewrite Hnil in Hs.
Qed.

Lemma read_resp_unknown c close seq r s rest t' :
  side_in s (resp_frame seq r ++ rest) -> in_u 64 seq -> resp_wf r ->
  take_task seq (cs_timer s) = (Ready None, t') ->
  RPC_RESP_HEADER_LEN <= fuel -> (resp_data_len r <= Z.of_nat fuel)%Z ->
  (resp_data_len r < 2 ^ 31)%Z -> is_ok (buf_alloc (B := B) (resp_data_len r)) = true ->
  exists s', TcpClient_read_resp B fuel c close s = (Done (Ok true), s')
    /\ side_in s' rest /\ cs_timer s' = t' /\ cs_events s' = cs_events s.
Proof.
  intros Hs Hseq Hw Ht Hf Hd Hlt Ha.
  destruct (read_resp_frame_head c close seq r s rest Hs Hseq Hw Hf) as (s1 & Hs1 & [Ht1 He1] & ->).
  unfold run_bind, run_map_err, recv_body. rewrite frame_head_seq, Ht1, Ht.
  destruct (skip_resp_in seq r (put_timer t' s1) rest) as (s2 & E2 & Hs2 & Ht2 & He2); [done..|].
  rewrite E2. exists s2. rewrite Ht2, He2. simpl. by rewrite He1.
Qed.

Lemma read_resp_bad_head c close h s rest x t' :
  side_in s (RespHead_as_bytes h ++ rest) -> RespHead_wf h -> rp_magic h = RPC_MAGIC ->
  rp_ver h = RPC_VERSION_1 -> RPC_RESP_HEADER_LEN <= fuel ->
  take_task (rp_seq h) (cs_timer s) = (Ready (Some x), t') ->
  (3 <= rp_flag h)%Z \/ (rp_flag h = 2 /\ rp_blob_len h < 0)%Z ->
  exists s', TcpClient_read_resp B fuel c close s = (Panicked, s').
Proof.
  intros Hs Hw Hm Hv Hf Ht Hbad.
  destruct (read_resp_head c close h s rest) as (s1 & _ & [Ht1 _] & ->); [done..| |done|].
  { by apply RespHead_decode_wf. }
  unfold run_bind, run_map_err, recv_body. rewrite Ht1, Ht.
  destruct (Z.ltb_spec 0 (rp_flag h)); [|lia]. unfold recv_error.
  destruct (Z.eqb_spec (rp_flag h) 1); [lia|].
  destruct (Z.eqb_spec (rp_flag h) 2); [|by eexists].
  assert (rp_blob_len h < 0)%Z as Hneg by lia. destruct Hw as (_ & _ & _ & _ & _ & Hb).
  unfold get_resp_buf. destruct (Z.leb_spec (2 ^ 63) (as_usize (rp_blob_len h))); [by eexists|].
  unfold as_usize, wrap in *. rewrite <- (Z.mod_add _ 1) in * by done.
  rewrite Z.mod_small in * by (unfold in_i in Hb; lia). unfold in_i in Hb. lia.
Qed.
End reading_frames.

(** ** Every task taken from the timer is finished once *)

Section fate.
Context {C K : Type} `{ClientTask C K}.

(** The errors a response can carry. *)
Definition wire_err (e : EncodedErr) : bool := match e with EncNum _ | EncBuf _ => true | _ => false end.

(** [finishes c x ev]: the event [ev] is an end of the task [x], after any
    number of responses put into it. *)
Inductive finishes (c : C) : K -> task_event K -> Prop :=
| fin_rpc x e : finishes c x (EvErrorHandle (set_rpc_error x e))
| fin_custom x e : wire_err e = true -> finishes c x (EvErrorHandle (set_custom_error c x e))
| fin_ok x : finishes c x (EvDone (set_ok x))
| fin_decoded x bs ev : finishes c (decode_resp c x bs).2 ev -> finishes c x ev
| fin_reserved x n ev : finishes c (reserve_resp_blob x n).2 ev -> finishes c x ev
| fin_blob x bs ev : finishes c (put_resp_blob x bs) ev -> finishes c x ev.

Definition event_seqs (evs : list (task_event K)) : list Z := (task_seq ∘ event_task) <$> evs.

Lemma finishes_seq `{!ClientTaskLaws C K} c x ev : finishes c x ev -> task_seq (event_task ev) = task_seq x.
Proof.
  induction 1 as [x e|x e _|x|x bs ev _ IH|x n ev _ IH|x bs ev _ IH]; simpl.
  - apply task_seq_rpc_error.
  - apply task_seq_custom_error.
  - apply task_seq_ok.
  - rewrite IH. destruct (decode_resp c x bs) as [r y] eqn:E. by apply task_seq_decode in E.
  - rewrite IH. destruct (reserve_resp_blob x n) as [r y] eqn:E. by apply task_seq_reserve in E.
  - rewrite IH. apply task_seq_put_blob.
Qed.

Lemma finishes_seqs `{!ClientTaskLaws C K} c xs evs :
  Forall2 (finishes c) xs evs -> event_seqs evs = task_seq <$> xs.
Proof.
  induction 1 as [|x ev xs evs Hx _ IH]; [done|]. rewrite fmap_cons, <- IH.
  change (event_seqs (ev :: evs)) with (task_seq (event_task ev) :: event_seqs evs).
  f_equal. by eapply finishes_seq.
Qed.

Lemma fail_all_finishes c e (l : list K) :
  Forall2 (finishes c) l ((fun x => EvErrorHandle (set_rpc_error x e)) <$> l).
Proof. induction l as [|x l IH]; cbn; constructor; [constructor|done]. Qed.
End fate.

Section conservation.
Context {T C K : Type} `{AsyncRead T} `{ClientTaskLaws C K} (B : Type) `{IoBuffer B}.
Variables (fuel : nat) (c : C).
Implicit Types s : ClientSide T K.

(** When [m] finishes it has left the timer alone and finished the tasks [a]
    (on success) or [e] (on failure). *)
Definition emits {E A} (a e : list K) (m : runM (ClientSide T K) E A) : Prop :=
  forall s r s', m s = (Done r, s') ->
    cs_timer s' = cs_timer s /\ exists evs, cs_events s' = cs_events s ++ evs
      /\ Forall2 (finishes c) (if is_ok r then a else e) evs.

Lemma emits_ret {E A} (x : A) e : emits (E := E) [] e (run_ret x).
Proof. intros s r s' [= <- <-]. split; [done|]. exists []. rewrite app_nil_r. by repeat constructor. Qed.

Lemma emits_err {E A} (x : E) a : emits (A := A) a [] (run_err x).
Proof. intros s r s' [= <- <-]. split; [done|]. exists []. rewrite app_nil_r. by repeat constructor. Qed.

Lemma emits_panic {E A} a e : emits (E := E) (A := A) a e run_panic.
Proof. by intros s r s'. Qed.

Lemma emits_emit {E} ev x e : finishes c x ev -> emits (E := E) [x] e (emit ev).
Proof. intros Hx s r s' [= <- <-]. split; [done|]. exists [ev]. by repeat constructor. Qed.

Lemma emits_bind {E A A'} a b e f (m : runM (ClientSide T K) E A) (k : A -> runM _ E A') :
  emits a e m -> (forall x, emits b f (k x)) -> e = a ++ f -> emits (a ++ b) e (run_bind m k).
Proof.
  intros Hm Hk -> s r s'. unfold run_bind. destruct (m s) as [[[x|er]| |] s1] eqn:E1; try done.
  - intros E2. destruct (Hm _ _ _ E1) as (Ht1 & evs1 & He1 & Hq1).
    destruct (Hk _ _ _ _ E2) as (Ht2 & evs2 & He2 & Hq2).
    split; [congruence|]. exists (evs1 ++ evs2). rewrite He2, He1, <- app_assoc. split; [done|].
    destruct (is_ok r); by apply Forall2_app.
  - intros [= <- <-]. exact (Hm _ _ _ E1).
Qed.

Lemma emits_put {E A} f a e (k : runM (ClientSide T K) E A) :
  (forall s, cs_timer (f s) = cs_timer s /\ cs_events (f s) = cs_events s) -> emits a e k ->
  emits a e (run_bind (run_put f) (fun _ => k)).
Proof.
  intros Hf Hk s r s'. rewrite run_bind_put. intros E1.
  destruct (Hf s) as [Ht He]. rewrite <- Ht, <- He. by apply Hk.
Qed.

(** Finishing what became of a task finishes the task. *)
Lemma emits_step {E A} x y (m : runM (ClientSide T K) E A) :
  (forall ev, finishes c y ev -> finishes c x ev) -> emits [y] [y] m -> emits [x] [x] m.
Proof.
  intros Hxy Hm s r s' E1. destruct (Hm s r s' E1) as (Ht & evs & He & Hf). split; [done|].
  exists evs. split; [done|]. assert (Forall2 (finishes c) [y] evs) as Hy by (by destruct (is_ok r)).
  assert (Forall2 (finishes c) [x] evs) by (inversion Hy; subst; constructor; auto).
  by destruct (is_ok r).
Qed.

Lemma emits_read n : emits [] [] (cl_read (K := K) fuel n).
Proof.
  intros s r s'. unfold cl_read, run_io. destruct (io_with_timeout _ _ _) as [[[bs|er]|] st];
    intros E1; simplify_eq; (split; [done|]; exists []; rewrite app_nil_r; by repeat constructor).
Qed.

Lemma emits_read_for x n : emits [] [x] (cl_read_for fuel x n).
Proof.
  intros s r s'. unfold cl_read_for. destruct (cl_read fuel n s) as [[[bs|er]| |] s1] eqn:E1;
    intros E2; simplify_eq.
  - exact (emits_read n s _ _ E1).
  - destruct (emits_read n s _ _ E1) as (Ht & evs & He & Hq). injection E2 as <- <-.
    split; [done|]. eexists (evs ++ [_]). simpl. rewrite He, <- app_assoc. split; [done|].
    apply Forall2_nil_inv_l in Hq as ->. repeat constructor.
Qed.

Lemma emits_resp_buf n e : emits [] e (get_resp_buf (T := T) (K := K) n).
Proof.
  unfold get_resp_buf. destruct (_ <=? _)%Z; [apply emits_panic|].
  intros s r s' [= <- <-]. split; [done|]. exists []. rewrite app_nil_r. by repeat constructor.
Qed.

Lemma emits_dump n : emits [] [] (recv_and_dump (T := T) (K := K) B fuel n).
Proof.
  unfold recv_and_dump. destruct (buf_alloc _); [|apply emits_err].
  apply (emits_bind [] [] [] []); [apply emits_read|intros; apply emits_ret|done].
Qed.

Lemma emits_recv_error h x : emits [x] [x] (recv_error (T := T) fuel c h x).
Proof.
  unfold recv_error.
  destruct (_ =? _)%Z; [by apply emits_emit; constructor|].
  destruct (_ =? _)%Z; [|apply emits_panic].
  apply (emits_bind [] _ _ [x]); [apply emits_resp_buf|intros _|done].
  apply (emits_bind [] _ _ [x]); [apply emits_read_for|intros buf|done].
  apply emits_put; [done|].
  assert (emits [x] [x] (emit (T := T) (E := io_error) (EvErrorHandle (set_custom_error c x (EncBuf buf))))).
  { by apply emits_emit; constructor. }
  destruct (starts_with _ _); [|done]. destruct (utf8_valid _); [|done].
  destruct (RpcIntErr_from_str buf) as [e|]; [|done].
  apply emits_emit; constructor.
Qed.

Lemma emits_finish h x buf : emits [x] [x] (finish_task (T := T) c h x buf).
Proof.
  unfold finish_task. destruct (_ <? _)%Z; [|apply emits_emit; constructor].
  apply (emits_step x (decode_resp c x buf).2); [intros ev; apply fin_decoded|].
  destruct (decode_resp c x buf) as [[[]|[]] y]; apply emits_emit; constructor.
Qed.

Lemma emits_recv_task h x : emits [x] [x] (recv_task (T := T) B fuel c h x).
Proof.
  unfold recv_task. apply (emits_bind [] _ _ [x]); [| |done].
  { destruct (_ <? _)%Z; [|apply emits_ret].
    apply (emits_bind [] [] _ [x]); [apply emits_read_for|intros bs|done].
    apply emits_put; [done|]. apply emits_ret. }
  intros buf. destruct (_ <? _)%Z; [|apply emits_finish].
  apply (emits_step x (reserve_resp_blob x (rp_blob_len h)).2); [intros ev; apply fin_reserved|].
  destruct (reserve_resp_blob x _) as [[n|] y]; cbn [snd].
  - apply (emits_bind [] _ _ [y]); [apply emits_read_for|intros blob|done].
    apply (emits_step y (put_resp_blob y blob)); [intros ev; apply fin_blob|apply emits_finish].
  - apply (emits_bind [y] [] _ []); [|intros _; apply emits_dump|by rewrite app_nil_r].
    apply emits_emit; constructor.
Qed.

Lemma emits_skip h : emits [] [] (skip_resp (T := T) (K := K) B fuel h).
Proof.
  unfold skip_resp. apply (emits_bind [] [] [] []); [| |done].
  { destruct (_ =? _)%Z; [destruct (_ <? _)%Z; [apply emits_panic|apply emits_ret]|].
    destruct (_ =? _)%Z; apply emits_ret. }
  intros n. destruct (_ <? _)%Z; [apply emits_dump|apply emits_ret].
Qed.

(** The tasks that left the timer are the ones that were finished. *)
Definition conserved s s' : Prop :=
  timer_inv (cs_timer s) ->
  timer_inv (cs_timer s')
  /\ (forall hi n, regs_below hi n (cs_timer s) -> regs_below hi n (cs_timer s'))
  /\ announced (cs_timer s') = announced (cs_timer s) /\ ages (cs_timer s) (cs_timer s')
  /\ exists xs evs, cs_events s' = cs_events s ++ evs /\ Forall2 (finishes c) xs evs
    /\ live_tasks (cs_timer s) ≡ₚ xs ++ live_tasks (cs_timer s').

Lemma recv_resp_body_conserved h s r s' :
  recv_resp_body B fuel c h s = (Done r, s') -> conserved s s'.
Proof.
  unfold recv_resp_body, get_resp_buf. destruct (_ <=? _)%Z; [done|]. rewrite run_bind_put.
  set (s1 := put_side_resp_buf _ s). change (cs_timer s1) with (cs_timer s).
  destruct (take_task (rp_seq h) (cs_timer s)) as [q t] eqn:E1. intros E2 Hi.
  assert (forall hi n, regs_below hi n (cs_timer s) -> regs_below hi n t) as Hreg.
  { intros hi n Hb. exact (regs_below_take hi n _ _ _ _ Hi Hb E1). }
  pose proof (take_task_announced _ _ _ _ Hi E1) as Han. pose proof (ages_take _ _ _ _ Hi E1) as Hag.
  apply take_task_ok in E1 as [Hi1 Hq]; [|done]. destruct q as [[x|]|]; [..|done].
  - destruct Hq as [_ Hl].
    assert (exists evs, cs_timer s' = t /\ cs_events s' = cs_events s ++ evs
      /\ Forall2 (finishes c) [x] evs) as (evs & -> & He & Hs).
    { destruct (_ <? _)%Z;
        [apply emits_recv_error in E2 as (? & evs & ? & Hs)
        |apply emits_recv_task in E2 as (? & evs & ? & Hs)];
        exists evs; destruct (is_ok r); done. }
    split_and!; try done. by exists [x], evs.
  - destruct Hq as [Hl _]. apply emits_skip in E2 as (Ht & evs & He & Hs).
    simpl in Ht. rewrite Ht. split_and!; try done. exists [], evs. split; [done|].
    split; [by destruct (is_ok r)|by rewrite Hl].
Qed.

Lemma read_resp_conserved close s r s' :
  TcpClient_read_resp B fuel c close s = (Done r, s') -> conserved s s'.
Proof.
  assert (forall s, conserved s s) as Hrefl.
  { intros u Hu. split_and!; try done. exists [], []. by rewrite app_nil_r. }
  assert (forall s r s1, read_resp_header fuel close s = (r, s1) ->
    cs_timer s1 = cs_timer s /\ cs_events s1 = cs_events s) as Hh.
  { intros u q u'. unfold read_resp_header, cl_read, run_io. destruct close as [cf|].
    - destruct (cancellable _ _ _) as [[[[]|]|] st]; by intros [= _ <-].
    - destruct (io_with_timeout _ _ _) as [[[]|] st]; by intros [= _ <-]. }
  unfold TcpClient_read_resp, run_bind.
  destruct (read_resp_header fuel close s) as [q s1] eqn:E1. apply Hh in E1 as [Ht1 He1].
  assert (forall s2, conserved s1 s2 -> conserved s s2) as Htr
    by (intros s2; unfold conserved; by rewrite Ht1, He1).
  destruct q as [[[bs|]|e]| |]; try done; [|intros [= _ <-]; by apply Htr..].
  destruct (RespHead_decode_head bs) as [[h|e]|]; cbn; try done; [|intros [= _ <-]; by apply Htr].
  unfold run_map_err. destruct (recv_resp_body B fuel c h s1) as [[[u|e]| |] s2] eqn:E2; try done;
    intros [= _ <-]; apply Htr; by eapply recv_resp_body_conserved.
Qed.
End conservation.
