(* ===== verification/EndToEnd.v ===== *)
(** * From one end of a connection to the other

    The TCP client and server meet on the wire: what [ReqHead::encode] and
    [write_req] put on it is what [read_req] takes off it, and what
    [write_resp] puts on it completes the waiting task in [read_resp]. *)

From S2P Require Import Prelude RustStd Errors Task ClientTaskMacro Config Buffer Proto BufIO.
From S2P Require Import Sock Parser ServerTask TcpServer Timer TcpClient.

(** ** Writing on the client side *)

Section client_writing.
Context {T : Type} `{AsyncRead T, AsyncWriteLaws T}.
Variable fuel : nat.

Definition cl_can_write (c : TcpClient T) : Prop :=
  @w_inv _ _ (AsyncBufStream_WriteLaws fuel) (tc_stream c) /\ w_ready (bs_inner (tc_stream c)).

(** What has been written: sent, or waiting in the buffer. *)
Definition cl_out (c : TcpClient T) : bytes :=
  @outgoing _ _ (AsyncBufStream_WriteLaws fuel) (tc_stream c).

Lemma cl_write_ok buf c :
  cl_can_write c -> length buf <= fuel ->
  exists c', cl_write fuel buf c = (Done (Ok ()), c')
    /\ cl_out c' = cl_out c ++ buf /\ cl_can_write c'.
Proof.
  intros [Hi Hr] Hf.
  destruct (@write_all_enough _ _ (AsyncBufStream_WriteLaws fuel) fuel buf (tc_stream c))
    as [st E]; [done..|].
  exists (put_conn_stream st c). split; [by apply run_io_ok, io_with_timeout_ready|].
  destruct (@write_all_ok _ _ (AsyncBufStream_WriteLaws fuel) _ _ _ _ Hi E) as (Ho & Hi' & Hr').
  split; [done|]. split; [done|by apply Hr'].
Qed.

Lemma flush_req_ok c :
  cl_can_write c ->
  exists c', TcpClient_flush_req fuel c = (Done (Ok ()), c')
    /\ outgoing (bs_inner (tc_stream c')) = cl_out c /\ cl_out c' = cl_out c.
Proof.
  intros [(Hw & Hi & Hf) Hr].
  destruct (AsyncBufStream_flush_enough fuel (tc_stream c) Hw Hi Hr Hf) as [st E].
  exists (put_conn_stream st c). split; [by apply run_io_ok, io_with_timeout_ready|].
  apply AsyncBufStream_flush_ok in E as (Ho & Hp & _); [|done|done].
  unfold cl_out; simpl. by rewrite Hp, Ho, app_nil_r.
Qed.

Lemma write_req_ok buf blob c :
  cl_can_write c -> length buf <= fuel -> (opt_len blob <= Z.of_nat fuel)%Z ->
  exists c', TcpClient_write_req fuel buf blob true c = (Done (Ok ()), c')
    /\ outgoing (bs_inner (tc_stream c')) = cl_out c ++ buf ++ default [] blob.
Proof.
  intros Hc Hf Hb. unfold TcpClient_write_req.
  destruct (cl_write_ok buf c Hc Hf) as (c1 & E1 & Ho1 & Hc1).
  rewrite (run_bind_ok _ _ _ _ _ E1).
  assert (exists c2, match blob with Some b => cl_write fuel b | None => run_ret () end c1
      = (Done (Ok ()), c2) /\ cl_out c2 = cl_out c ++ buf ++ default [] blob /\ cl_can_write c2)
    as (c2 & E2 & Ho2 & Hc2).
  { destruct blob as [b|]; simpl in *.
    - destruct (cl_write_ok b c1 Hc1) as (c2 & E2 & Ho2 & Hc2); [unfold zlen in Hb; lia|].
      exists c2. by rewrite Ho2, Ho1, <- app_assoc.
    - exists c1. by rewrite app_nil_r. }
  rewrite (run_bind_ok _ _ _ _ _ E2).
  destruct (flush_req_ok c2 Hc2) as (c3 & E3 & Ho3 & _). exists c3. by rewrite Ho3.
Qed.
End client_writing.

(** ** Properties *)

Section end_to_end.
Context {TC TS C K : Type} `{AsyncWriteLaws TC} `{AsyncReadEofLaws TS} `{ClientTaskLaws C K}.
Context (B : Type) `{IoBufferLaws B}.

End end_to_end.

Section responses.
Context {TS TC C K R : Type} `{AsyncRead TS, AsyncWriteLaws TS} `{AsyncReadLaws TC}
  `{ClientTaskLaws C K} `{ServerTaskEncode C R}.
Context (B : Type) `{IoBufferLaws B}.
Variables (fuel : nat) (stale : nat -> byte).

(** What [encode_resp] announces is what it appended; an error leaves the
    buffer as it was. *)
Definition encodes_clean (c : C) (task : R) (buf : bytes) (seq : Z) (r : resp) : Prop :=
  exists task',
    encode_resp c task (resp_room stale buf) =
      match r with
      | RespOk msg blob => Some (seq, Ok (zlen msg, blob), resp_room stale buf ++ msg, task')
      | RespErr e => Some (seq, Err e, resp_room stale buf, task')
      end.

Lemma write_resp_clean c task s seq r :
  srv_can_write fuel s -> encodes_clean c task (ts_encode_buf s) seq r -> resp_wf r ->
  (resp_data_len r + Z.of_nat RPC_RESP_HEADER_LEN <= Z.of_nat fuel)%Z ->
  exists s1, TcpServer_write_resp fuel stale c task s = (Done (Ok ()), s1)
    /\ srv_out fuel s1 = srv_out fuel s ++ resp_frame seq r /\ srv_can_write fuel s1.
Proof.
  intros Hs [task' E] Hw Hf. destruct r as [msg blob|e]; cbn [resp_frame resp_data_len] in *.
  - destruct Hw as [Hm Hb]. pose proof (opt_len_nonneg blob). pose proof (zlen_nonneg msg).
    destruct (write_resp_frame fuel stale c task s seq blob
      (RespHead_as_bytes (resp_head_of seq msg blob) ++ msg)) as (s1 & E1 & Ho & Hs1).
    + done.
    + by eapply RespHead_encode_ok.
    + rewrite length_app. unfold zlen in *. rewrite length_RespHead_as_bytes. lia.
    + lia.
    + exists s1. by rewrite Ho, <- app_assoc.
  - rewrite <- (app_nil_r (resp_room stale (ts_encode_buf s))) in E at 2.
    apply RespHead_encode_err in E.
    destruct (write_resp_frame fuel stale c task s _ _ _ Hs E) as (s1 & E1 & Ho & Hs1).
    + rewrite app_nil_l, length_app, length_RespHead_as_bytes. unfold zlen in *. lia.
    + simpl. lia.
    + exists s1. cbn [default] in Ho. by rewrite Ho, app_nil_l, app_nil_r.
Qed.

(** C14: A response is delivered to the task that waits for it: written by the
    server's [write_resp] and flushed, it is one frame on the wire; a client
    that finds this frame at the front of its input hands the waiting task
    exactly the completion that the message, the blob or the error calls
    for, once, removes it from the timer, and is aligned at the next frame. *)
Theorem response_delivered (c : C) (task : R) (srv : TcpServer TS) (seq : Z) (r : resp)
    (cs : ClientSide TC K) (x : K) (t' : ClientTaskTimer K) (rest : bytes)
    (close : option (poll unit))
    (Hsrv : srv_can_write fuel srv) (Hseq : in_u 64 seq) (Hw : resp_wf r)
    (Henc : encodes_clean c task (ts_encode_buf srv) seq r)
    (Hfuel : (resp_data_len r + Z.of_nat RPC_RESP_HEADER_LEN <= Z.of_nat fuel)%Z)
    (Halloc : forall n, (0 <= n <= resp_data_len r)%Z -> is_ok (buf_alloc (B := B) n) = true)
    (Hreg : take_task seq (cs_timer cs) = (Ready (Some x), t'))
    (Hin : side_in cs (resp_frame seq r ++ rest)) :
  exists s1 s2 cs',
    TcpServer_write_resp fuel stale c task srv = (Done (Ok ()), s1)
    /\ TcpServer_flush_resp fuel s1 = (Done (Ok ()), s2)
    /\ outgoing (bs_inner (ts_stream s2)) = srv_out fuel srv ++ resp_frame seq r
    /\ TcpClient_read_resp B fuel c close cs = (Done (Ok true), cs')
    /\ cs_events cs' = cs_events cs ++ [complete c x r]
    /\ cs_timer cs' = t' /\ side_in cs' rest.
Proof.
  destruct (write_resp_clean c task srv seq r) as (s1 & E1 & Ho1 & Hs1); [done..|].
  destruct (flush_resp_ok fuel s1 Hs1) as (s2 & E2 & Ho2 & _).
  pose proof (resp_data_len_nonneg r).
  destruct (read_resp_registered B fuel c close seq r cs rest x t')
    as (cs' & E3 & Hin' & Ht' & He'); [done..|lia|lia|done|].
  exists s1, s2, cs'. by rewrite Ho2, Ho1.
Qed.

(** When a response fails to encode after part of it was written, the
    client cannot read what it gets: it takes the first bytes of the
    discarded message for the error text, reports that to the task, and is
    left inside the frame, with the tail of the text still unread. *)
Theorem partial_encode_misread (c : C) (task task' : R) (srv : TcpServer TS) (seq : Z)
    (junk : bytes) (cs : ClientSide TC K) (x : K) (t' : ClientTaskTimer K) (rest : bytes)
    (close : option (poll unit))
    (Hsrv : srv_can_write fuel srv) (Hseq : in_u 64 seq)
    (Henc : encode_resp c task (resp_room stale (ts_encode_buf srv)) =
            Some (seq, Err (EncRpc Encode), resp_room stale (ts_encode_buf srv) ++ junk, task'))
    (Hfuel : RPC_RESP_HEADER_LEN + length junk + 10 <= fuel)
    (Hjunk : junk <> [])
    (Hreg : take_task seq (cs_timer cs) = (Ready (Some x), t'))
    (Halloc : forall n, (0 <= n <= 10)%Z -> is_ok (buf_alloc (B := B) n) = true)
    (Hin : side_in cs (RespHead_as_bytes (err_head_of seq (EncRpc Encode)) ++ junk
                       ++ RpcIntErr_as_bytes Encode ++ rest)) :
  let text := RpcIntErr_as_bytes Encode in
  exists s1 cs',
    TcpServer_write_resp fuel stale c task srv = (Done (Ok ()), s1)
    /\ srv_out fuel s1 = srv_out fuel srv
         ++ RespHead_as_bytes (err_head_of seq (EncRpc Encode)) ++ junk ++ text
    /\ TcpClient_read_resp B fuel c close cs = (Done (Ok true), cs')
    /\ cs_events cs' = cs_events cs
         ++ [complete c x (RespErr (EncBuf (take (length text) (junk ++ text))))]
    /\ side_in cs' (drop (length text) (junk ++ text) ++ rest)
    /\ drop (length text) (junk ++ text) <> [].
Proof.
  intros text. apply RespHead_encode_err in Henc.
  destruct (write_resp_frame fuel stale c task srv _ _ _ Hsrv Henc) as (s1 & E1 & Ho & _).
  { rewrite !length_app, length_RespHead_as_bytes.
    change (length (err_text (EncRpc Encode))) with 10. lia. }
  { simpl. lia. }
  set (got := take (length text) (junk ++ text)).
  assert (length got = 10) as Hgot.
  { unfold got. rewrite length_take, length_app. change (length text) with 10. lia. }
  assert (zlen got = 10%Z) as Hz by (unfold zlen; by rewrite Hgot).
  destruct (read_resp_registered B fuel c close seq (RespErr (EncBuf got)) cs
    (drop (length text) (junk ++ text) ++ rest) x t') as (cs' & E3 & Hin' & Ht' & He').
  - cbn [resp_frame err_text].
    replace (err_head_of seq (EncBuf got)) with (err_head_of seq (EncRpc Encode)).
    2:{ unfold err_head_of. cbn [err_text]. by rewrite Hz. }
    rewrite <- app_assoc. unfold got. rewrite (app_assoc (take _ _)), take_drop.
    rewrite <- app_assoc. exact Hin.
  - done.
  - simpl. rewrite Hz. done.
  - done.
  - lia.
  - simpl. rewrite Hz. lia.
  - simpl. rewrite Hz. done.
  - exists s1, cs'. rewrite Ho, app_nil_r. split; [done|]. split; [done|]. split; [done|].
    split; [done|]. split; [done|]. intros Hnil%(f_equal length).
    rewrite length_drop, length_app in Hnil. destruct junk; simpl in Hnil; [done|lia].
Qed.
End responses.

(** ** The two readers on arbitrary input *)

Section readers.
Context {T C K : Type} `{AsyncReadEofLaws T} `{ClientTaskLaws C K} (B : Type) `{IoBufferLaws B}.
Variable fuel : nat.

(** C27: On any input that the peer sends before it closes, [read_req]
    finishes, without panicking, with exactly what the request grammar
    [parse_req] says of those bytes: the parsed request and the rest of the
    input, or the grammar's error ([IO] for a truncated frame, [Decode] for a
    bad magic or version, an action that is not UTF-8, or a blob that cannot
    be allocated). *)
Theorem read_req_refines_grammar (srv : TcpServer T) (cancel : poll unit)
    (Hsrv : srv_ok fuel true srv) :
  match parse_req (alloc_ok B) (srv_rest srv) with
  | Ok (req, rest) => exists srv', TcpServer_read_req B fuel cancel srv = (Done (Ok req), srv')
      /\ srv_rest srv' = rest /\ srv_ok fuel true srv'
  | Err e => exists srv', TcpServer_read_req B fuel cancel srv = (Done (Err e), srv')
  end.
Proof.
  pose proof (read_req_reads B fuel true cancel srv Hsrv) as Hr.
  destruct (parse_req _ _) as [[req rest]|e]; [|by apply Hr].
  destruct Hr as (srv' & ? & ? & ?). eauto.
Qed.

(** A response nobody waits for (timed out, or a ping's) is skipped whole:
    no task is completed, and the client is aligned at the next frame. *)
Theorem unknown_response_skipped (c : C) (close : option (poll unit)) (seq : Z) (r : resp)
    (cs : ClientSide T K) (rest : bytes) (t' : ClientTaskTimer K)
    (Hin : side_in cs (resp_frame seq r ++ rest)) (Hseq : in_u 64 seq) (Hw : resp_wf r)
    (Hnone : take_task seq (cs_timer cs) = (Ready None, t'))
    (Hfuel : (resp_data_len r + Z.of_nat RPC_RESP_HEADER_LEN <= Z.of_nat fuel)%Z)
    (Hlen : (resp_data_len r < 2 ^ 31)%Z)
    (Halloc : is_ok (buf_alloc (B := B) (resp_data_len r)) = true) :
  exists cs', TcpClient_read_resp B fuel c close cs = (Done (Ok true), cs')
    /\ side_in cs' rest /\ cs_timer cs' = t' /\ cs_events cs' = cs_events cs.
Proof.
  pose proof (resp_data_len_nonneg r). eapply read_resp_unknown; try done; lia.
Qed.

(** The client trusts the response header: an error response with an
    unknown flag, or an error text of negative length, makes [read_resp]
    panic instead of failing the connection. *)
Theorem malformed_response_panics (c : C) (close : option (poll unit)) (h : RespHead)
    (cs : ClientSide T K) (rest : bytes) (x : K) (t' : ClientTaskTimer K)
    (Hin : side_in cs (RespHead_as_bytes h ++ rest)) (Hw : RespHead_wf h)
    (Hmagic : rp_magic h = RPC_MAGIC) (Hver : rp_ver h = RPC_VERSION_1)
    (Hfuel : RPC_RESP_HEADER_LEN <= fuel)
    (Hreg : take_task (rp_seq h) (cs_timer cs) = (Ready (Some x), t'))
    (Hbad : (3 <= rp_flag h)%Z \/ (rp_flag h = 2 /\ rp_blob_len h < 0)%Z) :
  exists cs', TcpClient_read_resp B fuel c close cs = (Panicked, cs').
Proof. by eapply read_resp_bad_head. Qed.
End readers.

(** ** Concrete runs *)

Definition zeros : nat -> byte := fun _ => Byte.x00.

(** A request, a client connection that splits its writes, and a server
    connection that receives the frame in three pieces, then another byte. *)
Definition demo_req : RawTask :=
  raw_task 7 (OwnedStr (lit "echo")) (lit "hi") (Some (lit "blob")).

Definition demo_client : TcpClient sock :=
  mkTcpClient (mkBufStream (mkBufRead (replicate 8 Byte.x00) 0 0) (mkBufWrite (replicate 8 Byte.x00) 0)
                 (mkSock [] true [TxAccept 3; TxAccept 1] []))
    [] (lit "c1") 5000 5000.

Definition demo_frame : bytes :=
  match ReqHead_encode zeros Raw [] 9 demo_req with
  | Some (_, buf) => buf
  | None => []
  end.

Definition demo_server (input : bytes) : TcpServer sock :=
  mkTcpServer (mkBufStream (mkBufRead (replicate 8 Byte.x00) 0 0) (mkBufWrite (replicate 8 Byte.x00) 0)
                 (sock_of [5; 20] input))
    ServerConfig_default [] [] [].


(** A client connection on which [input] arrives, with task [3] waiting. *)
Definition demo_side (input : bytes) : ClientSide sock RawTask :=
  mkClientSide
    (mkTcpClient (mkBufStream (mkBufRead (replicate 8 Byte.x00) 0 0)
                    (mkBufWrite (replicate 8 Byte.x00) 0) (sock_of [7; 9; 2] input))
       [] (lit "c1") 5000 5000)
    demo_timer [].

Lemma demo_side_in input : side_in (demo_side input) input.
Proof.
  destruct (sock_of_ready [7; 9; 2] input) as [Hi Hr].
  split; [split; [split; simpl; [lia|split; simpl; lia]|exact Hi]|]. split; [exact Hr|].
  exact (sock_of_incoming [7; 9; 2] input).
Qed.

Lemma demo_server_rest input : srv_rest (demo_server input) = input.
Proof. unfold srv_rest. etransitivity; [|exact (sock_of_incoming [5; 20] input)]. reflexivity. Qed.

(** The input arrives in pieces; the peer closes after it. *)
Lemma demo_server_ok input : length input < 1000 -> srv_ok 1000 true (demo_server input).
Proof.
  intros Hlen. destruct (sock_of_ready [5; 20] input) as [Hi Hr].
  split; [split; [split; simpl; [lia|split; simpl; lia]|exact Hi]|]. split; [exact Hr|].
  split; [intros _; split; [reflexivity|exact Hr]|].
  rewrite (demo_server_rest input : incoming (ts_stream (demo_server input)) = input). exact Hlen.
Qed.

Lemma demo_server_can_write input : srv_can_write 1000 (demo_server input).
Proof.
  split; [|repeat constructor]. split; [split; simpl; lia|]. split; [done|]. simpl; lia.
Qed.

(** A task the server has finished, and one whose message is too long for the codec. *)
Definition demo_done (msg : bytes) : ServerTaskVariant bytes unit :=
  mkVariant 3 (OwnedNum 1) msg (Some (lit "blob")) (Some (Ok ())) None.

Definition demo_long : bytes := replicate 300 Byte.x61.

Definition demo_resp : resp := RespOk (lit "pong") (Some (lit "blob")).

Example response_delivered_witness :
  exists s2 cs',
    outgoing (bs_inner (ts_stream s2)) = resp_frame 3 demo_resp
    /\ @TcpClient_read_resp sock RawCodec _ _ _ vec vec_IoBuffer 1000 Raw None
         (demo_side (resp_frame 3 demo_resp ++ lit "x")) = (Done (Ok true), cs')
    /\ cs_events cs' = [complete Raw (demo_task 3) demo_resp] /\ live_tasks (cs_timer cs') = [].
Proof.
  destruct (@response_delivered sock sock RawCodec RawTask
    (ServerTaskVariant bytes unit) _ _ _ _ _ _ _ vec vec_IoBuffer vec_IoBufferLaws 1000 zeros
    Raw (demo_done (lit "pong")) (demo_server []) 3 demo_resp
    (demo_side (resp_frame 3 demo_resp ++ lit "x")) (demo_task 3)
    (take_task 3 demo_timer).2 (lit "x") None)
    as (s1 & s2 & cs' & _ & _ & Hout & Hread & Hev & Ht & _).
  - apply demo_server_can_write.
  - unfold in_u; lia.
  - vm_compute; split; discriminate.
  - exists (demo_done (lit "pong")). reflexivity.
  - vm_compute; discriminate.
  - intros n Hn. unfold buf_alloc; simpl. change (resp_data_len demo_resp) with 8%Z in Hn.
    destruct (Z.leb_spec n 1048576); [reflexivity|lia].
  - reflexivity.
  - apply demo_side_in.
  - exists s2, cs'. split; [exact Hout|]. split; [exact Hread|]. split; [exact Hev|].
    rewrite Ht. reflexivity.
Defined.

Example partial_encode_misread_witness :
  exists cs' left,
    cs_events cs'
      = [EvErrorHandle (set_custom_error Raw (demo_task 3) (EncBuf (lit "aaaaaaaaaa")))]
    /\ side_in cs' (left ++ lit "x") /\ left <> [].
Proof.
  destruct (@partial_encode_misread sock sock RawCodec RawTask
    (ServerTaskVariant bytes unit) _ _ _ _ _ _ _ vec vec_IoBuffer vec_IoBufferLaws 1000 zeros
    Raw (demo_done demo_long) (demo_done demo_long) (demo_server []) 3 (replicate 256 Byte.x61)
    (demo_side (RespHead_as_bytes (err_head_of 3 (EncRpc Encode)) ++ replicate 256 Byte.x61
                ++ RpcIntErr_as_bytes Encode ++ lit "x"))
    (demo_task 3) (take_task 3 demo_timer).2 (lit "x") None)
    as (s1 & cs' & _ & _ & _ & Hev & Hin & Hne).
  - apply demo_server_can_write.
  - unfold in_u; lia.
  - reflexivity.
  - vm_compute; lia.
  - discriminate.
  - reflexivity.
  - intros n Hn. unfold buf_alloc; simpl. destruct (Z.leb_spec n 1048576); [reflexivity|lia].
  - apply demo_side_in.
  - eexists cs', _. split; [|split; [exact Hin|exact Hne]]. rewrite Hev. reflexivity.
Defined.

(** A frame cut short: the grammar and the reader agree on [IO]. *)
Example read_req_refines_grammar_witness :
  exists srv',
    @TcpServer_read_req sock _ vec vec_IoBuffer 100 Pending (demo_server (take 33 demo_frame))
    = (Done (Err IO), srv').
Proof.
  pose proof (@read_req_refines_grammar sock _ _ _ vec vec_IoBuffer vec_IoBufferLaws 100
    (demo_server (take 33 demo_frame)) Pending) as Hr.
  destruct (sock_of_ready [5; 20] (take 33 demo_frame)) as [Hi Hrd].
  assert (srv_ok 100 true (demo_server (take 33 demo_frame))) as Hok.
  { split; [split; [split; simpl; [lia|split; simpl; lia]|exact Hi]|]. split; [exact Hrd|].
    split; [intros _; split; [reflexivity|exact Hrd]|]. vm_compute; lia. }
  exact (Hr Hok).
Defined.

Example unknown_response_skipped_witness :
  exists cs',
    @TcpClient_read_resp sock RawCodec _ _ _ vec vec_IoBuffer 1000 Raw None
      (demo_side (resp_frame 2 demo_resp ++ lit "x")) = (Done (Ok true), cs')
    /\ side_in cs' (lit "x") /\ cs_events cs' = [].
Proof.
  destruct (@unknown_response_skipped sock RawCodec RawTask _ _ _ vec
    vec_IoBuffer vec_IoBufferLaws 1000 Raw None 2 demo_resp
    (demo_side (resp_frame 2 demo_resp ++ lit "x")) (lit "x") (take_task 2 demo_timer).2)
    as (cs' & Hread & Hin & _ & Hev).
  - apply demo_side_in.
  - unfold in_u; lia.
  - vm_compute; split; discriminate.
  - reflexivity.
  - vm_compute; discriminate.
  - reflexivity.
  - reflexivity.
  - exists cs'. split; [exact Hread|]. split; [exact Hin|exact Hev].
Defined.

Example malformed_response_panics_witness :
  exists cs',
    @TcpClient_read_resp sock RawCodec _ _ _ vec vec_IoBuffer 1000 Raw None
      (demo_side (RespHead_as_bytes (mkRespHead RPC_MAGIC RPC_VERSION_1 3 0 3 0) ++ []))
    = (Panicked, cs').
Proof.
  apply (@malformed_response_panics sock RawCodec RawTask _ _ _ vec
    vec_IoBuffer 1000 Raw None (mkRespHead RPC_MAGIC RPC_VERSION_1 3 0 3 0)
    _ [] (demo_task 3) (take_task 3 demo_timer).2).
  - apply demo_side_in.
  - repeat split; vm_compute; discriminate.
  - reflexivity.
  - reflexivity.
  - vm_compute; lia.
  - reflexivity.
  - left. simpl. lia.
Defined.
