(* ===== verification/Throttler.v ===== *)
(** * stream/src/client/throttler.rs: the number of requests in flight

    A throttler is a wait group of [sync_utils], which counts the guards of the
    tasks in flight, and a threshold.  The wait group's [wait_to] is external:
    a parameter [wait_to left target], of which [WaitToLaw] states what its
    documentation does. *)

From S2P Require Import Prelude.

Local Open Scope Z_scope.

Record Throttler := mkThrottler {
  th_left : Z;         (* [wg.left()] *)
  th_thresholds : Z;
}.

Definition Throttler_new (thresholds : Z) : Throttler := mkThrottler 0 thresholds.

Definition Throttler_nearly_full (t : Throttler) : bool := th_thresholds t <? th_left t + 1.
Definition Throttler_is_full (t : Throttler) : bool := th_thresholds t <=? th_left t.

(** A threshold of zero does not throttle. *)
Definition Throttler_throttle (wait_to : Z -> Z -> poll bool) (t : Throttler) : poll bool :=
  let target := th_thresholds t in
  if 0 <? target then wait_to (th_left t) target else Ready false.

(** [add_task]: one more guard. *)
Definition Throttler_add_task (t : Throttler) : Throttler := mkThrottler (th_left t + 1) (th_thresholds t).

Definition Throttler_set_thresholds (thresholds : Z) (t : Throttler) : Throttler :=
  mkThrottler (th_left t) thresholds.

Definition Throttler_get_inflight_count (t : Throttler) : Z := th_left t.

(** [wait_to] returns once no more than [target] guards are left. *)
Class WaitToLaw (wait_to : Z -> Z -> poll bool) : Prop :=
  wait_to_left left target b : wait_to left target = Ready b -> left <= target.

Lemma throttle_left wait_to `{!WaitToLaw wait_to} t b :
  0 < th_thresholds t -> Throttler_throttle wait_to t = Ready b -> Throttler_get_inflight_count t <= th_thresholds t.
Proof.
  unfold Throttler_throttle, Throttler_get_inflight_count. intros Hpos.
  destruct (Z.ltb_spec 0 (th_thresholds t)); [|lia]. apply wait_to_left.
Qed.

(** The two questions and the next task. *)
Lemma throttler_add_task_full t :
  Throttler_nearly_full t = negb (Throttler_get_inflight_count (Throttler_add_task t) <=? th_thresholds t)
  /\ (Throttler_is_full t = true <-> Throttler_nearly_full t = true).
Proof.
  unfold Throttler_nearly_full, Throttler_is_full, Throttler_get_inflight_count; simpl. split.
  - by rewrite Z.leb_antisym, negb_involutive.
  - rewrite Z.leb_le, Z.ltb_lt. lia.
Qed.
