(* ===== verification/ClientStream.v ===== *)
(** * stream/src/client: one client connection

    [ClientStream] with its inner state: sending tasks and pings, the
    receiver, the cleanup when the connection dies.  The transport is the
    [ClientTransport] trait; [TcpClient] implements it below.  The receiver runs
    in steps ([stream_op]) or as one poll with the ticks that are due; Deadline.v
    ties the ticks to the clock.

    The in-flight count of the throttler is the number of guards held by
    registered items, that is the number of live tasks of the timer.  One poll
    of an async function is modelled; a poll that has to wait gives [Waiting]. *)

From S2P Require Import Prelude RustStd Errors Task ClientTaskMacro Config Buffer Proto BufIO.
From S2P Require Import Sock Timer TimerLive TcpClient.
From S2P Require Import Throttler.

(** ** The transport interface *)

Class ClientTransport (C K P : Type) := {
  tr_close_conn : P -> run unit * P;
  tr_flush_req : runM P io_error unit;
  tr_write_req : bytes -> option bytes -> bool -> runM P io_error unit;
  tr_read_resp : C -> option (poll unit) -> P -> ClientTaskTimer K ->
                 run (result bool RpcIntErr) * P * ClientTaskTimer K * list (task_event K);
}.

(** What the stream relies on: a read that finishes has completed exactly the
    tasks it took out of the timer. *)
Class ClientTransportLaws (C K P : Type) `{ClientTaskLaws C K} `{!ClientTransport C K P} := {
  tr_read_conserved c close p t r p' t' evs :
    timer_inv t -> tr_read_resp c close p t = (Done r, p', t', evs) ->
    timer_inv t' /\ (forall hi n, regs_below hi n t -> regs_below hi n t')
    /\ announced t' = announced t /\ ages t t'
    /\ exists xs, Forall2 (finishes c) xs evs /\ live_tasks t ≡ₚ xs ++ live_tasks t';
}.

(** [TcpClient] as a transport. *)
Section tcp_transport.
Context {T C K : Type} `{AsyncRead T, AsyncWrite T} `{ClientTask C K} (B : Type) `{IoBuffer B}.
Variables (shutdown_write : T -> T) (fuel : nat).

Definition Tcp_ClientTransport : ClientTransport C K (TcpClient T) := {|
  tr_close_conn := TcpClient_close_conn shutdown_write fuel;
  tr_flush_req := TcpClient_flush_req fuel;
  tr_write_req := TcpClient_write_req fuel;
  tr_read_resp c close p t :=
    let '(r, s) := TcpClient_read_resp B fuel c close (mkClientSide p t []) in
    (r, cs_conn s, cs_timer s, cs_events s);
|}.
End tcp_transport.

Lemma Tcp_ClientTransportLaws {T C K} `{AsyncRead T, AsyncWrite T} `{ClientTaskLaws C K}
    (B : Type) `{IoBuffer B} shutdown_write fuel :
  @ClientTransportLaws C K (TcpClient T) _ _ (Tcp_ClientTransport B shutdown_write fuel).
Proof.
  split. intros c close p t r p' t' evs Hi. cbn [tr_read_resp Tcp_ClientTransport].
  destruct (TcpClient_read_resp B fuel c close _) as [q s] eqn:E. intros [= -> <- <- <-].
  apply read_resp_conserved in E. destruct (E Hi) as (? & ? & ? & ? & xs & evs' & He & Hf & Hp).
  simpl in He. subst evs'. eauto 8.
Qed.

(** ** State *)

Record ClientStreamInner (K P : Type) := mkInner {
  ci_client_id : Z;
  ci_conn : P;
  ci_seq : Z;                     (* AtomicU64 *)
  ci_close_tx : bool;             (* the sender half of the close channel is held *)
  ci_close_sent : bool;           (* a message was sent through it *)
  ci_closed : bool;
  ci_timer : ClientTaskTimer K;
  ci_has_err : bool;
  ci_thresholds : Z;
  ci_last_resp_ts : option Z;
  ci_encode_buf : bytes;
  ci_events : list (task_event K);
}.
Arguments mkInner {K P}.
Arguments ci_client_id {K P}.
Arguments ci_conn {K P}.
Arguments ci_seq {K P}.
Arguments ci_close_tx {K P}.
Arguments ci_close_sent {K P}.
Arguments ci_closed {K P}.
Arguments ci_timer {K P}.
Arguments ci_has_err {K P}.
Arguments ci_thresholds {K P}.
Arguments ci_last_resp_ts {K P}.
Arguments ci_encode_buf {K P}.
Arguments ci_events {K P}.

Section fields.
Context {K P : Type}.
Implicit Types s : ClientStreamInner K P.

Definition set_conn (p : P) s := mkInner (ci_client_id s) p (ci_seq s) (ci_close_tx s)
  (ci_close_sent s) (ci_closed s) (ci_timer s) (ci_has_err s) (ci_thresholds s)
  (ci_last_resp_ts s) (ci_encode_buf s) (ci_events s).
Definition set_seq (q : Z) s := mkInner (ci_client_id s) (ci_conn s) q (ci_close_tx s)
  (ci_close_sent s) (ci_closed s) (ci_timer s) (ci_has_err s) (ci_thresholds s)
  (ci_last_resp_ts s) (ci_encode_buf s) (ci_events s).
Definition set_close_tx (b : bool) s := mkInner (ci_client_id s) (ci_conn s) (ci_seq s) b
  (ci_close_sent s) (ci_closed s) (ci_timer s) (ci_has_err s) (ci_thresholds s)
  (ci_last_resp_ts s) (ci_encode_buf s) (ci_events s).
Definition set_close_sent (b : bool) s := mkInner (ci_client_id s) (ci_conn s) (ci_seq s)
  (ci_close_tx s) b (ci_closed s) (ci_timer s) (ci_has_err s) (ci_thresholds s)
  (ci_last_resp_ts s) (ci_encode_buf s) (ci_events s).
Definition set_closed s := mkInner (ci_client_id s) (ci_conn s) (ci_seq s)
  (ci_close_tx s) (ci_close_sent s) true (ci_timer s) (ci_has_err s) (ci_thresholds s)
  (ci_last_resp_ts s) (ci_encode_buf s) (ci_events s).
Definition set_timer (t : ClientTaskTimer K) s := mkInner (ci_client_id s) (ci_conn s) (ci_seq s)
  (ci_close_tx s) (ci_close_sent s) (ci_closed s) t (ci_has_err s) (ci_thresholds s)
  (ci_last_resp_ts s) (ci_encode_buf s) (ci_events s).
Definition set_has_err s := mkInner (ci_client_id s) (ci_conn s) (ci_seq s)
  (ci_close_tx s) (ci_close_sent s) (ci_closed s) (ci_timer s) true (ci_thresholds s)
  (ci_last_resp_ts s) (ci_encode_buf s) (ci_events s).
Definition set_last_resp_ts (ts : option Z) s := mkInner (ci_client_id s) (ci_conn s) (ci_seq s)
  (ci_close_tx s) (ci_close_sent s) (ci_closed s) (ci_timer s) (ci_has_err s) (ci_thresholds s)
  ts (ci_encode_buf s) (ci_events s).
Definition set_encode_buf (b : bytes) s := mkInner (ci_client_id s) (ci_conn s) (ci_seq s)
  (ci_close_tx s) (ci_close_sent s) (ci_closed s) (ci_timer s) (ci_has_err s) (ci_thresholds s)
  (ci_last_resp_ts s) b (ci_events s).
Definition add_events (evs : list (task_event K)) s := mkInner (ci_client_id s) (ci_conn s)
  (ci_seq s) (ci_close_tx s) (ci_close_sent s) (ci_closed s) (ci_timer s) (ci_has_err s)
  (ci_thresholds s) (ci_last_resp_ts s) (ci_encode_buf s) (ci_events s ++ evs).
Definition upd_timer (f : ClientTaskTimer K -> ClientTaskTimer K) s := set_timer (f (ci_timer s)) s.
End fields.

(** ** Operations *)

Section stream.
Context {C K P : Type} `{ClientTask C K} `{!ClientTransport C K P}.
Variables (codec : C) (stale : nat -> byte) (wait_to : Z -> Z -> poll bool).
Let S := ClientStreamInner K P.

Definition Inner_new (conn : P) (client_id : Z) (config : ClientConfig)
    (last_resp_ts : option Z) : S :=
  let thresholds := if (cc_thresholds config =? 0)%Z then 128%Z else cc_thresholds config in
  mkInner client_id conn 1 true false false
    (ClientTaskTimer_new (Z.to_nat (cc_task_timeout config))) false thresholds last_resp_ts [] [].

(** [ClientStream::connect], from the transport's result. *)
Definition ClientStream_connect (connected : result P RpcIntErr) (client_id : Z)
    (config : ClientConfig) (last_resp_ts : option Z) : result S RpcIntErr :=
  match connected with
  | Err e => Err e
  | Ok conn => Ok (Inner_new conn client_id config last_resp_ts)
  end.

(** The throttler: every task in the timer holds a guard. *)
Definition throttler (s : S) : Throttler := mkThrottler (zlen (live_tasks (ci_timer s))) (ci_thresholds s).

Definition get_inflight_count (s : S) : Z := Throttler_get_inflight_count (throttler s).
Definition will_block (s : S) : bool := Throttler_nearly_full (throttler s).

Definition get_last_resp_ts (s : S) : Z := default 0%Z (ci_last_resp_ts s).
Definition is_closed (s : S) : bool := ci_closed s.

(** [seq_update]: the old value, the counter wraps. *)
Definition seq_update {E} : runM S E Z :=
  fun s => (Done (Ok (ci_seq s)), set_seq (as_u64 (ci_seq s + 1)) s).

(** An operation of the transport. *)
Definition on_conn {E A} (m : runM P E A) : runM S E A :=
  fun s => let '(r, p) := m (ci_conn s) in (r, set_conn p s).

(** [m], with what is done on an I/O error before [RpcIntErr::IO] is returned. *)
Definition or_fail {A} (m : runM S io_error A) (on_err : S -> S) : runM S RpcIntErr A :=
  fun s =>
    match m s with
    | (Done (Ok a), s) => (Done (Ok a), s)
    | (Done (Err _), s) => (Done (Err IO), on_err s)
    | (Waiting, s) => (Waiting, s)
    | (Panicked, s) => (Panicked, s)
    end.

Definition Inner_flush_req : runM S RpcIntErr unit :=
  or_fail (on_conn tr_flush_req)
    (fun s => upd_timer stop_reg_task (set_has_err (set_closed s))).

(** [reg_task] waits while the bounded channel is full. *)
Definition Inner_reg_task (task : K) : runM S RpcIntErr unit :=
  fun s =>
    if (pending_capacity (ci_thresholds s) <=? zlen (tm_pending (ci_timer s)))%Z
    then (Waiting, s)
    else (Done (Ok ()), upd_timer (reg_task task) s).

Definition send_request (task : K) (need_flush : bool) : runM S RpcIntErr unit :=
  let* seq := seq_update in
  let task := task_set_seq task seq in
  fun s =>
    match ReqHead_encode stale codec (ci_encode_buf s) (ci_client_id s) task with
    | None => (Panicked, s)
    | Some (Err _, buf) => (Done (Err Encode), set_encode_buf buf s)
    | Some (Ok blob_buf, buf) =>
        (let* _ :=
           or_fail (on_conn (tr_write_req buf blob_buf need_flush))
             (fun s => add_events [EvErrorHandle (set_rpc_error task IO)]
                         (upd_timer (fun t => stop_reg_task (count_sub t))
                            (set_has_err (set_closed s)))) in
         Inner_reg_task task) (set_encode_buf buf s)
    end.

Definition Inner_send_task (task : K) (need_flush : bool) : runM S RpcIntErr unit :=
  fun s =>
    let need_flush := if will_block s then true else need_flush in
    let s := upd_timer count_add s in
    if ci_closed s then
      (Done (Err IO),
       upd_timer count_sub (add_events [EvErrorHandle (set_rpc_error task IO)] s))
    else
      match send_request task need_flush s with
      | (Done (Err _), s) => (Done (Err IO), set_has_err (set_closed s))
      | (Done (Ok _), s) =>
          match Throttler_throttle wait_to (throttler s) with
          | Ready _ => (Done (Ok ()), s)
          | Pending => (Waiting, s)
          end
      | (Waiting, s) => (Waiting, s)
      | (Panicked, s) => (Panicked, s)
      end.

Definition send_ping_req : runM S RpcIntErr unit :=
  fun s =>
    if ci_closed s then (Done (Err IO), s)
    else
      (let* seq := seq_update in
       fun s =>
         match ReqHead_encode_ping stale (ci_encode_buf s) (ci_client_id s) seq with
         | None => (Panicked, s)
         | Some buf =>
             or_fail (on_conn (tr_write_req buf None true)) set_closed (set_encode_buf buf s)
         end) s.

(** [set_error_and_exit] and [Drop for ClientStream] *)
Definition set_error_and_exit : S -> run unit * S :=
  fun s =>
    let s := set_has_err s in
    let '(r, p) := tr_close_conn (ci_conn s) in
    let s := set_conn p s in
    match r with
    | Done _ => (Done (), if ci_close_tx s then set_close_sent true s else s)
    | r => (r, s)
    end.

Definition ClientStream_drop (s : S) : S :=
  set_closed (upd_timer stop_reg_task (set_close_tx false s)).

(** The receiver half of the close channel: a message, or no sender left. *)
Definition close_rx_recv (s : S) : poll unit :=
  if ci_close_sent s || negb (ci_close_tx s) then Ready () else Pending.

(** [conn.read_resp] on the stream's timer and error handler. *)
Definition stream_read_resp (close_ch : option (poll unit)) : runM S RpcIntErr bool :=
  fun s =>
    let '(r, p, t, evs) := tr_read_resp codec close_ch (ci_conn s) (ci_timer s) in
    (r, add_events evs (set_timer t (set_conn p s))).

(** The body of the loop of [recv_one_resp]: [Ok] goes round again. *)
Definition recv_iter : runM S RpcIntErr unit :=
  fun s =>
    if ci_closed s then
      let '(empty, t) := check_pending_tasks_empty (ci_timer s) in
      let s := set_timer t s in
      if empty || ci_has_err s then (Done (Err IO), s)
      else
        match stream_read_resp None s with
        | (Done (Err _), s) => (Done (Err IO), set_closed s)
        | (Done (Ok _), s) => (Done (Ok ()), s)
        | (Waiting, s) => (Waiting, s)
        | (Panicked, s) => (Panicked, s)
        end
    else
      match stream_read_resp (Some (close_rx_recv s)) s with
      | (Done (Err _), s) => (Done (Err IO), s)
      | (Done (Ok r), s) => (Done (Ok ()), if negb r then set_closed s else s)
      | (Waiting, s) => (Waiting, s)
      | (Panicked, s) => (Panicked, s)
      end.

(** [recv_one_resp]: the loop ends only through an error. *)
Fixpoint recv_one_resp (fuel : nat) : runM S RpcIntErr unit :=
  fun s =>
    match fuel with
    | O => (Waiting, s)
    | Datatypes.S fuel =>
        match recv_iter s with
        | (Done (Ok _), s) => recv_one_resp fuel s
        | (Done (Err e), s) => (Done (Err e), s)
        | (Waiting, s) => (Waiting, s)
        | (Panicked, s) => (Panicked, s)
        end
    end.

(** [recv_some]: up to [n] (20) responses, stamping the time after each. *)
Fixpoint recv_some (now : Z) (fuel n : nat) : runM S RpcIntErr unit :=
  fun s =>
    match n with
    | O => (Done (Ok ()), s)
    | Datatypes.S n =>
        match recv_one_resp fuel s with
        | (Done (Err e), s) => (Done (Err e), s)
        | (Done (Ok _), s) =>
            recv_some now fuel n
              (match ci_last_resp_ts s with Some _ => set_last_resp_ts (Some now) s | None => s end)
        | (Waiting, s) => (Waiting, s)
        | (Panicked, s) => (Panicked, s)
        end
    end.

Definition time_reach (s : S) : S :=
  let '(evs, t) := adjust_task_queue (ci_timer s) in add_events evs (set_timer t s).

(** One poll of [ReceiverTimerFuture], with the number of ticks that are due. *)
Definition receiver_poll (now : Z) (fuel ticks : nat) : runM S RpcIntErr unit :=
  fun s =>
    let s := Nat.iter ticks time_reach s in
    if ci_has_err s then (Done (Err IO), s)
    else recv_some now fuel 20 (upd_timer (fun t => (poll_sent_task t).2) s).

Definition clean (s : S) : S :=
  let '(evs, t) := clean_pending_tasks (ci_timer s) in add_events evs (set_timer t s).

(** The loop at the end of [receive_loop]: clean until the counter is zero. *)
Fixpoint drain_loop (fuel : nat) (s : S) : option S :=
  if (0 <? tm_count (ci_timer s))%Z then
    match fuel with
    | O => None
    | Datatypes.S fuel => drain_loop fuel (clean s)
    end
  else Some s.

Definition receive_loop_exit (fuel : nat) (s : S) : option S :=
  drain_loop fuel (clean (set_closed s)).

(** [Drop for ClientStreamInner] *)
Definition Inner_drop (s : S) : S := clean s.
End stream.

(** ** Invariant and properties *)

Section props.
Context {C K P : Type} `{ClientTransportLaws C K P}.
Variables (codec : C) (stale : nat -> byte) (wait_to : Z -> Z -> poll bool).
Implicit Types s : ClientStreamInner K P.

(** The timer is well formed and every registered number is below the next one. *)
Definition stream_inv s : Prop :=
  timer_inv (ci_timer s) /\ regs_below (ci_seq s) (tm_count (ci_timer s)) (ci_timer s).

(** The counters do not wrap at the next send. *)
Definition has_room s : Prop :=
  (ci_seq s + 1 < 2 ^ 64)%Z /\ (tm_count (ci_timer s) + 1 < 2 ^ 64)%Z.

Lemma count_add_inv t :
  timer_inv t -> (tm_count t + 1 < 2 ^ 64)%Z ->
  timer_inv (count_add t) /\ tm_count (count_add t) = (tm_count t + 1)%Z
  /\ count_sub (count_add t) = t.
Proof.
  intros [Hg Ho Hp Hf Hb Hc Hl] Hr.
  assert (as_u64 (tm_count t + 1) = (tm_count t + 1)%Z) as Hw
    by (unfold as_u64, wrap; rewrite Z.mod_small; lia).
  split; [split; unfold count_add, put_count; simpl; rewrite ?Hw; try done; lia|].
  split; [done|]. destruct t; unfold count_sub, count_add, put_count in *; simpl in *.
  rewrite Hw. f_equal. unfold as_u64, wrap. rewrite Z.mod_small; lia.
Qed.

(** The four ways a [send_task] that finishes can end. *)
Definition sent_ok (x : K) s s' : Prop :=
  ci_events s' = ci_events s /\ live_tasks (ci_timer s') ≡ₚ x :: live_tasks (ci_timer s)
  /\ announced (ci_timer s') = announced (ci_timer s) /\ ci_closed s' = ci_closed s
  /\ tm_count (ci_timer s') = (tm_count (ci_timer s) + 1)%Z.

Definition send_failed (x : K) s s' : Prop :=
  ci_events s' = ci_events s ++ [EvErrorHandle (set_rpc_error x IO)]
  /\ live_tasks (ci_timer s') = live_tasks (ci_timer s)
  /\ announced (ci_timer s') = announced (ci_timer s) /\ ci_closed s' = true
  /\ tm_count (ci_timer s') = tm_count (ci_timer s).

Definition send_lost s s' : Prop :=
  ci_events s' = ci_events s /\ live_tasks (ci_timer s') = live_tasks (ci_timer s)
  /\ announced (ci_timer s') = (announced (ci_timer s) + 1)%Z /\ ci_closed s' = true.

Lemma stop_reg_inv t : timer_inv t -> timer_inv (stop_reg_task t).
Proof. by intros [Hg Ho Hp Hf Hb Hc Hl]. Qed.

Lemma stream_inv_seq s t hi :
  stream_inv s -> t = ci_timer s -> (ci_seq s <= hi)%Z -> regs_below hi (tm_count t) t.
Proof. intros [_ Hb] -> Hhi. by eapply regs_below_mono. Qed.

(** What [send_request] does, after the counter was raised. *)
Lemma send_request_ok task fl s r s' :
  stream_inv s -> has_room s ->
  send_request codec stale task fl (upd_timer count_add s) = (Done r, s') ->
  let x := task_set_seq task (ci_seq s) in
  ci_seq s' = (ci_seq s + 1)%Z /\
  match ReqHead_encode stale codec (ci_encode_buf s) (ci_client_id s) x with
  | Some (Ok _, _) =>
      r = Ok () /\ ci_timer s' = reg_task x (count_add (ci_timer s))
        /\ ci_events s' = ci_events s /\ ci_closed s' = ci_closed s
      \/ r = Err IO /\ ci_timer s' = stop_reg_task (ci_timer s)
        /\ ci_events s' = ci_events s ++ [EvErrorHandle (set_rpc_error x IO)]
  | Some (Err _, _) =>
      r = Err Encode /\ ci_timer s' = count_add (ci_timer s) /\ ci_events s' = ci_events s
  | None => False
  end.
Proof.
  intros [Hi Hb] [Hr1 Hr2] E x.
  assert (as_u64 (ci_seq s + 1) = (ci_seq s + 1)%Z) as Hw.
  { destruct Hb as [? _]. pose proof (ti_bounds _ Hi). unfold as_u64, wrap. rewrite Z.mod_small; lia. }
  destruct (count_add_inv _ Hi Hr2) as (_ & _ & Hcs).
  unfold send_request, run_bind in E. cbn -[ReqHead_encode as_u64] in E. fold x in E. rewrite Hw in E.
  destruct (ReqHead_encode stale codec (ci_encode_buf s) (ci_client_id s) x) as [[[blob|[]] buf]|];
    [|by injection E as <- <-|done].
  unfold or_fail, on_conn in E. cbn -[count_add count_sub] in E.
  destruct (tr_write_req buf blob fl (ci_conn s)) as [[[[]|e]| |] p]; try done.
  - unfold Inner_reg_task in E. cbn -[count_add] in E. destruct (_ <=? _)%Z; [done|].
    injection E as <- <-. split; [done|]. by left.
  - injection E as <- <-. split; [done|]. right. simpl. rewrite Hcs. done.
Qed.

Lemma send_task_ok task fl s r s' :
  stream_inv s -> has_room s -> Inner_send_task codec stale wait_to task fl s = (Done r, s') ->
  stream_inv s' /\
  if ci_closed s then r = Err IO /\ send_failed task s s'
  else
    match ReqHead_encode stale codec (ci_encode_buf s) (ci_client_id s)
            (task_set_seq task (ci_seq s)) with
    | Some (Ok _, _) =>
        r = Ok () /\ sent_ok (task_set_seq task (ci_seq s)) s s'
        \/ r = Err IO /\ send_failed (task_set_seq task (ci_seq s)) s s'
    | _ => r = Err IO /\ send_lost s s'
    end.
Proof.
  intros Hs Hroom. pose proof Hs as [Hi Hb]. pose proof Hroom as [Hr1 Hr2].
  destruct (count_add_inv _ Hi Hr2) as (Hia & Hca & Hcs).
  unfold Inner_send_task. set (fl' := if will_block s then true else fl). cbn [ci_closed upd_timer set_timer].
  destruct (ci_closed s) eqn:Ec.
  { intros [= <- <-]. unfold stream_inv, send_failed. cbn -[count_sub count_add]. rewrite Hcs. done. }
  destruct (send_request codec stale task fl' (upd_timer count_add s)) as [q s1] eqn:E.
  destruct q as [q| |]; [|done..]. apply send_request_ok in E as [Hq1 E]; [|done|done].
  set (x := task_set_seq task (ci_seq s)) in *.
  destruct (ReqHead_encode _ _ _ _ x) as [[[blob|[]] buf]|]; [| |done].
  - destruct E as [(-> & Ht & He & Hcl)|(-> & Ht & He)].
    + destruct (Throttler_throttle _ _); [|done]. intros [= <- <-].
      destruct (reg_task_ok (ci_timer s) x) as [Hi1 Hl1]; [done|done|..].
      { unfold x. rewrite task_seq_set. apply Hb. }
      { unfold x. rewrite task_seq_set. apply Hb. }
      split; [split; [by rewrite Ht|]|].
      * rewrite Ht, Hq1. destruct Hb as (Hb1 & Hb2 & _). split_and!; simpl; [lia| |lia].
        apply Forall_app. split; [|repeat constructor; unfold x; rewrite task_seq_set; lia].
        eapply Forall_impl; [|exact Hb2]. simpl. lia.
      * left. split; [done|]. unfold sent_ok. rewrite Ht, Hl1. split; [done|]. split; [done|].
        split; [|split; [congruence|done]]. unfold announced. cbn [reg_task tm_count tm_pending count_add put_count].
        change (as_u64 (tm_count (ci_timer s) + 1)) with (tm_count (count_add (ci_timer s))).
        rewrite Hca, zlen_app. change (zlen [x]) with 1%Z. lia.
    + intros [= <- <-]. unfold stream_inv, send_failed. cbn. rewrite Ht, Hq1, He.
      split; [split; [by apply stop_reg_inv|]|by right].
      eapply (stream_inv_seq s (ci_timer s)); [done|done|lia].
  - destruct E as (-> & Ht & He). intros [= <- <-]. unfold stream_inv, send_lost. cbn -[count_add].
    rewrite Ht, Hq1, He. split; [split; [done|]|].
    + destruct Hb as (Hb1 & Hb2 & _). split_and!; simpl; [lia| |simpl in Hca; lia].
      eapply Forall_impl; [|exact Hb2]. simpl. lia.
    + split; [done|]. split; [done|]. split; [done|]. split; [|done].
      unfold announced. rewrite Hca. cbn. lia.
Qed.

Lemma send_task_ages task fl s r s' :
  stream_inv s -> has_room s -> Inner_send_task codec stale wait_to task fl s = (Done r, s') ->
  ages (ci_timer s) (ci_timer s').
Proof.
  intros Hs Hroom. unfold Inner_send_task. cbn [ci_closed upd_timer set_timer].
  destruct (ci_closed s); [by intros [= _ <-]; apply ages_same|].
  destruct (send_request codec stale task _ _) as [q s1] eqn:E.
  assert (forall q0, q = Done q0 -> ages (ci_timer s) (ci_timer s1)) as Hag.
  { intros q0 ->. apply send_request_ok in E as [_ E]; [|done..].
    destruct (ReqHead_encode _ _ _ _ _) as [[[blob|[]] buf]|]; [|by destruct E as (_ & -> & _); apply ages_same|done].
    destruct E as [(_ & -> & _)|(_ & -> & _)]; by apply ages_same. }
  destruct q as [[u|e]| |]; [|by intros [= _ <-]; eapply Hag|done..].
  destruct (Throttler_throttle _ _); [|done]. intros [= _ <-]. by eapply Hag.
Qed.

(** *** Bags of tasks *)

(** The tasks [l] are accounted for: each was finished, or waits. *)
Definition accounts (l : list K) s : Prop :=
  exists xs, Forall2 (finishes codec) xs (ci_events s) /\ l ≡ₚ xs ++ live_tasks (ci_timer s).

(** From [s] to [s'], with the tasks [l] sent on the way, no task was lost and
    none was invented. *)
Definition conserves (l : list K) s s' : Prop :=
  exists xs evs, ci_events s' = ci_events s ++ evs /\ Forall2 (finishes codec) xs evs
    /\ l ++ live_tasks (ci_timer s) ≡ₚ xs ++ live_tasks (ci_timer s').

Lemma conserves_refl s s' :
  ci_events s' = ci_events s -> live_tasks (ci_timer s') ≡ₚ live_tasks (ci_timer s) -> conserves [] s s'.
Proof. intros He Hl. exists [], []. rewrite app_nil_r, Hl. by repeat constructor. Qed.

Lemma conserves_trans l1 l2 s1 s2 s3 :
  conserves l1 s1 s2 -> conserves l2 s2 s3 -> conserves (l1 ++ l2) s1 s3.
Proof.
  intros (xs1 & evs1 & He1 & Hf1 & Hp1) (xs2 & evs2 & He2 & Hf2 & Hp2).
  exists (xs1 ++ xs2), (evs1 ++ evs2). rewrite He2, He1, app_assoc. split; [done|].
  split; [by apply Forall2_app|]. rewrite <- !app_assoc, <- Hp2.
  rewrite (app_assoc xs1), (Permutation_app_comm xs1 l2), <- app_assoc, <- Hp1. solve_Permutation.
Qed.

Lemma accounts_step l0 l s s' : accounts l0 s -> conserves l s s' -> accounts (l ++ l0) s'.
Proof.
  intros (xs & Hxs & Hp) (ys & evs & He & Hys & Hq). exists (xs ++ ys). rewrite He.
  split; [by apply Forall2_app|]. rewrite Hp, <- app_assoc, <- Hq. solve_Permutation.
Qed.

Lemma conserves_accounts l s s' : conserves [] s s' -> accounts l s -> accounts l s'.
Proof. intros Hc Hl. exact (accounts_step _ _ _ _ Hl Hc). Qed.

(** A step that neither loses nor invents a task. *)
Definition preserves s s' : Prop :=
  stream_inv s' /\ conserves [] s s'
  /\ announced (ci_timer s') = announced (ci_timer s)
  /\ ci_seq s' = ci_seq s /\ (tm_count (ci_timer s') <= tm_count (ci_timer s))%Z
  /\ ci_thresholds s' = ci_thresholds s /\ ages (ci_timer s) (ci_timer s').

Lemma preserves_refl s : stream_inv s -> preserves s s.
Proof. intros Hs. split; [done|]. split_and!; try done. by apply conserves_refl. Qed.

Lemma preserves_trans s1 s2 s3 : preserves s1 s2 -> preserves s2 s3 -> preserves s1 s3.
Proof.
  intros (_ & Ha1 & Ha2 & Ha3 & Ha4 & Ha5 & Ha6) (Hi & Hb1 & Hb2 & Hb3 & Hb4 & Hb5 & Hb6). split; [done|].
  split; [exact (conserves_trans [] [] _ _ _ Ha1 Hb1)|].
  split; [congruence|]. split; [congruence|]. split; [lia|]. split; [congruence|by etrans].
Qed.

(** The form in which timer operations establish it. *)
Lemma preserves_timer s t xs evs :
  stream_inv s -> timer_inv t ->
  (forall hi n, regs_below hi n (ci_timer s) -> regs_below hi n t) ->
  announced t = announced (ci_timer s) -> ages (ci_timer s) t ->
  Forall2 (finishes codec) xs evs -> live_tasks (ci_timer s) ≡ₚ xs ++ live_tasks t ->
  forall s', ci_timer s' = t -> ci_events s' = ci_events s ++ evs -> ci_seq s' = ci_seq s ->
  ci_thresholds s' = ci_thresholds s -> preserves s s'.
Proof.
  intros [Hi Hb] Hit Hreg Han Hag Hf Hl s' <- He Hq Hth.
  pose proof (Hreg _ _ Hb) as (Hr1 & Hr2 & Hr3).
  split; [split; [done|]|].
  - rewrite Hq. split_and!; [done|done|lia].
  - split_and!; try done. by exists xs, evs.
Qed.

Lemma regs_below_same hi n (t t' : ClientTaskTimer K) :
  tm_processed_seq t' = tm_processed_seq t -> tm_pending t' = tm_pending t ->
  tm_count t' = tm_count t -> regs_below hi n t -> regs_below hi n t'.
Proof. unfold regs_below. by intros -> -> ->. Qed.

Lemma clean_preserves s :
  stream_inv s -> preserves s (clean s) /\ live_tasks (ci_timer (clean s)) = []
    /\ tm_pending (ci_timer (clean s)) = [].
Proof.
  intros Hs. pose proof Hs as [Hi _]. unfold clean.
  destruct (clean_pending_tasks (ci_timer s)) as [evs t] eqn:E.
  pose proof (ages_clean _ _ _ Hi E) as Hag.
  assert (tm_pending t = [] /\ announced t = announced (ci_timer s)
    /\ forall hi n, regs_below hi n (ci_timer s) -> regs_below hi n t) as (Hp & Han & Hreg).
  { pose proof (drain_announced (ci_timer s) Hi) as Hd.
    destruct (drain_pending_ok (ci_timer s) Hi) as (_ & _ & Hp & _).
    unfold clean_pending_tasks in E. injection E as _ <-. split; [done|]. split; [done|].
    intros hi n Hb. by apply (regs_below_drain hi n) in Hb. }
  apply clean_pending_tasks_ok in E as (Hit & Hl & He); [|done].
  split; [|done]. pose proof (fail_all_finishes codec IO (live_tasks (ci_timer s))) as Hf.
  apply Forall2_flip in Hf. destruct (Permutation_Forall2 (symmetry He) Hf) as (xs & Hxs & Hfx).
  apply Forall2_flip in Hfx.
  eapply (preserves_timer s t xs evs); try done. by rewrite Hl, app_nil_r, Hxs.
Qed.

Lemma time_reach_preserves s : stream_inv s -> preserves s (time_reach s).
Proof.
  intros Hs. pose proof Hs as [Hi _]. unfold time_reach.
  destruct (adjust_task_queue (ci_timer s)) as [evs t] eqn:E.
  pose proof (adjust_gens (ci_timer s) Hi) as Ha. rewrite E in Ha.
  destruct Ha as (_ & _ & Hp & Hc & _ & Hq & _). pose proof (ages_tick _ _ _ Hi E) as Hag.
  apply adjust_task_queue_ok in E as (Hit & -> & Hl); [|done].
  eapply (preserves_timer s t (map_tasks (expiring (ci_timer s)))); try done.
  - intros hi n. by apply regs_below_same.
  - unfold announced. by rewrite Hp, Hc.
  - apply fail_all_finishes.
Qed.

Lemma poll_sent_preserves s :
  stream_inv s -> preserves s (upd_timer (fun t => (poll_sent_task t).2) s).
Proof.
  intros Hs. pose proof Hs as [Hi _].
  destruct (drain_pending_ok (ci_timer s) Hi) as (Hit & Hl & _).
  eapply (preserves_timer s (drain_pending (ci_timer s)) [] []); try done.
  - intros hi n Hb. by apply regs_below_drain.
  - by apply drain_announced.
  - by apply ages_drain.
  - by rewrite app_nil_r.
Qed.

Lemma check_empty_preserves s b t :
  stream_inv s -> check_pending_tasks_empty (ci_timer s) = (b, t) -> preserves s (set_timer t s).
Proof. intros Hs [= _ <-]. by apply poll_sent_preserves. Qed.

Lemma stream_read_preserves close s r s' :
  stream_inv s -> stream_read_resp codec close s = (Done r, s') -> preserves s s'.
Proof.
  intros Hs. pose proof Hs as [Hi _]. unfold stream_read_resp.
  destruct (tr_read_resp codec close (ci_conn s) (ci_timer s)) as [[[q p] t] evs] eqn:E.
  intros [= -> <-]. apply tr_read_conserved in E as (Hit & Hreg & Han & Hag & xs & Hf & Hl); [|done].
  by eapply (preserves_timer s t xs evs).
Qed.

Lemma set_closed_preserves s s' : preserves s s' -> preserves s (set_closed s').
Proof. done. Qed.

Lemma recv_iter_preserves s r s' :
  stream_inv s -> recv_iter codec s = (Done r, s') -> preserves s s'.
Proof.
  intros Hs. unfold recv_iter. destruct (ci_closed s).
  - destruct (check_pending_tasks_empty (ci_timer s)) as [b t] eqn:Ec.
    apply check_empty_preserves in Ec as Hp; [|done].
    destruct (b || ci_has_err (set_timer t s)); [by intros [= _ <-]|].
    destruct (stream_read_resp codec None (set_timer t s)) as [[[b1|e]| |] s1] eqn:E1; try done;
      apply stream_read_preserves in E1; try apply Hp;
      pose proof (preserves_trans _ _ _ Hp E1) as Hs1; by intros [= _ <-].
  - destruct (stream_read_resp codec _ s) as [[[b1|e]| |] s1] eqn:E1; try done;
      apply stream_read_preserves in E1; try done; intros [= _ <-]; [by destruct (negb b1)|done].
Qed.

Lemma recv_one_resp_preserves fuel s r s' :
  stream_inv s -> recv_one_resp codec fuel s = (Done r, s') -> preserves s s'.
Proof.
  revert s. induction fuel as [|fuel IH]; intros s Hs; [done|]. cbn [recv_one_resp].
  destruct (recv_iter codec s) as [[[u|e]| |] s1] eqn:E1; try done; apply recv_iter_preserves in E1; try done.
  - intros E2. eapply preserves_trans; [exact E1|]. apply IH; [apply E1|done].
  - by intros [= _ <-].
Qed.

(** [recv_one_resp] never returns [Ok]. *)
Lemma recv_one_resp_not_ok fuel s u s' : recv_one_resp codec fuel s <> (Done (Ok u), s').
Proof.
  revert s. induction fuel as [|fuel IH]; intros s; [done|]. cbn [recv_one_resp].
  by destruct (recv_iter codec s) as [[[b1|e]| |] s1].
Qed.

Lemma stream_read_resp_ts close s r s' :
  stream_read_resp codec close s = (r, s') -> ci_last_resp_ts s' = ci_last_resp_ts s.
Proof.
  unfold stream_read_resp. destruct (tr_read_resp codec close (ci_conn s) (ci_timer s)) as [[[q1 p] t] evs].
  by intros [= _ <-].
Qed.

Lemma recv_iter_ts s r s' : recv_iter codec s = (r, s') -> ci_last_resp_ts s' = ci_last_resp_ts s.
Proof.
  unfold recv_iter. destruct (ci_closed s).
  - destruct (check_pending_tasks_empty (ci_timer s)) as [b t].
    destruct (_ || _); [by intros [= _ <-]|].
    destruct (stream_read_resp codec None (set_timer t s)) as [q s1] eqn:E1.
    apply stream_read_resp_ts in E1. by destruct q as [[b1|e]| |]; intros [= _ <-].
  - destruct (stream_read_resp codec _ s) as [q s1] eqn:E1. apply stream_read_resp_ts in E1.
    destruct q as [[b1|e]| |]; try (by intros [= _ <-]). by destruct (negb b1); intros [= _ <-].
Qed.

Lemma recv_one_resp_ts fuel s r s' :
  recv_one_resp codec fuel s = (r, s') -> ci_last_resp_ts s' = ci_last_resp_ts s.
Proof.
  revert s. induction fuel as [|fuel IH]; intros s; [by intros [= _ <-]|]. cbn [recv_one_resp].
  destruct (recv_iter codec s) as [q s1] eqn:E1. apply recv_iter_ts in E1.
  destruct q as [[b1|e]| |]; try (by intros [= _ <-]). intros E. apply IH in E. congruence.
Qed.

Lemma receiver_poll_preserves now fuel ticks s r s' :
  stream_inv s -> receiver_poll codec now fuel ticks s = (Done r, s') -> preserves s s'.
Proof.
  intros Hs. unfold receiver_poll. set (s1 := Nat.iter ticks time_reach s).
  assert (preserves s s1) as Hs1.
  { subst s1. induction ticks as [|n IH]; [by apply preserves_refl|].
    eapply preserves_trans; [exact IH|]. apply time_reach_preserves, IH. }
  destruct (ci_has_err s1); [by intros [= _ <-]|].
  pose proof (poll_sent_preserves s1 (proj1 Hs1)) as Hs2.
  pose proof (preserves_trans _ _ _ Hs1 Hs2) as Hs3.
  set (s2 := upd_timer _ s1) in *. cbn [recv_some].
  destruct (recv_one_resp codec fuel s2) as [[[u|e]| |] s3] eqn:E; try done.
  - by apply recv_one_resp_not_ok in E.
  - intros [= _ <-]. eapply preserves_trans; [exact Hs3|].
    apply recv_one_resp_preserves in E; [done|apply Hs3].
Qed.

(** *** The end of the receiver *)

Lemma drain_loop_stuck fuel s :
  stream_inv s -> tm_pending (ci_timer s) = [] -> (0 < announced (ci_timer s))%Z ->
  drain_loop fuel s = None.
Proof.
  revert s. induction fuel as [|fuel IH]; intros s Hs Hp Ha; cbn [drain_loop];
    (destruct (Z.ltb_spec 0 (tm_count (ci_timer s)));
     [|unfold announced in Ha; rewrite Hp in Ha; change (zlen []) with 0%Z in Ha; lia]); [done|].
  destruct (clean_preserves s Hs) as ((Hs' & _ & Han & _) & _ & Hp').
  apply IH; [done|done|]. by rewrite Han.
Qed.

Lemma receive_loop_exit_ok fuel s :
  stream_inv s -> announced (ci_timer s) = 0%Z ->
  exists s', receive_loop_exit fuel s = Some s' /\ preserves s s'
    /\ live_tasks (ci_timer s') = [] /\ ci_closed s' = true.
Proof.
  intros Hs Ha. unfold receive_loop_exit.
  destruct (clean_preserves (set_closed s) Hs) as (Hp & Hl & Hnil).
  set (s1 := clean (set_closed s)) in *. exists s1.
  assert (tm_count (ci_timer s1) = 0%Z) as Hc.
  { destruct Hp as (_ & _ & Han & _). unfold announced in *. rewrite Hnil in Han.
    change (zlen []) with 0%Z in Han. cbn [ci_timer set_closed] in Han. lia. }
  assert (drain_loop fuel s1 = Some s1) as -> by (destruct fuel; cbn [drain_loop]; by rewrite Hc).
  split; [done|]. split; [done|]. split; [done|].
  unfold s1, clean. by destruct (clean_pending_tasks _).
Qed.

(** *** Runs of a connection *)

(** What the two sides of a connection do, with the tasks sent as they are
    numbered; a wait or a panic ends the run. *)
Inductive stream_op :=
| SSend (task : K) (need_flush : bool)
| SPing
| SFlush
| SReceive (now : Z) (fuel ticks : nat)  (* a poll of the receiver that ends it *)
| STick                                  (* a second has passed *)
| SPoll                                  (* the receiver looks for new tasks *)
| SResponse (fuel : nat)                 (* and goes once round its loop *)
| SDrop.

Definition stream_step (o : stream_op) s : option (list K * ClientStreamInner K P) :=
  match o with
  | SSend task fl =>
      match Inner_send_task codec stale wait_to task fl s with
      | (Done _, s') => Some ([if ci_closed s then task else task_set_seq task (ci_seq s)], s')
      | _ => None
      end
  | SPing => match send_ping_req stale s with (Done _, s') => Some ([], s') | _ => None end
  | SFlush => match Inner_flush_req s with (Done _, s') => Some ([], s') | _ => None end
  | SReceive now fuel ticks =>
      match receiver_poll codec now fuel ticks s with
      | (Done _, s') => Some ([], s')
      | _ => None
      end
  | STick => Some ([], time_reach s)
  | SPoll => Some ([], upd_timer (fun t => (poll_sent_task t).2) s)
  | SResponse fuel =>
      match recv_iter codec s with
      | (Done (Ok _), s') => Some ([], s')
      | (Done (Err _), s') =>
          match receive_loop_exit fuel s' with None => None | Some s' => Some ([], s') end
      | _ => None
      end
  | SDrop => Some ([], ClientStream_drop s)
  end.

Fixpoint stream_run (ops : list stream_op) s : option (list K * ClientStreamInner K P) :=
  match ops with
  | [] => Some ([], s)
  | o :: ops =>
      match stream_step o s with
      | None => None
      | Some (l, s) =>
          match stream_run ops s with
          | None => None
          | Some (l', s) => Some (l ++ l', s)
          end
      end
  end.

(** Every request of the run can be encoded, whatever its number. *)
Definition encodable (task : K) : Prop :=
  forall buf cid seq, exists blob buf',
    ReqHead_encode stale codec buf cid (task_set_seq task seq) = Some (Ok blob, buf').

Definition op_ok (o : stream_op) : Prop :=
  match o with SSend task _ => encodable task | _ => True end.

(** One operation: the invariant, the counters' growth and the accounts. *)
Definition step_ok (l : list K) s s' : Prop :=
  stream_inv s' /\ (ci_seq s' <= ci_seq s + 1)%Z /\ announced (ci_timer s') = 0%Z
  /\ (tm_count (ci_timer s') <= tm_count (ci_timer s) + 1)%Z
  /\ conserves l s s' /\ ages (ci_timer s) (ci_timer s').

(** Operations that leave the timer's tasks and the events alone. *)
Lemma step_ok_quiet s s' :
  stream_inv s -> announced (ci_timer s) = 0%Z ->
  (ci_timer s' = ci_timer s \/ ci_timer s' = stop_reg_task (ci_timer s)) ->
  ci_events s' = ci_events s -> (ci_seq s <= ci_seq s' <= ci_seq s + 1)%Z -> step_ok [] s s'.
Proof.
  intros Hs Ha Ht He Hq. pose proof Hs as [Hi Hb]. unfold step_ok, stream_inv.
  assert (regs_below (ci_seq s') (tm_count (ci_timer s)) (ci_timer s))
    by (eapply stream_inv_seq; [done|done|lia]).
  assert (conserves [] s s') as Hcv by (apply conserves_refl; [done|by destruct Ht as [-> | ->]]).
  destruct Ht as [-> | ->].
  - split_and!; try done; lia.
  - split; [split; [by apply stop_reg_inv|done]|]. split; [lia|]. split; [done|].
    split; [simpl; lia|]. split; [done|by apply ages_same].
Qed.

Lemma preserves_step s s' : announced (ci_timer s) = 0%Z -> preserves s s' -> step_ok [] s s'.
Proof.
  intros Ha (Hs & Hb & Han & Hq & Hc & _ & Hag). split_and!; [done|lia|congruence|lia|done|done].
Qed.

Lemma send_step_ok task fl s r s' :
  stream_inv s -> has_room s -> encodable task -> announced (ci_timer s) = 0%Z ->
  Inner_send_task codec stale wait_to task fl s = (Done r, s') ->
  step_ok [if ci_closed s then task else task_set_seq task (ci_seq s)] s s'.
Proof.
  intros Hs Hroom Hop Ha E. pose proof (send_task_ok _ _ _ _ _ Hs Hroom E) as [Hs1 Ho].
  split; [done|]. split.
  { unfold Inner_send_task in E. cbn [ci_closed upd_timer set_timer] in E.
    destruct (ci_closed s); [injection E as _ <-; simpl; lia|].
    destruct (send_request codec stale task _ _) as [[q| |] s2] eqn:E2; [|done..].
    apply send_request_ok in E2 as [Hq _]; [|done|done].
    destruct q as [[]|e]; [destruct (Throttler_throttle _ _); [|done]|];
      injection E as _ <-; simpl; lia. }
  pose proof (send_task_ages _ _ _ _ _ Hs Hroom E) as Hag.
  assert (forall x, send_failed x s s' -> announced (ci_timer s') = 0%Z
    /\ (tm_count (ci_timer s') <= tm_count (ci_timer s) + 1)%Z
    /\ conserves [x] s s' /\ ages (ci_timer s) (ci_timer s')) as Hfail.
  { intros x (He & Hl & Han & _ & Hc). split; [congruence|]. split; [lia|]. split; [|done].
    eexists [x], _. rewrite He, Hl. split; [done|]. by repeat constructor. }
  destruct (ci_closed s); [apply Hfail, Ho|].
  destruct (Hop (ci_encode_buf s) (ci_client_id s) (ci_seq s)) as (blob & buf' & Henc).
  rewrite Henc in Ho.
  destruct Ho as [(_ & He & Hl & Han & _ & Hc)|(_ & Hf)]; [|by apply Hfail].
  split; [congruence|]. split; [lia|]. split; [|done]. exists [], []. rewrite He, app_nil_r.
  split; [done|]. split; [constructor|]. by rewrite Hl.
Qed.

Lemma stream_step_ok o s l s' :
  stream_inv s -> has_room s -> op_ok o -> announced (ci_timer s) = 0%Z ->
  stream_step o s = Some (l, s') -> step_ok l s s'.
Proof.
  intros Hs Hroom Hop Ha. pose proof Hroom as [Hr1 _].
  destruct o as [task fl| | |now fuel ticks| | |fuel|]; cbn [stream_step op_ok] in *.
  - destruct (Inner_send_task codec stale wait_to task fl s) as [[r| |] s1] eqn:E; try done.
    intros [= <- <-]. by eapply send_step_ok.
  - unfold send_ping_req. destruct (ci_closed s).
    { intros [= <- <-]. apply step_ok_quiet; auto with lia. }
    cbn -[ReqHead_encode_ping as_u64 or_fail]. destruct (ReqHead_encode_ping _ _ _ _) as [buf|]; [|done].
    unfold or_fail, on_conn. cbn -[as_u64].
    assert (ci_seq s <= as_u64 (ci_seq s + 1) <= ci_seq s + 1)%Z.
    { destruct Hs as [Hi (Hb & _)]. pose proof (ti_bounds _ Hi). unfold as_u64, wrap.
      rewrite Z.mod_small; lia. }
    destruct (tr_write_req buf None true (ci_conn s)) as [[[[]|e]| |] p]; try done;
      intros [= <- <-]; apply step_ok_quiet; auto.
  - unfold Inner_flush_req, or_fail, on_conn.
    destruct (tr_flush_req (ci_conn s)) as [[[[]|e]| |] p]; try done;
      intros [= <- <-]; apply step_ok_quiet; simpl; auto with lia.
  - destruct (receiver_poll codec now fuel ticks s) as [[r| |] s1] eqn:E; try done.
    intros [= <- <-]. apply receiver_poll_preserves in E; [|done]. by apply preserves_step.
  - intros [= <- <-]. by apply preserves_step, time_reach_preserves.
  - intros [= <- <-]. by apply preserves_step, poll_sent_preserves.
  - destruct (recv_iter codec s) as [[[[]|e]| |] s1] eqn:E; try done;
      apply recv_iter_preserves in E as Hp; try done; [intros [= <- <-]; by apply preserves_step|].
    destruct (receive_loop_exit_ok fuel s1) as (s2 & -> & Hp2 & _); [apply Hp|by destruct Hp as (_ & _ & -> & _)|].
    intros [= <- <-]. apply preserves_step; [done|]. by eapply preserves_trans.
  - intros [= <- <-]. apply step_ok_quiet; simpl; auto with lia.
Qed.

Lemma stream_run_ok ops s l s' :
  stream_inv s -> announced (ci_timer s) = 0%Z -> Forall op_ok ops ->
  (ci_seq s + zlen ops < 2 ^ 64)%Z -> (tm_count (ci_timer s) + zlen ops < 2 ^ 64)%Z ->
  stream_run ops s = Some (l, s') ->
  stream_inv s' /\ announced (ci_timer s') = 0%Z
  /\ (ci_seq s' <= ci_seq s + zlen ops)%Z /\ (tm_count (ci_timer s') <= tm_count (ci_timer s) + zlen ops)%Z
  /\ conserves l s s' /\ ages (ci_timer s) (ci_timer s').
Proof.
  revert s l. induction ops as [|o ops IH]; intros s l Hs Ha Hop Hq Hc; cbn [stream_run].
  { intros [= <- <-]. unfold zlen. simpl. split_and!; [done|done|lia|lia|by apply conserves_refl|done]. }
  apply Forall_cons_1 in Hop as [Ho Hop]. unfold zlen in *. cbn [length] in *.
  destruct (stream_step o s) as [[l1 s1]|] eqn:E1; [|done].
  destruct (stream_run ops s1) as [[l2 s2]|] eqn:E2; [|done]. intros [= <- <-].
  apply stream_step_ok in E1 as (Hs1 & Hq1 & Ha1 & Hc1 & Hb1 & Hg1); [|done|split; lia|done|done].
  destruct (IH s1 l2 Hs1 Ha1 Hop) as (Hs2 & Ha2 & Hq2 & Hc2 & Hb2 & Hg2); [lia|lia|done|].
  split_and!; [done|done|lia|lia|by eapply conserves_trans|by etrans].
Qed.

Lemma Inner_new_inv conn cid config ts :
  stream_inv (Inner_new (K := K) (P := P) conn cid config ts)
  /\ announced (ci_timer (Inner_new (K := K) (P := P) conn cid config ts)) = 0%Z.
Proof.
  split; [|done]. split; [apply timer_inv_new|]. split_and!; simpl; [lia|constructor|lia].
Qed.
End props.
Arguments stream_op K : clear implicits.

Section claims.
Context {C K P : Type} `{ClientTransportLaws C K P}.
Variables (codec : C) (stale : nat -> byte) (wait_to : Z -> Z -> poll bool).

(** Along a run, and when the receiver has exited after it, the tasks sent are
    accounted for. *)
Lemma stream_accounts (conn : P) (cid : Z) (config : ClientConfig) (ts : option Z)
    (ops : list (stream_op K)) (sent : list K) (s : ClientStreamInner K P) (fuel : nat) :
  Forall (op_ok codec stale) ops -> (zlen ops < 2 ^ 63)%Z ->
  stream_run codec stale wait_to ops (Inner_new conn cid config ts) = Some (sent, s) ->
  accounts codec sent s
  /\ exists s', receive_loop_exit fuel s = Some s' /\ live_tasks (ci_timer s') = [] /\ accounts codec sent s'.
Proof.
  intros Hops Hlen Hrun. destruct (Inner_new_inv (K := K) conn cid config ts) as [Hs0 Ha0].
  apply stream_run_ok in Hrun as (Hs & Ha & _ & _ & Hb & _); [|done|done|done|simpl; lia|simpl; lia].
  assert (accounts codec sent s) as Hacc.
  { rewrite <- (app_nil_r sent). eapply accounts_step; [|exact Hb]. exists []. by split; [constructor|]. }
  split; [done|]. destruct (receive_loop_exit_ok codec fuel s Hs Ha) as (s' & E & (_ & Hbag & _) & Hl & _).
  exists s'. split_and!; [done|done|by eapply conserves_accounts].
Qed.


(** [send_task] on an open connection whose request cannot be encoded
    returns an error and closes the connection, but finishes nothing: the
    task's owner is never told, and the registration it announced is never
    taken back, so when the receiver exits its cleanup loop runs forever. *)
Theorem encode_error_strands_receiver (task : K) (fl : bool) (s : ClientStreamInner K P) (buf : bytes)
    (Hs : stream_inv s) (Hroom : has_room s) (Hopen : ci_closed s = false)
    (Han : (0 <= announced (ci_timer s))%Z)
    (Henc : ReqHead_encode stale codec (ci_encode_buf s) (ci_client_id s)
              (task_set_seq task (ci_seq s)) = Some (Err (), buf)) :
  exists s', Inner_send_task codec stale wait_to task fl s = (Done (Err IO), s')
    /\ ci_closed s' = true /\ ci_events s' = ci_events s
    /\ live_tasks (ci_timer s') = live_tasks (ci_timer s)
    /\ forall fuel, receive_loop_exit fuel s' = None.
Proof.
  assert (exists s', Inner_send_task codec stale wait_to task fl s = (Done (Err IO), s')) as [s' E].
  { unfold Inner_send_task, send_request. cbn -[ReqHead_encode count_add as_u64].
    rewrite Hopen, Henc. eauto. }
  exists s'. split; [done|].
  apply send_task_ok in E as [Hs' Ho]; [|done|done].
  rewrite Hopen, Henc in Ho. destruct Ho as (_ & He & Hl & Ha & Hc).
  split; [done|]. split; [done|]. split; [done|]. intros fuel. unfold receive_loop_exit.
  destruct (clean_preserves codec (set_closed s') Hs') as ((Hs1 & _ & Han1 & _) & _ & Hp).
  apply (drain_loop_stuck codec); [done|done|]. rewrite Han1. cbn [ci_timer set_closed]. lia.
Qed.

(** [recv_one_resp] only ever returns an error, so [recv_some] never gets
    past its first response loop and the time of the last response, which the
    liveness probe reads, is never updated. *)
Theorem last_resp_ts_never_updated (now : Z) (fuel ticks : nat) (s : ClientStreamInner K P) :
  let '(r, s') := receiver_poll codec now fuel ticks s in
  r <> Done (Ok ()) /\ get_last_resp_ts s' = get_last_resp_ts s.
Proof.
  unfold receiver_poll, get_last_resp_ts.
  assert (ci_last_resp_ts (Nat.iter ticks time_reach s) = ci_last_resp_ts s) as Ht.
  { induction ticks as [|n IH]; [done|]. rewrite <- IH. simpl. unfold time_reach.
    by destruct (adjust_task_queue _). }
  set (s1 := Nat.iter ticks time_reach s) in *.
  destruct (ci_has_err s1); [by rewrite Ht|]. cbn [recv_some].
  destruct (recv_one_resp codec fuel _) as [[[[]|e]| |] s2] eqn:E.
  - by apply recv_one_resp_not_ok in E.
  - apply recv_one_resp_ts in E. rewrite E. simpl. by rewrite Ht.
  - apply recv_one_resp_ts in E. rewrite E. simpl. by rewrite Ht.
  - apply recv_one_resp_ts in E. rewrite E. simpl. by rewrite Ht.
Qed.
End claims.

(** ** Concrete runs over TCP *)

#[local] Existing Instance vec_IoBuffer.

Definition demo_transport : ClientTransport RawCodec RawTask (TcpClient sock) :=
  Tcp_ClientTransport vec id 1000.

(** A connection on which the response to the first request arrives, then the
    end of the stream. *)
Definition demo_conn (input : bytes) : TcpClient sock :=
  mkTcpClient (mkBufStream (mkBufRead (replicate 8 Byte.x00) 0 0)
                 (mkBufWrite (replicate 8 Byte.x00) 0) (sock_of [7; 9; 2] input))
    [] (lit "c1") 5000 5000.

Definition demo_wait (left target : Z) : poll bool :=
  if (left <=? target)%Z then Ready true else Pending.

Definition demo_stale : nat -> byte := fun _ => Byte.x00.

(** The ping takes number 2; the second task is never answered. *)
Definition demo_stream_ops : list (stream_op RawTask) :=
  [SSend (demo_task 0) false; SPing; SPoll; SResponse 0; SSend (demo_task 0) true; STick].

Lemma raw_task_encodable seq action req blob :
  length req <= 256 -> match blob with Some b => length b <= 256 | None => True end ->
  encodable Raw demo_stale (raw_task seq action req blob).
Proof.
  intros Hr Hb buf cid q.
  destruct (ReqHead_encode_spec demo_stale Raw (task_set_seq (raw_task seq action req blob) q) buf cid)
    as (room & _ & E). revert E.
  unfold encode_req at 1; cbn [MacroTask_ClientTask]. unfold MacroTask_encode_req.
  cbn [mt_req task_set_seq set_common MacroTask_set_common raw_task codec_encode_into RawCodec_Codec].
  unfold task_set_seq, set_common. cbn.
  rewrite (proj2 (Nat.leb_le _ _) Hr). intros (msg & Hm & Hn & ->).
  assert (zlen msg = zlen req) as Hz by congruence. clear Hm Hn.
  destruct (Z.ltb_spec u32_MAX (zlen req)) as [Hx|_]; [unfold u32_MAX, zlen in Hx; lia|]. 
  assert ((i32_MAX <? opt_len blob)%Z = false) as Hbl.
  { apply Z.ltb_ge. unfold i32_MAX. destruct blob; simpl; unfold zlen; lia. }
  unfold get_req_blob; cbn. unfold MacroTask_get_req_blob; cbn. rewrite Hbl. cbn. eauto.
Qed.

Definition demo_start : ClientStreamInner RawTask (TcpClient sock) :=
  Inner_new (demo_conn (resp_frame 1 (RespOk (lit "pong") None))) 9 ClientConfig_default (Some 5%Z).

Definition demo_run :=
  @stream_run _ _ _ _ demo_transport Raw demo_stale demo_wait demo_stream_ops demo_start.


(** A message over the codec's limit on a fresh connection. *)
Example encode_error_strands_receiver_witness :
  exists s', @Inner_send_task _ _ _ _ demo_transport Raw demo_stale demo_wait
      (raw_task 0 (OwnedNum 1) (replicate 257 Byte.x61) None) true demo_start = (Done (Err IO), s')
    /\ ci_events s' = [] /\ forall fuel, receive_loop_exit fuel s' = None.
Proof.
  destruct (@encode_error_strands_receiver _ _ _ _ _ demo_transport Raw demo_stale demo_wait
    (raw_task 0 (OwnedNum 1) (replicate 257 Byte.x61) None) true demo_start
    (replicate 32 Byte.x00 ++ replicate 256 Byte.x61)) as (s' & E & _ & He & _ & Hloop).
  - apply (Inner_new_inv (P := TcpClient sock)).
  - split; vm_compute; reflexivity.
  - reflexivity.
  - vm_compute; discriminate.
  - vm_compute; reflexivity.
  - exists s'. split; [exact E|]. split; [exact He|exact Hloop].
Defined.
