(* ===== verification/Inflight.v ===== *)
(** * How many requests a connection has in flight

    The throttler at work in [send_task]: what a connection has in flight is
    bounded by its threshold, and the registration channel, which has twice
    that room, is never full. *)

From S2P Require Import Prelude RustStd Errors Task ClientTaskMacro Config Buffer Proto BufIO.
From S2P Require Import Sock Timer TcpClient Throttler ClientStream.

Section bound.
Context {C K P : Type} `{ClientTransportLaws C K P}.
Variables (codec : C) (stale : nat -> byte) (wait_to : Z -> Z -> poll bool).
Context `{!WaitToLaw wait_to}.
Implicit Types s : ClientStreamInner K P.

Definition bounded s : Prop := (get_inflight_count s <= ci_thresholds s)%Z.

(** A step that finishes tasks and starts none. *)
Lemma preserves_bounded s s' : preserves codec s s' -> bounded s -> bounded s'.
Proof.
  intros (_ & (xs & evs & _ & _ & Hp) & _ & _ & _ & Hth & _). apply Permutation_length in Hp.
  rewrite !length_app in Hp. unfold bounded, get_inflight_count, Throttler_get_inflight_count; simpl.
  rewrite Hth. unfold zlen. simpl in Hp. lia.
Qed.

Lemma bounded_same s s' :
  live_tasks (ci_timer s') = live_tasks (ci_timer s) -> ci_thresholds s' = ci_thresholds s ->
  bounded s -> bounded s'.
Proof. unfold bounded, get_inflight_count; simpl. by intros -> ->. Qed.

Lemma send_request_thresholds task fl s r s' :
  send_request codec stale task fl s = (r, s') -> ci_thresholds s' = ci_thresholds s.
Proof.
  unfold send_request, run_bind. cbn -[ReqHead_encode].
  destruct (ReqHead_encode _ _ _ _ _) as [[[blob|[]] buf]|]; [|by intros [= _ <-]..].
  unfold or_fail, on_conn. cbn.
  destruct (tr_write_req buf blob fl (ci_conn s)) as [[[[]|e]| |] p]; try by intros [= _ <-].
  unfold Inner_reg_task. cbn. destruct (_ <=? _)%Z; by intros [= _ <-].
Qed.

Lemma send_bounded task fl s r s' :
  stream_inv s -> has_room s -> (0 < ci_thresholds s)%Z -> bounded s ->
  Inner_send_task codec stale wait_to task fl s = (Done r, s') ->
  bounded s' /\ ci_thresholds s' = ci_thresholds s.
Proof.
  intros Hs Hroom Hpos Hb E. pose proof (send_task_ok _ _ _ _ _ _ _ _ Hs Hroom E) as [_ Ho].
  unfold Inner_send_task in E. cbn [ci_closed upd_timer set_timer] in E.
  assert (r = Err IO -> ci_thresholds s' = ci_thresholds s -> bounded s') as Herr.
  { intros -> Hth. apply (bounded_same s); [|done|done].
    destruct (ci_closed s); [by destruct Ho as (_ & _ & ? & _)|].
    destruct (ReqHead_encode _ _ _ _ _) as [[[]]|];
      [destruct Ho as [[? _]|(_ & _ & ? & _)]; [discriminate|done]|by destruct Ho as (_ & _ & ? & _)..]. }
  destruct (ci_closed s); [injection E as <- <-; split; [by apply Herr|done]|].
  destruct (send_request codec stale task _ _) as [q s1] eqn:E1. apply send_request_thresholds in E1. simpl in E1.
  destruct q as [[[]|e]| |]; try done.
  - destruct (Throttler_throttle wait_to (throttler s1)) as [b|] eqn:Et; [|done]. injection E as _ <-.
    split; [|done]. eapply throttle_left in Et; [exact Et|done|]. simpl. lia.
  - injection E as <- <-. split; [by apply Herr|done].
Qed.

Lemma stream_step_bounded o s l s' :
  stream_inv s -> has_room s -> announced (ci_timer s) = 0%Z ->
  (0 < ci_thresholds s)%Z -> bounded s -> stream_step codec stale wait_to o s = Some (l, s') ->
  bounded s' /\ ci_thresholds s' = ci_thresholds s.
Proof.
  intros Hs Hroom Ha Hpos Hb.
  assert (forall s', preserves codec s s' -> bounded s' /\ ci_thresholds s' = ci_thresholds s) as Hp.
  { intros s1 Hs1. split; [by eapply preserves_bounded|apply Hs1]. }
  destruct o as [task fl| | |now fuel ticks| | |fuel|]; cbn [stream_step].
  - destruct (Inner_send_task codec stale wait_to task fl s) as [[r| |] s1] eqn:E; try done. intros [= _ <-].
    by eapply send_bounded.
  - unfold send_ping_req. destruct (ci_closed s); [by intros [= _ <-]|]. unfold run_bind. cbn -[ReqHead_encode_ping as_u64].
    destruct (ReqHead_encode_ping _ _ _ _) as [buf|]; [|done]. unfold or_fail, on_conn. cbn -[as_u64].
    by destruct (tr_write_req buf None true (ci_conn s)) as [[[[]|e]| |] p]; try done; intros [= _ <-].
  - unfold Inner_flush_req, or_fail, on_conn.
    by destruct (tr_flush_req (ci_conn s)) as [[[[]|e]| |] p]; try done; intros [= _ <-].
  - destruct (receiver_poll codec now fuel ticks s) as [[r| |] s1] eqn:E; try done. intros [= _ <-].
    by eapply Hp, receiver_poll_preserves.
  - intros [= _ <-]. by apply Hp, time_reach_preserves.
  - intros [= _ <-]. by apply Hp, poll_sent_preserves.
  - destruct (recv_iter codec s) as [[[[]|e]| |] s1] eqn:E; try done;
      apply recv_iter_preserves in E as Hp1; try done; [intros [= _ <-]; by apply Hp|].
    destruct (receive_loop_exit_ok codec fuel s1) as (s2 & -> & Hp2 & _); [apply Hp1|by destruct Hp1 as (_ & _ & -> & _)|].
    intros [= _ <-]. apply Hp. by eapply preserves_trans.
  - by intros [= _ <-].
Qed.

Lemma stream_run_bounded ops s l s' :
  stream_inv s -> announced (ci_timer s) = 0%Z -> Forall (op_ok codec stale) ops ->
  (ci_seq s + zlen ops < 2 ^ 64)%Z -> (tm_count (ci_timer s) + zlen ops < 2 ^ 64)%Z ->
  (0 < ci_thresholds s)%Z -> bounded s ->
  stream_run codec stale wait_to ops s = Some (l, s') -> bounded s' /\ ci_thresholds s' = ci_thresholds s.
Proof.
  revert s l. induction ops as [|o ops IH]; intros s l Hs Ha Hop Hq Hc Hpos Hb; cbn [stream_run].
  { by intros [= _ <-]. }
  apply Forall_cons_1 in Hop as [Ho Hop]. unfold zlen in Hq, Hc. cbn [length] in Hq, Hc.
  destruct (stream_step codec stale wait_to o s) as [[l1 s1]|] eqn:E1; [|done].
  destruct (stream_run codec stale wait_to ops s1) as [[l2 s2]|] eqn:E2; [|done]. intros [= _ <-].
  assert (has_room s) as Hroom by (split; lia).
  destruct (stream_step_bounded _ _ _ _ Hs Hroom Ha Hpos Hb E1) as [Hb1 Hth1].
  apply stream_step_ok in E1 as (Hs1 & Hq1 & Ha1 & Hc1 & _); [|done..].
  rewrite <- Hth1. apply (IH s1 l2 Hs1 Ha1 Hop) in E2; try done; [unfold zlen; lia|unfold zlen; lia|lia].
Qed.

End bound.

#[local] Existing Instance vec_IoBuffer.
#[local] Existing Instance demo_transport.

Lemma demo_wait_law : WaitToLaw demo_wait.
Proof. intros l t b. unfold demo_wait. destruct (Z.leb_spec l t); [by intros _|done]. Qed.

