(* ===== verification/Deadline.v ===== *)
(** * The receiver of a connection and the clock

    [receive_loop] of stream/src/client/stream.rs makes a ticker of one second
    and polls a [ReceiverTimerFuture], whose first loop calls [time_reach] once
    per tick that is due.  ClientStream.v takes the number of due ticks as an
    input; here it comes from the ticker of the runtime and the clock. *)

From S2P Require Import Prelude RustStd Errors Config Task ClientTaskMacro Buffer Proto BufIO Runtime.
From S2P Require Import Sock Timer TimerLive TcpClient Throttler ClientStream.

Local Open Scope Z_scope.

Section receiver.
Context {C K P : Type} `{ClientTask C K} `{!ClientTransport C K P}.
Context {RT F X : Type} `{!AsyncTime RT F X}.
Variables (codec : C) (stale : nat -> byte) (wait_to : Z -> Z -> poll bool).
Implicit Types (s : ClientStreamInner K P) (iv : Interval).

(** [while let Poll::Ready(_) = inv.poll_tick(ctx) { client.time_reach() }] *)
Fixpoint tick_loop (fuel : nat) (now : Z) iv s : option (Interval * ClientStreamInner K P) :=
  match poll_tick now iv with
  | (Done _, iv) =>
      match fuel with
      | O => None
      | S fuel => tick_loop fuel now iv (time_reach s)
      end
  | (Waiting, iv) => Some (iv, s)
  | (Panicked, _) => None
  end.

(** [ReceiverTimerFuture::poll], with [tick_fuel] for its loop. *)
Definition ReceiverTimerFuture_poll (tick_fuel : nat) (now : Z) (fuel : nat) iv s :
    option (Interval * (run (result unit RpcIntErr) * ClientStreamInner K P)) :=
  match tick_loop tick_fuel now iv s with
  | None => None
  | Some (iv, s) =>
      Some (iv,
        if ci_has_err s then (Done (Err IO), s)
        else recv_some codec now fuel 20 (upd_timer (fun t => (poll_sent_task t).2) s))
  end.

(** The receiver is woken: the part of the poll before the receive future; an
    error ends [receive_loop].  The receive future goes on afterwards, one
    response at a time ([SResponse]). *)
Definition receiver_wake (tick_fuel : nat) (now : Z) iv s : option (Interval * ClientStreamInner K P) :=
  match tick_loop tick_fuel now iv s with
  | None => None
  | Some (iv, s) =>
      if ci_has_err s then
        match receive_loop_exit 0 s with None => None | Some s => Some (iv, s) end
      else Some (iv, upd_timer (fun t => (poll_sent_task t).2) s)
  end.

(** ** Runs by the clock *)

Inductive clocked_op :=
| COp (o : stream_op K)
| CWake (now : Z) (tick_fuel : nat).

(** The ticks and the polls of the timer's channel are the receiver's: they
    come with a wake-up and from nowhere else. *)
Definition clocked_step (o : clocked_op) (c : Interval * ClientStreamInner K P) :
    option (list K * (Interval * ClientStreamInner K P)) :=
  let '(iv, s) := c in
  match o with
  | COp (STick | SPoll | SReceive _ _ _) => None
  | COp o =>
      match stream_step codec stale wait_to o s with None => None | Some (l, s) => Some (l, (iv, s)) end
  | CWake now tick_fuel =>
      match receiver_wake tick_fuel now iv s with None => None | Some c => Some ([], c) end
  end.

Fixpoint clocked_run (ops : list clocked_op) (c : Interval * ClientStreamInner K P) :
    option (list K * (Interval * ClientStreamInner K P)) :=
  match ops with
  | [] => Some ([], c)
  | o :: ops =>
      match clocked_step o c with
      | None => None
      | Some (l, c) =>
          match clocked_run ops c with
          | None => None
          | Some (l', c) => Some (l ++ l', c)
          end
      end
  end.

Definition wake_times (ops : list clocked_op) : list Z :=
  omap (fun o => match o with CWake now _ => Some now | COp _ => None end) ops.

Definition clocked_op_ok (o : clocked_op) : Prop :=
  match o with COp o => op_ok codec stale o | CWake _ _ => True end.

(** A connection and its ticker, made at [start]. *)
Definition receive_loop_start (start : Z) (conn : P) (cid : Z) (config : ClientConfig) (ts : option Z) :
    Interval * ClientStreamInner K P :=
  (tick start (from_secs 1), Inner_new conn cid config ts).
End receiver.
Arguments clocked_op K : clear implicits.

Section props.
Context {C K P : Type} `{ClientTransportLaws C K P}.
Context {RT F X : Type} `{AsyncTimeLaws RT F X}.
Variables (codec : C) (stale : nat -> byte) (wait_to : Z -> Z -> poll bool).
Implicit Types (s : ClientStreamInner K P) (iv : Interval).

(** ** Ticks *)

(** The ticks of [iv] that are due. *)
Definition ticks_due (now : Z) iv : nat :=
  if next_tick iv <=? now then Z.to_nat ((now - next_tick iv) / period iv + 1) else 0%nat.

Lemma ticks_due_step now iv iv' :
  0 < period iv -> next_tick iv <= now -> next_tick iv' = next_tick iv + period iv -> period iv' = period iv ->
  ticks_due now iv = S (ticks_due now iv').
Proof.
  intros Hp Hn Hx Hp'. unfold ticks_due. rewrite Hx, Hp'.
  destruct (Z.leb_spec (next_tick iv) now); [|lia].
  pose proof (Z.div_pos (now - next_tick iv) (period iv)).
  destruct (Z.leb_spec (next_tick iv + period iv) now).
  - replace (now - next_tick iv) with (now - (next_tick iv + period iv) + 1 * period iv) by lia.
    rewrite Z.div_add by lia.
    pose proof (Z.div_pos (now - (next_tick iv + period iv)) (period iv)). lia.
  - rewrite Z.div_small by lia. done.
Qed.

(** The loop ends, having called [time_reach] once per tick that was due. *)
Lemma tick_loop_ok fuel now iv s :
  0 < period iv -> (ticks_due now iv <= fuel)%nat ->
  exists iv', tick_loop fuel now iv s = Some (iv', Nat.iter (ticks_due now iv) time_reach s).
Proof.
  revert iv s. induction fuel as [|fuel IH]; intros iv s Hp Hf; cbn [tick_loop].
  all: destruct (Z.leb_spec (next_tick iv) now) as [Hn|Hn];
    [destruct (poll_tick_due now iv Hp Hn) as (t & iv' & -> & Hx & Hp');
     rewrite (ticks_due_step now iv iv') in * by done
    |destruct (poll_tick_early now iv Hp Hn) as (iv' & -> & Hx & Hp'); exists iv';
     unfold ticks_due; destruct (Z.leb_spec (next_tick iv) now); [lia|done]].
  - lia.
  - destruct (IH iv' (time_reach s)) as [iv2 ->]; [lia|lia|]. exists iv2. by rewrite Nat.iter_succ_r.
Qed.

(** The ticker after the loop. *)
Lemma tick_loop_next fuel now iv s iv' s' :
  0 < period iv -> tick_loop fuel now iv s = Some (iv', s') ->
  exists n, s' = Nat.iter n time_reach s /\ next_tick iv' = next_tick iv + Z.of_nat n * period iv
    /\ period iv' = period iv /\ now < next_tick iv'
    /\ (n = 0%nat \/ next_tick iv' <= now + period iv).
Proof.
  revert iv s. induction fuel as [|fuel IH]; intros iv s Hp; cbn [tick_loop].
  all: destruct (Z.leb_spec (next_tick iv) now) as [Hn|Hn];
    [destruct (poll_tick_due now iv Hp Hn) as (t & iv1 & -> & Hx & Hp')
    |destruct (poll_tick_early now iv Hp Hn) as (iv1 & -> & Hx & Hp'); intros [= <- <-]; exists 0%nat;
     split_and!; [done|lia|done|lia|by left]].
  { done. }
  intros E. apply IH in E as (n & -> & Hx2 & Hp2 & Hn2 & Hc); [|lia].
  exists (S n). rewrite Nat.iter_succ_r. split_and!; [done|lia|lia|done|]. right.
  destruct Hc as [->|Hc]; lia.
Qed.

Lemma ticks_preserve n s :
  stream_inv s -> preserves codec s (Nat.iter n time_reach s)
  /\ forall B k, aged B k (ci_timer s) -> aged B (k + n) (ci_timer (Nat.iter n time_reach s)).
Proof.
  intros Hs. induction n as [|n [IH IHa]]; simpl.
  { split; [by apply preserves_refl|]. intros B k. by rewrite Nat.add_0_r. }
  split; [eapply preserves_trans; [exact IH|]; apply time_reach_preserves, IH|].
  intros B k Ha. apply IHa in Ha. rewrite Nat.add_succ_r.
  destruct IH as ((Hi & _) & _). unfold time_reach.
  destruct (adjust_task_queue _) as [evs t] eqn:E. by eapply aged_tick.
Qed.

(** A poll of the future is the poll of ClientStream.v with the due ticks. *)
Lemma ReceiverTimerFuture_poll_ticks tick_fuel now fuel iv s :
  0 < period iv -> (ticks_due now iv <= tick_fuel)%nat ->
  exists iv', ReceiverTimerFuture_poll codec tick_fuel now fuel iv s
    = Some (iv', receiver_poll codec now fuel (ticks_due now iv) s).
Proof.
  intros Hp Hf. destruct (tick_loop_ok tick_fuel now iv s Hp Hf) as [iv' E].
  exists iv'. unfold ReceiverTimerFuture_poll. by rewrite E.
Qed.

(** The receiver can always be woken. *)
Lemma receiver_wake_total tick_fuel now iv s :
  stream_inv s -> announced (ci_timer s) = 0 -> 0 < period iv -> (ticks_due now iv <= tick_fuel)%nat ->
  is_Some (receiver_wake tick_fuel now iv s).
Proof.
  intros Hs Ha Hp Hf. destruct (tick_loop_ok tick_fuel now iv s Hp Hf) as [iv' E].
  unfold receiver_wake. rewrite E. destruct (ticks_preserve (ticks_due now iv) s Hs) as [(Hs1 & _ & Ha1 & _) _].
  destruct (ci_has_err _); [|done].
  destruct (receive_loop_exit_ok codec 0 _ Hs1) as (s2 & -> & _); [congruence|done].
Qed.

(** From [(iv, s)] to [(iv', s')], time passes and the tasks age with it. *)
Definition ages_by (iv iv' : Interval) s s' : Prop :=
  period iv' = period iv /\ tm_task_timeout (ci_timer s') = tm_task_timeout (ci_timer s)
  /\ exists n, next_tick iv' = next_tick iv + Z.of_nat n * period iv
    /\ forall B k, aged B k (ci_timer s) -> aged B (k + n) (ci_timer s').

Lemma ages_by_quiet iv s s' : ages (ci_timer s) (ci_timer s') -> ages_by iv iv s s'.
Proof.
  intros Ha. split; [done|]. split; [apply Ha|]. exists 0%nat. split; [lia|]. intros B k. rewrite Nat.add_0_r. apply Ha.
Qed.

Lemma ages_by_trans iv1 iv2 iv3 s1 s2 s3 :
  ages_by iv1 iv2 s1 s2 -> ages_by iv2 iv3 s2 s3 -> ages_by iv1 iv3 s1 s3.
Proof.
  intros (Hp1 & Ht1 & n1 & Hn1 & Ha1) (Hp2 & Ht2 & n2 & Hn2 & Ha2). split; [congruence|]. split; [congruence|]. exists (n1 + n2)%nat.
  split; [rewrite Hn2, Hn1, Hp1; lia|]. intros B k Ha. rewrite Nat.add_assoc. auto.
Qed.

Lemma receiver_wake_ok tick_fuel now iv s iv' s' :
  stream_inv s -> announced (ci_timer s) = 0 -> 0 < period iv ->
  receiver_wake tick_fuel now iv s = Some (iv', s') ->
  preserves codec s s' /\ ages_by iv iv' s s' /\ now < next_tick iv'
  /\ (next_tick iv' = next_tick iv \/ next_tick iv' <= now + period iv)
  /\ Forall (fun x => task_seq x <= tm_processed_seq (ci_timer s')) (live_tasks (ci_timer s')).
Proof.
  intros Hs Ha Hp. unfold receiver_wake. destruct (tick_loop tick_fuel now iv s) as [[iv1 s1]|] eqn:E; [|done].
  apply tick_loop_next in E as (n & -> & Hx & Hp1 & Hn & Hc); [|done].
  destruct (ticks_preserve n s Hs) as [Hs1 Hag]. set (s1 := Nat.iter n time_reach s) in *.
  assert (next_tick iv1 = next_tick iv \/ next_tick iv1 <= now + period iv) as Hc'
    by (destruct Hc as [->|?]; [left; lia|by right]).
  assert (forall s2, preserves codec s1 s2 -> preserves codec s s2 /\ ages_by iv iv1 s s2) as Hk.
  { intros s2 Hs2. split; [by eapply preserves_trans|]. split; [done|].
    split; [by apply (preserves_trans codec s s1)|]. exists n. split; [done|].
    intros B k Hk. apply Hs2. by apply Hag. }
  destruct (ci_has_err s1).
  - destruct (receive_loop_exit_ok codec 0 s1) as (s2 & -> & Hs2 & Hl & _); [apply Hs1|by destruct Hs1 as (_ & _ & -> & _)|].
    intros [= <- <-]. destruct (Hk _ Hs2). rewrite Hl. by split_and!.
  - intros [= <- <-]. pose proof (poll_sent_preserves codec s1 (proj1 Hs1)) as Hs2.
    destruct (Hk _ Hs2). split_and!; [done|done|done|done|].
    apply list.Forall_forall. intros x Hx1. destruct Hs2 as ((Hi2 & _) & _).
    apply (live_seq_bounds _ x Hi2); [done|]. by apply (drain_pending_ok (ci_timer s1)), Hs1.
Qed.

(** *** Steps and runs *)

Lemma clocked_step_ok o iv s l iv' s' :
  stream_inv s -> has_room s -> clocked_op_ok codec stale o -> announced (ci_timer s) = 0 -> 0 < period iv ->
  clocked_step codec stale wait_to o (iv, s) = Some (l, (iv', s')) ->
  step_ok codec l s s' /\ ages_by iv iv' s s'
  /\ (next_tick iv' = next_tick iv \/ exists now, now ∈ wake_times [o] /\ next_tick iv' <= now + period iv).
Proof.
  intros Hs Hroom Ho Ha Hp. destruct o as [o|now tick_fuel]; cbn [clocked_step].
  - assert (match stream_step codec stale wait_to o s with None => None | Some (l, s) => Some (l, (iv, s)) end
      = Some (l, (iv', s')) -> step_ok codec l s s' /\ ages_by iv iv' s s'
        /\ (next_tick iv' = next_tick iv \/ exists now, now ∈ wake_times [COp o] /\ next_tick iv' <= now + period iv)) as Hk.
    { destruct (stream_step codec stale wait_to o s) as [[l1 s1]|] eqn:E; [|done]. intros [= <- <- <-].
      apply (stream_step_ok _ _ _ _ _ _ _ Hs Hroom Ho Ha) in E. split; [done|]. split; [|by left].
      apply ages_by_quiet, E. }
    by destruct o.
  - destruct (receiver_wake tick_fuel now iv s) as [[iv1 s1]|] eqn:E; [|done]. intros [= <- <- <-].
    apply receiver_wake_ok in E as (Hpr & Hag & _ & Hc & _); [|done..].
    split; [by apply preserves_step|]. split; [done|]. destruct Hc as [?|?]; [by left|]. right. exists now.
    split; [left|done].
Qed.

Lemma clocked_run_ok ops iv s l iv' s' :
  stream_inv s -> announced (ci_timer s) = 0 -> Forall (clocked_op_ok codec stale) ops ->
  ci_seq s + zlen ops < 2 ^ 64 -> tm_count (ci_timer s) + zlen ops < 2 ^ 64 -> 0 < period iv ->
  clocked_run codec stale wait_to ops (iv, s) = Some (l, (iv', s')) ->
  stream_inv s' /\ announced (ci_timer s') = 0
  /\ ci_seq s' <= ci_seq s + zlen ops /\ tm_count (ci_timer s') <= tm_count (ci_timer s) + zlen ops
  /\ conserves codec l s s' /\ ages_by iv iv' s s'
  /\ (next_tick iv' = next_tick iv \/ exists now, now ∈ wake_times ops /\ next_tick iv' <= now + period iv).
Proof.
  revert iv s l. induction ops as [|o ops IH]; intros iv s l Hs Ha Hop Hq Hc Hp; cbn [clocked_run].
  { intros [= <- <- <-]. change (zlen (@nil (clocked_op K))) with 0.
    split_and!; [done|done|lia|lia|by apply conserves_refl|by apply ages_by_quiet|by left]. }
  apply Forall_cons_1 in Hop as [Ho Hop]. unfold zlen in *. cbn [length] in *.
  destruct (clocked_step codec stale wait_to o (iv, s)) as [[l1 [iv1 s1]]|] eqn:E1; [|done].
  destruct (clocked_run codec stale wait_to ops (iv1, s1)) as [[l2 [iv2 s2]]|] eqn:E2; [|done]. intros [= <- <- <-].
  apply clocked_step_ok in E1 as ((Hs1 & Hq1 & Ha1 & Hc1 & Hb1 & _) & Hg1 & Hx1); [|done|split; lia|done..].
  pose proof (proj1 Hg1) as Hp1.
  destruct (IH iv1 s1 l2 Hs1 Ha1 Hop) as (Hs2 & Ha2 & Hq2 & Hc2 & Hb2 & Hg2 & Hx2); [lia|lia|lia|done|].
  split_and!; [done|done|lia|lia|by eapply conserves_trans|by eapply ages_by_trans|].
  assert (wake_times (o :: ops) = wake_times [o] ++ wake_times ops) as -> by (by destruct o).
  destruct Hx2 as [Hx2|(now & Hin & Hx2)]; [rewrite Hx2|].
  - destruct Hx1 as [?|(now & Hin & Hle)]; [by left|right; exists now; by rewrite elem_of_app; auto].
  - right. exists now. rewrite elem_of_app. split; [by right|lia].
Qed.

Lemma clocked_run_app ops1 ops2 c l c' :
  clocked_run codec stale wait_to (ops1 ++ ops2) c = Some (l, c') <->
  exists l1 c1 l2, clocked_run codec stale wait_to ops1 c = Some (l1, c1)
    /\ clocked_run codec stale wait_to ops2 c1 = Some (l2, c') /\ l = l1 ++ l2.
Proof.
  revert c l. induction ops1 as [|o ops1 IH]; intros c l; simpl.
  { split; [intros E; by exists [], c, l|]. by intros (l1 & c1 & l2 & [= <- <-] & E & ->). }
  destruct (clocked_step codec stale wait_to o c) as [[l0 c0]|]; [|split; [done|by intros (? & ? & ? & ? & _)]].
  destruct (clocked_run codec stale wait_to (ops1 ++ ops2) c0) as [[l1 c1]|] eqn:E; split.
  - intros [= <- <-]. apply IH in E as (k1 & d1 & k2 & -> & E2 & ->). exists (l0 ++ k1), d1, k2.
    by rewrite <- app_assoc.
  - destruct (clocked_run codec stale wait_to ops1 c0) as [[k1 d1]|] eqn:E1; [|by intros (? & ? & ? & ? & _)].
    intros (l2 & c2 & l3 & [= <- <-] & E2 & ->).
    assert (Some (l1, c1) = Some (k1 ++ l3, c')) as [= -> ->] by (rewrite <- E; apply IH; by exists k1, d1, l3).
    by rewrite <- app_assoc.
  - done.
  - destruct (clocked_run codec stale wait_to ops1 c0) as [[k1 d1]|] eqn:E1; [|by intros (? & ? & ? & ? & _)].
    intros (l2 & c2 & l3 & [= <- <-] & E2 & ->).
    assert (None = Some (k1 ++ l3, c')) as [=] by (rewrite <- E; apply IH; by exists k1, d1, l3).
Qed.
End props.

Section claims.
Context {C K P : Type} `{ClientTransportLaws C K P}.
Context {RT F X : Type} `{AsyncTimeLaws RT F X}.
Variables (codec : C) (stale : nat -> byte) (wait_to : Z -> Z -> poll bool).

(** What was held at [s1], all of it numbered up to [B], is finished once the
    batches are older than the timeout. *)
Lemma held_finishes B l (s1 s3 : ClientStreamInner K P) :
  conserves codec l s1 s3 -> timer_inv (ci_timer s3) ->
  Forall (fun x => task_seq x <= B) (live_tasks (ci_timer s1)) ->
  aged B (S (tm_task_timeout (ci_timer s3))) (ci_timer s3) ->
  exists ys evs, ci_events s3 = ci_events s1 ++ evs /\ Forall2 (finishes codec) ys evs
    /\ l ++ live_tasks (ci_timer s1) ≡ₚ ys ++ live_tasks (ci_timer s3) /\ live_tasks (ci_timer s1) ⊆+ ys.
Proof.
  intros (ys & evs & He & Hf & Hp) Hi Hl Ha. exists ys, evs. split_and!; try done.
  eapply (submseteq_separate (fun x => task_seq x <= B)); [exact Hp|done|].
  apply list.Forall_forall. intros x Hx. pose proof (aged_gone B _ x Hi Ha Hx). lia.
Qed.

(** The deadline, from a connection in use whose next tick comes within a period
    of [t1]. *)
Lemma deadline_from (iv1 iv : Interval) (s1 s : ClientStreamInner K P) t1 t2 fuel1 fuel2 mid post l :
  stream_inv s1 -> announced (ci_timer s1) = 0 -> 0 < period iv1 -> next_tick iv1 <= t1 + period iv1 ->
  Forall (clocked_op_ok codec stale) (mid ++ CWake t2 fuel2 :: post) ->
  ci_seq s1 + zlen (mid ++ CWake t2 fuel2 :: post) < 2 ^ 64 ->
  tm_count (ci_timer s1) + zlen (mid ++ CWake t2 fuel2 :: post) < 2 ^ 64 ->
  t1 + (Z.of_nat (tm_task_timeout (ci_timer s1)) + 1) * period iv1 <= t2 ->
  clocked_run codec stale wait_to (CWake t1 fuel1 :: mid ++ CWake t2 fuel2 :: post) (iv1, s1) = Some (l, (iv, s)) ->
  exists ys evs, ci_events s = ci_events s1 ++ evs /\ Forall2 (finishes codec) ys evs
    /\ l ++ live_tasks (ci_timer s1) ≡ₚ ys ++ live_tasks (ci_timer s) /\ live_tasks (ci_timer s1) ⊆+ ys.
Proof.
  intros Hs1 Ha1 Hp1 Hx1 Hop Hq Hk Hlate. cbn [clocked_run clocked_step].
  destruct (receiver_wake fuel1 t1 iv1 s1) as [[iv2 s2]|] eqn:E2; [|done].
  apply (receiver_wake_ok codec) in E2 as ((Hs2 & Hc2 & Ha2 & Hq2 & Hk2 & _) & (Hp2 & Ht2 & _) & Hgt & Hle & Hlive); [|done..].
  destruct (clocked_run codec stale wait_to _ (iv2, s2)) as [[l' [iv' s']]|] eqn:E; [|done]. intros [= <- <- <-].
  pose proof E as E'. apply clocked_run_ok in E' as (Hs & _ & _ & _ & Hc & (_ & Ht & _) & _); [|done|congruence|done|lia..].
  apply clocked_run_app in E as (l3 & [iv3 s3] & l4 & E3 & E4 & _). cbn [clocked_run clocked_step] in E4.
  destruct (receiver_wake fuel2 t2 iv3 s3) as [[iv4 s4]|] eqn:E5; [|done].
  destruct (clocked_run codec stale wait_to post (iv4, s4)) as [[l5 [iv5 s5]]|] eqn:E6; [|done]. injection E4 as <- <- <-.
  apply Forall_app in Hop as [Hop3 [_ Hop5]%Forall_cons_1]. unfold zlen in *. rewrite length_app in *. cbn [length] in *.
  apply clocked_run_ok in E3 as (Hs3 & Ha3 & Hq3 & Hk3 & _ & Hg3 & _); [|done|congruence|done|unfold zlen; lia..|lia].
  apply (receiver_wake_ok codec) in E5 as ((Hs4 & _ & Ha4 & Hq4 & Hk4 & _) & Hg4 & Hgt4 & _); [|done|done|destruct Hg3; lia].
  pose proof (ages_by_trans _ _ _ _ _ _ Hg3 Hg4) as (Hp4 & _ & n & Hn & Hag4).
  apply clocked_run_ok in E6 as (_ & _ & _ & _ & _ & (_ & _ & m & _ & Hag5) & _);
    [|done|congruence|done|unfold zlen in *; lia..|lia].
  destruct (held_finishes (tm_processed_seq (ci_timer s2)) _ _ _ Hc (proj1 Hs) Hlive) as (ys & evs & He & Hf & Hpm & Hsub).
  { assert (aged (tm_processed_seq (ci_timer s2)) (0 + n + m) (ci_timer s5)) as [Haq Hag].
    { apply Hag5, Hag4. split; [lia|]. intros i gm key Hi. lia. }
    split; [done|]. intros i gm key Hi. apply Hag. rewrite Ht, Ht2 in Hi.
    assert (Z.of_nat (tm_task_timeout (ci_timer s1)) < Z.of_nat n); [|lia].
    apply (Z.mul_lt_mono_pos_r (period iv1)); [done|]. rewrite Hp2 in *. lia. }
  destruct Hc2 as (xs & evs1 & He1 & Hf1 & Hp). exists (xs ++ ys), (evs1 ++ evs).
  split; [by rewrite He, He1, app_assoc|]. split; [by apply Forall2_app|].
  rewrite app_nil_l in Hp. split.
  - rewrite Hp, <- app_assoc, <- Hpm. solve_Permutation.
  - rewrite Hp. by apply submseteq_app.
Qed.

End claims.

(** ** A run by the clock over TCP *)

#[local] Existing Instance vec_IoBuffer.
#[local] Existing Instance demo_transport.
#[local] Existing Instance clock_TokioLib.
#[local] Existing Instance clock_TokioLibLaws.

(** Two requests are sent; the response to the first comes, the second waits
    for the 20 seconds of the default configuration. *)
Definition demo_pre : list (clocked_op RawTask) :=
  [COp (SSend (demo_task 0) false); CWake 300 5; COp (SSend (demo_task 0) true)].
Definition demo_mid : list (clocked_op RawTask) :=
  [COp (SResponse 0); CWake 1500 5; CWake 9000 10].

Abbreviation demo_clock_start :=
  (receive_loop_start (K := RawTask) (RT := unit) (F := unit) (X := unit) 0
     (demo_conn (resp_frame 1 (RespOk (lit "pong") None))) 9 ClientConfig_default (Some 5)).

Definition demo_clock_run ops := clocked_run Raw demo_stale demo_wait ops demo_clock_start.

Lemma demo_clock_sent :
  exists sent c, demo_clock_run demo_pre = Some (sent, c) /\ task_seq (C := RawCodec) <$> sent = [1; 2].
Proof.
  assert (option_map (fun x => task_seq (C := RawCodec) <$> x.1) (demo_clock_run demo_pre) = Some [1; 2]) as Hv
    by (vm_compute; reflexivity).
  destruct (demo_clock_run demo_pre) as [[sent c]|]; [|discriminate]. injection Hv as Hv. by exists sent, c.
Qed.

Definition demo_clock_end := demo_clock_run (demo_pre ++ CWake 400 5 :: demo_mid ++ CWake 21400 50 :: []).

