(* ===== verification/Server.v ===== *)
(** * stream/src/server/server.rs: serving connections

    Each connection has a reader, which reads requests and dispatches them,
    and a writer, which takes finished tasks from a channel and writes the
    responses.  The channel is external: the reader's messages are collected
    in order; the writer gets the sequence of things its receiver reports
    ([Some] a message, [None] nothing there yet, the end when every sender is
    gone).  [RpcServer::close] waits for the connections with a deadline. *)

From S2P Require Import Prelude RustStd Errors Task ClientTaskMacro Config Buffer Proto BufIO.
From S2P Require Import Sock Parser ServerTask TcpServer Timer TcpClient EndToEnd.

(** ** The transport interface *)

Class ServerTransport (C R P : Type) := {
  st_read_req : poll unit -> runM P RpcIntErr RpcSvrReq;
  st_write_resp : C -> R -> runM P io_error unit;
  st_write_resp_internal : Z -> option RpcIntErr -> runM P io_error unit;
  st_flush_resp : runM P io_error unit;
  st_close_conn : P -> run unit * P;
}.

Section tcp.
Context {T C R : Type} `{AsyncRead T, AsyncWrite T} `{ServerTaskEncode C R} (B : Type) `{IoBuffer B}.
Variables (shutdown_write : T -> T) (fuel : nat) (stale : nat -> byte).

Definition Tcp_ServerTransport : ServerTransport C R (TcpServer T) := {|
  st_read_req := TcpServer_read_req B fuel;
  st_write_resp c t := TcpServer_write_resp fuel stale c t;
  st_write_resp_internal := TcpServer_write_resp_internal fuel stale;
  st_flush_resp := TcpServer_flush_resp fuel;
  st_close_conn := TcpServer_close_conn shutdown_write fuel;
|}.
End tcp.

(** ** Reader and writer *)

Section conn.
Context {C R D P : Type} `{Dispatch C D R} `{!ServerTransport C R P}.
Variables (codec : C) (dispatch : D) (noti : RespNoti).

(** A ping is action [0] with no message. *)
Definition is_ping (req : RpcSvrReq) : bool :=
  bool_decide (sq_action req = ActNum 0) && (length (sq_msg req) =? 0)%nat.

(** What the reader does with a request: the result of [send_quick_resp] when
    it is called, and the messages sent. *)
Definition reader_handle (rx_alive : bool) (req : RpcSvrReq)
    : result unit unit * list (resp_msg R) :=
  if is_ping req then RespNoti_send_err rx_alive (sq_seq req) None
  else
    match dispatch_req dispatch codec req noti with
    | (Ok _, sent) => (Ok (), sent)
    | (Err _, sent) =>
        let '(r, quick) := RespNoti_send_err rx_alive (sq_seq req) (Some Decode) in
        (r, sent ++ quick)
    end.

(** [Reader::run]: one iteration per unit of fuel. *)
Fixpoint Reader_run (fuel : nat) (rx_alive : bool) (close_rx : poll unit) (p : P)
    : run (result unit unit) * P * list (resp_msg R) :=
  match fuel with
  | O => (Waiting, p, [])
  | S fuel =>
      match st_read_req close_rx p with
      | (Done (Ok req), p) =>
          match reader_handle rx_alive req with
          | (Err _, sent) => (Done (Err ()), p, sent)
          | (Ok _, sent) =>
              let '(r, p, sent') := Reader_run fuel rx_alive close_rx p in (r, p, sent ++ sent')
          end
      | (Done (Err _), p) => (Done (Err ()), p, [])
      | (Waiting, p) => (Waiting, p, [])
      | (Panicked, p) => (Panicked, p, [])
      end
  end.

(** The [process!] macro of the writer. *)
Definition process (task : resp_msg R) : runM P io_error unit :=
  match task with
  | Ok t => st_write_resp codec t
  | Err (seq, err) => st_write_resp_internal seq err
  end.

(** [Writer::run]; [busy] while in the inner [try_recv] loop. *)
Fixpoint Writer_run (busy : bool) (done_rx : list (option (resp_msg R)))
    : runM P io_error unit :=
  match done_rx with
  | Some task :: rest => let* _ := process task in Writer_run true rest
  | None :: rest =>
      if busy then let* _ := st_flush_resp in Writer_run false rest else Writer_run false rest
  | [] =>
      let* _ := (if busy then st_flush_resp else run_ret ()) in
      fun p =>
        match st_close_conn p with
        | (Done _, p) => (Done (Ok ()), p)
        | (Waiting, p) => (Waiting, p)
        | (Panicked, p) => (Panicked, p)
        end
  end.
End conn.

(** ** [RpcServer] *)

Record RpcServer := mkRpcServer {
  rs_listeners : list bool;      (* one per listener: aborted *)
  rs_close_tx : bool;            (* the close channel's sender is held *)
  rs_config : ServerConfig;
}.

Definition RpcServer_new (config : ServerConfig) : RpcServer :=
  {| rs_listeners := []; rs_close_tx := true; rs_config := config |}.

(** [listen]: from the results of [bind] and [local_addr]; a Unix socket, which
    has no address, gets a dummy one. *)
Definition RpcServer_listen (bound : io_result (io_result bytes)) (self : RpcServer)
    : io_result bytes * RpcServer :=
  match bound with
  | Err e => (Err e, self)
  | Ok local_addr =>
      let listening := {| rs_listeners := rs_listeners self ++ [false];
                          rs_close_tx := rs_close_tx self; rs_config := rs_config self |} in
      match local_addr with
      | Ok addr => (Ok addr, listening)
      | Err AddrNotAvailable => (Ok (lit "0.0.0.0:0"), listening)
      | Err e => (Err e, self)
      end
  end.

(** The wait loop of [close]: [alive k] and [elapsed k] are the connections
    left and the time passed after [k] sleeps. *)
Fixpoint close_wait (fuel : nat) (alive elapsed : nat -> Z) (deadline : Z) (k : nat) : option Z :=
  if (0 <? alive k)%Z then
    match fuel with
    | O => None
    | S fuel =>
        if (deadline <? elapsed (S k))%Z then Some (alive (S k))
        else close_wait fuel alive elapsed deadline (S k)
    end
  else Some (alive k).

(** The first half of [close]: the listeners are aborted and the close channel
    is dropped. *)
Definition RpcServer_stop (self : RpcServer) : RpcServer :=
  {| rs_listeners := (fun _ => true) <$> rs_listeners self;
     rs_close_tx := false; rs_config := rs_config self |}.

(** [close]: stop, then the wait. *)
Definition RpcServer_close (fuel : nat) (alive elapsed : nat -> Z) (self : RpcServer)
    : option Z * RpcServer :=
  let self := RpcServer_stop self in
  (close_wait fuel alive elapsed (sc_server_close_wait (rs_config self)) 0, self).

(** ** What the reader serves *)

Section serving.
Context {C R D T : Type} `{Dispatch C D R} `{ServerTaskEncode C R} `{AsyncReadEofLaws T, AsyncWrite T}.
Context (B : Type) `{IoBufferLaws B}.
Variables (codec : C) (dispatch : D) (noti : RespNoti) (shutdown_write : T -> T)
          (fuel : nat) (stale : nat -> byte).

Local Instance serving_transport : ServerTransport C R (TcpServer T) :=
  Tcp_ServerTransport B shutdown_write fuel stale.

(** The requests of an input, up to the first malformed or truncated one. *)
Fixpoint parse_reqs (n : nat) (bs : bytes) : list RpcSvrReq :=
  match n with
  | O => []
  | S n =>
      match parse_req (alloc_ok B) bs with
      | Ok (req, rest) => req :: parse_reqs n rest
      | Err _ => []
      end
  end.

Lemma p_take_rest {E} (e : E) n bs a rest :
  p_take e n bs = Ok (a, rest) -> length bs = n + length rest.
Proof.
  unfold p_take. case_match eqn:El; [|done]. intros [= _ <-]. breflect. rewrite length_drop. lia.
Qed.

Lemma parse_req_shorter alloc bs req rest :
  parse_req alloc bs = Ok (req, rest) -> length rest < length bs.
Proof.
  unfold parse_req, p_bind at 1. destruct (p_take IO RPC_REQ_HEADER_LEN bs) as [[hb b1]|] eqn:E1; [|done].
  apply p_take_rest in E1. change RPC_REQ_HEADER_LEN with 32 in E1.
  destruct (ReqHead_decode_head hb) as [[h|]|]; [|done..]. unfold p_bind at 1.
  destruct (parse_action h b1) as [[a b2]|] eqn:E2; [|done]. unfold p_bind at 1.
  destruct (p_take IO _ b2) as [[m b3]|] eqn:E3; [|done]. apply p_take_rest in E3.
  unfold p_bind. destruct (parse_blob alloc h b3) as [[b b4]|] eqn:E4; [|done].
  intros [= _ <-].
  assert (length b2 <= length b1).
  { unfold parse_action in E2. destruct (ReqHead_get_action h) as [n|n]; [injection E2 as _ <-; lia|].
    unfold p_bind in E2. destruct (p_take IO _ b1) as [[s b5]|] eqn:E5; [|done].
    apply p_take_rest in E5. destruct (utf8_valid s); [|done]. injection E2 as _ <-. lia. }
  assert (length b4 <= length b3); [|lia].
  unfold parse_blob in E4. destruct (_ <? _)%Z; [|injection E4 as _ <-; lia].
  destruct (alloc _); [|done]. unfold p_bind in E4.
  destruct (p_take IO _ b3) as [[s b5]|] eqn:E5; [|done]. apply p_take_rest in E5.
  injection E4 as _ <-. lia.
Qed.

Lemma reader_handle_alive req : (reader_handle (R := R) codec dispatch noti true req).1 = Ok ().
Proof.
  unfold reader_handle. destruct (is_ping req); [done|].
  by destruct (dispatch_req dispatch codec req noti) as [[[]|[]] sent].
Qed.

Lemma Reader_run_serves n close p :
  srv_ok fuel true p -> length (srv_rest p) < n ->
  exists p', Reader_run codec dispatch noti n true close p
    = (Done (Err ()), p',
       mjoin ((fun req => (reader_handle codec dispatch noti true req).2)
                <$> parse_reqs n (srv_rest p))).
Proof.
  revert p. induction n as [|n IH]; intros p Hp Hn; [lia|]. cbn [Reader_run parse_reqs].
  pose proof (read_req_reads B fuel true close p Hp) as Hr.
  unfold st_read_req; cbn [serving_transport Tcp_ServerTransport].
  destruct (parse_req (alloc_ok B) (srv_rest p)) as [[req rest]|e] eqn:E.
  - destruct Hr as (p1 & -> & Hp1 & <-). apply parse_req_shorter in E.
    pose proof (reader_handle_alive req) as Hal.
    destruct (reader_handle codec dispatch noti true req) as [q sent] eqn:Eh. simpl in Hal. subst q.
    destruct (IH p1 Hp1 ltac:(lia)) as (p' & ->). exists p'.
    rewrite join_map_cons, Eh. done.
  - destruct (Hr eq_refl) as (p1 & ->). eauto.
Qed.
End serving.

(** ** What the writer sends *)

Section writing.
Context {C R T : Type} `{ServerTaskEncode C R} `{AsyncRead T, AsyncWriteLaws T}.
Context (B : Type) `{IoBuffer B}.
Variables (codec : C) (shutdown_write : T -> T) (fuel : nat) (stale : nat -> byte).

Local Instance writing_transport : ServerTransport C R (TcpServer T) :=
  Tcp_ServerTransport B shutdown_write fuel stale.

(** The response a message stands for. *)
Definition msg_resp (m : resp_msg R) (seq : Z) (r : resp) : Prop :=
  resp_wf r /\ (resp_data_len r + Z.of_nat RPC_RESP_HEADER_LEN <= Z.of_nat fuel)%Z /\
  match m with
  | Ok task => forall buf, encodes_clean stale codec task buf seq r
  | Err (sq, err) =>
      sq = seq /\ r = match err with Some e => RespErr (EncRpc e) | None => RespOk [] None end
  end.

Lemma process_ok m seq r s :
  64 <= fuel -> srv_can_write fuel s -> msg_resp m seq r ->
  exists s', process codec m s = (Done (Ok ()), s')
    /\ srv_out fuel s' = srv_out fuel s ++ resp_frame seq r /\ srv_can_write fuel s'.
Proof.
  intros Hf Hs (Hw & Hd & Hm). destruct m as [task|[sq err]]; simpl.
  - by apply write_resp_clean.
  - destruct Hm as [-> ->].
    destruct (write_resp_internal_frame fuel stale seq err s Hs Hf) as (s' & E & Ho & Hs').
    exists s'. split; [done|]. split; [|done]. rewrite Ho. by destruct err.
Qed.

Lemma flush_can_write s :
  srv_can_write fuel s ->
  exists s', TcpServer_flush_resp fuel s = (Done (Ok ()), s')
    /\ outgoing (bs_inner (ts_stream s')) = srv_out fuel s /\ srv_out fuel s' = srv_out fuel s
    /\ srv_can_write fuel s'.
Proof.
  intros [(Hw & Hi & Hf) Hr].
  destruct (AsyncBufStream_flush_enough fuel (ts_stream s) Hw Hi Hr Hf) as [st E].
  exists (put_stream st s). split; [by apply run_io_ok, io_with_timeout_ready|].
  unfold AsyncBufStream_flush in E.
  destruct (buf_flush fuel (bs_write (ts_stream s), bs_inner (ts_stream s))) as [q [w i]] eqn:Ef.
  injection E as -> <-. apply buf_flush_ok in Ef as (Hw' & Hp' & Hl' & Ho' & Hi' & Hr'); [|done|done].
  unfold srv_out; simpl. rewrite (wb_pend_0 w Hp'), app_nil_r, Ho'.
  split; [done|]. split; [done|]. split; [|by apply Hr'].
  split; [done|]. split; [done|]. simpl. by rewrite Hl'.
Qed.

(** The frames of the messages among what the receiver reports. *)
Inductive frames_of : list (option (resp_msg R)) -> bytes -> Prop :=
| frames_nil : frames_of [] []
| frames_none rx bs : frames_of rx bs -> frames_of (None :: rx) bs
| frames_some m seq r rx bs :
    msg_resp m seq r -> frames_of rx bs -> frames_of (Some m :: rx) (resp_frame seq r ++ bs).

Lemma Writer_run_ok busy rx bs s :
  64 <= fuel -> srv_can_write fuel s -> frames_of rx bs ->
  (busy = false -> srv_out fuel s = outgoing (bs_inner (ts_stream s))) ->
  exists s' i, Writer_run codec busy rx s = (Done (Ok ()), s')
    /\ bs_inner (ts_stream s') = shutdown_write i /\ outgoing i = srv_out fuel s ++ bs.
Proof.
  intros Hf Hs Hfr. revert busy s Hs. induction Hfr as [|rx bs Hfr IH|m seq r rx bs Hm Hfr IH];
    intros busy s Hs Hb; cbn [Writer_run].
  - assert (exists s1, (if busy then st_flush_resp else run_ret ()) s = (Done (Ok ()), s1)
      /\ srv_out fuel s1 = srv_out fuel s /\ srv_can_write fuel s1) as (s1 & E1 & Ho1 & Hs1).
    { destruct busy; [|by exists s].
      destruct (flush_can_write s Hs) as (s1 & ? & _ & ? & ?). by exists s1. }
    rewrite (run_bind_ok _ _ _ _ _ E1).
    destruct (flush_can_write s1 Hs1) as (s2 & E2 & Ho2 & _ & _).
    unfold st_close_conn; cbn [writing_transport Tcp_ServerTransport].
    unfold TcpServer_close_conn. rewrite E2. eexists _, (bs_inner (ts_stream s2)).
    split; [done|]. split; [done|]. by rewrite Ho2, Ho1, app_nil_r.
  - destruct busy; [|by apply IH].
    destruct (flush_can_write s Hs) as (s1 & E1 & Hfl & Ho1 & Hs1).
    unfold st_flush_resp; cbn [writing_transport Tcp_ServerTransport].
    rewrite (run_bind_ok _ _ _ _ _ E1).
    destruct (IH false s1 Hs1) as (s' & i & ? & ? & Ho); [intros _; congruence|].
    exists s', i. by rewrite Ho, Ho1.
  - destruct (process_ok m seq r s Hf Hs Hm) as (s1 & E1 & Ho1 & Hs1).
    rewrite (run_bind_ok _ _ _ _ _ E1).
    destruct (IH true s1 Hs1) as (s' & i & ? & ? & Ho); [done|].
    exists s', i. by rewrite Ho, Ho1, <- app_assoc.
Qed.
End writing.

(** ** Properties *)

Section claims.
Context {C R D T : Type} `{Dispatch C D R} `{ServerTaskEncode C R}.
Context (B : Type) `{IoBufferLaws B}.
Variables (codec : C) (dispatch : D) (noti : RespNoti) (shutdown_write : T -> T)
          (fuel : nat) (stale : nat -> byte).

(** The reader serves a connection's input in order: every well-formed
    request is handled exactly once, a ping with an empty reply and any other
    by the dispatcher (plus a [Decode] reply when dispatching fails), up to
    the first malformed or truncated request, where the reader stops; it
    always stops once the peer has closed. *)
Theorem reader_serves_input `{AsyncReadEofLaws T, AsyncWrite T} (n : nat) (close : poll unit)
    (p : TcpServer T) (Hp : srv_ok fuel true p) (Hn : length (srv_rest p) < n) :
  exists p',
    @Reader_run C R D _ _ (Tcp_ServerTransport B shutdown_write fuel stale)
      codec dispatch noti n true close p
    = (Done (Err ()), p',
       mjoin ((fun req => (reader_handle codec dispatch noti true req).2)
                <$> parse_reqs B n (srv_rest p))).
Proof. by apply Reader_run_serves. Qed.

(** The writer sends every response it is given, in order, each as one
    frame, and flushes before it waits or exits: on a connection that takes
    data, whatever the timing of the messages, the bytes sent are the frames
    one after the other, and the connection is then shut down. *)
Theorem writer_sends_in_order `{AsyncRead T, AsyncWriteLaws T}
    (rx : list (option (resp_msg R))) (bs : bytes) (p : TcpServer T)
    (Hfuel : 64 <= fuel) (Hp : srv_can_write fuel p)
    (Hout : srv_out fuel p = outgoing (bs_inner (ts_stream p)))
    (Hrx : frames_of codec fuel stale rx bs) :
  exists p' i,
    @Writer_run C R _ (Tcp_ServerTransport B shutdown_write fuel stale) codec false rx p
    = (Done (Ok ()), p')
    /\ bs_inner (ts_stream p') = shutdown_write i
    /\ outgoing i = outgoing (bs_inner (ts_stream p)) ++ bs.
Proof.
  destruct (Writer_run_ok B codec shutdown_write fuel stale false rx bs p) as (p' & i & ? & ? & Ho);
    [done..|]. exists p', i. by rewrite Ho, Hout.
Qed.

(** [close] always ends: after the listeners are aborted and the close
    channel is dropped it sleeps a second at a time, stops as soon as no
    connection is left, and gives up once more than [server_close_wait] has
    passed, whatever the connections do. *)
Theorem server_close_terminates (alive elapsed : nat -> Z) (srv : RpcServer)
    (Hclock : forall k, (from_secs 1 * Z.of_nat k <= elapsed k)%Z)
    (Hwait : (0 <= sc_server_close_wait (rs_config srv))%Z) :
  let n := S (Z.to_nat (sc_server_close_wait (rs_config srv) / from_secs 1)) in
  exists left srv', RpcServer_close n alive elapsed srv = (Some left, srv')
    /\ rs_close_tx srv' = false /\ Forall (fun aborted => aborted = true) (rs_listeners srv')
    /\ ((left <= 0)%Z
        \/ exists k, k <= n /\ (sc_server_close_wait (rs_config srv) < elapsed k)%Z
                     /\ left = alive k).
Proof.
  intros n. unfold RpcServer_close, RpcServer_stop. cbn [rs_config]. set (w := sc_server_close_wait (rs_config srv)) in *.
  assert (forall f k, (w < from_secs 1 * Z.of_nat (k + f))%Z ->
    (exists left, close_wait f alive elapsed w k = Some left
      /\ ((left <= 0)%Z \/ exists j, j <= k + f /\ (w < elapsed j)%Z /\ left = alive j))
      \/ (f = 0 /\ (0 < alive k)%Z)) as Hloop.
  { induction f as [|f IH]; intros k Hk; cbn [close_wait];
      destruct (Z.ltb_spec 0 (alive k)); eauto.
    destruct (Z.ltb_spec w (elapsed (S k))).
    - left. exists (alive (S k)). split; [done|]. right. exists (S k). split; [lia|done].
    - pose proof (Hclock (S k)). destruct (IH (S k)) as [(left & E & Hl)|[-> _]].
      + rewrite Nat.add_succ_comm in *. lia.
      + left. exists left. split; [done|]. destruct Hl as [|(j & ? & ?)]; [by left|].
        right. exists j. split; [lia|done].
      + rewrite Nat.add_1_r in Hk. lia. }
  destruct (Hloop n 0) as [(left & E & Hl)|[Hn _]]; [| |done].
  - unfold n. rewrite Nat.add_0_l, Nat2Z.inj_succ, Z2Nat.id.
    + pose proof (Z.mul_succ_div_gt w (from_secs 1) ltac:(done)). lia.
    + by apply Z.div_pos.
  - eexists _, _. rewrite E. split; [done|]. split; [done|]. split.
    { simpl. induction (rs_listeners srv); simpl; by constructor. }
    done.
Qed.
End claims.

(** ** Concrete runs *)

(** An echo handler: it answers with the task itself. *)
Definition echo : DispatchClosure (ServerTaskVariant bytes unit) (ServerTaskVariant bytes unit) :=
  mkClosure (fun t => (Ok (), default [] (set_result id true t (Ok ())))).

(** A ping, an echo request and half a frame. *)
Definition demo_input : bytes :=
  req_frame 9 (ActNum 0) 1 [] None ++ req_frame 9 (ActNum 4) 2 (lit "hi") None ++ lit "junk".

#[local] Existing Instance vec_IoBuffer.

Definition demo_transport :
    ServerTransport RawCodec (ServerTaskVariant bytes unit) (TcpServer sock) :=
  Tcp_ServerTransport vec id 1000 zeros.

Example reader_serves_input_witness :
  exists p' (t : ServerTaskVariant bytes unit),
    @Reader_run RawCodec (ServerTaskVariant bytes unit) _ _ _ demo_transport Raw echo (mkRespNoti 0)
      100 true Pending (demo_server demo_input)
    = (Done (Err ()), p', [Err (1%Z, None); Ok t]) /\ sv_seq t = 2%Z /\ sv_msg t = lit "hi".
Proof.
  destruct (sock_of_ready [5; 20] demo_input) as [Hi Hr].
  destruct (@reader_serves_input RawCodec (ServerTaskVariant bytes unit)
    (DispatchClosure (ServerTaskVariant bytes unit) (ServerTaskVariant bytes unit)) sock _ _
    vec vec_IoBuffer vec_IoBufferLaws Raw echo (mkRespNoti 0) id 1000 zeros _ _ _ _ 100 Pending
    (demo_server demo_input)) as (p' & E).
  - split; [split; [split; simpl; [lia|split; simpl; lia]|exact Hi]|]. split; [exact Hr|].
    split; [intros _; split; [reflexivity|exact Hr]|]. vm_compute; lia.
  - vm_compute; lia.
  - exists p'. eexists. split; [exact E|]. split; reflexivity.
Defined.

Definition demo_rx : list (option (resp_msg (ServerTaskVariant bytes unit))) :=
  [None; Some (Err (1%Z, None)); Some (Ok (demo_done (lit "pong"))); None].

Example writer_sends_in_order_witness :
  exists p' i,
    @Writer_run RawCodec (ServerTaskVariant bytes unit) _ demo_transport Raw false demo_rx
      (demo_server []) = (Done (Ok ()), p')
    /\ outgoing i = resp_frame 1 (RespOk [] None) ++ resp_frame 3 demo_resp.
Proof.
  destruct (@writer_sends_in_order RawCodec (ServerTaskVariant bytes unit) sock _
    vec vec_IoBuffer Raw id 1000 zeros _ _ _ demo_rx
    (resp_frame 1 (RespOk [] None) ++ resp_frame 3 demo_resp ++ []) (demo_server []))
    as (p' & i & E & _ & Ho).
  - vm_compute; lia.
  - apply demo_server_can_write.
  - reflexivity.
  - unfold demo_rx. apply frames_none, frames_some; [|apply frames_some; [|apply frames_none, frames_nil]].
    + split; [vm_compute; split; discriminate|]. split; [vm_compute; discriminate|]. split; reflexivity.
    + split; [vm_compute; split; discriminate|]. split; [vm_compute; discriminate|].
      intros buf. exists (demo_done (lit "pong")). unfold encode_resp; simpl. reflexivity.
  - exists p', i. split; [exact E|]. rewrite app_nil_r in Ho. exact Ho.
Defined.

Example server_close_terminates_witness :
  exists left srv',
    RpcServer_close 91 (fun _ => 2%Z) (fun k => (1000 * Z.of_nat k)%Z)
      (mkRpcServer [false] true ServerConfig_default) = (Some left, srv')
    /\ rs_listeners srv' = [true].
Proof.
  destruct (server_close_terminates (fun _ => 2%Z) (fun k => (1000 * Z.of_nat k)%Z)
    (mkRpcServer [false] true ServerConfig_default)) as (left & srv' & E & _).
  - intros k. unfold from_secs. lia.
  - vm_compute; discriminate.
  - exists left, srv'. split; [exact E|]. unfold RpcServer_close in E. injection E as _ <-. reflexivity.
Defined.
