(* ===== verification/Duplex.v ===== *)
(** * Both directions of a connection

    The reader and the writer of a connection work on one stream at the same
    time.  What one direction does leaves the other alone: a law of the
    underlying stream ([AsyncDuplexLaws]), lifted here through the buffers,
    the timeouts and the operations of the TCP server. *)

From S2P Require Import Prelude RustStd Errors Task Config Buffer Proto BufIO Sock Parser ServerTask TcpServer.

(** ** Relations kept by computations *)

Section keeps.
Context {S : Type} (Rel : relation S) `{!PreOrder Rel}.

(** Whatever the outcome, the state before and after are related. *)
Definition io_keeps {A} (m : ioM S A) : Prop := forall s r s', m s = (r, s') -> Rel s s'.
Definition run_keeps {E A} (m : runM S E A) : Prop := forall s r s', m s = (r, s') -> Rel s s'.

Lemma run_keeps_ret {E A} (a : A) : run_keeps (run_ret (E := E) a).
Proof. by intros s r s' [= _ <-]. Qed.
Lemma run_keeps_err {E A} (e : E) : run_keeps (run_err (A := A) e).
Proof. by intros s r s' [= _ <-]. Qed.
Lemma run_keeps_get {E A} (f : S -> A) : run_keeps (run_get (E := E) f).
Proof. by intros s r s' [= _ <-]. Qed.
Lemma run_keeps_put {E} (f : S -> S) : (forall s, Rel s (f s)) -> run_keeps (run_put (E := E) f).
Proof. intros Hf s r s' [= _ <-]. apply Hf. Qed.
Lemma run_keeps_option {E A} (o : option A) : run_keeps (run_option (E := E) o).
Proof. by destruct o; intros s r s' [= _ <-]. Qed.

Lemma run_keeps_bind {E A B} (m : runM S E A) (k : A -> runM S E B) :
  run_keeps m -> (forall a, run_keeps (k a)) -> run_keeps (run_bind m k).
Proof.
  intros Hm Hk s r s'. unfold run_bind. destruct (m s) as [[[a|e]| |] s1] eqn:Em; intros Ek; simplify_eq;
    try (by eapply Hm). transitivity s1; [by eapply Hm|by eapply Hk].
Qed.

Lemma io_keeps_timeout {A} t (m : ioM S A) : io_keeps m -> io_keeps (io_with_timeout t m).
Proof.
  intros Hm s r s'. unfold io_with_timeout, cancellable. destruct (t =? 0)%Z; [apply Hm|].
  destruct (m s) as [[a|] s1] eqn:E; intros [= _ <-]; by eapply Hm.
Qed.

Lemma read_exact_keeps `{AsyncRead S} fuel n :
  (forall k, io_keeps (async_read k)) -> io_keeps (read_exact fuel n).
Proof.
  intros Hr. unfold read_exact. generalize (@nil byte) as acc. revert n.
  induction fuel as [|fuel IH]; intros n acc s r s'; destruct n as [|n]; cbn [read_exact_loop];
    try (by intros [= _ <-]).
  destruct (async_read (Datatypes.S n) s) as [[[[|b bs]|e]|] s1] eqn:E; apply Hr in E.
  - by intros [= _ <-].
  - intros E'. transitivity s1; [done|]. by eapply IH.
  - destruct e; intros E'; simplify_eq; try done. transitivity s1; [done|]. by eapply IH.
  - by intros [= _ <-].
Qed.

Lemma write_all_keeps `{AsyncWrite S} fuel buf :
  (forall b, io_keeps (async_write b)) -> io_keeps (write_all fuel buf).
Proof.
  intros Hw. revert buf. induction fuel as [|fuel IH]; intros buf s r s'; destruct buf as [|b buf];
    cbn [write_all]; try (by intros [= _ <-]).
  destruct (async_write (b :: buf) s) as [[[[|k]|e]|] s1] eqn:E; apply Hw in E.
  - by intros [= _ <-].
  - intros E'. transitivity s1; [done|]. by eapply IH.
  - destruct e; intros E'; simplify_eq; try done. transitivity s1; [done|]. by eapply IH.
  - by intros [= _ <-].
Qed.
End keeps.

(** Through a field of the state. *)
Lemma run_keeps_io {S T E A} (RS : relation S) (RT : relation T) (get : S -> T) put (err : io_error -> E)
    (m : ioM T A) :
  io_keeps RT m -> (forall s t, RT (get s) t -> RS s (put t s)) -> run_keeps RS (run_io get put err m).
Proof.
  intros Hm Hput s r s'. unfold run_io. destruct (m (get s)) as [[[a|e]|] t] eqn:Em; intros [= _ <-];
    apply Hput; by eapply Hm.
Qed.

Create HintDb keeps.

(** Walk through a sequence of operations; the leaves are in [keeps]. *)
Ltac run_keep :=
  repeat first
    [ apply run_keeps_bind; [apply _| |intros ?]
    | case_match
    | apply run_keeps_ret; apply _ | apply run_keeps_err; apply _ | apply run_keeps_get; apply _
    | apply run_keeps_option; apply _
    | solve [eauto with keeps] ].

(** ** Streams with two directions *)

Section sides.
Context {T : Type} `{AsyncReadLaws T} `{!AsyncWrite T, !AsyncWriteLaws T}.

(** The side of the writer, and of the reader, is as it was. *)
Definition w_same (t t' : T) : Prop :=
  w_inv t -> w_inv t' /\ outgoing t' = outgoing t /\ (w_ready t -> w_ready t').
Definition r_same (t t' : T) : Prop := r_inv t -> r_inv t' /\ incoming t' = incoming t.

#[export] Instance w_same_preorder : PreOrder w_same.
Proof.
  split; [by intros t Hi|]. intros t1 t2 t3 H12 H23 Hi. destruct (H12 Hi) as (Hi2 & <- & ?).
  destruct (H23 Hi2) as (? & <- & ?). auto.
Qed.

#[export] Instance r_same_preorder : PreOrder r_same.
Proof.
  split; [by intros t Hi|]. intros t1 t2 t3 H12 H23 Hi. destruct (H12 Hi) as (Hi2 & <-).
  destruct (H23 Hi2) as (? & <-). auto.
Qed.
End sides.

Class AsyncDuplexLaws (T : Type) `{AsyncReadLaws T} `{!AsyncWrite T, !AsyncWriteLaws T} := {
  duplex_read n : io_keeps w_same (async_read (T := T) n);
  duplex_write buf : io_keeps r_same (async_write (T := T) buf);
}.

#[export] Instance sock_DuplexLaws : AsyncDuplexLaws sock.
Proof.
  split.
  - intros n s r s'. unfold async_read; simpl. unfold sock_read. destruct (sk_rx s) as [|[bs|e|] evs];
      intros [= _ <-]; done.
  - intros buf s r s'. unfold async_write; simpl. unfold sock_write. destruct (sk_tx s) as [|[k|e|] evs];
      intros [= _ <-]; done.
Qed.

(** The buffered stream. *)
Section buffered.
Context {T : Type} `{AsyncDuplexLaws T} (fuel : nat).

Definition bw_same (s s' : AsyncBufStream T) : Prop :=
  bs_write s' = bs_write s /\ w_same (bs_inner s) (bs_inner s').
Definition br_same (s s' : AsyncBufStream T) : Prop :=
  bs_read s' = bs_read s /\ r_same (bs_inner s) (bs_inner s').

#[export] Instance bw_same_preorder : PreOrder bw_same.
Proof.
  split; [by intros s|]. intros s1 s2 s3 [E12 H12] [E23 H23]. split; [congruence|by transitivity (bs_inner s2)].
Qed.
#[export] Instance br_same_preorder : PreOrder br_same.
Proof.
  split; [by intros s|]. intros s1 s2 s3 [E12 H12] [E23 H23]. split; [congruence|by transitivity (bs_inner s2)].
Qed.

Lemma buf_read_keeps n : io_keeps bw_same (async_read (T := AsyncBufStream T) n).
Proof.
  intros s r s'. unfold async_read; simpl. unfold AsyncBufStream_read, read_buffered.
  destruct (_ <? _)%nat; [by intros [= _ <-]|]. destruct (_ <=? _)%nat.
  - destruct (async_read n (bs_inner s)) as [q t] eqn:E. intros [= _ <-]. split; [done|]. by eapply duplex_read.
  - destruct (async_read _ (bs_inner s)) as [[[bs|e]|] t] eqn:E; intros [= _ <-]; (split; [done|]);
      by eapply duplex_read.
Qed.

Lemma buf_flush_keeps (w : AsyncBufWrite) (t : T) r w' t' :
  buf_flush fuel (w, t) = (r, (w', t')) -> r_same t t'.
Proof.
  unfold buf_flush. destruct (_ <? _)%nat; [|by intros [= _ _ <-]].
  destruct (write_all fuel _ t) as [[[[]|e]|] t1] eqn:E; intros [= _ _ <-];
    (eapply write_all_keeps in E; [done|apply _|apply duplex_write]).
Qed.

Lemma buf_write_keeps buf : io_keeps br_same (AsyncBufStream_write fuel buf).
Proof.
  intros s r s'. unfold AsyncBufStream_write, write_buffered. cbn [fst].
  destruct (_ <=? _)%nat.
  - destruct (buf_flush fuel (bs_write s, bs_inner s)) as [[[[]|e]|] [w t]] eqn:E; apply buf_flush_keeps in E;
      [|by intros [= _ <-]..].
    destruct (async_write buf t) as [q t1] eqn:E1. intros [= _ <-]. split; [done|]. transitivity t; [done|].
    by eapply duplex_write.
  - destruct (_ <? _)%nat; [|by intros [= _ <-]].
    destruct (buf_flush fuel (bs_write s, bs_inner s)) as [[[[]|e]|] [w t]] eqn:E; apply buf_flush_keeps in E;
      by intros [= _ <-].
Qed.

Lemma stream_flush_keeps : io_keeps br_same (AsyncBufStream_flush fuel).
Proof.
  intros s r s'. unfold AsyncBufStream_flush.
  destruct (buf_flush fuel (bs_write s, bs_inner s)) as [q [w t]] eqn:E. intros [= _ <-].
  split; [done|]. by eapply buf_flush_keeps.
Qed.
End buffered.

(** ** The operations of the TCP server *)

(** Reading keeps every relation between streams that a read keeps. *)
Section reading.
Context {T : Type} `{AsyncRead T} (B : Type) `{IoBuffer B} (fuel : nat).
Variable Rel : relation (AsyncBufStream T).
Context `{!PreOrder Rel}.
Hypothesis Hread : forall n, io_keeps Rel (async_read (T := AsyncBufStream T) n).

Definition srv_rel (s s' : TcpServer T) : Prop := ts_config s' = ts_config s /\ Rel (ts_stream s) (ts_stream s').

#[export] Instance srv_rel_preorder : PreOrder srv_rel.
Proof.
  split; [by intros s|]. intros s1 s2 s3 [E12 H12] [E23 H23]. split; [congruence|by transitivity (ts_stream s2)].
Qed.

Lemma srv_put_keeps {E} f :
  (forall s, ts_config (f s) = ts_config s /\ ts_stream (f s) = ts_stream s) ->
  run_keeps srv_rel (run_put (E := E) f).
Proof. intros Hf. apply run_keeps_put. intros s. destruct (Hf s) as [E1 E2]. split; [done|]. by rewrite E2. Qed.

Lemma srv_read_keeps n : run_keeps srv_rel (srv_read fuel n).
Proof.
  intros s r s' E. unfold srv_read in E. revert E. eapply run_keeps_io; [|done].
  by apply io_keeps_timeout, read_exact_keeps.
Qed.

Lemma srv_read_header_keeps cancel : run_keeps srv_rel (srv_read_header fuel cancel).
Proof.
  intros s r s'. unfold srv_read_header, cancellable.
  destruct (read_exact fuel RPC_REQ_HEADER_LEN (ts_stream s)) as [q st] eqn:E.
  assert (Rel (ts_stream s) st) as Hk by (by eapply read_exact_keeps).
  destruct q as [[bs|e]|]; [by intros [= _ <-]..|]. destruct cancel; by intros [= _ <-].
Qed.

Hint Resolve srv_read_keeps srv_read_header_keeps : keeps.
Hint Extern 1 (run_keeps _ (run_put _)) => by apply srv_put_keeps : keeps.

Lemma read_body_keeps h :
  run_keeps srv_rel (srv_read_action fuel h) /\ run_keeps srv_rel (srv_read_msg fuel h)
  /\ run_keeps srv_rel (srv_read_blob B fuel h).
Proof. unfold srv_read_action, srv_read_msg, srv_read_blob. split_and!; run_keep. Qed.

Lemma read_req_keeps cancel : run_keeps srv_rel (TcpServer_read_req B fuel cancel).
Proof. unfold TcpServer_read_req. run_keep; apply read_body_keeps. Qed.
End reading.

(** Writing keeps every relation that writes and flushes keep. *)
Section writing.
Context {T : Type} `{AsyncRead T, AsyncWrite T} (fuel : nat) (stale : nat -> byte).
Variable Rel : relation (AsyncBufStream T).
Context `{!PreOrder Rel}.
Hypothesis Hwrite : forall buf, io_keeps Rel (AsyncBufStream_write fuel buf).
Hypothesis Hflush : io_keeps Rel (AsyncBufStream_flush fuel).

Lemma srv_write_keeps buf : run_keeps (srv_rel Rel) (srv_write fuel buf).
Proof.
  intros s r s' E. unfold srv_write in E. revert E. eapply run_keeps_io; [|done].
  by apply io_keeps_timeout, write_all_keeps.
Qed.

Lemma flush_resp_keeps : run_keeps (srv_rel Rel) (TcpServer_flush_resp fuel).
Proof.
  intros s r s' E. unfold TcpServer_flush_resp in E. revert E. eapply run_keeps_io; [|done].
  by apply io_keeps_timeout.
Qed.

Hint Resolve srv_write_keeps : keeps.
Hint Extern 1 (run_keeps _ (run_put _)) => by apply srv_put_keeps : keeps.

Lemma write_resp_keeps {C R} `{ServerTaskEncode C R} (c : C) (t : R) :
  run_keeps (srv_rel Rel) (TcpServer_write_resp fuel stale c t).
Proof. unfold TcpServer_write_resp. run_keep. Qed.

Lemma write_resp_internal_keeps seq err :
  run_keeps (srv_rel Rel) (TcpServer_write_resp_internal fuel stale seq err).
Proof. unfold TcpServer_write_resp_internal. run_keep. Qed.
End writing.

(** What the writer has written stays written while the reader reads. *)
Lemma read_req_writable {T} `{AsyncDuplexLaws T} (B : Type) `{IoBuffer B} fuel cancel s r s' :
  srv_can_write fuel s -> TcpServer_read_req B fuel cancel s = (r, s') ->
  srv_can_write fuel s' /\ srv_out fuel s' = srv_out fuel s
  /\ outgoing (bs_inner (ts_stream s')) = outgoing (bs_inner (ts_stream s)).
Proof.
  intros [(Hw & Hi & Hl) Hr] E.
  apply (read_req_keeps B fuel bw_same buf_read_keeps) in E as [_ [Ew Hs]].
  destruct (Hs Hi) as (Hi' & Ho & Hr'). unfold srv_can_write, srv_out; simpl. rewrite Ew, Ho. auto.
Qed.

(** What is left to read only gets less. *)
Section shrinking.
Context {S : Type} `{AsyncReadLaws S}.

Definition r_shrinks (t t' : S) : Prop := r_inv t -> r_inv t' /\ length (incoming t') <= length (incoming t).

#[export] Instance r_shrinks_preorder : PreOrder r_shrinks.
Proof.
  split; [by intros t Hi|]. intros t1 t2 t3 H12 H23 Hi. destruct (H12 Hi) as (Hi2 & ?).
  destruct (H23 Hi2) as (? & ?). split; [done|lia].
Qed.

Lemma read_shrinks n : io_keeps r_shrinks (async_read n).
Proof.
  intros t r t' E Hi. destruct r as [[bs|e]|].
  - apply read_ok in E as (_ & Hin & Hi' & _); [|done]. split; [done|]. rewrite Hin, length_app. lia.
  - by apply read_not_ok in E as (-> & Hi' & _).
  - by apply read_not_ok in E as (-> & Hi' & _).
Qed.
End shrinking.
