(* ===== verification/ServerLife.v ===== *)
(** * stream/src/server/server.rs: the life of a server

    Listening, the accept loops, the coroutines of every connection, and
    [close] as a state machine.  A connection has a reader, a writer, the
    channel between them and the requests its handlers work on; each of these
    holds the references that the program's [Arc]s and channel senders count.
    [server_step] is one atomic step, of an accept loop, of a coroutine, of a
    handler, of the peer, or [close].  The transport is the [ServerTransport]
    interface; what the machine needs of it is [ServerTransportLaws].

    A panic ends the coroutine it happens in, as it does for a spawned future. *)

From S2P Require Import Prelude RustStd Errors Config Task ClientTaskMacro Buffer Proto BufIO.
From S2P Require Import Sock Parser ServerTask TcpServer Timer TcpClient EndToEnd Server.

(** ** State *)

Inductive reader_st :=
| Reading                        (* awaiting [read_req] *)
| Dispatching (req : RpcSvrReq)  (* awaiting [dispatch_req] *)
| ReaderGone.

Inductive writer_st :=
| Receiving                      (* awaiting the channel *)
| Draining                       (* in the inner loop, output not flushed *)
| WriterGone (failed : bool).

#[export] Instance reader_st_eq_dec : EqDecision reader_st.
Proof. solve_decision. Defined.
#[export] Instance writer_st_eq_dec : EqDecision writer_st.
Proof. solve_decision. Defined.

(** The last four fields are history: the requests dispatched, those answered
    by their handler, those dropped by it, and everything put into the channel
    and taken from it to be written. *)
Record connection (R P : Type) := mkConn {
  cn_conn : P;
  cn_reader : reader_st;
  cn_tasks : list RpcSvrReq;     (* with their handlers, each holding a [RespNoti] *)
  cn_chan : list (resp_msg R);
  cn_writer : writer_st;
  cn_reqs : list RpcSvrReq;
  cn_answered : list (RpcSvrReq * R);
  cn_dropped : list RpcSvrReq;
  cn_sent : list (resp_msg R);
  cn_written : list (resp_msg R);
}.
Arguments mkConn {R P}.
Arguments cn_conn {R P}.
Arguments cn_reader {R P}.
Arguments cn_tasks {R P}.
Arguments cn_chan {R P}.
Arguments cn_writer {R P}.
Arguments cn_reqs {R P}.
Arguments cn_answered {R P}.
Arguments cn_dropped {R P}.
Arguments cn_sent {R P}.
Arguments cn_written {R P}.

(** A server with its coroutines: per listener whether its accept loop still
    runs, and every connection accepted so far. *)
Record server_run (R P : Type) := mkRun {
  sr_server : RpcServer;
  sr_accepting : list bool;
  sr_conns : list (connection R P);
}.
Arguments mkRun {R P}.
Arguments sr_server {R P}.
Arguments sr_accepting {R P}.
Arguments sr_conns {R P}.

(** ** A connection *)

Section connection.
Context {C R P : Type} `{!ServerTransport C R P} (codec : C).
Implicit Types c : connection R P.

Definition put_cn (p : P) c : connection R P :=
  mkConn p (cn_reader c) (cn_tasks c) (cn_chan c) (cn_writer c) (cn_reqs c) (cn_answered c)
    (cn_dropped c) (cn_sent c) (cn_written c).
Definition put_reader (r : reader_st) c : connection R P :=
  mkConn (cn_conn c) r (cn_tasks c) (cn_chan c) (cn_writer c) (cn_reqs c) (cn_answered c)
    (cn_dropped c) (cn_sent c) (cn_written c).
Definition put_writer (w : writer_st) c : connection R P :=
  mkConn (cn_conn c) (cn_reader c) (cn_tasks c) (cn_chan c) w (cn_reqs c) (cn_answered c)
    (cn_dropped c) (cn_sent c) (cn_written c).

(** Messages into the channel. *)
Definition push (ms : list (resp_msg R)) c : connection R P :=
  mkConn (cn_conn c) (cn_reader c) (cn_tasks c) (cn_chan c ++ ms) (cn_writer c) (cn_reqs c)
    (cn_answered c) (cn_dropped c) (cn_sent c ++ ms) (cn_written c).

(** [server_conn]: the two coroutines of a new connection. *)
Definition server_conn (p : P) : connection R P := mkConn p Reading [] [] Receiving [] [] [] [] [].

(** The receiver of the channel lives in the writer. *)
Definition rx_alive c : bool := match cn_writer c with WriterGone _ => false | _ => true end.

(** The senders: the reader's and one per task. *)
Definition tx_alive c : bool :=
  match cn_reader c, cn_tasks c with ReaderGone, [] => false | _, _ => true end.

(** [send_quick_resp]: the reader gives up when the writer is gone. *)
Definition send_quick_resp (seq : Z) (err : option RpcIntErr) c : connection R P :=
  match RespNoti_send_err (rx_alive c) seq err with
  | (Ok _, ms) => push ms (put_reader Reading c)
  | (Err _, ms) => push ms (put_reader ReaderGone c)
  end.

(** The body of the reader's loop, up to the await of [dispatch_req]. *)
Definition on_request (req : RpcSvrReq) c : connection R P :=
  if is_ping req then send_quick_resp (sq_seq req) None c
  else
    mkConn (cn_conn c) (Dispatching req) (cn_tasks c ++ [req]) (cn_chan c) (cn_writer c)
      (cn_reqs c ++ [req]) (cn_answered c) (cn_dropped c) (cn_sent c) (cn_written c).

Definition on_read (close_rx : poll unit) c : option (connection R P) :=
  match cn_reader c with
  | Reading =>
      match st_read_req close_rx (cn_conn c) with
      | (Done (Ok req), p) => Some (on_request req (put_cn p c))
      | (Done (Err _), p) => Some (put_reader ReaderGone (put_cn p c))
      | (Panicked, p) => Some (put_reader ReaderGone (put_cn p c))
      | (Waiting, _) => None
      end
  | _ => None
  end.

(** [dispatch_req] returned. *)
Definition on_dispatched (r : result unit unit) c : option (connection R P) :=
  match cn_reader c with
  | Dispatching req =>
      Some (if is_err r then send_quick_resp (sq_seq req) (Some Decode) c else put_reader Reading c)
  | _ => None
  end.

(** The handler of task [j] answers ([RespNoti::done]), or drops it. *)
Definition on_answer (j : nat) (t : R) c : option (connection R P) :=
  match cn_tasks c !! j with
  | None => None
  | Some req =>
      Some (push (RespNoti_done (rx_alive c) t)
        (mkConn (cn_conn c) (cn_reader c) (delete j (cn_tasks c)) (cn_chan c) (cn_writer c)
           (cn_reqs c) (cn_answered c ++ [(req, t)]) (cn_dropped c) (cn_sent c) (cn_written c)))
  end.

Definition on_drop (j : nat) c : option (connection R P) :=
  match cn_tasks c !! j with
  | None => None
  | Some req =>
      Some (mkConn (cn_conn c) (cn_reader c) (delete j (cn_tasks c)) (cn_chan c) (cn_writer c)
              (cn_reqs c) (cn_answered c) (cn_dropped c ++ [req]) (cn_sent c) (cn_written c))
  end.

(** The writer is gone with the receiver: what is in the channel is lost. *)
Definition writer_exit (failed : bool) (p : P) c : connection R P :=
  mkConn p (cn_reader c) (cn_tasks c) [] (WriterGone failed) (cn_reqs c) (cn_answered c)
    (cn_dropped c) (cn_sent c) (cn_written c).

(** The writer takes a message and writes it. *)
Definition on_write c : option (connection R P) :=
  if rx_alive c then
    match cn_chan c with
    | [] => None
    | m :: rest =>
        match process codec m (cn_conn c) with
        | (Done (Ok _), p) =>
            Some (mkConn p (cn_reader c) (cn_tasks c) rest Draining (cn_reqs c) (cn_answered c)
                    (cn_dropped c) (cn_sent c) (cn_written c ++ [m]))
        | (Done (Err _), p) => Some (writer_exit true p c)
        | (Panicked, p) => Some (writer_exit true p c)
        | (Waiting, _) => None
        end
    end
  else None.

(** [try_recv] found nothing: flush. *)
Definition on_flush_resp c : option (connection R P) :=
  match cn_writer c, cn_chan c with
  | Draining, [] =>
      match st_flush_resp (cn_conn c) with
      | (Done (Ok _), p) => Some (put_writer Receiving (put_cn p c))
      | (Done (Err _), p) => Some (writer_exit true p c)
      | (Panicked, p) => Some (writer_exit true p c)
      | (Waiting, _) => None
      end
  | _, _ => None
  end.

(** [recv] found the channel empty and without senders: close and exit. *)
Definition on_disconnected c : option (connection R P) :=
  match cn_writer c, cn_chan c with
  | Receiving, [] =>
      if tx_alive c then None
      else
        match st_close_conn (cn_conn c) with
        | (Done _, p) => Some (writer_exit false p c)
        | (Panicked, p) => Some (writer_exit true p c)
        | (Waiting, _) => None
        end
  | _, _ => None
  end.

Inductive conn_op :=
| CoRead
| CoDispatched (r : result unit unit)
| CoAnswer (j : nat) (t : R)
| CoDropTask (j : nat)
| CoWrite
| CoFlush
| CoDisconnected
| CoPeer (f : P -> P).           (* data arrives, or the connection breaks *)

Definition conn_step (close_rx : poll unit) (o : conn_op) c : option (connection R P) :=
  match o with
  | CoRead => on_read close_rx c
  | CoDispatched r => on_dispatched r c
  | CoAnswer j t => on_answer j t c
  | CoDropTask j => on_drop j c
  | CoWrite => on_write c
  | CoFlush => on_flush_resp c
  | CoDisconnected => on_disconnected c
  | CoPeer f => Some (put_cn (f (cn_conn c)) c)
  end.

(** The connection object is held by its two coroutines. *)
Definition conn_held c : bool :=
  match cn_reader c, cn_writer c with ReaderGone, WriterGone _ => false | _, _ => true end.
End connection.

(** ** The server *)

Section server.
Context {C R P T : Type} `{!ServerTransport C R P} (codec : C).
(** [ServerTransport::new_conn]; [None] is a panic. *)
Variable new_conn : T -> ServerConfig -> option P.
Implicit Types s : server_run R P.

Inductive server_op :=
| SvListen (bound : io_result (io_result bytes))
| SvAccept (i : nat) (r : io_result T)
| SvAborted (i : nat)
| SvClose
| SvConn (k : nat) (o : conn_op (R := R) (P := P)).

Definition server_start (config : ServerConfig) : server_run R P := mkRun (RpcServer_new config) [] [].

(** The receiver of the close channel that every reader has. *)
Definition server_close_rx s : poll unit :=
  if rs_close_tx (sr_server s) then Pending else Ready ().

(** The accept loop ends on an error. *)
Definition on_accept (i : nat) (r : io_result T) s : server_run R P :=
  let stopped := mkRun (sr_server s) (<[i := false]> (sr_accepting s)) (sr_conns s) in
  match r with
  | Err _ => stopped
  | Ok stream =>
      match new_conn stream (rs_config (sr_server s)) with
      | None => stopped
      | Some p => mkRun (sr_server s) (sr_accepting s) (sr_conns s ++ [server_conn p])
      end
  end.

Definition server_step (o : server_op) s : option (server_run R P) :=
  match o with
  | SvListen bound =>
      let '(r, srv) := RpcServer_listen bound (sr_server s) in
      Some (mkRun srv (if is_ok r then sr_accepting s ++ [true] else sr_accepting s) (sr_conns s))
  | SvAccept i r =>
      match sr_accepting s !! i, rs_listeners (sr_server s) !! i with
      | Some true, Some false => Some (on_accept i r s)
      | _, _ => None
      end
  | SvAborted i =>
      match sr_accepting s !! i, rs_listeners (sr_server s) !! i with
      | Some true, Some true =>
          Some (mkRun (sr_server s) (<[i := false]> (sr_accepting s)) (sr_conns s))
      | _, _ => None
      end
  | SvClose => Some (mkRun (RpcServer_stop (sr_server s)) (sr_accepting s) (sr_conns s))
  | SvConn k o =>
      match sr_conns s !! k with
      | None => None
      | Some c =>
          match conn_step codec (server_close_rx s) o c with
          | None => None
          | Some c => Some (mkRun (sr_server s) (sr_accepting s) (<[k := c]> (sr_conns s)))
          end
      end
  end.

Fixpoint server_steps (ops : list server_op) s : option (server_run R P) :=
  match ops with
  | [] => Some s
  | o :: ops => match server_step o s with None => None | Some s => server_steps ops s end
  end.

(** [get_alive_conn]: the clones of [conn_ref_count] but the server's own, one
    per accept loop and one per connection. *)
Definition get_alive_conn s : Z :=
  Z.of_nat (length (filter (fun b => b = true) (sr_accepting s))
            + length (filter (fun c => conn_held c = true) (sr_conns s))).
End server.

(** ** What the machine needs of a transport *)

(** Writing: [st_out] is what was written so far, [st_wire] what the peer can
    see of it; reading does not disturb it. *)
Class ServerTransportLaws (C R P : Type) `{!ServerTransport C R P} (codec : C) := {
  st_frame : resp_msg R -> bytes -> Prop;
  st_good : P -> Prop;
  st_out : P -> bytes;
  st_wire : P -> bytes;
  st_quick seq err : exists bs, st_frame (Err (seq, err)) bs;
  st_processes m bs p :
    st_good p -> st_frame m bs ->
    exists p', process codec m p = (Done (Ok ()), p') /\ st_good p' /\ st_out p' = st_out p ++ bs;
  st_flushes p :
    st_good p ->
    exists p', st_flush_resp p = (Done (Ok ()), p') /\ st_good p' /\ st_out p' = st_out p
      /\ st_wire p' = st_out p;
  st_closes p :
    st_good p -> exists p', st_close_conn p = (Done (), p') /\ st_wire p' = st_out p;
  st_reads close p r p' :
    st_good p -> st_read_req close p = (r, p') ->
    st_good p' /\ st_out p' = st_out p /\ st_wire p' = st_wire p;
}.

(** Ending: once the close channel is dropped no operation waits for ever, and
    the requests that can still be read are finitely many. *)
Class ServerTransportLive (C R P : Type) `{!ServerTransport C R P} (codec : C) := {
  st_live : P -> Prop;
  st_todo : P -> nat;
  live_read p :
    st_live p ->
    exists r p', st_read_req (Ready ()) p = (r, p') /\ r <> Waiting /\ st_live p'
      /\ st_todo p' <= st_todo p /\ (forall req, r = Done (Ok req) -> st_todo p' < st_todo p);
  live_process m p :
    st_live p ->
    exists r p', process codec m p = (r, p') /\ r <> Waiting /\ st_live p' /\ st_todo p' <= st_todo p;
  live_flush p :
    st_live p ->
    exists r p', st_flush_resp p = (r, p') /\ r <> Waiting /\ st_live p' /\ st_todo p' <= st_todo p;
  live_close p : st_live p -> exists r p', st_close_conn p = (r, p') /\ r <> Waiting /\ st_live p'
    /\ st_todo p' <= st_todo p;
}.

(** ** Invariants *)

Section inv.
Context {C R P : Type} `{!ServerTransport C R P} (codec : C).
Implicit Types c : connection R P.

(** The task of a message. *)
Definition resp_task (m : resp_msg R) : option R := match m with Ok t => Some t | Err _ => None end.

(** The books of a connection: every request is with its handler, answered or
    dropped; the answers are in the channel in order; while there is a writer the channel is what was sent and not yet
    written; a writer that exits by itself has written everything, and nobody
    is left to send more. *)
Record conn_inv c : Prop := {
  iv_reqs : cn_reqs c ≡ₚ cn_tasks c ++ (cn_answered c).*1 ++ cn_dropped c;
  iv_answers : cn_writer c <> WriterGone true -> omap resp_task (cn_sent c) = (cn_answered c).*2;
  iv_chan : rx_alive c = true -> cn_sent c = cn_written c ++ cn_chan c;
  iv_gone : rx_alive c = false -> cn_chan c = [] /\ cn_written c `prefix_of` cn_sent c;
  iv_clean : cn_writer c = WriterGone false -> tx_alive c = false /\ cn_sent c = cn_written c;
}.

Lemma server_conn_inv p : conn_inv (server_conn p).
Proof. by split. Qed.

(** Steps that leave the books alone. *)
Lemma conn_inv_same c c' :
  cn_tasks c' = cn_tasks c -> cn_chan c' = cn_chan c -> cn_writer c' = cn_writer c ->
  cn_reqs c' = cn_reqs c -> cn_answered c' = cn_answered c -> cn_dropped c' = cn_dropped c ->
  cn_sent c' = cn_sent c -> cn_written c' = cn_written c ->
  (tx_alive c = false -> tx_alive c' = false) -> conn_inv c -> conn_inv c'.
Proof.
  intros E1 E2 E3 E4 E5 E6 E7 E8 Htx [H1 H0 H2 H3 H4].
  split; unfold rx_alive in *; rewrite ?E1, ?E2, ?E3, ?E4, ?E5, ?E6, ?E7, ?E8; try done.
  intros Hg. destruct (H4 Hg) as [? ?]. auto.
Qed.

(** Messages sent by somebody who holds a sender. *)
Lemma push_inv ms c :
  cn_reqs c ≡ₚ cn_tasks c ++ (cn_answered c).*1 ++ cn_dropped c ->
  (cn_writer c <> WriterGone true -> omap resp_task (cn_sent c ++ ms) = (cn_answered c).*2) ->
  (rx_alive c = true -> cn_sent c = cn_written c ++ cn_chan c) ->
  (rx_alive c = false -> cn_chan c = [] /\ cn_written c `prefix_of` cn_sent c) ->
  cn_writer c <> WriterGone false -> (rx_alive c = false -> ms = []) ->
  conn_inv (push ms c).
Proof.
  intros H1 H0 H2 H3 H4 Hms. split; simpl; try done.
  - intros Ha. rewrite (H2 Ha). by rewrite app_assoc.
  - intros Ha. rewrite (Hms Ha), !app_nil_r. auto.
Qed.

Lemma reader_not_clean c : conn_inv c -> cn_reader c <> ReaderGone -> cn_writer c <> WriterGone false.
Proof.
  intros Hi Hr Hw. destruct (iv_clean c Hi Hw) as [Htx _]. unfold tx_alive in Htx.
  by destruct (cn_reader c).
Qed.

Lemma task_not_clean c j req : conn_inv c -> cn_tasks c !! j = Some req -> cn_writer c <> WriterGone false.
Proof.
  intros Hi Hj Hw. destruct (iv_clean c Hi Hw) as [Htx _]. unfold tx_alive in Htx.
  by destruct (cn_reader c), (cn_tasks c).
Qed.

(** The reader of a connection whose writer did not exit by itself moves on. *)
Lemma put_reader_inv r p c :
  conn_inv c -> cn_writer c <> WriterGone false -> conn_inv (put_reader r (put_cn p c)).
Proof. intros [H1 H0 H2 H3 H4] Hw. by split. Qed.

Lemma send_quick_resp_inv seq err c :
  conn_inv c -> cn_writer c <> WriterGone false -> conn_inv (send_quick_resp seq err c).
Proof.
  intros [H1 H0 H2 H3 H4] Hw. unfold send_quick_resp, RespNoti_send_err.
  destruct (rx_alive c) eqn:Ha in |- *; apply push_inv; try done; cbn [put_reader cn_sent cn_writer cn_answered].
  - intros Hg. by rewrite omap_app, app_nil_r, H0.
  - intros Hf. change (rx_alive c = false) in Hf. congruence.
  - by rewrite app_nil_r.
Qed.

Lemma rx_alive_there c b : rx_alive c = true -> cn_writer c <> WriterGone b.
Proof. unfold rx_alive. intros Ha E. by rewrite E in Ha. Qed.

Lemma writer_exit_inv failed p c :
  conn_inv c -> rx_alive c = true -> (failed = false -> tx_alive c = false /\ cn_chan c = []) ->
  conn_inv (writer_exit failed p c).
Proof.
  intros [H1 H0 H2 H3 H4] Ha Hf. pose proof (rx_alive_there c true Ha) as Hw. split; simpl; try done.
  - intros _. by apply H0.
  - intros _. split; [done|]. rewrite H2 by done. by apply prefix_app_r.
  - intros [= ->]. destruct (Hf eq_refl) as [Htx Hc]. rewrite H2, Hc, app_nil_r by done. done.
Qed.

Lemma conn_step_inv close_rx o c c' :
  conn_inv c -> conn_step codec close_rx o c = Some c' -> conn_inv c'.
Proof.
  intros Hi. destruct o as [|r|j t|j| | | |f]; cbn [conn_step].
  - unfold on_read. destruct (cn_reader c) eqn:Er; [|done..].
    pose proof (reader_not_clean c Hi ltac:(by rewrite Er)) as Hw.
    destruct (st_read_req close_rx (cn_conn c)) as [[[req|e]| |] p]; intros [= <-];
      [|by apply put_reader_inv..].
    unfold on_request. destruct (is_ping req).
    + apply send_quick_resp_inv; [|done]. pose proof Hi as [H1 H0 H2 H3 H4]. by split.
    + destruct Hi as [H1 H0 H2 H3 H4]. split; simpl; try done. rewrite H1. solve_Permutation.
  - unfold on_dispatched. destruct (cn_reader c) eqn:Er; [done| |done].
    pose proof (reader_not_clean c Hi ltac:(by rewrite Er)) as Hw. intros [= <-].
    destruct (is_err r); [by apply send_quick_resp_inv|by apply (put_reader_inv Reading (cn_conn c))].
  - unfold on_answer. destruct (cn_tasks c !! j) as [req|] eqn:Ej; [|done]. intros [= <-].
    pose proof (task_not_clean c j req Hi Ej) as Hw.
    destruct Hi as [H1 H0 H2 H3 H4]. apply push_inv; simpl; try done.
    2:{ intros Hg. rewrite omap_app, H0, fmap_app by done. f_equal. unfold RespNoti_done, rx_alive.
        by destruct (cn_writer c) as [| |[]]. }
    2:{ unfold rx_alive, RespNoti_done; simpl. by intros ->. }
    rewrite fmap_app, H1. rewrite (delete_Permutation _ j req Ej) at 1. solve_Permutation.
  - unfold on_drop. destruct (cn_tasks c !! j) as [req|] eqn:Ej; [|done]. intros [= <-].
    pose proof (task_not_clean c j req Hi Ej) as Hw.
    destruct Hi as [H1 H0 H2 H3 H4]. split; simpl; try done.
    rewrite H1. rewrite (delete_Permutation _ j req Ej) at 1. solve_Permutation.
  - unfold on_write. destruct (rx_alive c) eqn:Ha; [|done]. destruct (cn_chan c) as [|m rest] eqn:Ec; [done|].
    destruct (process codec m (cn_conn c)) as [[[[]|e]| |] p]; intros [= <-]; [|by apply writer_exit_inv..].
    pose proof (rx_alive_there c true Ha) as Hw. destruct Hi as [H1 H0 H2 H3 H4].
    split; simpl; try done; [by intros _; apply H0|]. intros _. by rewrite H2, Ec, <- app_assoc.
  - unfold on_flush_resp. destruct (cn_writer c) eqn:Ew, (cn_chan c) eqn:Ec; try done.
    assert (rx_alive c = true) as Ha by (unfold rx_alive; by rewrite Ew).
    destruct (st_flush_resp (cn_conn c)) as [[[[]|e]| |] p]; intros [= <-]; [|by apply writer_exit_inv..].
    pose proof (rx_alive_there c true Ha) as Hw. destruct Hi as [H1 H0 H2 H3 H4].
    split; simpl; try done; intros _; [by apply H0|by apply H2].
  - unfold on_disconnected. destruct (cn_writer c) eqn:Ew, (cn_chan c) eqn:Ec; try done.
    destruct (tx_alive c) eqn:Et; [done|].
    assert (rx_alive c = true) as Ha by (unfold rx_alive; by rewrite Ew).
    destruct (st_close_conn (cn_conn c)) as [[u| |] p]; intros [= <-]; by apply writer_exit_inv.
  - intros [= <-]. by eapply conn_inv_same; [..|exact Hi].
Qed.
End inv.

(** ** What reaches the peer *)

Section wire.
Context {C R P : Type} `{!ServerTransport C R P} (codec : C) `{!ServerTransportLaws C R P codec}.
Implicit Types c : connection R P.

(** The frames of messages, one after the other. *)
Inductive msg_frames : list (resp_msg R) -> bytes -> Prop :=
| msg_frames_nil : msg_frames [] []
| msg_frames_cons m bs ms rest :
    st_frame (codec := codec) m bs -> msg_frames ms rest -> msg_frames (m :: ms) (bs ++ rest).

Definition framed (m : resp_msg R) : Prop := exists bs, st_frame (codec := codec) m bs.

Lemma msg_frames_snoc ms out m bs :
  msg_frames ms out -> st_frame m bs -> msg_frames (ms ++ [m]) (out ++ bs).
Proof.
  intros Hf Hm. induction Hf as [|m' bs' ms rest Hm' _ IH]; simpl.
  - rewrite <- (app_nil_r bs). by constructor; [|constructor].
  - rewrite <- app_assoc. by constructor.
Qed.

(** The writer has not failed; what it wrote is in the stream, and with the
    peer when it waits or has exited. *)
Record conn_wire c : Prop := {
  wi_framed : Forall framed (cn_chan c);
  wi_ok : cn_writer c <> WriterGone true;
  wi_good : rx_alive c = true -> st_good (codec := codec) (cn_conn c) /\ msg_frames (cn_written c) (st_out (cn_conn c));
  wi_wire : cn_writer c <> Draining -> msg_frames (cn_written c) (st_wire (codec := codec) (cn_conn c));
}.

(** A connection the transport hands over with nothing written. *)
Definition fresh_conn (p : P) : Prop :=
  st_good (codec := codec) p /\ st_out (codec := codec) p = [] /\ st_wire (codec := codec) p = [].

(** What handlers answer can be framed; the peer does not undo what was sent. *)
Definition conn_op_ok (o : conn_op (R := R) (P := P)) : Prop :=
  match o with
  | CoAnswer _ t => framed (Ok t)
  | CoPeer f => forall p, (st_good (codec := codec) p -> st_good (codec := codec) (f p))
      /\ st_out (codec := codec) (f p) = st_out (codec := codec) p
      /\ st_wire (codec := codec) (f p) = st_wire (codec := codec) p
  | _ => True
  end.

Lemma server_conn_wire p : fresh_conn p -> conn_wire (server_conn p).
Proof.
  intros (Hg & Ho & Hw). split; simpl; [constructor|done|..].
  - intros _. rewrite Ho. split; [done|constructor].
  - intros _. rewrite Hw. constructor.
Qed.

(** A step that leaves the writer and its history alone. *)
Lemma conn_wire_same c c' :
  conn_wire c -> cn_writer c' = cn_writer c -> cn_written c' = cn_written c -> Forall framed (cn_chan c') ->
  (rx_alive c = true -> st_good (codec := codec) (cn_conn c') /\ st_out (codec := codec) (cn_conn c') = st_out (cn_conn c)) ->
  st_wire (codec := codec) (cn_conn c') = st_wire (codec := codec) (cn_conn c) ->
  conn_wire c'.
Proof.
  intros [H1 H2 H3 H4] Ew Ewr Hch Hg Hwire. assert (rx_alive c' = rx_alive c) as Ea by (unfold rx_alive; by rewrite Ew).
  split; rewrite ?Ew, ?Ewr, ?Ea; try done.
  - intros Ha. destruct (Hg Ha) as [Hg' ->]. split; [done|]. by apply H3.
  - intros Hd. rewrite Hwire. by apply H4.
Qed.

Lemma conn_wire_keep c c' :
  conn_wire c -> cn_conn c' = cn_conn c -> cn_writer c' = cn_writer c -> cn_written c' = cn_written c ->
  Forall framed (cn_chan c') -> conn_wire c'.
Proof.
  intros Hc Ec Ew Ewr Hch. apply (conn_wire_same c); rewrite ?Ec; try done.
  intros Ha. split; [by apply (wi_good c Hc)|done].
Qed.

Lemma send_quick_resp_wire seq err c : conn_wire c -> conn_wire (send_quick_resp seq err c).
Proof.
  intros Hc. unfold send_quick_resp, RespNoti_send_err.
  destruct (rx_alive c); apply (conn_wire_keep c); try done; simpl; rewrite ?app_nil_r; [|apply Hc].
  apply Forall_app. split; [apply Hc|]. constructor; [apply st_quick|constructor].
Qed.

Lemma conn_step_wire close_rx o c c' :
  conn_inv c -> conn_op_ok o -> conn_wire c -> conn_step codec close_rx o c = Some c' -> conn_wire c'.
Proof.
  intros Hi Ho Hc. destruct o as [|r|j t|j| | | |f]; cbn [conn_step].
  - unfold on_read. destruct (cn_reader c) eqn:Er; [|done..].
    pose proof (reader_not_clean c Hi ltac:(by rewrite Er)) as Hw.
    assert (rx_alive c = true) as Ha.
    { pose proof (wi_ok c Hc). unfold rx_alive. by destruct (cn_writer c) as [| |[]]. }
    destruct (wi_good c Hc Ha) as [Hg _].
    destruct (st_read_req close_rx (cn_conn c)) as [r p] eqn:Ep.
    apply (st_reads close_rx) in Ep as (Hg' & Ho' & Hw'); [|done].
    assert (forall rd, conn_wire (put_reader rd (put_cn p c))) as Hp.
    { intros rd. apply (conn_wire_same c); try done; simpl. apply Hc. }
    destruct r as [[req|e]| |]; intros [= <-]; [|by apply Hp..].
    unfold on_request. destruct (is_ping req).
    + apply send_quick_resp_wire. apply (Hp (cn_reader c)).
    + apply (conn_wire_keep _ _ (Hp Reading)); try done. apply Hc.
  - unfold on_dispatched. destruct (cn_reader c) eqn:Er; [done| |done]. intros [= <-].
    destruct (is_err r); [by apply send_quick_resp_wire|]. apply (conn_wire_keep c); try done. apply Hc.
  - unfold on_answer. destruct (cn_tasks c !! j) as [req|]; [|done]. intros [= <-].
    apply (conn_wire_keep c); try done; simpl. apply Forall_app. split; [apply Hc|].
    unfold RespNoti_done. destruct (rx_alive _); by repeat constructor.
  - unfold on_drop. destruct (cn_tasks c !! j) as [req|]; [|done]. intros [= <-].
    apply (conn_wire_keep c); try done. apply Hc.
  - unfold on_write. destruct (rx_alive c) eqn:Ha; [|done]. destruct (cn_chan c) as [|m rest] eqn:Ec; [done|].
    destruct Hc as [H1 H2 H3 _]. destruct (H3 Ha) as [Hg Hf]. rewrite Ec in H1.
    apply Forall_cons_1 in H1 as [[bs Hm] H1].
    destruct (st_processes m bs (cn_conn c) Hg Hm) as (p & -> & Hg' & Ho'). intros [= <-].
    split; simpl; try done. intros _. split; [done|]. rewrite Ho'. by apply msg_frames_snoc.
  - unfold on_flush_resp. destruct (cn_writer c) eqn:Ew, (cn_chan c) eqn:Ec; try done.
    destruct Hc as [H1 H2 H3 _]. destruct H3 as [Hg Hf]; [unfold rx_alive; by rewrite Ew|].
    destruct (st_flushes (cn_conn c) Hg) as (p & -> & Hg' & Ho' & Hw'). intros [= <-].
    split; simpl; rewrite ?Ho', ?Hw'; try done.
  - unfold on_disconnected. destruct (cn_writer c) eqn:Ew, (cn_chan c) eqn:Ec; try done.
    destruct (tx_alive c); [done|].
    destruct Hc as [H1 H2 H3 _]. destruct H3 as [Hg Hf]; [unfold rx_alive; by rewrite Ew|].
    destruct (st_closes (cn_conn c) Hg) as (p & -> & Hw'). intros [= <-].
    split; simpl; rewrite ?Hw'; try done.
  - intros [= <-]. destruct (Ho (cn_conn c)) as (Hg & Hout & Hwire). apply (conn_wire_same c); try done; [apply Hc|].
    intros Ha. split; [by apply Hg, (wi_good c Hc)|done].
Qed.
End wire.

(** A connection nobody holds is done. *)
Lemma conn_done {C R P} `{!ServerTransport C R P} (codec : C) `{!ServerTransportLaws C R P codec}
    (c : connection R P) :
  conn_inv c -> conn_wire codec c -> conn_held c = false ->
  cn_reader c = ReaderGone /\ cn_tasks c = [] /\ cn_reqs c ≡ₚ (cn_answered c).*1 ++ cn_dropped c
  /\ omap resp_task (cn_sent c) = (cn_answered c).*2
  /\ msg_frames codec (cn_sent c) (st_wire (codec := codec) (cn_conn c)).
Proof.
  intros [H1 H0 H2 H3 H4] Hw Hh. unfold conn_held in Hh.
  destruct (cn_reader c) eqn:Er; [done..|]. destruct (cn_writer c) as [| |[]] eqn:Ew; [done|done| |].
  - by destruct (wi_ok codec c Hw).
  - destruct (H4 eq_refl) as [Htx Hs]. unfold tx_alive in Htx. rewrite Er in Htx.
    destruct (cn_tasks c); [|done]. split; [done|]. split; [done|]. split; [done|]. split; [by apply H0|].
    rewrite Hs. apply (wi_wire codec c Hw). by rewrite Ew.
Qed.

(** ** Runs of a server *)

Section runs.
Context {C R P T : Type} `{!ServerTransport C R P} (codec : C) `{!ServerTransportLaws C R P codec}.
Variables (new_conn : T -> ServerConfig -> option P) (config : ServerConfig).
Implicit Types s : server_run R P.

Definition server_op_ok (o : server_op (R := R) (P := P) (T := T)) : Prop :=
  match o with
  | SvAccept _ (Ok stream) => forall p, new_conn stream config = Some p -> fresh_conn codec p
  | SvConn _ o => conn_op_ok codec o
  | _ => True
  end.

(** There is one accept loop per listener. *)
Record server_inv s : Prop := {
  sv_conns : Forall (fun c => conn_inv c /\ conn_wire codec c) (sr_conns s);
  sv_loops : length (sr_accepting s) = length (rs_listeners (sr_server s));
  sv_config : rs_config (sr_server s) = config;
}.

Lemma RpcServer_listen_loops bound srv r srv' :
  RpcServer_listen bound srv = (r, srv') ->
  rs_listeners srv' = rs_listeners srv ++ (if is_ok r then [false] else [])
  /\ rs_close_tx srv' = rs_close_tx srv /\ rs_config srv' = rs_config srv.
Proof.
  unfold RpcServer_listen. destruct bound as [[addr|e]|e]; [| |].
  - by intros [= <- <-].
  - destruct e; intros [= <- <-]; simpl; by rewrite ?app_nil_r.
  - intros [= <- <-]. simpl. by rewrite app_nil_r.
Qed.

Lemma server_step_inv o s s' :
  server_inv s -> server_op_ok o -> server_step codec new_conn o s = Some s' -> server_inv s'.
Proof.
  intros [Hc Hl Hf] Ho. destruct o as [bound|i r|i| |k o]; cbn [server_step].
  - destruct (RpcServer_listen bound (sr_server s)) as [r srv] eqn:E. intros [= <-].
    apply RpcServer_listen_loops in E as (E & _ & Ef). split; simpl; [done| |congruence]. rewrite E, length_app, <- Hl.
    destruct r; simpl; rewrite ?length_app; simpl; lia.
  - destruct (sr_accepting s !! i) as [[]|], (rs_listeners (sr_server s) !! i) as [[]|]; try done. intros [= <-].
    unfold on_accept. destruct r as [stream|e]; [|by split; simpl; rewrite ?length_insert]. rewrite Hf.
    destruct (new_conn stream _) as [p|] eqn:E; split; simpl; rewrite ?length_insert; try done.
    apply Forall_app. split; [done|]. constructor; [|constructor].
    split; [apply server_conn_inv|]. apply server_conn_wire. by eapply Ho.
  - destruct (sr_accepting s !! i) as [[]|], (rs_listeners (sr_server s) !! i) as [[]|]; try done. intros [= <-].
    by split; simpl; rewrite ?length_insert.
  - intros [= <-]. by split; simpl; rewrite ?length_fmap.
  - destruct (sr_conns s !! k) as [c|] eqn:Ek; [|done].
    destruct (conn_step codec (server_close_rx s) o c) as [c'|] eqn:E; [|done]. intros [= <-].
    split; [|done..]. simpl. destruct (Forall_lookup_1 _ _ _ _ Hc Ek) as [Hi Hw].
    apply Forall_insert; [done|]. split; [by eapply conn_step_inv|by eapply conn_step_wire].
Qed.

Lemma server_steps_inv ops s s' :
  server_inv s -> Forall server_op_ok ops -> server_steps codec new_conn ops s = Some s' -> server_inv s'.
Proof.
  intros Hs Hops. revert s Hs. induction Hops as [|o ops Ho _ IH]; intros s Hs; cbn [server_steps].
  - by intros [= <-].
  - destruct (server_step codec new_conn o s) as [s1|] eqn:E; [|done]. apply IH. by eapply server_step_inv.
Qed.

Lemma no_alive s :
  get_alive_conn s = 0%Z ->
  Forall (fun b => b = false) (sr_accepting s) /\ Forall (fun c => conn_held c = false) (sr_conns s).
Proof.
  unfold get_alive_conn. intros H. 
  assert (filter (fun b => b = true) (sr_accepting s) = []) as H1 by (apply nil_length_inv; lia).
  assert (filter (fun c => conn_held c = true) (sr_conns s) = []) as H2 by (apply nil_length_inv; lia).
  split; apply list.Forall_forall.
  - intros b Hb. destruct b; [|done]. exfalso. apply (not_elem_of_nil true). rewrite <- H1.
    by apply list_elem_of_filter.
  - intros c Hc. destruct (conn_held c) eqn:E; [|done]. exfalso. apply (not_elem_of_nil c). rewrite <- H2.
    by apply list_elem_of_filter.
Qed.
End runs.

(** ** Closing comes to an end *)

Section ending.
Context {C R P T : Type} `{!ServerTransport C R P} (codec : C) `{!ServerTransportLive C R P codec}.
Variable new_conn : T -> ServerConfig -> option P.
Implicit Types (c : connection R P) (s : server_run R P).

Definition reader_weight (r : reader_st) : nat := match r with Reading => 1 | Dispatching _ => 5 | ReaderGone => 0 end.
Definition writer_weight (w : writer_st) : nat := match w with Receiving => 1 | Draining => 2 | WriterGone _ => 0 end.

(** What a connection still has to do. *)
Definition conn_work c : nat :=
  10 * st_todo (codec := codec) (cn_conn c) + reader_weight (cn_reader c) + 4 * length (cn_tasks c)
  + 3 * length (cn_chan c) + writer_weight (cn_writer c).

Definition server_work s : nat :=
  length (filter (fun b => b = true) (sr_accepting s)) + sum_list (conn_work <$> sr_conns s).

(** The steps of the server itself and of the handlers, not of the world outside. *)
Definition conn_own (o : conn_op (R := R) (P := P)) : Prop := match o with CoPeer _ => False | _ => True end.
Definition server_own (o : server_op (R := R) (P := P) (T := T)) : Prop :=
  match o with SvAborted _ => True | SvConn _ o => conn_own o | _ => False end.

(** [close] was called. *)
Record closing s : Prop := {
  cl_rx : rs_close_tx (sr_server s) = false;
  cl_aborted : Forall (fun b => b = true) (rs_listeners (sr_server s));
  cl_loops : length (sr_accepting s) = length (rs_listeners (sr_server s));
  cl_live : Forall (fun c => st_live (codec := codec) (cn_conn c)) (sr_conns s);
}.

Lemma quick_resp_work seq err c :
  conn_work (send_quick_resp seq err c) + reader_weight (cn_reader c) <= conn_work c + 4.
Proof.
  unfold send_quick_resp, RespNoti_send_err, conn_work. destruct (rx_alive c); simpl; rewrite length_app; simpl; lia.
Qed.

Lemma quick_resp_conn seq err c : cn_conn (send_quick_resp seq err c) = cn_conn c.
Proof. unfold send_quick_resp, RespNoti_send_err. by destruct (rx_alive c). Qed.

Lemma conn_step_work o c c' :
  st_live (codec := codec) (cn_conn c) -> conn_own o -> conn_step codec (Ready ()) o c = Some c' ->
  st_live (codec := codec) (cn_conn c') /\ conn_work c' < conn_work c.
Proof.
  intros Hl Hown. destruct o as [|r|j t|j| | | |f]; cbn [conn_step]; [..|done].
  - unfold on_read. destruct (cn_reader c) eqn:Er; [|done..].
    destruct (live_read (cn_conn c) Hl) as (r & p & -> & Hr & Hl' & Hle & Hlt).
    destruct r as [[req|e]| |]; intros [= <-]; [|split; [done|]; unfold conn_work; simpl; rewrite Er; simpl; lia..].
    specialize (Hlt req eq_refl). unfold on_request. destruct (is_ping req).
    + rewrite quick_resp_conn. split; [done|]. pose proof (quick_resp_work (sq_seq req) None (put_cn p c)) as Hq.
      unfold conn_work in *. simpl in Hq. rewrite Er in *. simpl in *. lia.
    + split; [done|]. unfold conn_work. simpl. rewrite length_app, Er. simpl. lia.
  - unfold on_dispatched. destruct (cn_reader c) eqn:Er; [done| |done]. intros [= <-].
    destruct (is_err r).
    + rewrite quick_resp_conn. split; [done|]. pose proof (quick_resp_work (sq_seq req) (Some Decode) c) as Hq.
      rewrite Er in Hq. simpl in Hq. lia.
    + split; [done|]. unfold conn_work. simpl. rewrite Er. simpl. lia.
  - unfold on_answer. destruct (cn_tasks c !! j) as [req|] eqn:Ej; [|done]. intros [= <-]. split; [done|].
    pose proof (length_delete _ _ (mk_is_Some _ _ Ej)) as Hd. apply lookup_lt_Some in Ej. unfold conn_work, RespNoti_done. simpl.
    rewrite length_app, Hd. destruct (rx_alive _); simpl; lia.
  - unfold on_drop. destruct (cn_tasks c !! j) as [req|] eqn:Ej; [|done]. intros [= <-]. split; [done|].
    pose proof (length_delete _ _ (mk_is_Some _ _ Ej)) as Hd. apply lookup_lt_Some in Ej. unfold conn_work. simpl. rewrite Hd. lia.
  - unfold on_write. destruct (rx_alive c) eqn:Ha; [|done]. destruct (cn_chan c) as [|m rest] eqn:Ec; [done|].
    destruct (live_process m (cn_conn c) Hl) as (r & p & -> & Hr & Hl' & Hle).
    destruct r as [[[]|e]| |]; intros [= <-]; (split; [done|]); unfold conn_work; simpl; rewrite Ec; simpl; [|lia..].
    unfold rx_alive in Ha. destruct (cn_writer c); simpl; [lia|lia|done].
  - unfold on_flush_resp. destruct (cn_writer c) eqn:Ew, (cn_chan c) eqn:Ec; try done.
    destruct (live_flush (cn_conn c) Hl) as (r & p & -> & Hr & Hl' & Hle).
    destruct r as [[[]|e]| |]; intros [= <-]; (split; [done|]); unfold conn_work; simpl; rewrite Ew; simpl; lia.
  - unfold on_disconnected. destruct (cn_writer c) eqn:Ew, (cn_chan c) eqn:Ec; try done.
    destruct (tx_alive c); [done|]. destruct (live_close (cn_conn c) Hl) as (r & p & -> & Hr & Hl' & Hle).
    destruct r as [u| |]; intros [= <-]; (split; [done|]); unfold conn_work; simpl; rewrite Ew; simpl; lia.
Qed.

(** Whoever holds a connection can take a step. *)
Lemma conn_step_enabled c :
  st_live (codec := codec) (cn_conn c) -> conn_held c = true ->
  exists o, conn_own o /\ is_Some (conn_step codec (Ready ()) o c).
Proof.
  intros Hl Hh. destruct (cn_reader c) as [|req|] eqn:Er.
  - exists CoRead. split; [done|]. cbn [conn_step]. unfold on_read. rewrite Er.
    destruct (live_read (cn_conn c) Hl) as (r & p & -> & Hr & _). by destruct r as [[]| |]; eauto.
  - exists (CoDispatched (Ok ())). split; [done|]. cbn [conn_step]. unfold on_dispatched. rewrite Er. eauto.
  - unfold conn_held in Hh. rewrite Er in Hh. destruct (cn_tasks c) as [|req ts] eqn:Et.
    2:{ exists (CoDropTask 0). split; [done|]. cbn [conn_step]. unfold on_drop. rewrite Et. eauto. }
    destruct (cn_chan c) as [|m rest] eqn:Ec.
    2:{ exists CoWrite. split; [done|]. cbn [conn_step]. unfold on_write. rewrite Ec.
        assert (rx_alive c = true) as -> by (unfold rx_alive; by destruct (cn_writer c)).
        destruct (live_process m (cn_conn c) Hl) as (r & p & -> & Hr & _). by destruct r as [[]| |]; eauto. }
    destruct (cn_writer c) eqn:Ew; [| |done].
    + exists CoDisconnected. split; [done|]. cbn [conn_step]. unfold on_disconnected, tx_alive.
      rewrite Ew, Ec, Er, Et. destruct (live_close (cn_conn c) Hl) as (r & p & -> & Hr & _).
      by destruct r as [| |]; eauto.
    + exists CoFlush. split; [done|]. cbn [conn_step]. unfold on_flush_resp. rewrite Ew, Ec.
      destruct (live_flush (cn_conn c) Hl) as (r & p & -> & Hr & _). by destruct r as [[]| |]; eauto.
Qed.

Lemma closing_close_rx s : closing s -> server_close_rx s = Ready ().
Proof. intros Hs. unfold server_close_rx. by rewrite (cl_rx s Hs). Qed.

Lemma sum_list_insert (l : list nat) k x y :
  l !! k = Some x -> sum_list (<[k := y]> l) + x = sum_list l + y.
Proof.
  revert k. induction l as [|z l IH]; intros [|k] E; simplify_eq/=; [lia|]. specialize (IH k E). lia.
Qed.

Lemma running_insert (l : list bool) i :
  l !! i = Some true ->
  length (filter (fun b => b = true) (<[i := false]> l)) + 1 = length (filter (fun b => b = true) l).
Proof.
  revert i. induction l as [|b l IH]; intros [|i] E; [done|done| |].
  - simpl in E. injection E as ->. change (<[0 := false]> (true :: l)) with (false :: l).
    rewrite (filter_cons_False _ false), (filter_cons_True _ true) by done. simpl. lia.
  - change (<[S i := false]> (b :: l)) with (b :: <[i := false]> l). rewrite !filter_cons.
    specialize (IH i E). case_decide; simpl; lia.
Qed.

Lemma server_step_work o s s' :
  closing s -> server_own o -> server_step codec new_conn o s = Some s' ->
  closing s' /\ server_work s' < server_work s.
Proof.
  intros Hs Hown. destruct o as [bound|i r|i| |k o]; try done; cbn [server_step].
  - destruct (sr_accepting s !! i) as [[]|] eqn:Ei, (rs_listeners (sr_server s) !! i) as [[]|]; try done.
    intros [= <-]. destruct Hs as [H1 H2 H3 H4]. split; [split; simpl; try done; by rewrite length_insert|].
    unfold server_work. simpl. pose proof (running_insert _ _ Ei). lia.
  - destruct (sr_conns s !! k) as [c|] eqn:Ek; [|done]. rewrite (closing_close_rx s Hs).
    destruct (conn_step codec (Ready ()) o c) as [c'|] eqn:E; [|done]. intros [= <-].
    destruct Hs as [H1 H2 H3 H4]. pose proof (Forall_lookup_1 _ _ _ _ H4 Ek) as Hl.
    apply conn_step_work in E as [Hl' Hw]; [|done..].
    split; [split; simpl; try done; by apply Forall_insert|]. unfold server_work. simpl.
    rewrite list_fmap_insert. pose proof (sum_list_insert (conn_work <$> sr_conns s) k (conn_work c) (conn_work c')) as Hsum.
    rewrite list_lookup_fmap, Ek in Hsum. specialize (Hsum eq_refl). lia.
Qed.

Lemma server_steps_work ops s s' :
  closing s -> Forall server_own ops -> server_steps codec new_conn ops s = Some s' ->
  closing s' /\ length ops + server_work s' <= server_work s.
Proof.
  intros Hs Hops. revert s Hs. induction Hops as [|o ops Ho _ IH]; intros s Hs; cbn [server_steps].
  - intros [= <-]. split; [done|]. simpl. lia.
  - destruct (server_step codec new_conn o s) as [s1|] eqn:E; [|done].
    destruct (server_step_work o s s1 Hs Ho E) as [Hs1 Hw]. intros E1.
    destruct (IH s1 Hs1 E1) as [Hs' Hw']. split; [done|]. simpl. lia.
Qed.

(** As long as something is alive the server can take a step. *)
Lemma server_step_enabled s :
  closing s -> get_alive_conn s <> 0%Z -> exists o s', server_own o /\ server_step codec new_conn o s = Some s'.
Proof.
  intros Hs Ha. unfold get_alive_conn in Ha.
  destruct (filter (fun b => b = true) (sr_accepting s)) as [|b l] eqn:Eb.
  - destruct (filter (fun c => conn_held c = true) (sr_conns s)) as [|c l] eqn:Ec; [simpl in Ha; lia|].
    assert (c ∈ filter (fun c => conn_held c = true) (sr_conns s)) as Hc by (rewrite Ec; by left).
    apply list_elem_of_filter in Hc as [Hh Hc]. apply list_elem_of_lookup in Hc as [k Ek].
    pose proof (Forall_lookup_1 _ _ _ _ (cl_live s Hs) Ek) as Hl.
    destruct (conn_step_enabled c Hl Hh) as (o & Ho & c' & E). eexists (SvConn k o), _.
    split; [done|]. cbn [server_step]. by rewrite Ek, (closing_close_rx s Hs), E.
  - assert (b ∈ filter (fun b => b = true) (sr_accepting s)) as Hb by (rewrite Eb; by left).
    apply list_elem_of_filter in Hb as [-> Hb]. apply list_elem_of_lookup in Hb as [i Ei].
    assert (is_Some (rs_listeners (sr_server s) !! i)) as [d Ed].
    { apply lookup_lt_is_Some. rewrite <- (cl_loops s Hs). by eapply lookup_lt_Some. }
    pose proof (Forall_lookup_1 _ _ _ _ (cl_aborted s Hs) Ed) as Hd. simpl in Hd. subst d.
    eexists (SvAborted i), _. split; [done|]. cbn [server_step]. by rewrite Ei, Ed.
Qed.
End ending.

(** ** Properties *)

Section claims.
Context {C R P T : Type} `{!ServerTransport C R P} (codec : C) `{!ServerTransportLaws C R P codec}.
Variable new_conn : T -> ServerConfig -> option P.

End claims.

Section liveness.
Context {C R P T : Type} `{!ServerTransport C R P} (codec : C) `{!ServerTransportLive C R P codec}.
Variable new_conn : T -> ServerConfig -> option P.
Implicit Types s : server_run R P.

Lemma stop_closing s s' :
  length (sr_accepting s) = length (rs_listeners (sr_server s)) ->
  Forall (fun c => st_live (codec := codec) (cn_conn c)) (sr_conns s) ->
  server_step codec new_conn SvClose s = Some s' -> closing codec s' /\ sr_server s' = RpcServer_stop (sr_server s).
Proof.
  intros Hl Hc [= <-]. split; [|done]. split; simpl; [done| |by rewrite length_fmap|done].
  apply Forall_fmap, list.Forall_forall. done.
Qed.

Lemma drained s :
  closing codec s ->
  exists ops s', Forall server_own ops /\ server_steps codec new_conn ops s = Some s' /\ get_alive_conn s' = 0%Z.
Proof.
  intros Hs. remember (server_work codec s) as n eqn:En. revert s Hs En.
  induction (lt_wf n) as [n _ IH]. intros s Hs ->. destruct (decide (get_alive_conn s = 0%Z)) as [Ha|Ha].
  { by exists [], s. }
  destruct (server_step_enabled codec new_conn s Hs Ha) as (o & s1 & Ho & E).
  destruct (server_step_work codec new_conn o s s1 Hs Ho E) as [Hs1 Hw].
  destruct (IH _ Hw s1 Hs1 eq_refl) as (ops & s' & Hops & E' & Ha').
  exists (o :: ops), s'. split; [by constructor|]. split; [|done]. cbn [server_steps]. by rewrite E.
Qed.

(** The wait of [close] over the states the server is in second after second. *)
Lemma close_wait_drained (st : nat -> server_run R P) elapsed deadline n f k :
  (forall k, closing codec (st k)) ->
  (forall k, get_alive_conn (st k) <> 0%Z -> server_work codec (st (S k)) < server_work codec (st k)) ->
  (forall k, k <= n -> (elapsed k <= deadline)%Z) ->
  k + server_work codec (st k) <= n -> server_work codec (st k) <= f ->
  close_wait f (fun k => get_alive_conn (st k)) elapsed deadline k = Some 0%Z.
Proof.
  intros Hcl Hdec Hel. revert k. induction f as [|f IH]; intros k Hn Hf; cbn [close_wait].
  all: assert (0 <= get_alive_conn (st k))%Z as Hpos by (unfold get_alive_conn; lia).
  all: destruct (Z.ltb_spec 0 (get_alive_conn (st k))) as [Ha|Ha]; [|f_equal; lia].
  all: specialize (Hdec k ltac:(lia)) as Hd; try lia.
  destruct (Z.ltb_spec deadline (elapsed (S k))) as [He|_]; [|apply IH; lia].
  specialize (Hel (S k) ltac:(lia)). lia.
Qed.

(** C11: [close] comes to an end.  Once it has stopped the listeners and dropped
    the close channel, every run of the server's own steps (accept loops that
    notice, readers, writers, handlers that answer or give up) is finite, with
    a bound known in advance; a run that cannot go on has no connection left;
    and if the server takes a step per second while it can, [close] itself
    returns 0 within that many seconds, as long as [server_close_wait] allows
    them. *)
Theorem server_close_ends (s s1 : server_run R P)
    (Hloops : length (sr_accepting s) = length (rs_listeners (sr_server s)))
    (Hlive : Forall (fun c => st_live (codec := codec) (cn_conn c)) (sr_conns s))
    (Hclose : server_step codec new_conn SvClose s = Some s1) (bound := server_work codec s1) :
  (forall ops s', Forall server_own ops -> server_steps codec new_conn ops s1 = Some s' ->
     length ops <= bound
     /\ ((forall o, server_own o -> server_step codec new_conn o s' = None) -> get_alive_conn s' = 0%Z))
  /\ (exists ops s', Forall server_own ops /\ server_steps codec new_conn ops s1 = Some s'
        /\ get_alive_conn s' = 0%Z)
  /\ (forall (st : nat -> server_run R P) elapsed fuel,
        st 0 = s1 ->
        (forall k, exists ops, Forall server_own ops /\ server_steps codec new_conn ops (st k) = Some (st (S k))
                     /\ (ops = [] -> get_alive_conn (st k) = 0%Z)) ->
        (forall k, k <= bound -> (elapsed k <= sc_server_close_wait (rs_config (sr_server s)))%Z) ->
        bound <= fuel ->
        (RpcServer_close fuel (fun k => get_alive_conn (st k)) elapsed (sr_server s)).1 = Some 0%Z).
Proof.
  destruct (stop_closing s s1 Hloops Hlive Hclose) as [Hs Hsrv]. split; [|split; [by apply drained|]].
  - intros ops s' Hops E. destruct (server_steps_work codec new_conn ops s1 s' Hs Hops E) as [Hs' Hw].
    split; [unfold bound; lia|]. intros Hstuck. destruct (decide (get_alive_conn s' = 0%Z)) as [|Ha]; [done|].
    destruct (server_step_enabled codec new_conn s' Hs' Ha) as (o & s2 & Ho & E2). by rewrite Hstuck in E2.
  - intros st elapsed fuel H0 Hst Hel Hf. unfold RpcServer_close. cbn [fst rs_config RpcServer_stop].
    assert (forall k, closing codec (st k)) as Hcl.
    { induction k as [|k IH]; [by rewrite H0|]. destruct (Hst k) as (ops & Hops & E & _).
      by apply (server_steps_work codec new_conn ops (st k) (st (S k)) IH Hops E). }
    apply (close_wait_drained st elapsed _ bound); rewrite ?H0; try done.
    intros k Ha. destruct (Hst k) as (ops & Hops & E & Hne).
    destruct (server_steps_work codec new_conn ops (st k) (st (S k)) (Hcl k) Hops E) as [_ Hw].
    destruct ops; [by destruct Ha; apply Hne|]. simpl in Hw. lia.
Qed.
End liveness.
