(* ===== verification/ServerTcp.v ===== *)
(** * The life of a server over TCP

    [TcpServer] satisfies what ServerLife.v asks of a transport, so a server
    over TCP delivers its answers and comes to an end when it is closed. *)

From S2P Require Import Prelude RustStd Errors Config Task ClientTaskMacro Buffer Proto BufIO.
From S2P Require Import Sock Parser ServerTask TcpServer Timer TcpClient EndToEnd Server Duplex ServerLife.

Section tcp.
Context {C R T : Type} `{ServerTaskEncode C R} `{AsyncDuplexLaws T} (B : Type) `{IoBufferLaws B}.
Variables (codec : C) (shutdown_write : T -> T) (fuel : nat) (stale : nat -> byte).

(** Shutting the write side down sends nothing and leaves the read side alone. *)
Hypothesis Hshut : forall t, outgoing (shutdown_write t) = outgoing t /\ r_same t (shutdown_write t).
Hypothesis Hfuel : 64 <= fuel.

Local Instance tcp_transport : ServerTransport C R (TcpServer T) := Tcp_ServerTransport B shutdown_write fuel stale.

Lemma quick_resp_wf err :
  let r := match err with Some e => RespErr (EncRpc e) | None => RespOk [] None end in
  resp_wf r /\ (resp_data_len r + Z.of_nat RPC_RESP_HEADER_LEN <= Z.of_nat fuel)%Z.
Proof.
  assert (64 <= Z.of_nat fuel)%Z as Hf by lia.
  destruct err as [[]|]; split; try (vm_compute; split; discriminate); try (vm_compute; discriminate);
    (transitivity 64%Z; [vm_compute; discriminate|exact Hf]).
Qed.

#[refine] Definition Tcp_ServerTransportLaws : ServerTransportLaws C R (TcpServer T) codec := {|
  st_frame m bs := exists seq r, msg_resp codec fuel stale m seq r /\ bs = resp_frame seq r;
  st_good := srv_can_write fuel;
  st_out := srv_out fuel;
  st_wire s := outgoing (bs_inner (ts_stream s));
|}.
Proof.
  - intros seq err. destruct (quick_resp_wf err) as [Hw Hl]. by eexists _, seq, _.
  - intros m bs p Hp (seq & r & Hm & ->).
    destruct (process_ok B codec shutdown_write fuel stale m seq r p Hfuel Hp Hm) as (p' & ? & ? & ?). by exists p'.
  - intros p Hp. destruct (flush_can_write fuel p Hp) as (p1 & ? & ? & ? & ?). by exists p1.
  - intros p Hp. destruct (flush_can_write fuel p Hp) as (p' & E & Ho & _ & _).
    unfold st_close_conn; cbn [tcp_transport Tcp_ServerTransport]. unfold TcpServer_close_conn. rewrite E.
    eexists. split; [reflexivity|]. cbn [ts_stream put_stream bs_inner]. by rewrite (proj1 (Hshut _)).
  - intros close p r p' Hp E. eapply (read_req_writable B fuel close); [exact Hp|exact E].
Defined.
End tcp.

(** ** The server comes to an end *)

Section ends.
Context {S : Type} (Inv : S -> Prop).

(** The computation does not wait, whatever happens, and keeps [Inv]. *)
Definition run_ends {E A} (m : runM S E A) : Prop :=
  forall s, Inv s -> (m s).1 <> Waiting /\ Inv (m s).2.

Lemma run_ends_ret {E A} (a : A) : run_ends (run_ret (E := E) a).
Proof. by intros s Hs. Qed.
Lemma run_ends_err {E A} (e : E) : run_ends (run_err (A := A) e).
Proof. by intros s Hs. Qed.
Lemma run_ends_get {E A} (f : S -> A) : run_ends (run_get (E := E) f).
Proof. by intros s Hs. Qed.
Lemma run_ends_option {E A} (o : option A) : run_ends (run_option (E := E) o).
Proof. by destruct o; intros s Hs. Qed.
Lemma run_ends_put {E} (f : S -> S) : (forall s, Inv s -> Inv (f s)) -> run_ends (run_put (E := E) f).
Proof. intros Hf s Hs. split; [done|by apply Hf]. Qed.

Lemma run_ends_bind {E A B} (m : runM S E A) (k : A -> runM S E B) :
  run_ends m -> (forall a, run_ends (k a)) -> run_ends (run_bind m k).
Proof.
  intros Hm Hk s Hs. unfold run_bind. specialize (Hm s Hs). destruct (m s) as [[[a|e]| |] s1];
    destruct Hm as [Hm Hi]; [by apply Hk|done..].
Qed.

Lemma run_ends_io {T E A} (get : S -> T) put (err : io_error -> E) t (m : ioM T A) s :
  t <> 0%Z -> (forall u, Inv s -> Inv (put u s)) -> Inv s ->
  (run_io get put err (io_with_timeout t m) s).1 <> Waiting
  /\ Inv (run_io get put err (io_with_timeout t m) s).2.
Proof.
  intros Ht Hput Hs. unfold run_io, io_with_timeout, cancellable.
  destruct (Z.eqb_spec t 0); [done|]. destruct (m (get s)) as [[[a|e]|] u]; (split; [done|by apply Hput]).
Qed.
End ends.

Create HintDb ends.

Ltac run_end :=
  repeat first
    [ apply run_ends_bind; [|intros ?]
    | case_match
    | apply run_ends_ret | apply run_ends_err | apply run_ends_get | apply run_ends_option
    | solve [eauto with ends] ].

Section tcp_live.
Context {C R T : Type} `{ServerTaskEncode C R} `{AsyncDuplexLaws T} (B : Type) `{IoBufferLaws B}.
Variables (codec : C) (shutdown_write : T -> T) (fuel : nat) (stale : nat -> byte).
Hypothesis Hshut : forall t, outgoing (shutdown_write t) = outgoing t /\ r_same t (shutdown_write t).

Local Instance tcp_live_transport : ServerTransport C R (TcpServer T) := Tcp_ServerTransport B shutdown_write fuel stale.

(** With both timeouts set, only the wait for the next request has no end. *)
Definition srv_timed (s : TcpServer T) : Prop :=
  sc_read_timeout (ts_config s) <> 0%Z /\ sc_write_timeout (ts_config s) <> 0%Z.

Lemma srv_read_ends n : run_ends srv_timed (srv_read fuel n).
Proof. intros s Hs. by apply run_ends_io; [apply Hs| |]. Qed.
Lemma srv_write_ends buf : run_ends srv_timed (srv_write fuel buf).
Proof. intros s Hs. by apply run_ends_io; [apply Hs| |]. Qed.
Lemma flush_resp_ends : run_ends srv_timed (TcpServer_flush_resp fuel).
Proof. intros s Hs. by apply run_ends_io; [apply Hs| |]. Qed.

Lemma srv_read_header_ends : run_ends srv_timed (srv_read_header fuel (Ready ())).
Proof.
  intros s Hs. unfold srv_read_header, cancellable.
  by destruct (read_exact fuel RPC_REQ_HEADER_LEN (ts_stream s)) as [[[]|] st].
Qed.

Hint Resolve srv_read_ends srv_write_ends srv_read_header_ends : ends.
Hint Extern 1 (run_ends _ (run_put _)) => by apply run_ends_put : ends.

Lemma read_req_ends : run_ends srv_timed (TcpServer_read_req B fuel (Ready ())).
Proof. unfold TcpServer_read_req, srv_read_action, srv_read_msg, srv_read_blob. run_end. Qed.

Lemma process_ends m : run_ends srv_timed (process codec m).
Proof.
  destruct m as [t|[seq err]]; cbn [process tcp_live_transport Tcp_ServerTransport];
    unfold st_write_resp, st_write_resp_internal; cbn [tcp_live_transport Tcp_ServerTransport];
    unfold TcpServer_write_resp, TcpServer_write_resp_internal; run_end.
Qed.

Lemma process_keeps m : run_keeps (srv_rel br_same) (process codec m).
Proof.
  destruct m as [t|[seq err]]; cbn [process tcp_live_transport Tcp_ServerTransport].
  - apply write_resp_keeps; [apply _|apply buf_write_keeps].
  - apply write_resp_internal_keeps; [apply _|apply buf_write_keeps].
Qed.

(** A request that was read took its header from the stream. *)
Lemma read_req_takes cancel s req s' :
  r_inv (ts_stream s) -> TcpServer_read_req B fuel cancel s = (Done (Ok req), s') ->
  length (incoming (ts_stream s')) < length (incoming (ts_stream s)).
Proof.
  intros Hi. unfold TcpServer_read_req, run_bind at 1.
  destruct (srv_read_header fuel cancel s) as [[[hb|e]| |] s1] eqn:E; try done. intros Ek.
  assert (r_inv (ts_stream s1) /\ length (incoming (ts_stream s1)) < length (incoming (ts_stream s))) as [Hi1 Hlt].
  { unfold srv_read_header, cancellable in E.
    destruct (read_exact fuel RPC_REQ_HEADER_LEN (ts_stream s)) as [[[bs|e]|] st] eqn:Ex; simplify_eq;
      [|by destruct cancel].
    unfold read_exact in Ex. apply read_exact_loop_ok in Ex as (ds & -> & Hd & Hin & Hi' & _); [|done].
    split; [done|]. cbn [put_stream ts_stream]. rewrite Hin, length_app, Hd. unfold RPC_REQ_HEADER_LEN. lia. }
  eapply Nat.le_lt_trans; [|exact Hlt].
  assert (srv_rel r_shrinks s1 s') as [_ Hs]; [|by apply Hs].
  revert Ek. match goal with |- ?k s1 = _ -> _ => assert (run_keeps (srv_rel r_shrinks) k) as Hk; [|apply Hk] end.
  pose proof (fun h => read_body_keeps B fuel r_shrinks read_shrinks h) as Hb.
  apply run_keeps_bind; [apply _|apply run_keeps_option; apply _|]. intros [h|e]; [|apply run_keeps_err; apply _].
  do 3 (apply run_keeps_bind; [apply _|apply (Hb h)|intros ?]). apply run_keeps_ret; apply _.
Qed.

(** The read side after a step that does not read. *)
Lemma br_same_todo s s' :
  srv_rel br_same s s' -> r_inv (ts_stream s) ->
  r_inv (ts_stream s') /\ incoming (ts_stream s') = incoming (ts_stream s).
Proof. intros [_ [Er Hs]] [Hr Hi]. destruct (Hs Hi) as [Hi' Hin]. simpl. by rewrite Er, Hin. Qed.

#[refine] Definition Tcp_ServerTransportLive : ServerTransportLive C R (TcpServer T) codec := {|
  st_live s := r_inv (ts_stream s) /\ srv_timed s;
  st_todo s := length (incoming (ts_stream s));
|}.
Proof.
  - intros s [Hi Ht]. destruct (read_req_ends s Ht) as [Hr Ht'].
    change (st_read_req (Ready ()) s) with (TcpServer_read_req B fuel (Ready ()) s).
    destruct (TcpServer_read_req B fuel (Ready ()) s) as [r s'] eqn:E. exists r, s'.
    destruct (read_req_keeps B fuel r_shrinks read_shrinks _ _ _ _ E) as [_ Hs]. destruct (Hs Hi) as [Hi' Hle].
    split_and!; try done. intros req ->. by eapply read_req_takes.
  - intros m s [Hi Ht]. destruct (process_ends m s Ht) as [Hr Ht'].
    destruct (process codec m s) as [r s'] eqn:E. exists r, s'.
    destruct (br_same_todo s s' (process_keeps m _ _ _ E) Hi) as [Hi' ->]. by split_and!.
  - intros s [Hi Ht]. destruct (flush_resp_ends s Ht) as [Hr Ht'].
    change (st_flush_resp s) with (TcpServer_flush_resp fuel s).
    destruct (TcpServer_flush_resp fuel s) as [r s'] eqn:E. exists r, s'.
    apply (flush_resp_keeps fuel br_same (stream_flush_keeps fuel)) in E.
    destruct (br_same_todo s s' E Hi) as [Hi' ->]. by split_and!.
  - intros s [Hi Ht]. destruct (flush_resp_ends s Ht) as [Hr Ht'].
    change (st_close_conn s) with (TcpServer_close_conn shutdown_write fuel s). unfold TcpServer_close_conn.
    destruct (TcpServer_flush_resp fuel s) as [r s'] eqn:E.
    apply (flush_resp_keeps fuel br_same (stream_flush_keeps fuel)) in E.
    destruct (br_same_todo s s' E Hi) as [[Hi' Hi''] Hin].
    destruct r as [[[]|e]| |]; eexists _, _; (split; [reflexivity|]); rewrite <- ?Hin; try done.
    destruct (proj2 (Hshut (bs_inner (ts_stream s'))) Hi'') as [Hi3 Hin3].
    split_and!; try done. simpl. by rewrite Hin3.
Defined.
End tcp_live.

(** ** A concrete server

    Two requests and a ping arrive in pieces; the answers come in the opposite
    order, one before and one after [close]. *)

#[local] Existing Instance vec_IoBuffer.

Definition life_input : bytes :=
  req_frame 9 (ActNum 1) 1 (lit "a") None ++ req_frame 9 (ActNum 0) 2 [] None
  ++ req_frame 9 (ActNum 1) 3 (lit "b") None.

(** The peer keeps the connection open after its requests. *)
Definition life_sock : sock := mkSock (sk_rx (sock_of [5; 60] life_input)) false [] [].

Definition life_task (seq : Z) (msg : bytes) : ServerTaskVariant bytes unit :=
  mkVariant seq (OwnedNum 1) msg None (Some (Ok ())) None.

Definition life_config : ServerConfig := mkServerConfig 5000 5000 120000 90000 64.

#[local] Instance life_transport : ServerTransport RawCodec (ServerTaskVariant bytes unit) (TcpServer sock) :=
  Tcp_ServerTransport vec id 1000 zeros.

Lemma life_fuel : 64 <= 1000.
Proof. lia. Qed.

Lemma id_shut (t : sock) : outgoing (id t) = outgoing t /\ r_same t (id t).
Proof. by split. Qed.

#[local] Instance life_laws : ServerTransportLaws RawCodec (ServerTaskVariant bytes unit) (TcpServer sock) Raw :=
  Tcp_ServerTransportLaws (R := ServerTaskVariant bytes unit) (H2 := sock_DuplexLaws) vec Raw id 1000 zeros id_shut life_fuel.
#[local] Instance life_live : ServerTransportLive RawCodec (ServerTaskVariant bytes unit) (TcpServer sock) Raw :=
  Tcp_ServerTransportLive (R := ServerTaskVariant bytes unit) (H2 := sock_DuplexLaws) vec Raw id 1000 zeros id_shut.

Abbreviation life_op := (server_op (R := ServerTaskVariant bytes unit) (P := TcpServer sock) (T := sock)).

Definition life_open : list life_op :=
  [SvListen (Ok (Ok (lit "127.0.0.1:1"))); SvAccept 0 (Ok life_sock);
   SvConn 0 CoRead; SvConn 0 (CoDispatched (Ok ())); SvConn 0 CoRead; SvConn 0 CoWrite;
   SvConn 0 CoRead; SvConn 0 (CoDispatched (Ok ())); SvConn 0 (CoAnswer 1 (life_task 3 (lit "B")))].

Definition life_close : list life_op :=
  [SvAborted 0; SvConn 0 CoWrite; SvConn 0 CoRead; SvConn 0 CoFlush;
   SvConn 0 (CoAnswer 0 (life_task 1 (lit "A"))); SvConn 0 CoWrite; SvConn 0 CoFlush; SvConn 0 CoDisconnected].

Abbreviation life_run ops :=
  (server_steps (R := ServerTaskVariant bytes unit) Raw (TcpServer_new_conn (T := sock)) ops (server_start life_config)).

Lemma life_task_framed seq msg :
  length msg <= 100 -> framed Raw (Ok (life_task seq msg) : resp_msg (ServerTaskVariant bytes unit)).
Proof.
  intros Hl. eexists. exists seq, (RespOk msg None). split; [|reflexivity]. unfold msg_resp.
  split; [split; [unfold zlen, u32_MAX; lia|vm_compute; discriminate]|]. split.
  { unfold resp_data_len, zlen. cbn. lia. }
  intros buf. eexists. unfold encode_resp; simpl. unfold Variant_encode_resp, codec_encode_into; simpl.
  destruct (Nat.leb_spec (length msg) 256) as [_|]; [reflexivity|lia].
Qed.

Lemma life_fresh p : TcpServer_new_conn life_sock life_config = Some p -> fresh_conn (P := TcpServer sock) Raw p.
Proof.
  intros [= <-]. split; [|by split]. split; [|repeat constructor]. split; [split; simpl; lia|].
  split; [done|]. simpl. lia.
Qed.

Lemma life_ops_ok :
  Forall (server_op_ok Raw (TcpServer_new_conn (T := sock)) life_config) (life_open ++ SvClose :: life_close).
Proof.
  unfold life_open, life_close. cbn [app]. repeat (apply list.Forall_cons_2; [try exact I|]); try apply list.Forall_nil_2.
  - intros p. apply life_fresh.
  - apply life_task_framed. simpl. lia.
  - apply life_task_framed. simpl. lia.
Qed.

(** What can be seen of a server: who is alive, and per connection the
    requests, the answers, and the bytes with the peer. *)
Definition life_view (s : server_run (ServerTaskVariant bytes unit) (TcpServer sock)) :=
  (get_alive_conn s,
   (fun c => (cn_reqs c, (cn_answered c).*2, sk_out (bs_inner (ts_stream (cn_conn c))))) <$> sr_conns s).


(** The connection can still read, with timeouts. *)
Definition life_readable (s : TcpServer sock) : bool :=
  let r := bs_read (ts_stream s) in
  (rb_pos r <=? rb_cap r) && (rb_cap r <=? length (rb_buf r)) && (0 <? length (rb_buf r))%nat
  && (length (sk_rx (bs_inner (ts_stream s))) =? 0)%nat
  && negb (sc_read_timeout (ts_config s) =? 0)%Z && negb (sc_write_timeout (ts_config s) =? 0)%Z.

Lemma life_readable_live s : life_readable s = true -> st_live (codec := Raw) s.
Proof.
  unfold life_readable. rewrite !andb_true_iff, !negb_true_iff, !Nat.leb_le, Nat.ltb_lt, Nat.eqb_eq, !Z.eqb_neq.
  intros (((((Hp & Hc) & Hb) & Hrx) & Ht1) & Ht2). split; [|by split]. split; [by split_and!|].
  apply nil_length_inv in Hrx. simpl. by rewrite Hrx.
Qed.

(** The same server closed with one request unanswered: whatever order its
    coroutines run in, they run out of steps. *)
Example server_close_ends_witness :
  exists s s1, life_run life_open = Some s
    /\ server_step Raw (TcpServer_new_conn (T := sock)) SvClose s = Some s1
    /\ forall ops s', Forall server_own ops ->
         server_steps Raw (TcpServer_new_conn (T := sock)) ops s1 = Some s' -> length ops <= 11.
Proof.
  assert ((fun s => (length (sr_accepting s), length (rs_listeners (sr_server s)),
             forallb (fun c => life_readable (cn_conn c)) (sr_conns s),
             server_work Raw (mkRun (RpcServer_stop (sr_server s)) (sr_accepting s) (sr_conns s))))
          <$> life_run life_open = Some (1, 1, true, 11)) as Hv by (vm_compute; reflexivity).
  destruct (life_run life_open) as [s|] eqn:Hrun; [|discriminate]. injection Hv as Hacc Hlis Hlive Hwork.
  exists s, (mkRun (RpcServer_stop (sr_server s)) (sr_accepting s) (sr_conns s)).
  split; [reflexivity|]. split; [reflexivity|]. intros ops s' Hops Hs. rewrite <- Hwork.
  refine (proj1 (proj1 (server_close_ends Raw (TcpServer_new_conn (T := sock)) s _ _ _ eq_refl) ops s' Hops Hs)).
  - by rewrite Hacc, Hlis.
  - rewrite forallb_forall in Hlive. apply List.Forall_forall. intros c Hc. by apply life_readable_live, Hlive.
Defined.
