(* ===== verification/Pool.v ===== *)
(** * stream/src/client/pool.rs: the connection pool of one address

    A pool is a bounded channel of tasks and the coroutines that serve it: one
    monitor (worker id 0), which connects, pings and serves while it is alone,
    and the workers it turns into when it hands monitoring over.  The pool is a
    state machine: [pool_step] is one atomic step, of a caller or of one of the
    coroutines; a coroutine's position between two awaits is its [pc].  A
    stream is known through the interface [PoolStream], which [ClientStream]
    implements; the steps of a stream's own receiver are steps of the machine
    too ([PoReceiver]). *)

From S2P Require Import Prelude RustStd Errors Config Task ClientTaskMacro Buffer Proto BufIO.
From S2P Require Import Sock Timer TcpClient ClientStream.

(** ** What the pool uses of a stream *)

Class PoolStream (K S : Type) := {
  ps_send_task : K -> bool -> runM S RpcIntErr unit;
  ps_flush_req : runM S RpcIntErr unit;
  ps_ping : runM S RpcIntErr unit;
  ps_inflight : S -> Z;
}.

Section stream_instance.
Context {C K P : Type} `{ClientTask C K} `{!ClientTransport C K P}.
Variables (codec : C) (stale : nat -> byte) (wait_to : Z -> Z -> poll bool).

Definition ClientStream_PoolStream : PoolStream K (ClientStreamInner K P) := {|
  ps_send_task task need_flush := Inner_send_task codec stale wait_to task need_flush;
  ps_flush_req := Inner_flush_req;
  ps_ping := send_ping_req stale;
  ps_inflight := get_inflight_count;
|}.
End stream_instance.

(** ** State *)

(** Where a coroutine of the pool is suspended. *)
Inductive pc (K S : Type) :=
| Connecting                     (* awaiting connect *)
| Backoff                        (* sleeping a second before the next connect *)
| MonitorHead (s : S)            (* at the top of the monitor loop *)
| MonitorSleep (s : S)           (* sleeping, another worker serves the channel *)
| MonitorRecv (s : S)            (* awaiting the channel or a second *)
| MonitorSend (s : S) (task : K) (* awaiting [send_task] *)
| Working (s : S) (busy : bool)  (* in [_run_worker]; [busy] in its inner loop *)
| WorkSend (s : S) (task : K)    (* in [_run_worker], awaiting [send_task] *)
| Exited.
Arguments Connecting {K S}.
Arguments Backoff {K S}.
Arguments MonitorHead {K S} s.
Arguments MonitorSleep {K S} s.
Arguments MonitorRecv {K S} s.
Arguments MonitorSend {K S} s task.
Arguments Working {K S} s busy.
Arguments WorkSend {K S} s task.
Arguments Exited {K S}.

Record worker (K S : Type) := mkWorker { wk_id : Z; wk_pc : pc K S }.
Arguments mkWorker {K S} wk_id wk_pc.
Arguments wk_id {K S} w.
Arguments wk_pc {K S} w.

Record ClientPool (K S : Type) := mkPool {
  po_addr : bytes;
  po_conn_id : bytes;
  po_cap : Z;                 (* bound of the channel *)
  po_chan : list K;
  po_tx : bool;               (* some sender of the channel is alive *)
  po_is_ok : bool;
  po_worker_count : Z;
  po_connected_worker_count : Z;
  po_workers : list (worker K S);  (* every coroutine spawned so far *)
}.
Arguments mkPool {K S} po_addr po_conn_id po_cap po_chan po_tx po_is_ok po_worker_count
  po_connected_worker_count po_workers.
Arguments po_addr {K S} c.
Arguments po_conn_id {K S} c.
Arguments po_cap {K S} c.
Arguments po_chan {K S} c.
Arguments po_tx {K S} c.
Arguments po_is_ok {K S} c.
Arguments po_worker_count {K S} c.
Arguments po_connected_worker_count {K S} c.
Arguments po_workers {K S} c.

(** What a step does with a task it takes from the channel for good: it is
    handed to a stream, or given [Unreachable] and to [error_handle]. *)
Inductive pool_out (K : Type) := Handed (t : K) | Unhealthy (t : K).
Arguments Handed {K} t.
Arguments Unhealthy {K} t.

Definition out_task {K} (o : pool_out K) : K := match o with Handed t => t | Unhealthy t => t end.

Definition unhealthy_event {C K} `{ClientTask C K} (task : K) : task_event K :=
  EvErrorHandle (set_rpc_error task Unreachable).

(** ** Operations *)

Section pool.
Context {K S : Type} `{!PoolStream K S}.
Let L := ClientPool K S.

Definition put_chan (l : list K) (p : L) : L :=
  mkPool (po_addr p) (po_conn_id p) (po_cap p) l (po_tx p) (po_is_ok p) (po_worker_count p)
    (po_connected_worker_count p) (po_workers p).
Definition put_tx (b : bool) (p : L) : L :=
  mkPool (po_addr p) (po_conn_id p) (po_cap p) (po_chan p) b (po_is_ok p) (po_worker_count p)
    (po_connected_worker_count p) (po_workers p).
Definition put_worker_count (n : Z) (p : L) : L :=
  mkPool (po_addr p) (po_conn_id p) (po_cap p) (po_chan p) (po_tx p) (po_is_ok p) n
    (po_connected_worker_count p) (po_workers p).
Definition put_connected (n : Z) (p : L) : L :=
  mkPool (po_addr p) (po_conn_id p) (po_cap p) (po_chan p) (po_tx p) (po_is_ok p)
    (po_worker_count p) n (po_workers p).
Definition put_workers (ws : list (worker K S)) (p : L) : L :=
  mkPool (po_addr p) (po_conn_id p) (po_cap p) (po_chan p) (po_tx p) (po_is_ok p)
    (po_worker_count p) (po_connected_worker_count p) ws.

Definition is_healthy (p : L) : bool := po_is_ok p.
Definition get_addr (p : L) : bytes := po_addr p.
Definition get_workers (p : L) : Z := po_worker_count p.
Definition get_healthy_workers (p : L) : Z := po_connected_worker_count p.

Definition set_err (p : L) : L :=
  mkPool (po_addr p) (po_conn_id p) (po_cap p) (po_chan p) (po_tx p) false
    (po_worker_count p) (po_connected_worker_count p) (po_workers p).

(** [spawn_worker]: a new coroutine, before its first connect. *)
Definition spawn_worker (worker_id : Z) (p : L) : L :=
  put_workers (po_workers p ++ [mkWorker worker_id Connecting]) p.

(** [spawn] *)
Definition spawn (p : L) : L :=
  spawn_worker (po_worker_count p) (put_worker_count (as_usize (po_worker_count p + 1)) p).

(** [new]: the channel has room for at least [thresholds] tasks. *)
Definition pool_channel_size (config : ClientConfig) (channel_size : Z) : Z :=
  if (0 <? cc_thresholds config)%Z then
    if (channel_size <? cc_thresholds config)%Z then cc_thresholds config else channel_size
  else if (channel_size =? 0)%Z then 128%Z else channel_size.

Definition ClientPool_new (config : ClientConfig) (addr : bytes) (channel_size : Z) : L :=
  spawn (mkPool addr (lit "to " ++ addr) (pool_channel_size config channel_size) [] true true
           0 0 []).

(** [send_req] and [send_req_blocking]: they wait while the channel is full. *)
Definition pool_send_req (task : K) (p : L) : poll unit * L :=
  if (zlen (po_chan p) <? po_cap p)%Z then (Ready (), put_chan (po_chan p ++ [task]) p)
  else (Pending, p).

(** [cleanup] drains the channel. *)
Definition cleanup (p : L) : list (pool_out K) * L := (Unhealthy <$> po_chan p, put_chan [] p).

(** The end of a coroutine: [run] returned, [worker_count] goes down. *)
Definition worker_exit (p : L) : L := put_worker_count (as_usize (po_worker_count p - 1)) p.

Definition connected_add (p : L) : L :=
  put_connected (as_usize (po_connected_worker_count p + 1)) p.

(** [run_worker] returned with [r], then [run] and the coroutine. *)
Definition run_worker_exit (r : result unit RpcIntErr) (p : L) : L :=
  let p := connected_add p in
  worker_exit (if is_err r then set_err p else p).

(** The result of a step of one coroutine: what became of tasks, the pool
    (its worker list apart), the coroutine, and the coroutines it spawned. *)
Record wstep := mkStep {
  wo_out : list (pool_out K);
  wo_pool : L;
  wo_self : worker K S;
  wo_spawned : list (worker K S);
}.

(** The loop heads after a connect, by worker id. *)
Definition after_connect (w : worker K S) (s : S) (p : L) : wstep :=
  if (wk_id w =? 0)%Z then mkStep [] p (mkWorker (wk_id w) (MonitorHead s)) []
  else mkStep [] (connected_add p) (mkWorker (wk_id w) (Working s false)) [].

(** [connect] returned. *)
Definition on_connected (w : worker K S) (r : result S RpcIntErr) (p : L) : wstep :=
  match r with
  | Ok s => after_connect w s p
  | Err _ =>
      let '(out, p) := cleanup (set_err p) in
      mkStep out p (mkWorker (wk_id w) Backoff) []
  end.

(** The choice at the top of the monitor loop. *)
Definition on_monitor_head (w : worker K S) (s : S) (p : L) : wstep :=
  mkStep [] p
    (mkWorker (wk_id w) (if (1 <? get_workers p)%Z then MonitorSleep s else MonitorRecv s)) [].

(** The second is over: ping, and reconnect when it fails; only a monitor
    that is alone empties the channel. *)
Definition on_ping (alone : bool) (w : worker K S) (s : S) (p : L) : option wstep :=
  match ps_ping s with
  | (Done (Ok _), s) => Some (mkStep [] p (mkWorker (wk_id w) (MonitorHead s)) [])
  | (Done (Err _), _) =>
      let '(out, p) := if alone then cleanup (set_err p) else ([], set_err p) in
      Some (mkStep out p (mkWorker (wk_id w) Connecting) [])
  | (_, _) => None
  end.

(** The monitor got a task: while requests are in flight it becomes worker 1
    and spawns a new monitor. *)
Definition on_monitor_task (w : worker K S) (s : S) (task : K) (p : L) : wstep :=
  if (0 <? ps_inflight s)%Z && (get_workers p =? 1)%Z then
    mkStep [] (put_worker_count 2 p) (mkWorker 1 (MonitorSend s task))
      [mkWorker 0 Connecting]
  else mkStep [] p (mkWorker (wk_id w) (MonitorSend s task)) [].

(** [send_task] in the monitor loop returned. *)
Definition on_monitor_sent (w : worker K S) (s : S) (task : K) (p : L) : option wstep :=
  match ps_send_task task true s with
  | (Done (Err _), _) =>
      if (wk_id w =? 0)%Z then
        let '(out, p) := cleanup (set_err p) in
        Some (mkStep (Handed task :: out) p (mkWorker (wk_id w) Backoff) [])
      else
        Some (mkStep [Handed task] (worker_exit (set_err p)) (mkWorker (wk_id w) Exited) [])
  | (Done (Ok _), s) =>
      if (0 <? wk_id w)%Z then
        Some (mkStep [Handed task] (connected_add p) (mkWorker (wk_id w) (Working s false)) [])
      else Some (mkStep [Handed task] p (mkWorker (wk_id w) (MonitorHead s)) [])
  | (_, _) => None
  end.

(** [send_task] in [_run_worker] returned. *)
Definition on_work_sent (w : worker K S) (s : S) (task : K) (p : L) : option wstep :=
  match ps_send_task task false s with
  | (Done (Err e), _) =>
      Some (mkStep [Handed task] (run_worker_exit (Err e) p) (mkWorker (wk_id w) Exited) [])
  | (Done (Ok _), s) => Some (mkStep [Handed task] p (mkWorker (wk_id w) (Working s true)) [])
  | (_, _) => None
  end.

(** [flush_req] in [_run_worker]: after the inner loop, or at the end. *)
Definition on_flush (closing : bool) (w : worker K S) (s : S) (p : L) : option wstep :=
  match ps_flush_req s with
  | (Done (Err e), _) =>
      Some (mkStep [] (run_worker_exit (Err e) p) (mkWorker (wk_id w) Exited) [])
  | (Done (Ok r), s) =>
      if closing then
        Some (mkStep [] (run_worker_exit (Ok r) p) (mkWorker (wk_id w) Exited) [])
      else Some (mkStep [] p (mkWorker (wk_id w) (Working s false)) [])
  | (_, _) => None
  end.

(** ** The machine *)

(** What a suspended coroutine can be woken by. *)
Inductive wake :=
| WConnected (r : result S RpcIntErr)
| WGo                 (* its own next step: loop head, slept, operation over *)
| WTask               (* the channel yields its first task *)
| WEmpty              (* [try_recv] finds nothing *)
| WTimeout            (* a second passed on the channel *)
| WDisconnected.      (* the channel is empty and has no sender *)

Definition disconnected (p : L) : bool := negb (po_tx p) && (length (po_chan p) =? 0)%nat.

Definition worker_wake (e : wake) (w : worker K S) (p : L) : option wstep :=
  match wk_pc w, e with
  | Connecting, WConnected r => Some (on_connected w r p)
  | Backoff, WGo => Some (mkStep [] p (mkWorker (wk_id w) Connecting) [])
  | MonitorHead s, WGo => Some (on_monitor_head w s p)
  | MonitorSleep s, WGo => on_ping false w s p
  | MonitorRecv s, WTask =>
      match po_chan p with
      | task :: rest => Some (on_monitor_task w s task (put_chan rest p))
      | [] => None
      end
  | MonitorRecv s, WTimeout => on_ping true w s p
  | MonitorRecv s, WDisconnected =>
      if disconnected p then Some (mkStep [] (worker_exit p) (mkWorker (wk_id w) Exited) [])
      else None
  | MonitorSend s task, WGo => on_monitor_sent w s task p
  | Working s _, WTask =>
      match po_chan p with
      | task :: rest => Some (mkStep [] (put_chan rest p) (mkWorker (wk_id w) (WorkSend s task)) [])
      | [] => None
      end
  | Working s true, WEmpty => if (length (po_chan p) =? 0)%nat then on_flush false w s p else None
  | Working s false, WDisconnected => if disconnected p then on_flush true w s p else None
  | WorkSend s task, WGo => on_work_sent w s task p
  | _, _ => None
  end.

(** The stream a coroutine holds. *)
Definition map_stream (f : S -> S) (x : pc K S) : pc K S :=
  match x with
  | MonitorHead s => MonitorHead (f s)
  | MonitorSleep s => MonitorSleep (f s)
  | MonitorRecv s => MonitorRecv (f s)
  | MonitorSend s t => MonitorSend (f s) t
  | Working s b => Working (f s) b
  | WorkSend s t => WorkSend (f s) t
  | x => x
  end.

Inductive pool_op :=
| PoSend (task : K)               (* [send_req] *)
| PoSpawn                         (* [spawn] *)
| PoDropTx                        (* the last [ClientPool] is dropped *)
| PoWorker (i : nat) (e : wake)   (* coroutine [i] runs *)
| PoReceiver (i : nat) (f : S -> S)  (* the receiver of its stream runs *)
| PoDrop.                         (* the last reference to the inner pool goes *)

Definition all_exited (p : L) : bool :=
  forallb (fun w => match wk_pc w with Exited => true | _ => false end) (po_workers p).

Definition pool_step (o : pool_op) (p : L) : option (list (pool_out K) * L) :=
  match o with
  | PoSend task =>
      if po_tx p then
        match pool_send_req task p with
        | (Ready _, p) => Some ([], p)
        | (Pending, _) => None
        end
      else None
  | PoSpawn => if po_tx p then Some ([], spawn p) else None
  | PoDropTx => Some ([], put_tx false p)
  | PoWorker i e =>
      match po_workers p !! i with
      | None => None
      | Some w =>
          match worker_wake e w p with
          | None => None
          | Some r =>
              Some (wo_out r,
                    put_workers (<[i := wo_self r]> (po_workers p) ++ wo_spawned r) (wo_pool r))
          end
      end
  | PoReceiver i f =>
      match po_workers p !! i with
      | None => None
      | Some w =>
          Some ([], put_workers (<[i := mkWorker (wk_id w) (map_stream f (wk_pc w))]> (po_workers p)) p)
      end
  | PoDrop => if negb (po_tx p) && all_exited p then Some (cleanup p) else None
  end.

Fixpoint pool_run (ops : list pool_op) (p : L) : option (list (pool_out K) * L) :=
  match ops with
  | [] => Some ([], p)
  | o :: ops =>
      match pool_step o p with
      | None => None
      | Some (out, p) =>
          match pool_run ops p with
          | None => None
          | Some (out', p) => Some (out ++ out', p)
          end
      end
  end.
End pool.
Arguments wake S : clear implicits.
Arguments pool_op K S : clear implicits.
Arguments wstep K S : clear implicits.

(** ** Accounting for tasks *)

Section accounting.
Context {K S : Type} `{!PoolStream K S}.
Implicit Types (p : ClientPool K S) (w : worker K S).

(** The task a coroutine holds between the channel and the stream. *)
Definition in_hand w : list K :=
  match wk_pc w with MonitorSend _ t => [t] | WorkSend _ t => [t] | _ => [] end.

Definition held p : list K := po_chan p ++ mjoin (in_hand <$> po_workers p).

Definition submitted (ops : list (pool_op K S)) : list K :=
  mjoin ((fun o => match o with PoSend t => [t] | _ => [] end) <$> ops).

(** One step of a coroutine, as the rest of the pool sees it. *)
Record step_ok w p (r : wstep K S) : Prop := {
  so_tasks : (out_task <$> wo_out r) ++ po_chan (wo_pool r) ++ in_hand (wo_self r)
             ≡ₚ po_chan p ++ in_hand w;
  so_spawned : Forall (fun x => x = mkWorker 0 Connecting) (wo_spawned r);
  so_healthy : po_is_ok p = false -> po_is_ok (wo_pool r) = false;
  so_tx : po_tx (wo_pool r) = po_tx p;
  so_connected : po_connected_worker_count (wo_pool r) = po_connected_worker_count p
    \/ po_connected_worker_count (wo_pool r) = as_usize (po_connected_worker_count p + 1);
}.

Lemma out_unhealthy (l : list K) : out_task <$> (Unhealthy <$> l) = l.
Proof. rewrite <- list_fmap_compose. apply list_fmap_id. Qed.

Lemma worker_wake_ok e w p r : worker_wake e w p = Some r -> step_ok w p r.
Proof.
  unfold worker_wake, on_connected, after_connect, on_ping, on_monitor_sent, on_work_sent, on_flush,
    on_monitor_task, on_monitor_head, run_worker_exit.
  intros E. destruct w as [id x]; simpl in E. repeat (case_match; simplify_eq/=); simplify_eq/=;
    try match goal with H : cleanup _ = _ |- _ => unfold cleanup in H; simplify_eq/= end;
    (split; simpl; try solve [repeat constructor | by left | by right];
      rewrite ?out_unhealthy, ?app_nil_r; simpl; rewrite ?app_nil_r; eauto;
      try match goal with Hc : po_chan _ = _ :: _ |- _ => rewrite Hc end;
      try solve [by rewrite Permutation_app_comm | by rewrite <- Permutation_middle, app_nil_r]).
Qed.

Lemma in_hand_connecting ws :
  Forall (fun x => x = mkWorker 0 Connecting) ws -> mjoin (in_hand <$> ws) = [].
Proof. induction 1 as [|x ws -> _ IH]; done. Qed.

Lemma in_hand_map_stream f id x : in_hand (mkWorker id (map_stream f x)) = in_hand (mkWorker id x).
Proof. by destruct x. Qed.

Lemma all_exited_in_hand p : all_exited p = true -> mjoin (in_hand <$> po_workers p) = [].
Proof.
  unfold all_exited. induction (po_workers p) as [|[id x] ws IH]; [done|]. simpl.
  intros [Hx Hws]%andb_prop. destruct x; try done. by apply IH.
Qed.

Lemma pool_step_tasks o p out p' :
  pool_step o p = Some (out, p') ->
  (out_task <$> out) ++ held p' ≡ₚ held p ++ submitted [o].
Proof.
  unfold held, submitted. destruct o as [task| | |i e|i f|]; simpl; intros E; rewrite ?app_nil_r.
  - unfold pool_send_req in E. repeat case_match; simplify_eq/=.
    by rewrite <- !app_assoc, (Permutation_app_comm [task]).
  - case_match; simplify_eq/=. by rewrite fmap_app, join_app, app_nil_r.
  - by simplify_eq/=.
  - destruct (po_workers p !! i) as [w|] eqn:Ew; [|done].
    destruct (worker_wake e w p) as [r|] eqn:Er; [|done]. simplify_eq/=.
    apply worker_wake_ok in Er as [Ht Hsp _ _ _].
    rewrite fmap_app, join_app, (in_hand_connecting _ Hsp), app_nil_r.
    apply (Permutation_app_inv_l (in_hand w)). rewrite (Permutation_app_comm (in_hand w)), <- !app_assoc.
    rewrite (Permutation_app_comm _ (in_hand w)), (join_map_insert in_hand _ i w) by done.
    rewrite (app_assoc (po_chan (wo_pool r))), (app_assoc (_ <$> _)), Ht.
    rewrite <- app_assoc. apply Permutation_app_swap_app.
  - destruct (po_workers p !! i) as [w|] eqn:Ew; [|done]. simplify_eq/=. apply Permutation_app_head.
    apply (Permutation_app_inv_l (in_hand w)). rewrite (join_map_insert in_hand _ i w) by done.
    by rewrite in_hand_map_stream; destruct w.
  - unfold cleanup in E. case_match; simplify_eq/=. by rewrite out_unhealthy.
Qed.

Lemma pool_run_tasks ops p out p' :
  pool_run ops p = Some (out, p') ->
  (out_task <$> out) ++ held p' ≡ₚ held p ++ submitted ops.
Proof.
  revert p out. induction ops as [|o ops IH]; simpl; intros p out E.
  { simplify_eq/=. by rewrite app_nil_r. }
  destruct (pool_step o p) as [[o1 p1]|] eqn:E1; [|done].
  destruct (pool_run ops p1) as [[o2 p2]|] eqn:E2; [|done]. simplify_eq/=.
  apply pool_step_tasks in E1. apply IH in E2.
  rewrite fmap_app, <- app_assoc, E2, app_assoc, E1.
  rewrite <- app_assoc. unfold submitted. simpl. by rewrite app_nil_r.
Qed.
End accounting.

(** ** Workers *)

Section workers.
Context {K S : Type} `{!PoolStream K S}.
Implicit Types (p : ClientPool K S) (w : worker K S).

Definition live w : nat := match wk_pc w with Exited => 0 | _ => 1 end.
Definition monitor w : nat := if (wk_id w =? 0)%Z then live w else 0.

Definition sum_of (f : worker K S -> nat) (ws : list (worker K S)) : nat := sum_list (f <$> ws).

(** The position of a coroutine fits its role. *)
Definition worker_ok w : Prop :=
  (0 <= wk_id w)%Z /\
  match wk_pc w with
  | MonitorHead _ | MonitorSleep _ | MonitorRecv _ => wk_id w = 0%Z
  | Working _ _ | WorkSend _ _ => wk_id w <> 0%Z
  | _ => True
  end.

(** [worker_count] counts the running coroutines, and exactly one of them is
    the monitor as long as the pool is in use. *)
Record pool_inv p : Prop := {
  pi_workers : Forall worker_ok (po_workers p);
  pi_count : po_worker_count p = Z.of_nat (sum_of live (po_workers p));
  pi_monitor : sum_of monitor (po_workers p) <= 1;
  pi_in_use : po_tx p = true -> sum_of monitor (po_workers p) = 1;
}.

Lemma sum_of_insert f ws i w w' :
  ws !! i = Some w -> f w + sum_of f (<[i := w']> ws) = f w' + sum_of f ws.
Proof.
  unfold sum_of. revert i. induction ws as [|x ws IH]; intros [|i] E; simplify_eq/=; [lia|].
  pose proof (IH i E). lia.
Qed.

Lemma sum_of_app f ws ws' : sum_of f (ws ++ ws') = sum_of f ws + sum_of f ws'.
Proof. unfold sum_of. induction ws; csimpl; lia. Qed.

Lemma sum_of_lookup f ws i w : ws !! i = Some w -> f w <= sum_of f ws.
Proof.
  unfold sum_of. revert i. induction ws as [|x ws IH]; intros [|i] E; simplify_eq/=; [lia|].
  pose proof (IH i E). lia.
Qed.

Lemma live_monitor_le ws : sum_of monitor ws <= sum_of live ws.
Proof.
  unfold sum_of, monitor. induction ws as [|x ws IH]; csimpl; [lia|].
  destruct (wk_id x =? 0)%Z; lia.
Qed.

Record wake_inv w p (r : wstep K S) : Prop := {
  wi_self : worker_ok (wo_self r);
  wi_count : (po_worker_count (wo_pool r) + Z.of_nat (live w)
    = po_worker_count p + Z.of_nat (live (wo_self r)) + zlen (wo_spawned r))%Z;
  wi_monitor : monitor (wo_self r) + length (wo_spawned r) <= monitor w;
  wi_in_use : po_tx p = true -> monitor (wo_self r) + length (wo_spawned r) = monitor w;
  wi_few : length (wo_spawned r) <= 1;
}.

Lemma worker_wake_inv e w p r :
  worker_ok w -> (1 <= po_worker_count p < 2 ^ 64)%Z -> worker_wake e w p = Some r ->
  wake_inv w p r.
Proof.
  unfold worker_wake, on_connected, after_connect, on_ping, on_monitor_sent, on_work_sent, on_flush,
    on_monitor_task, on_monitor_head, run_worker_exit.
  intros Hw Hc E. assert (as_usize (po_worker_count p - 1) = po_worker_count p - 1)%Z as Hsub
    by (apply wrap_small; unfold in_u; lia).
  destruct w as [id x]; unfold worker_ok in Hw; simpl in *. destruct Hw as [Hid Hpc].
  repeat (case_match; simplify_eq/=); simplify_eq/=;
    try match goal with H : cleanup _ = _ |- _ => unfold cleanup in H; simplify_eq/= end;
    breflect; simplify_eq/=;
    (split; unfold worker_ok, live, monitor, zlen, disconnected in *; simpl in *;
     repeat case_match; breflect; simplify_eq/=; try (split; [done|]); rewrite ?Hsub; intros;
     try lia; try congruence; try done).
Qed.

Lemma sum_connecting ws :
  Forall (fun x => x = mkWorker 0 Connecting) ws ->
  sum_of live ws = length ws /\ sum_of monitor ws = length ws /\ Forall worker_ok ws.
Proof.
  unfold sum_of. induction 1 as [|x ws -> _ (IH1 & IH2 & IH3)]; csimpl; [done|].
  split; [lia|]. split; [simpl; lia|]. by constructor.
Qed.

Lemma sum_live_length ws : sum_of live ws <= length ws.
Proof.
  unfold sum_of. induction ws as [|w ws IH]; csimpl; [done|].
  assert (live w <= 1) by (unfold live; destruct (wk_pc w); lia). lia.
Qed.

Lemma live_map_stream f id (x : pc K S) :
  live (mkWorker id (map_stream f x)) = live (mkWorker id x).
Proof. by destruct x. Qed.

Lemma worker_ok_map_stream f id (x : pc K S) :
  worker_ok (mkWorker id x) -> worker_ok (mkWorker id (map_stream f x)).
Proof. by destruct x. Qed.

Lemma spawn_inv p :
  pool_inv p -> po_tx p = true -> (zlen (po_workers p) < 2 ^ 64 - 1)%Z -> pool_inv (spawn p).
Proof.
  intros [Hw Hc Hm Hu] Htx Hlen. pose proof (sum_live_length (po_workers p)).
  pose proof (live_monitor_le (po_workers p)). specialize (Hu Htx). unfold zlen in Hlen.
  assert (as_usize (po_worker_count p + 1) = po_worker_count p + 1)%Z as Hadd
    by (apply wrap_small; unfold in_u; lia).
  split; simpl; rewrite ?sum_of_app.
  - apply Forall_app. split; [done|]. repeat constructor; simpl; lia.
  - rewrite Hadd. unfold sum_of at 2; simpl. lia.
  - unfold sum_of at 2, monitor at 2; simpl. destruct (Z.eqb_spec (po_worker_count p) 0); lia.
  - intros _. unfold sum_of at 2, monitor at 2; simpl. destruct (Z.eqb_spec (po_worker_count p) 0); lia.
Qed.

Lemma pool_worker_inv i w p r :
  pool_inv p -> po_workers p !! i = Some w -> wake_inv w p r -> step_ok w p r ->
  pool_inv (put_workers (<[i := wo_self r]> (po_workers p) ++ wo_spawned r) (wo_pool r)).
Proof.
  intros [Hw Hc Hm Hu] Ew [Hs Hc' Hm' Hu' Hf] [_ Hsp _ Htx _].
  destruct (sum_connecting _ Hsp) as (Hl1 & Hl2 & Hl3).
  pose proof (sum_of_insert live _ i w (wo_self r) Ew) as Hil.
  pose proof (sum_of_insert monitor _ i w (wo_self r) Ew) as Him.
  split; simpl; rewrite ?sum_of_app, ?Hl1, ?Hl2.
  - apply Forall_app. split; [by apply Forall_insert|done].
  - unfold zlen in Hc'. lia.
  - lia.
  - rewrite Htx. intros Ht. specialize (Hu Ht). specialize (Hu' Ht). lia.
Qed.

Lemma pool_step_inv o p out p' :
  pool_inv p -> (zlen (po_workers p) < 2 ^ 64 - 1)%Z -> pool_step o p = Some (out, p') ->
  pool_inv p' /\ (zlen (po_workers p') <= zlen (po_workers p) + 1)%Z.
Proof.
  intros Hp Hlen. destruct o as [task| | |i e|i f|]; simpl; intros E; unfold zlen in *.
  - unfold pool_send_req in E. repeat case_match; simplify_eq/=. split; [|lia].
    destruct Hp. by split.
  - case_match; simplify_eq/=. split; [|rewrite length_app; simpl; lia]. by apply spawn_inv.
  - simplify_eq/=. split; [|lia]. destruct Hp. by split.
  - destruct (po_workers p !! i) as [w|] eqn:Ew; [|done].
    destruct (worker_wake e w p) as [r|] eqn:Er; [|done]. simplify_eq/=.
    assert (worker_ok w) as Hw by (eapply Forall_lookup_1; [apply Hp|done]).
    assert (live w = 1) as Hlive.
    { unfold worker_wake in Er. unfold live. by destruct (wk_pc w). }
    pose proof (sum_of_lookup live _ i w Ew). pose proof (sum_live_length (po_workers p)).
    assert (wake_inv w p r) as Hwi.
    { apply (worker_wake_inv e); [done| |done]. rewrite (pi_count _ Hp). lia. }
    split; [by apply (pool_worker_inv i w); [..|eapply worker_wake_ok]|].
    rewrite length_app, length_insert. pose proof (wi_few _ _ _ Hwi). lia.
  - destruct (po_workers p !! i) as [[id x]|] eqn:Ew; [|done]. simplify_eq/=.
    split; [|rewrite length_insert; lia]. destruct Hp as [Hw Hc Hm Hu].
    set (w' := mkWorker id (map_stream f x)).
    pose proof (sum_of_insert live _ i _ w' Ew) as Hil.
    pose proof (sum_of_insert monitor _ i _ w' Ew) as Him.
    assert (live w' = live (mkWorker id x)) as Hlw by apply live_map_stream.
    assert (monitor w' = monitor (mkWorker id x)) as Hmw.
    { unfold monitor. simpl. by rewrite Hlw. }
    split; simpl; [|lia|lia|intros Ht; specialize (Hu Ht); lia].
    apply Forall_insert; [done|]. apply worker_ok_map_stream. by eapply Forall_lookup_1.
  - unfold cleanup in E. case_match; simplify_eq/=. split; [|lia]. destruct Hp. by split.
Qed.

Lemma pool_run_inv ops p out p' :
  pool_inv p -> (zlen (po_workers p) + zlen ops < 2 ^ 64)%Z -> pool_run ops p = Some (out, p') ->
  pool_inv p'.
Proof.
  revert p out. induction ops as [|o ops IH]; simpl; intros p out Hp Hlen E; [by simplify_eq/=|].
  destruct (pool_step o p) as [[o1 p1]|] eqn:E1; [|done].
  destruct (pool_run ops p1) as [[o2 p2]|] eqn:E2; [|done]. simplify_eq/=.
  unfold zlen in *; simpl in *. apply pool_step_inv in E1 as [Hp1 Hl1]; [|done|unfold zlen; lia].
  unfold zlen in Hl1. by apply IH in E2; [|done|lia].
Qed.

Lemma ClientPool_new_inv config addr size : pool_inv (ClientPool_new config addr size).
Proof.
  split; simpl; [| |done|done].
  - repeat constructor; simpl; lia.
  - reflexivity.
Qed.

Lemma pool_step_monotone o p out p' :
  pool_step o p = Some (out, p') ->
  (po_is_ok p = false -> po_is_ok p' = false)
  /\ (po_connected_worker_count p' = po_connected_worker_count p
      \/ po_connected_worker_count p' = as_usize (po_connected_worker_count p + 1)).
Proof.
  destruct o as [task| | |i e|i f|]; simpl; intros E.
  - unfold pool_send_req in E. repeat case_match; simplify_eq/=; auto.
  - case_match; simplify_eq/=; auto.
  - simplify_eq/=; auto.
  - destruct (po_workers p !! i) as [w|]; [|done].
    destruct (worker_wake e w p) as [r|] eqn:Er; [|done]. simplify_eq/=.
    apply worker_wake_ok in Er as [_ _ Hh _ Hn]. auto.
  - case_match; simplify_eq/=; auto.
  - unfold cleanup in E. case_match; simplify_eq/=; auto.
Qed.
End workers.

(** ** Properties *)

Section claims.
Context {K S : Type} `{!PoolStream K S}.

(** C13: A pool loses no task and serves none twice: along any interleaving of
    callers, coroutines and receivers, the tasks submitted are exactly those
    handed to a stream, those failed with [Unreachable], those in a
    coroutine's hands and those in the channel; once the pool is dropped and
    its coroutines have ended, its [Drop] leaves none behind. *)
Theorem pool_accounts_tasks (config : ClientConfig) (addr : bytes) (size : Z)
    (ops : list (pool_op K S)) (out : list (pool_out K)) (p : ClientPool K S)
    (Hrun : pool_run ops (ClientPool_new config addr size) = Some (out, p)) :
  submitted ops ≡ₚ (out_task <$> out) ++ held p
  /\ forall out' p', pool_step PoDrop p = Some (out', p') ->
       held p' = [] /\ submitted ops ≡ₚ (out_task <$> out) ++ (out_task <$> out').
Proof.
  apply pool_run_tasks in Hrun. change (held (ClientPool_new config addr size)) with (@nil K) in Hrun.
  split; [by symmetry|]. intros out' p' E.
  pose proof (pool_step_tasks _ _ _ _ E) as Hd. unfold submitted in Hd; simpl in Hd.
  rewrite app_nil_r in Hd. rewrite <- Hrun, <- Hd. simpl in E.
  destruct (po_tx p); simplify_eq/=. destruct (all_exited p) eqn:Ha; simplify_eq/=.
  unfold cleanup in E. simplify_eq/=.
  unfold held; simpl. by rewrite all_exited_in_hand, app_nil_r by done.
Qed.

(** C24: [worker_count] is the number of coroutines running, and exactly one
    of them is the monitor as long as the pool has a user (none or one after
    that), through every hand-over of the monitor's role and every [spawn]. *)
Theorem pool_one_monitor (config : ClientConfig) (addr : bytes) (size : Z)
    (ops : list (pool_op K S)) (out : list (pool_out K)) (p : ClientPool K S)
    (Hlen : (zlen ops < 2 ^ 63)%Z)
    (Hrun : pool_run ops (ClientPool_new config addr size) = Some (out, p)) :
  get_workers p = Z.of_nat (sum_of live (po_workers p))
  /\ sum_of monitor (po_workers p) <= 1
  /\ (po_tx p = true -> sum_of monitor (po_workers p) = 1).
Proof.
  apply pool_run_inv in Hrun as [_ Hc Hm Hu]; [done|apply ClientPool_new_inv|].
  change (zlen (po_workers _)) with 1%Z. lia.
Qed.

(** C40: A pool never recovers: once a ping, a connect or a send failed, it is
    unhealthy for ever, whatever connections succeed later; and the count of
    connected workers is only ever increased, by a worker's exit too. *)
Theorem pool_never_recovers (ops : list (pool_op K S)) (p p' : ClientPool K S)
    (out : list (pool_out K)) (Hbad : is_healthy p = false)
    (Hpos : (0 <= get_healthy_workers p)%Z) (Hroom : (get_healthy_workers p + zlen ops < 2 ^ 64)%Z)
    (Hrun : pool_run ops p = Some (out, p')) :
  is_healthy p' = false /\ (get_healthy_workers p <= get_healthy_workers p')%Z.
Proof.
  revert p out Hbad Hpos Hroom Hrun. induction ops as [|o ops IH]; simpl; intros p out Hbad Hpos Hroom E.
  { simplify_eq/=. split; [done|lia]. }
  destruct (pool_step o p) as [[o1 p1]|] eqn:E1; [|done].
  destruct (pool_run ops p1) as [[o2 p2]|] eqn:E2; [|done]. simplify_eq/=.
  apply pool_step_monotone in E1 as [Hok Hcn]. unfold get_healthy_workers, zlen in *; simpl in *.
  assert (po_connected_worker_count p <= po_connected_worker_count p1
          <= po_connected_worker_count p + 1)%Z as Hb.
  { destruct Hcn as [->| ->]; [lia|]. unfold as_usize. rewrite wrap_small; [lia|]. unfold in_u. lia. }
  destruct (IH p1 o2 (Hok Hbad)) as [H1 H2]; [lia|lia|done|]. split; [done|lia].
Qed.
End claims.

(** ** A concrete run

    The monitor serves the first task, hands monitoring over at the second,
    and the new monitor fails to connect, which fails the third. *)

Definition demo_pool_stream : PoolStream RawTask
    (ClientStreamInner RawTask (TcpClient sock)) :=
  @ClientStream_PoolStream _ _ _ _ demo_transport Raw demo_stale demo_wait.

#[local] Existing Instance demo_pool_stream.

Definition demo_pool_task (b : byte) : RawTask := raw_task 0 (OwnedNum 1) [b] None.

Definition demo_pool_ops : list (pool_op RawTask
    (ClientStreamInner RawTask (TcpClient sock))) :=
  [PoSend (demo_pool_task Byte.x61); PoWorker 0 (WConnected (Ok demo_start)); PoWorker 0 WGo;
   PoWorker 0 WTask; PoWorker 0 WGo; PoSend (demo_pool_task Byte.x62); PoWorker 0 WGo;
   PoWorker 0 WTask; PoSend (demo_pool_task Byte.x63); PoWorker 0 WGo;
   PoWorker 1 (WConnected (Err Unreachable))].

Abbreviation demo_pool_t := (ClientPool RawTask
  (ClientStreamInner RawTask (TcpClient sock))).

Definition demo_pool : demo_pool_t :=
  ClientPool_new ClientConfig_default (lit "h:1") 0.

Definition demo_pool_out : list (pool_out RawTask) :=
  [Handed (demo_pool_task Byte.x61); Handed (demo_pool_task Byte.x62);
   Unhealthy (demo_pool_task Byte.x63)].

Lemma demo_pool_runs :
  exists p, pool_run demo_pool_ops (ClientPool_new ClientConfig_default (lit "h:1") 0)
            = Some (demo_pool_out, p).
Proof.
  assert (fst <$> pool_run demo_pool_ops (ClientPool_new ClientConfig_default (lit "h:1") 0)
          = Some demo_pool_out) as E by (vm_compute; reflexivity).
  destruct (pool_run _ _) as [[o p]|]; [|discriminate E]. injection E as ->. eauto.
Qed.

Example pool_accounts_tasks_witness :
  exists p, pool_run demo_pool_ops (ClientPool_new ClientConfig_default (lit "h:1") 0)
            = Some (demo_pool_out, p)
    /\ submitted demo_pool_ops ≡ₚ (out_task <$> demo_pool_out) ++ held p.
Proof.
  destruct demo_pool_runs as [p E]. exists p. split; [exact E|].
  exact (proj1 (pool_accounts_tasks ClientConfig_default (lit "h:1") 0 demo_pool_ops demo_pool_out p E)).
Defined.

Example pool_one_monitor_witness :
  exists p, pool_run demo_pool_ops (ClientPool_new ClientConfig_default (lit "h:1") 0)
            = Some (demo_pool_out, p)
    /\ sum_of monitor (po_workers p) <= 1.
Proof.
  destruct demo_pool_runs as [p E]. exists p. split; [exact E|].
  exact (proj1 (proj2 (pool_one_monitor ClientConfig_default (lit "h:1") 0 demo_pool_ops demo_pool_out p
    eq_refl E))).
Defined.

(** Back from the failure: the next connect succeeds. *)
Example pool_never_recovers_witness :
  exists p p', pool_run [PoWorker 0 (WConnected (Err Unreachable))] demo_pool = Some ([], p)
    /\ pool_run [PoWorker 0 WGo; PoWorker 0 (WConnected (Ok demo_start))] p = Some ([], p')
    /\ is_healthy p' = false.
Proof.
  set (p := mkPool (lit "h:1") (lit "to h:1") 128 [] true false 1 0
              [mkWorker 0 Backoff] : demo_pool_t).
  set (p' := mkPool (lit "h:1") (lit "to h:1") 128 [] true false 1 0
               [mkWorker 0 (MonitorHead demo_start)] : demo_pool_t).
  assert (pool_run [PoWorker 0 WGo; PoWorker 0 (WConnected (Ok demo_start))] p = Some ([], p')) as E
    by reflexivity.
  exists p, p'. split; [reflexivity|]. split; [exact E|].
  apply (pool_never_recovers _ p p' [] eq_refl) in E as [H _];
    [exact H|vm_compute; discriminate|vm_compute; reflexivity].
Defined.
