(* ===== verification/ClientLife.v ===== *)
(** * The life of a client: a connection pool with its streams

    Pool.v is the pool as the callers and its coroutines see it; a stream the
    pool gives up lives on, though, until its receiver has told the tasks that
    still wait in it.  Here the pool is put together with every stream it has
    had: [client_step] is a step of the pool, or of the receiver of a stream
    that is in use or was dropped. *)

From S2P Require Import Prelude RustStd Errors Config Task ClientTaskMacro Buffer Proto BufIO.
From S2P Require Import Sock Timer TcpClient ClientStream Pool.

Section machine.
Context {C K P : Type} `{ClientTask C K} `{!ClientTransport C K P}.
Variables (codec : C) (stale : nat -> byte) (wait_to : Z -> Z -> poll bool).
Let S := ClientStreamInner K P.

Local Instance life_pool_stream : PoolStream K S := ClientStream_PoolStream codec stale wait_to.

(** The stream of a coroutine. *)
Definition pc_stream (x : pc K S) : option S :=
  match x with
  | MonitorHead s | MonitorSleep s | MonitorRecv s | MonitorSend s _ | Working s _ | WorkSend s _ => Some s
  | Connecting | Backoff | Exited => None
  end.

(** What a coroutine that is woken does with its stream. *)
Definition wake_op (e : wake S) (x : pc K S) : option (stream_op K) :=
  match x, e with
  | MonitorSleep _, WGo => Some SPing
  | MonitorRecv _, WTimeout => Some SPing
  | MonitorSend _ t, WGo => Some (SSend t true)
  | WorkSend _ t, WGo => Some (SSend t false)
  | Working _ true, WEmpty => Some SFlush
  | Working _ false, WDisconnected => Some SFlush
  | _, _ => None
  end.

Definition stream_after (e : wake S) (x : pc K S) (s : S) : S :=
  match wake_op e x with
  | None => s
  | Some o => match stream_step codec stale wait_to o s with Some (_, s) => s | None => s end
  end.

Record client_run := mkClient {
  cl_config : ClientConfig;
  cl_client_id : Z;
  cl_pool : ClientPool K S;
  cl_dropped : list S;               (* no longer used, receiver still running *)
  cl_failed : list (task_event K);   (* failed by [cleanup] *)
}.

Definition client_start (config : ClientConfig) (client_id : Z) (addr : bytes) (size : Z) : client_run :=
  mkClient config client_id (ClientPool_new config addr size) [] [].

(** The receiver of a stream: a second passes, it looks for new tasks, or it
    goes round its loop. *)
Inductive recv_op := RvTick | RvPoll | RvResponse (fuel : nat).

Definition recv_stream_op (o : recv_op) : stream_op K :=
  match o with RvTick => STick | RvPoll => SPoll | RvResponse fuel => SResponse fuel end.

Inductive client_op :=
| ClSend (task : K)
| ClSpawn
| ClDropTx
| ClWorker (i : nat) (e : wake P)      (* a connect yields a connection *)
| ClReceiver (i : nat) (o : recv_op)   (* of the stream of coroutine [i] *)
| ClDropped (k : nat) (o : recv_op)    (* of a stream that was dropped *)
| ClDrop.

(** [ClientStream::connect] makes a stream of the connection. *)
Definition wake_stream (config : ClientConfig) (client_id : Z) (e : wake P) : wake S :=
  match e with
  | WConnected r => WConnected (ClientStream_connect r client_id config None)
  | WGo => WGo
  | WTask => WTask
  | WEmpty => WEmpty
  | WTimeout => WTimeout
  | WDisconnected => WDisconnected
  end.

Definition unhealthy_events (out : list (pool_out K)) : list (task_event K) :=
  omap (fun o => match o with Unhealthy t => Some (unhealthy_event t) | Handed _ => None end) out.

(** A coroutine that loses its stream drops it. *)
Definition left_behind (e : wake S) (w : worker K S) (w' : option (worker K S)) : list S :=
  match pc_stream (wk_pc w), w' with
  | Some s, Some w' =>
      match pc_stream (wk_pc w') with
      | Some _ => []
      | None => [ClientStream_drop (stream_after e (wk_pc w) s)]
      end
  | _, _ => []
  end.

Definition put_pool (p : ClientPool K S) (dropped : list S) (out : list (pool_out K)) (c : client_run)
    : client_run :=
  mkClient (cl_config c) (cl_client_id c) p (cl_dropped c ++ dropped) (cl_failed c ++ unhealthy_events out).

Definition on_pool (o : pool_op K S) (c : client_run) : option client_run :=
  match pool_step o (cl_pool c) with
  | None => None
  | Some (out, p) => Some (put_pool p [] out c)
  end.

Definition client_step (o : client_op) (c : client_run) : option client_run :=
  match o with
  | ClSend task => on_pool (PoSend task) c
  | ClSpawn => on_pool PoSpawn c
  | ClDropTx => on_pool PoDropTx c
  | ClDrop => on_pool PoDrop c
  | ClWorker i e =>
      let e := wake_stream (cl_config c) (cl_client_id c) e in
      match po_workers (cl_pool c) !! i, pool_step (PoWorker i e) (cl_pool c) with
      | Some w, Some (out, p) => Some (put_pool p (left_behind e w (po_workers p !! i)) out c)
      | _, _ => None
      end
  | ClReceiver i o =>
      match po_workers (cl_pool c) !! i with
      | None => None
      | Some w =>
          match pc_stream (wk_pc w) with
          | None => None
          | Some s =>
              match stream_step codec stale wait_to (recv_stream_op o) s with
              | None => None
              | Some (_, s) => on_pool (PoReceiver i (fun _ => s)) c
              end
          end
      end
  | ClDropped k o =>
      match cl_dropped c !! k with
      | None => None
      | Some s =>
          match stream_step codec stale wait_to (recv_stream_op o) s with
          | None => None
          | Some (_, s) =>
              Some (mkClient (cl_config c) (cl_client_id c) (cl_pool c) (<[k := s]> (cl_dropped c)) (cl_failed c))
          end
      end
  end.

Fixpoint client_steps (ops : list client_op) (c : client_run) : option client_run :=
  match ops with
  | [] => Some c
  | o :: ops => match client_step o c with None => None | Some c => client_steps ops c end
  end.

(** ** What has become of the tasks *)

Definition client_streams (c : client_run) : list S :=
  omap (pc_stream ∘ wk_pc) (po_workers (cl_pool c)) ++ cl_dropped c.

(** The tasks handed to [done] or to the error handler. *)
Definition client_events (c : client_run) : list (task_event K) :=
  cl_failed c ++ mjoin (ci_events <$> client_streams c).

(** The tasks that wait: in the channel of the pool, with a coroutine, or for
    their response. *)
Definition client_waiting (c : client_run) : list K :=
  held (cl_pool c) ++ mjoin ((fun s => live_tasks (ci_timer s)) <$> client_streams c).

Definition client_submitted (ops : list client_op) : list K :=
  omap (fun o => match o with ClSend t => Some t | _ => None end) ops.
End machine.
Arguments client_op K P : clear implicits.
Arguments client_run K P : clear implicits.

(** ** The accounts of a client *)

Section accounts.
Context {C K P A : Type} `{ClientTransportLaws C K P} `{!TaskKey C K A}.
Variables (codec : C) (stale : nat -> byte) (wait_to : Z -> Z -> poll bool).
(** What the callers' tasks have in common. *)
Variable Q : K -> Prop.
Hypothesis Qseq : forall k q, Q k -> Q (task_set_seq k q).

Local Existing Instance life_pool_stream.
Implicit Types (s : ClientStreamInner K P) (w : worker K (ClientStreamInner K P)) (c : client_run K P).

Lemma finishes_tag x ev : finishes codec x ev -> key (event_task ev) = key x.
Proof.
  induction 1 as [x e|x e _|x|x bs ev _ IH|x n ev _ IH|x bs ev _ IH]; simpl; rewrite ?IH;
    auto using key_rpc_error, key_custom_error, key_ok, key_decode, key_reserve, key_put_blob.
Qed.

Lemma finishes_tags xs evs :
  Forall2 (finishes codec) xs evs -> (key ∘ event_task) <$> evs = key <$> xs.
Proof. induction 1 as [|x ev xs evs Hx _ IH]; [done|]. csimpl. rewrite IH. f_equal. by apply finishes_tag. Qed.

Lemma key_set_seq k q : key (task_set_seq k q) = key k.
Proof. apply key_common. Qed.

(** The tags of the tasks a stream has had. *)
Definition stags s : list A := ((key ∘ event_task) <$> ci_events s) ++ (key <$> live_tasks (ci_timer s)).
Definition wtags w : list A := match pc_stream (wk_pc w) with Some s => stags s | None => [] end.

Lemma accounts_stags l s : accounts codec l s -> stags s ≡ₚ key <$> l.
Proof. intros (xs & Hxs & Hp). unfold stags. by rewrite (finishes_tags _ _ Hxs), Hp, fmap_app. Qed.

(** A stream after at most [n] steps. *)
Record stream_good (n : Z) s : Prop := {
  sg_inv : stream_inv s;
  sg_announced : announced (ci_timer s) = 0%Z;
  sg_seq : (ci_seq s <= n + 1)%Z;
  sg_count : (tm_count (ci_timer s) <= n)%Z;
  sg_tasks : exists l, accounts codec l s /\ Forall Q l;
}.

Definition worker_good (n : Z) w : Prop := match pc_stream (wk_pc w) with Some s => stream_good n s | None => True end.

Lemma stream_good_mono n m s : (n <= m)%Z -> stream_good n s -> stream_good m s.
Proof. intros Hle [Hi Ha Hq Hc Ht]. split; auto; lia. Qed.

Lemma worker_good_mono n m w : (n <= m)%Z -> worker_good n w -> worker_good m w.
Proof. unfold worker_good. destruct (pc_stream _); [apply stream_good_mono|done]. Qed.

Lemma Inner_new_good conn cid config n : (0 <= n)%Z -> stream_good n (Inner_new conn cid config None).
Proof.
  intros Hn. destruct (Inner_new_inv (K := K) (P := P) conn cid config None) as [Hi Ha].
  split; try done; simpl; [lia|]. exists []. split; [|done]. exists []. split; [constructor|done].
Qed.

(** What a stream may be asked to do. *)
Definition stream_op_ok (o : stream_op K) : Prop :=
  match o with SSend t _ => encodable codec stale t /\ Q t | _ => True end.

Definition op_tasks (o : stream_op K) : list K := match o with SSend t _ => [t] | _ => [] end.

Lemma stream_step_tags o s l s' :
  stream_step codec stale wait_to o s = Some (l, s') -> key <$> l = key <$> op_tasks o.
Proof.
  destruct o; simpl; intros E; repeat case_match; simplify_eq/=; rewrite ?key_set_seq; done.
Qed.

Lemma stream_step_Q o s l s' :
  stream_op_ok o -> stream_step codec stale wait_to o s = Some (l, s') -> Forall Q l.
Proof.
  destruct o as [t fl| | | | | | |]; simpl; intros Ho E; [|repeat case_match; simplify_eq/=; constructor..].
  destruct (Inner_send_task _ _ _ _ _ _) as [[q| |] s1]; simplify_eq/=.
  constructor; [|constructor]. destruct (ci_closed s); [apply Ho|apply Qseq, Ho].
Qed.

Lemma stream_step_good n o s l s' :
  (n + 2 < 2 ^ 64)%Z -> stream_op_ok o -> stream_good n s ->
  stream_step codec stale wait_to o s = Some (l, s') ->
  stream_good (n + 1) s' /\ stags s' ≡ₚ (key <$> op_tasks o) ++ stags s.
Proof.
  intros Hn Ho [Hi Ha Hq Hc (l0 & Hl0 & HQ)] E.
  assert (has_room s) as Hroom by (split; lia).
  assert (op_ok codec stale o) as Hok by (by destruct o; try done; destruct Ho).
  pose proof (stream_step_tags _ _ _ _ E) as Ht. pose proof (stream_step_Q _ _ _ _ Ho E) as HQ'.
  apply stream_step_ok in E as (Hi' & Hq' & Ha' & Hc' & Hb & _); [|done..].
  apply (accounts_step _ _ _ _ _ Hl0) in Hb. split.
  - split; try done; [lia|lia|]. exists (l ++ l0). split; [done|]. by apply Forall_app.
  - by rewrite (accounts_stags _ _ Hb), (accounts_stags _ _ Hl0), fmap_app, Ht.
Qed.

Lemma drop_good n s : stream_good n s -> stream_good n (ClientStream_drop s) /\ stags (ClientStream_drop s) = stags s.
Proof.
  intros [Hi Ha Hq Hc (l & (xs & Hl) & HQ)]. split; [|done]. split; try done.
  - destruct Hi as [Hi Hb]. split; [by apply stop_reg_inv|done].
  - exists l. split; [|done]. by exists xs.
Qed.

(** *** Steps of coroutines *)

Definition handed (out : list (pool_out K)) : list K :=
  omap (fun o => match o with Handed t => Some t | Unhealthy _ => None end) out.

Lemma out_split (out : list (pool_out K)) :
  (key <$> (out_task <$> out)) ≡ₚ ((key ∘ event_task) <$> unhealthy_events out) ++ (key <$> handed out).
Proof.
  induction out as [|[t|t] out IH]; [done|..]; csimpl; rewrite IH.
  - apply Permutation_middle.
  - unfold unhealthy_event; simpl. by rewrite key_rpc_error.
Qed.

Lemma handed_unhealthy (l : list K) : handed (Unhealthy <$> l) = [].
Proof. induction l; [done|]. done. Qed.

(** What a coroutine hands out goes into its stream. *)
Lemma wake_hands e w p r :
  worker_wake (PoolStream0 := life_pool_stream codec stale wait_to) e w p = Some r ->
  match pc_stream (wk_pc w) with
  | None => handed (wo_out r) = []
      /\ match pc_stream (wk_pc (wo_self r)) with Some s => e = WConnected (Ok s) | None => True end
  | Some s =>
      (pc_stream (wk_pc (wo_self r)) = Some (stream_after codec stale wait_to e (wk_pc w) s)
       \/ pc_stream (wk_pc (wo_self r)) = None)
      /\ match wake_op e (wk_pc w) with
         | None => handed (wo_out r) = []
         | Some o => handed (wo_out r) = op_tasks o
             /\ is_Some (stream_step codec stale wait_to o s)
         end
  end.
Proof.
  unfold worker_wake, on_connected, after_connect, on_ping, on_monitor_sent, on_work_sent, on_flush,
    on_monitor_task, on_monitor_head, run_worker_exit, stream_after.
  intros E. destruct w as [id x]; simpl in E. repeat (case_match; simplify_eq/=); simplify_eq/=;
    try match goal with Hc : cleanup _ = _ |- _ => unfold cleanup in Hc; simplify_eq/= end;
    rewrite ?handed_unhealthy; eauto.
Qed.

(** *** The invariant of a client *)

(** After [n] steps in which [subs] were submitted. *)
Record client_inv (n : Z) (subs : list K) c : Prop := {
  ci_workers : Forall (worker_good n) (po_workers (cl_pool c));
  ci_streams : Forall (stream_good n) (cl_dropped c);
  ci_held : Forall (fun t => encodable codec stale t /\ Q t) (held (cl_pool c));
  ci_failed : Forall (fun ev => exists x, Q x /\ finishes codec x ev) (cl_failed c);
  ci_tags : key <$> subs ≡ₚ ((key ∘ event_task) <$> cl_failed c) ++ (key <$> held (cl_pool c))
              ++ mjoin (wtags <$> po_workers (cl_pool c)) ++ mjoin (stags <$> cl_dropped c);
}.

Lemma client_start_inv config cid addr size :
  client_inv 0 [] (client_start (K := K) (P := P) config cid addr size).
Proof. split; try done. by constructor. Qed.

Definition client_op_ok (o : client_op K P) : Prop :=
  match o with ClSend t => encodable codec stale t /\ Q t | _ => True end.

Lemma Forall_mono_workers n m ws :
  (n <= m)%Z -> Forall (worker_good n) ws -> Forall (worker_good m) ws.
Proof. intros Hle Hw. eapply list.Forall_impl; [exact Hw|]. intros w. by apply worker_good_mono. Qed.

Lemma Forall_mono_streams n m l :
  (n <= m)%Z -> Forall (stream_good n) l -> Forall (stream_good m) l.
Proof. intros Hle Hw. eapply list.Forall_impl; [exact Hw|]. intros x. by apply stream_good_mono. Qed.

(** What a step of the pool takes from its callers' tasks. *)
Lemma pool_step_held o p out p' :
  pool_step (PoolStream0 := life_pool_stream codec stale wait_to) o p = Some (out, p') ->
  Forall (fun t => encodable codec stale t /\ Q t) (held p ++ submitted [o]) ->
  Forall (fun t => encodable codec stale t /\ Q t) (held p')
  /\ Forall (fun ev => exists x, Q x /\ finishes codec x ev) (unhealthy_events out).
Proof.
  intros E Hf. apply pool_step_tasks in E. rewrite <- E in Hf. apply Forall_app in Hf as [Ho Hh]. split; [done|].
  clear E. induction out as [|[t|t] out IH]; csimpl in *; [constructor|..]; apply list.Forall_cons in Ho as [[_ Ht] Ho].
  - by apply IH.
  - constructor; [|by apply IH]. exists t. split; [done|]. constructor.
Qed.

(** A step of the pool that leaves the streams alone. *)
Lemma on_pool_inv n subs o c c' :
  on_pool codec stale wait_to o c = Some c' -> client_inv n subs c ->
  Forall (fun t => encodable codec stale t /\ Q t) (submitted [o]) ->
  Forall (worker_good (n + 1)) (po_workers (cl_pool c')) ->
  (forall out p, pool_step (PoolStream0 := life_pool_stream codec stale wait_to) o (cl_pool c) = Some (out, p) ->
     handed out = [] /\ mjoin (wtags <$> po_workers p) ≡ₚ mjoin (wtags <$> po_workers (cl_pool c))) ->
  client_inv (n + 1) (subs ++ submitted [o]) c'.
Proof.
  unfold on_pool. intros E [Hw Hs Hh Hf Ht] Ho Hw' Hp.
  destruct (pool_step o (cl_pool c)) as [[out p]|] eqn:Ep; [|done]. injection E as <-.
  destruct (Hp _ _ eq_refl) as [Hhand Htags].
  destruct (pool_step_held _ _ _ _ Ep) as [Hh' Hf']; [by apply Forall_app|].
  apply pool_step_tasks in Ep. split; simpl in *; rewrite ?app_nil_r; try done.
  - eapply Forall_mono_streams; [|exact Hs]. lia.
  - by apply Forall_app.
  - apply (fmap_Permutation key) in Ep. rewrite !fmap_app in Ep. pose proof (out_split out) as Hsp.
    rewrite Hhand, app_nil_r in Hsp. rewrite !fmap_app, Htags, Ht, <- Hsp.
    rewrite <- !app_assoc. apply Permutation_app_head.
    rewrite (app_assoc (key <$> (out_task <$> out))), Ep. solve_Permutation.
Qed.

Lemma wake_op_ok e w o :
  Forall (fun t => encodable codec stale t /\ Q t) (in_hand w) -> wake_op e (wk_pc w) = Some o -> stream_op_ok o.
Proof.
  unfold in_hand, wake_op. destruct w as [id x]; simpl. intros Hh E.
  destruct x as [| | | | |s t|s b|s t|], e; try done; try destruct b; simplify_eq/=; try done;
    by apply list.Forall_cons in Hh as [? _].
Qed.

(** A coroutine that is woken: its stream, and the one it leaves behind. *)
Lemma worker_step_streams n e w p r :
  (0 <= n)%Z -> (n + 2 < 2 ^ 64)%Z -> worker_good n w ->
  Forall (fun t => encodable codec stale t /\ Q t) (in_hand w) ->
  (forall s, e = WConnected (Ok s) -> stream_good (n + 1) s /\ stags s = []) ->
  worker_wake (PoolStream0 := life_pool_stream codec stale wait_to) e w p = Some r ->
  let left := left_behind codec stale wait_to e w (Some (wo_self r)) in
  worker_good (n + 1) (wo_self r) /\ Forall (stream_good (n + 1)) left
  /\ wtags (wo_self r) ++ mjoin (stags <$> left) ≡ₚ (key <$> handed (wo_out r)) ++ wtags w.
Proof.
  intros H0n Hn Hw Hh He E. apply wake_hands in E. unfold worker_good, wtags, left_behind in *. cbn zeta.
  destruct (pc_stream (wk_pc w)) as [s|] eqn:Es.
  - destruct E as [Hself Hop].
    assert (stream_good (n + 1) (stream_after codec stale wait_to e (wk_pc w) s)
      /\ stags (stream_after codec stale wait_to e (wk_pc w) s) ≡ₚ (key <$> handed (wo_out r)) ++ stags s) as [Hg Htg].
    { unfold stream_after. destruct (wake_op e (wk_pc w)) as [o|] eqn:Eo.
      - destruct Hop as [-> [[l s'] Est]]. rewrite Est. eapply stream_step_good; try done. by eapply wake_op_ok.
      - rewrite Hop. split; [eapply stream_good_mono; [|done]; lia|done]. }
    destruct Hself as [-> | ->].
    + split; [done|]. split; [constructor|]. by rewrite app_nil_r.
    + destruct (drop_good _ _ Hg) as [Hgd Htd]. split; [done|]. split; [by constructor|]. simpl.
      by rewrite Htd, app_nil_r.
  - destruct E as [-> Hself]. destruct (pc_stream (wk_pc (wo_self r))) as [s|]; [|done].
    destruct (He s Hself) as [Hg ->]. by split_and!.
Qed.

Lemma connecting_streams n ws :
  Forall (fun x => x = mkWorker 0 Connecting) ws -> Forall (worker_good n) ws /\ mjoin (wtags <$> ws) = [].
Proof. induction 1 as [|x ws -> _ [IH1 IH2]]; [done|]. split; [by constructor|done]. Qed.

Lemma in_hand_held p i w :
  po_workers p !! i = Some w -> forall R : K -> Prop, Forall R (held p) -> Forall R (in_hand w).
Proof.
  intros Ew R. unfold held. intros [_ Hw]%Forall_app. apply list.Forall_forall. intros t Ht.
  rewrite list.Forall_forall in Hw. apply Hw. apply list_elem_of_join. exists (in_hand w). split; [done|].
  apply list_elem_of_fmap. exists w. split; [done|]. by eapply list_elem_of_lookup_2.
Qed.

Lemma tags_moved (w W w' W' L D F U Hd G : list A) :
  w ++ W' ≡ₚ w' ++ W -> w' ++ L ≡ₚ G ++ w ->
  F ++ ((U ++ G) ++ Hd) ++ W ++ D ≡ₚ (F ++ U) ++ Hd ++ W' ++ D ++ L.
Proof.
  intros HW HL. apply (Permutation_app_inv_l w).
  transitivity ((w ++ W') ++ L ++ F ++ U ++ Hd ++ D); [|solve_Permutation]. rewrite HW.
  transitivity ((w' ++ L) ++ W ++ F ++ U ++ Hd ++ D); [|solve_Permutation]. rewrite HL. solve_Permutation.
Qed.

Lemma client_worker_inv n subs i e c c' :
  (0 <= n)%Z -> (n + 2 < 2 ^ 64)%Z -> client_inv n subs c ->
  client_step codec stale wait_to (ClWorker i e) c = Some c' -> client_inv (n + 1) subs c'.
Proof.
  intros H0n Hn Hi. pose proof Hi as [Hw Hs Hh Hf Ht]. cbn [client_step]. cbn zeta.
  destruct (po_workers (cl_pool c) !! i) as [w|] eqn:Ew; [|done].
  destruct (pool_step _ (cl_pool c)) as [[out p]|] eqn:Ep; [|done]. intros [= <-].
  destruct (pool_step_held _ _ _ _ Ep) as [Hh' Hf']; [by rewrite app_nil_r|].
  pose proof (pool_step_tasks _ _ _ _ Ep) as Htasks. simpl in Ep. rewrite Ew in Ep.
  destruct (worker_wake _ w (cl_pool c)) as [r|] eqn:Er; [|done]. injection Ep as <- <-.
  pose proof (worker_wake_ok _ _ _ _ Er) as Hok. destruct (connecting_streams (n + 1) _ (so_spawned _ _ _ Hok)) as [Hsp1 Hsp2].
  destruct (worker_step_streams n (wake_stream (cl_config c) (cl_client_id c) e) w (cl_pool c) r) as (Hg & Hl & Htg);
    [done|done|by eapply Forall_lookup_1|by eapply in_hand_held| |done|].
  { intros s Ec. destruct e; try done. unfold wake_stream, ClientStream_connect in Ec.
    destruct r0; simplify_eq. split; [|done]. apply Inner_new_good. lia. }
  cbn [put_pool cl_pool po_workers put_workers].
  rewrite lookup_app_l by (rewrite length_insert; by eapply lookup_lt_Some).
  rewrite list_lookup_insert_eq by (by eapply lookup_lt_Some).
  split; cbn [put_pool cl_pool cl_dropped cl_failed po_workers put_workers].
  - apply Forall_app. split; [|done]. apply Forall_insert; [|done]. eapply Forall_mono_workers; [|done]. lia.
  - apply Forall_app. split; [|done]. eapply Forall_mono_streams; [|done]. lia.
  - done.
  - by apply Forall_app.
  - apply (fmap_Permutation key) in Htasks. unfold submitted in Htasks. simpl in Htasks.
    rewrite !app_nil_r, fmap_app, out_split in Htasks. rewrite Ht.
    rewrite !fmap_app, !join_app, Hsp2, app_nil_r. rewrite <- Htasks.
    eapply tags_moved; [by apply (join_map_insert wtags)|done].
Qed.

Lemma client_receiver_inv n subs i o c c' :
  (0 <= n)%Z -> (n + 2 < 2 ^ 64)%Z -> client_inv n subs c ->
  client_step codec stale wait_to (ClReceiver i o) c = Some c' -> client_inv (n + 1) subs c'.
Proof.
  intros H0n Hn Hi. pose proof (ci_workers _ _ _ Hi) as Hw. cbn [client_step].
  destruct (po_workers (cl_pool c) !! i) as [w|] eqn:Ew; [|done].
  destruct (pc_stream (wk_pc w)) as [s|] eqn:Es; [|done].
  destruct (stream_step codec stale wait_to (recv_stream_op o) s) as [[l s']|] eqn:E; [|done]. intros E'.
  pose proof (Forall_lookup_1 _ _ _ _ Hw Ew) as Hg. unfold worker_good in Hg. rewrite Es in Hg.
  apply (stream_step_good n) in E as [Hg' Ht']; [|done|by destruct o|done].
  assert (op_tasks (recv_stream_op (K := K) o) = []) as Hno by (by destruct o). rewrite Hno in Ht'.
  set (w' := mkWorker (wk_id w) (map_stream (fun _ => s') (wk_pc w))).
  assert (pc_stream (wk_pc w') = Some s') as Es' by (unfold w'; by destruct (wk_pc w)).
  rewrite <- (app_nil_r subs). eapply (on_pool_inv n subs (PoReceiver i (fun _ => s'))); [exact E'|done|constructor| |].
  - unfold on_pool in E'. simpl in E'. rewrite Ew in E'. injection E' as <-. simpl.
    apply Forall_insert; [eapply Forall_mono_workers; [|done]; lia|]. fold w'. unfold worker_good. by rewrite Es'.
  - intros out p. simpl. rewrite Ew. intros [= <- <-]. split; [done|]. simpl. fold w'.
    apply (Permutation_app_inv_l (wtags w)). rewrite (join_map_insert wtags _ _ _ w' Ew).
    apply Permutation_app_tail. unfold wtags. by rewrite Es, Es'.
Qed.

Lemma client_dropped_inv n subs k o c c' :
  (n + 2 < 2 ^ 64)%Z -> client_inv n subs c ->
  client_step codec stale wait_to (ClDropped k o) c = Some c' -> client_inv (n + 1) subs c'.
Proof.
  intros Hn [Hw Hs Hh Hf Ht]. cbn [client_step]. destruct (cl_dropped c !! k) as [s|] eqn:Ek; [|done].
  destruct (stream_step codec stale wait_to (recv_stream_op o) s) as [[l s']|] eqn:E; [|done]. intros [= <-].
  apply (stream_step_good n) in E as [Hg' Ht']; [|done|by destruct o|by eapply Forall_lookup_1].
  assert (op_tasks (recv_stream_op (K := K) o) = []) as Hno by (by destruct o). rewrite Hno in Ht'.
  split; simpl; try done.
  - eapply Forall_mono_workers; [|done]. lia.
  - apply Forall_insert; [eapply Forall_mono_streams; [|done]; lia|done].
  - rewrite Ht. do 3 apply Permutation_app_head. apply (Permutation_app_inv_l (stags s)).
    rewrite (join_map_insert stags _ _ _ s' Ek). by rewrite Ht'.
Qed.

Lemma client_step_inv n subs o c c' :
  (0 <= n)%Z -> (n + 2 < 2 ^ 64)%Z -> client_op_ok o -> client_inv n subs c ->
  client_step codec stale wait_to o c = Some c' -> client_inv (n + 1) (subs ++ client_submitted [o]) c'.
Proof.
  intros H0n Hn Ho Hi. pose proof (ci_workers _ _ _ Hi) as Hw.
  assert (Forall (worker_good (n + 1)) (po_workers (cl_pool c))) as Hw1
    by (eapply Forall_mono_workers; [|done]; lia).
  destruct o as [t| | |i e|i o|k o|]; rewrite ?app_nil_r.
  - intros E. eapply (on_pool_inv n subs (PoSend t)); [exact E|done|apply list.Forall_cons_2; [exact Ho|apply list.Forall_nil_2]| |].
    + unfold client_step, on_pool in E. simpl in E. unfold pool_send_req in E.
      destruct (po_tx (cl_pool c)); [|done]. destruct (_ <? _)%Z; by simplify_eq/=.
    + intros out p. simpl. unfold pool_send_req. intros Ep. repeat case_match; by simplify_eq/=.
  - intros E. rewrite <- (app_nil_r subs). eapply (on_pool_inv n subs PoSpawn); [exact E|done|constructor| |].
    + unfold client_step, on_pool in E. simpl in E. destruct (po_tx (cl_pool c)); simplify_eq/=.
      apply Forall_app. split; [done|]. by repeat constructor.
    + intros out p. simpl. intros Ep. case_match; simplify_eq/=. split; [done|].
      by rewrite fmap_app, join_app, app_nil_r.
  - intros E. rewrite <- (app_nil_r subs). eapply (on_pool_inv n subs PoDropTx); [exact E|done|constructor| |].
    + unfold client_step, on_pool in E. by simplify_eq/=.
    + intros out p [= <- <-]. done.
  - by apply client_worker_inv.
  - by apply client_receiver_inv.
  - by apply client_dropped_inv.
  - intros E. rewrite <- (app_nil_r subs). eapply (on_pool_inv n subs PoDrop); [exact E|done|constructor| |].
    + unfold client_step, on_pool in E. simpl in E. unfold cleanup in E. destruct (_ && _); by simplify_eq/=.
    + intros out p. simpl. unfold cleanup. intros Ep. case_match; simplify_eq/=. by rewrite handed_unhealthy.
Qed.

Lemma client_steps_inv n subs ops c c' :
  (0 <= n)%Z -> (n + zlen ops + 1 < 2 ^ 64)%Z -> Forall client_op_ok ops -> client_inv n subs c ->
  client_steps codec stale wait_to ops c = Some c' ->
  client_inv (n + zlen ops) (subs ++ client_submitted ops) c'.
Proof.
  intros H0n Hn Hops. revert n subs c H0n Hn. induction Hops as [|o ops Ho _ IH]; intros n subs c H0n Hn Hi.
  - intros [= <-]. rewrite app_nil_r. change (zlen []) with 0%Z. by rewrite Z.add_0_r.
  - cbn [client_steps]. destruct (client_step codec stale wait_to o c) as [c1|] eqn:E; [|done]. intros E'.
    unfold zlen in Hn. cbn [length] in Hn. apply (client_step_inv n subs) in E; [|lia|lia|done|done].
    apply (IH (n + 1)%Z (subs ++ client_submitted [o]) c1) in E'; [|lia|unfold zlen; lia|done].
    replace (n + zlen (o :: ops))%Z with (n + 1 + zlen ops)%Z by (unfold zlen; cbn [length]; lia).
    replace (subs ++ client_submitted (o :: ops)) with ((subs ++ client_submitted [o]) ++ client_submitted ops);
      [done|]. rewrite <- app_assoc. f_equal. unfold client_submitted. rewrite <- omap_app. done.
Qed.

Lemma wtags_streams ws : mjoin (wtags <$> ws) = mjoin (stags <$> omap (pc_stream ∘ wk_pc) ws).
Proof.
  induction ws as [|w ws IH]; [done|]. csimpl. rewrite IH. unfold wtags. simpl.
  by destruct (pc_stream (wk_pc w)).
Qed.

Lemma stags_split (l : list (ClientStreamInner K P)) :
  mjoin (stags <$> l) ≡ₚ ((key ∘ event_task) <$> mjoin (ci_events <$> l))
                         ++ (key <$> mjoin ((fun s => live_tasks (ci_timer s)) <$> l)).
Proof.
  induction l as [|s l IH]; [done|]. csimpl. rewrite IH, !fmap_app. unfold stags. solve_Permutation.
Qed.

Lemma stream_good_events n s :
  stream_good n s -> Forall (fun ev => exists x, Q x /\ finishes codec x ev) (ci_events s).
Proof.
  intros [_ _ _ _ (l & (xs & Hxs & Hp) & HQ)]. rewrite Hp in HQ. apply Forall_app in HQ as [HQ _]. clear Hp.
  induction Hxs as [|x ev xs evs Hx _ IH]; [constructor|]. apply list.Forall_cons in HQ as [? ?].
  constructor; [by exists x|by apply IH].
Qed.

Lemma client_inv_streams n subs c : client_inv n subs c -> Forall (stream_good n) (client_streams c).
Proof.
  intros [Hw Hs _ _ _]. unfold client_streams. apply Forall_app. split; [|done].
  induction Hw as [|w ws Hw _ IH]; [constructor|]. csimpl. unfold worker_good in Hw.
  by destruct (pc_stream (wk_pc w)); [constructor|].
Qed.

(** Along any run of a client the tasks submitted are, each once, finished or
    still waiting; what was finished was finished as a task of a caller. *)
Lemma client_accounts config cid addr size ops c :
  Forall client_op_ok ops -> (zlen ops < 2 ^ 63)%Z ->
  client_steps codec stale wait_to ops (client_start config cid addr size) = Some c ->
  key <$> client_submitted ops ≡ₚ ((key ∘ event_task) <$> client_events c) ++ (key <$> client_waiting c)
  /\ Forall (fun ev => exists x, Q x /\ finishes codec x ev) (client_events c).
Proof.
  intros Hops Hlen E.
  apply (client_steps_inv 0 []) in E; [|lia|lia|done|apply client_start_inv]. split.
  - rewrite <- (app_nil_l (client_submitted ops)), (ci_tags _ _ _ E), wtags_streams, <- join_app, <- fmap_app.
    change (omap _ _ ++ cl_dropped c) with (client_streams c). rewrite stags_split.
    unfold client_events, client_waiting. rewrite !fmap_app. solve_Permutation.
  - unfold client_events. apply Forall_app. split; [apply E|]. apply Forall_join, Forall_fmap.
    eapply list.Forall_impl; [by eapply client_inv_streams|]. intros s. apply stream_good_events.
Qed.
End accounts.
