(* ===== verification/Failover.v ===== *)
(** * stream/src/client/failover.rs: retrying over several addresses

    A failover pool owns one [ClientPool] per address, selects one for each
    request, and sends a request that failed with a retriable error again to
    the next healthy pool.  The pools are shared (the cluster configuration
    that is replaced by [update_addrs] keeps some of them), so they live in a
    store and a configuration lists their places in it.  [fo_step] is one
    atomic step of a caller, of the retry worker, of a pool, or of a stream
    that finishes a task. *)

From S2P Require Import Prelude RustStd Errors Config Task ClientTaskMacro Buffer Proto BufIO.
From S2P Require Import Sock Timer TcpClient ClientStream Pool.

(** ** [FailoverTask] *)

Record FailoverTask (K : Type) := mkFailoverTask {
  ft_last_index : Z;
  ft_cluster_ver : Z;
  ft_inner : K;
  ft_retry : Z;
  ft_should_retry : bool;
}.
Arguments mkFailoverTask {K} ft_last_index ft_cluster_ver ft_inner ft_retry ft_should_retry.
Arguments ft_last_index {K} f.
Arguments ft_cluster_ver {K} f.
Arguments ft_inner {K} f.
Arguments ft_retry {K} f.
Arguments ft_should_retry {K} f.

Section task.
Context {C K : Type} `{ClientTask C K}.
Let T := FailoverTask K.

Definition ft_put_inner (k : K) (t : T) : T :=
  mkFailoverTask (ft_last_index t) (ft_cluster_ver t) k (ft_retry t) (ft_should_retry t).
Definition ft_put_retry (n : Z) (b : bool) (t : T) : T :=
  mkFailoverTask (ft_last_index t) (ft_cluster_ver t) (ft_inner t) n b.
Definition ft_put_index (i ver : Z) (t : T) : T :=
  mkFailoverTask i ver (ft_inner t) (ft_retry t) (ft_should_retry t).

Definition FailoverTask_set_custom_error (codec : C) (t : T) (e : EncodedErr) : T :=
  ft_put_inner (set_custom_error codec (ft_inner t) e) (ft_put_retry (ft_retry t) false t).

(** Errors below [Method] are worth a retry. *)
Definition FailoverTask_set_rpc_error (t : T) (e : RpcIntErr) : T :=
  let t := if RpcIntErr_lt e Method then ft_put_retry (as_usize (ft_retry t + 1)) true t
           else ft_put_retry (ft_retry t) false t in
  ft_put_inner (set_rpc_error (ft_inner t) e) t.

Definition FailoverTask_decode_resp (codec : C) (t : T) (buf : bytes) : result unit unit * T :=
  let '(r, k) := decode_resp codec (ft_inner t) buf in (r, ft_put_inner k t).

Definition FailoverTask_reserve_resp_blob (t : T) (size : Z) : option Z * T :=
  let '(r, k) := reserve_resp_blob (ft_inner t) size in (r, ft_put_inner k t).

#[export] Instance FailoverTask_ClientTask : ClientTask C T := {|
  get_action t := get_action (ft_inner t);
  encode_req c t buf := encode_req c (ft_inner t) buf;
  get_req_blob t := get_req_blob (ft_inner t);
  decode_resp := FailoverTask_decode_resp;
  reserve_resp_blob := FailoverTask_reserve_resp_blob;
  put_resp_blob t bs := ft_put_inner (put_resp_blob (ft_inner t) bs) t;
  set_custom_error := FailoverTask_set_custom_error;
  set_rpc_error := FailoverTask_set_rpc_error;
  set_ok t := ft_put_inner (set_ok (ft_inner t)) t;
  task_common t := task_common (ft_inner t);
  set_common t c := ft_put_inner (set_common (ft_inner t) c) t;
|}.
End task.

#[export] Instance FailoverTask_Laws {C K} `{ClientTaskLaws C K} : ClientTaskLaws C (FailoverTask K).
Proof.
  split; unfold task_common, set_common, set_rpc_error, set_custom_error, set_ok, decode_resp,
    reserve_resp_blob, put_resp_blob; simpl; intros.
  - by eapply encode_req_appends.
  - apply common_set.
  - unfold FailoverTask_set_rpc_error. destruct (RpcIntErr_lt e Method); apply common_rpc_error.
  - apply common_custom_error.
  - apply common_ok.
  - unfold FailoverTask_decode_resp. pose proof (common_decode c (ft_inner t) bs) as Hc.
    by destruct (decode_resp c (ft_inner t) bs).
  - unfold FailoverTask_reserve_resp_blob. pose proof (common_reserve (ft_inner t) size) as Hc.
    by destruct (reserve_resp_blob (ft_inner t) size).
  - apply common_put_blob.
  - unfold FailoverTask_reserve_resp_blob in *.
    destruct (reserve_resp_blob (ft_inner t) size) as [r k] eqn:E. simplify_eq/=. by eapply reserve_len.
Qed.

(** ** State *)

(** [ClusterConfig]: the places of its pools in the store. *)
Record ClusterConfig := mkCluster { cl_pools : list nat; cl_ver : Z }.

Record FailoverPool (K S : Type) := mkFailoverPool {
  fo_cluster : option ClusterConfig;
  fo_round_robin : bool;
  fo_retry_limit : Z;
  fo_ver : Z;
  fo_rr_counter : Z;
  fo_pool_channel_size : Z;
  fo_config : ClientConfig;
  fo_store : list (ClientPool (FailoverTask K) S);   (* every pool ever made *)
  fo_sending : list (bool * nat * FailoverTask K);   (* awaiting a pool's channel; from the retry worker? *)
  fo_flight : list (FailoverTask K);                 (* handed to a stream *)
  fo_retry : list (FailoverTask K);                  (* the retry channel *)
  fo_done : list K;                                  (* inner tasks on which [done] was called *)
}.
Arguments mkFailoverPool {K S} fo_cluster fo_round_robin fo_retry_limit fo_ver fo_rr_counter
  fo_pool_channel_size fo_config fo_store fo_sending fo_flight fo_retry fo_done.
Arguments fo_cluster {K S} f.
Arguments fo_round_robin {K S} f.
Arguments fo_retry_limit {K S} f.
Arguments fo_ver {K S} f.
Arguments fo_rr_counter {K S} f.
Arguments fo_pool_channel_size {K S} f.
Arguments fo_config {K S} f.
Arguments fo_store {K S} f.
Arguments fo_sending {K S} f.
Arguments fo_flight {K S} f.
Arguments fo_retry {K S} f.
Arguments fo_done {K S} f.

Section failover.
Context {C K S : Type} `{ClientTask C K} `{!PoolStream (FailoverTask K) S}.
Let F := FailoverPool K S.

Definition put_cluster (c : option ClusterConfig) (ver : Z) (f : F) : F :=
  mkFailoverPool c (fo_round_robin f) (fo_retry_limit f) ver (fo_rr_counter f)
    (fo_pool_channel_size f) (fo_config f) (fo_store f) (fo_sending f) (fo_flight f) (fo_retry f)
    (fo_done f).
Definition put_rr (n : Z) (f : F) : F :=
  mkFailoverPool (fo_cluster f) (fo_round_robin f) (fo_retry_limit f) (fo_ver f) n
    (fo_pool_channel_size f) (fo_config f) (fo_store f) (fo_sending f) (fo_flight f) (fo_retry f)
    (fo_done f).
Definition put_store (l : list (ClientPool (FailoverTask K) S)) (f : F) : F :=
  mkFailoverPool (fo_cluster f) (fo_round_robin f) (fo_retry_limit f) (fo_ver f) (fo_rr_counter f)
    (fo_pool_channel_size f) (fo_config f) l (fo_sending f) (fo_flight f) (fo_retry f) (fo_done f).
Definition put_sending (l : list (bool * nat * FailoverTask K)) (f : F) : F :=
  mkFailoverPool (fo_cluster f) (fo_round_robin f) (fo_retry_limit f) (fo_ver f) (fo_rr_counter f)
    (fo_pool_channel_size f) (fo_config f) (fo_store f) l (fo_flight f) (fo_retry f) (fo_done f).
Definition put_flight (l : list (FailoverTask K)) (f : F) : F :=
  mkFailoverPool (fo_cluster f) (fo_round_robin f) (fo_retry_limit f) (fo_ver f) (fo_rr_counter f)
    (fo_pool_channel_size f) (fo_config f) (fo_store f) (fo_sending f) l (fo_retry f) (fo_done f).
Definition put_retry (l : list (FailoverTask K)) (f : F) : F :=
  mkFailoverPool (fo_cluster f) (fo_round_robin f) (fo_retry_limit f) (fo_ver f) (fo_rr_counter f)
    (fo_pool_channel_size f) (fo_config f) (fo_store f) (fo_sending f) (fo_flight f) l (fo_done f).

Definition store_pool (id : nat) (p : ClientPool (FailoverTask K) S) (f : F) : F :=
  put_store (<[id := p]> (fo_store f)) f.

(** [inner.done()] *)
Definition done_inner (k : K) (f : F) : F :=
  mkFailoverPool (fo_cluster f) (fo_round_robin f) (fo_retry_limit f) (fo_ver f) (fo_rr_counter f)
    (fo_pool_channel_size f) (fo_config f) (fo_store f) (fo_sending f) (fo_flight f) (fo_retry f)
    (fo_done f ++ [k]).

(** ** Operations *)

(** [new]: the pools of the addresses, in order. *)
Definition FailoverPool_new (config : ClientConfig) (addrs : list bytes) (round_robin : bool)
    (retry_limit pool_channel_size : Z) : F :=
  mkFailoverPool (Some (mkCluster (seq 0 (length addrs)) 0)) round_robin retry_limit 1 0
    pool_channel_size config
    ((fun addr => ClientPool_new config addr pool_channel_size) <$> addrs) [] [] [] [].

(** The loop of [update_addrs]: a pool of the old configuration is reused, and
    leaves the map, or a new one is made at the end of the store. *)
Fixpoint update_pools (addrs : list bytes) (old : gmap (list byte) nat)
    (store : list (ClientPool (FailoverTask K) S)) (config : ClientConfig) (size : Z)
    : list nat * list (ClientPool (FailoverTask K) S) :=
  match addrs with
  | [] => ([], store)
  | addr :: addrs =>
      match old !! addr with
      | Some i =>
          let '(l, store) := update_pools addrs (delete addr old) store config size in
          (i :: l, store)
      | None =>
          let '(l, store') :=
            update_pools addrs old (store ++ [ClientPool_new config addr size]) config size in
          (length store :: l, store')
      end
  end.

(** The old pools by address; of two with the same address the later one stays. *)
Definition old_pools_map (ids : list nat) (store : list (ClientPool (FailoverTask K) S))
    : gmap (list byte) nat :=
  foldl (fun m i => match store !! i with Some p => <[get_addr p := i]> m | None => m end) ∅ ids.

Definition update_addrs (addrs : list bytes) (f : F) : F :=
  let old := match fo_cluster f with Some c => cl_pools c | None => [] end in
  let '(l, store) := update_pools addrs (old_pools_map old (fo_store f)) (fo_store f)
                       (fo_config f) (fo_pool_channel_size f) in
  let new_ver := as_u64 (as_u64 (fo_ver f + 1)) in
  put_cluster (Some (mkCluster l new_ver)) (as_u64 (fo_ver f + 1)) (put_store store f).

(** The loop of [select]: [n] candidates from index [i] on. *)
Fixpoint find_healthy (store : list (ClientPool (FailoverTask K) S)) (pools : list nat)
    (n : nat) (i : Z) : option (Z * nat) :=
  match n with
  | O => None
  | Datatypes.S n =>
      match pools !! Z.to_nat (i mod zlen pools) with
      | None => None
      | Some id =>
          if match store !! id with Some p => is_healthy p | None => false end
          then Some (i, id)
          else find_healthy store pools n (i + 1)
      end
  end.

(** [select], from [seed] to [seed + l] in [usize]; with the round-robin
    counter it leaves. *)
Definition select (f : F) (c : ClusterConfig) (last_index : option Z) : option (Z * nat) * F :=
  let l := zlen (cl_pools c) in
  if (l =? 0)%Z then (None, f)
  else
    let '(seed, f) :=
      match last_index with
      | Some index => (as_usize (index + 1), f)
      | None =>
          if fo_round_robin f
          then (fo_rr_counter f, put_rr (as_usize (fo_rr_counter f + 1)) f)
          else (0%Z, f)
      end in
    (find_healthy (fo_store f) (cl_pools c) (Z.to_nat (as_usize (seed + l) - seed)) seed, f).

(** [send_req] and [send_req_blocking], up to the wait on the pool's channel. *)
Definition fo_send_req (task : K) (f : F) : F :=
  let failed f := done_inner (set_rpc_error task Unreachable) f in
  match fo_cluster f with
  | None => failed f
  | Some c =>
      match select f c None with
      | (Some (index, id), f) =>
          put_sending (fo_sending f ++ [(false, id, mkFailoverTask index (cl_ver c) task 0 false)]) f
      | (None, f) => failed f
      end
  end.

(** [error_handle]; the retry worker holds the receiver, so the channel takes
    the task. *)
Definition error_handle (t : FailoverTask K) (f : F) : F :=
  if ft_should_retry t && (ft_retry t <=? fo_retry_limit f)%Z
  then put_retry (fo_retry f ++ [t]) f
  else done_inner (ft_inner t) f.

(** What is done with a task a pool or a stream has finished: [FailoverTask::done]
    is [done] of the inner task. *)
Definition handle_event (ev : task_event (FailoverTask K)) (f : F) : F :=
  match ev with EvDone t => done_inner (ft_inner t) f | EvErrorHandle t => error_handle t f end.

(** One iteration of [retry_worker], up to the wait on the pool's channel;
    [alive] when the weak reference can be upgraded. *)
Definition retry_iter (alive : bool) (t : FailoverTask K) (f : F) : F :=
  match alive, fo_cluster f with
  | true, Some c =>
      let '(last_index, t) :=
        if (cl_ver c =? ft_cluster_ver t)%Z then (Some (ft_last_index t), t)
        else (None, ft_put_index (ft_last_index t) (cl_ver c) t) in
      match select f c last_index with
      | (Some (index, id), f) =>
          put_sending (fo_sending f ++ [(true, id, ft_put_index index (ft_cluster_ver t) t)]) f
      | (None, f) => done_inner (ft_inner t) f
      end
  | _, _ => done_inner (ft_inner t) f
  end.

(** [Drop for FailoverPool] *)
Definition FailoverPool_drop (f : F) : F := put_cluster None (fo_ver f) f.

(** ** The machine *)

(** How a stream finishes a task it was handed. *)
Inductive outcome := OutOk | OutRpc (e : RpcIntErr) | OutCustom (e : EncodedErr).

Definition finish (codec : C) (o : outcome) (t : FailoverTask K) (f : F) : F :=
  match o with
  | OutOk => handle_event (EvDone (set_ok t)) f
  | OutRpc e => handle_event (EvErrorHandle (set_rpc_error t e)) f
  | OutCustom e => handle_event (EvErrorHandle (set_custom_error codec t e)) f
  end.

(** What a pool did with a task. *)
Definition pool_outs (outs : list (pool_out (FailoverTask K))) (f : F) : F :=
  foldl (fun f o =>
    match o with
    | Handed t => put_flight (fo_flight f ++ [t]) f
    | Unhealthy t => handle_event (unhealthy_event t) f
    end) f outs.

Inductive fo_op :=
| FoSend (task : K)
| FoDeliver (n : nat)                  (* the [n]th waiting send gets its place *)
| FoRetry (alive : bool)               (* the retry worker takes a task *)
| FoUpdate (addrs : list bytes)
| FoRelease (id : nat)                 (* the last handle of a pool goes *)
| FoPool (id : nat) (o : pool_op (FailoverTask K) S)   (* a pool's own step *)
| FoFinish (n : nat) (seq : Z) (o : outcome)  (* a stream finishes a task *)
| FoDrop.

(** The steps of a pool that need no handle. *)
Definition own_step (o : pool_op (FailoverTask K) S) : bool :=
  match o with PoWorker _ _ | PoReceiver _ _ | PoDrop => true | _ => false end.

Definition in_cluster (id : nat) (f : F) : bool :=
  match fo_cluster f with Some c => existsb (Nat.eqb id) (cl_pools c) | None => false end.

Definition sending_to (id : nat) (f : F) : bool :=
  existsb (fun x => Nat.eqb id x.1.2) (fo_sending f).

Definition fo_step (codec : C) (o : fo_op) (f : F) : option F :=
  match o with
  | FoSend task => Some (fo_send_req task f)
  | FoDeliver n =>
      match fo_sending f !! n with
      | Some (_, id, t) =>
          match fo_store f !! id with
          | Some p =>
              match pool_send_req t p with
              | (Ready _, p) =>
                  Some (put_sending (delete n (fo_sending f)) (store_pool id p f))
              | (Pending, _) => None
              end
          | None => None
          end
      | None => None
      end
  | FoRetry alive =>
      if existsb (fun x => x.1.1) (fo_sending f) then None
      else
        match fo_retry f with
        | t :: rest => Some (retry_iter alive t (put_retry rest f))
        | [] => None
        end
  | FoUpdate addrs => Some (update_addrs addrs f)
  | FoRelease id =>
      match fo_store f !! id with
      | Some p =>
          if in_cluster id f || sending_to id f then None
          else Some (store_pool id (put_tx false p) f)
      | None => None
      end
  | FoPool id o =>
      match fo_store f !! id with
      | Some p =>
          if own_step o then
            match pool_step o p with
            | Some (outs, p) => Some (pool_outs outs (store_pool id p f))
            | None => None
            end
          else None
      | None => None
      end
  | FoFinish n seq o =>
      match fo_flight f !! n with
      | Some t => Some (finish codec o (task_set_seq t seq) (put_flight (delete n (fo_flight f)) f))
      | None => None
      end
  | FoDrop => Some (FailoverPool_drop f)
  end.

Fixpoint fo_run (codec : C) (ops : list fo_op) (f : F) : option F :=
  match ops with
  | [] => Some f
  | o :: ops =>
      match fo_step codec o f with
      | Some f => fo_run codec ops f
      | None => None
      end
  end.
End failover.
Arguments fo_op K S : clear implicits.

(** ** Selection *)

Section selection.
Context {C K S : Type} `{ClientTask C K} `{!PoolStream (FailoverTask K) S}.
Implicit Types (f : FailoverPool K S) (c : ClusterConfig) (store : list (ClientPool (FailoverTask K) S)).

Definition healthy store (id : nat) : bool :=
  match store !! id with Some p => is_healthy p | None => false end.

(** The pool that index [i] stands for is healthy. *)
Definition healthy_at store (pools : list nat) (i : Z) : bool :=
  match pools !! Z.to_nat (i mod zlen pools) with Some id => healthy store id | None => false end.

Lemma pools_at (pools : list nat) i :
  pools <> [] -> exists id, pools !! Z.to_nat (i mod zlen pools) = Some id.
Proof.
  intros Hne. apply lookup_lt_is_Some_2.
  pose proof (Z.mod_pos_bound i (zlen pools) (zlen_pos _ Hne)). unfold zlen in *. lia.
Qed.

Lemma find_healthy_spec store pools n i :
  pools <> [] ->
  match find_healthy store pools n i with
  | Some (j, id) => (i <= j < i + Z.of_nat n)%Z /\ pools !! Z.to_nat (j mod zlen pools) = Some id
      /\ healthy store id = true /\ forall k, (i <= k < j)%Z -> healthy_at store pools k = false
  | None => forall k, (i <= k < i + Z.of_nat n)%Z -> healthy_at store pools k = false
  end.
Proof.
  intros Hne. revert i. induction n as [|n IH]; intros i; simpl; [lia|].
  destruct (pools_at pools i Hne) as [id Hid]. rewrite Hid.
  change (match store !! id with Some p => is_healthy p | None => false end) with (healthy store id).
  assert (healthy_at store pools i = healthy store id) as Hi by (unfold healthy_at; by rewrite Hid).
  destruct (healthy store id) eqn:Eh.
  - split; [lia|]. split; [done|]. split; [done|]. lia.
  - specialize (IH (i + 1)%Z). destruct (find_healthy store pools n (i + 1)) as [[j id']|].
    + destruct IH as (Hj & Hl & Hh & Hk). split; [lia|]. split; [done|]. split; [done|].
      intros k Hr. destruct (decide (k = i)) as [->|]; [done|]. apply Hk. lia.
    + intros k Hr. destruct (decide (k = i)) as [->|]; [done|]. apply IH. lia.
Qed.

(** The residue of [j] within the [l] candidates that start at [seed]. *)
Lemma candidate (l seed j : Z) :
  (0 < l)%Z -> exists k, (seed <= k < seed + l /\ k mod l = j mod l)%Z.
Proof.
  intros Hl. exists (seed + (j - seed) mod l)%Z.
  pose proof (Z.mod_pos_bound (j - seed) l Hl). split; [lia|].
  rewrite Z.add_mod_idemp_r by lia. f_equal. lia.
Qed.

Lemma healthy_at_mod store pools i j :
  (i mod zlen pools = j mod zlen pools)%Z -> healthy_at store pools i = healthy_at store pools j.
Proof. intros E. unfold healthy_at. by rewrite E. Qed.

Lemma mod_eq_far (l a b : Z) : (0 < l -> a mod l = b mod l -> a < b -> a + l <= b)%Z.
Proof.
  intros Hl E Hab. pose proof (Z.div_mod a l). pose proof (Z.div_mod b l).
  assert (a / l < b / l)%Z by nia. nia.
Qed.

Lemma select_find f c last_index :
  cl_pools c <> [] ->
  let seed := match last_index with
              | Some i => as_usize (i + 1)
              | None => if fo_round_robin f then fo_rr_counter f else 0%Z
              end in
  (0 <= seed)%Z -> (seed + zlen (cl_pools c) < 2 ^ 64)%Z ->
  (select f c last_index).1
  = find_healthy (fo_store f) (cl_pools c) (length (cl_pools c)) seed.
Proof.
  intros Hne seed Hs Hb. unfold select.
  assert ((zlen (cl_pools c) =? 0)%Z = false) as ->.
  { apply Z.eqb_neq. pose proof (zlen_pos _ Hne). lia. }
  assert (as_usize (seed + zlen (cl_pools c)) - seed = zlen (cl_pools c))%Z as Hn.
  { unfold as_usize. rewrite wrap_small; [lia|]. unfold in_u, zlen in *. lia. }
  unfold seed in *. destruct last_index; [|destruct (fo_round_robin f)]; simpl;
    rewrite Hn; unfold zlen; by rewrite Nat2Z.id.
Qed.
End selection.

(** ** The life of a task

    An abstract account of the failover pool: the tasks in circulation, each
    either with a pool ([false]) or queued for a retry ([true]), and the tasks
    whose owner was told. *)

Section life.
Context {C K A : Type} `{TaskKey C K A}.
Variable limit : Z.

Definition life : Type := list (bool * FailoverTask K) * list K.

Inductive label := Submit (a : A) | Resend | Tau.

Definition same_key (t t' : FailoverTask K) : Prop := key (ft_inner t') = key (ft_inner t).

Inductive life_step : label -> life -> life -> Prop :=
| ls_new t l d : ft_retry t = 0%Z -> life_step (Submit (key (ft_inner t))) (l, d) ((false, t) :: l, d)
| ls_refused a k l d : key k = a -> life_step (Submit a) (l, d) (l, d ++ [k])
| ls_requeue t t' l d :
    same_key t t' -> (ft_retry t' = ft_retry t + 1)%Z -> (ft_retry t' <= limit)%Z ->
    life_step Tau ((false, t) :: l, d) ((true, t') :: l, d)
| ls_resend t t' l d :
    same_key t t' -> ft_retry t' = ft_retry t ->
    life_step Resend ((true, t) :: l, d) ((false, t') :: l, d)
| ls_touch q t t' l d :
    same_key t t' -> ft_retry t' = ft_retry t -> life_step Tau ((q, t) :: l, d) ((q, t') :: l, d)
| ls_done q t k l d :
    key k = key (ft_inner t) -> life_step Tau ((q, t) :: l, d) (l, d ++ [k]).

(** Steps one after the other, on tasks in any order. *)
Inductive life_run : list label -> life -> life -> Prop :=
| lr_done l l' d : l ≡ₚ l' -> life_run [] (l, d) (l', d)
| lr_step lab labs l l' d b c :
    l ≡ₚ l' -> life_step lab (l', d) b -> life_run labs b c -> life_run (lab :: labs) (l, d) c.

Lemma lr_perm labs l l' d c : l ≡ₚ l' -> life_run labs (l', d) c -> life_run labs (l, d) c.
Proof.
  intros Hp Hr. inversion Hr; subst;
    solve [apply lr_done; by etrans | eapply lr_step; [by etrans|done|done]].
Qed.

Lemma lr_one lab l l' d b : l ≡ₚ l' -> life_step lab (l', d) b -> life_run [lab] (l, d) b.
Proof. intros. destruct b. eapply lr_step; [done|done|]. by apply lr_done. Qed.

Lemma lr_trans labs labs' a b c : life_run labs a b -> life_run labs' b c -> life_run (labs ++ labs') a c.
Proof.
  induction 1 as [l l' d Hp|lab labs l l' d b c' Hp Hs _ IH]; simpl; intros Hr; [by eapply lr_perm|].
  eapply lr_step; [done|done|by apply IH].
Qed.

(** Other tasks do not matter. *)
Lemma ls_frame x lab l d l1 d1 :
  life_step lab (l, d) (l1, d1) ->
  exists l0 l0', x ++ l ≡ₚ l0 /\ life_step lab (l0, d) (l0', d1) /\ l0' ≡ₚ x ++ l1.
Proof.
  intros Hs. inversion Hs; subst.
  - exists (x ++ l), ((false, t) :: x ++ l). split; [done|]. split; [by constructor|apply Permutation_middle].
  - exists (x ++ l1), (x ++ l1). split; [done|]. split; [by constructor|done].
  - exists ((false, t) :: x ++ l0), ((true, t') :: x ++ l0).
    split; [by rewrite Permutation_middle|]. split; [by constructor|apply Permutation_middle].
  - exists ((true, t) :: x ++ l0), ((false, t') :: x ++ l0).
    split; [by rewrite Permutation_middle|]. split; [by constructor|apply Permutation_middle].
  - exists ((q, t) :: x ++ l0), ((q, t') :: x ++ l0).
    split; [by rewrite Permutation_middle|]. split; [by constructor|apply Permutation_middle].
  - exists ((q, t) :: x ++ l1), (x ++ l1).
    split; [by rewrite Permutation_middle|]. split; [by constructor|done].
Qed.

Lemma lr_frame x labs l d l1 d1 :
  life_run labs (l, d) (l1, d1) -> life_run labs (x ++ l, d) (x ++ l1, d1).
Proof.
  remember (l, d) as a eqn:Ea. remember (l1, d1) as b eqn:Eb. intros Hr.
  revert l d Ea. induction Hr as [? ? ? Hp|lab labs l' l'' d' [b1 d2] c Hp Hs _ IH]; intros l0 d0 Ea;
    simplify_eq.
  - apply lr_done. by rewrite Hp.
  - destruct (ls_frame x _ _ _ _ _ Hs) as (m & m' & Hm & Hstep & Hm').
    eapply (lr_step _ _ _ m); [by rewrite Hp, Hm|exact Hstep|]. eapply lr_perm; [exact Hm'|by apply IH].
Qed.

Definition life_keys (a : life) : list A := (key ∘ ft_inner <$> a.1.*2) ++ (key <$> a.2).

Definition submits (labs : list label) : list A :=
  mjoin ((fun x => match x with Submit a => [a] | _ => [] end) <$> labs).

Definition resends (labs : list label) : nat :=
  sum_list ((fun x => match x with Resend => 1 | _ => 0 end) <$> labs).

(** A task in circulation can still be sent again [limit - retry] times. *)
Definition in_budget (x : bool * FailoverTask K) : Prop := (0 <= ft_retry x.2 <= limit)%Z.

Definition credit (x : bool * FailoverTask K) : nat :=
  Z.to_nat (limit - ft_retry x.2) + (if x.1 then 1 else 0).

Definition credits (l : list (bool * FailoverTask K)) : nat := sum_list (credit <$> l).

Lemma credits_perm l l' : l ≡ₚ l' -> credits l = credits l'.
Proof. unfold credits. induction 1; csimpl; lia. Qed.

Lemma submits_cons lab labs : submits (lab :: labs) = submits [lab] ++ submits labs.
Proof. unfold submits. simpl. by rewrite app_nil_r. Qed.

Lemma resends_cons lab labs : resends (lab :: labs) = resends [lab] + resends labs.
Proof. unfold resends. csimpl. lia. Qed.

Lemma budget_perm l l' : l ≡ₚ l' -> Forall in_budget l -> Forall in_budget l'.
Proof. by intros ->. Qed.

Lemma life_step_keys lab a b :
  life_step lab a b -> life_keys b ≡ₚ life_keys a ++ submits [lab].
Proof.
  unfold life_keys, submits, same_key.
  destruct 1 as [t l d Hr|a k l d Hk|t t' l d Hk Hr Hl|t t' l d Hk Hr|q t t' l d Hk Hr|q t k l d Hk];
    csimpl; rewrite ?app_nil_r; csimpl.
  - apply Permutation_cons_append.
  - rewrite fmap_app, <- app_assoc. csimpl. by rewrite Hk.
  - by rewrite Hk.
  - by rewrite Hk.
  - by rewrite Hk.
  - rewrite fmap_app. csimpl. rewrite Hk, app_assoc. symmetry. apply Permutation_cons_append.
Qed.

Lemma life_run_keys labs a b :
  life_run labs a b -> life_keys b ≡ₚ life_keys a ++ submits labs.
Proof.
  induction 1 as [l l' d Hp|lab labs l l' d b c Hp Hs _ IH].
  - unfold life_keys, submits; simpl. by rewrite Hp, app_nil_r.
  - rewrite IH, (life_step_keys _ _ _ Hs), <- app_assoc, <- submits_cons.
    unfold life_keys; simpl. by rewrite Hp.
Qed.

Lemma life_step_budget lab a b :
  (0 <= limit)%Z -> life_step lab a b -> Forall in_budget a.1 ->
  Forall in_budget b.1
  /\ credits b.1 + resends [lab] <= credits a.1 + Z.to_nat limit * length (submits [lab]).
Proof.
  intros Hlim. unfold submits, resends.
  destruct 1 as [t l d Hr|a k l d Hk|t t' l d Hk Hr Hl|t t' l d Hk Hr|q t t' l d Hk Hr|q t k l d Hk];
    csimpl; intros HF; try (apply Forall_cons_iff in HF as [Hx HF]; unfold in_budget in Hx; simpl in Hx);
    unfold credits, credit; csimpl.
  - split; [constructor; [|done]; unfold in_budget; simpl; lia|lia].
  - split; [done|lia].
  - split; [constructor; [|done]; unfold in_budget; simpl; lia|lia].
  - split; [constructor; [|done]; unfold in_budget; simpl; lia|lia].
  - split; [constructor; [|done]; unfold in_budget; simpl; lia|]. rewrite Hr. destruct q; lia.
  - split; [done|lia].
Qed.

Lemma life_run_budget labs a b :
  (0 <= limit)%Z -> life_run labs a b -> Forall in_budget a.1 ->
  Forall in_budget b.1
  /\ credits b.1 + resends labs <= credits a.1 + Z.to_nat limit * length (submits labs).
Proof.
  intros Hlim. induction 1 as [l l' d Hp|lab labs l l' d b c Hp Hs _ IH]; simpl; intros HF;
    apply (budget_perm _ _ Hp) in HF; rewrite (credits_perm _ _ Hp).
  - split; [done|]. unfold resends, submits; simpl. lia.
  - destruct (life_step_budget _ _ _ Hlim Hs HF) as [HF1 Hc1]. destruct (IH HF1) as [HF2 Hc2].
    split; [done|]. rewrite submits_cons, resends_cons, length_app, Nat.mul_add_distr_l.
    simpl in Hc1. lia.
Qed.
(** *** Steps that neither submit nor send again *)

Definition life_taus a b : Prop := exists n, life_run (replicate n Tau) a b.

Lemma taus_perm l l' d : l ≡ₚ l' -> life_taus (l, d) (l', d).
Proof. intros Hp. exists 0. by apply lr_done. Qed.

Lemma taus_trans a b c : life_taus a b -> life_taus b c -> life_taus a c.
Proof. intros [n Hn] [m Hm]. exists (n + m). rewrite replicate_add. by eapply lr_trans. Qed.

Lemma taus_one l d b : life_step Tau (l, d) b -> life_taus (l, d) b.
Proof. intros Hs. exists 1. by eapply lr_one. Qed.

Lemma taus_frame x l d l1 d1 : life_taus (l, d) (l1, d1) -> life_taus (x ++ l, d) (x ++ l1, d1).
Proof. intros [n Hn]. exists n. by apply lr_frame. Qed.

Lemma submits_app labs labs' : submits (labs ++ labs') = submits labs ++ submits labs'.
Proof. unfold submits. by rewrite fmap_app, join_app. Qed.

Lemma resends_app labs labs' : resends (labs ++ labs') = resends labs + resends labs'.
Proof. unfold resends. rewrite fmap_app. induction (_ <$> labs) as [|x l IH]; simpl; lia. Qed.

Lemma taus_labels n : submits (replicate n Tau) = [] /\ resends (replicate n Tau) = 0.
Proof. by induction n. Qed.

Lemma taus_run labs a b c :
  life_run labs a b -> life_taus b c ->
  exists labs', life_run labs' a c /\ submits labs' = submits labs /\ resends labs' = resends labs.
Proof.
  intros Hr [n Hn]. exists (labs ++ replicate n Tau). split; [by eapply lr_trans|].
  destruct (taus_labels n) as [Hs Hs']. by rewrite submits_app, resends_app, Hs, Hs', app_nil_r, Nat.add_0_r.
Qed.

(** Tasks change on their way. *)
Definition same_task (t t' : FailoverTask K) : Prop := same_key t t' /\ ft_retry t' = ft_retry t.

Lemma taus_touch q ts ts' l d :
  Forall2 same_task ts ts' -> life_taus (((fun t => (q, t)) <$> ts) ++ l, d) (((fun t => (q, t)) <$> ts') ++ l, d).
Proof.
  induction 1 as [|t t' ts ts' [Hk Hr] _ IH]; [by apply taus_perm|]. csimpl.
  eapply taus_trans; [by apply taus_one, (ls_touch q t t')|]. apply (taus_frame [(q, t')]). exact IH.
Qed.
End life.
Arguments label A : clear implicits.

(** ** The pool refines the life of its tasks *)

Section simulation.
Context {C K S A : Type} `{TaskKey C K A} `{!PoolStream (FailoverTask K) S}.
Implicit Types (f : FailoverPool K S) (t : FailoverTask K).

Definition with_pools f : list (FailoverTask K) :=
  mjoin (held <$> fo_store f) ++ (fo_sending f).*2 ++ fo_flight f.

Definition fo_tasks f : list (bool * FailoverTask K) :=
  ((fun t => (false, t)) <$> with_pools f) ++ ((fun t => (true, t)) <$> fo_retry f).

Definition fo_life f : life (K := K) := (fo_tasks f, fo_done f).

(** The keys an operation submits, and the retries it sends. *)
Definition op_submits (o : fo_op K S) : list A :=
  match o with FoSend task => [key task] | _ => [] end.

Definition op_resends (o : fo_op K S) f f' : nat :=
  match o with FoRetry _ => length (fo_sending f') - length (fo_sending f) | _ => 0 end.

Fixpoint fo_resends (codec : C) (ops : list (fo_op K S)) f : nat :=
  match ops with
  | [] => 0
  | o :: ops =>
      match fo_step codec o f with
      | Some f' => op_resends o f f' + fo_resends codec ops f'
      | None => 0
      end
  end.

Lemma tasks_cons_false t f f' :
  with_pools f' ≡ₚ t :: with_pools f -> fo_retry f' = fo_retry f ->
  fo_tasks f' ≡ₚ (false, t) :: fo_tasks f.
Proof. intros Hw Hr. unfold fo_tasks. by rewrite Hw, Hr. Qed.

Lemma tasks_cons_true t f f' :
  with_pools f' = with_pools f -> fo_retry f' ≡ₚ t :: fo_retry f ->
  fo_tasks f' ≡ₚ (true, t) :: fo_tasks f.
Proof. intros Hw Hr. unfold fo_tasks. rewrite Hw, Hr. csimpl. by rewrite <- Permutation_middle. Qed.

Lemma select_frame f c last_index f' r :
  select f c last_index = (r, f') ->
  with_pools f' = with_pools f /\ fo_sending f' = fo_sending f /\ fo_retry f' = fo_retry f
  /\ fo_done f' = fo_done f /\ fo_retry_limit f' = fo_retry_limit f /\ fo_flight f' = fo_flight f
  /\ fo_store f' = fo_store f.
Proof. unfold select. intros E. repeat case_match; simplify_eq/=; done. Qed.

Lemma sending_snoc b id t f :
  with_pools (put_sending (fo_sending f ++ [(b, id, t)]) f) ≡ₚ t :: with_pools f.
Proof.
  unfold with_pools; simpl. rewrite fmap_app. csimpl.
  rewrite <- app_assoc. csimpl. by rewrite <- !Permutation_middle.
Qed.

(** A pool of the store changes. *)
Lemma store_with_pools f id p p' out :
  fo_store f !! id = Some p -> out ++ held p' ≡ₚ held p -> with_pools f ≡ₚ out ++ with_pools (store_pool id p' f).
Proof.
  intros Ep Hh. unfold with_pools; simpl. pose proof (join_map_insert held _ id p p' Ep) as Hj.
  rewrite <- Hh, <- app_assoc, (Permutation_app_swap_app out) in Hj. apply Permutation_app_inv_l in Hj.
  by rewrite <- Hj, <- app_assoc.
Qed.

(** The retry budget below which the counters do not wrap. *)
Definition limit_ok f : Prop := (0 <= fo_retry_limit f < 2 ^ 64 - 1)%Z.

Lemma error_handle_sim t f t' :
  limit_ok f -> (0 <= ft_retry t <= fo_retry_limit f)%Z ->
  (ft_should_retry t' = true -> ft_retry t' = ft_retry t + 1)%Z ->
  same_key t t' ->
  life_run (fo_retry_limit f) [Tau] ((false, t) :: fo_tasks f, fo_done f) (fo_life (error_handle t' f)).
Proof.
  intros Hlim Ht Hr Hk. unfold error_handle, fo_life.
  destruct (ft_should_retry t' && (ft_retry t' <=? fo_retry_limit f)%Z) eqn:E; breflect.
  - eapply lr_step; [done|apply (ls_requeue _ t t'); [done|by apply Hr|done]|].
    apply lr_done. symmetry. apply tasks_cons_true; [done|]. simpl.
    by rewrite Permutation_app_comm.
  - eapply lr_one; [done|]. by apply ls_done.
Qed.

Lemma set_rpc_error_retry t e f :
  limit_ok f -> (0 <= ft_retry t <= fo_retry_limit f)%Z ->
  (ft_should_retry (set_rpc_error t e) = true -> ft_retry (set_rpc_error t e) = ft_retry t + 1)%Z
  /\ same_key t (set_rpc_error t e).
Proof.
  unfold limit_ok. intros Hlim Ht. unfold same_key, set_rpc_error at 1 2 3; simpl.
  unfold FailoverTask_set_rpc_error.
  destruct (RpcIntErr_lt e Method); simpl; rewrite key_rpc_error; (split; [|done]); [|done].
  intros _. apply wrap_small. unfold in_u. lia.
Qed.

Lemma rpc_error_sim t e f :
  limit_ok f -> (0 <= ft_retry t <= fo_retry_limit f)%Z ->
  life_run (fo_retry_limit f) [Tau] ((false, t) :: fo_tasks f, fo_done f)
    (fo_life (error_handle (set_rpc_error t e) f)).
Proof.
  intros Hlim Ht. destruct (set_rpc_error_retry t e f Hlim Ht) as [H1 H2].
  by apply error_handle_sim.
Qed.

Lemma pool_outs_sim outs f :
  limit_ok f -> Forall (fun o => 0 <= ft_retry (out_task o) <= fo_retry_limit f)%Z outs ->
  exists labs,
    life_run (fo_retry_limit f) labs
      (((fun t => (false, t)) <$> (out_task <$> outs)) ++ fo_tasks f, fo_done f)
      (fo_life (pool_outs outs f))
    /\ submits labs = [] /\ resends labs = 0
    /\ fo_retry_limit (pool_outs outs f) = fo_retry_limit f
    /\ fo_sending (pool_outs outs f) = fo_sending f.
Proof.
  intros Hlim Hout. revert f Hlim Hout. induction outs as [|o outs IH]; intros f Hlim Hout.
  { exists []. split; [by apply lr_done|done]. }
  apply Forall_cons_iff in Hout as [Ho Hout]. destruct o as [t|t]; csimpl in *.
  - destruct (IH (put_flight (fo_flight f ++ [t]) f)) as (labs & Hr & H1 & H2 & H3 & H4); [done|done|].
    exists labs. split; [|done]. eapply lr_perm; [|exact Hr]. rewrite Permutation_middle.
    apply Permutation_app_head. symmetry. apply tasks_cons_false; [|done].
    unfold with_pools; simpl. rewrite !(app_assoc _ _ [t]). by rewrite Permutation_app_comm.
  - set (f' := error_handle (set_rpc_error t Unreachable) f).
    assert (fo_retry_limit f' = fo_retry_limit f /\ fo_sending f' = fo_sending f) as [Hl' Hs'].
    { unfold f', error_handle. by destruct (_ && _). }
    destruct (IH f') as (labs & Hr & H1 & H2 & H3 & H4); [by unfold limit_ok; rewrite Hl'|by rewrite Hl'|].
    exists (Tau :: labs). rewrite Hl' in Hr.
    split; [|split; [by rewrite submits_cons, H1|split; [by rewrite resends_cons, H2|]];
      split; by etrans].
    apply (lr_trans _ [Tau] labs _ (((fun t => (false, t)) <$> (out_task <$> outs)) ++ fo_tasks f', fo_done f'));
      [|done].
    eapply lr_perm; [apply Permutation_middle|]. apply lr_frame. by apply rpc_error_sim.
Qed.

(** What a step owes to the abstract account. *)
Definition sim (subs : list A) (n : nat) f f' : Prop :=
  exists labs, life_run (fo_retry_limit f) labs (fo_life f) (fo_life f')
    /\ submits labs = subs /\ resends labs = n /\ fo_retry_limit f' = fo_retry_limit f.

(** A step that only moves tasks among the pools. *)
Lemma sim_still f f' :
  with_pools f' ≡ₚ with_pools f -> fo_retry f' = fo_retry f -> fo_done f' = fo_done f ->
  fo_retry_limit f' = fo_retry_limit f -> sim [] 0 f f'.
Proof.
  intros Hw Hr Hd Hl. exists []. split; [|done]. unfold fo_life, fo_tasks. rewrite Hr, Hd.
  apply lr_done. by rewrite Hw.
Qed.

Lemma send_sim task f : sim [key task] 0 f (fo_send_req task f).
Proof.
  assert (forall f', with_pools f' = with_pools f -> fo_retry f' = fo_retry f ->
    fo_done f' = fo_done f -> fo_retry_limit f' = fo_retry_limit f ->
    sim [key task] 0 f (done_inner (set_rpc_error task Unreachable) f')) as Hfail.
  { intros f' Hw Hr Hd Hl. exists [Submit (key task)]. split; [|done].
    unfold fo_life, fo_tasks at 2; simpl.
    change (with_pools (done_inner _ f')) with (with_pools f'). rewrite Hw, Hr, Hd.
    eapply lr_one; [done|]. apply ls_refused. apply key_rpc_error. }
  unfold fo_send_req. destruct (fo_cluster f) as [c|]; [|by apply Hfail].
  destruct (select f c None) as [[[i id]|] f1] eqn:E; apply select_frame in E as (Hw & Hs & Hr & Hd & Hl & _);
    [|by apply Hfail].
  set (t := mkFailoverTask i (cl_ver c) task 0 false).
  exists [Submit (key (ft_inner t))]. split; [|done].
  eapply lr_step; [done|by apply (ls_new _ t)|].
  unfold fo_life; simpl. rewrite Hd. apply lr_done. symmetry.
  rewrite (tasks_cons_false t f1); [|by apply sending_snoc|done].
  unfold fo_tasks. by rewrite Hw, Hr.
Qed.

Lemma delete_perm {B} (l : list B) n x : l !! n = Some x -> l ≡ₚ x :: delete n l.
Proof. intros. by apply delete_Permutation. Qed.

Lemma deliver_sim n f f' codec : fo_step codec (FoDeliver n) f = Some f' -> sim [] 0 f f'.
Proof.
  simpl. destruct (fo_sending f !! n) as [[[b id] t]|] eqn:En; [|done].
  destruct (fo_store f !! id) as [p|] eqn:Ep; [|done]. unfold pool_send_req.
  destruct (_ <? _)%Z; [|done]. intros [= <-]. apply sim_still; [|done..].
  unfold with_pools; simpl. apply delete_perm in En. rewrite (fmap_Permutation snd _ _ En). csimpl.
  set (p' := put_chan (po_chan p ++ [t]) p).
  assert (held p' ≡ₚ t :: held p) as Hp'.
  { unfold held; simpl. rewrite <- app_assoc; simpl. by rewrite <- Permutation_middle. }
  pose proof (join_map_insert held _ id p p' Ep) as Hj. rewrite Hp' in Hj. simpl in Hj.
  rewrite Permutation_middle in Hj. apply Permutation_app_inv_l in Hj.
  rewrite Hj. simpl. by rewrite <- Permutation_middle.
Qed.

Lemma retry_sim alive t f :
  sim [] (length (fo_sending (retry_iter alive t f)) - length (fo_sending f))
    (put_retry (t :: fo_retry f) f) (retry_iter alive t f).
Proof.
  assert (forall t' f', same_key t t' -> with_pools f' = with_pools f -> fo_retry f' = fo_retry f ->
    fo_done f' = fo_done f -> fo_retry_limit f' = fo_retry_limit f -> fo_sending f' = fo_sending f ->
    sim [] (length (fo_sending (done_inner (ft_inner t') f')) - length (fo_sending f))
      (put_retry (t :: fo_retry f) f) (done_inner (ft_inner t') f')) as Hend.
  { intros t' f' Hk Hw Hr Hd Hl Hs. simpl. rewrite Hs, Nat.sub_diag. exists [Tau].
    split; [|done]. unfold fo_life at 2, fo_tasks; simpl.
    change (with_pools (done_inner _ f')) with (with_pools f'). rewrite Hw, Hr, Hd.
    eapply lr_one; [by apply (tasks_cons_true t f)|]. by apply ls_done. }
  unfold retry_iter. destruct alive; [|by apply Hend].
  destruct (fo_cluster f) as [c|]; [|by apply Hend].
  destruct (if (cl_ver c =? ft_cluster_ver t)%Z then _ else _) as [last t1] eqn:E1.
  assert (same_key t t1 /\ ft_retry t1 = ft_retry t) as [Hk1 Hr1].
  { destruct (_ =? _)%Z in E1; by simplify_eq/=. }
  destruct (select f c last) as [[[i id]|] f1] eqn:E;
    apply select_frame in E as (Hw & Hs & Hr & Hd & Hl & _); [|by apply Hend].
  simpl. rewrite length_app, Hs, Nat.add_sub_swap, Nat.sub_diag by done. simpl.
  set (t2 := ft_put_index i (ft_cluster_ver t1) t1). exists [Resend]. split; [|done].
  eapply lr_step; [by apply (tasks_cons_true t f)|by apply (ls_resend _ t t2)|].
  unfold fo_life; simpl. rewrite Hd. apply lr_done. symmetry.
  rewrite (tasks_cons_false t2 f1); [|rewrite <- Hs; by apply sending_snoc|done].
  unfold fo_tasks. by rewrite Hw, Hr.
Qed.

(** New pools have nothing of what the pools of the store have. *)
Lemma update_pools_join {B} (g : ClientPool (FailoverTask K) S -> list B) addrs old store config size :
  (forall a, g (ClientPool_new config a size) = []) ->
  mjoin (g <$> (update_pools addrs old store config size).2) = mjoin (g <$> store).
Proof.
  intros Hg. revert old store. induction addrs as [|a addrs IH]; intros old store; simpl; [done|].
  destruct (old !! a) as [i|].
  - specialize (IH (delete a old) store). by destruct (update_pools _ _ _ _ _).
  - specialize (IH old (store ++ [ClientPool_new config a size])).
    destruct (update_pools _ _ _ _ _); simpl in *. rewrite IH, fmap_app, join_app. csimpl.
    by rewrite Hg, !app_nil_r.
Qed.

Lemma update_sim addrs f : sim [] 0 f (update_addrs addrs f).
Proof.
  unfold update_addrs. set (old := old_pools_map _ _).
  pose proof (update_pools_join held addrs old (fo_store f) (fo_config f) (fo_pool_channel_size f)
    (fun _ => eq_refl)) as Hh.
  destruct (update_pools _ _ _ _ _) as [l store]; simpl in Hh. apply sim_still; [|done..].
  unfold with_pools; simpl. by rewrite Hh.
Qed.

Lemma in_flight_budget l f t :
  t ∈ with_pools f -> Forall (in_budget l) (fo_tasks f) -> (0 <= ft_retry t <= l)%Z.
Proof.
  intros Ht Hb. apply list.Forall_forall with (x := (false, t)) in Hb; [done|].
  unfold fo_tasks. apply elem_of_app. left. by apply list_elem_of_fmap_2.
Qed.

Lemma finish_sim codec n seq o f f' :
  limit_ok f -> Forall (in_budget (fo_retry_limit f)) (fo_tasks f) ->
  fo_step codec (FoFinish n seq o) f = Some f' -> sim [] 0 f f'.
Proof.
  intros Hlim Hb. simpl. destruct (fo_flight f !! n) as [t|] eqn:En; [|done].
  assert (0 <= ft_retry t <= fo_retry_limit f)%Z as Ht.
  { apply (in_flight_budget _ f); [|done]. unfold with_pools. apply list_elem_of_lookup_2 in En.
    set_solver. }
  set (f1 := put_flight (delete n (fo_flight f)) f). set (t1 := task_set_seq t seq).
  assert (fo_tasks f ≡ₚ (false, t) :: fo_tasks f1) as Hp.
  { apply tasks_cons_false; [|done]. unfold with_pools; simpl. apply delete_perm in En.
    rewrite En at 1. by rewrite <- !Permutation_middle. }
  assert (same_key t t1) as Hk1 by (unfold same_key, t1; simpl; apply key_common).
  intros [= <-]. exists [Tau]. split; [|split; [done|split; [done|]]].
  - eapply lr_perm; [exact Hp|]. destruct o as [|e|e]; unfold finish.
    + eapply lr_one; [reflexivity|]. apply ls_done. simpl. rewrite key_ok. apply Hk1.
    + change (fo_retry_limit f) with (fo_retry_limit f1) in *.
      destruct (set_rpc_error_retry t1 e f1 Hlim Ht) as [H1 H2].
      apply (error_handle_sim t f1); [done|done|done|]. unfold same_key in *. etrans; [exact H2|exact Hk1].
    + change (fo_retry_limit f) with (fo_retry_limit f1) in *.
      apply (error_handle_sim t f1); [done|done|done|]. unfold same_key in *; simpl.
      by rewrite key_custom_error.
  - unfold finish, handle_event, error_handle. destruct o; simpl; try case_match; done.
Qed.

Lemma pool_own_sim codec id o f f' :
  limit_ok f -> Forall (in_budget (fo_retry_limit f)) (fo_tasks f) ->
  fo_step codec (FoPool id o) f = Some f' -> sim [] 0 f f'.
Proof.
  intros Hlim Hb. simpl. destruct (fo_store f !! id) as [p|] eqn:Ep; [|done].
  destruct (own_step o) eqn:Eo; [|done]. destruct (pool_step o p) as [[outs p']|] eqn:Es; [|done].
  intros [= <-]. set (f1 := store_pool id p' f).
  apply pool_step_tasks in Es.
  assert (submitted [o] = []) as Hsub by (by destruct o). rewrite Hsub, app_nil_r in Es.
  assert (with_pools f ≡ₚ (out_task <$> outs) ++ with_pools f1) as Hw.
  { by apply (store_with_pools f id p). }
  assert (fo_tasks f ≡ₚ ((fun t => (false, t)) <$> (out_task <$> outs)) ++ fo_tasks f1) as Ht.
  { unfold fo_tasks. by rewrite Hw, fmap_app, <- app_assoc. }
  destruct (pool_outs_sim outs f1) as (labs & Hr & Hs1 & Hs2 & Hl & _); [done| |].
  { apply list.Forall_forall. intros x Hx. apply (in_flight_budget _ f); [|done].
    rewrite Hw. apply elem_of_app. left. by apply list_elem_of_fmap_2. }
  exists labs. split; [|done]. by eapply lr_perm.
Qed.

Lemma release_sim codec id f f' : fo_step codec (FoRelease id) f = Some f' -> sim [] 0 f f'.
Proof.
  simpl. destruct (fo_store f !! id) as [p|] eqn:Ep; [|done]. case_match; [done|]. intros [= <-].
  apply sim_still; [|done..]. symmetry. by apply (store_with_pools f id p _ []).
Qed.

Lemma fo_step_sim codec o f f' :
  limit_ok f -> Forall (in_budget (fo_retry_limit f)) (fo_tasks f) ->
  fo_step codec o f = Some f' -> sim (op_submits o) (op_resends o f f') f f'.
Proof.
  intros Hlim Hb E. destruct o as [task|n|alive|addrs|id|id o|n seq o|].
  - simplify_eq/=. apply send_sim.
  - by eapply deliver_sim.
  - simpl in *. destruct (existsb _ _); [done|]. destruct (fo_retry f) as [|t rest] eqn:Er; [done|].
    simplify_eq/=. pose proof (retry_sim alive t (put_retry rest f)) as Hs.
    assert (put_retry (t :: fo_retry (put_retry rest f)) (put_retry rest f) = f) as Hf
      by (destruct f; simpl in *; by subst).
    rewrite Hf in Hs. exact Hs.
  - simplify_eq/=. apply update_sim.
  - by eapply release_sim.
  - by eapply pool_own_sim.
  - by eapply finish_sim.
  - simplify_eq/=. by apply sim_still.
Qed.

Lemma fo_run_sim codec ops f f' :
  limit_ok f -> Forall (in_budget (fo_retry_limit f)) (fo_tasks f) ->
  fo_run codec ops f = Some f' -> sim (mjoin (op_submits <$> ops)) (fo_resends codec ops f) f f'.
Proof.
  revert f. induction ops as [|o ops IH]; simpl; intros f Hlim Hb E.
  { simplify_eq/=. by apply sim_still. }
  destruct (fo_step codec o f) as [f1|] eqn:E1; [|done].
  destruct (fo_step_sim codec o f f1 Hlim Hb E1) as (labs & Hr & H1 & H2 & H3).
  assert (limit_ok f1) as Hlim1 by (unfold limit_ok; by rewrite H3).
  destruct (life_run_budget _ _ _ _ (proj1 Hlim) Hr Hb) as [Hb1 _].
  destruct (IH f1 Hlim1) as (labs' & Hr' & H1' & H2' & H3'); [by rewrite H3|done|].
  exists (labs ++ labs'). split; [|split; [|split; [|congruence]]].
  - eapply lr_trans; [exact Hr|]. by rewrite <- H3.
  - by rewrite submits_app, H1, H1'.
  - by rewrite resends_app, H2, H2'.
Qed.

Lemma FailoverPool_new_tasks config addrs rr limit size :
  fo_tasks (FailoverPool_new (K := K) (S := S) config addrs rr limit size) = [].
Proof.
  unfold fo_tasks, with_pools; simpl. rewrite !app_nil_r. by induction addrs.
Qed.

(** Along a run, the tasks submitted are in circulation or told. *)
Lemma fo_run_keys codec config addrs rr limit size ops f :
  (0 <= limit < 2 ^ 64 - 1)%Z ->
  fo_run codec ops (FailoverPool_new config addrs rr limit size) = Some f ->
  mjoin (op_submits <$> ops)
  ≡ₚ (key ∘ ft_inner <$> with_pools f) ++ (key ∘ ft_inner <$> fo_retry f) ++ (key <$> fo_done f).
Proof.
  intros Hlimit Hrun. pose proof (FailoverPool_new_tasks config addrs rr limit size) as H0'.
  destruct (fo_run_sim codec ops (FailoverPool_new config addrs rr limit size) f Hlimit
    ltac:(by rewrite H0') Hrun) as (labs & Hr & Hs & _ & _).
  apply life_run_keys in Hr. unfold life_keys, fo_life in Hr; simpl in Hr. rewrite H0' in Hr.
  simpl in Hr. rewrite Hs in Hr. rewrite <- Hr. unfold fo_tasks.
  rewrite !fmap_app, <- !list_fmap_compose, <- app_assoc. done.
Qed.
End simulation.

(** ** Results

    [Q]: the result of a task has been set, and is one a response can carry. *)
Section results.
Context {C K S : Type} `{ClientTask C K} `{!PoolStream (FailoverTask K) S}.
Variables (codec : C) (Q : K -> Prop).
Hypothesis Q_rpc : forall k e, Q (set_rpc_error k e).
Hypothesis Q_custom : forall k e, wire_err e = true -> Q (set_custom_error codec k e).
Hypothesis Q_ok : forall k, Q (set_ok k).
Implicit Types (f : FailoverPool K S) (t : FailoverTask K).

Definition fo_op_wire (o : fo_op K S) : Prop :=
  match o with FoFinish _ _ (OutCustom e) => wire_err e = true | _ => True end.

(** Tasks that wait for a retry, and tasks whose owner was told, have one. *)
Definition have_results f : Prop := Forall (Q ∘ ft_inner) (fo_retry f) /\ Forall Q (fo_done f).

Lemma done_inner_results k f : Q k -> have_results f -> have_results (done_inner k f).
Proof. intros Hk [Hr Hd]. split; [done|]. simpl. apply Forall_app. auto. Qed.

Lemma error_handle_results t f : Q (ft_inner t) -> have_results f -> have_results (error_handle t f).
Proof.
  intros Ht Hf. unfold error_handle. destruct (_ && _); [|by apply done_inner_results].
  destruct Hf as [Hr Hd]. split; [|done]. simpl. apply Forall_app. auto.
Qed.

Lemma rpc_error_result t e : Q (ft_inner (set_rpc_error t e)).
Proof.
  unfold set_rpc_error; simpl. unfold FailoverTask_set_rpc_error. destruct (RpcIntErr_lt e Method); apply Q_rpc.
Qed.

Lemma pool_outs_results outs f : have_results f -> have_results (pool_outs outs f).
Proof.
  revert f. induction outs as [|o outs IH]; intros f Hf; simpl; [done|]. apply IH.
  destruct o as [t|t]; [done|]. apply error_handle_results; [|done]. apply (rpc_error_result t Unreachable).
Qed.

Lemma select_results f c last_index : have_results f -> have_results (select f c last_index).2.
Proof. unfold select. intros Hf. by repeat case_match; simplify_eq/=. Qed.

Lemma send_results task f : have_results f -> have_results (fo_send_req task f).
Proof.
  intros Hf. unfold fo_send_req. destruct (fo_cluster f) as [c|]; [|by apply done_inner_results].
  pose proof (select_results f c None Hf) as Hs. destruct (select f c None) as [[[i id]|] f1]; simpl in Hs;
    [done|by apply done_inner_results].
Qed.

Lemma retry_results alive t f : Q (ft_inner t) -> have_results f -> have_results (retry_iter alive t f).
Proof.
  intros Ht Hf. unfold retry_iter.
  destruct alive; [|by apply done_inner_results]. destruct (fo_cluster f) as [c|]; [|by apply done_inner_results].
  destruct (if (cl_ver c =? ft_cluster_ver t)%Z then _ else _) as [last t1] eqn:E1.
  assert (Q (ft_inner t1)) by (destruct (_ =? _)%Z in E1; by simplify_eq/=).
  pose proof (select_results f c last Hf) as Hs.
  destruct (select f c last) as [[[i id]|] f1]; [done|by apply done_inner_results].
Qed.

Lemma fo_step_results o f f' :
  fo_op_wire o -> have_results f -> fo_step codec o f = Some f' -> have_results f'.
Proof.
  intros Ho Hf. destruct o as [task|n|alive|addrs|id|id o|n seq o|]; simpl.
  - intros [= <-]. by apply send_results.
  - destruct (fo_sending f !! n) as [[[b id] t]|]; [|done]. destruct (fo_store f !! id); [|done].
    destruct (pool_send_req _ _) as [[] p]; [|done]. by intros [= <-].
  - destruct (existsb _ _); [done|]. destruct (fo_retry f) as [|t rest] eqn:Er; [done|]. intros [= <-].
    destruct Hf as [Hr Hd]. rewrite Er in Hr. apply Forall_cons_1 in Hr as [Ht Hr]. by apply retry_results.
  - intros [= <-]. unfold update_addrs. by destruct (update_pools _ _ _ _ _).
  - destruct (fo_store f !! id); [|done]. destruct (_ || _); [done|]. by intros [= <-].
  - destruct (fo_store f !! id); [|done]. destruct (own_step o); [|done].
    destruct (pool_step o _) as [[outs p']|]; [|done]. intros [= <-]. by apply pool_outs_results.
  - destruct (fo_flight f !! n) as [t|]; [|done]. intros [= <-]. destruct o as [|e|e]; simpl.
    + apply done_inner_results; [|done]. apply Q_ok.
    + apply error_handle_results; [apply rpc_error_result|done].
    + apply error_handle_results; [by apply Q_custom|done].
  - by intros [= <-].
Qed.

Lemma fo_run_results ops f f' :
  Forall fo_op_wire ops -> have_results f -> fo_run codec ops f = Some f' -> have_results f'.
Proof.
  intros Ho. revert f. induction Ho as [|o ops Ho _ IH]; simpl; intros f Hf; [by intros [= <-]|].
  destruct (fo_step codec o f) as [f1|] eqn:E; [|done]. apply IH. by eapply fo_step_results.
Qed.
End results.

(** ** [update_addrs] *)

Section update.
Context {K S : Type}.
Implicit Types (store : list (ClientPool (FailoverTask K) S)) (old : gmap (list byte) nat).

Definition addr_of store (id : nat) : option bytes := get_addr <$> (store !! id).

(** A map from addresses to pools of the store. *)
Definition map_ok store old : Prop := forall a i, old !! a = Some i -> addr_of store i = Some a.

Lemma old_pools_map_ok ids store : map_ok store (old_pools_map ids store).
Proof.
  unfold old_pools_map. assert (map_ok store ∅) as H0 by done. revert H0.
  generalize (∅ : gmap (list byte) nat) as m. induction ids as [|i ids IH]; intros m Hm; simpl; [done|].
  apply IH. destruct (store !! i) as [p|] eqn:Ep; [|done]. intros a j Ha.
  destruct (decide (a = get_addr p)) as [->|Hne].
  - rewrite lookup_insert_eq in Ha. simplify_eq. unfold addr_of. by rewrite Ep.
  - rewrite lookup_insert_ne in Ha by done. by apply Hm.
Qed.

Lemma old_pools_map_dom ids store i p :
  i ∈ ids -> store !! i = Some p -> is_Some (old_pools_map ids store !! get_addr p).
Proof.
  unfold old_pools_map. generalize (∅ : gmap (list byte) nat) as m.
  induction ids as [|j ids IH]; intros m Hi Hp; [by apply not_elem_of_nil in Hi|]. simpl.
  apply elem_of_cons in Hi as [->|Hi]; [|by apply IH]. rewrite Hp.
  assert (is_Some ((<[get_addr p := j]> m) !! get_addr p)) as H0 by (rewrite lookup_insert_eq; eauto).
  revert H0. generalize (<[get_addr p := j]> m) as m'. clear.
  induction ids as [|k ids IH]; intros m' H0; simpl; [done|]. apply IH.
  destruct (store !! k) as [q|]; [|done].
  destruct (decide (get_addr p = get_addr q)) as [->|]; [rewrite lookup_insert_eq; eauto|].
  by rewrite lookup_insert_ne.
Qed.

Lemma update_pools_spec addrs old store config size :
  map_ok store old ->
  let '(l, store') := update_pools addrs old store config size in
  store `prefix_of` store' /\ addr_of store' <$> l = Some <$> addrs
  /\ (NoDup addrs -> forall k a, addrs !! k = Some a ->
        match old !! a with
        | Some i => l !! k = Some i
        | None => exists j, l !! k = Some j /\ length store <= j
        end).
Proof.
  revert old store. induction addrs as [|a addrs IH]; intros old store Hm; simpl; [done|].
  destruct (old !! a) as [i|] eqn:Ea.
  - specialize (IH (delete a old) store). destruct (update_pools _ _ _ _ _) as [l store'].
    destruct IH as (Hpre & Hl & Hk).
    { intros b j Hb. apply lookup_delete_Some in Hb as [_ Hb]. by apply Hm. }
    split; [done|]. split.
    + csimpl. f_equal; [|done]. apply Hm in Ea. unfold addr_of in *.
      destruct (store !! i) as [p|] eqn:Ep; [|done]. by rewrite (prefix_lookup_Some _ _ _ _ Ep Hpre).
    + intros [Hna Hnd]%list.NoDup_cons k b. destruct k as [|k]; simpl; intros Hb; simplify_eq.
      * by rewrite Ea.
      * specialize (Hk Hnd k b Hb). rewrite lookup_delete_ne in Hk; [done|]. intros ->.
        by apply Hna, list_elem_of_lookup_2 with k.
  - set (p := ClientPool_new config a size).
    specialize (IH old (store ++ [p])). destruct (update_pools _ _ _ _ _) as [l store'].
    destruct IH as (Hpre & Hl & Hk).
    { intros b j Hb. apply Hm in Hb. unfold addr_of in *.
      destruct (store !! j) as [q|] eqn:Eq; [|done]. by rewrite (lookup_app_l_Some _ _ _ _ Eq). }
    split; [by eapply prefix_app_l|]. split.
    + csimpl. f_equal; [|done]. unfold addr_of.
      rewrite (prefix_lookup_Some (store ++ [p]) store' (length store) p); [done| |done].
      by rewrite lookup_app_r, Nat.sub_diag.
    + intros [Hna Hnd]%list.NoDup_cons k b. destruct k as [|k]; simpl; intros Hb; simplify_eq.
      * rewrite Ea. eauto.
      * specialize (Hk Hnd k b Hb). destruct (old !! b); [done|].
        destruct Hk as (j & ? & Hj). rewrite length_app in Hj. exists j. split; [done|lia].
Qed.
End update.

(** ** Properties *)

Section claims.
Context {C K S A : Type} `{TaskKey C K A} `{!PoolStream (FailoverTask K) S}.

(** A failover pool tells the owner of every task exactly once: along any
    interleaving of callers, the retry worker, address updates, the pools'
    coroutines and the streams, the tasks submitted are exactly those in
    circulation (with a pool, in flight, queued for a retry) and those that
    were completed, and completion removes a task from circulation. *)
Theorem failover_conserves (codec : C) (config : ClientConfig) (addrs : list bytes) (rr : bool)
    (limit size : Z) (ops : list (fo_op K S)) (f : FailoverPool K S)
    (Hlimit : (0 <= limit < 2 ^ 64 - 1)%Z)
    (Hrun : fo_run codec ops (FailoverPool_new config addrs rr limit size) = Some f) :
  mjoin (op_submits <$> ops)
  ≡ₚ (key ∘ ft_inner <$> with_pools f) ++ (key ∘ ft_inner <$> fo_retry f) ++ (key <$> fo_done f).
Proof. by eapply fo_run_keys. Qed.

(** C22: Retrying is bounded: whatever fails and whenever, a task in circulation
    has failed at most [retry_limit] times, and the retry worker sends at most
    [retry_limit] retries per task submitted. *)
Theorem failover_retry_bound (codec : C) (config : ClientConfig) (addrs : list bytes) (rr : bool)
    (limit size : Z) (ops : list (fo_op K S)) (f : FailoverPool K S)
    (Hlimit : (0 <= limit < 2 ^ 64 - 1)%Z)
    (Hrun : fo_run codec ops (FailoverPool_new config addrs rr limit size) = Some f) :
  fo_resends codec ops (FailoverPool_new config addrs rr limit size)
    <= Z.to_nat limit * length (mjoin (op_submits <$> ops))
  /\ Forall (fun x => 0 <= ft_retry x.2 <= limit)%Z (fo_tasks f).
Proof.
  pose proof (FailoverPool_new_tasks (K := K) (S := S) config addrs rr limit size) as H0'.
  destruct (fo_run_sim codec ops (FailoverPool_new config addrs rr limit size) f Hlimit
    ltac:(by rewrite H0') Hrun) as (labs & Hr & Hs & Hn & Hl).
  apply life_run_budget in Hr as [Hb Hc]; [|apply Hlimit|simpl; by rewrite H0'].
  simpl in Hc. rewrite H0', Hs, Hn in Hc. split; [|exact Hb].
  unfold credits in Hc; simpl in Hc. lia.
Qed.

(** C23: [select] takes the first healthy pool at or after its seed, wrapping
    around once, and fails only when no pool is healthy; a retry that has
    another healthy pool to go to never goes back to the one that failed. *)
Theorem failover_select (f : FailoverPool K S) (c : ClusterConfig) (last_index : option Z)
    (seed := match last_index with
             | Some i => as_usize (i + 1)
             | None => if fo_round_robin f then fo_rr_counter f else 0%Z
             end)
    (l := zlen (cl_pools c)) (Hne : cl_pools c <> []) (Hseed : (0 <= seed)%Z)
    (Hroom : (seed + l < 2 ^ 64)%Z) :
  match (select f c last_index).1 with
  | Some (i, id) =>
      (seed <= i < seed + l)%Z /\ cl_pools c !! Z.to_nat (i mod l) = Some id
      /\ healthy (fo_store f) id = true
      /\ (forall k, (seed <= k < i)%Z -> healthy_at (fo_store f) (cl_pools c) k = false)
      /\ (forall last j, last_index = Some last -> (0 <= last < 2 ^ 64 - 1)%Z ->
            healthy_at (fo_store f) (cl_pools c) j = true ->
            (j mod l <> last mod l)%Z -> (i mod l <> last mod l)%Z)
  | None => forall j, healthy_at (fo_store f) (cl_pools c) j = false
  end.
Proof.
  rewrite select_find by done. fold seed.
  pose proof (find_healthy_spec (fo_store f) (cl_pools c) (length (cl_pools c)) seed Hne) as Hf.
  change (Z.of_nat (length (cl_pools c))) with l in Hf.
  pose proof (zlen_pos _ Hne) as Hl. fold l in Hl.
  destruct (find_healthy _ _ _ _) as [[i id]|].
  - destruct Hf as (Hi & Hid & Hh & Hk). do 4 (split; [done|]).
      intros last j Elast Hlast Hj Hjl Heq.
    assert (seed = last + 1)%Z as Hs by (unfold seed; rewrite Elast; apply wrap_small; unfold in_u; lia).
    destruct (candidate l seed j Hl) as (k & Hk1 & Hk2).
    assert (healthy_at (fo_store f) (cl_pools c) k = true) as Hkh
      by (by rewrite (healthy_at_mod _ _ k j)).
    pose proof (mod_eq_far l last i Hl (eq_sym Heq) ltac:(lia)) as Hfar.
    assert (k <> i) as Hki by congruence.
    rewrite (Hk k) in Hkh; [done|lia].
  - intros j. destruct (candidate l seed j Hl) as (k & Hk1 & Hk2).
    rewrite (healthy_at_mod _ _ j k) by (symmetry; done). by apply Hf.
Qed.

(** C28: [update_addrs] installs exactly the given addresses, in order, under a
    new version; no pool is lost from the store; when no address is given
    twice, an address of the old configuration keeps its pool, and with it the
    tasks queued there, and the others get pools of their own. *)
Theorem update_addrs_pools (f : FailoverPool K S) (addrs : list bytes)
    (Hver : (0 <= fo_ver f < 2 ^ 64 - 1)%Z) :
  let f' := update_addrs addrs f in
  let old := match fo_cluster f with Some c => cl_pools c | None => [] end in
  exists c, fo_cluster f' = Some c /\ cl_ver c = (fo_ver f + 1)%Z /\ fo_ver f' = (fo_ver f + 1)%Z
    /\ addr_of (fo_store f') <$> cl_pools c = Some <$> addrs
    /\ fo_store f `prefix_of` fo_store f'
    /\ (NoDup addrs -> forall i p, i ∈ old -> fo_store f !! i = Some p ->
          forall k, addrs !! k = Some (get_addr p) ->
          exists j, cl_pools c !! k = Some j /\ addr_of (fo_store f) j = Some (get_addr p)).
Proof.
  intros f' old. unfold f', update_addrs. fold old.
  pose proof (old_pools_map_ok old (fo_store f)) as Hm.
  pose proof (update_pools_spec addrs (old_pools_map old (fo_store f)) (fo_store f) (fo_config f)
    (fo_pool_channel_size f) Hm) as Hu.
  destruct (update_pools _ _ _ _ _) as [l store]. destruct Hu as (Hpre & Hl & Hk).
  assert (as_u64 (fo_ver f + 1) = fo_ver f + 1)%Z as Hv by (apply wrap_small; unfold in_u; lia).
  eexists. split; [reflexivity|]. simpl. rewrite !Hv. split; [done|]. split; [done|].
  split; [done|]. split; [done|]. intros Hnd i p Hi Hp k Ha.
  destruct (old_pools_map_dom old (fo_store f) i p Hi Hp) as [j Hj].
  specialize (Hk Hnd k _ Ha). rewrite Hj in Hk. exists j. split; [done|]. by apply Hm.
Qed.
End claims.

(** ** A concrete run *)

(** A generated task is identified by its request. *)
#[export, refine] Instance MacroTask_Key {C Buf Req Resp E} `{AllocateBuf Buf, Codec C Req, Codec C Resp, RpcErrCodec C E} :
  TaskKey C (MacroTask Buf Req Resp E) Req := {| key := mt_req |}.
Proof.
  all: try done.
  - intros c t bs. unfold decode_resp; simpl. unfold MacroTask_decode_resp. by destruct (codec_decode c bs).
  - intros t n. unfold reserve_resp_blob; simpl. unfold MacroTask_reserve_resp_blob.
    destruct (mt_resp_blob t) as [v|]; [|done]. by destruct (ab_reserve v n).
Defined.

#[local] Existing Instance vec_IoBuffer.

Abbreviation demo_fo_task_t := RawTask.
Abbreviation demo_fo_stream_t := (ClientStreamInner (FailoverTask demo_fo_task_t) (TcpClient sock)).

Definition demo_fo_stream : PoolStream (FailoverTask demo_fo_task_t) demo_fo_stream_t :=
  @ClientStream_PoolStream RawCodec _ (TcpClient sock) _ (Tcp_ClientTransport vec id 1000) Raw demo_stale
    demo_wait.

#[local] Existing Instance demo_fo_stream.

Definition demo_fo : FailoverPool demo_fo_task_t demo_fo_stream_t :=
  FailoverPool_new ClientConfig_default [lit "a:1"; lit "b:2"] false 3 0.

Definition demo_fo_conn : demo_fo_stream_t := Inner_new (demo_conn []) 9 ClientConfig_default None.

(** The first address cannot be reached; the retry goes to the second, which
    answers. *)
Definition demo_fo_ops : list (fo_op demo_fo_task_t demo_fo_stream_t) :=
  [FoSend (demo_pool_task Byte.x61); FoDeliver 0;
   FoPool 0 (PoWorker 0 (WConnected (Err Unreachable))); FoRetry true; FoDeliver 0;
   FoPool 1 (PoWorker 0 (WConnected (Ok demo_fo_conn))); FoPool 1 (PoWorker 0 WGo);
   FoPool 1 (PoWorker 0 WTask); FoPool 1 (PoWorker 0 WGo); FoFinish 0 1 OutOk].

Lemma demo_fo_runs :
  exists f, fo_run Raw demo_fo_ops (FailoverPool_new ClientConfig_default [lit "a:1"; lit "b:2"] false 3 0)
            = Some f /\ mt_req <$> fo_done f = [lit "a"] /\ fo_tasks f = [].
Proof.
  assert ((fun f => (mt_req <$> fo_done f, length (fo_tasks f))) <$> fo_run Raw demo_fo_ops
    (FailoverPool_new ClientConfig_default [lit "a:1"; lit "b:2"] false 3 0) = Some ([lit "a"], 0)) as E
    by (vm_compute; reflexivity).
  destruct (fo_run _ _ _) as [f|]; [|discriminate E]. exists f. simpl in E.
  injection E as E1 E2. split; [done|]. split; [exact E1|]. by apply length_zero_iff_nil.
Qed.

Example failover_conserves_witness :
  exists f, fo_run Raw demo_fo_ops (FailoverPool_new ClientConfig_default [lit "a:1"; lit "b:2"] false 3 0)
            = Some f
    /\ [lit "a"] ≡ₚ (key ∘ ft_inner <$> with_pools f) ++ (key ∘ ft_inner <$> fo_retry f)
                    ++ (key <$> fo_done f).
Proof.
  destruct demo_fo_runs as (f & E & _). exists f. split; [exact E|].
  refine (failover_conserves Raw ClientConfig_default [lit "a:1"; lit "b:2"] false 3 0 demo_fo_ops f _ E).
  lia.
Defined.

Example failover_retry_bound_witness :
  fo_resends Raw demo_fo_ops (FailoverPool_new ClientConfig_default [lit "a:1"; lit "b:2"] false 3 0) <= 3.
Proof.
  destruct demo_fo_runs as (f & E & _).
  refine (proj1 (failover_retry_bound Raw ClientConfig_default [lit "a:1"; lit "b:2"] false 3 0
    demo_fo_ops f _ E)). lia.
Defined.

(** Index 0 failed, so the retry takes index 1. *)
Example failover_select_witness :
  exists f : FailoverPool demo_fo_task_t demo_fo_stream_t,
    (select f (mkCluster [0; 1] 0) (Some 0%Z)).1 = Some (1%Z, 1)
    /\ (0 + 1 <= 1 < 0 + 1 + 2)%Z.
Proof.
  exists demo_fo. pose proof (failover_select demo_fo (mkCluster [0; 1] 0) (Some 0%Z)) as Hs.
  assert ((select demo_fo (mkCluster [0; 1] 0) (Some 0%Z)).1 = Some (1%Z, 1)) as E by (vm_compute; reflexivity).
  rewrite E in Hs. destruct Hs as (Hi & _); [discriminate|vm_compute; discriminate|reflexivity|].
  split; [exact E|exact Hi].
Defined.

Example update_addrs_pools_witness :
  exists c, fo_cluster (update_addrs [lit "b:2"; lit "c:3"] demo_fo) = Some c /\ cl_ver c = 2%Z.
Proof.
  destruct (update_addrs_pools demo_fo [lit "b:2"; lit "c:3"]) as (c & H1 & H2 & _).
  - vm_compute. split; [discriminate|reflexivity].
  - exists c. split; [exact H1|exact H2].
Defined.
