(* ===== verification/FailoverLife.v ===== *)
(** * The life of a failover pool: its pools with their streams

    Failover.v takes the streams of its pools as given: a stream may finish a
    task it was handed in any way.  Here every pool of the store has the
    streams of ClientStream.v, with their receivers, and what happens to a
    task is what its stream did: a task that a stream finished goes to [done],
    to the retry channel, or back to the next pool's streams.
    [failover_step] is a step of a caller, of the retry worker, of a coroutine
    of one of the pools, or of the receiver of a stream. *)

From S2P Require Import Prelude RustStd Errors Config Task ClientTaskMacro Buffer Proto BufIO.
From S2P Require Import Sock Timer TcpClient ClientStream Pool ClientLife Failover.

Section machine.
Context {C K P : Type} `{ClientTask C K} `{!ClientTransport C (FailoverTask K) P}.
Variables (codec : C) (stale : nat -> byte) (wait_to : Z -> Z -> poll bool).
Let T := FailoverTask K.
Let S := ClientStreamInner T P.

Local Instance failover_pool_stream : PoolStream T S := life_pool_stream codec stale wait_to.

Record failover_run := mkFailoverRun {
  fr_pool : FailoverPool K S;
  fr_dropped : list S;       (* no longer used, receiver still running *)
}.

Definition failover_start (config : ClientConfig) (addrs : list bytes) (round_robin : bool)
    (retry_limit pool_channel_size : Z) : failover_run :=
  mkFailoverRun (FailoverPool_new config addrs round_robin retry_limit pool_channel_size) [].

(** [FailoverPoolInner] is the [ClientFacts] of its pools: it has the
    configuration of the user's facts, but not their [get_client_id]. *)
Definition FailoverPoolInner_get_config (f : FailoverPool K S) : ClientConfig := fo_config f.
Definition FailoverPoolInner_get_client_id (f : FailoverPool K S) : Z := 0.

(** The stream of a coroutine, if it has one. *)
Definition worker_streams (w : worker T S) : list S := option_list (pc_stream (wk_pc w)).

(** What a stream has finished is handed on at once. *)
Definition handed_on (s : S) : S :=
  mkInner (ci_client_id s) (ci_conn s) (ci_seq s) (ci_close_tx s) (ci_close_sent s) (ci_closed s)
    (ci_timer s) (ci_has_err s) (ci_thresholds s) (ci_last_resp_ts s) (ci_encode_buf s) [].

Definition handle_events (evs : list (task_event T)) (f : FailoverPool K S) : FailoverPool K S :=
  foldl (fun f ev => handle_event ev f) f evs.

(** The stream of coroutine [i] changes. *)
Definition at_worker (i : nat) (g : S -> S) (p : ClientPool T S) : ClientPool T S :=
  match po_workers p !! i with
  | None => p
  | Some w => put_workers (<[i := mkWorker (wk_id w) (map_stream g (wk_pc w))]> (po_workers p)) p
  end.

(** The steps of the failover pool in which no stream takes part. *)
Definition without_streams (o : fo_op K S) : bool :=
  match o with FoPool _ PoDrop => true | FoPool _ _ | FoFinish _ _ _ => false | _ => true end.

Inductive failover_op :=
| FlOwn (o : fo_op K S)
| FlWorker (id i : nat) (e : wake P)         (* coroutine [i] of pool [id] *)
| FlReceiver (id i : nat) (o : recv_op)      (* of the stream of that coroutine *)
| FlDropped (k : nat) (o : recv_op).         (* of a stream that was dropped *)

(** A coroutine runs: its stream first, which may finish tasks, then the tasks
    the pool gives up. *)
Definition worker_step (id i : nat) (e : wake P) (r : failover_run) : option failover_run :=
  let f := fr_pool r in
  match fo_store f !! id with
  | None => None
  | Some p =>
      let e := wake_stream (FailoverPoolInner_get_config f) (FailoverPoolInner_get_client_id f) e in
      match po_workers p !! i, pool_step (PoWorker i e) p with
      | Some w, Some (out, p) =>
          let left := left_behind codec stale wait_to e w (po_workers p !! i) in
          let streams := from_option worker_streams [] (po_workers p !! i) ++ left in
          let evs := mjoin (ci_events <$> streams) ++ unhealthy_events out in
          Some (mkFailoverRun (handle_events evs (store_pool id (at_worker i handed_on p) f))
                  (fr_dropped r ++ (handed_on <$> left)))
      | _, _ => None
      end
  end.

Definition receiver_step (id i : nat) (o : recv_op) (r : failover_run) : option failover_run :=
  let f := fr_pool r in
  match fo_store f !! id with
  | None => None
  | Some p =>
      match po_workers p !! i with
      | None => None
      | Some w =>
          match pc_stream (wk_pc w) with
          | None => None
          | Some s =>
              match stream_step codec stale wait_to (recv_stream_op o) s with
              | None => None
              | Some (_, s) =>
                  Some (mkFailoverRun
                          (handle_events (ci_events s) (store_pool id (at_worker i (fun _ => handed_on s) p) f))
                  (fr_dropped r))
              end
          end
      end
  end.

Definition failover_step (o : failover_op) (r : failover_run) : option failover_run :=
  match o with
  | FlOwn o =>
      if without_streams o then
        match fo_step codec o (fr_pool r) with
        | None => None
        | Some f => Some (mkFailoverRun f (fr_dropped r))
        end
      else None
  | FlWorker id i e => worker_step id i e r
  | FlReceiver id i o => receiver_step id i o r
  | FlDropped k o =>
      match fr_dropped r !! k with
      | None => None
      | Some s =>
          match stream_step codec stale wait_to (recv_stream_op o) s with
          | None => None
          | Some (_, s) =>
              Some (mkFailoverRun (handle_events (ci_events s) (fr_pool r))
                      (<[k := handed_on s]> (fr_dropped r)))
          end
      end
  end.

Fixpoint failover_steps (ops : list failover_op) (r : failover_run) : option failover_run :=
  match ops with
  | [] => Some r
  | o :: ops => match failover_step o r with None => None | Some r => failover_steps ops r end
  end.

(** ** Where the tasks are *)

Definition pool_streams (p : ClientPool T S) : list S := mjoin (worker_streams <$> po_workers p).

Definition failover_streams (r : failover_run) : list S :=
  mjoin (pool_streams <$> fo_store (fr_pool r)) ++ fr_dropped r.

Definition stream_tasks (l : list S) : list T := mjoin ((fun s => live_tasks (ci_timer s)) <$> l).

(** The tasks in circulation, as their life sees them: waiting for their
    response or with a pool, or queued for a retry. *)
Definition failover_tasks (r : failover_run) : list (bool * T) :=
  ((fun t => (false, t)) <$> stream_tasks (failover_streams r)) ++ fo_tasks (fr_pool r).

Definition failover_life (r : failover_run) : life (K := K) := (failover_tasks r, fo_done (fr_pool r)).

(** The retries that a run sends. *)
Fixpoint failover_resends (ops : list failover_op) (r : failover_run) : nat :=
  match ops with
  | [] => 0
  | o :: ops =>
      match failover_step o r with
      | None => 0
      | Some r' =>
          match o with FlOwn o => op_resends o (fr_pool r) (fr_pool r') | _ => 0 end + failover_resends ops r'
      end
  end.
End machine.
Arguments failover_op K P : clear implicits.
Arguments failover_run K P : clear implicits.

(** ** What streams do with the tasks *)

Section life.
Context {C K P A : Type} `{ClientTaskLaws C K, !TaskKey C K A}.
Context `{!ClientTransport C (FailoverTask K) P, !ClientTransportLaws C (FailoverTask K) P}.
Variables (codec : C) (stale : nat -> byte) (wait_to : Z -> Z -> poll bool).

Local Abbreviation streams_of := (life_pool_stream codec stale wait_to).
Implicit Types (s : ClientStreamInner (FailoverTask K) P) (t : FailoverTask K).
Implicit Types (ss : list (ClientStreamInner (FailoverTask K) P)).
Implicit Types (w : worker (FailoverTask K) (ClientStreamInner (FailoverTask K) P)).
Implicit Types (f : FailoverPool K (ClientStreamInner (FailoverTask K) P)).

(** A stream after at most [n] steps, with nothing to hand on. *)
Record stream_ready (n : Z) s : Prop := {
  sr_inv : stream_inv s;
  sr_announced : announced (ci_timer s) = 0%Z;
  sr_seq : (ci_seq s <= n + 1)%Z;
  sr_count : (tm_count (ci_timer s) <= n)%Z;
  sr_events : ci_events s = [];
}.

Lemma stream_ready_mono n m s : (n <= m)%Z -> stream_ready n s -> stream_ready m s.
Proof. intros Hle [Hi Ha Hq Hc He]. split; auto; lia. Qed.

Lemma streams_ready_mono n m l : (n <= m)%Z -> Forall (stream_ready n) l -> Forall (stream_ready m) l.
Proof. intros Hle Hl. eapply list.Forall_impl; [exact Hl|]. intros s. by apply stream_ready_mono. Qed.

Lemma Inner_new_ready conn cid config n : (0 <= n)%Z -> stream_ready n (Inner_new conn cid config None).
Proof.
  intros Hn. destruct (Inner_new_inv (K := FailoverTask K) (P := P) conn cid config None) as [Hi Ha].
  split; try done. simpl. lia.
Qed.

(** The tasks a stream has finished since, and those that wait in it. *)
Definition stream_moves (l : list (FailoverTask K)) (before after : list (ClientStreamInner (FailoverTask K) P)) : Prop :=
  exists l' xs, Forall2 same_task l l' /\ Forall2 (finishes codec) xs (mjoin (ci_events <$> after))
    /\ l' ++ stream_tasks before ≡ₚ xs ++ stream_tasks after.

Lemma stream_moves_none before : Forall (fun s => ci_events s = []) before -> stream_moves [] before before.
Proof.
  intros Hb. exists [], []. split; [done|]. split; [|done].
  induction Hb as [|s l He _ IH]; [done|]. csimpl. by rewrite He.
Qed.

Lemma stream_step_ready n o s l s' :
  (n + 2 < 2 ^ 64)%Z -> match o with SSend t _ => encodable codec stale t | _ => True end ->
  stream_ready n s -> stream_step codec stale wait_to o s = Some (l, s') ->
  stream_ready (n + 1) (handed_on s') /\ stream_moves (op_tasks o) [s] [s'].
Proof.
  intros Hn Ho [Hi Ha Hq Hc He] E. pose proof E as E'.
  apply stream_step_ok in E' as (Hi' & Hq' & Ha' & Hc' & (xs & evs & Hevs & Hxs & Hp) & _);
    [|done|by split; lia|by destruct o|done].
  split; [by split; [exact Hi'|exact Ha'|simpl; lia|simpl; lia|]|].
  exists l, xs. unfold stream_tasks; simpl. rewrite !app_nil_r, Hevs, He. split_and!; [|done|done].
  destruct o as [t fl| | | | | | |]; simpl in *; repeat case_match; simplify_eq/=; repeat constructor.
  all: unfold same_key; simpl; try done; apply key_common.
Qed.

Lemma drop_ready n s : stream_ready n (handed_on s) -> stream_ready n (handed_on (ClientStream_drop s)).
Proof.
  intros [Hi Ha Hq Hc He]. split; try done. destruct Hi as [Hi Hb]. split; [by apply stop_reg_inv|done].
Qed.

(** A coroutine that is woken: its stream, or the one it leaves behind. *)
Lemma worker_wake_moves n e w p r :
  (0 <= n)%Z -> (n + 2 < 2 ^ 64)%Z -> Forall (stream_ready n) (worker_streams w) ->
  Forall (encodable codec stale) (in_hand w) ->
  (forall s, e = WConnected (Ok s) -> stream_ready (n + 1) s /\ live_tasks (ci_timer s) = []) ->
  worker_wake (PoolStream0 := streams_of) e w p = Some r ->
  let after := worker_streams (wo_self r) ++ left_behind codec stale wait_to e w (Some (wo_self r)) in
  Forall (stream_ready (n + 1)) (handed_on <$> after)
  /\ stream_moves (handed (wo_out r)) (worker_streams w) after.
Proof.
  intros H0n Hn Hw Hh Hc E. apply wake_hands in E. unfold worker_streams, left_behind in *. cbn zeta.
  destruct (pc_stream (wk_pc w)) as [s|] eqn:Es; simpl in Hw.
  - destruct E as [Hself Hop]. apply list.Forall_cons in Hw as [Hw _].
    set (s' := stream_after codec stale wait_to e (wk_pc w) s) in *.
    assert (stream_ready (n + 1) (handed_on s') /\ stream_moves (handed (wo_out r)) [s] [s']) as [Hr Hm].
    { unfold s', stream_after. destruct (wake_op e (wk_pc w)) as [o|] eqn:Eo.
      - destruct Hop as [-> [[l s1] Est]]. rewrite Est.
        apply (stream_step_ready n o s l s1); [exact Hn| |exact Hw|exact Est].
        pose proof (wake_op_ok codec stale (fun _ => True) e w o) as Hok. destruct o; try done.
        apply Hok; [|done]. eapply list.Forall_impl; [exact Hh|done].
      - rewrite Hop. pose proof (sr_events _ _ Hw) as He. split.
        + destruct Hw. split; try done; simpl; lia.
        + apply stream_moves_none. by repeat constructor. }
    destruct Hself as [-> | ->]; simpl; (split; [constructor; [|constructor]|exact Hm]); [done|].
    by apply drop_ready.
  - destruct E as [-> Hself]. destruct (pc_stream (wk_pc (wo_self r))) as [s|]; simpl.
    + destruct (Hc s Hself) as [Hr Hl]. pose proof (sr_events _ _ Hr) as He. split.
      * constructor; [|constructor]. by destruct Hr.
      * exists [], []. unfold stream_tasks; simpl. rewrite Hl, He. by repeat constructor.
    + split; [constructor|]. by apply stream_moves_none.
Qed.

(** ** What is finished goes on its way *)

Lemma handle_event_frame ev f :
  fo_store (handle_event ev f) = fo_store f /\ fo_retry_limit (handle_event ev f) = fo_retry_limit f
  /\ with_pools (handle_event ev f) = with_pools f.
Proof. destruct ev as [t|t]; simpl; [done|]. unfold error_handle. by destruct (_ && _). Qed.

Lemma handle_events_frame evs f :
  fo_store (handle_events evs f) = fo_store f /\ fo_retry_limit (handle_events evs f) = fo_retry_limit f
  /\ with_pools (handle_events evs f) = with_pools f.
Proof.
  revert f. induction evs as [|ev evs IH]; intros f; [done|]. simpl.
  destruct (IH (handle_event ev f)) as (-> & -> & ->). apply handle_event_frame.
Qed.

Lemma handle_event_life t ev f :
  limit_ok f -> (0 <= ft_retry t <= fo_retry_limit f)%Z -> finishes codec t ev ->
  life_taus (fo_retry_limit f) ((false, t) :: fo_tasks f, fo_done f) (fo_life (handle_event ev f)).
Proof.
  intros Hlim Ht Hf. induction Hf as [t e|t e _|t|t bs ev _ IH|t n ev _ IH|t bs ev _ IH].
  - exists 1. by apply rpc_error_sim.
  - exists 1. apply (error_handle_sim t f); [done|done|done|]. unfold same_key; simpl. apply key_custom_error.
  - apply taus_one, ls_done. simpl. apply key_ok.
  - eapply taus_trans; [apply taus_one, (ls_touch _ false t (decode_resp codec t bs).2)|apply IH];
      unfold same_key, decode_resp at 1; simpl; unfold FailoverTask_decode_resp;
      pose proof (key_decode codec (ft_inner t) bs); by destruct (decode_resp codec (ft_inner t) bs).
  - eapply taus_trans; [apply taus_one, (ls_touch _ false t (reserve_resp_blob t n).2)|apply IH];
      unfold same_key, reserve_resp_blob at 1; simpl; unfold FailoverTask_reserve_resp_blob;
      pose proof (key_reserve (ft_inner t) n); by destruct (reserve_resp_blob (ft_inner t) n).
  - eapply taus_trans; [apply taus_one, (ls_touch _ false t (put_resp_blob t bs))|apply IH];
      [apply key_put_blob|done|done].
Qed.

Lemma handle_events_life xs evs f :
  limit_ok f -> Forall (fun t => 0 <= ft_retry t <= fo_retry_limit f)%Z xs -> Forall2 (finishes codec) xs evs ->
  life_taus (fo_retry_limit f) (((fun t => (false, t)) <$> xs) ++ fo_tasks f, fo_done f)
    (fo_life (handle_events evs f)).
Proof.
  intros Hlim Hxs Hf. revert f Hlim Hxs. induction Hf as [|x ev xs evs Hx _ IH]; intros f Hlim Hxs.
  { by apply taus_perm. }
  apply list.Forall_cons in Hxs as [Hb Hxs]. csimpl.
  destruct (handle_event_frame ev f) as (_ & Hl & _). set (f' := handle_event ev f) in *.
  eapply taus_trans; [by apply taus_perm, Permutation_middle|].
  eapply taus_trans; [by apply taus_frame, handle_event_life|]. fold f'.
  rewrite <- Hl. apply IH; [|by rewrite Hl]. unfold limit_ok. by rewrite Hl.
Qed.

Lemma unhealthy_finishes (ts : list (FailoverTask K)) : Forall2 (finishes codec) ts (unhealthy_event <$> ts).
Proof. induction ts; repeat constructor; done. Qed.

(** Where the streams that took part are [before] and then [after], tasks [l]
    were handed to them and [gone] were given up, and [f] is the failover pool
    without these. *)
Lemma moves_life f l gone before after rest :
  limit_ok f -> stream_moves l before after ->
  Forall (in_budget (fo_retry_limit f))
    (((fun t => (false, t)) <$> stream_tasks before ++ rest ++ l ++ gone) ++ fo_tasks f) ->
  life_taus (fo_retry_limit f)
    (((fun t => (false, t)) <$> stream_tasks before ++ rest ++ l ++ gone) ++ fo_tasks f, fo_done f)
    (((fun t => (false, t)) <$> stream_tasks after ++ rest)
       ++ fo_tasks (handle_events (mjoin (ci_events <$> after) ++ (unhealthy_event <$> gone)) f),
     fo_done (handle_events (mjoin (ci_events <$> after) ++ (unhealthy_event <$> gone)) f)).
Proof.
  intros Hlim (l' & xs & Hsame & Hxs & Hp) Hb.
  pose proof (unhealthy_finishes gone) as Hgone.
  set (F := fmap (fun t => (false, t))) in *.
  assert (life_taus (fo_retry_limit f) (F (stream_tasks before ++ rest ++ l ++ gone) ++ fo_tasks f, fo_done f)
    (F (stream_tasks after ++ rest) ++ F (xs ++ gone) ++ fo_tasks f, fo_done f)) as Ht.
  { eapply taus_trans; [apply taus_perm|eapply taus_trans; [by apply (taus_touch _ false l l')|apply taus_perm]].
    - transitivity (F l ++ F (stream_tasks before) ++ F rest ++ F gone ++ fo_tasks f);
        [unfold F; rewrite !fmap_app; solve_Permutation|reflexivity].
    - unfold F in *. rewrite !fmap_app. transitivity (F (l' ++ stream_tasks before) ++ F rest ++ F gone ++ fo_tasks f).
      + unfold F. rewrite fmap_app. solve_Permutation.
      + rewrite Hp. unfold F. rewrite fmap_app. solve_Permutation. }
  eapply taus_trans; [exact Ht|]. destruct Ht as [n Ht].
  apply life_run_budget in Ht as [Hb' _]; [|apply Hlim|exact Hb]. simpl in Hb'.
  apply (taus_frame (fo_retry_limit f) (F (stream_tasks after ++ rest))).
  apply handle_events_life; [done| |by apply Forall2_app].
  apply Forall_app in Hb' as [_ Hb']. apply Forall_app in Hb' as [Hb' _]. unfold F in Hb'.
  by apply (Forall_fmap (fun t => (false, t))) in Hb'.
Qed.

(** ** The invariant of a run *)

(** The keys of tasks whose requests can be encoded. *)
Variable Enc : A -> Prop.
Hypothesis enc_key : forall t, Enc (key (ft_inner t)) -> encodable codec stale t.
(** The result of a task has been set, and is one a response can carry. *)
Variable Q : K -> Prop.
Hypothesis Q_rpc : forall k e, Q (set_rpc_error k e).
Hypothesis Q_custom : forall k e, wire_err e = true -> Q (set_custom_error codec k e).
Hypothesis Q_ok : forall k, Q (set_ok k).

Lemma finishes_result t ev : finishes codec t ev -> Q (ft_inner (event_task ev)).
Proof.
  induction 1 as [t e|t e He|t|t bs ev _ IH|t n ev _ IH|t bs ev _ IH]; try done.
  - by apply (rpc_error_result Q Q_rpc t e).
  - by apply Q_custom.
  - apply Q_ok.
Qed.

Lemma handle_events_results xs evs f :
  Forall2 (finishes codec) xs evs -> have_results Q f -> have_results Q (handle_events evs f).
Proof.
  intros Hf. revert f. induction Hf as [|x ev xs evs Hx _ IH]; intros f Hr; [done|]. simpl. apply IH.
  apply finishes_result in Hx. destruct ev as [t|t]; simpl in *;
    [by apply done_inner_results|by apply error_handle_results].
Qed.

(** After [n] steps in which [subs] were submitted and [m] retries sent. *)
Record failover_inv (limit n : Z) (subs : list A) (m : nat) (r : failover_run K P) : Prop := {
  fi_streams : Forall (stream_ready n) (failover_streams r);
  fi_limit : fo_retry_limit (fr_pool r) = limit;
  fi_subs : Forall Enc subs;
  fi_results : have_results Q (fr_pool r);
  fi_life : exists labs, life_run limit labs ([], []) (failover_life r) /\ submits labs = subs /\ resends labs = m;
}.

Lemma inv_encodable limit n subs m r t :
  failover_inv limit n subs m r -> t ∈ with_pools (fr_pool r) -> encodable codec stale t.
Proof.
  intros [_ _ Hsubs _ (labs & Hr & Hs & _)] Ht. apply enc_key. apply life_run_keys in Hr. rewrite Hs in Hr.
  simpl in Hr. rewrite <- Hr, list.Forall_forall in Hsubs. apply Hsubs. unfold life_keys. apply elem_of_app. left.
  apply list_elem_of_fmap. exists t. split; [done|]. apply list_elem_of_fmap. exists (false, t). split; [done|].
  unfold failover_life, failover_tasks, fo_tasks; simpl. rewrite !elem_of_app. right. left.
  by apply list_elem_of_fmap_2.
Qed.

Lemma inv_budget limit n subs m r :
  (0 <= limit)%Z -> failover_inv limit n subs m r -> Forall (in_budget limit) (failover_tasks r).
Proof. intros Hl [_ _ _ _ (labs & Hr & _)]. by apply life_run_budget in Hr as [Hb _]. Qed.

Lemma stream_tasks_handed_on ss : stream_tasks (handed_on <$> ss) = stream_tasks ss.
Proof. unfold stream_tasks. by rewrite <- list_fmap_compose. Qed.

Lemma stream_tasks_app ss ss' : stream_tasks (ss ++ ss') = stream_tasks ss ++ stream_tasks ss'.
Proof. unfold stream_tasks. by rewrite fmap_app, join_app. Qed.

Lemma stream_tasks_perm ss ss' : ss ≡ₚ ss' -> stream_tasks ss ≡ₚ stream_tasks ss'.
Proof. intros Hp. unfold stream_tasks. by rewrite Hp. Qed.

(** A step in which streams take part. *)
Lemma moves_inv limit n subs m r r' f l gone before after rest :
  (0 <= limit < 2 ^ 64 - 1)%Z -> failover_inv limit n subs m r ->
  failover_streams r ≡ₚ before ++ rest -> failover_streams r' ≡ₚ (handed_on <$> after) ++ rest ->
  Forall (stream_ready (n + 1)) (handed_on <$> after) -> stream_moves l before after ->
  with_pools (fr_pool r) ≡ₚ (l ++ gone) ++ with_pools f -> fo_retry f = fo_retry (fr_pool r) ->
  fo_done f = fo_done (fr_pool r) -> fo_retry_limit f = fo_retry_limit (fr_pool r) ->
  fr_pool r' = handle_events (mjoin (ci_events <$> after) ++ (unhealthy_event <$> gone)) f ->
  failover_inv limit (n + 1) subs m r'.
Proof.
  intros Hlim Hi Hs Hs' Hready Hm Hw Hr Hd Hl Hr'. pose proof (inv_budget _ _ _ _ _ (proj1 Hlim) Hi) as Hb.
  destruct Hi as [Hstr Hlimit Hsubs Hresults (labs & Hrun & Hsub & Hres)].
  assert (failover_tasks r ≡ₚ ((fun t => (false, t)) <$> stream_tasks before ++ stream_tasks rest ++ l ++ gone)
    ++ fo_tasks f) as Ht.
  { unfold failover_tasks, fo_tasks. rewrite (stream_tasks_perm _ _ Hs), stream_tasks_app, Hw, Hr, !fmap_app.
    solve_Permutation. }
  rewrite Ht, <- Hlimit, <- Hl in Hb. apply (moves_life f l gone before after) in Hb; [|unfold limit_ok; congruence|exact Hm].
  destruct (handle_events_frame (mjoin (ci_events <$> after) ++ (unhealthy_event <$> gone)) f) as (_ & Hlf & _).
  assert (have_results Q (fr_pool r')) as Hres'.
  { rewrite Hr'. destruct Hm as (l' & xs & _ & Hxs & _), Hresults as [H1 H2].
    eapply (handle_events_results (xs ++ gone)); [by apply Forall2_app, unhealthy_finishes|]. split; congruence. }
  split; [|congruence|done|done|].
  - rewrite Hs'. apply Forall_app. split; [done|]. rewrite Hs in Hstr. apply Forall_app in Hstr as [_ Hrest].
    eapply streams_ready_mono; [|exact Hrest]. lia.
  - rewrite Hl, Hlimit in Hb. eapply taus_run in Hrun as (labs' & Hrun' & H1 & H2).
    + exists labs'. split; [exact Hrun'|]. split; congruence.
    + unfold failover_life. rewrite <- Hd. eapply taus_trans; [by apply taus_perm|].
      eapply taus_trans; [exact Hb|]. rewrite <- Hr'. apply taus_perm. unfold failover_tasks.
      by rewrite (stream_tasks_perm _ _ Hs'), stream_tasks_app, stream_tasks_handed_on.
Qed.

(** *** Steps of coroutines and receivers *)

Definition given_up (out : list (pool_out (FailoverTask K))) : list (FailoverTask K) :=
  omap (fun o => match o with Unhealthy t => Some t | Handed _ => None end) out.

Lemma out_tasks_split (out : list (pool_out (FailoverTask K))) :
  out_task <$> out ≡ₚ handed out ++ given_up out /\ unhealthy_events out = unhealthy_event <$> given_up out.
Proof.
  induction out as [|[t|t] out [IH1 IH2]]; [done|..]; csimpl; (split; [|by rewrite IH2]); rewrite IH1; [done|].
  apply Permutation_middle.
Qed.

Lemma map_stream_streams g id (x : pc (FailoverTask K) (ClientStreamInner (FailoverTask K) P)) :
  worker_streams (mkWorker id (map_stream g x)) = g <$> worker_streams (mkWorker id x).
Proof. by destruct x. Qed.

Lemma at_worker_held i g (p : ClientPool (FailoverTask K) (ClientStreamInner (FailoverTask K) P)) :
  held (at_worker i g p) ≡ₚ held p.
Proof.
  unfold at_worker. destruct (po_workers p !! i) as [w|] eqn:Ew; [|done]. unfold held; simpl. f_equiv.
  apply (Permutation_app_inv_l (in_hand w)). rewrite (join_map_insert in_hand _ _ _ _ Ew), in_hand_map_stream.
  by destruct w.
Qed.

(** A stream of a pool changes. *)
Lemma at_worker_streams p i w g :
  po_workers p !! i = Some w ->
  exists rest, pool_streams p ≡ₚ worker_streams w ++ rest
    /\ pool_streams (at_worker i g p) ≡ₚ (g <$> worker_streams w) ++ rest.
Proof.
  intros Ew. unfold at_worker. rewrite Ew. destruct (join_map_split worker_streams _ _ _ Ew) as (rest & H1 & H2).
  exists rest. split; [exact H1|]. unfold pool_streams; simpl. rewrite H2, map_stream_streams. by destruct w.
Qed.

Lemma connecting_no_streams (ws : list (worker (FailoverTask K) (ClientStreamInner (FailoverTask K) P))) :
  Forall (fun x => x = mkWorker 0 Connecting) ws -> mjoin (worker_streams <$> ws) = [].
Proof. by induction 1 as [|x ws -> _ IH]. Qed.

(** A coroutine was woken. *)
Lemma worker_pool_streams p i w r :
  po_workers p !! i = Some w -> Forall (fun x => x = mkWorker 0 Connecting) (wo_spawned r) ->
  let p' := put_workers (<[i := wo_self r]> (po_workers p) ++ wo_spawned r) (wo_pool r) in
  po_workers p' !! i = Some (wo_self r)
  /\ exists rest, pool_streams p ≡ₚ worker_streams w ++ rest
       /\ pool_streams (at_worker i handed_on p') ≡ₚ (handed_on <$> worker_streams (wo_self r)) ++ rest.
Proof.
  intros Ew Hsp. cbn zeta. set (p' := put_workers _ _).
  assert (po_workers p' !! i = Some (wo_self r)) as Ei.
  { apply lookup_lt_Some in Ew. simpl. rewrite lookup_app_l by by rewrite length_insert.
    by apply list_lookup_insert_eq. }
  split; [done|]. destruct (join_map_split worker_streams _ _ _ Ew) as (rest & H1 & H2). exists rest. split; [exact H1|].
  unfold at_worker. rewrite Ei. unfold pool_streams; simpl.
  rewrite insert_app_l by (rewrite length_insert; by eapply lookup_lt_Some).
  rewrite list_insert_insert_eq, fmap_app, join_app, H2, map_stream_streams.
  rewrite (connecting_no_streams _ Hsp), app_nil_r. by destruct (wo_self r).
Qed.

(** A pool of the store changes. *)
Lemma store_streams f id p p' (before after rest : list (ClientStreamInner (FailoverTask K) P)) :
  fo_store f !! id = Some p -> pool_streams p ≡ₚ before ++ rest -> pool_streams p' ≡ₚ after ++ rest ->
  exists rest', mjoin (pool_streams <$> fo_store f) ≡ₚ before ++ rest'
    /\ mjoin (pool_streams <$> fo_store (store_pool id p' f)) ≡ₚ after ++ rest'.
Proof.
  intros Ep Hb Ha. destruct (join_map_split pool_streams _ _ _ Ep) as (rest' & H1 & H2).
  exists (rest ++ rest'). rewrite H1, Hb. simpl. rewrite H2, Ha. split; by rewrite app_assoc.
Qed.

Lemma handed_on_store evs f : fo_store (handle_events evs f) = fo_store f.
Proof. apply handle_events_frame. Qed.

Lemma held_with_pools f id p t : fo_store f !! id = Some p -> t ∈ held p -> t ∈ with_pools f.
Proof.
  intros Ep Ht. rewrite (store_with_pools f id p p []) by done. unfold with_pools. simpl.
  apply elem_of_app. left. apply list_elem_of_join. exists (held p). split; [done|].
  apply list_elem_of_fmap. exists p. split; [done|]. eapply list_elem_of_lookup_2, list_lookup_insert_eq.
  by eapply lookup_lt_Some.
Qed.

Lemma worker_step_inv limit n subs m id i e r r' :
  (0 <= limit < 2 ^ 64 - 1)%Z -> (0 <= n)%Z -> (n + 2 < 2 ^ 64)%Z -> failover_inv limit n subs m r ->
  worker_step codec stale wait_to id i e r = Some r' -> failover_inv limit (n + 1) subs m r'.
Proof.
  intros Hlim H0n Hn Hi. unfold worker_step. cbn zeta. destruct (fo_store (fr_pool r) !! id) as [p|] eqn:Ep; [|done].
  set (e' := wake_stream _ _ e). destruct (po_workers p !! i) as [w|] eqn:Ew; [|done].
  destruct (pool_step _ p) as [[out p']|] eqn:Es; [|done]. intros [= <-].
  pose proof (pool_step_tasks _ _ _ _ Es) as Htasks. cbn [submitted fmap list_fmap mjoin list_join] in Htasks.
  rewrite app_nil_r in Htasks. simpl in Es. rewrite Ew in Es.
  destruct (worker_wake e' w p) as [x|] eqn:Ex; [|done]. injection Es as <- <-.
  destruct (worker_pool_streams p i w x Ew (so_spawned _ _ _ (worker_wake_ok _ _ _ _ Ex))) as (Ei & rest & Hb & Ha).
  set (p' := put_workers _ _) in *. rewrite Ei. cbn [from_option].
  destruct (store_streams (fr_pool r) id p _ _ _ _ Ep Hb Ha) as (rest' & Hb' & Ha').
  pose proof (fi_streams _ _ _ _ _ Hi) as Hready. unfold failover_streams in Hready. rewrite Hb' in Hready.
  apply Forall_app in Hready as [[Hw _]%Forall_app _].
  destruct (worker_wake_moves n e' w p x H0n Hn Hw) as [Hafter Hmoves]; [| |exact Ex|].
  { eapply in_hand_held; [exact Ew|]. apply list.Forall_forall. intros t Ht.
    eapply inv_encodable; [exact Hi|]. by eapply held_with_pools. }
  { intros s Ec. unfold e' in Ec. destruct e as [[c|?]| | | | |]; try done. simpl in Ec. injection Ec as <-.
    split; [apply Inner_new_ready; lia|done]. }
  destruct (out_tasks_split (wo_out x)) as [Hout Hgone]. rewrite Hgone.
  eapply (moves_inv limit n subs m r _ (store_pool id (at_worker i handed_on p') (fr_pool r)));
    [done|exact Hi| | |exact Hafter|exact Hmoves| |done..].
  - unfold failover_streams. rewrite Hb'. rewrite <- app_assoc. reflexivity.
  - unfold failover_streams. cbn [fr_pool fr_dropped]. rewrite handed_on_store, Ha', fmap_app. solve_Permutation.
  - rewrite <- Hout. apply (store_with_pools _ id p); [done|]. by rewrite at_worker_held.
Qed.

(** The receiver of a stream. *)
Lemma receiver_moves n o s l s' :
  (n + 2 < 2 ^ 64)%Z -> stream_ready n s -> stream_step codec stale wait_to (recv_stream_op o) s = Some (l, s') ->
  Forall (stream_ready (n + 1)) (handed_on <$> [s']) /\ stream_moves [] [s] [s'].
Proof.
  intros Hn Hs E. eapply stream_step_ready in E as [Hr Hm]; [|exact Hn|by destruct o|exact Hs].
  split; [by constructor|]. by destruct o.
Qed.

Lemma receiver_step_inv limit n subs m id i o r r' :
  (0 <= limit < 2 ^ 64 - 1)%Z -> (n + 2 < 2 ^ 64)%Z -> failover_inv limit n subs m r ->
  receiver_step codec stale wait_to id i o r = Some r' -> failover_inv limit (n + 1) subs m r'.
Proof.
  intros Hlim Hn Hi. unfold receiver_step. cbn zeta. destruct (fo_store (fr_pool r) !! id) as [p|] eqn:Ep; [|done].
  destruct (po_workers p !! i) as [w|] eqn:Ew; [|done]. destruct (pc_stream (wk_pc w)) as [s|] eqn:Epc; [|done].
  destruct (stream_step _ _ _ _ s) as [[l s']|] eqn:E; [|done]. intros [= <-].
  destruct (at_worker_streams p i w (fun _ => handed_on s') Ew) as (rest & Hb & Ha).
  unfold worker_streams in Hb, Ha. rewrite Epc in Hb, Ha. cbn [option_list fmap list_fmap] in Hb, Ha.
  destruct (store_streams (fr_pool r) id p _ _ _ _ Ep Hb Ha) as (rest' & Hb' & Ha').
  pose proof (fi_streams _ _ _ _ _ Hi) as Hready. unfold failover_streams in Hready. rewrite Hb' in Hready.
  apply Forall_app in Hready as [[Hw _]%Forall_app _]. apply list.Forall_cons in Hw as [Hw _].
  destruct (receiver_moves n o s l s' Hn Hw E) as [Hafter Hmoves].
  eapply (moves_inv limit n subs m r _ (store_pool id (at_worker i (fun _ => handed_on s') p) (fr_pool r)) [] []);
    [done|exact Hi| | |exact Hafter|exact Hmoves| |done..|].
  - unfold failover_streams. rewrite Hb'. rewrite <- app_assoc. reflexivity.
  - unfold failover_streams. cbn [fr_pool fr_dropped]. rewrite handed_on_store, Ha'. by rewrite <- app_assoc.
  - apply (store_with_pools _ id p _ []); [done|]. by rewrite at_worker_held.
  - cbn [fr_pool fmap list_fmap mjoin list_join]. by rewrite !app_nil_r.
Qed.

Lemma dropped_step_inv limit n subs m k o r r' :
  (0 <= limit < 2 ^ 64 - 1)%Z -> (n + 2 < 2 ^ 64)%Z -> failover_inv limit n subs m r ->
  failover_step codec stale wait_to (FlDropped k o) r = Some r' -> failover_inv limit (n + 1) subs m r'.
Proof.
  intros Hlim Hn Hi. cbn [failover_step]. destruct (fr_dropped r !! k) as [s|] eqn:Ek; [|done].
  destruct (stream_step _ _ _ _ s) as [[l s']|] eqn:E; [|done]. intros [= <-].
  assert (stream_ready n s) as Hs.
  { pose proof (fi_streams _ _ _ _ _ Hi) as Hready. apply Forall_app in Hready as [_ Hready].
    by eapply Forall_lookup_1. }
  destruct (receiver_moves n o s l s' Hn Hs E) as [Hafter Hmoves].
  eapply (moves_inv limit n subs m r _ (fr_pool r) [] [] [s] [s']
    (delete k (fr_dropped r) ++ mjoin (pool_streams <$> fo_store (fr_pool r))));
    [done|exact Hi| | |exact Hafter|exact Hmoves|done..|].
  - unfold failover_streams. rewrite (delete_Permutation _ _ _ Ek) at 1. solve_Permutation.
  - unfold failover_streams. cbn [fr_pool fr_dropped]. rewrite handed_on_store.
    rewrite (insert_delete_perm _ _ _ _ Ek). cbn [fmap list_fmap]. solve_Permutation.
  - cbn [fr_pool fmap list_fmap mjoin list_join]. by rewrite !app_nil_r.
Qed.

(** *** Steps without streams *)

Lemma store_same_streams f id p p' :
  fo_store f !! id = Some p -> po_workers p' = po_workers p ->
  mjoin (pool_streams <$> fo_store (store_pool id p' f)) ≡ₚ mjoin (pool_streams <$> fo_store f).
Proof.
  intros Ep Hw. destruct (join_map_split pool_streams _ _ _ Ep) as (rest & H1 & H2).
  rewrite H1. simpl. rewrite H2. unfold pool_streams. by rewrite Hw.
Qed.

Lemma pool_outs_store outs f : fo_store (pool_outs outs f) = fo_store f.
Proof.
  revert f. induction outs as [|o outs IH]; intros f; [done|]. simpl. rewrite IH.
  destruct o as [t|t]; [done|]. exact (proj1 (handle_event_frame (unhealthy_event t) f)).
Qed.

Lemma own_step_streams o f f' :
  without_streams o = true -> fo_step (PoolStream0 := streams_of) codec o f = Some f' ->
  mjoin (pool_streams <$> fo_store f') ≡ₚ mjoin (pool_streams <$> fo_store f).
Proof.
  destruct o as [task|k|alive|addrs|id|id o|k q o|]; cbn [fo_step without_streams]; intros Ho E; try done.
  - injection E as <-. unfold fo_send_req. destruct (fo_cluster f) as [c|]; [|done].
    destruct (select f c None) as [[[j id]|] f1] eqn:Es; apply select_frame in Es as (_ & _ & _ & _ & _ & _ & Hs);
      simpl; by rewrite Hs.
  - destruct (fo_sending f !! k) as [[[b id] t]|]; [|done]. destruct (fo_store f !! id) as [p|] eqn:Ep; [|done].
    unfold pool_send_req in E. destruct (_ <? _)%Z; [|done]. injection E as <-. by apply (store_same_streams _ _ p).
  - destruct (existsb _ _); [done|]. destruct (fo_retry f) as [|t rest]; [done|]. injection E as <-.
    unfold retry_iter. destruct alive; [|done]. simpl. destruct (fo_cluster f) as [c|]; [|done].
    destruct (_ =? _)%Z; destruct (select _ c _) as [[[j id]|] f1] eqn:Es;
      apply select_frame in Es as (_ & _ & _ & _ & _ & _ & Hs); simpl; by rewrite Hs.
  - injection E as <-. unfold update_addrs. set (old := old_pools_map _ _).
    pose proof (update_pools_join pool_streams addrs old (fo_store f) (fo_config f) (fo_pool_channel_size f)
      (fun _ => eq_refl)) as Hj.
    destruct (update_pools _ _ _ _ _) as [l store]; simpl in *. by rewrite Hj.
  - destruct (fo_store f !! id) as [p|] eqn:Ep; [|done]. destruct (_ || _); [done|]. injection E as <-.
    by apply (store_same_streams _ _ p).
  - destruct o; try done. destruct (fo_store f !! id) as [p|] eqn:Ep; [|done]. simpl in E. unfold cleanup in E.
    destruct (_ && _); [|done]. injection E as <-. rewrite pool_outs_store. by apply (store_same_streams _ _ p).
  - by injection E as <-.
Qed.

Lemma own_step_inv limit n subs m o r f :
  (0 <= limit < 2 ^ 64 - 1)%Z -> failover_inv limit n subs m r -> Forall Enc (op_submits o) ->
  without_streams o = true -> fo_step (PoolStream0 := streams_of) codec o (fr_pool r) = Some f ->
  failover_inv limit (n + 1) (subs ++ op_submits o) (m + op_resends o (fr_pool r) f)
    (mkFailoverRun f (fr_dropped r)).
Proof.
  intros Hlim Hi Henc Ho E. pose proof (inv_budget _ _ _ _ _ (proj1 Hlim) Hi) as Hb.
  destruct Hi as [Hstr Hlimit Hsubs Hresults (labs & Hrun & Hsub & Hres)].
  assert (failover_streams (mkFailoverRun f (fr_dropped r)) ≡ₚ failover_streams r) as Hp.
  { unfold failover_streams. simpl. by rewrite (own_step_streams o _ _ Ho E). }
  apply Forall_app in Hb as [_ Hb].
  pose proof E as E'. apply fo_step_sim in E' as (labs' & Hrun' & Hsub' & Hres' & Hl);
    [|unfold limit_ok; by rewrite Hlimit|by rewrite Hlimit].
  rewrite Hlimit in Hrun', Hl.
  split; [|exact Hl|by apply Forall_app|eapply (fo_step_results codec Q); eauto; by destruct o|].
  - rewrite Hp. eapply streams_ready_mono; [|exact Hstr]. lia.
  - exists (labs ++ labs'). rewrite submits_app, resends_app, Hsub, Hsub', Hres, Hres'.
    split; [|done]. eapply lr_trans; [exact Hrun|].
    eapply (lr_frame _ ((fun t => (false, t)) <$> stream_tasks (failover_streams r))) in Hrun'.
    assert (((fun t => (false, t)) <$> stream_tasks (failover_streams r)) ++ fo_tasks f
      ≡ₚ failover_tasks (mkFailoverRun f (fr_dropped r))) as Hpf
      by (unfold failover_tasks; by rewrite (stream_tasks_perm _ _ Hp)).
    rewrite <- (app_nil_r labs'). eapply lr_trans; [exact Hrun'|]. by apply lr_done.
Qed.

(** *** Runs *)

Definition failover_op_ok (o : failover_op K P) : Prop :=
  match o with FlOwn o => Forall Enc (op_submits o) | _ => True end.

(** What a run submits. *)
Definition failover_submits (o : failover_op K P) : list A :=
  match o with FlOwn o => op_submits o | _ => [] end.

Lemma failover_step_inv limit n subs m o r r' :
  (0 <= limit < 2 ^ 64 - 1)%Z -> (0 <= n)%Z -> (n + 2 < 2 ^ 64)%Z -> failover_op_ok o ->
  failover_inv limit n subs m r -> failover_step codec stale wait_to o r = Some r' ->
  failover_inv limit (n + 1) (subs ++ failover_submits o)
    (m + match o with FlOwn o => op_resends o (fr_pool r) (fr_pool r') | _ => 0 end) r'.
Proof.
  intros Hlim H0n Hn Ho Hi E. destruct o as [o|id i e|id i o|k o]; simpl in Ho |- *; rewrite ?app_nil_r, ?Nat.add_0_r.
  - simpl in E. destruct (without_streams o) eqn:Ew; [|done].
    destruct (fo_step codec o (fr_pool r)) as [f|] eqn:Ef; [|done]. injection E as <-. by apply own_step_inv.
  - by eapply worker_step_inv.
  - by eapply receiver_step_inv.
  - by eapply dropped_step_inv.
Qed.

Lemma failover_steps_inv limit n subs m ops r r' :
  (0 <= limit < 2 ^ 64 - 1)%Z -> (0 <= n)%Z -> (n + zlen ops + 1 < 2 ^ 64)%Z -> Forall failover_op_ok ops ->
  failover_inv limit n subs m r -> failover_steps codec stale wait_to ops r = Some r' ->
  failover_inv limit (n + zlen ops) (subs ++ mjoin (failover_submits <$> ops))
    (m + failover_resends codec stale wait_to ops r) r'.
Proof.
  intros Hlim H0n Hn Hops. revert n subs m r H0n Hn. induction Hops as [|o ops Ho _ IH]; intros n subs m r H0n Hn Hi.
  - intros [= <-]. simpl. rewrite app_nil_r, Nat.add_0_r. change (zlen []) with 0%Z. by rewrite Z.add_0_r.
  - cbn [failover_steps failover_resends]. destruct (failover_step codec stale wait_to o r) as [r1|] eqn:E; [|done].
    intros E'. unfold zlen in Hn. cbn [length] in Hn.
    apply (failover_step_inv limit n subs m) in E; [|done|lia|lia|done|done].
    apply IH in E; [|lia|unfold zlen; lia|exact E']. csimpl. rewrite app_assoc, Nat.add_assoc.
    replace (n + zlen (o :: ops))%Z with (n + 1 + zlen ops)%Z by (unfold zlen; cbn [length]; lia). exact E.
Qed.

Lemma failover_start_inv config addrs rr limit size :
  failover_inv limit 0 [] 0 (failover_start config addrs rr limit size).
Proof.
  assert (mjoin (pool_streams <$> fo_store (FailoverPool_new (K := K) (S := ClientStreamInner (FailoverTask K) P)
    config addrs rr limit size)) = []) as Hnil by (simpl; by induction addrs).
  assert (failover_streams (failover_start (K := K) (P := P) config addrs rr limit size) = []) as Hs
    by (unfold failover_streams; simpl fr_pool; by rewrite Hnil).
  split; [by rewrite Hs|done|done|by split|]. exists []. split; [|done]. unfold failover_life, failover_tasks. rewrite Hs.
  simpl fr_pool. rewrite FailoverPool_new_tasks. by apply lr_done.
Qed.
(** What holds at the end of any run. *)
Lemma failover_run_inv config addrs rr limit size ops r :
  failover_steps codec stale wait_to ops (failover_start config addrs rr limit size) = Some r ->
  (0 <= limit < 2 ^ 64 - 1)%Z -> Forall failover_op_ok ops -> (zlen ops < 2 ^ 63)%Z ->
  failover_inv limit (zlen ops) (mjoin (failover_submits <$> ops))
    (failover_resends codec stale wait_to ops (failover_start config addrs rr limit size)) r.
Proof.
  intros Hrun Hlimit Hops Hlen.
  apply (failover_steps_inv limit 0 [] 0) in Hrun; [exact Hrun|done|lia|lia|done|apply failover_start_inv].
Qed.

Lemma inv_keys limit n subs m r :
  failover_inv limit n subs m r ->
  subs ≡ₚ (key ∘ ft_inner <$> (failover_tasks r).*2) ++ (key <$> fo_done (fr_pool r)).
Proof. intros [_ _ _ _ (labs & Hr & <- & _)]. by apply life_run_keys in Hr. Qed.
End life.

(** ** Properties *)

Section claims.
Context {C K P A : Type} `{ClientTaskLaws C K, !TaskKey C K A}.
Context `{!ClientTransport C (FailoverTask K) P, !ClientTransportLaws C (FailoverTask K) P}.
Variables (codec : C) (stale : nat -> byte) (wait_to : Z -> Z -> poll bool).
(** The keys of tasks whose requests can be encoded. *)
Variable Enc : A -> Prop.
Hypothesis enc_key : forall t : FailoverTask K, Enc (key (ft_inner t)) -> encodable codec stale t.

End claims.
