(* ===== verification/Api.v ===== *)
(** * src/client, src/server, macros/src: remote method calls

    The API layer on top of the streams: on the client, a call encodes its
    argument, sends it as an [APIClientReq] with the action "Service.method" and
    turns the finished task into a typed result; on the server, the dispatcher
    splits the action, finds the service ([ServiceMuxDyn], or the struct the
    [service_mux_struct] macro expands) and the method (the code the [service]
    macro generates), and answers with an [APIServerResp]. *)

From S2P Require Import Prelude RustStd Errors Task ClientTaskMacro Buffer Proto BufIO Sock.
From S2P Require Import Parser ServerTask TcpServer Timer TcpClient EndToEnd Failover.

(** ** The client's task *)

Record APIClientReq := mkAPIClientReq {
  ar_common : ClientTaskCommon;
  ar_req_msg : option bytes;
  ar_action : bytes;
  ar_resp : option bytes;
  ar_res : option (result unit EncodedErr);
  ar_noti : bool;                  (* the channel to the caller is there *)
}.

Definition ar_put_res (r : result unit EncodedErr) (t : APIClientReq) : APIClientReq :=
  mkAPIClientReq (ar_common t) (ar_req_msg t) (ar_action t) (ar_resp t) (Some r) (ar_noti t).

Definition APIClientReq_encode_req (t : APIClientReq) (buf : bytes) : result Z unit * bytes :=
  match ar_req_msg t with
  | Some msg => (Ok (zlen msg), buf ++ msg)
  | None => (Ok 0%Z, buf)
  end.

Definition APIClientReq_decode_resp (t : APIClientReq) (buf : bytes)
    : result unit unit * APIClientReq :=
  (Ok (),
   if (0 <? length buf)%nat
   then mkAPIClientReq (ar_common t) (ar_req_msg t) (ar_action t) (Some buf) (ar_res t) (ar_noti t)
   else t).

Definition APIClientReq_set_custom_error (t : APIClientReq) (e : EncodedErr) : APIClientReq :=
  ar_put_res (Err e) t.

Definition APIClientReq_set_rpc_error (t : APIClientReq) (e : RpcIntErr) : APIClientReq :=
  ar_put_res (Err (EncodedErr_from e)) t.

Definition APIClientReq_set_ok (t : APIClientReq) : APIClientReq := ar_put_res (Ok ()) t.

(** [done]: what the caller receives; [None] is the panic of a second [done]. *)
Definition APIClientReq_done (t : APIClientReq) : option APIClientReq :=
  if ar_noti t then
    Some (mkAPIClientReq (ar_common t) (ar_req_msg t) (ar_action t) (ar_resp t) (ar_res t) false)
  else None.

Definition APIClientReq_set_common (t : APIClientReq) (c : ClientTaskCommon) : APIClientReq :=
  mkAPIClientReq c (ar_req_msg t) (ar_action t) (ar_resp t) (ar_res t) (ar_noti t).

#[export] Instance APIClientReq_ClientTask {C} : ClientTask C APIClientReq := {|
  get_action t := ActStr (ar_action t);
  encode_req _ := APIClientReq_encode_req;
  get_req_blob _ := None;
  decode_resp _ := APIClientReq_decode_resp;
  reserve_resp_blob t _ := (None, t);
  put_resp_blob t _ := t;
  set_custom_error _ := APIClientReq_set_custom_error;
  set_rpc_error := APIClientReq_set_rpc_error;
  set_ok := APIClientReq_set_ok;
  task_common := ar_common;
  set_common := APIClientReq_set_common;
|}.

#[export] Instance APIClientReq_Laws {C} : ClientTaskLaws C APIClientReq.
Proof.
  split; try done.
  1: { intros c t buf n buf'. unfold encode_req; simpl. unfold APIClientReq_encode_req.
    destruct (ar_req_msg t) as [m|]; intros [= <- <-]; [by eauto|]. exists []. by rewrite app_nil_r. }
  all: intros c t bs; unfold decode_resp; simpl; by destruct bs.
Qed.

#[export, refine] Instance APIClientReq_Key {C} : TaskKey C APIClientReq (bytes * option bytes) :=
  {| key t := (ar_action t, ar_req_msg t) |}.
Proof. all: try done. intros c t bs. unfold decode_resp; simpl. by destruct bs. Defined.

(** ** Calls *)

Section call.
Context {C : Type} (codec : C).

(** [make_req]; [None] is the panic of a request that does not encode. *)
Definition make_req {Req} `{Codec C Req} (service_method : bytes) (req : Req) : option APIClientReq :=
  match codec_encode codec req with
  | Err _ => None
  | Ok req_buf =>
      Some (mkAPIClientReq ClientTaskCommon_default (Some req_buf) service_method None None true)
  end.

(** [process_res] on what the caller's channel yields; [None] is a panic. *)
Definition process_res {Resp E} `{Codec C Resp, RpcErrCodec C E} (resp_default : Resp)
    (task_res : result APIClientReq unit) : option (result Resp (RpcError E)) :=
  match task_res with
  | Ok task =>
      match ar_res task with
      | None => None
      | Some (Ok _) =>
          match ar_resp task with
          | Some resp =>
              match codec_decode codec resp with
              | Ok resp_msg => Some (Ok resp_msg)
              | Err _ => Some (Err (Rpc Decode))
              end
          | None => Some (Ok resp_default)
          end
      | Some (Err (EncRpc e)) => Some (Err (Rpc e))
      | Some (Err (EncNum n)) =>
          match err_decode codec (Ok n) with
          | Ok e => Some (Err (User e))
          | Err _ => Some (Err (Rpc Decode))
          end
      | Some (Err (EncBuf buf)) =>
          match err_decode codec (Err buf) with
          | Ok e => Some (Err (User e))
          | Err _ => Some (Err (Rpc Decode))
          end
      | Some (Err (EncStatic _)) => None
      end
  | Err _ => Some (Err (Rpc Internal))
  end.

(** The action a generated endpoint method calls. *)
Definition service_method (trait_name method_name : bytes) : bytes :=
  trait_name ++ lit "." ++ method_name.
End call.

(** ** The server's task *)

Record APIServerReq := mkAPIServerReq {
  as_seq : Z;
  as_service : bytes;
  as_method : bytes;
  as_req : option bytes;
}.

Record APIServerResp := mkAPIServerResp {
  ap_seq : Z;
  ap_msg : option bytes;
  ap_res : option (result unit EncodedErr);
}.

Section server.
Context {C : Type} (codec : C).

Definition APIServerReq_set_result {R} `{Codec C R} (self : APIServerReq) (resp : R)
    : APIServerResp :=
  match codec_encode codec resp with
  | Err _ => mkAPIServerResp (as_seq self) None (Some (Err (EncodedErr_from Encode)))
  | Ok msg => mkAPIServerResp (as_seq self) (Some msg) (Some (Ok ()))
  end.

Definition APIServerReq_set_rpc_error (self : APIServerReq) (e : RpcIntErr) : APIServerResp :=
  mkAPIServerResp (as_seq self) None (Some (Err (EncodedErr_from e))).

Definition APIServerReq_set_error {E} `{RpcErrCodec C E} (self : APIServerReq) (e : RpcError E)
    : APIServerResp :=
  let encoded_err :=
    match e with
    | Rpc rpc_int_err => EncodedErr_from rpc_int_err
    | User user_err => err_encode codec user_err
    end in
  mkAPIServerResp (as_seq self) None (Some (Err encoded_err)).
End server.

(** [encode_resp] takes the result. *)
Definition APIServerResp_encode_resp {C} (_ : C) (self : APIServerResp) (buf : bytes)
    : option (Z * result (Z * option bytes) EncodedErr * bytes * APIServerResp) :=
  let self' := mkAPIServerResp (ap_seq self) (ap_msg self) None in
  match ap_res self with
  | None => None
  | Some (Ok _) =>
      match ap_msg self with
      | Some msg => Some (ap_seq self, Ok (zlen msg, None), buf ++ msg, self')
      | None => Some (ap_seq self, Ok (0%Z, None), buf, self')
      end
  | Some (Err e) => Some (ap_seq self, Err e, buf, self')
  end.

#[export] Instance APIServerResp_ServerTaskEncode {C} : ServerTaskEncode C APIServerResp :=
  {| encode_resp := APIServerResp_encode_resp |}.

#[export] Instance APIServerResp_EncodeLaws {C} : ServerTaskEncodeLaws C APIServerResp.
Proof.
  split. intros c [seq msg res] buf seq' n blob' buf' t'. unfold encode_resp; simpl.
  unfold APIServerResp_encode_resp; simpl. destruct res as [[[]|e]|]; [|done..].
  destruct msg as [m|]; intros [= _ <- _ <- _]; [by eauto|]. exists []. by rewrite app_nil_r.
Qed.

(** ** Services *)

(** A method of a service: its types and the user's code. *)
Record method (C : Type) := mkMethod {
  m_name : bytes;
  m_arg : Type;
  m_resp : Type;
  m_err : Type;
  m_arg_codec : Codec C m_arg;
  m_resp_codec : Codec C m_resp;
  m_err_codec : RpcErrCodec C m_err;
  m_fn : m_arg -> result m_resp (RpcError m_err);
}.
Arguments mkMethod {C} m_name {m_arg m_resp m_err m_arg_codec m_resp_codec m_err_codec} m_fn.
Arguments m_name {C} m.
Arguments m_arg {C} m.
Arguments m_resp {C} m.
Arguments m_err {C} m.
Arguments m_arg_codec {C} m.
Arguments m_resp_codec {C} m.
Arguments m_err_codec {C} m.
Arguments m_fn {C} m.
#[export] Existing Instances m_arg_codec m_resp_codec m_err_codec.

(** [ServiceStatic]/[ServiceDyn]: a name and what serving a request sends;
    [None] is a panic. *)
Record service := mkService {
  sv_name : bytes;
  sv_serve : APIServerReq -> option APIServerResp;
}.

Section services.
Context {C : Type} (codec : C).

(** [__handle_<method>] *)
Definition handle_method (m : method C) (req : APIServerReq) : option APIServerResp :=
  match as_req req with
  | None => None
  | Some buf =>
      match codec_decode codec buf with
      | Err _ => Some (APIServerReq_set_rpc_error req Decode)
      | Ok arg =>
          match m_fn m arg with
          | Ok resp => Some (APIServerReq_set_result codec req resp)
          | Err e => Some (APIServerReq_set_error codec req e)
          end
      end
  end.

(** The [match] on the method's name: the first arm that fits. *)
Fixpoint serve_methods (ms : list (method C)) (req : APIServerReq) : option APIServerResp :=
  match ms with
  | [] => Some (APIServerReq_set_rpc_error req Method)
  | m :: ms => if decide (as_method req = m_name m) then handle_method m req else serve_methods ms req
  end.

(** What [#[service]] makes of an [impl] block. *)
Definition service_of (name : bytes) (ms : list (method C)) : service :=
  mkService name (serve_methods ms).
End services.

(** [service_mux_struct]: the fields in order. *)
Fixpoint service_mux_struct (fields : list service) (req : APIServerReq) : option APIServerResp :=
  match fields with
  | [] => Some (APIServerReq_set_rpc_error req Service)
  | s :: fields =>
      if decide (as_service req = sv_name s) then sv_serve s req else service_mux_struct fields req
  end.

(** [ServiceMuxDyn] *)
Record ServiceMuxDyn := mkMuxDyn { mux_map : gmap (list byte) service }.

Definition ServiceMuxDyn_new : ServiceMuxDyn := mkMuxDyn ∅.

Definition ServiceMuxDyn_add (self : ServiceMuxDyn) (s : service) : ServiceMuxDyn :=
  mkMuxDyn (<[sv_name s := s]> (mux_map self)).

Definition ServiceMuxDyn_serve (self : ServiceMuxDyn) (req : APIServerReq) : option APIServerResp :=
  match mux_map self !! as_service req with
  | Some s => sv_serve s req
  | None => Some (APIServerReq_set_rpc_error req Service)
  end.

(** [APIDispatch<Inline<..>>]: [None] is a panic of the service. *)
Definition api_dispatch_req (serve : APIServerReq -> option APIServerResp) (req : RpcSvrReq)
    : option (result unit unit * list (resp_msg APIServerResp)) :=
  match sq_action req with
  | ActStr action =>
      match split_once Byte.x2e action with
      | Some (svc, meth) =>
          match serve (mkAPIServerReq (sq_seq req) svc meth (Some (sq_msg req))) with
          | Some resp => Some (Ok (), [Ok resp])
          | None => None
          end
      | None => Some (Err (), [])
      end
  | ActNum _ => Some (Err (), [])
  end.

(** ** From the server's answer to the caller's result *)

Section answers.
Context {C : Type} (codec : C) (stale : nat -> byte).

(** The caller's result when the task it sent is finished by response [r]. *)
Definition caller_gets {Resp E} `{Codec C Resp, RpcErrCodec C E} (dflt : Resp) (req : APIClientReq)
    (r : resp) : option (result Resp (RpcError E)) :=
  match APIClientReq_done (event_task (complete codec req r)) with
  | Some t => process_res codec dflt (Ok t)
  | None => None
  end.

(** The response [encode_resp] makes of a server task. *)
Definition answer_of (t : APIServerResp) : option resp :=
  match ap_res t with
  | None => None
  | Some (Ok _) => Some (RespOk (default [] (ap_msg t)) None)
  | Some (Err e) => Some (RespErr e)
  end.

Lemma answer_of_encodes t buf r :
  answer_of t = Some r -> encodes_clean stale codec t buf (ap_seq t) r.
Proof.
  destruct t as [seq msg [[[]|e]|]]; unfold answer_of; simpl; [|intros [= <-]; by eexists|done].
  intros [= <-]. unfold encodes_clean, encode_resp; simpl. unfold APIServerResp_encode_resp; simpl.
  eexists. destruct msg as [m|]; [reflexivity|]. by rewrite app_nil_r.
Qed.

Section typed.
Context {Resp E : Type} `{CodecLaws C Resp, RpcErrCodec C E} (dflt : Resp) (req : APIClientReq).
Hypothesis Hnoti : ar_noti req = true.

Lemma caller_gets_rpc (e : RpcIntErr) :
  caller_gets (E := E) dflt req (RespErr (EncRpc e)) = Some (Err (Rpc e)).
Proof.
  unfold caller_gets. cbn [complete err_text].
  rewrite RpcIntErr_text_prefix, RpcIntErr_text_utf8. cbn [andb].
  unfold RpcIntErr_as_bytes. rewrite RpcIntErr_from_str_as_ref.
  unfold APIClientReq_done; simpl. by rewrite Hnoti.
Qed.

Lemma caller_gets_user (e : E) :
  err_travels codec e -> caller_gets dflt req (RespErr (err_encode codec e)) = Some (Err (User e)).
Proof.
  unfold err_travels, caller_gets. destruct (err_encode codec e) as [ie|n|s|b]; [done| |done|].
  - intros [Hn Hd]. cbn [complete]. unfold APIClientReq_done; simpl. rewrite Hnoti; simpl.
    unfold as_u32. rewrite wrap_small by done. by rewrite Hd.
  - intros (Hd & Hs & _). cbn [complete err_text]. rewrite Hs.
    destruct (starts_with _ _ && _); unfold APIClientReq_done; simpl; rewrite Hnoti; simpl;
      by rewrite Hd.
Qed.

Lemma caller_gets_ok (v : Resp) msg :
  codec_encode codec v = Ok msg -> ar_resp req = None ->
  caller_gets (E := E) dflt req (RespOk msg None)
  = Some (Ok (match msg with [] => dflt | _ => v end)).
Proof.
  intros Henc Hresp. apply decode_encode in Henc. unfold caller_gets. cbn [complete].
  unfold complete_msg. destruct msg as [|b bs]; unfold APIClientReq_done; simpl; rewrite Hnoti; simpl.
  - by rewrite Hresp.
  - by rewrite Henc.
Qed.
End typed.
End answers.

(** ** Properties *)

Section claims.
Context {C : Type} (codec : C) (stale : nat -> byte).

(** The method a [match] on names reaches. *)
Fixpoint find_method (meth : bytes) (ms : list (method C)) : option (method C) :=
  match ms with
  | [] => None
  | m :: ms => if decide (meth = m_name m) then Some m else find_method meth ms
  end.

Lemma serve_methods_find ms req :
  serve_methods codec ms req
  = match find_method (as_method req) ms with
    | Some m => handle_method codec m req
    | None => Some (APIServerReq_set_rpc_error req Method)
    end.
Proof. induction ms as [|m ms IH]; simpl; [done|]. by case_decide. Qed.

(** What the user's method says, as far as the wire can carry it: a result
    whose encoding is empty arrives as the default, one that does not encode
    as [Encode]. *)
Definition method_outcome (m : method C) (arg : m_arg m) (dflt : m_resp m)
    : result (m_resp m) (RpcError (m_err m)) :=
  match m_fn m arg with
  | Ok v =>
      match codec_encode codec v with
      | Ok [] => Ok dflt
      | Ok _ => Ok v
      | Err _ => Err (Rpc Encode)
      end
  | Err e => Err e
  end.

(** The response that carries it. *)
Definition method_answer (m : method C) (arg : m_arg m) : resp :=
  match m_fn m arg with
  | Ok v =>
      match codec_encode codec v with
      | Ok msg => RespOk msg None
      | Err _ => RespErr (EncRpc Encode)
      end
  | Err (Rpc e) => RespErr (EncRpc e)
  | Err (User e) => RespErr (err_encode codec e)
  end.

(** The task of a call. *)
Definition call_task (svc meth buf : bytes) (seq : Z) : APIClientReq :=
  mkAPIClientReq {| common_seq := seq |} (Some buf) (service_method svc meth) None None true.

Lemma method_answer_gets (m : method C) `{!CodecLaws C (m_resp m)} (arg : m_arg m) (dflt : m_resp m)
    (req : APIClientReq) :
  ar_noti req = true -> ar_resp req = None ->
  (forall e, m_fn m arg = Err (User e) -> err_travels codec e) ->
  caller_gets codec dflt req (method_answer m arg) = Some (method_outcome m arg dflt).
Proof.
  intros Hn Hr Herr. unfold method_answer, method_outcome.
  destruct (m_fn m arg) as [v|[e|e]]; [|by apply caller_gets_user; auto|by apply caller_gets_rpc].
  destruct (codec_encode codec v) as [msg|[]] eqn:Ev; [|by apply caller_gets_rpc].
  rewrite (caller_gets_ok codec dflt req Hn v msg Ev Hr). by destruct msg.
Qed.

Lemma mux_serves (m : method C) `{!CodecLaws C (m_arg m)} (ms : list (method C)) (svc buf : bytes)
    (mux : ServiceMuxDyn) (arg : m_arg m) (seq : Z) :
  Byte.x2e ∉ svc -> mux_map mux !! svc = Some (service_of codec svc ms) ->
  find_method (m_name m) ms = Some m -> codec_encode codec arg = Ok buf ->
  exists resp,
    api_dispatch_req (ServiceMuxDyn_serve mux)
      (mkSvrReq seq (ActStr (service_method svc (m_name m))) buf None) = Some (Ok (), [Ok resp])
    /\ ap_seq resp = seq /\ answer_of resp = Some (method_answer m arg).
Proof.
  intros Hsvc Hmux Hm Harg. unfold api_dispatch_req. cbn [sq_action].
  unfold service_method. change (lit "." ++ m_name m) with (Byte.x2e :: m_name m).
  rewrite split_once_app by done. cbn [sq_seq sq_msg]. unfold ServiceMuxDyn_serve. cbn [as_service].
  rewrite Hmux. cbn [sv_serve service_of]. rewrite serve_methods_find. cbn [as_method].
  rewrite Hm. unfold handle_method. cbn [as_req]. rewrite (decode_encode _ _ _ Harg).
  unfold method_answer. destruct (m_fn m arg) as [v|[e|e]]; [|by eexists|by eexists].
  unfold APIServerReq_set_result. destruct (codec_encode codec v) as [msg|[]]; by eexists.
Qed.

(** A remote call returns what the method returns: the request made for
    "Service.method" is dispatched to that method of that service with the
    argument the caller passed, is answered exactly once under its sequence
    number, and the answer becomes, at the caller, the method's result or its
    error, framework and user errors kept apart. *)
Theorem api_call_result (m : method C) `{!CodecLaws C (m_arg m), !CodecLaws C (m_resp m)}
    (ms : list (method C)) (svc buf ebuf : bytes) (mux : ServiceMuxDyn) (arg : m_arg m)
    (dflt : m_resp m) (seq : Z)
    (Hsvc : Byte.x2e ∉ svc) (Hmux : mux_map mux !! svc = Some (service_of codec svc ms))
    (Hm : find_method (m_name m) ms = Some m) (Harg : codec_encode codec arg = Ok buf)
    (Herr : forall e, m_fn m arg = Err (User e) -> err_travels codec e) :
  exists req resp,
    make_req codec (service_method svc (m_name m)) arg = Some req
    /\ encode_req codec req [] = (Ok (zlen buf), buf)
    /\ api_dispatch_req (ServiceMuxDyn_serve mux) (mkSvrReq seq (get_action (C := C) req) buf None)
       = Some (Ok (), [Ok resp])
    /\ encodes_clean stale codec resp ebuf seq (method_answer m arg)
    /\ caller_gets codec dflt req (method_answer m arg) = Some (method_outcome m arg dflt).
Proof.
  destruct (mux_serves m ms svc buf mux arg seq) as (resp & Hd & Hq & Ha); [done..|].
  exists (call_task svc (m_name m) buf 0), resp. unfold make_req. rewrite Harg.
  split; [done|]. split; [done|]. split; [done|]. split; [|by apply method_answer_gets].
  rewrite <- Hq. by apply answer_of_encodes.
Qed.

(** A request that cannot be served: its error, answered once. *)
Definition call_fails (mux : ServiceMuxDyn) (svc meth msg : bytes) (e : RpcIntErr) : Prop :=
  match mux_map mux !! svc with
  | None => e = Service
  | Some s => exists ms, s = service_of codec svc ms
      /\ match find_method meth ms with
         | None => e = Method
         | Some m => e = Decode /\ codec_decode (M := m_arg m) codec msg = Err ()
         end
  end.

Lemma mux_refuses {Resp E} `{CodecLaws C Resp, RpcErrCodec C E} (dflt : Resp) (mux : ServiceMuxDyn)
    (req : APIClientReq) (svc meth msg ebuf : bytes) (seq : Z) (e : RpcIntErr) :
  ar_noti req = true -> Byte.x2e ∉ svc -> call_fails mux svc meth msg e ->
  exists resp r,
    api_dispatch_req (ServiceMuxDyn_serve mux)
      (mkSvrReq seq (ActStr (svc ++ Byte.x2e :: meth)) msg None) = Some (Ok (), [Ok resp])
    /\ encodes_clean stale codec resp ebuf seq r
    /\ caller_gets (E := E) codec dflt req r = Some (Err (Rpc e)).
Proof.
  intros Hnoti Hsvc Hfail. set (sreq := mkAPIServerReq seq svc meth (Some msg)).
  exists (APIServerReq_set_rpc_error sreq e), (RespErr (EncRpc e)).
  split; [|split; [by apply answer_of_encodes|by apply caller_gets_rpc]].
  unfold api_dispatch_req. cbn [sq_action]. rewrite split_once_app by done.
  cbn [sq_seq sq_msg]. fold sreq. unfold ServiceMuxDyn_serve. cbn [as_service sreq]. unfold call_fails in Hfail.
  destruct (mux_map mux !! svc) as [s|]; [|by subst]. destruct Hfail as (ms & -> & He).
  cbn [sv_serve service_of]. rewrite serve_methods_find. cbn [as_method sreq].
  destruct (find_method meth ms) as [m|]; [|by subst]. destruct He as [-> Hd].
  unfold handle_method. cbn [as_req sreq]. by rewrite Hd.
Qed.

(** A call that cannot be served still returns: an unknown service, an
    unknown method and an argument that does not decode are answered once,
    and the caller gets [Service], [Method] and [Decode]; an action that names
    no method is refused by the dispatcher, with nothing sent. *)
Theorem api_call_errors {Resp E} `{CodecLaws C Resp, RpcErrCodec C E} (dflt : Resp)
    (mux : ServiceMuxDyn) (req : APIClientReq) (svc meth msg ebuf : bytes) (seq : Z) (e : RpcIntErr)
    (Hnoti : ar_noti req = true) (Hsvc : Byte.x2e ∉ svc)
    (Hfail : match mux_map mux !! svc with
             | None => e = Service
             | Some s => exists ms, s = service_of codec svc ms
                 /\ match find_method meth ms with
                    | None => e = Method
                    | Some m => e = Decode /\ codec_decode (M := m_arg m) codec msg = Err ()
                    end
             end) :
  (exists resp r,
     api_dispatch_req (ServiceMuxDyn_serve mux)
       (mkSvrReq seq (ActStr (svc ++ Byte.x2e :: meth)) msg None) = Some (Ok (), [Ok resp])
     /\ encodes_clean stale codec resp ebuf seq r
     /\ caller_gets (E := E) codec dflt req r = Some (Err (Rpc e)))
  /\ (forall action, Byte.x2e ∉ action ->
       api_dispatch_req (ServiceMuxDyn_serve mux) (mkSvrReq seq (ActStr action) msg None)
       = Some (Err (), [])).
Proof.
  split; [by apply mux_refuses|].
  intros action Hact. unfold api_dispatch_req. cbn [sq_action].
  destruct (split_once Byte.x2e action) as [[l r]|] eqn:Es; [|done].
  apply split_once_spec in Es as [-> _]. set_solver.
Qed.

(** C33: The two ways to serve several services agree: a [ServiceMuxDyn] to
    which services of different names were added answers every request as the
    struct of the same services does. *)
Theorem mux_dyn_is_mux_struct (ss : list service) (req : APIServerReq)
    (Hnames : NoDup (sv_name <$> ss)) :
  ServiceMuxDyn_serve (foldl ServiceMuxDyn_add ServiceMuxDyn_new ss) req = service_mux_struct ss req.
Proof.
  assert (forall mux : ServiceMuxDyn, (forall s, s ∈ ss -> mux_map mux !! sv_name s = None) ->
    ServiceMuxDyn_serve (foldl ServiceMuxDyn_add mux ss) req
    = match mux_map mux !! as_service req with
      | Some s => sv_serve s req
      | None => service_mux_struct ss req
      end) as Hgen; [|by rewrite Hgen].
  induction ss as [|s ss IH]; intros mux Hfree; [done|]. csimpl in *.
  apply list.NoDup_cons in Hnames as [Hs Hnames]. rewrite IH; [|done|].
  - unfold ServiceMuxDyn_add. destruct (decide (as_service req = sv_name s)) as [E|Hne].
    + rewrite E, (Hfree s) by set_solver. cbn [mux_map]. by rewrite lookup_insert_eq.
    + cbn [mux_map]. by rewrite lookup_insert_ne.
  - intros x Hx. unfold ServiceMuxDyn_add. cbn [mux_map]. rewrite lookup_insert_ne; [apply Hfree; set_solver|].
    intros E. apply Hs. rewrite E. by apply list_elem_of_fmap_2.
Qed.
End claims.

(** ** A call over TCP *)

Section over_tcp.
Context {C TC TS : Type} `{AsyncReadLaws TC} `{!AsyncWrite TC, !AsyncWriteLaws TC}.
Context `{AsyncReadEofLaws TS} `{!AsyncWrite TS, !AsyncWriteLaws TS} (B : Type) `{IoBufferLaws B}.
Variables (codec : C) (fuel : nat) (stale : nat -> byte).

Lemma call_task_frame svc meth buf seq cid ebuf :
  (zlen buf <= u32_MAX)%Z ->
  ReqHead_encode stale codec ebuf cid (call_task svc meth buf seq)
  = Some (Ok None, req_frame cid (ActStr (service_method svc meth)) seq buf None).
Proof.
  intros Hb. destruct (ReqHead_encode_spec stale codec (call_task svc meth buf seq) ebuf cid)
    as (room & _ & E). revert E. unfold encode_req; cbn [APIClientReq_ClientTask].
  unfold APIClientReq_encode_req; cbn [ar_req_msg call_task]. intros (msg & Hm & Hn & ->).
  rewrite <- app_assoc in Hm. apply app_inv_head, app_inv_head in Hm. subst msg.
  unfold get_req_blob; cbn [APIClientReq_ClientTask opt_len].
  destruct (Z.ltb_spec u32_MAX (zlen buf)); [lia|]. cbn [orb].
  unfold req_frame. cbn [default]. by rewrite app_nil_r.
Qed.

(** C1: A remote call over a pair of TCP connections: the task [make_req]
    gives, under the sequence number it is sent with, is encoded and put on the
    wire as one frame; the server that finds the frame in its input reads
    the request, runs the method and writes one answer; the client that finds
    the answer in its input hands the waiting task over, and the caller gets
    the method's result, whatever the segmentation, the buffers, and the
    traffic before and after. *)
Theorem api_call_over_tcp (m : method C) `{!CodecLaws C (m_arg m), !CodecLaws C (m_resp m)}
    (ms : list (method C)) (svc buf ebuf rest rest' : bytes) (mux : ServiceMuxDyn) (arg : m_arg m)
    (dflt : m_resp m) (seq cid : Z) (cl : TcpClient TC) (srv srvw : TcpServer TS)
    (cs : ClientSide TC APIClientReq) (t' : ClientTaskTimer APIClientReq) (cancel : poll unit)
    (close : option (poll unit))
    (name := service_method svc (m_name m)) (frame := req_frame cid (ActStr name) seq buf None)
    (answer := method_answer codec m arg)
    (Hsvc : Byte.x2e ∉ svc) (Hmux : mux_map mux !! svc = Some (service_of codec svc ms))
    (Hm : find_method (m_name m) ms = Some m) (Harg : codec_encode codec arg = Ok buf)
    (Herr : forall e, m_fn m arg = Err (User e) -> err_travels codec e)
    (Hseq : in_u 64 seq) (Hcid : in_u 64 cid) (Hname : (zlen name < 2 ^ 31)%Z)
    (Hutf : utf8_valid name = true) (Hbuf : (zlen buf <= u32_MAX)%Z)
    (Hcl : cl_can_write fuel cl) (Hframe : length frame <= fuel)
    (Hsrv : srv_ok fuel false srv) (Hwire : srv_rest srv = frame ++ rest)
    (Hsrvw : srv_can_write fuel srvw) (Hanswer : resp_wf answer)
    (Hfuel : (resp_data_len answer + Z.of_nat RPC_RESP_HEADER_LEN <= Z.of_nat fuel)%Z)
    (Halloc : forall n, (0 <= n <= resp_data_len answer)%Z -> is_ok (buf_alloc (B := B) n) = true)
    (Hreg : take_task (C := C) seq (cs_timer cs) = (Ready (Some (call_task svc (m_name m) buf seq)), t'))
    (Hin : side_in cs (resp_frame seq answer ++ rest')) :
  exists cl' srv' resp s1 s2 cs' task,
    (fun req => task_set_seq (C := C) req seq) <$> make_req codec name arg
    = Some (call_task svc (m_name m) buf seq)
    /\ ReqHead_encode stale codec ebuf cid (call_task svc (m_name m) buf seq) = Some (Ok None, frame)
    /\ TcpClient_write_req fuel frame None true cl = (Done (Ok ()), cl')
    /\ outgoing (bs_inner (tc_stream cl')) = cl_out fuel cl ++ frame
    /\ TcpServer_read_req B fuel cancel srv = (Done (Ok (mkSvrReq seq (ActStr name) buf None)), srv')
    /\ api_dispatch_req (ServiceMuxDyn_serve mux) (mkSvrReq seq (ActStr name) buf None)
       = Some (Ok (), [Ok resp])
    /\ TcpServer_write_resp fuel stale codec resp srvw = (Done (Ok ()), s1)
    /\ TcpServer_flush_resp fuel s1 = (Done (Ok ()), s2)
    /\ outgoing (bs_inner (ts_stream s2)) = srv_out fuel srvw ++ resp_frame seq answer
    /\ TcpClient_read_resp B fuel codec close cs = (Done (Ok true), cs')
    /\ cs_timer cs' = t' /\ side_in cs' rest'
    /\ APIClientReq_done (event_task (complete codec (call_task svc (m_name m) buf seq) answer)) = Some task
    /\ cs_events cs' = cs_events cs ++ [complete codec (call_task svc (m_name m) buf seq) answer]
    /\ process_res codec dflt (Ok task) = Some (method_outcome codec m arg dflt).
Proof.
  pose proof (resp_data_len_nonneg answer) as Hpos.
  destruct (write_req_ok fuel frame None cl Hcl Hframe) as (cl' & Ew & How); [simpl; lia|].
  pose proof (read_req_reads B fuel false cancel srv Hsrv) as Hread.
  rewrite Hwire in Hread. unfold frame in Hread at 1. rewrite parse_req_frame in Hread;
    [|done|done|done|done|done|done|by apply Halloc].
  destruct Hread as (srv' & Er & _).
  destruct (mux_serves codec m ms svc buf mux arg seq) as (resp & Hd & Hq & Ha); [done..|].
  assert (encodes_clean stale codec resp (ts_encode_buf srvw) seq answer) as Henc
    by (rewrite <- Hq; by apply answer_of_encodes).
  destruct (write_resp_clean fuel stale codec resp srvw seq answer) as (s1 & E1 & Ho1 & Hs1); [done..|].
  destruct (flush_resp_ok fuel s1 Hs1) as (s2 & E2 & Ho2 & _).
  destruct (read_resp_registered B fuel codec close seq answer cs rest'
    (call_task svc (m_name m) buf seq) t') as (cs' & E3 & Hin' & Ht' & He'); [done..|lia|lia|done|].
  pose proof (method_answer_gets codec m arg dflt (call_task svc (m_name m) buf seq) eq_refl eq_refl Herr)
    as Hg. unfold caller_gets in Hg. fold answer in Hg.
  destruct (APIClientReq_done _) as [task|] eqn:Ed; [|done].
  exists cl', srv', resp, s1, s2, cs', task. rewrite How, app_nil_r, Ho2, Ho1.
  split; [unfold make_req; by rewrite Harg|]. split; [by apply call_task_frame|]. repeat (split; [done|]). done.
Qed.
End over_tcp.

(** ** A concrete service *)

(** "Echo.say" returns its argument, or the user error "no" on "bad". *)
Definition demo_say : method RawCodec :=
  mkMethod (m_arg := bytes) (m_resp := bytes) (m_err := bytes) (lit "say")
    (fun arg => if decide (arg = lit "bad") then Err (User (lit "no")) else Ok arg).

Definition demo_mux : ServiceMuxDyn :=
  ServiceMuxDyn_add ServiceMuxDyn_new (service_of Raw (lit "Echo") [demo_say]).

Lemma demo_no_dot : Byte.x2e ∉ lit "Echo".
Proof.
  intros Hin. repeat (apply elem_of_cons in Hin as [Hin|Hin]; [discriminate Hin|]).
  by apply not_elem_of_nil in Hin.
Qed.

Lemma demo_err_travels e : m_fn demo_say (lit "bad") = Err (User e) -> err_travels Raw e.
Proof.
  intros E. assert (m_fn demo_say (lit "bad") = Err (User (lit "no"))) as E' by reflexivity.
  rewrite E' in E. injection E as <-. split; [reflexivity|]. split; [reflexivity|].
  vm_compute; discriminate.
Qed.

Example api_call_result_witness :
  exists req, make_req Raw (lit "Echo.say") (lit "bad") = Some req
    /\ caller_gets (Resp := bytes) (E := bytes) Raw [] req (RespErr (EncBuf (lit "no")))
       = Some (Err (User (lit "no"))).
Proof.
  destruct (api_call_result Raw zeros demo_say [demo_say] (lit "Echo") (lit "bad") [] demo_mux (lit "bad")
    (@nil byte) 7) as (req & resp & Hreq & _ & _ & _ & Hg).
  - exact demo_no_dot.
  - reflexivity.
  - reflexivity.
  - reflexivity.
  - exact demo_err_travels.
  - exists req. split; [exact Hreq|exact Hg].
Defined.

Example api_call_errors_witness :
  exists req r, make_req Raw (lit "Echo.sing") (lit "hi") = Some req
    /\ caller_gets (Resp := bytes) (E := bytes) Raw [] req r = Some (Err (Rpc Method)).
Proof.
  set (req := mkAPIClientReq ClientTaskCommon_default (Some (lit "hi")) (lit "Echo.sing") None None true).
  destruct (api_call_errors (Resp := bytes) (E := bytes) Raw zeros [] demo_mux req (lit "Echo")
    (lit "sing") (lit "hi") [] 7 Method) as [(resp & r & _ & _ & Hg) _].
  - reflexivity.
  - exact demo_no_dot.
  - exists [demo_say]. split; reflexivity.
  - exists req, r. split; [reflexivity|exact Hg].
Defined.

Example mux_dyn_is_mux_struct_witness :
  ServiceMuxDyn_serve demo_mux (mkAPIServerReq 7 (lit "Echo") (lit "say") (Some (lit "hi")))
  = service_mux_struct [service_of Raw (lit "Echo") [demo_say]]
      (mkAPIServerReq 7 (lit "Echo") (lit "say") (Some (lit "hi"))).
Proof.
  apply (mux_dyn_is_mux_struct [service_of Raw (lit "Echo") [demo_say]]).
  apply NoDup_singleton.
Defined.

(** A client connection on which [input] arrives, with the call of
    "Echo.say" registered under sequence number 7. *)
Definition demo_call : APIClientReq := call_task (lit "Echo") (lit "say") (lit "hi") 7.

Definition demo_call_side (input : bytes) : ClientSide sock APIClientReq :=
  mkClientSide
    (mkTcpClient (mkBufStream (mkBufRead (replicate 8 Byte.x00) 0 0)
                    (mkBufWrite (replicate 8 Byte.x00) 0) (sock_of [7; 9; 2] input))
       [] (lit "c1") 5000 5000)
    (reg_task demo_call (count_add (ClientTaskTimer_new 5))) [].

Example api_call_over_tcp_witness :
  exists cs' task,
    @TcpClient_read_resp sock RawCodec _ _ _ vec vec_IoBuffer 1000 Raw None
      (demo_call_side (resp_frame 7 (RespOk (lit "hi") None) ++ [])) = (Done (Ok true), cs')
    /\ cs_events cs' = [complete Raw demo_call (RespOk (lit "hi") None)]
    /\ process_res (Resp := bytes) (E := bytes) Raw [] (Ok task) = Some (Ok (lit "hi")).
Proof.
  set (frame := req_frame 9 (ActStr (lit "Echo.say")) 7 (lit "hi") None).
  destruct (sock_of_ready [5; 20] (frame ++ lit "x")) as [Hi Hr].
  destruct (sock_of_ready [7; 9; 2] (resp_frame 7 (RespOk (lit "hi") None) ++ [])) as [Hi' Hr'].
  destruct (@api_call_over_tcp RawCodec sock sock _ _ _ _ _ _ _ _ _ vec vec_IoBuffer vec_IoBufferLaws Raw
    1000 zeros demo_say _ _ [demo_say] (lit "Echo") (lit "hi") [] (lit "x") [] demo_mux (lit "hi")
    (@nil byte) 7 9 demo_client (demo_server (frame ++ lit "x")) (demo_server [])
    (demo_call_side (resp_frame 7 (RespOk (lit "hi") None) ++ []))
    (take_task (C := RawCodec) 7 (reg_task demo_call (count_add (ClientTaskTimer_new 5)))).2 Pending None)
    as (cl' & srv' & resp & s1 & s2 & cs' & task & _ & _ & _ & _ & _ & _ & _ & _ & _ & Hread & _ & _ & _ & Hev & Hres).
  - exact demo_no_dot.
  - reflexivity.
  - reflexivity.
  - reflexivity.
  - discriminate.
  - unfold in_u; lia.
  - unfold in_u; lia.
  - reflexivity.
  - reflexivity.
  - vm_compute; discriminate.
  - split; [|repeat constructor]. split; [split; simpl; lia|]. split; [done|]. simpl; lia.
  - vm_compute; lia.
  - split; [split; [split; simpl; [lia|split; simpl; lia]|exact Hi]|].
    split; [exact Hr|]. split; [discriminate|]. vm_compute; lia.
  - exact (sock_of_incoming [5; 20] (frame ++ lit "x")).
  - apply demo_server_can_write.
  - vm_compute; split; discriminate.
  - vm_compute; discriminate.
  - intros n Hn. unfold buf_alloc; simpl. change (resp_data_len _) with 2%Z in Hn.
    destruct (Z.leb_spec n 1048576); [reflexivity|lia].
  - reflexivity.
  - split; [split; [split; simpl; [lia|split; simpl; lia]|exact Hi']|]. split; [exact Hr'|].
    exact (sock_of_incoming [7; 9; 2] _).
  - exists cs', task. split; [exact Hread|]. split; [exact Hev|exact Hres].
Defined.
