(* ===== verification/Endpoint.v ===== *)
(** * src/client/mod.rs: calls through an endpoint

    [AsyncEndpoint::call] (and [BlockingEndpoint::call]) makes a one-shot
    channel, sends a request task that holds its sender through the pool, and
    waits for the task to come back on the channel.  A call is numbered by its
    channel; the caller is the client of ClientLife.v with the default
    [ClientFacts], whose [error_handle] is [done]. *)

From S2P Require Import Prelude RustStd Errors Config Task ClientTaskMacro Buffer Proto BufIO Runtime.
From S2P Require Import Sock Parser ServerTask TcpServer Timer TcpClient EndToEnd ClientStream Pool ClientLife Failover Api.

(** ** [ClientFacts]: what [ClientDefault] leaves as it is *)

Definition ClientFacts_get_client_id {IO} (f : ClientDefault IO) : Z := 0.

(** ** Tasks with the channel they report to *)

Record CallTask := mkCallTask { ct_chan : nat; ct_req : APIClientReq }.

Definition ct_map (f : APIClientReq -> APIClientReq) (t : CallTask) : CallTask :=
  mkCallTask (ct_chan t) (f (ct_req t)).

#[export] Instance CallTask_ClientTask {C} : ClientTask C CallTask := {|
  get_action t := get_action (C := C) (ct_req t);
  encode_req c t := encode_req c (ct_req t);
  get_req_blob t := get_req_blob (C := C) (ct_req t);
  decode_resp c t bs := let '(r, q) := decode_resp c (ct_req t) bs in (r, mkCallTask (ct_chan t) q);
  reserve_resp_blob t n := let '(r, q) := reserve_resp_blob (C := C) (ct_req t) n in (r, mkCallTask (ct_chan t) q);
  put_resp_blob t bs := ct_map (fun q => put_resp_blob (C := C) q bs) t;
  set_custom_error c t e := ct_map (fun q => set_custom_error c q e) t;
  set_rpc_error t e := ct_map (fun q => set_rpc_error (C := C) q e) t;
  set_ok t := ct_map (set_ok (C := C)) t;
  task_common t := task_common (C := C) (ct_req t);
  set_common t cm := ct_map (fun q => set_common (C := C) q cm) t;
|}.

#[export] Instance CallTask_Laws {C} : ClientTaskLaws C CallTask.
Proof.
  split; try done.
  - intros c [n t] buf k buf'. exact (encode_req_appends (T := APIClientReq) c t buf k buf').
  - intros c [n t] bs. unfold decode_resp; simpl. by destruct bs.
Qed.

(** A call is known by its channel, its action and its message. *)
#[export, refine] Instance CallTask_tag_Key {C} : TaskKey C CallTask (nat * bytes * option bytes) :=
  {| key t := (ct_chan t, ar_action (ct_req t), ar_req_msg (ct_req t)) |}.
Proof. all: try done. intros c [n t] bs. unfold decode_resp; simpl. by destruct bs. Defined.

(** [done], and [ClientFacts::error_handle] which is [done]: what is sent on the
    channel; [None] is a panic. *)
Definition ClientFacts_error_handle (t : CallTask) : option APIClientReq := APIClientReq_done (ct_req t).

Definition event_sends (ev : task_event CallTask) : option APIClientReq :=
  match ev with
  | EvDone t => APIClientReq_done (ct_req t)
  | EvErrorHandle t => ClientFacts_error_handle t
  end.

(** What the events sent on channel [i]. *)
Definition inbox (i : nat) (evs : list (task_event CallTask)) : list (option APIClientReq) :=
  event_sends <$> filter (fun ev => ct_chan (event_task ev) = i) evs.

(** [rx.recv()] of call [i]: the task, or an error once no sender is left; the
    sender is in the task that is still on its way. *)
Definition call_recv (i : nat) (sent : list (option APIClientReq)) (waiting : list CallTask) :
    poll (option (result APIClientReq unit)) :=
  match sent with
  | Some t :: _ => Ready (Some (Ok t))
  | None :: _ => Ready None
  | [] => if bool_decide (i ∈ ct_chan <$> waiting) then Pending else Ready (Some (Err ()))
  end.

(** ** Endpoints *)

(** A request of any type the codec knows. *)
Record api_call (C : Type) := mkApiCall {
  ac_req : Type;
  ac_codec : Codec C ac_req;
  ac_method : bytes;
  ac_arg : ac_req;
}.
Arguments mkApiCall {C} ac_req ac_codec ac_method ac_arg.
Arguments ac_req {C} a.
Arguments ac_codec {C} a.
Arguments ac_method {C} a.
Arguments ac_arg {C} a.
#[export] Existing Instance ac_codec.

Section endpoint.
Context {C P : Type} `{!ClientTransport C CallTask P}.
Variables (codec : C) (stale : nat -> byte) (wait_to : Z -> Z -> poll bool).

(** The calls made so far, by channel: the method and the message. *)
Record AsyncEndpoint := mkEndpoint {
  ep_caller : client_run CallTask P;
  ep_calls : list (bytes * bytes);
}.

Definition AsyncEndpoint_new (caller : client_run CallTask P) : AsyncEndpoint := mkEndpoint caller [].

(** [APIClientFacts::create_pool_async] *)
Definition create_pool_async {IO} (f : ClientDefault IO) (addr : bytes) : client_run CallTask P :=
  client_start (ClientDefault_get_config f) (ClientFacts_get_client_id f) addr 0.

(** [call] up to the wait for the channel; it waits while the pool is full. *)
Definition AsyncEndpoint_call (k : api_call C) (e : AsyncEndpoint) : run unit * AsyncEndpoint :=
  match make_req codec (ac_method k) (ac_arg k) with
  | None => (Panicked, e)
  | Some task =>
      match client_step codec stale wait_to (ClSend (mkCallTask (length (ep_calls e)) task)) (ep_caller e) with
      | None => (Waiting, e)
      | Some caller =>
          (Done (), mkEndpoint caller (ep_calls e ++ [(ac_method k, default [] (ar_req_msg task))]))
      end
  end.

(** The rest of [call] number [i], with what came through the channels and the
    tasks that are still on their way. *)
Definition call_result {Resp E} `{Codec C Resp, RpcErrCodec C E} (resp_default : Resp) (i : nat)
    (sent : list (option APIClientReq)) (waiting : list CallTask) : poll (option (result Resp (RpcError E))) :=
  match call_recv i sent waiting with
  | Pending => Pending
  | Ready None => Ready None
  | Ready (Some task_res) => Ready (process_res codec resp_default task_res)
  end.

Definition AsyncEndpoint_call_result {Resp E} `{Codec C Resp, RpcErrCodec C E} (resp_default : Resp) (i : nat)
    (e : AsyncEndpoint) : poll (option (result Resp (RpcError E))) :=
  call_result resp_default i (inbox i (client_events (ep_caller e))) (client_waiting (ep_caller e)).

(** [BlockingEndpoint]: the same on the blocking half of the channel, which is
    the same queue. *)
Definition BlockingEndpoint_new := AsyncEndpoint_new.
Definition BlockingEndpoint_call := AsyncEndpoint_call.

Inductive endpoint_op :=
| EpCall (k : api_call C)
| EpClient (o : client_op CallTask P).   (* a step of the pool or of a stream *)

Definition endpoint_step (o : endpoint_op) (e : AsyncEndpoint) : option AsyncEndpoint :=
  match o with
  | EpCall k =>
      match AsyncEndpoint_call k e with
      | (Waiting, _) => None
      | (_, e) => Some e
      end
  | EpClient (ClSend _) => None
  | EpClient o =>
      match client_step codec stale wait_to o (ep_caller e) with
      | None => None
      | Some caller => Some (mkEndpoint caller (ep_calls e))
      end
  end.

Fixpoint endpoint_steps (ops : list endpoint_op) (e : AsyncEndpoint) : option AsyncEndpoint :=
  match ops with
  | [] => Some e
  | o :: ops => match endpoint_step o e with None => None | Some e => endpoint_steps ops e end
  end.
End endpoint.
Arguments AsyncEndpoint P : clear implicits.
Arguments endpoint_op C P : clear implicits.

(** ** Every call returns *)

(** The tasks of calls: with their sender, and without a result that no
    response carries. *)
Definition call_ready (t : CallTask) : Prop := ar_noti (ct_req t) = true.

(** A result that [process_res] takes. *)
Definition call_finished (t : APIClientReq) : Prop :=
  exists r, ar_res t = Some r /\ match r with Err (EncStatic _) => False | _ => True end.

Lemma finishes_call {C} (codec : C) (x : CallTask) ev :
  finishes codec x ev -> call_ready x ->
  exists t, event_sends ev = Some t /\ call_finished t
    /\ key (C := C) (event_task ev) = key (C := C) x /\ ar_action t = ar_action (ct_req x)
    /\ ar_req_msg t = ar_req_msg (ct_req x).
Proof.
  unfold call_ready, call_finished. induction 1 as [[n x] e|[n x] e He|[n x]|[n x] bs ev _ IH|[n x] k ev _ IH|[n x] bs ev _ IH];
    simpl; intros Hn.
  - unfold ClientFacts_error_handle, APIClientReq_done; simpl. rewrite Hn. eexists. split; [done|].
    split; [by eexists|done].
  - unfold ClientFacts_error_handle, APIClientReq_done; simpl. rewrite Hn. eexists. split; [done|].
    split; [|done]. eexists. split; [done|]. by destruct e.
  - unfold APIClientReq_done; simpl. rewrite Hn. eexists. split; [done|].
    split; [by eexists|done].
  - destruct IH as (t & Ht); [by destruct bs|]. exists t. by destruct bs.
  - by destruct IH as (t & Ht); [|exists t].
  - by destruct IH as (t & Ht); [|exists t].
Qed.

Lemma process_res_total {C Resp E} `{Codec C Resp, RpcErrCodec C E} (codec : C) (dflt : Resp) t :
  call_finished t -> is_Some (process_res (E := E) codec dflt (Ok t)).
Proof. intros (r & Hr & Hs). unfold process_res. rewrite Hr. by destruct r as [|[]]; repeat case_match; eauto. Qed.

(** A request that only has a message, and one that fits a header. *)
Lemma encodable_message {C K} `{ClientTaskLaws C K} (codec : C) (stale : nat -> byte) (t : K) msg :
  (zlen msg <= u32_MAX)%Z -> (forall q, get_req_blob (task_set_seq t q) = None) ->
  (forall q buf, encode_req codec (task_set_seq t q) buf = (Ok (zlen msg), buf ++ msg)) ->
  encodable codec stale t.
Proof.
  intros Hm Hblob Henc buf cid q. destruct (ReqHead_encode_spec stale codec (task_set_seq t q) buf cid) as (room & _ & E).
  rewrite Henc in E. destruct E as (msg' & _ & _ & ->). rewrite Hblob.
  destruct (Z.ltb_spec u32_MAX (zlen msg)); [lia|]. eauto.
Qed.

Lemma call_encodable {C} (codec : C) (stale : nat -> byte) (t : CallTask) buf :
  ar_req_msg (ct_req t) = Some buf -> (zlen buf <= u32_MAX)%Z -> encodable codec stale t.
Proof.
  intros Hm Hb. apply (encodable_message codec stale t buf); [done|done|]. intros q b.
  unfold encode_req; simpl. unfold encode_req; simpl. unfold APIClientReq_encode_req. simpl. by rewrite Hm.
Qed.

(** The tasks of a list of calls. *)
Definition call_of (i : nat) (c : bytes * bytes) : CallTask :=
  mkCallTask i (mkAPIClientReq ClientTaskCommon_default (Some c.2) c.1 None None true).

(** What a call is known by. *)
Definition call_tag (t : CallTask) : nat * bytes * option bytes := (ct_chan t, ar_action (ct_req t), ar_req_msg (ct_req t)).

Lemma calls_tags i calls m b :
  calls !! i = Some (m, b) ->
  filter (fun x : nat * bytes * option bytes => x.1.1 = i) (call_tag <$> imap call_of calls) = [(i, m, Some b)].
Proof.
  assert (forall k i calls, calls !! i = Some (m, b) ->
    filter (fun x : nat * bytes * option bytes => x.1.1 = k + i) (call_tag <$> imap (fun j => call_of (k + j)) calls)
    = [(k + i, m, Some b)]) as Hgen; [|exact (Hgen 0 i calls)].
  clear i calls. intros k i calls. revert k i. induction calls as [|c calls IH]; intros k i E; [done|].
  assert (forall k' cs, k < k' ->
    filter (fun x : nat * bytes * option bytes => x.1.1 = k) (call_tag <$> imap (fun j => call_of (k' + j)) cs) = []) as Hno.
  { intros k' cs Hk. revert k' Hk. induction cs as [|c' cs IHc]; intros k' Hk; [done|]. cbn [imap fmap list_fmap].
    rewrite filter_cons_False by (simpl; lia).
    rewrite <- (IHc (S k')) by lia. do 2 f_equal. apply imap_ext. intros. simpl. f_equal. lia. }
  assert (imap ((fun j => call_of (k + j)) ∘ S) calls = imap (fun j => call_of (S k + j)) calls) as Himap.
  { apply imap_ext. intros. simpl. f_equal. lia. }
  cbn [imap fmap list_fmap]. rewrite Himap. destruct i as [|i]; simpl in E.
  - injection E as ->. rewrite Nat.add_0_r. rewrite filter_cons_True by (simpl; lia).
    by rewrite (Hno (S k)) by lia.
  - rewrite filter_cons_False by (simpl; lia). specialize (IH (S k) i E).
    replace (k + S i) with (S k + i) by lia. exact IH.
Qed.

(** When the calls are, each once, finished or on their way, a call is one or
    the other. *)
Lemma one_call {D} (f : D -> nat * bytes * option bytes) (finished : list D) (waiting : list CallTask) calls i m b :
  call_tag <$> imap call_of calls ≡ₚ (f <$> finished) ++ (call_tag <$> waiting) -> calls !! i = Some (m, b) ->
  (i ∈ ct_chan <$> waiting /\ filter (fun x => (f x).1.1 = i) finished = [])
  \/ (~ i ∈ ct_chan <$> waiting
      /\ exists x, filter (fun x => (f x).1.1 = i) finished = [x] /\ x ∈ finished /\ f x = (i, m, Some b)).
Proof.
  intros Hp Hcall. apply (filter_Permutation (fun x : nat * bytes * option bytes => x.1.1 = i)) in Hp.
  rewrite (calls_tags i _ m b Hcall), list.filter_app, !filter_fmap in Hp. cbn [call_tag fst] in Hp.
  set (fe := filter (fun x => (f x).1.1 = i) finished) in *.
  set (fw := filter (fun t => ct_chan t = i) waiting) in *.
  assert (i ∈ (ct_chan <$> waiting) <-> fw <> []) as Hin.
  { rewrite list_elem_of_fmap. split.
    - intros (t & -> & Ht) Hnil. apply (not_elem_of_nil t). rewrite <- Hnil. by apply list_elem_of_filter.
    - destruct fw as [|t l] eqn:Ef; [done|]. intros _. exists t. assert (t ∈ fw) as Ht by (rewrite Ef; by left).
      apply list_elem_of_filter in Ht as [<- Ht]. done. }
  destruct fe as [|x [|x' l]] eqn:Efe.
  - left. split; [|done]. apply Hin. intros Hnil. rewrite Hnil in Hp. by apply Permutation_length in Hp.
  - right. assert (fw = []) as Hfw.
    { apply Permutation_length in Hp. destruct fw; [done|]. simpl in Hp. lia. }
    rewrite Hfw in Hp, Hin. split; [intros Hx; by apply Hin in Hx|]. exists x. split; [done|].
    assert (x ∈ fe) as Hx by (rewrite Efe; by left). apply list_elem_of_filter in Hx as [_ Hx]. split; [done|].
    apply Permutation_singleton_l in Hp. by injection Hp.
  - apply Permutation_length in Hp. simpl in Hp. rewrite length_app in Hp. simpl in Hp. lia.
Qed.

Section returns.
Context {C P : Type} `{!ClientTransport C CallTask P, !ClientTransportLaws C CallTask P}.
Variables (codec : C) (stale : nat -> byte) (wait_to : Z -> Z -> poll bool).
Implicit Types e : AsyncEndpoint P.

(** Requests that fit a header. *)
Definition endpoint_op_ok (o : endpoint_op C P) : Prop :=
  match o with
  | EpCall k => match codec_encode codec (ac_arg k) with Ok buf => (zlen buf <= u32_MAX)%Z | Err _ => True end
  | EpClient _ => True
  end.

(** A run of an endpoint is a run of its client that submits its calls. *)
Lemma endpoint_runs ops e e' :
  Forall endpoint_op_ok ops -> endpoint_steps codec stale wait_to ops e = Some e' ->
  exists cops calls, client_steps codec stale wait_to cops (ep_caller e) = Some (ep_caller e')
    /\ length cops <= length ops /\ ep_calls e' = ep_calls e ++ calls
    /\ client_submitted cops = imap (fun j => call_of (length (ep_calls e) + j)) calls
    /\ Forall (client_op_ok codec stale call_ready) cops.
Proof.
  intros Hops. revert e. induction Hops as [|o ops Ho _ IH]; intros e; cbn [endpoint_steps].
  { intros [= <-]. exists [], []. rewrite app_nil_r. by repeat constructor. }
  destruct (endpoint_step codec stale wait_to o e) as [e1|] eqn:E; [|done]. intros E'.
  destruct (IH e1 E') as (cops & calls & Hrun & Hlen & Hcalls & Hsub & Hok). clear IH E'.
  destruct o as [k|o]; cbn [endpoint_step] in E.
  - unfold AsyncEndpoint_call, make_req in E. simpl in Ho. destruct (codec_encode codec (ac_arg k)) as [buf|].
    2:{ injection E as <-. exists cops, calls. split_and!; try done. simpl. lia. }
    set (t := mkCallTask _ _) in E.
    destruct (client_step codec stale wait_to (ClSend t) (ep_caller e)) as [c|] eqn:Ec; [|done].
    injection E as <-. cbn [ep_caller ep_calls ar_req_msg default] in *.
    exists (ClSend t :: cops), ((ac_method k, buf) :: calls). cbn [client_steps]. rewrite Ec.
    split_and!; try done; [simpl; lia|by rewrite Hcalls, <- app_assoc| |].
    + unfold client_submitted in *. csimpl. rewrite Hsub. f_equal; [unfold call_of; by rewrite Nat.add_0_r|].
      rewrite length_app. apply imap_ext. intros j c1 _. simpl. f_equal. lia.
    + constructor; [|done]. split; [|done]. by eapply call_encodable.
  - assert (exists c, client_step codec stale wait_to o (ep_caller e) = Some c /\ e1 = mkEndpoint c (ep_calls e)
      /\ client_submitted [o] = [] /\ client_op_ok codec stale call_ready o) as (c & Ec & -> & Hno & Hoo).
    { destruct o; try done; destruct (client_step codec stale wait_to _ (ep_caller e)) as [c|]; try done;
        injection E as <-; by exists c. }
    exists (o :: cops), calls. cbn [client_steps]. rewrite Ec. split_and!; try done; [simpl; lia| |by constructor].
    unfold client_submitted in *. change (o :: cops) with ([o] ++ cops). by rewrite omap_app, Hno.
Qed.

End returns.

(** ** A concrete run

    Two calls; the first is sent and answered, the second is still in the
    channel of the pool. *)

#[local] Existing Instance vec_IoBuffer.

#[local] Instance call_transport : ClientTransport RawCodec CallTask (TcpClient sock) :=
  Tcp_ClientTransport vec id 1000.
#[local] Instance call_transport_laws : ClientTransportLaws RawCodec CallTask (TcpClient sock) :=
  Tcp_ClientTransportLaws vec id 1000.

Definition say (msg : bytes) : api_call RawCodec := mkApiCall bytes RawCodec_Codec (lit "Echo.say") msg.

Definition demo_ep_ops : list (endpoint_op RawCodec (TcpClient sock)) :=
  [EpCall (say (lit "hi")); EpClient (ClWorker 0 (WConnected (Ok (demo_conn (resp_frame 1 (RespOk (lit "HI") None))))));
   EpClient (ClWorker 0 WGo); EpClient (ClWorker 0 WTask); EpClient (ClWorker 0 WGo);
   EpCall (say (lit "yo")); EpClient (ClReceiver 0 RvPoll); EpClient (ClReceiver 0 (RvResponse 0))].

Abbreviation demo_ep_run :=
  (endpoint_steps Raw demo_stale demo_wait demo_ep_ops
     (AsyncEndpoint_new (create_pool_async (ClientDefault_new ClientConfig_default tt) (lit "h:1")))).

