(* ===== verification/EndpointFailover.v ===== *)
(** * src/client/mod.rs: calls through a failover pool

    The endpoint of Endpoint.v with a [FailoverPool] as its caller
    ([APIClientFacts::create_failover_async]): the request task of a call
    travels inside a [FailoverTask], from stream to stream while it is retried,
    and [done] on it answers the call.  The caller is the failover pool of
    FailoverLife.v, with the streams of all its pools. *)

From S2P Require Import Prelude RustStd Errors Config Task ClientTaskMacro Buffer Proto BufIO Runtime.
From S2P Require Import Sock Timer TcpClient ClientStream Pool ClientLife Failover FailoverLife Api Endpoint.

(** A call is known through its retries; its sender stays with it. *)
#[export, refine] Instance CallTask_Key {C} : TaskKey C CallTask (nat * bytes * option bytes * bool) :=
  {| key t := (call_tag t, ar_noti (ct_req t)) |}.
Proof. all: try done. intros c [n t] bs. unfold decode_resp; simpl. by destruct bs. Defined.

Section endpoint.
Context {C P : Type} `{!ClientTransport C (FailoverTask CallTask) P}.
Variables (codec : C) (stale : nat -> byte) (wait_to : Z -> Z -> poll bool).

Record FailoverEndpoint := mkFailoverEndpoint {
  fe_caller : failover_run CallTask P;
  fe_calls : list (bytes * bytes);
}.

Definition create_failover_async {IO} (f : ClientDefault IO) (addrs : list bytes) (round_robin : bool)
    (retry_limit : Z) : failover_run CallTask P :=
  failover_start (ClientDefault_get_config f) addrs round_robin retry_limit 0.

Definition FailoverEndpoint_new (caller : failover_run CallTask P) : FailoverEndpoint :=
  mkFailoverEndpoint caller [].

(** [call] up to the wait for a pool's channel, which is a step of the failover
    pool ([FoDeliver]). *)
Definition FailoverEndpoint_call (k : api_call C) (e : FailoverEndpoint) : run unit * FailoverEndpoint :=
  match make_req codec (ac_method k) (ac_arg k) with
  | None => (Panicked, e)
  | Some task =>
      match failover_step codec stale wait_to (FlOwn (FoSend (mkCallTask (length (fe_calls e)) task))) (fe_caller e) with
      | None => (Waiting, e)
      | Some caller =>
          (Done (), mkFailoverEndpoint caller (fe_calls e ++ [(ac_method k, default [] (ar_req_msg task))]))
      end
  end.

(** The calls in circulation: with a pool, in a stream, queued for a retry. *)
Definition fo_waiting (r : failover_run CallTask P) : list CallTask := ft_inner <$> (failover_tasks r).*2.

Definition fo_inbox (i : nat) (r : failover_run CallTask P) : list (option APIClientReq) :=
  (fun t => APIClientReq_done (ct_req t)) <$> filter (fun t => ct_chan t = i) (fo_done (fr_pool r)).

Definition FailoverEndpoint_call_result {Resp E} `{Codec C Resp, RpcErrCodec C E} (resp_default : Resp) (i : nat)
    (e : FailoverEndpoint) : poll (option (result Resp (RpcError E))) :=
  call_result codec resp_default i (fo_inbox i (fe_caller e)) (fo_waiting (fe_caller e)).

Inductive fo_endpoint_op :=
| FeCall (k : api_call C)
| FeFailover (o : failover_op CallTask P).   (* any step of the failover pool but a send *)

Definition fo_endpoint_step (o : fo_endpoint_op) (e : FailoverEndpoint) : option FailoverEndpoint :=
  match o with
  | FeCall k =>
      match FailoverEndpoint_call k e with
      | (Waiting, _) => None
      | (_, e) => Some e
      end
  | FeFailover (FlOwn (FoSend _)) => None
  | FeFailover o =>
      match failover_step codec stale wait_to o (fe_caller e) with
      | None => None
      | Some f => Some (mkFailoverEndpoint f (fe_calls e))
      end
  end.

Fixpoint fo_endpoint_steps (ops : list fo_endpoint_op) (e : FailoverEndpoint) : option FailoverEndpoint :=
  match ops with
  | [] => Some e
  | o :: ops => match fo_endpoint_step o e with None => None | Some e => fo_endpoint_steps ops e end
  end.

(** Requests that fit a header. *)
Definition fo_endpoint_op_ok (o : fo_endpoint_op) : Prop :=
  match o with
  | FeCall k => match codec_encode codec (ac_arg k) with Ok buf => (zlen buf <= u32_MAX)%Z | Err _ => True end
  | FeFailover _ => True
  end.
End endpoint.
Arguments FailoverEndpoint P : clear implicits.
Arguments fo_endpoint_op C P : clear implicits.

(** The keys of calls that fit a header. *)
Definition call_key_fits (k : nat * bytes * option bytes * bool) : Prop :=
  match k.1.2 with Some msg => (zlen msg <= u32_MAX)%Z | None => False end.

Lemma call_key_encodable {C} (codec : C) (stale : nat -> byte) (t : FailoverTask CallTask) :
  call_key_fits (key (C := C) (ft_inner t)) -> encodable codec stale t.
Proof.
  unfold call_key_fits; simpl. destruct (ar_req_msg (ct_req (ft_inner t))) as [msg|] eqn:E; [|done]. intros Hm.
  apply (encodable_message codec stale t msg); [done|done|]. intros q b.
  do 3 (unfold encode_req; simpl). unfold APIClientReq_encode_req. simpl. by rewrite E.
Qed.

Section returns.
Context {C P : Type} `{!ClientTransport C (FailoverTask CallTask) P, !ClientTransportLaws C (FailoverTask CallTask) P}.
Variables (codec : C) (stale : nat -> byte) (wait_to : Z -> Z -> poll bool).
Implicit Types e : FailoverEndpoint P.

(** A run of an endpoint is a run of its pool that submits its calls. *)
Lemma fo_endpoint_runs ops e e' :
  Forall (fo_endpoint_op_ok codec) ops -> fo_endpoint_steps codec stale wait_to ops e = Some e' ->
  exists fops calls, failover_steps codec stale wait_to fops (fe_caller e) = Some (fe_caller e')
    /\ length fops <= length ops /\ fe_calls e' = fe_calls e ++ calls
    /\ mjoin (failover_submits (C := C) <$> fops) = key (C := C) <$> imap (fun j => call_of (length (fe_calls e) + j)) calls
    /\ Forall (failover_op_ok (C := C) call_key_fits) fops.
Proof.
  intros Hops. revert e. induction Hops as [|o ops Ho _ IH]; intros e; cbn [fo_endpoint_steps].
  { intros [= <-]. exists [], []. rewrite app_nil_r. by repeat constructor. }
  destruct (fo_endpoint_step codec stale wait_to o e) as [e1|] eqn:E; [|done]. intros E'.
  destruct (IH e1 E') as (fops & calls & Hrun & Hlen & Hcalls & Hsub & Hok). clear IH E'.
  destruct o as [k|o]; cbn [fo_endpoint_step] in E.
  - unfold FailoverEndpoint_call, make_req in E. simpl in Ho.
    destruct (codec_encode codec (ac_arg k)) as [buf|];
      [|injection E as <-; exists fops, calls; split_and!; try done; simpl; lia].
    set (t := mkCallTask _ _) in E. set (o := FlOwn (FoSend t)) in E.
    destruct (failover_step codec stale wait_to o (fe_caller e)) as [c|] eqn:Ec; [|done].
    injection E as <-. cbn [fe_caller fe_calls ar_req_msg default] in *.
    exists (o :: fops), ((ac_method k, buf) :: calls). cbn [failover_steps]. rewrite Ec.
    split_and!; try done; [simpl; lia|by rewrite Hcalls, <- app_assoc| |].
    + csimpl. rewrite Hsub. cbn [failover_submits op_submits o mjoin list_join app imap fmap list_fmap]. f_equal.
      { unfold t, call_of, key, call_tag; simpl. by rewrite Nat.add_0_r. }
      f_equal. rewrite length_app. apply imap_ext. intros j c1 _. simpl. f_equal. lia.
    + constructor; [|done]. simpl. by repeat constructor.
  - assert (exists c, failover_step codec stale wait_to o (fe_caller e) = Some c /\ e1 = mkFailoverEndpoint c (fe_calls e)
      /\ failover_submits (C := C) (A := nat * bytes * option bytes * bool) o = []) as (c & Ec & -> & Hno).
    { destruct o as [[]| | |]; try done; destruct (failover_step codec stale wait_to _ (fe_caller e)) as [c|]; try done;
        injection E as <-; by exists c. }
    exists (o :: fops), calls. cbn [failover_steps]. rewrite Ec. split_and!; try done; [simpl; lia| |].
    + csimpl. by rewrite Hno.
    + constructor; [|done]. destruct o; [|done..]. simpl in Hno |- *. by rewrite Hno.
Qed.

(** A task with its sender and its result answers its call. *)
Lemma call_done (t : CallTask) :
  ar_noti (ct_req t) = true -> call_finished (ct_req t) ->
  exists q, APIClientReq_done (ct_req t) = Some q /\ call_finished q
    /\ ar_action q = ar_action (ct_req t) /\ ar_req_msg q = ar_req_msg (ct_req t).
Proof. intros Hn Hr. unfold APIClientReq_done. rewrite Hn. by eexists. Qed.

(** What the life of its tasks means for an endpoint: the calls, each once, are
    told or in circulation, and those told have their sender and a result. *)
Lemma fo_endpoint_accounts {IO} (facts : ClientDefault IO) addrs rr limit ops e :
  (0 <= limit < 2 ^ 64 - 1)%Z -> Forall (fo_endpoint_op_ok codec) ops -> (zlen ops < 2 ^ 63)%Z ->
  fo_endpoint_steps codec stale wait_to ops (FailoverEndpoint_new (create_failover_async facts addrs rr limit)) = Some e ->
  call_tag <$> imap call_of (fe_calls e)
  ≡ₚ (call_tag <$> fo_done (fr_pool (fe_caller e))) ++ (call_tag <$> fo_waiting (fe_caller e))
  /\ Forall (fun t => ar_noti (ct_req t) = true /\ call_finished (ct_req t)) (fo_done (fr_pool (fe_caller e))).
Proof.
  intros Hlimit Hops Hlen Hrun. destruct (fo_endpoint_runs ops _ _ Hops Hrun) as (fops & calls & Hc & Hl & Hcalls & Hsub & Hok).
  cbn [FailoverEndpoint_new fe_calls fe_caller app length Nat.add] in Hcalls, Hsub, Hc. subst calls.
  change (mjoin (failover_submits (C := C) <$> fops) = key (C := C) <$> imap call_of (fe_calls e)) in Hsub.
  apply (failover_run_inv codec stale wait_to call_key_fits (call_key_encodable codec stale)
    (fun t => call_finished (ct_req t))) in Hc as Hi; [|..|done|done|unfold zlen in *; lia].
  2: { intros t err. by eexists. }
  2: { intros t err He. eexists. split; [done|]. by destruct err. }
  2: { intros t. by eexists. }
  destruct (fi_results _ _ _ _ _ _ _ Hi) as [_ Hres].
  pose proof (inv_keys _ _ _ _ _ _ _ Hi) as Hperm. simpl in Hperm. rewrite Hsub in Hperm. split.
  - apply (fmap_Permutation fst) in Hperm. rewrite !fmap_app, <- !list_fmap_compose in Hperm.
    unfold fo_waiting. rewrite <- !list_fmap_compose, Permutation_app_comm. exact Hperm.
  - rewrite list.Forall_forall in Hres |- *. intros t Ht. split; [|by apply Hres].
    assert (key (C := C) t ∈ key (C := C) <$> imap call_of (fe_calls e)) as Hk.
    { rewrite Hperm. apply elem_of_app. right. by apply list_elem_of_fmap_2. }
    apply list_elem_of_fmap in Hk as (t' & Hk & Ht'). apply elem_of_lookup_imap in Ht' as (j & c & -> & _).
    by injection Hk as _ _ _ ->.
Qed.

End returns.

(** ** A concrete run

    The first address cannot be reached, the retry goes to the second, whose
    server answers; a second call waits for a place in a pool's channel. *)

#[local] Existing Instance vec_IoBuffer.

#[local] Instance fo_call_transport : ClientTransport RawCodec (FailoverTask CallTask) (TcpClient sock) :=
  Tcp_ClientTransport vec id 1000.
#[local] Instance fo_call_transport_laws : ClientTransportLaws RawCodec (FailoverTask CallTask) (TcpClient sock) :=
  Tcp_ClientTransportLaws vec id 1000.

Definition demo_fe_pool : list (failover_op CallTask (TcpClient sock)) :=
  [FlOwn (FoDeliver 0); FlWorker 0 0 (WConnected (Err Unreachable)); FlOwn (FoRetry true);
   FlOwn (FoDeliver 0);
   FlWorker 1 0 (WConnected (Ok (demo_conn (resp_frame 1 (RespOk (lit "HI") None)))));
   FlWorker 1 0 WGo; FlWorker 1 0 WTask; FlWorker 1 0 WGo; FlReceiver 1 0 RvPoll; FlReceiver 1 0 (RvResponse 0)].

Definition demo_fe_ops : list (fo_endpoint_op RawCodec (TcpClient sock)) :=
  FeCall (say (lit "hi")) :: (FeFailover <$> demo_fe_pool) ++ [FeCall (say (lit "yo"))].

Abbreviation demo_fe_start :=
  (create_failover_async (ClientDefault_new ClientConfig_default tt) [lit "a:1"; lit "b:2"] false 3).

Abbreviation demo_fe_run :=
  (fo_endpoint_steps Raw demo_stale demo_wait demo_fe_ops (FailoverEndpoint_new demo_fe_start)).


(** The same run as the pool sees it, with one retry. *)
Abbreviation demo_fl_ops := (FlOwn (FoSend (call_of 0 (lit "Echo.say", lit "hi"))) :: demo_fe_pool).
Abbreviation demo_fl_start := (failover_start ClientConfig_default [lit "a:1"; lit "b:2"] false 3 0).
Abbreviation demo_fl_run := (failover_steps Raw demo_stale demo_wait demo_fl_ops demo_fl_start).

Lemma demo_fl_resends : failover_resends Raw demo_stale demo_wait demo_fl_ops demo_fl_start = 1.
Proof. vm_compute. reflexivity. Qed.

