(* ===== verification/Msgpack.v ===== *)
(** * codec/src/msgpack.rs: the MessagePack codec

    [MsgpCodec] calls rmp-serde, which is not part of the repository: its three
    entry points are parameters of the model, and [RmpLaws] states what its
    documentation says of them for a type: [write_named] appends the text that
    [to_vec_named] returns, [from_slice] reads it back.  A failure of
    [write_named] may leave any part of the text in the buffer. *)

From S2P Require Import Prelude RustStd Errors Task.

(** rmp-serde for a message type. *)
Class RmpSerde (M : Type) := {
  rmp_error : Type;
  to_vec_named : M -> result bytes rmp_error;
  write_named : bytes -> M -> result unit rmp_error * bytes;
  from_slice : bytes -> result M rmp_error;
}.

Class RmpLaws (M : Type) `{RmpSerde M} := {
  write_named_ok m buf buf' :
    write_named buf m = (Ok (), buf') -> exists msg, to_vec_named m = Ok msg /\ buf' = buf ++ msg;
  write_named_err m buf e buf' : write_named buf m = (Err e, buf') -> exists part, buf' = buf ++ part;
  from_slice_vec m msg : to_vec_named m = Ok msg -> from_slice msg = Ok m;
}.

Inductive MsgpCodec := Msgp.

Section codec.
Context {M : Type} `{RmpSerde M}.

Definition Msgp_encode (task : M) : result bytes unit :=
  match to_vec_named task with
  | Ok buf => Ok buf
  | Err _ => Err ()
  end.

(** [encode_into]: the size is what the buffer grew by. *)
Definition Msgp_encode_into (task : M) (buf : bytes) : result Z unit * bytes :=
  let pre_len := zlen buf in
  match write_named buf task with
  | (Err _, buf) => (Err (), buf)
  | (Ok _, buf) => (Ok (zlen buf - pre_len)%Z, buf)
  end.

Definition Msgp_decode (buf : bytes) : result M unit :=
  match from_slice buf with
  | Err _ => Err ()
  | Ok s => Ok s
  end.

#[export] Instance MsgpCodec_Codec : Codec MsgpCodec M := {|
  codec_encode _ := Msgp_encode;
  codec_encode_into _ := Msgp_encode_into;
  codec_decode _ := Msgp_decode;
|}.
End codec.

(** The codec is one the framework can rely on. *)
#[export] Instance MsgpCodec_Laws {M} `{RmpLaws M} : CodecLaws MsgpCodec M.
Proof.
  split.
  - intros c m buf n buf'. unfold codec_encode_into, codec_encode; simpl. unfold Msgp_encode_into, Msgp_encode.
    destruct (write_named buf m) as [[[]|e] b] eqn:E; intros [= <- <-].
    apply write_named_ok in E as (msg & -> & ->). exists msg. split; [done|]. split; [done|].
    rewrite zlen_app. lia.
  - intros c m msg. unfold codec_encode, codec_decode; simpl. unfold Msgp_encode, Msgp_decode.
    destruct (to_vec_named m) as [b|e] eqn:E; [|done]. intros [= <-]. by rewrite (from_slice_vec m b).
Qed.

(** A failed [encode_into] only appends, so the header before it is intact. *)
Lemma Msgp_encode_into_appends {M} `{RmpLaws M} (m : M) buf r buf' :
  Msgp_encode_into m buf = (r, buf') -> exists part, buf' = buf ++ part.
Proof.
  unfold Msgp_encode_into. destruct (write_named buf m) as [[[]|e] b] eqn:E; intros [= <- <-].
  - apply write_named_ok in E as (msg & _ & ->). eauto.
  - by apply write_named_err in E.
Qed.

(** ** A concrete type

    In MessagePack the unit is the nil byte 0xc0. *)
#[export] Instance unit_RmpSerde : RmpSerde unit := {|
  rmp_error := unit;
  to_vec_named _ := Ok [Byte.xc0];
  write_named buf _ := (Ok (), buf ++ [Byte.xc0]);
  from_slice bs := match bs with Byte.xc0 :: _ => Ok () | _ => Err () end;
|}.

#[export] Instance unit_RmpLaws : RmpLaws unit.
Proof. split; [intros [] buf b [= <-]; eauto|done|by intros [] msg [= <-]]. Qed.

(** The unit test of the file. *)
Example test_msgp : codec_encode Msgp () = Ok [Byte.xc0] /\ codec_decode Msgp [Byte.xc0] = Ok ().
Proof. split; reflexivity. Qed.
