(* ===== verification/ApiServer.v ===== *)
(** * src/server: an API server on a connection

    The dispatcher of the API layer under the reader and the writer of
    stream/src/server/server.rs.  [api_answer] is the specification: the answer
    to a request, from the services registered; the theorem says that a
    connection's output is the answers to the requests of its input, one frame
    each, in order. *)

From S2P Require Import Prelude RustStd Errors Task ClientTaskMacro Config Buffer Proto BufIO.
From S2P Require Import Sock Parser ServerTask TcpServer Timer TcpClient EndToEnd Server Failover Api.

(** ** The dispatcher as a server sees it *)

(** [APIDispatch<Inline<C, S>>] *)
Record APIDispatch := mkAPIDispatch { ad_serve : APIServerReq -> option APIServerResp }.

(** A panic of the service ends the reader with nothing sent; [api_dispatches]
    below: the services of the [service] macro do not panic. *)
Definition APIDispatch_dispatch_req {C} (self : APIDispatch) (_ : C) (req : RpcSvrReq) (_ : RespNoti)
    : result unit unit * list (resp_msg APIServerResp) :=
  default (Err (), []) (api_dispatch_req (ad_serve self) req).

#[export] Instance APIDispatch_Dispatch {C} : Dispatch C APIDispatch APIServerResp :=
  {| dispatch_req := APIDispatch_dispatch_req |}.

(** ** What a server answers *)

Section answers.
Context {C : Type} (codec : C) (stale : nat -> byte).

Abbreviation table := (gmap bytes (list (method C))).

(** The services registered, the last of each name. *)
Definition services_table (l : list (bytes * list (method C))) : table :=
  foldl (fun t s => <[s.1 := s.2]> t) ∅ l.

(** The multiplexer they are added to. *)
Definition services_mux (l : list (bytes * list (method C))) : ServiceMuxDyn :=
  foldl (fun mux s => ServiceMuxDyn_add mux (service_of codec s.1 s.2)) ServiceMuxDyn_new l.

(** The answer to a call of a method of a service. *)
Definition call_answer (t : table) (svc meth msg : bytes) : resp :=
  match t !! svc with
  | None => RespErr (EncRpc Service)
  | Some ms =>
      match find_method meth ms with
      | None => RespErr (EncRpc Method)
      | Some m =>
          match codec_decode codec msg with
          | Err _ => RespErr (EncRpc Decode)
          | Ok arg => method_answer codec m arg
          end
      end
  end.

(** The answer to a request: a ping has an empty one, an action without a
    method is refused. *)
Definition api_answer (t : table) (req : RpcSvrReq) : resp :=
  if is_ping req then RespOk [] None
  else
    match sq_action req with
    | ActNum _ => RespErr (EncRpc Decode)
    | ActStr action =>
        match split_once Byte.x2e action with
        | None => RespErr (EncRpc Decode)
        | Some (svc, meth) => call_answer t svc meth (sq_msg req)
        end
    end.

Lemma services_mux_table l svc :
  mux_map (services_mux l) !! svc = service_of codec svc <$> services_table l !! svc.
Proof.
  unfold services_mux, services_table.
  assert (forall mux (t : table),
    (forall svc, mux_map mux !! svc = service_of codec svc <$> t !! svc) -> forall svc,
    mux_map (foldl (fun mux s => ServiceMuxDyn_add mux (service_of codec s.1 s.2)) mux l) !! svc
    = service_of codec svc <$> foldl (fun t s => <[s.1 := s.2]> t) t l !! svc) as Hgen.
  - induction l as [|[n ms] l IH]; intros mux t Heq; [done|]. cbn [foldl fst snd]. apply IH.
    intros k. unfold ServiceMuxDyn_add. cbn [mux_map sv_name service_of].
    destruct (decide (k = n)) as [->|Hne]; [by rewrite !lookup_insert_eq|].
    rewrite !lookup_insert_ne by done. apply Heq.
  - apply Hgen. intros k. unfold ServiceMuxDyn_new. cbn [mux_map]. by rewrite !lookup_empty.
Qed.

(** A generated handler answers once, under the number of its request. *)
Lemma handle_method_answers (m : method C) sreq msg :
  as_req sreq = Some msg ->
  exists resp, handle_method codec m sreq = Some resp /\ ap_seq resp = as_seq sreq
    /\ answer_of resp = Some match codec_decode codec msg with
                             | Err _ => RespErr (EncRpc Decode)
                             | Ok arg => method_answer codec m arg
                             end.
Proof.
  intros Hreq. unfold handle_method. rewrite Hreq.
  destruct (codec_decode codec msg) as [arg|[]]; [|by eexists]. unfold method_answer.
  destruct (m_fn m arg) as [v|[e|e]]; [|by eexists|by eexists].
  unfold APIServerReq_set_result. destruct (codec_encode codec v) as [b|[]]; by eexists.
Qed.

Lemma services_mux_serves l sreq msg :
  as_req sreq = Some msg ->
  exists resp, ServiceMuxDyn_serve (services_mux l) sreq = Some resp /\ ap_seq resp = as_seq sreq
    /\ answer_of resp
       = Some (call_answer (services_table l) (as_service sreq) (as_method sreq) msg).
Proof.
  intros Hreq. unfold ServiceMuxDyn_serve, call_answer. rewrite services_mux_table.
  destruct (services_table l !! as_service sreq) as [ms|]; [|by eexists]. cbn [fmap option_fmap option_map].
  cbn [sv_serve service_of]. rewrite serve_methods_find.
  destruct (find_method (as_method sreq) ms) as [m|]; [|by eexists].
  by apply handle_method_answers.
Qed.

(** What dispatching a request sends. *)
Lemma api_dispatches l req :
  is_ping req = false ->
  api_dispatch_req (ServiceMuxDyn_serve (services_mux l)) req = Some (Err (), [])
    /\ api_answer (services_table l) req = RespErr (EncRpc Decode)
  \/ exists resp,
       api_dispatch_req (ServiceMuxDyn_serve (services_mux l)) req = Some (Ok (), [Ok resp])
       /\ ap_seq resp = sq_seq req /\ answer_of resp = Some (api_answer (services_table l) req).
Proof.
  intros Hp. unfold api_dispatch_req, api_answer. rewrite Hp.
  destruct (sq_action req) as [action|n]; [|left; split; reflexivity].
  destruct (split_once Byte.x2e action) as [[svc meth]|]; [right|left; split; reflexivity].
  destruct (services_mux_serves l (mkAPIServerReq (sq_seq req) svc meth (Some (sq_msg req))) (sq_msg req))
    as (resp & -> & ? & ?); [done|]. by exists resp.
Qed.

(** The one message the reader sends for a request stands for the answer. *)
Lemma reader_answers l fuel noti req :
  let r := api_answer (services_table l) req in
  resp_wf r -> (resp_data_len r + Z.of_nat RPC_RESP_HEADER_LEN <= Z.of_nat fuel)%Z ->
  exists m, reader_handle codec (mkAPIDispatch (ServiceMuxDyn_serve (services_mux l))) noti true req
      = (Ok (), [m]) /\ msg_resp codec fuel stale m (sq_seq req) r.
Proof.
  intros r Hwf Hlen. unfold reader_handle, r in *. destruct (is_ping req) eqn:Ep.
  - eexists. split; [done|]. split; [done|]. split; [done|]. split; [done|].
    unfold api_answer. by rewrite Ep.
  - unfold dispatch_req; cbn [APIDispatch_Dispatch]. unfold APIDispatch_dispatch_req. cbn [ad_serve].
    destruct (api_dispatches l req Ep) as [[-> Ha]|(resp & -> & Hq & Ha)]; simpl.
    + rewrite Ha in *. by eexists.
    + exists (Ok resp). split; [done|]. split; [done|]. split; [done|].
      intros buf. rewrite <- Hq. by apply answer_of_encodes.
Qed.

(** The answers of a list of requests, one frame each. *)
Definition answer_frames (t : table) (reqs : list RpcSvrReq) : bytes :=
  mjoin ((fun req => resp_frame (sq_seq req) (api_answer t req)) <$> reqs).

Lemma readers_messages l fuel noti reqs rx :
  Forall (fun req => resp_wf (api_answer (services_table l) req)
    /\ (resp_data_len (api_answer (services_table l) req) + Z.of_nat RPC_RESP_HEADER_LEN
        <= Z.of_nat fuel)%Z) reqs ->
  omap id rx = mjoin ((fun req => (reader_handle codec
     (mkAPIDispatch (ServiceMuxDyn_serve (services_mux l))) noti true req).2) <$> reqs) ->
  frames_of codec fuel stale rx (answer_frames (services_table l) reqs).
Proof.
  intros Hall. revert rx. induction Hall as [|req reqs [Hw Hl] _ IH]; intros rx Hrx.
  - induction rx as [|[m|] rx IHrx]; [constructor|discriminate Hrx|constructor; by apply IHrx].
  - unfold answer_frames. rewrite !join_map_cons in *.
    destruct (reader_answers l fuel noti req Hw Hl) as (m & Em & Hm). rewrite Em in Hrx. cbn [snd app] in Hrx.
    induction rx as [|[m'|] rx IHrx]; [discriminate Hrx| |constructor; by apply IHrx].
    injection Hrx as -> Hrx. apply frames_some; [done|]. by apply IH.
Qed.
End answers.

(** ** A connection served *)

Section serving.
Context {C T : Type} `{AsyncReadEofLaws T} `{!AsyncWrite T, !AsyncWriteLaws T} (B : Type) `{IoBufferLaws B}.
Variables (codec : C) (noti : RespNoti) (shutdown_write : T -> T) (fuel : nat) (stale : nat -> byte).

Lemma connection_answers l n close p w rx
    (reqs := parse_reqs B n (srv_rest p))
    (dispatch := mkAPIDispatch (ServiceMuxDyn_serve (services_mux codec l))) :
  64 <= fuel -> srv_ok fuel true p -> length (srv_rest p) < n ->
  srv_can_write fuel w -> srv_out fuel w = outgoing (bs_inner (ts_stream w)) ->
  Forall (fun req => resp_wf (api_answer codec (services_table l) req)
    /\ (resp_data_len (api_answer codec (services_table l) req) + Z.of_nat RPC_RESP_HEADER_LEN
        <= Z.of_nat fuel)%Z) reqs ->
  exists p' sent,
    @Reader_run C APIServerResp APIDispatch _ _ (Tcp_ServerTransport B shutdown_write fuel stale)
      codec dispatch noti n true close p = (Done (Err ()), p', sent)
    /\ length sent = length reqs
    /\ (omap id rx = sent ->
        exists w' i,
          @Writer_run C APIServerResp _ (Tcp_ServerTransport B shutdown_write fuel stale) codec false rx w
          = (Done (Ok ()), w')
          /\ bs_inner (ts_stream w') = shutdown_write i
          /\ outgoing i = outgoing (bs_inner (ts_stream w))
                          ++ answer_frames codec (services_table l) reqs).
Proof.
  intros Hfuel Hp Hn Hw Hout Hwf.
  destruct (Reader_run_serves (R := APIServerResp) B codec dispatch noti shutdown_write fuel stale n close p)
    as (p' & Er); [done..|].
  eexists p', _. split; [exact Er|]. fold reqs. split.
  - clear Er. unfold dispatch. induction Hwf as [|req rs [Hr Hl] _ IH]; [done|]. rewrite join_map_cons, length_app, IH.
    destruct (reader_answers codec stale l fuel noti req Hr Hl) as (m & -> & _). done.
  - intros Hrx.
    destruct (Writer_run_ok B codec shutdown_write fuel stale false rx
      (answer_frames codec (services_table l) reqs) w) as (w' & i & Ew & Hi & Ho); [done|done| |done|].
    + by apply readers_messages with (noti := noti).
    + exists w', i. by rewrite Ho, Hout.
Qed.
End serving.

(** ** Properties *)

Section claims.
Context {C T : Type} `{AsyncReadEofLaws T} `{!AsyncWrite T, !AsyncWriteLaws T} (B : Type) `{IoBufferLaws B}.
Variables (codec : C) (noti : RespNoti) (shutdown_write : T -> T) (fuel : nat) (stale : nat -> byte).

(** C12: An API server answers every request of a connection, once and in
    order: whatever services were added, the reader sends one message per
    well-formed request of its input, and the writer, however the messages
    reach it over time, puts on the wire exactly the answers, each as one
    frame under the number of its request, then shuts the connection down.
    The answer to "Service.method" is the method's result or error, [Service],
    [Method] or [Decode] when the call cannot be made, and to a ping an empty
    message. *)
Theorem api_server_answers (l : list (bytes * list (method C))) (n : nat) (close : poll unit)
    (p w : TcpServer T) (rx : list (option (resp_msg APIServerResp)))
    (reqs := parse_reqs B n (srv_rest p))
    (dispatch := mkAPIDispatch (ServiceMuxDyn_serve (services_mux codec l)))
    (Hfuel : 64 <= fuel) (Hp : srv_ok fuel true p) (Hn : length (srv_rest p) < n)
    (Hw : srv_can_write fuel w) (Hout : srv_out fuel w = outgoing (bs_inner (ts_stream w)))
    (Hwf : Forall (fun req => resp_wf (api_answer codec (services_table l) req)
       /\ (resp_data_len (api_answer codec (services_table l) req) + Z.of_nat RPC_RESP_HEADER_LEN
           <= Z.of_nat fuel)%Z) reqs) :
  exists p' sent,
    @Reader_run C APIServerResp APIDispatch _ _ (Tcp_ServerTransport B shutdown_write fuel stale)
      codec dispatch noti n true close p = (Done (Err ()), p', sent)
    /\ length sent = length reqs
    /\ (omap id rx = sent ->
        exists w' i,
          @Writer_run C APIServerResp _ (Tcp_ServerTransport B shutdown_write fuel stale) codec false rx w
          = (Done (Ok ()), w')
          /\ bs_inner (ts_stream w') = shutdown_write i
          /\ outgoing i = outgoing (bs_inner (ts_stream w))
                          ++ answer_frames codec (services_table l) reqs).
Proof. by apply connection_answers. Qed.
End claims.

(** ** A concrete server *)

#[local] Existing Instance vec_IoBuffer.

Definition demo_services : list (bytes * list (method RawCodec)) := [(lit "Echo", [demo_say])].

(** A call, a ping, a method that does not exist, an action without a method. *)
Definition demo_traffic : bytes :=
  req_frame 9 (ActStr (lit "Echo.say")) 1 (lit "hi") None ++ req_frame 9 (ActNum 0) 2 [] None
  ++ req_frame 9 (ActStr (lit "Echo.sing")) 3 (lit "hi") None ++ req_frame 9 (ActStr (lit "Echo")) 4 [] None.

Definition demo_reqs : list RpcSvrReq :=
  [mkSvrReq 1 (ActStr (lit "Echo.say")) (lit "hi") None; mkSvrReq 2 (ActNum 0) [] None;
   mkSvrReq 3 (ActStr (lit "Echo.sing")) (lit "hi") None; mkSvrReq 4 (ActStr (lit "Echo")) [] None].

Example api_server_answers_witness :
  exists w' i,
    @Writer_run RawCodec APIServerResp _ (Tcp_ServerTransport vec id 1000 zeros) Raw false
      [Some (Ok (mkAPIServerResp 1 (Some (lit "hi")) (Some (Ok ())))); None; Some (Err (2%Z, None));
       Some (Ok (mkAPIServerResp 3 None (Some (Err (EncRpc Method))))); Some (Err (4%Z, Some Decode))]
      (demo_server []) = (Done (Ok ()), w')
    /\ outgoing i = resp_frame 1 (RespOk (lit "hi") None) ++ resp_frame 2 (RespOk [] None)
         ++ resp_frame 3 (RespErr (EncRpc Method)) ++ resp_frame 4 (RespErr (EncRpc Decode)).
Proof.
  assert (parse_reqs vec 300 (srv_rest (demo_server demo_traffic)) = demo_reqs) as Hreqs
    by (rewrite demo_server_rest; vm_compute; reflexivity).
  destruct (@api_server_answers RawCodec sock _ _ _ _ _ vec vec_IoBuffer vec_IoBufferLaws Raw
    (mkRespNoti 0) id 1000 zeros demo_services 300 Pending (demo_server demo_traffic) (demo_server [])
    [Some (Ok (mkAPIServerResp 1 (Some (lit "hi")) (Some (Ok ())))); None; Some (Err (2%Z, None));
     Some (Ok (mkAPIServerResp 3 None (Some (Err (EncRpc Method))))); Some (Err (4%Z, Some Decode))])
    as (p' & sent & Er & _ & Hw).
  - vm_compute; lia.
  - apply demo_server_ok. vm_compute; lia.
  - rewrite demo_server_rest. vm_compute; lia.
  - apply demo_server_can_write.
  - reflexivity.
  - rewrite Hreqs. repeat constructor; vm_compute; try split; discriminate.
  - rewrite Hreqs in Hw. destruct Hw as (w' & i & E & _ & Ho).
    + assert (sent = (Reader_run (ServerTransport0 := Tcp_ServerTransport vec id 1000 zeros) Raw
        (mkAPIDispatch (ServiceMuxDyn_serve (services_mux Raw demo_services))) (mkRespNoti 0) 300 true Pending
        (demo_server demo_traffic)).2) as -> by (rewrite Er; reflexivity).
      vm_compute; reflexivity.
    + exists w', i. split; [exact E|]. exact Ho.
Defined.
