(* ===== verification/Pipeline.v ===== *)
(** * Many calls on one connection

    The client's receive loop (stream/src/client/stream.rs) on the output of an
    API server: [recv_one_resp] hands every response that arrives to the task
    that waits for it, in the order of arrival, and callers that share the
    connection each get the result of their own method. *)

From S2P Require Import Prelude RustStd Errors Task ClientTaskMacro Config Buffer Proto BufIO.
From S2P Require Import Sock Parser ServerTask TcpServer Timer TcpClient EndToEnd ClientStream Server.
From S2P Require Import Failover Api ApiServer.

(** ** The receive loop over several responses *)

Section receiving.
Context {T C K : Type} `{AsyncReadLaws T, !AsyncWrite T} `{ClientTaskLaws C K} (B : Type) `{IoBufferLaws B}.
Variables (codec : C) (shutdown_write : T -> T) (fuel : nat).
Implicit Types s : ClientStreamInner K (TcpClient T).

Local Instance receiving_transport : ClientTransport C K (TcpClient T) :=
  Tcp_ClientTransport B shutdown_write fuel.

(** The connection will deliver [bs], on a stream in use. *)
Record receiving s (bs : bytes) : Prop := {
  rc_open : ci_closed s = false;
  rc_in : side_in (mkClientSide (ci_conn s) (ci_timer s) []) bs;
  rc_inv : timer_inv (ci_timer s);
  rc_reg : tm_reg_stopped (ci_timer s) = false;
  rc_nodup : NoDup (task_seq <$> live_tasks (ci_timer s));
}.

(** A response the client can take in. *)
Record receivable (seq : Z) (r : resp) : Prop := {
  rv_seq : in_u 64 seq;
  rv_wf : resp_wf r;
  rv_len : (resp_data_len r <= Z.of_nat fuel)%Z;
  rv_alloc : forall n, (0 <= n <= resp_data_len r)%Z -> is_ok (buf_alloc (B := B) n) = true;
}.

(** The frames of responses to tasks. *)
Definition resp_frames (rs : list (K * resp)) : bytes :=
  mjoin ((fun p => resp_frame (task_seq p.1) p.2) <$> rs).

Lemma recv_one_frame s x r rest f :
  RPC_RESP_HEADER_LEN <= fuel -> receiving s (resp_frame (task_seq x) r ++ rest) ->
  x ∈ live_tasks (ci_timer s) -> receivable (task_seq x) r ->
  exists s', recv_one_resp codec (S f) s = recv_one_resp codec f s'
    /\ receiving s' rest /\ live_tasks (ci_timer s) ≡ₚ x :: live_tasks (ci_timer s')
    /\ ci_events s' = ci_events s ++ [complete codec x r].
Proof.
  intros Hf [Ho Hin Hi Hst Hnd] Hx [Hs Hw Hl Ha].
  destruct (take_task_live (ci_timer s) x Hi Hst Hnd Hx) as (t' & Et & Hi' & Hst' & Hl').
  destruct (read_resp_registered B fuel codec (Some (close_rx_recv s)) (task_seq x) r
    (mkClientSide (ci_conn s) (ci_timer s) []) rest x t') as (cs' & Er & Hin' & Ht' & He'); [done..|].
  cbn [recv_one_resp]. unfold recv_iter. rewrite Ho. unfold stream_read_resp.
  cbn [tr_read_resp receiving_transport Tcp_ClientTransport]. rewrite Er. cbn [negb].
  eexists. split; [reflexivity|]. cbn [ci_timer ci_events set_timer set_conn add_events]. rewrite Ht', He'. cbn [cs_events app].
  split; [|by split]. split; try done.
  rewrite Hl' in Hnd. csimpl in Hnd. by apply list.NoDup_cons in Hnd as [_ ?].
Qed.

Lemma recv_frames rs s rest others f :
  RPC_RESP_HEADER_LEN <= fuel -> receiving s (resp_frames rs ++ rest) ->
  live_tasks (ci_timer s) ≡ₚ rs.*1 ++ others ->
  Forall (fun p => receivable (task_seq p.1) p.2) rs ->
  exists s', recv_one_resp codec (length rs + f) s = recv_one_resp codec f s'
    /\ receiving s' rest /\ live_tasks (ci_timer s') ≡ₚ others
    /\ ci_events s' = ci_events s ++ ((fun p => complete codec p.1 p.2) <$> rs).
Proof.
  intros Hf. revert s. induction rs as [|[x r] rs IH]; intros s Hs Hl Hall.
  { exists s. by rewrite app_nil_r. }
  unfold resp_frames in Hs. rewrite join_map_cons, <- app_assoc in Hs. csimpl in Hl.
  cbn [length Nat.add fst snd] in *.
  apply Forall_cons_1 in Hall as [Hr Hall].
  destruct (recv_one_frame s x r _ (length rs + f) Hf Hs) as (s1 & -> & Hs1 & Hl1 & He1);
    [rewrite Hl; by left|done|].
  destruct (IH s1 Hs1) as (s' & E & Hs' & Hl' & He'); [|done|].
  - rewrite Hl in Hl1. by apply Permutation_cons_inv in Hl1.
  - exists s'. rewrite He', He1, <- app_assoc. done.
Qed.
End receiving.

(** ** Calls *)

Section calls.
Context {C : Type} (codec : C) (B : Type) `{IoBufferLaws B} (fuel : nat).

(** A call in flight: the method, its argument with its encoding, the default
    of its result, and the number it was sent under. *)
Record call := mkCall {
  ca_svc : bytes;
  ca_method : method C;
  ca_arg : m_arg ca_method;
  ca_dflt : m_resp ca_method;
  ca_buf : bytes;
  ca_seq : Z;
}.

Definition call_name (c : call) : bytes := service_method (ca_svc c) (m_name (ca_method c)).

(** Its task at the client, its frame, the request the server sees. *)
Definition task_of (c : call) : APIClientReq :=
  call_task (ca_svc c) (m_name (ca_method c)) (ca_buf c) (ca_seq c).
Definition frame_of (cid : Z) (c : call) : bytes :=
  req_frame cid (ActStr (call_name c)) (ca_seq c) (ca_buf c) None.
Definition request_of (c : call) : RpcSvrReq :=
  mkSvrReq (ca_seq c) (ActStr (call_name c)) (ca_buf c) None.
Definition answer_to (c : call) : resp := method_answer codec (ca_method c) (ca_arg c).

(** What is needed of a call: the method is registered, the argument encodes,
    a user error survives its codec, and everything is within the limits. *)
Record call_ok (l : list (bytes * list (method C))) (c : call) : Prop := {
  co_arg_laws : CodecLaws C (m_arg (ca_method c));
  co_resp_laws : CodecLaws C (m_resp (ca_method c));
  co_svc : Byte.x2e ∉ ca_svc c;
  co_method : exists ms, services_table l !! ca_svc c = Some ms
                /\ find_method (m_name (ca_method c)) ms = Some (ca_method c);
  co_arg : codec_encode codec (ca_arg c) = Ok (ca_buf c);
  co_err : forall e, m_fn (ca_method c) (ca_arg c) = Err (User e) -> err_travels codec e;
  co_name : (zlen (call_name c) < 2 ^ 31)%Z;
  co_utf8 : utf8_valid (call_name c) = true;
  co_buf : (zlen (ca_buf c) <= u32_MAX)%Z;
  co_len : (resp_data_len (answer_to c) + Z.of_nat RPC_RESP_HEADER_LEN <= Z.of_nat fuel)%Z;
  co_answer : receivable B fuel (ca_seq c) (answer_to c);
}.

Lemma api_answer_call l c :
  call_ok l c -> api_answer codec (services_table l) (request_of c) = answer_to c.
Proof.
  intros Hc. unfold api_answer, request_of, is_ping, call_name, service_method. cbn [sq_action sq_msg].
  change (lit "." ++ m_name (ca_method c)) with (Byte.x2e :: m_name (ca_method c)).
  rewrite bool_decide_eq_false_2 by done. cbn [andb].
  rewrite split_once_app by apply Hc. unfold call_answer.
  destruct (co_method l c Hc) as (ms & -> & ->). pose proof (co_arg_laws l c Hc).
  by rewrite (decode_encode _ _ _ (co_arg l c Hc)).
Qed.

Lemma parse_call l cid c rest :
  in_u 64 cid -> call_ok l c ->
  parse_req (alloc_ok B) (frame_of cid c ++ rest) = Ok (request_of c, rest).
Proof.
  intros Hcid Hc. unfold frame_of. rewrite parse_req_frame; try (apply Hc || done).
  cbn [opt_len]. pose proof (resp_data_len_nonneg (answer_to c)). lia.
Qed.

Lemma parse_calls l cid calls n :
  in_u 64 cid -> Forall (call_ok l) calls -> length (mjoin (frame_of cid <$> calls)) < n ->
  parse_reqs B n (mjoin (frame_of cid <$> calls)) = request_of <$> calls.
Proof.
  intros Hcid Hall. revert n. induction Hall as [|c calls Hc _ IH]; intros [|n] Hn; try lia; [done|].
  rewrite join_map_cons in *. pose proof (parse_call l cid c (mjoin (frame_of cid <$> calls)) Hcid Hc) as E.
  cbn [parse_reqs]. rewrite E. apply parse_req_shorter in E. rewrite IH by lia. done.
Qed.

Lemma answers_frames l calls :
  Forall (call_ok l) calls ->
  answer_frames codec (services_table l) (request_of <$> calls)
  = resp_frames (C := C) ((fun c => (task_of c, answer_to c)) <$> calls).
Proof.
  intros Hall. unfold answer_frames, resp_frames. f_equal. rewrite <- !list_fmap_compose.
  apply list_fmap_ext. intros i c Hc. apply list_elem_of_lookup_2 in Hc.
  pose proof (proj1 (list.Forall_forall _ _) Hall c Hc) as Hok. simpl.
  by rewrite api_answer_call.
Qed.

(** The caller's result, from the task its channel yields. *)
Lemma call_returns l c :
  call_ok l c ->
  exists task,
    APIClientReq_done (event_task (complete codec (task_of c) (answer_to c))) = Some task
    /\ process_res codec (ca_dflt c) (Ok task)
       = Some (method_outcome codec (ca_method c) (ca_arg c) (ca_dflt c)).
Proof.
  intros Hc. pose proof (co_resp_laws l c Hc).
  pose proof (method_answer_gets codec (ca_method c) (ca_arg c) (ca_dflt c) (task_of c) eq_refl eq_refl
    (co_err l c Hc)) as Hg. unfold caller_gets in Hg. fold (answer_to c) in Hg.
  destruct (APIClientReq_done _) as [task|]; [|done]. by exists task.
Qed.
End calls.

(** ** Properties *)

Section claims.
Context {C TC TS : Type} `{AsyncReadLaws TC} `{!AsyncWrite TC}.
Context `{AsyncReadEofLaws TS} `{!AsyncWrite TS, !AsyncWriteLaws TS} (B : Type) `{IoBufferLaws B}.
Variables (codec : C) (noti : RespNoti) (cl_shutdown : TC -> TC) (srv_shutdown : TS -> TS).
Variables (fuel : nat) (stale : nat -> byte).

(** C2: Callers that share a connection do not disturb each other: when the
    frames of any number of calls, to any services and methods, arrive at a
    server, it writes one answer per call, in order; when these answers arrive
    at the client, however segmented, its receive loop completes exactly the
    tasks of these calls, in that order, leaves every other task registered and
    goes on with what follows; and each caller gets the result or the error of
    its own method. *)
Theorem api_calls_pipelined (l : list (bytes * list (method C))) (calls : list (call (C := C)))
    (cid : Z) (n f : nat) (close : poll unit) (p w : TcpServer TS)
    (rx : list (option (resp_msg APIServerResp)))
    (s : ClientStreamInner APIClientReq (TcpClient TC)) (others : list APIClientReq) (rest : bytes)
    (dispatch := mkAPIDispatch (ServiceMuxDyn_serve (services_mux codec l)))
    (answers := resp_frames (C := C) ((fun c => (task_of c, answer_to codec c)) <$> calls))
    (Hfuel : 64 <= fuel) (Hcid : in_u 64 cid) (Hcalls : Forall (call_ok codec B fuel l) calls)
    (Hp : srv_ok fuel true p) (Hin : srv_rest p = mjoin (frame_of cid <$> calls))
    (Hn : length (srv_rest p) < n)
    (Hw : srv_can_write fuel w) (Hout : srv_out fuel w = outgoing (bs_inner (ts_stream w)))
    (Hs : receiving (C := C) s (answers ++ rest))
    (Hlive : live_tasks (ci_timer s) ≡ₚ (task_of <$> calls) ++ others) :
  exists p' sent s',
    @Reader_run C APIServerResp APIDispatch _ _ (Tcp_ServerTransport B srv_shutdown fuel stale)
      codec dispatch noti n true close p = (Done (Err ()), p', sent)
    /\ length sent = length calls
    /\ (omap id rx = sent ->
        exists w' i,
          @Writer_run C APIServerResp _ (Tcp_ServerTransport B srv_shutdown fuel stale) codec false rx w
          = (Done (Ok ()), w')
          /\ bs_inner (ts_stream w') = srv_shutdown i
          /\ outgoing i = outgoing (bs_inner (ts_stream w)) ++ answers)
    /\ @recv_one_resp C APIClientReq (TcpClient TC) _ (Tcp_ClientTransport B cl_shutdown fuel)
         codec (length calls + f) s
       = @recv_one_resp C APIClientReq (TcpClient TC) _ (Tcp_ClientTransport B cl_shutdown fuel) codec f s'
    /\ receiving (C := C) s' rest /\ live_tasks (ci_timer s') ≡ₚ others
    /\ ci_events s' = ci_events s ++ ((fun c => complete codec (task_of c) (answer_to codec c)) <$> calls)
    /\ Forall (fun c => exists task,
         APIClientReq_done (event_task (complete codec (task_of c) (answer_to codec c))) = Some task
         /\ process_res codec (ca_dflt c) (Ok task)
            = Some (method_outcome codec (ca_method c) (ca_arg c) (ca_dflt c))) calls.
Proof.
  pose proof (parse_calls codec B fuel l cid calls n Hcid Hcalls) as Hparse. rewrite <- Hin in Hparse.
  specialize (Hparse Hn).
  destruct (connection_answers B codec noti srv_shutdown fuel stale l n close p w rx)
    as (p' & sent & Er & Hl & Hwr); [done..| |].
  { rewrite Hparse. apply Forall_fmap. eapply list.Forall_impl; [exact Hcalls|]. intros c Hc. simpl.
    rewrite (api_answer_call codec B fuel) by done. split; apply Hc. }
  destruct (recv_frames B codec cl_shutdown fuel ((fun c => (task_of c, answer_to codec c)) <$> calls)
    s rest others f) as (s' & Es & Hs' & Hl' & He').
  - by unfold RPC_RESP_HEADER_LEN; lia.
  - done.
  - by rewrite <- list_fmap_compose.
  - apply Forall_fmap. eapply list.Forall_impl; [exact Hcalls|]. intros c Hc. apply (co_answer _ _ _ _ _ Hc).
  - rewrite length_fmap in Es. rewrite <- list_fmap_compose in He'.
    rewrite Hparse, length_fmap in Hl. rewrite Hparse in Hwr.
    rewrite (answers_frames codec B fuel l) in Hwr by done.
    exists p', sent, s'. repeat (split; [done|]). eapply list.Forall_impl; [exact Hcalls|].
    intros c Hc. by eapply call_returns.
Qed.
End claims.

(** ** Two callers of "Echo.say" *)

#[local] Existing Instance vec_IoBuffer.

Definition demo_call_of (arg : bytes) (seq : Z) : call :=
  mkCall (C := RawCodec) (lit "Echo") demo_say arg [] arg seq.

Definition demo_calls : list call := [demo_call_of (lit "hi") 1; demo_call_of (lit "bad") 2].

(** The client that made them, with the answers [input] on its connection. *)
Definition demo_caller (input : bytes) : ClientStreamInner APIClientReq (TcpClient sock) :=
  set_timer (foldl (fun t c => reg_task (task_of c) (count_add t)) (ClientTaskTimer_new 5) demo_calls)
    (Inner_new (demo_conn input) 9 ClientConfig_default (Some 5%Z)).

Definition demo_answers : bytes :=
  resp_frames (C := RawCodec) ((fun c => (task_of c, answer_to Raw c)) <$> demo_calls).

Lemma demo_calls_ok : Forall (call_ok Raw vec 1000 demo_services) demo_calls.
Proof.
  assert (forall arg seq, arg = lit "hi" \/ arg = lit "bad" -> in_u 64 seq ->
    call_ok Raw vec 1000 demo_services (demo_call_of arg seq)) as Hok.
  - intros arg seq Harg Hseq. split.
    + exact _.
    + exact _.
    + exact demo_no_dot.
    + exists [demo_say]. split; reflexivity.
    + destruct Harg; subst; reflexivity.
    + intros e. destruct Harg; subst; [discriminate|apply demo_err_travels].
    + reflexivity.
    + reflexivity.
    + destruct Harg; subst; vm_compute; discriminate.
    + destruct Harg; subst; vm_compute; discriminate.
    + split; [exact Hseq| | |].
      * destruct Harg; subst; vm_compute; try split; discriminate.
      * destruct Harg; subst; vm_compute; discriminate.
      * intros k Hk. assert (k <= 2)%Z by (destruct Harg; subst; exact (proj2 Hk)).
        unfold buf_alloc; simpl. destruct (Z.leb_spec k 1048576); [reflexivity|lia].
  - constructor; [|constructor; [|constructor]]; apply Hok; auto; unfold in_u; lia.
Qed.

Lemma demo_caller_receiving :
  receiving (C := RawCodec) (demo_caller (demo_answers ++ [])) (demo_answers ++ [])
  /\ live_tasks (ci_timer (demo_caller (demo_answers ++ []))) ≡ₚ (task_of <$> demo_calls) ++ [].
Proof.
  destruct (sock_of_ready [7; 9; 2] (demo_answers ++ [])) as [Hi Hr].
  assert (live_tasks (ci_timer (demo_caller (demo_answers ++ []))) = task_of <$> demo_calls)
    as Hl by reflexivity.
  split; [split|rewrite Hl, app_nil_r; reflexivity].
  - reflexivity.
  - split; [split; [split; simpl; [lia|split; simpl; lia]|exact Hi]|]. split; [exact Hr|].
    exact (sock_of_incoming [7; 9; 2] _).
  - apply reg_task_ok; [|reflexivity|reflexivity|repeat constructor].
    apply reg_task_ok; [apply timer_inv_new|reflexivity|reflexivity|constructor].
  - reflexivity.
  - rewrite Hl. apply list.NoDup_cons. split; [|apply NoDup_singleton].
    intros Hx%list_elem_of_singleton. discriminate Hx.
Qed.

Definition demo_requests : bytes := mjoin (frame_of 9 <$> demo_calls).

Example api_calls_pipelined_witness :
  exists s',
    @recv_one_resp RawCodec APIClientReq (TcpClient sock) _ (Tcp_ClientTransport vec id 1000) Raw 2
      (demo_caller (demo_answers ++ [])) = (Waiting, s')
    /\ ci_events s' = [complete Raw (task_of (demo_call_of (lit "hi") 1)) (RespOk (lit "hi") None);
                       complete Raw (task_of (demo_call_of (lit "bad") 2)) (RespErr (EncBuf (lit "no")))]
    /\ live_tasks (ci_timer s') ≡ₚ [].
Proof.
  destruct demo_caller_receiving as [Hs Hl].
  destruct (@api_calls_pipelined RawCodec sock sock _ _ _ _ _ _ _ _ vec vec_IoBuffer vec_IoBufferLaws Raw
    (mkRespNoti 0) id id 1000 zeros demo_services demo_calls 9 200 0 Pending (demo_server demo_requests)
    (demo_server []) [] (demo_caller (demo_answers ++ [])) [] [])
    as (p' & sent & s' & _ & _ & _ & Es & _ & Hl' & He & _).
  - vm_compute; lia.
  - unfold in_u; lia.
  - exact demo_calls_ok.
  - apply demo_server_ok. vm_compute; lia.
  - exact (demo_server_rest demo_requests).
  - rewrite (sock_of_incoming [5; 20] demo_requests : srv_rest (demo_server demo_requests) = demo_requests).
    vm_compute; lia.
  - apply demo_server_can_write.
  - reflexivity.
  - exact Hs.
  - exact Hl.
  - exists s'. split; [exact Es|]. split; [exact He|exact Hl'].
Defined.
