(* ===== verification/TaskEnum.v ===== *)
(** * stream/macros/src: enums of tasks

    What [#[client_task_enum]] and [#[server_task_enum]] generate for an enum
    whose variants each wrap one task type.  An enum is the sum of the types
    of its variants, in order; every generated function is a [match] with one
    arm per variant, here [visit], [update] and their variations.  A variant is
    its type, the impls of the type, and its [#[action]] attribute; how the
    macros read it is MacroStream.v. *)

From S2P Require Import Prelude RustStd Errors Task ClientTaskMacro Buffer ServerTask Server.

(** ** Enums *)

Section enum.
Context {V : Type} (F : V -> Type).

Fixpoint enum (vs : list V) : Type :=
  match vs with
  | [] => Empty_set
  | v :: vs => (F v + enum vs)%type
  end.

(** The constructor of variant [v], that is [From<inner> for enum]. *)
Fixpoint enum_from (pre : list V) (v : V) (post : list V) (t : F v) : enum (pre ++ v :: post) :=
  match pre with
  | [] => inl t
  | _ :: pre => inr (enum_from pre v post t)
  end.

(** [match self { E::V(inner) => f(inner), .. }] for [&self]. *)
Fixpoint visit {A} (f : forall v, F v -> A) (vs : list V) : enum vs -> A :=
  match vs with
  | [] => fun x => match x with end
  | v :: vs => fun x => match x with inl t => f v t | inr x => visit f vs x end
  end.

(** The same for [&mut self]. *)
Fixpoint update (f : forall v, F v -> F v) (vs : list V) : enum vs -> enum vs :=
  match vs with
  | [] => fun x => x
  | v :: vs => fun x => match x with inl t => inl (f v t) | inr x => inr (update f vs x) end
  end.

(** For [&mut self] with a result. *)
Fixpoint update_with {A} (f : forall v, F v -> A * F v) (vs : list V) : enum vs -> A * enum vs :=
  match vs with
  | [] => fun x => match x with end
  | v :: vs => fun x =>
      match x with
      | inl t => let '(a, t) := f v t in (a, inl t)
      | inr x => let '(a, x) := update_with f vs x in (a, inr x)
      end
  end.

(** And for arms that can panic. *)
Fixpoint try_update {A} (f : forall v, F v -> option (A * F v)) (vs : list V)
    : enum vs -> option (A * enum vs) :=
  match vs with
  | [] => fun x => match x with end
  | v :: vs => fun x =>
      match x with
      | inl t => match f v t with Some (a, t) => Some (a, inl t) | None => None end
      | inr x => match try_update f vs x with Some (a, x) => Some (a, inr x) | None => None end
      end
  end.

Lemma visit_from {A} (f : forall v, F v -> A) pre v post t :
  visit f _ (enum_from pre v post t) = f v t.
Proof. by induction pre. Qed.

Lemma update_from f pre v post t :
  update f _ (enum_from pre v post t) = enum_from pre v post (f v t).
Proof. induction pre as [|v' pre IH]; [done|]. simpl. by rewrite IH. Qed.

Lemma update_with_from {A} (f : forall v, F v -> A * F v) pre v post t :
  update_with f _ (enum_from pre v post t) = ((f v t).1, enum_from pre v post (f v t).2).
Proof.
  induction pre as [|v' pre IH]; simpl; [by destruct (f v t)|]. by rewrite IH.
Qed.

Lemma try_update_from {A} (f : forall v, F v -> option (A * F v)) pre v post t :
  try_update f _ (enum_from pre v post t)
  = (fun '(a, t) => (a, enum_from pre v post t)) <$> f v t.
Proof.
  induction pre as [|v' pre IH]; simpl; [by destruct (f v t) as [[]|]|]. rewrite IH.
  by destruct (f v t) as [[]|].
Qed.
End enum.
Arguments enum_from {V F} pre v post t.
Arguments visit {V F A} f {vs} x.
Arguments update {V F} f {vs} x.
Arguments update_with {V F A} f {vs} x.
Arguments try_update {V F A} f {vs} x.

(** ** [#[action(..)]] *)

Inductive action_attr :=
| AttrStr (s : bytes)
| AttrInt (n : Z)
| AttrPath (discriminant : Z).   (* the path of an enum variant, cast to i32 *)

Definition attr_action (a : action_attr) : RpcAction :=
  match a with
  | AttrStr s => ActStr s
  | AttrInt n => ActNum n
  | AttrPath p => ActNum (as_i32 p)
  end.

(** ** [#[client_task_enum]] *)

Record client_variant (C E : Type) := mkClientVariant {
  cv_task : Type;
  cv_impl : ClientTask C cv_task;
  cv_get_result : cv_task -> result unit (RpcError E);
  cv_done : cv_task -> option cv_task;   (* what the waiting side receives *)
  cv_action : option action_attr;
}.
Arguments mkClientVariant {C E} cv_task cv_impl cv_get_result cv_done cv_action.
Arguments cv_task {C E} c.
Arguments cv_impl {C E} c.
Arguments cv_get_result {C E} c t.
Arguments cv_done {C E} c t.
Arguments cv_action {C E} c.
#[export] Existing Instance cv_impl.

Section client_enum.
Context {C E : Type} {vs : list (client_variant C E)}.
Let T := enum cv_task vs.
Implicit Types self : T.

Definition ClientEnum_get_action self : RpcAction :=
  visit (fun v inner =>
    match cv_action v with
    | Some a => attr_action a
    | None => get_action (C := C) inner
    end) self.

Definition ClientEnum_encode_req (codec : C) self (buf : bytes) : result Z unit * bytes :=
  visit (fun v inner => encode_req codec inner buf) self.

Definition ClientEnum_get_req_blob self : option bytes :=
  visit (fun v inner => get_req_blob (C := C) inner) self.

Definition ClientEnum_decode_resp (codec : C) self (buffer : bytes) : result unit unit * T :=
  update_with (fun v inner => decode_resp codec inner buffer) self.

Definition ClientEnum_reserve_resp_blob self (size : Z) : option Z * T :=
  update_with (fun v inner => reserve_resp_blob (C := C) inner size) self.

(** The write through the slice that the variant handed out. *)
Definition ClientEnum_put_resp_blob self (data : bytes) : T :=
  update (fun v inner => put_resp_blob (C := C) inner data) self.

Definition ClientEnum_get_result self : result unit (RpcError E) :=
  visit (fun v inner => cv_get_result v inner) self.

Definition ClientEnum_set_custom_error (codec : C) self (res : EncodedErr) : T :=
  update (fun v inner => set_custom_error codec inner res) self.

Definition ClientEnum_set_rpc_error self (e : RpcIntErr) : T :=
  update (fun v inner => set_rpc_error (C := C) inner e) self.

Definition ClientEnum_set_ok self : T :=
  update (fun v inner => set_ok (C := C) inner) self.

(** [done]: the variant's notifier sends the task on, as its enum. *)
Definition ClientEnum_done self : option T :=
  snd <$> try_update (fun v inner => (fun t => ((), t)) <$> cv_done v inner) self.

(** [Deref] and [DerefMut]. *)
Definition ClientEnum_deref self : ClientTaskCommon :=
  visit (fun v inner => task_common (C := C) inner) self.

Definition ClientEnum_deref_mut self (c : ClientTaskCommon) : T :=
  update (fun v inner => set_common (C := C) inner c) self.

#[export] Instance ClientEnum_ClientTask : ClientTask C T := {|
  get_action := ClientEnum_get_action;
  encode_req := ClientEnum_encode_req;
  get_req_blob := ClientEnum_get_req_blob;
  decode_resp := ClientEnum_decode_resp;
  reserve_resp_blob := ClientEnum_reserve_resp_blob;
  put_resp_blob := ClientEnum_put_resp_blob;
  set_custom_error := ClientEnum_set_custom_error;
  set_rpc_error := ClientEnum_set_rpc_error;
  set_ok := ClientEnum_set_ok;
  task_common := ClientEnum_deref;
  set_common := ClientEnum_deref_mut;
|}.
End client_enum.

(** An enum of lawful tasks is a lawful task. *)
Class VariantsLaws {C E} (vs : list (client_variant C E)) :=
  variants_laws : Forall (fun v => ClientTaskLaws C (cv_task v)) vs.

Section client_laws.
Context {C E : Type} (v : client_variant C E) (vs : list (client_variant C E)).
Context `{Hv : !ClientTaskLaws C (cv_task v), Hvs : !ClientTaskLaws C (enum cv_task vs)}.
Let T : Type := enum cv_task (v :: vs).

Lemma enum_cons_decode c (t : T) bs :
  task_common (C := C) (decode_resp c t bs).2 = task_common (C := C) t.
Proof.
  destruct t as [t|t].
  - pose proof (common_decode c t bs) as Hc.
    change (decode_resp c (inl t : T) bs) with
      (let '(a, t) := decode_resp c t bs in (a, inl t : T)).
    by destruct (decode_resp c t bs).
  - pose proof (common_decode c t bs) as Hc.
    change (decode_resp c (inr t : T) bs) with
      (let '(a, t) := decode_resp c t bs in (a, inr t : T)).
    by destruct (decode_resp c t bs).
Qed.

Lemma enum_cons_reserve (t : T) size :
  task_common (C := C) (reserve_resp_blob (C := C) t size).2 = task_common (C := C) t
  /\ forall n t', (0 <= size < 2 ^ 31)%Z -> reserve_resp_blob (C := C) t size = (Some n, t') -> n = size.
Proof.
  destruct t as [t|t].
  - pose proof (common_reserve t size) as Hc. pose proof (reserve_len t size) as Hn.
    change (reserve_resp_blob (inl t : T) size) with
      (let '(a, t) := reserve_resp_blob t size in (a, inl t : T)).
    destruct (reserve_resp_blob t size) as [a t']. split; [done|]. intros n t'' Hs [= -> <-]. by eauto.
  - pose proof (common_reserve t size) as Hc. pose proof (reserve_len t size) as Hn.
    change (reserve_resp_blob (inr t : T) size) with
      (let '(a, t) := reserve_resp_blob t size in (a, inr t : T)).
    destruct (reserve_resp_blob t size) as [a t']. split; [done|]. intros n t'' Hs [= -> <-]. by eauto.
Qed.

Lemma enum_cons_laws : ClientTaskLaws C T.
Proof.
  split.
  - intros c [t|t] buf n buf'; exact (encode_req_appends c t buf n buf').
  - intros [t|t] cm; exact (common_set t cm).
  - intros [t|t] e; exact (common_rpc_error t e).
  - intros c [t|t] e; exact (common_custom_error c t e).
  - intros [t|t]; exact (common_ok t).
  - intros c t bs. apply enum_cons_decode.
  - intros t size. apply enum_cons_reserve.
  - intros [t|t] bs; exact (common_put_blob t bs).
  - intros t size n t'. apply enum_cons_reserve.
Qed.
End client_laws.

#[export] Instance ClientEnum_Laws {C E} (vs : list (client_variant C E)) `{Hvs : !VariantsLaws vs} :
  ClientTaskLaws C (enum cv_task vs).
Proof.
  unfold VariantsLaws in Hvs. induction Hvs as [|v vs Hv Hvs IH]; [|by apply enum_cons_laws].
  split; intros; match goal with t : enum _ [] |- _ => destruct t end.
Qed.

(** ** [#[server_task_enum]] *)

Record server_variant (C E : Type) := mkServerVariant {
  se_task : Type;
  se_decode : ServerTaskDecode C se_task;
  se_encode : ServerTaskEncode C se_task;
  se_done : ServerTaskDone se_task E;
  se_get_action : ServerTaskAction se_task;
  se_actions : list action_attr;
}.
Arguments mkServerVariant {C E} se_task se_decode se_encode se_done se_get_action se_actions.
Arguments se_task {C E} s.
Arguments se_decode {C E} s.
Arguments se_encode {C E} s.
Arguments se_done {C E} s.
Arguments se_get_action {C E} s.
Arguments se_actions {C E} s.
#[export] Existing Instance se_decode.
#[export] Existing Instance se_encode.
#[export] Existing Instance se_done.
#[export] Existing Instance se_get_action.

(** One of the arms of the variant takes the action. *)
Definition arm_matches {C E} (action : RpcAction) (v : server_variant C E) : bool :=
  existsb (fun a => bool_decide (action = attr_action a)) (se_actions v).

Section server_enum.
Context {C E : Type}.
Implicit Types vs : list (server_variant C E).

(** [decode_req]: the first arm that takes the action; [_ => Err(())]. *)
Fixpoint ServerEnum_decode_req vs (codec : C) (action : RpcAction) (seq : Z) (req : bytes)
    (blob : option bytes) (noti : RespNoti) : result (enum se_task vs) unit :=
  match vs with
  | [] => Err ()
  | v :: vs =>
      if arm_matches action v then
        match decode_req codec action seq req blob noti with
        | Ok task => Ok (inl task)
        | Err e => Err e
        end
      else
        match ServerEnum_decode_req vs codec action seq req blob noti with
        | Ok task => Ok (inr task)
        | Err e => Err e
        end
  end.

(** [get_action]: the one declared action, or what the task carries. *)
Definition ServerEnum_get_action {vs} (self : enum se_task vs) : RpcAction :=
  visit (fun v inner =>
    match se_actions v with
    | [a] => attr_action a
    | _ => server_get_action inner
    end) self.

Definition ServerEnum_encode_resp {vs} (codec : C) (self : enum se_task vs) (buf : bytes)
    : option (Z * result (Z * option bytes) EncodedErr * bytes * enum se_task vs) :=
  try_update (fun v task => encode_resp codec task buf) self.

Definition ServerEnum_set_result {vs} (self : enum se_task vs) (res : result unit E)
    : option (RespNoti * enum se_task vs) :=
  try_update (fun v task => _set_result task res) self.

#[export] Instance ServerEnum_ServerTaskDecode vs : ServerTaskDecode C (enum se_task vs) :=
  {| decode_req := ServerEnum_decode_req vs |}.
#[export] Instance ServerEnum_ServerTaskAction vs : ServerTaskAction (enum se_task vs) :=
  {| server_get_action := ServerEnum_get_action |}.
#[export] Instance ServerEnum_ServerTaskEncode vs : ServerTaskEncode C (enum se_task vs) :=
  {| encode_resp := ServerEnum_encode_resp |}.
#[export] Instance ServerEnum_ServerTaskDone vs : ServerTaskDone (enum se_task vs) E :=
  {| _set_result := ServerEnum_set_result |}.

Lemma server_enum_unknown vs codec action seq req blob noti :
  Forall (fun v => arm_matches action v = false) vs ->
  ServerEnum_decode_req vs codec action seq req blob noti = Err ().
Proof. induction 1 as [|v vs Hv Hvs IH]; simpl; [done|]. by rewrite Hv, IH. Qed.

Lemma server_enum_routed pre v post codec action seq req blob noti :
  Forall (fun v => arm_matches action v = false) pre -> arm_matches action v = true ->
  ServerEnum_decode_req (pre ++ v :: post) codec action seq req blob noti
  = match decode_req codec action seq req blob noti with
    | Ok task => Ok (enum_from pre v post task)
    | Err e => Err e
    end.
Proof.
  intros Hpre Hv. induction Hpre as [|v' pre Hv' Hpre IH]; simpl; [by rewrite Hv|].
  rewrite Hv', IH. by destruct (decode_req codec action seq req blob noti).
Qed.

(** A routed task knows the action it was routed by, when its type keeps it. *)
Lemma server_enum_action pre v post action (task : se_task v) :
  arm_matches action v = true -> server_get_action task = action ->
  ServerEnum_get_action (enum_from pre v post task) = action.
Proof.
  intros Hv Ht. unfold ServerEnum_get_action. rewrite visit_from.
  destruct (se_actions v) as [|a [|a' l]] eqn:Ea; [done| |done].
  unfold arm_matches in Hv. rewrite Ea in Hv; simpl in Hv. rewrite orb_false_r in Hv.
  by apply bool_decide_eq_true in Hv.
Qed.
End server_enum.

#[export] Instance ServerEnum_EncodeLaws {C E} (vs : list (server_variant C E))
    (Hvs : Forall (fun v => ServerTaskEncodeLaws C (se_task v)) vs) :
  ServerTaskEncodeLaws C (enum se_task vs).
Proof.
  induction Hvs as [|v vs Hv Hvs IH]; [split; intros c []|].
  split. intros c [t|t] buf seq n blob buf' t'; unfold encode_resp; cbn.
  - pose proof (encode_resp_appends c t buf seq n blob buf') as Ha.
    destruct (encode_resp c t buf) as [[[[s r] b] u]|]; [|done]. intros [= -> -> -> <-]. by eauto.
  - pose proof (encode_resp_appends c t buf seq n blob buf') as Ha.
    change (try_update _ t) with (encode_resp c t buf).
    destruct (encode_resp c t buf) as [[[[s r] b] u]|]; [|done]. intros [= -> -> -> <-]. by eauto.
Qed.

(** ** From one enum to the other *)

Section claims.
Context {C E : Type}.
Variables (cpre cpost : list (client_variant C E)) (cv : client_variant C E).
Variables (spre spost : list (server_variant C E)) (sv : server_variant C E).

(** C36: A request of a client enum reaches its variant of the server enum: the
    enum encodes as the task inside it, with the action its variant declares
    (or the task's own); the server enum decodes it as the first variant that
    declares this action and keeps the action; the task it makes is answered
    and encoded as the variant's; and a request whose action no variant
    declares is never decoded: the reader answers it with [Decode]. *)
Theorem task_enum_routes (t : cv_task cv) (codec : C) (noti : RespNoti) (seq : Z) (buf : bytes)
    (blob := get_req_blob (C := C) t) (self := enum_from cpre cv cpost t)
    (action := get_action (C := C) self)
    (Hdecl : arm_matches action sv = true)
    (Hfirst : Forall (fun v => arm_matches action v = false) spre)
    (Hkeep : forall msg task, decode_req codec action seq msg blob noti = Ok task ->
       server_get_action (T := se_task sv) task = action) :
  action = match cv_action cv with Some a => attr_action a | None => get_action (C := C) t end
  /\ encode_req codec self buf = encode_req codec t buf
  /\ get_req_blob (C := C) self = blob
  /\ (forall msg,
       match decode_req codec action seq msg blob noti with
       | Err _ => decode_req (T := enum se_task (spre ++ sv :: spost)) codec action seq msg blob noti = Err ()
       | Ok task =>
           decode_req codec action seq msg blob noti = Ok (enum_from spre sv spost task)
           /\ server_get_action (enum_from spre sv spost task) = action
       end)
  /\ (forall (task : se_task sv) res out,
       _set_result (enum_from spre sv spost task) res
       = (fun '(n, task) => (n, enum_from spre sv spost task)) <$> _set_result task res
       /\ encode_resp codec (enum_from spre sv spost task) out
          = (fun '(r, task) => (r, enum_from spre sv spost task)) <$> encode_resp codec task out)
  /\ (forall R (handle : enum se_task (spre ++ sv :: spost) -> result unit unit * list (resp_msg R)) req,
       Forall (fun v => arm_matches (sq_action req) v = false) (spre ++ sv :: spost) ->
       is_ping req = false ->
       reader_handle codec (mkClosure handle) noti true req
       = (Ok (), [Err (sq_seq req, Some Decode)])).
Proof.
  split; [apply visit_from|].
  split; [exact (visit_from cv_task (fun v t => encode_req codec t buf) cpre cv cpost t)|].
  split; [apply visit_from|].
  split; [|split].
  - intros msg. pose proof (server_enum_routed spre sv spost codec action seq msg blob noti Hfirst Hdecl)
      as Hr. specialize (Hkeep msg).
    destruct (decode_req codec action seq msg blob noti) as [task|[]]; [|done].
    split; [done|]. apply server_enum_action; [done|]. by apply Hkeep.
  - intros task res out. split.
    + exact (try_update_from se_task (fun v task => _set_result task res) spre sv spost task).
    + exact (try_update_from se_task (fun v task => encode_resp codec task out) spre sv spost task).
  - intros R handle req Hnone Hping. unfold reader_handle. rewrite Hping.
    unfold dispatch_req; cbn [DispatchClosure_Dispatch]. unfold DispatchClosure_dispatch_req.
    unfold decode_req; cbn [ServerEnum_ServerTaskDecode]. by rewrite server_enum_unknown.
Qed.
End claims.

(** ** A concrete pair of enums *)

Definition demo_client_variant : client_variant RawCodec unit :=
  mkClientVariant RawTask _ MacroTask_get_result MacroTask_done (Some (AttrInt 3)).

(** "put" and 9 are the first variant's actions, 3 and 4 the second's. *)
Definition demo_put : server_variant RawCodec unit :=
  mkServerVariant (ServerTaskVariantFull bytes bytes unit) _ _ _ _ [AttrStr (lit "put"); AttrInt 9].

Definition demo_echo : server_variant RawCodec unit :=
  mkServerVariant (ServerTaskVariant bytes unit) _ _ _ _ [AttrInt 3; AttrPath 4].

#[export] Instance demo_variants_laws : VariantsLaws [demo_client_variant].
Proof. repeat constructor; apply MacroTask_Laws. Qed.

Lemma demo_echo_keeps act seq msg blob noti (task : se_task demo_echo) :
  decode_req Raw act seq msg blob noti = Ok task -> server_get_action task = act.
Proof.
  unfold decode_req; simpl. unfold Variant_decode_req. destruct (codec_decode Raw msg); [|done].
  intros [= <-]. apply to_action_from.
Qed.

Example task_enum_routes_witness :
  let self := enum_from (F := cv_task) [] demo_client_variant []
                (raw_task 7 (OwnedStr (lit "x")) (lit "hi") None) in
  exists task,
    decode_req (T := enum se_task [demo_put; demo_echo]) Raw (get_action (C := RawCodec) self) 7
      (lit "hi") None (mkRespNoti 0)
    = Ok (enum_from [demo_put] demo_echo [] task)
    /\ server_get_action (enum_from (F := se_task) [demo_put] demo_echo [] task) = ActNum 3.
Proof.
  destruct (task_enum_routes [] [] demo_client_variant [demo_put] [] demo_echo
    (raw_task 7 (OwnedStr (lit "x")) (lit "hi") None) Raw (mkRespNoti 0) 7 [])
    as (_ & _ & _ & Hdec & _).
  - reflexivity.
  - repeat constructor.
  - intros msg task. apply demo_echo_keeps.
  - destruct (Hdec (lit "hi")) as [H1 H2]. eexists. split; [exact H1|exact H2].
Defined.
