(* ===== verification/FileSuite.v ===== *)
(** * test-suite/src/stream: the file service over the framework

    The tasks that the test suite declares with the macros ([FileClientTask],
    [FileServerTask]), the handler of [test_client_server], which keeps one
    buffer, and what becomes of a call on its way from one to the other:
    encoded as a frame, read by the grammar of requests, dispatched, answered,
    and completed at the client.  The reading and writing of the frames is
    EndToEnd.v.  The codec is any lawful one; [nix::errno::Errno] and
    [io_buffer::Buffer] are parameters. *)

From S2P Require Import Prelude RustStd Errors Config Task ClientTaskMacro Buffer Proto BufIO.
From S2P Require Import Sock Parser ServerTask TcpServer Timer TcpClient EndToEnd Server TaskEnum.

(** ** The messages and actions *)

Inductive FileAction := FileAction_Open | FileAction_Read | FileAction_Write.

Definition FileAction_discr (a : FileAction) : Z :=
  match a with FileAction_Open => 1 | FileAction_Read => 2 | FileAction_Write => 3 end.

(** [TryFrom<u8> for FileAction] *)
Definition FileAction_try_from {E} (value : Z) : result FileAction (RpcError E) :=
  if (value =? 1)%Z then Ok FileAction_Open
  else if (value =? 2)%Z then Ok FileAction_Read
  else if (value =? 3)%Z then Ok FileAction_Write
  else Err (RpcError_from_int Method).

Record FileOpenReq := mkFileOpenReq { fo_path : bytes }.
Record FileIOReq := mkFileIOReq { fio_inode : Z; fio_offset : Z; fio_len : Z }.
Record FileIOResp := mkFileIOResp { ret_size : Z }.

Section suite.
Context {C Errno B : Type} `{!Codec C FileOpenReq, !Codec C FileIOReq, !Codec C FileIOResp, !Codec C unit}.
Context `{!RpcErrCodec C Errno, !IoBuffer B}.
Variables (EINVAL ENOSYS : Errno).

Local Instance file_AllocateBuf : AllocateBuf (option B) := OptBuffer_AllocateBuf.

(** ** The client's tasks *)

Definition FileClientTaskOpen : Type := MacroTask (option B) FileOpenReq unit Errno.
Definition FileClientTaskRead : Type := MacroTask (option B) FileIOReq FileIOResp Errno.
Definition FileClientTaskWrite : Type := MacroTask (option B) FileIOReq FileIOResp Errno.

(** The structs have no action field: their action is the one of the enum. *)
Definition no_action : RpcActionOwned := OwnedNum 0.

Definition FileClientTaskOpen_new (path : bytes) : FileClientTaskOpen :=
  mkMacroTask ClientTaskCommon_default no_action (mkFileOpenReq path) None None None [] None true.

Definition FileClientTaskRead_new (inode offset len : Z) : FileClientTaskRead :=
  mkMacroTask ClientTaskCommon_default no_action (mkFileIOReq inode offset len) None None (Some None) [] None true.

Definition FileClientTaskWrite_new (inode offset : Z) (data : bytes) : FileClientTaskWrite :=
  mkMacroTask ClientTaskCommon_default no_action (mkFileIOReq inode offset (zlen data)) (Some data) None None []
    None true.

Definition open_variant : client_variant C Errno :=
  mkClientVariant FileClientTaskOpen _ MacroTask_get_result MacroTask_done
    (Some (AttrPath (FileAction_discr FileAction_Open))).
Definition read_variant : client_variant C Errno :=
  mkClientVariant FileClientTaskRead _ MacroTask_get_result MacroTask_done
    (Some (AttrPath (FileAction_discr FileAction_Read))).
Definition write_variant : client_variant C Errno :=
  mkClientVariant FileClientTaskWrite _ MacroTask_get_result MacroTask_done
    (Some (AttrPath (FileAction_discr FileAction_Write))).

Definition FileClientTask : Type := enum cv_task [open_variant; read_variant; write_variant].

(** ** The server's tasks *)

Definition ServerTaskOpen : Type := ServerTaskVariantFull FileOpenReq unit Errno.
Definition ServerTaskIO : Type := ServerTaskVariantFull FileIOReq FileIOResp Errno.

Definition server_open_variant : server_variant C Errno :=
  mkServerVariant ServerTaskOpen _ _ _ _ [AttrPath (FileAction_discr FileAction_Open)].
Definition server_io_variant : server_variant C Errno :=
  mkServerVariant ServerTaskIO _ _ _ _
    [AttrPath (FileAction_discr FileAction_Read); AttrPath (FileAction_discr FileAction_Write)].

Definition FileServerTask : Type := enum se_task [server_open_variant; server_io_variant].

Definition from_open (t : ServerTaskOpen) : FileServerTask := inl t.
Definition from_io (t : ServerTaskIO) : FileServerTask := inr (inl t).

(** ** The handler, with the buffer it keeps *)

Definition put_resp (blob : option bytes) (resp : FileIOResp) (t : ServerTaskIO) : ServerTaskIO :=
  mkFull (sf_seq t) (sf_action t) (sf_req t) (sf_req_blob t) (Some resp) blob (sf_res t) (sf_noti t).

Definition take_req_blob (t : ServerTaskIO) : ServerTaskIO :=
  mkFull (sf_seq t) (sf_action t) (sf_req t) None (sf_resp t) (sf_resp_blob t) (sf_res t) (sf_noti t).

(** The store after, the outcome and the messages sent; [None] is a panic. *)
Definition handled : Type := option (option bytes * (result unit unit * list (resp_msg FileServerTask))).

Definition answered (store : option bytes) (r : result unit unit) (sent : option (list (resp_msg FileServerTask)))
    : handled :=
  match sent with Some l => Some (store, (r, l)) | None => None end.

Definition dispatch_task (store : option bytes) (task : FileServerTask) : handled :=
  match task with
  | inl open_task => answered store (Ok ()) (set_result from_open true open_task (Ok () : result unit Errno))
  | inr (inl io_task) =>
      match Full_get_action io_task with
      | ActNum action_num =>
          match FileAction_try_from (E := Errno) (wrap 8 action_num) with
          | Err _ => Some (store, (Err (), []))
          | Ok FileAction_Read =>
              let data_to_read := default [] store in
              let io_task := put_resp (Some data_to_read) (mkFileIOResp (zlen data_to_read)) io_task in
              answered None (Ok ()) (set_result from_io true io_task (Ok () : result unit Errno))
          | Ok FileAction_Write =>
              match sf_req_blob io_task with
              | Some blob =>
                  let io_task := put_resp (sf_resp_blob io_task) (mkFileIOResp (zlen blob)) (take_req_blob io_task) in
                  answered (Some blob) (Ok ()) (set_result from_io true io_task (Ok () : result unit Errno))
              | None => answered store (Ok ()) (set_result from_io true io_task (Err EINVAL))
              end
          | Ok FileAction_Open => None
          end
      | ActStr _ => answered store (Err ()) (set_result from_io true io_task (Err ENOSYS))
      end
  | inr (inr x) => match x with end
  end.

(** A request that the reader of a connection hands over: decoded, passed to
    the closure with its store, answered. *)
Definition serve (codec : C) (noti : RespNoti) (store : option bytes) (req : RpcSvrReq)
    : option (option bytes * (result unit unit * list (resp_msg FileServerTask))) :=
  let handle out := reader_handle (D := DispatchClosure FileServerTask FileServerTask) codec
                      (mkClosure (fun _ => out)) noti true req in
  match decode_req (T := FileServerTask) codec (sq_action req) (sq_seq req) (sq_msg req) (sq_blob req) noti with
  | Err _ => Some (store, handle (Err (), []))
  | Ok task =>
      match dispatch_task store task with
      | None => None
      | Some (store, out) => Some (store, handle out)
      end
  end.

(** ** A call, from one end to the other *)

Inductive file_request :=
| ReqOpen (path : bytes)
| ReqRead (inode offset len : Z)
| ReqWrite (inode offset : Z) (data : bytes).

Definition file_task (k : file_request) : FileClientTask :=
  match k with
  | ReqOpen path => inl (FileClientTaskOpen_new path)
  | ReqRead inode offset len => inr (inl (FileClientTaskRead_new inode offset len))
  | ReqWrite inode offset data => inr (inr (inl (FileClientTaskWrite_new inode offset data)))
  end.

(** What the caller finds in a finished task. *)
Record file_outcome := mkOutcome {
  out_res : result unit (RpcError Errno);
  out_size : option Z;
  out_data : option bytes;
}.

Definition io_outcome {Req} (t : MacroTask (option B) Req FileIOResp Errno) : file_outcome :=
  mkOutcome (MacroTask_get_result t) (ret_size <$> mt_resp t)
    match mt_resp_blob t with Some (Some _) => Some (mt_resp_data t) | _ => None end.

Definition task_outcome (t : FileClientTask) : file_outcome :=
  match t with
  | inl t => mkOutcome (MacroTask_get_result t) None None
  | inr (inl t) => io_outcome t
  | inr (inr (inl t)) => io_outcome t
  | inr (inr (inr x)) => match x with end
  end.

Variables (codec : C) (stale : nat -> byte) (client_id : Z) (noti : RespNoti).

(** The response that the writer makes of a finished task. *)
Definition task_answer (t : FileServerTask) : option (Z * resp) :=
  match encode_resp codec t [] with
  | None => None
  | Some (seq, Ok (_, blob), msg, _) => Some (seq, RespOk msg blob)
  | Some (seq, Err e, _, _) => Some (seq, RespErr e)
  end.

(** A request served; its answer completes the task [self] that waits for it. *)
Definition file_served (self : FileClientTask) (store : option bytes) (req : RpcSvrReq)
    : option (option bytes * file_outcome) :=
  match serve codec noti store req with
  | Some (store, (Ok _, [Ok task])) =>
      match task_answer task with
      | Some (seq, r) =>
          if (seq =? task_seq (C := C) self)%Z then
            (fun t => (store, task_outcome t)) <$> ClientEnum_done (event_task (complete codec self r))
          else None
      | None => None
      end
  | _ => None
  end.

(** Encoded as a frame, parsed, served. *)
Definition file_call (seq : Z) (store : option bytes) (k : file_request) : option (option bytes * file_outcome) :=
  let self := task_set_seq (C := C) (file_task k) seq in
  match ReqHead_encode stale codec [] client_id self with
  | Some (Ok blob, buf) =>
      match parse_req (alloc_ok B) (buf ++ default [] blob) with
      | Ok (req, []) => file_served self store req
      | _ => None
      end
  | _ => None
  end.

(** Calls one after the other, with consecutive numbers. *)
Fixpoint file_session (seq : Z) (store : option bytes) (ks : list file_request)
    : option (option bytes * list file_outcome) :=
  match ks with
  | [] => Some (store, [])
  | k :: ks =>
      match file_call seq store k with
      | None => None
      | Some (store, o) =>
          match file_session (seq + 1) store ks with
          | None => None
          | Some (store, os) => Some (store, o :: os)
          end
      end
  end.

(** ** The service it is meant to be: one buffer, read once *)

Definition spec_call (store : option bytes) (k : file_request) : option bytes * file_outcome :=
  match k with
  | ReqOpen _ => (store, mkOutcome (Ok ()) None None)
  | ReqRead _ _ _ => (None, mkOutcome (Ok ()) (Some (zlen (default [] store))) (seen_blob store))
  | ReqWrite _ _ [] => (store, mkOutcome (Err (User EINVAL)) None None)
  | ReqWrite _ _ data => (Some data, mkOutcome (Ok ()) (Some (zlen data)) None)
  end.

Fixpoint spec_session (store : option bytes) (ks : list file_request) : option bytes * list file_outcome :=
  match ks with
  | [] => (store, [])
  | k :: ks =>
      let '(store, o) := spec_call store k in
      let '(store, os) := spec_session store ks in
      (store, o :: os)
  end.
End suite.

(** ** Laws *)

#[export] Instance file_AllocateBuf_Laws {B} `{IoBufferLaws B} : @AllocateBufLaws (option B) file_AllocateBuf.
Proof. apply OptBuffer_AllocateBuf_Laws. Qed.

Section laws.
Context {C Errno B : Type} `{!Codec C FileOpenReq, !CodecLaws C FileOpenReq, !Codec C FileIOReq, !CodecLaws C FileIOReq}.
Context `{!Codec C FileIOResp, !CodecLaws C FileIOResp, !Codec C unit, !CodecLaws C unit}.
Context `{!RpcErrCodec C Errno, !IoBuffer B, !IoBufferLaws B}.
Variables (EINVAL ENOSYS : Errno).
Existing Instance file_AllocateBuf.

#[local] Instance file_variants_laws : VariantsLaws (C := C) (E := Errno)
  [open_variant (B := B); read_variant (B := B); write_variant (B := B)].
Proof. repeat constructor; apply MacroTask_Laws. Qed.

Variables (codec : C) (stale : nat -> byte) (client_id : Z) (noti : RespNoti) (room : Z).

(** A message that every buffer takes, of a length a header can hold. *)
Definition encodes {M} `{Codec C M} (m : M) : Prop :=
  forall buf, exists n buf', codec_encode_into codec m buf = (Ok n, buf') /\ (n <= u32_MAX)%Z.

Lemma encodes_msg {M} `{CodecLaws C M} (m : M) buf :
  encodes m -> exists msg, codec_encode_into codec m buf = (Ok (zlen msg), buf ++ msg)
    /\ codec_decode codec msg = Ok m /\ (zlen msg <= u32_MAX)%Z.
Proof.
  intros Hm. destruct (Hm buf) as (n & buf' & E & Hn). rewrite E.
  apply encode_into_encode in E as (msg & Hmsg & -> & ->). exists msg.
  split; [done|]. split; [by apply decode_encode|done].
Qed.

Definition fits (k : file_request) : Prop :=
  match k with
  | ReqOpen path => encodes (mkFileOpenReq path)
  | ReqRead inode offset len => encodes (mkFileIOReq inode offset len)
  | ReqWrite inode offset data => encodes (mkFileIOReq inode offset (zlen data)) /\ (zlen data <= room)%Z
  end.

Hypothesis Hcid : in_u 64 client_id.
Hypothesis Hroom : (room <= i32_MAX)%Z.
Hypothesis Halloc : forall n, (0 <= n <= room)%Z -> is_ok (buf_alloc (B := B) n) = true.

(** The server sees the request of the task, whatever its variant. *)
Lemma file_call_framed {M} `{CodecLaws C M} (m : M) seq store k
    (self := task_set_seq (C := C) (file_task (C := C) (Errno := Errno) (B := B) k) seq) :
  encodes m -> in_u 64 seq -> (0 <= room)%Z ->
  (forall buf, encode_req codec self buf = codec_encode_into codec m buf) ->
  action_ok (get_action (C := C) self) -> action_text (get_action (C := C) self) = [] ->
  (opt_len (get_req_blob (C := C) self) <= room)%Z -> task_seq (C := C) self = seq ->
  exists msg, codec_decode codec msg = Ok m
    /\ file_call EINVAL ENOSYS codec stale client_id noti seq store k
       = file_served EINVAL ENOSYS codec noti self store
           (mkSvrReq seq (get_action (C := C) self) msg (seen_blob (get_req_blob (C := C) self))).
Proof.
  intros Hm Hseq Hr0 Henc Hact Htext Hblob Hs. unfold file_call. fold self.
  destruct (ReqHead_encode_spec stale codec self [] client_id) as (rm & _ & Hspec).
  rewrite Henc in Hspec. destruct (encodes_msg m (rm ++ action_text (get_action (C := C) self)) Hm) as (msg & E & Hd & Hl).
  rewrite E in Hspec. destruct Hspec as (msg' & Hm' & _ & Hh). rewrite <- app_assoc in Hm'.
  apply app_inv_head, app_inv_head in Hm'. subst msg'. exists msg. split; [done|].
  destruct (Z.ltb_spec u32_MAX (zlen msg)); [lia|].
  destruct (Z.ltb_spec i32_MAX (opt_len (get_req_blob (C := C) self))); [lia|]. cbn [orb] in Hh. rewrite Hh.
  pose proof (opt_len_nonneg (get_req_blob (C := C) self)).
  pose proof (parse_req_frame (alloc_ok B) client_id (get_action (C := C) self) seq msg
    (get_req_blob (C := C) self) []) as Hp. unfold req_frame in Hp. rewrite app_nil_r in Hp.
  rewrite Hs, <- !app_assoc, Hp; try done; [by rewrite Htext|apply Halloc; lia].
Qed.

(** The response message: a codec leaves no message empty. *)
Definition resp_encodes (r : FileIOResp) : Prop :=
  forall buf, exists n buf', codec_encode_into codec r buf = (Ok n, buf') /\ (0 < n <= u32_MAX)%Z.

Hypothesis Hresp : forall n, (0 <= n <= room)%Z -> resp_encodes (mkFileIOResp n).

Lemma resp_msg_encodes r :
  resp_encodes r -> exists b msg, codec_encode_into codec r [] = (Ok (zlen (b :: msg)), b :: msg)
    /\ codec_decode codec (b :: msg) = Ok r.
Proof.
  intros Hr. destruct (Hr []) as (n & buf' & E & Hn). rewrite E.
  apply encode_into_encode in E as (msg & Hmsg & -> & ->). destruct msg as [|b msg]; [change (zlen []) with 0%Z in Hn; lia|].
  exists b, msg. split; [done|]. by apply decode_encode.
Qed.

Abbreviation served := (file_served EINVAL ENOSYS codec noti).
Abbreviation task_of := (file_task (C := C) (Errno := Errno) (B := B)).

Abbreviation decoded := (decode_req (T := FileServerTask (C := C) (Errno := Errno)) codec).

Lemma decode_open seq msg blob req :
  codec_decode codec msg = Ok req ->
  decoded (ActNum 1) seq msg blob noti = Ok (inl (mkFull seq (OwnedNum 1) req blob None None None (Some noti))).
Proof.
  intros Hd. unfold decode_req; simpl. unfold Full_decode_req. by rewrite Hd.
Qed.

Lemma decode_io a seq msg blob req :
  (a = 2 \/ a = 3)%Z -> codec_decode codec msg = Ok req ->
  decoded (ActNum a) seq msg blob noti = Ok (inr (inl (mkFull seq (OwnedNum a) req blob None None None (Some noti)))).
Proof.
  intros [-> | ->] Hd; unfold decode_req; simpl; unfold Full_decode_req; by rewrite Hd.
Qed.

(** A request the handler answers is answered by one message. *)
Lemma serve_handled req store task store' sent :
  decoded (sq_action req) (sq_seq req) (sq_msg req) (sq_blob req) noti = Ok task -> is_ping req = false ->
  dispatch_task EINVAL ENOSYS store task = Some (store', (Ok (), sent)) ->
  serve EINVAL ENOSYS codec noti store req = Some (store', (Ok (), sent)).
Proof.
  intros Hd Hp Ht. unfold serve. rewrite Hd, Ht. do 2 f_equal.
  unfold reader_handle. rewrite Hp. unfold dispatch_req; simpl. unfold DispatchClosure_dispatch_req.
  by rewrite Hd.
Qed.

Lemma served_open seq store msg path :
  codec_decode codec msg = Ok (mkFileOpenReq path) ->
  served (task_set_seq (C := C) (task_of (ReqOpen path)) seq) store (mkSvrReq seq (ActNum 1) msg None)
  = Some (spec_call EINVAL store (ReqOpen path)).
Proof.
  intros Hd. unfold file_served.
  erewrite serve_handled; [|by apply decode_open|done|reflexivity].
  cbn. by rewrite Z.eqb_refl.
Qed.

(** The answers to the tasks of [IO], and what the client's tasks make of them. *)
Lemma io_answered (t : ServerTaskIO (Errno := Errno)) r b m :
  sf_res t = Some (Ok ()) -> sf_resp t = Some r -> codec_encode_into codec r [] = (Ok (zlen (b :: m)), b :: m) ->
  task_answer (C := C) codec (from_io t) = Some (sf_seq t, RespOk (b :: m) (sf_resp_blob t)).
Proof.
  intros Hr Hp E. unfold task_answer, encode_resp; simpl. unfold ServerEnum_encode_resp; simpl.
  unfold encode_resp; simpl. unfold Full_encode_resp. by rewrite Hr, Hp, E.
Qed.

Lemma io_refused (t : ServerTaskIO (Errno := Errno)) e :
  sf_res t = Some (Err e) -> task_answer (C := C) codec (from_io t) = Some (sf_seq t, RespErr (err_encode codec e)).
Proof.
  intros Hr. unfold task_answer, encode_resp; simpl. unfold ServerEnum_encode_resp; simpl.
  unfold encode_resp; simpl. unfold Full_encode_resp. by rewrite Hr.
Qed.

Abbreviation finished self r :=
  (task_outcome <$> ClientEnum_done (event_task (complete codec (task_set_seq (C := C) (task_of self) r.1) r.2))).

Lemma read_finishes inode offset len seq b m n data :
  codec_decode codec (b :: m) = Ok (mkFileIOResp n) -> (zlen data <= room)%Z ->
  finished (ReqRead inode offset len) (seq, RespOk (b :: m) (Some data))
  = Some (mkOutcome (Ok ()) (Some n) (seen_blob (Some data))).
Proof.
  intros Hm Hl. cbn [fst snd]. unfold complete. destruct data as [|c data].
  - unfold complete_msg, decode_resp; simpl. unfold ClientEnum_decode_resp, decode_resp; simpl.
    unfold MacroTask_decode_resp. rewrite Hm. reflexivity.
  - pose proof (zlen_nonneg (c :: data)).
    destruct (buf_alloc (B := B) (zlen (c :: data))) as [v|] eqn:Ea.
    2:{ pose proof (Halloc (zlen (c :: data)) ltac:(lia)) as Hok. by rewrite Ea in Hok. }
    unfold reserve_resp_blob; simpl. unfold ClientEnum_reserve_resp_blob, reserve_resp_blob; simpl.
    unfold MacroTask_reserve_resp_blob; simpl. rewrite Ea. simpl.
    unfold complete_msg, decode_resp; simpl. unfold ClientEnum_decode_resp, decode_resp; simpl.
    unfold MacroTask_decode_resp. rewrite Hm. reflexivity.
Qed.

Lemma write_finishes inode offset data seq b m n :
  codec_decode codec (b :: m) = Ok (mkFileIOResp n) ->
  finished (ReqWrite inode offset data) (seq, RespOk (b :: m) None)
  = Some (mkOutcome (Ok ()) (Some n) None).
Proof.
  intros Hm. cbn [fst snd]. unfold complete, complete_msg, decode_resp; simpl.
  unfold ClientEnum_decode_resp, decode_resp; simpl. unfold MacroTask_decode_resp. rewrite Hm. reflexivity.
Qed.

Lemma write_refused inode offset data seq e :
  err_travels codec e ->
  finished (ReqWrite inode offset data) (seq, RespErr (err_encode codec e))
  = Some (mkOutcome (Err (User e)) None None).
Proof.
  unfold err_travels. destruct (err_encode codec e) as [ie|n|s|s]; [done| |done|].
  - intros [Hn Hd]. simpl. unfold MacroTask_get_result, decode_user_error; simpl.
    unfold as_u32. rewrite !(wrap_small 32 n) by done. by rewrite Hd.
  - intros (Hd & Hs & _). cbn [snd complete err_text]. rewrite Hs.
    destruct (starts_with _ _ && _); simpl; unfold MacroTask_get_result, decode_user_error; simpl; by rewrite Hd.
Qed.

(** One call does what the service means. *)
Lemma served_answered self store store' req task t' seq r o :
  decoded (sq_action req) (sq_seq req) (sq_msg req) (sq_blob req) noti = Ok task -> is_ping req = false ->
  dispatch_task EINVAL ENOSYS store task = Some (store', (Ok (), [Ok t'])) ->
  task_answer (C := C) codec t' = Some (seq, r) ->
  finished self (seq, r) = Some o ->
  served (task_set_seq (C := C) (task_of self) seq) store req = Some (store', o).
Proof.
  intros Hd Hp Ht Ha Hf. unfold file_served. rewrite (serve_handled _ _ _ _ _ Hd Hp Ht), Ha.
  rewrite task_seq_set, Z.eqb_refl. cbn [fst snd] in Hf.
  destruct (ClientEnum_done _); [|done]. simpl in *. congruence.
Qed.

Lemma served_read seq store msg inode offset len :
  codec_decode codec msg = Ok (mkFileIOReq inode offset len) -> (opt_len store <= room)%Z ->
  served (task_set_seq (C := C) (task_of (ReqRead inode offset len)) seq) store (mkSvrReq seq (ActNum 2) msg None)
  = Some (spec_call EINVAL store (ReqRead inode offset len)).
Proof.
  intros Hd Hs. pose proof (zlen_nonneg (default [] store)).
  assert (zlen (default [] store) <= room)%Z as Hl by (by destruct store).
  destruct (resp_msg_encodes (mkFileIOResp (zlen (default [] store)))) as (b & m & E & Hm); [by apply Hresp|].
  eapply served_answered; [by apply decode_io; [left|]|done|reflexivity|by eapply io_answered|].
  rewrite (read_finishes _ _ _ _ _ _ _ (default [] store) Hm) by done. by destruct store.
Qed.

Lemma served_write seq store msg inode offset data :
  codec_decode codec msg = Ok (mkFileIOReq inode offset (zlen data)) -> (zlen data <= room)%Z ->
  err_travels codec EINVAL ->
  served (task_set_seq (C := C) (task_of (ReqWrite inode offset data)) seq) store
    (mkSvrReq seq (ActNum 3) msg (seen_blob (Some data)))
  = Some (spec_call EINVAL store (ReqWrite inode offset data)).
Proof.
  intros Hd Hl He. pose proof (zlen_nonneg data). destruct data as [|c data]; cbn [seen_blob].
  - eapply served_answered; [by apply decode_io; [right|]|done|reflexivity|by apply io_refused|].
    by apply write_refused.
  - destruct (resp_msg_encodes (mkFileIOResp (zlen (c :: data)))) as (b & m & E & Hm); [by apply Hresp|].
    eapply served_answered; [by apply decode_io; [right|]|done|reflexivity|by eapply io_answered|].
    by apply write_finishes.
Qed.

Lemma file_call_means seq store k :
  in_u 64 seq -> fits k -> (0 <= room)%Z -> (opt_len store <= room)%Z -> err_travels codec EINVAL ->
  file_call EINVAL ENOSYS codec stale client_id noti seq store k = Some (spec_call EINVAL store k)
  /\ (opt_len (spec_call EINVAL store k).1 <= room)%Z.
Proof.
  intros Hseq Hk Hr0 Hs He.
  destruct k as [path|inode offset len|inode offset data].
  - destruct (file_call_framed (mkFileOpenReq path) seq store (ReqOpen path)) as (msg & Hd & ->);
      try done; try apply task_seq_set. split; [by apply served_open|done].
  - destruct (file_call_framed (mkFileIOReq inode offset len) seq store (ReqRead inode offset len))
      as (msg & Hd & ->); try done; try apply task_seq_set. split; [by apply served_read|done].
  - destruct Hk as [Hk Hl].
    destruct (file_call_framed (mkFileIOReq inode offset (zlen data)) seq store (ReqWrite inode offset data))
      as (msg & Hd & ->); try done; try apply task_seq_set. split; [by apply served_write|]. by destruct data.
Qed.

(** ** Properties *)

(** C29: The file service of the test suite keeps one buffer, and its calls go
    through the framework: a task of the client's enum is encoded, framed,
    parsed, routed to the task of the server's enum that declares its action,
    handled with the buffer, answered, and completed.  A session of calls with
    consecutive numbers never gets stuck, and every call returns what the
    service means: [Open] returns; [Write] keeps the data and returns its
    length, but [EINVAL] for no data, which no blob stands for; [Read] returns
    the data last written, once, and then nothing. *)
Theorem file_session_means (seq : Z) (store : option bytes) (ks : list file_request)
    (Hr0 : (0 <= room)%Z) (Hseq : (0 <= seq /\ seq + zlen ks <= 2 ^ 64)%Z) (Hfits : Forall fits ks)
    (Hstore : (opt_len store <= room)%Z) (Herr : err_travels codec EINVAL) :
  file_session EINVAL ENOSYS codec stale client_id noti seq store ks = Some (spec_session EINVAL store ks).
Proof.
  revert seq store Hseq Hstore. induction Hfits as [|k ks Hk _ IH]; intros seq store Hseq Hstore; [done|].
  cbn [file_session spec_session]. rewrite zlen_cons in Hseq. pose proof (zlen_nonneg ks).
  destruct (file_call_means seq store k) as [-> Hs']; [split; lia|done..|].
  destruct (spec_call EINVAL store k) as [store' o]. rewrite IH; [|lia|done].
  by destruct (spec_session EINVAL store' ks).
Qed.
End laws.

(** ** A concrete codec

    The path as it is, and eight bytes for a number. *)
Inductive FileCodec := Le.

Definition file_codec {M} (enc : M -> result bytes unit) (dec : bytes -> result M unit) : Codec FileCodec M := {|
  codec_encode _ := enc;
  codec_encode_into _ m buf :=
    match enc m with Ok msg => (Ok (zlen msg), buf ++ msg) | Err e => (Err e, buf) end;
  codec_decode _ := dec;
|}.

Lemma file_codec_laws {M} enc (dec : bytes -> result M unit) :
  (forall m msg, enc m = Ok msg -> dec msg = Ok m) -> @CodecLaws FileCodec M (file_codec enc dec).
Proof.
  intros Hd. split; [|intros c m msg; apply Hd].
  intros c m buf n buf'. unfold codec_encode_into, codec_encode; simpl.
  destruct (enc m) as [msg|]; [|done]. intros [= <- <-]. eauto.
Qed.

Definition u64_bytes (l : list Z) : result bytes unit :=
  if forallb (fun z => (0 <=? z) && (z <? 2 ^ 64))%Z l then Ok (mjoin (le_bytes 8 <$> l)) else Err ().

Lemma u64_bytes_head z l msg :
  u64_bytes (z :: l) = Ok msg -> le_val (take 8 msg) = z /\ u64_bytes l = Ok (drop 8 msg).
Proof.
  unfold u64_bytes. cbn [forallb]. destruct ((_ && _)%Z) eqn:E; [|done].
  apply andb_true_iff in E as [Ez ->]. breflect. intros E.
  assert (msg = le_bytes 8 z ++ mjoin (le_bytes 8 <$> l)) as ->
    by (apply (f_equal (fun r => match r with Ok bs => bs | Err _ => [] end)) in E; by symmetry).
  rewrite take_app_length', drop_app_length' by (by rewrite length_le_bytes).
  split; [|done]. apply (le_val_bytes_u 64); [done|]. split; lia.
Qed.

#[local] Instance open_codec : Codec FileCodec FileOpenReq :=
  file_codec (fun m => Ok (fo_path m)) (fun bs => Ok (mkFileOpenReq bs)).
#[local] Instance io_codec : Codec FileCodec FileIOReq :=
  file_codec (fun m => u64_bytes [fio_inode m; fio_offset m; fio_len m])
    (fun bs => Ok (mkFileIOReq (le_val (take 8 bs)) (le_val (take 8 (drop 8 bs))) (le_val (take 8 (drop 8 (drop 8 bs)))))).
#[local] Instance resp_codec : Codec FileCodec FileIOResp :=
  file_codec (fun m => u64_bytes [ret_size m]) (fun bs => Ok (mkFileIOResp (le_val (take 8 bs)))).
#[local] Instance unit_codec : Codec FileCodec unit := file_codec (fun _ => Ok []) (fun _ => Ok ()).

#[local] Instance open_codec_laws : CodecLaws FileCodec FileOpenReq.
Proof. apply file_codec_laws. by intros [path] msg [= <-]. Qed.
#[local] Instance io_codec_laws : CodecLaws FileCodec FileIOReq.
Proof.
  apply file_codec_laws. intros [i o l] msg E. simpl in E.
  apply u64_bytes_head in E as [Ei E]. apply u64_bytes_head in E as [Eo E]. apply u64_bytes_head in E as [El _].
  by rewrite Ei, Eo, El.
Qed.
#[local] Instance resp_codec_laws : CodecLaws FileCodec FileIOResp.
Proof. apply file_codec_laws. intros [n] msg E. by apply u64_bytes_head in E as [-> _]. Qed.
#[local] Instance unit_codec_laws : CodecLaws FileCodec unit.
Proof. apply file_codec_laws. by intros [] msg. Qed.

Definition demo_session : list file_request :=
  [ReqOpen (lit "f"); ReqWrite 1 0 (lit "hello"); ReqRead 1 0 5; ReqRead 1 0 5; ReqWrite 1 0 []].

Example file_session_means_witness :
  @file_session FileCodec unit vec _ _ _ _ _ vec_IoBuffer () () Le (fun _ => Byte.x00) 0 (mkRespNoti 0) 7 None demo_session
  = Some (None,
      [mkOutcome (Ok ()) None None;
       mkOutcome (Ok ()) (Some 5%Z) None;
       mkOutcome (Ok ()) (Some 5%Z) (Some (lit "hello"));
       mkOutcome (Ok ()) (Some 0%Z) None;
       mkOutcome (Err (User ())) None None]).
Proof.
  rewrite (@file_session_means FileCodec unit vec _ _ _ _ _ _ _ _ vec_IoBuffer vec_IoBufferLaws
    () () Le (fun _ => Byte.x00) 0 (mkRespNoti 0) 100); [reflexivity|..].
  - split; lia.
  - unfold i32_MAX; lia.
  - intros n Hn. unfold buf_alloc; simpl. destruct (Z.leb_spec n 1048576); [done|lia].
  - intros n Hn buf. unfold codec_encode_into; simpl. unfold u64_bytes; simpl.
    destruct (Z.leb_spec 0 n); [|lia]. destruct (Z.ltb_spec n (2 ^ 64)); [|lia].
    eexists _, _. split; [reflexivity|]. split; vm_compute; [reflexivity|discriminate].
  - lia.
  - vm_compute; split; discriminate.
  - repeat constructor; try (intros buf; eexists _, _; split; [reflexivity|vm_compute; discriminate]);
    vm_compute; discriminate.
  - simpl; lia.
  - apply unit_err_travels.
Defined.
