(* ===== verification/Syn.v ===== *)
(** * The syntax the macros read

    The part of the syntax tree of the syn crate (version 1) that the macros of
    macros/src and stream/macros/src match on: types, paths and their
    arguments, attributes, the signatures of methods, traits, impls, structs
    and enums.  What a macro does not look into is one constructor.  A macro
    that panics gives the text of the panic. *)

From S2P Require Import Prelude RustStd Text.

Definition ident := bytes.

(** ** Types *)

#[local] Unset Elimination Schemes.

Inductive Type_ :=
| TypeImplTrait (bounds : list TypeParamBound)
| TypePath (qself : bool) (path : Path)
| TypeTuple (elems : list Type_)
| TypeOther (tokens : bytes)
with TypeParamBound :=
| BoundTrait (path : Path)
| BoundLifetime (name : ident)
with Path :=
| mkPath (leading_colon : bool) (segments : list PathSegment)
with PathSegment :=
| mkSegment (id : ident) (arguments : PathArguments)
with PathArguments :=
| ArgsNone
| AngleBracketed (args : list GenericArgument)
| Parenthesized
with GenericArgument :=
| GenericType (ty : Type_)
| GenericBinding (id : ident) (ty : Type_)
| GenericOther (tokens : bytes).

#[local] Set Elimination Schemes.

Definition segments (p : Path) : list PathSegment := let 'mkPath _ s := p in s.
Definition leading_colon (p : Path) : bool := let 'mkPath c _ := p in c.
Definition seg_ident (s : PathSegment) : ident := let 'mkSegment i _ := s in i.
Definition seg_args (s : PathSegment) : PathArguments := let 'mkSegment _ a := s in a.

(** [path.segments.last()]: a parsed path has one. *)
Definition last_segment (p : Path) : option PathSegment := list.last (segments p).

(** [path.get_ident()] and [path.is_ident(i)] *)
Definition get_ident (p : Path) : option ident :=
  match segments p with
  | [mkSegment i ArgsNone] => if leading_colon p then None else Some i
  | _ => None
  end.

Definition is_ident (i : ident) (p : Path) : bool := bool_decide (get_ident p = Some i).

(** A path that is one plain name, and a named type with arguments. *)
Definition name_path (i : ident) : Path := mkPath false [mkSegment i ArgsNone].
Definition named (i : ident) (args : list Type_) : Type_ :=
  TypePath false (mkPath false [mkSegment i
    (match args with [] => ArgsNone | _ => AngleBracketed (GenericType <$> args) end)]).

(** ** Attributes *)

(** An integer literal is kept as its digits. *)
Inductive Lit := LitStr (s : bytes) | LitInt (digits : bytes) | LitOther.

Inductive Meta :=
| MetaPath (p : Path)
| MetaList (p : Path) (nested : list NestedMeta)
| MetaNameValue (p : Path) (l : Lit)
with NestedMeta :=
| NestedM (m : Meta)
| NestedLit (l : Lit).

(** [parse_meta] may fail. *)
Record Attribute := mkAttr { attr_path : Path; attr_meta : option Meta }.

Record Field := mkField { f_attrs : list Attribute; f_ident : ident; f_ty : Type_ }.

(** ** Methods, traits and impls *)

Inductive Pat := PatIdent (i : ident) | PatOther.
Inductive FnArg := Receiver | Typed (p : Pat) (ty : Type_).
Inductive ReturnType := ReturnDefault | ReturnTy (ty : Type_).

Record Signature := mkSig {
  sig_async : bool;
  sig_ident : ident;
  sig_inputs : list FnArg;
  sig_output : ReturnType;
}.

Inductive TraitItem := TraitMethod (s : Signature) (default : bool) | TraitOther.
Inductive ImplItem := ImplMethod (attrs : list Attribute) (s : Signature) | ImplOther.

Record ItemTrait := mkItemTrait {
  it_attrs : list Attribute;
  it_ident : ident;
  it_items : list TraitItem;
}.

Record ItemImpl := mkItemImpl {
  ii_trait : option Path;
  ii_self_ty : Type_;
  ii_items : list ImplItem;
}.

(** ** Panics of a macro *)

Abbreviation macroM A := (result A bytes).

Definition mbind_result {A B E} (m : result A E) (k : A -> result B E) : result B E :=
  match m with Ok a => k a | Err e => Err e end.

Notation "'let?' x := m 'in' k" := (mbind_result m (fun x => k))
  (at level 10, x name, m at level 100, k at level 200) : rpc_scope.

(** [o.expect(msg)] *)
Definition expect {A} (msg : bytes) (o : option A) : macroM A :=
  match o with Some a => Ok a | None => Err msg end.

(** Run over a list, stopping at the first panic. *)
Fixpoint mapR {A B E} (f : A -> result B E) (l : list A) : result (list B) E :=
  match l with
  | [] => Ok []
  | a :: l => let? b := f a in let? bs := mapR f l in Ok (b :: bs)
  end.

Lemma mapR_ok {A B E} (f : A -> result B E) l bs :
  mapR f l = Ok bs <-> Forall2 (fun a b => f a = Ok b) l bs.
Proof.
  revert bs. induction l as [|a l IH]; intros bs; simpl.
  - split; [intros E1; injection E1 as <-; constructor|]. intros H. by inversion H.
  - destruct (f a) as [b|e] eqn:Ef; simpl.
    + destruct (mapR f l) as [bs'|e] eqn:El; simpl.
      * split; [intros E1; injection E1 as <-; constructor; [done|by apply IH]|].
        intros H. inversion H as [|? b' ? bs2 Hb Hbs]; subst. rewrite Ef in Hb. injection Hb as <-.
        apply IH in Hbs. by injection Hbs as ->.
      * split; [done|]. intros H. inversion H as [|? b' ? bs2 Hb Hbs]; subst. by apply IH in Hbs.
    + split; [done|]. intros H. inversion H as [|? b' ? bs2 Hb Hbs]; subst. by rewrite Ef in Hb.
Qed.

Lemma mbind_result_ok {A B E} (m : result A E) (k : A -> result B E) b :
  mbind_result m k = Ok b <-> exists a, m = Ok a /\ k a = Ok b.
Proof. destruct m as [a|e]; simpl; naive_solver. Qed.
