(* ===== verification/MacroApi.v ===== *)
(** * macros/src: the expansion of [endpoint_async] and [service]

    What the two macros read from a trait and from an impl, when they panic,
    and what they generate: for each method of the trait a client method that
    calls the endpoint with "Trait.method", for each method of the impl a
    handler and an arm of the [match] on the method's name.  The code of the
    generated bodies is Api.v. *)

From S2P Require Import Prelude RustStd Text Errors Task Buffer Proto BufIO ServerTask TcpServer EndToEnd Api Syn.

(** ** Return types *)

(** The type of the first [Output = ..] among the arguments. *)
Fixpoint output_binding (args : list GenericArgument) : option Type_ :=
  match args with
  | [] => None
  | GenericBinding id ty :: args => if bool_decide (id = lit "Output") then Some ty else output_binding args
  | _ :: args => output_binding args
  end.

(** The first bound [Future<Output = ..>]. *)
Fixpoint future_output (bounds : list TypeParamBound) : option Type_ :=
  match bounds with
  | [] => None
  | BoundTrait path :: bounds =>
      match last_segment path with
      | Some (mkSegment id (AngleBracketed args)) =>
          if bool_decide (id = lit "Future") then
            match output_binding args with
            | Some ty => Some ty
            | None => future_output bounds
            end
          else future_output bounds
      | _ => future_output bounds
      end
  | _ :: bounds => future_output bounds
  end.

Definition get_result_type_from_future (ty : Type_) : option Type_ :=
  match ty with
  | TypeImplTrait bounds => future_output bounds
  | _ => None
  end.

(** [Result<_, RpcError..>], by name. *)
Definition check_result_type (ty : Type_) : bool :=
  match ty with
  | TypePath _ path =>
      match last_segment path with
      | Some (mkSegment id (AngleBracketed [_; GenericType (TypePath _ error)])) =>
          bool_decide (id = lit "Result")
          && match last_segment error with
             | Some seg => bool_decide (seg_ident seg = lit "RpcError")
             | None => false
             end
      | _ => false
      end
  | _ => false
  end.

Definition check_return_type (return_type : ReturnType) (returns_impl_future : bool) : bool :=
  match return_type with
  | ReturnTy ty =>
      if returns_impl_future then
        match get_result_type_from_future ty with
        | Some output => check_result_type output
        | None => false
        end
      else check_result_type ty
  | ReturnDefault => false
  end.

Definition returns_future (return_type : ReturnType) : bool :=
  match return_type with
  | ReturnTy ty => bool_decide (get_result_type_from_future ty <> None)
  | ReturnDefault => false
  end.

(** ** [endpoint_async] *)

(** A generated client method; it calls the endpoint with [cm_action] and a
    reference to the argument, or to [()]. *)
Record ClientMethod := mkClientMethod {
  cm_async : bool;                    (* [async fn], or [async move] inside *)
  cm_name : ident;
  cm_arg : option (ident * Type_);
  cm_output : ReturnType;
  cm_action : bytes;
}.

Record EndpointExpansion := mkEndpoint {
  ep_client : ident;
  ep_trait : ident;
  ep_async_trait : bool;
  ep_methods : list ClientMethod;
}.

Definition method_arg (inputs : list FnArg) (name : ident) : macroM (option (ident * Type_)) :=
  match inputs with
  | [_] => Err (lit "Method `" ++ name ++ lit "` has no parameters. Endpoint methods must have exactly one parameter besides &self.")
  | [_; Typed (PatIdent arg) ty] => Ok (Some (arg, ty))
  | [_; _] => Ok None
  | _ => Err (lit "Method `" ++ name ++ lit "` methods must have exactly one parameter besides &self.")
  end.

Definition client_method (trait_name : ident) (s : Signature) : macroM ClientMethod :=
  let? arg := method_arg (sig_inputs s) (sig_ident s) in
  let returns_impl_future := returns_future (sig_output s) in
  if check_return_type (sig_output s) returns_impl_future then
    Ok (mkClientMethod (negb returns_impl_future) (sig_ident s) arg (sig_output s)
          (service_method trait_name (sig_ident s)))
  else Err (lit "Method `" ++ sig_ident s ++ lit "` has invalid return type. Endpoint methods must return `Result<_, RpcError<_>>`.").

Fixpoint trait_methods (items : list TraitItem) : list Signature :=
  match items with
  | [] => []
  | TraitMethod s _ :: items => s :: trait_methods items
  | TraitOther :: items => trait_methods items
  end.

Definition generate_trait_impl (input : ItemTrait) : macroM (list ClientMethod) :=
  mapR (client_method (it_ident input)) (trait_methods (it_items input)).

Definition has_async_trait (attrs : list Attribute) : bool :=
  existsb (fun attr => existsb (fun seg => bool_decide (seg_ident seg = lit "async_trait"))
                         (segments (attr_path attr))) attrs.

Definition endpoint_async (client_name : ident) (input : ItemTrait) : macroM EndpointExpansion :=
  let? methods := generate_trait_impl input in
  Ok (mkEndpoint client_name (it_ident input) (has_async_trait (it_attrs input)) methods).

(** ** [service] *)

Record ServiceExpansion := mkServiceExp {
  sx_name : bytes;                             (* [SERVICE_NAME] *)
  sx_methods : list (ident * Type_);           (* the arms, with the argument to decode *)
}.

(** The name of the generated handler. *)
Definition handler_name (method : ident) : ident := lit "__handle_" ++ method.

Definition typed_args (inputs : list FnArg) : list Type_ :=
  omap (fun arg => match arg with Typed _ ty => Some ty | Receiver => None end) inputs.

Definition returns_pin (return_type : ReturnType) : bool :=
  match return_type with
  | ReturnTy (TypePath _ path) =>
      match last_segment path with
      | Some seg => bool_decide (seg_ident seg = lit "Pin") && (1 <? length (segments path))%nat
      | None => false
      end
  | _ => false
  end.

Definition handler_of (s : Signature) : macroM (ident * Type_) :=
  let? arg_ty := expect (lit "Method should have one argument besides &self") (head (typed_args (sig_inputs s))) in
  if sig_async s || returns_pin (sig_output s) || returns_future (sig_output s)
  then Ok (sig_ident s, arg_ty)
  else Err (lit "Service methods must be `async fn`, return `impl Future`, or be wrapped by `async_trait`. Method `" ++ sig_ident s ++ lit "` is not.").

(** The methods that are served: all of a trait impl, the [#[method]]s of an
    inherent one. *)
Definition served_methods (input : ItemImpl) : list Signature :=
  omap (fun item =>
    match item with
    | ImplMethod attrs s =>
        if bool_decide (ii_trait input <> None) || existsb (fun attr => is_ident (lit "method") (attr_path attr)) attrs
        then Some s else None
    | ImplOther => None
    end) (ii_items input).

Definition service_name (input : ItemImpl) : macroM bytes :=
  match ii_trait input with
  | Some path => let? seg := expect (lit "unwrap") (last_segment path) in Ok (seg_ident seg)
  | None =>
      match ii_self_ty input with
      | TypePath _ path => let? seg := expect (lit "unwrap") (last_segment path) in Ok (seg_ident seg)
      | _ => Err (lit "Expected a path for self_ty")
      end
  end.

Definition service_macro (input : ItemImpl) : macroM ServiceExpansion :=
  let? name := service_name input in
  let? methods := mapR handler_of (served_methods input) in
  Ok (mkServiceExp name methods).

(** ** [service_mux_struct]: an arm per field, by the field's [SERVICE_NAME] *)

Definition mux_arms (service_name_of : Type_ -> bytes) (fields : list Field) : list (bytes * ident) :=
  (fun f => (service_name_of (f_ty f), f_ident f)) <$> fields.

(** ** What is accepted *)

Lemma client_method_ok trait_name s cm :
  client_method trait_name s = Ok cm ->
  cm_name cm = sig_ident s /\ cm_output cm = sig_output s
  /\ cm_action cm = service_method trait_name (sig_ident s)
  /\ method_arg (sig_inputs s) (sig_ident s) = Ok (cm_arg cm).
Proof.
  unfold client_method. intros E. apply mbind_result_ok in E as (arg & Harg & E).
  destruct (check_return_type _ _); [|done]. by injection E as <-.
Qed.

Lemma trait_methods_elem items s : s ∈ trait_methods items <-> exists d, TraitMethod s d ∈ items.
Proof.
  induction items as [|[s' d|] items IH]; simpl.
  - split; [intros Hin; by apply not_elem_of_nil in Hin|intros [d Hin]; by apply not_elem_of_nil in Hin].
  - rewrite elem_of_cons, IH. setoid_rewrite elem_of_cons. naive_solver.
  - rewrite IH. setoid_rewrite elem_of_cons. naive_solver.
Qed.

Lemma endpoint_method client_name input ep s d :
  endpoint_async client_name input = Ok ep -> TraitMethod s d ∈ it_items input ->
  exists cm, cm ∈ ep_methods ep /\ client_method (it_ident input) s = Ok cm.
Proof.
  unfold endpoint_async. intros E Hin. apply mbind_result_ok in E as (ms & Hms & E). injection E as <-.
  apply mapR_ok in Hms. assert (s ∈ trait_methods (it_items input)) as Hs by (apply trait_methods_elem; eauto).
  apply list_elem_of_lookup in Hs as [i Hi]. destruct (Forall2_lookup_l _ _ _ _ _ Hms Hi) as (cm & Hcm & Heq).
  exists cm. split; [|done]. by eapply list_elem_of_lookup_2.
Qed.

(** The arms are the methods of the impl, in order. *)
Lemma service_arms input sx :
  service_macro input = Ok sx -> (sx_methods sx).*1 = sig_ident <$> served_methods input.
Proof.
  unfold service_macro. intros E. apply mbind_result_ok in E as (n & _ & E).
  apply mbind_result_ok in E as (ms & Hms & E). injection E as <-. simpl. apply mapR_ok in Hms.
  induction Hms as [|s [i t] l ms Hs Hms IH]; [done|]. csimpl. rewrite IH. f_equal.
  unfold handler_of in Hs. apply mbind_result_ok in Hs as (ty & _ & Hs). destruct (_ || _); [|done].
  by injection Hs as <- _.
Qed.

Lemma service_arm input sx s :
  service_macro input = Ok sx -> s ∈ served_methods input ->
  exists ty, (sig_ident s, ty) ∈ sx_methods sx /\ head (typed_args (sig_inputs s)) = Some ty.
Proof.
  unfold service_macro. intros E Hs. apply mbind_result_ok in E as (n & _ & E).
  apply mbind_result_ok in E as (ms & Hms & E). injection E as <-. simpl. apply mapR_ok in Hms.
  apply list_elem_of_lookup in Hs as [i Hi]. destruct (Forall2_lookup_l _ _ _ _ _ Hms Hi) as ([n' ty] & Hl & Heq).
  exists ty. unfold handler_of in Heq. apply mbind_result_ok in Heq as (ty' & Hty & Heq).
  destruct (_ || _); [|done]. injection Heq as <- ->. split; [by eapply list_elem_of_lookup_2|].
  unfold expect in Hty. destruct (head _); [|done]. by injection Hty as ->.
Qed.

Lemma served_trait input path :
  ii_trait input = Some path ->
  forall s, s ∈ served_methods input <-> exists attrs, ImplMethod attrs s ∈ ii_items input.
Proof.
  intros Ht s. unfold served_methods. rewrite list_elem_of_omap. rewrite Ht. split.
  - intros ([attrs s'|] & Hin & E); simpl in E; [|done]. injection E as ->. by eauto.
  - intros [attrs Hin]. exists (ImplMethod attrs s). split; [done|]. done.
Qed.

Lemma service_name_trait input path seg sx :
  service_macro input = Ok sx -> ii_trait input = Some path -> last_segment path = Some seg ->
  sx_name sx = seg_ident seg.
Proof.
  unfold service_macro, service_name. intros E Ht Hseg. rewrite Ht in E; simpl in E. rewrite Hseg in E. simpl in E.
  apply mbind_result_ok in E as (ms & _ & E). by injection E as <-.
Qed.

(** ** Client and server agree *)

Section agree.
Context {C : Type} (codec : C) (stale : nat -> byte).

Lemma find_method_name meth (ms : list (method C)) m : find_method meth ms = Some m -> m_name m = meth.
Proof. induction ms as [|m' ms IH]; simpl; [done|]. case_decide; [by intros [= ->]|done]. Qed.

Lemma find_method_none meth (ms : list (method C)) : find_method meth ms = None <-> meth ∉ m_name <$> ms.
Proof.
  induction ms as [|m ms IH]; csimpl; [split; [intros _ H; by apply not_elem_of_nil in H|done]|].
  case_decide as E; [subst; split; [done|intros H; by destruct H; left]|].
  rewrite IH, not_elem_of_cons. naive_solver.
Qed.

(** The code that [service] generates for the impl, running in a server: the
    methods behind the arms. *)
Definition runs_service (mux : ServiceMuxDyn) (sx : ServiceExpansion) (ms : list (method C)) : Prop :=
  m_name <$> ms = (sx_methods sx).*1
  /\ mux_map mux !! sx_name sx = Some (service_of codec (sx_name sx) ms).

(** C8: The code [endpoint_async] generates for a trait and the code [service]
    generates for an impl of it fit together.  For every method of the trait
    there is a client method of its name and argument; its call is dispatched,
    by the text "Trait.method" alone, to the handler of that method, which
    decodes the same argument type, and returns what the method returns.  A
    method the impl does not define (one it leaves to the trait's default) is
    not served: the caller gets [Method]. *)
Theorem endpoint_calls_service (client_name : ident) (tr : ItemTrait) (imp : ItemImpl) (path : Path)
    (seg : PathSegment) (ep : EndpointExpansion) (sx : ServiceExpansion) (ms : list (method C))
    (mux : ServiceMuxDyn) (s : Signature) (d : bool)
    (Hep : endpoint_async client_name tr = Ok ep) (Hsx : service_macro imp = Ok sx)
    (Himp : ii_trait imp = Some path /\ last_segment path = Some seg /\ seg_ident seg = it_ident tr)
    (Hdot : Byte.x2e ∉ it_ident tr) (Hmux : runs_service mux sx ms) (Hs : TraitMethod s d ∈ it_items tr) :
  exists cm, cm ∈ ep_methods ep /\ cm_name cm = sig_ident s
    /\ (forall self a ty, sig_inputs s = [self; Typed (PatIdent a) ty] ->
          cm_arg cm = Some (a, ty)
          /\ forall attrs s', ImplMethod attrs s' ∈ ii_items imp -> sig_ident s' = sig_ident s ->
               sig_inputs s' = [Receiver; Typed (PatIdent a) ty] -> (sig_ident s, ty) ∈ sx_methods sx)
    /\ (forall m (_ : CodecLaws C (m_arg m)) (_ : CodecLaws C (m_resp m)) (arg : m_arg m) (dflt : m_resp m) buf ebuf seq,
          find_method (sig_ident s) ms = Some m -> codec_encode codec arg = Ok buf ->
          (forall e, m_fn m arg = Err (User e) -> err_travels codec e) ->
          exists req resp, make_req codec (cm_action cm) arg = Some req
            /\ api_dispatch_req (ServiceMuxDyn_serve mux) (mkSvrReq seq (get_action (C := C) req) buf None)
               = Some (Ok (), [Ok resp])
            /\ encodes_clean stale codec resp ebuf seq (method_answer codec m arg)
            /\ caller_gets codec dflt req (method_answer codec m arg) = Some (method_outcome codec m arg dflt))
    /\ ((forall attrs s', ImplMethod attrs s' ∈ ii_items imp -> sig_ident s' <> sig_ident s) ->
        forall Req Resp E `(CodecLaws C Req, CodecLaws C Resp, RpcErrCodec C E) (arg : Req) (dflt : Resp) buf ebuf seq,
          codec_encode codec arg = Ok buf ->
          exists req resp r, make_req codec (cm_action cm) arg = Some req
            /\ api_dispatch_req (ServiceMuxDyn_serve mux) (mkSvrReq seq (get_action (C := C) req) buf None)
               = Some (Ok (), [Ok resp])
            /\ encodes_clean stale codec resp ebuf seq r
            /\ caller_gets (E := E) codec dflt req r = Some (Err (Rpc Method))).
Proof.
  destruct Himp as (Ht & Hseg & Hid). destruct Hmux as [Hnames Hmux].
  pose proof (service_name_trait _ _ _ _ Hsx Ht Hseg) as Hname. rewrite Hid in Hname. rewrite Hname in Hmux.
  destruct (endpoint_method _ _ _ _ _ Hep Hs) as (cm & Hcm & Hok).
  destruct (client_method_ok _ _ _ Hok) as (Hn & _ & Hact & Harg).
  exists cm. split; [done|]. split; [done|]. split; [|split].
  - intros self a ty Hin. rewrite Hin in Harg. simpl in Harg. injection Harg as <-. split; [done|].
    intros attrs s' Hs' Hn' Hin'. destruct (service_arm imp sx s' Hsx) as (ty' & Harm & Hty).
    + apply (served_trait imp path Ht). by eauto.
    + rewrite Hin' in Hty. simpl in Hty. injection Hty as <-. by rewrite <- Hn'.
  - intros m ? ? arg dflt buf ebuf seq Hm Henc Herr. pose proof (find_method_name _ _ _ Hm) as Hmn.
    destruct (api_call_result codec stale m ms (it_ident tr) buf ebuf mux arg dflt seq)
      as (req & resp & H1 & _ & H2 & H3 & H4); [done|done|by rewrite Hmn|done|done|].
    exists req, resp. rewrite Hact, <- Hmn. done.
  - intros Hnone Req Resp E ? ? ? ? ? arg dflt buf ebuf seq Henc.
    assert (find_method (sig_ident s) ms = None) as Hfind.
    { apply find_method_none. rewrite Hnames, (service_arms _ _ Hsx), list_elem_of_fmap.
      intros (s' & Heq & Hs'). apply (served_trait imp path Ht) in Hs' as [attrs Hs']. by eapply Hnone. }
    exists (call_task (it_ident tr) (sig_ident s) buf 0).
    destruct (mux_refuses codec stale (Resp := Resp) (E := E) dflt mux (call_task (it_ident tr) (sig_ident s) buf 0)
      (it_ident tr) (sig_ident s) buf ebuf seq Method) as (resp & r & Hr1 & Hr2 & Hr3); [done|done| |].
    { unfold call_fails. rewrite Hmux. exists ms. split; [done|]. by rewrite Hfind. }
    exists resp, r. unfold make_req. rewrite Henc, Hact. done.
Qed.
End agree.

(** ** A concrete trait *)

(** [trait Echo { async fn say(&self, text: Bytes) -> Result<Bytes, RpcError<Bytes>>;
                  async fn shout(..) -> .. { .. } }], the second with a
    default body; the impl defines the first. *)
Definition demo_result : Type_ :=
  named (lit "Result") [named (lit "Bytes") []; named (lit "RpcError") [named (lit "Bytes") []]].

Definition demo_sig (name : ident) : Signature :=
  mkSig true name [Receiver; Typed (PatIdent (lit "text")) (named (lit "Bytes") [])] (ReturnTy demo_result).

Definition demo_trait : ItemTrait :=
  mkItemTrait [] (lit "Echo") [TraitMethod (demo_sig (lit "say")) false; TraitMethod (demo_sig (lit "shout")) true].

Definition demo_impl : ItemImpl :=
  mkItemImpl (Some (name_path (lit "Echo"))) (named (lit "EchoImpl") []) [ImplMethod [] (demo_sig (lit "say"))].

Example endpoint_async_accepts :
  ep_methods <$> (match endpoint_async (lit "EchoClient") demo_trait with Ok e => Some e | Err _ => None end)
  = Some [mkClientMethod true (lit "say") (Some (lit "text", named (lit "Bytes") [])) (ReturnTy demo_result) (lit "Echo.say");
          mkClientMethod true (lit "shout") (Some (lit "text", named (lit "Bytes") [])) (ReturnTy demo_result) (lit "Echo.shout")].
Proof. reflexivity. Qed.

(** The cases the crate's own tests say must not compile: too many
    parameters, none, another return type, a method that is not async. *)
Example endpoint_async_refuses :
  is_ok (endpoint_async (lit "D") (mkItemTrait [] (lit "T") [TraitMethod (mkSig true (lit "foo")
    [Receiver; Typed (PatIdent (lit "a")) demo_result; Typed (PatIdent (lit "b")) demo_result] (ReturnTy demo_result)) false]))
    = false
  /\ is_ok (endpoint_async (lit "D") (mkItemTrait [] (lit "T") [TraitMethod (mkSig true (lit "foo") [Receiver] (ReturnTy demo_result)) false]))
    = false
  /\ is_ok (endpoint_async (lit "D") (mkItemTrait [] (lit "T") [TraitMethod (mkSig true (lit "foo")
    [Receiver; Typed (PatIdent (lit "a")) demo_result] (ReturnTy (named (lit "i32") []))) false])) = false
  /\ is_ok (service_macro (mkItemImpl None (named (lit "S") []) [ImplMethod [mkAttr (name_path (lit "method")) None]
    (mkSig false (lit "foo") [Receiver; Typed (PatIdent (lit "a")) demo_result] (ReturnTy demo_result))])) = false.
Proof. by vm_compute. Qed.

Definition demo_ep : EndpointExpansion :=
  match endpoint_async (lit "EchoClient") demo_trait with Ok e => e | Err _ => mkEndpoint [] [] false [] end.
Definition demo_sx : ServiceExpansion :=
  match service_macro demo_impl with Ok e => e | Err _ => mkServiceExp [] [] end.

(** "Echo.shout" was left to the trait: the server does not know it. *)
Example endpoint_calls_service_witness :
  exists cm, cm ∈ ep_methods demo_ep /\ cm_name cm = lit "shout"
    /\ exists req resp r, make_req Raw (cm_action cm) (lit "hi") = Some req
       /\ api_dispatch_req (ServiceMuxDyn_serve demo_mux) (mkSvrReq 7 (get_action (C := RawCodec) req) (lit "hi") None)
          = Some (Ok (), [Ok resp])
       /\ encodes_clean zeros Raw resp [] 7 r
       /\ caller_gets (Resp := bytes) (E := bytes) Raw [] req r = Some (Err (Rpc Method)).
Proof.
  destruct (endpoint_calls_service Raw zeros (lit "EchoClient") demo_trait demo_impl (name_path (lit "Echo"))
    (mkSegment (lit "Echo") ArgsNone) demo_ep demo_sx [demo_say] demo_mux (demo_sig (lit "shout")) true)
    as (cm & Hcm & Hn & _ & _ & Hd).
  - reflexivity.
  - reflexivity.
  - split; [reflexivity|]. split; reflexivity.
  - exact demo_no_dot.
  - split; reflexivity.
  - apply list_elem_of_further, list_elem_of_here.
  - exists cm. split; [exact Hcm|]. split; [exact Hn|].
    apply (Hd ltac:(intros attrs s' Hin; apply list_elem_of_singleton in Hin; injection Hin as -> ->; discriminate)
      bytes bytes bytes _ _ _ _ _ (lit "hi") [] (lit "hi") [] 7%Z). reflexivity.
Defined.
