(* ===== verification/MacroStream.v ===== *)
(** * stream/macros/src: the expansion of [client_task], [client_task_enum] and [server_task_enum]

    What the macros read from the struct or enum they are applied to, when
    they panic, and which fields, types and actions the generated impls are
    about.  The generated code itself is ClientTaskMacro.v (a struct) and
    TaskEnum.v (an enum). *)

From S2P Require Import Prelude RustStd Text Task Proto Syn.

(** ** [client_task] *)

(** The tags of [#[field(..)]]; others are ignored. *)
Inductive FieldTag := TagCommon | TagReq | TagResp | TagReqBlob | TagRespBlob | TagAction | TagRes | TagNoti.

#[export] Instance FieldTag_eq_dec : EqDecision FieldTag.
Proof. solve_decision. Defined.

Definition field_tag (i : ident) : option FieldTag :=
  if bool_decide (i = lit "common") then Some TagCommon
  else if bool_decide (i = lit "req") then Some TagReq
  else if bool_decide (i = lit "resp") then Some TagResp
  else if bool_decide (i = lit "req_blob") then Some TagReqBlob
  else if bool_decide (i = lit "resp_blob") then Some TagRespBlob
  else if bool_decide (i = lit "action") then Some TagAction
  else if bool_decide (i = lit "res") then Some TagRes
  else if bool_decide (i = lit "noti") then Some TagNoti
  else None.

(** The tags of an attribute, when it is a [#[field(..)]]. *)
Definition attr_tags (attr : Attribute) : list FieldTag :=
  if is_ident (lit "field") (attr_path attr) then
    match attr_meta attr with
    | Some (MetaList _ nested) =>
        omap (fun n => match n with NestedM (MetaPath p) => get_ident p ≫= field_tag | _ => None end) nested
    | _ => []
    end
  else [].

(** A tag, with the name and type of its field, in the order of the source. *)
Abbreviation tagged_field := (FieldTag * (ident * Type_))%type.

Definition field_events (f : Field) : list tagged_field :=
  (fun t => (t, (f_ident f, f_ty f))) <$> (f_attrs f ≫= attr_tags).

(** The struct's own fields keep their other attributes. *)
Definition strip_field_attrs (f : Field) : Field :=
  mkField (filter (fun a => is_ident (lit "field") (attr_path a) = false) (f_attrs f)) (f_ident f) (f_ty f).

Record Roles := mkRoles {
  r_common : option (ident * Type_);
  r_req : option (ident * Type_);
  r_resp : option (ident * Type_);
  r_req_blob : option (ident * Type_);
  r_resp_blob : option (ident * Type_);
  r_action : option (ident * Type_);
  r_res : option (ident * Type_);
  r_noti : option (ident * Type_);
}.

Definition no_roles : Roles := mkRoles None None None None None None None None.

Definition take_role (r : Roles) (e : tagged_field) : macroM Roles :=
  let '(tag, f) := e in
  let 'mkRoles common req resp req_blob resp_blob action res noti := r in
  match tag with
  | TagCommon => Ok (mkRoles (Some f) req resp req_blob resp_blob action res noti)
  | TagReq => Ok (mkRoles common (Some f) resp req_blob resp_blob action res noti)
  | TagResp => Ok (mkRoles common req (Some f) req_blob resp_blob action res noti)
  | TagReqBlob => Ok (mkRoles common req resp (Some f) resp_blob action res noti)
  | TagRespBlob => Ok (mkRoles common req resp req_blob (Some f) action res noti)
  | TagAction =>
      match action with
      | Some _ => Err (lit "Only one #[field(action)] is allowed.")
      | None => Ok (mkRoles common req resp req_blob resp_blob (Some f) res noti)
      end
  | TagRes => Ok (mkRoles common req resp req_blob resp_blob action (Some f) noti)
  | TagNoti => Ok (mkRoles common req resp req_blob resp_blob action res (Some f))
  end.

Fixpoint take_roles (r : Roles) (es : list tagged_field) : macroM Roles :=
  match es with
  | [] => Ok r
  | e :: es => let? r := take_role r e in take_roles r es
  end.

(** [#[client_task(debug, action)]] *)
Definition is_debug (arg : NestedMeta) : bool :=
  match arg with NestedM (MetaPath p) => is_ident (lit "debug") p | _ => false end.

Fixpoint take_args (gen_debug : bool) (static_action : option NestedMeta) (args : list NestedMeta)
    : macroM (bool * option NestedMeta) :=
  match args with
  | [] => Ok (gen_debug, static_action)
  | arg :: args =>
      if is_debug arg then
        if gen_debug then Err (lit "Duplicate `debug` attribute argument")
        else take_args true static_action args
      else
        match static_action with
        | Some _ => Err (lit "Only one action can be specified.")
        | None => take_args gen_debug (Some arg) args
        end
  end.

Definition check_option_inner_type (ty : Type_) : bool :=
  match ty with
  | TypePath false (mkPath false [mkSegment id (AngleBracketed [GenericType _])]) =>
      bool_decide (id = lit "Option")
  | _ => false
  end.

(** Where the generated [get_action] takes the action from. *)
Inductive ActionImpl :=
| FieldStr (f : ident)        (* [RpcAction::Str(&self.f)] *)
| FieldNum (f : ident)        (* [RpcAction::Num(self.f as i32)] *)
| StaticStr (s : bytes)
| StaticNum (n : Z)
| StaticPath (p : Path).      (* [RpcAction::Num(p as i32)] *)

Definition field_action_impl (f : ident * Type_) : macroM ActionImpl :=
  match f.2 with
  | TypePath _ path =>
      match last_segment path with
      | Some seg => if bool_decide (seg_ident seg = lit "String") then Ok (FieldStr f.1) else Ok (FieldNum f.1)
      | None => Err (lit "Unsupported type for #[field(action)]")
      end
  | _ => Err (lit "Unsupported type for #[field(action)]")
  end.

Definition static_action_impl (a : NestedMeta) : macroM ActionImpl :=
  match a with
  | NestedLit (LitStr s) => Ok (StaticStr s)
  | NestedLit (LitInt digits) =>
      let? n := expect (lit "Invalid integer literal for action") (parse_i32 digits) in Ok (StaticNum n)
  | NestedM (MetaPath p) => Ok (StaticPath p)
  | _ => Err (lit "Unsupported action type in #[action(...)]. Only string/integer literals and enum variants are supported.")
  end.

(** The arguments in angle brackets of a path that ends in [name]. *)
Definition args_of (name : ident) (not_path not_name not_angle : bytes) (ty : Type_) : macroM (list GenericArgument) :=
  match ty with
  | TypePath _ path =>
      let? seg := expect (lit "type path must have segments") (last_segment path) in
      if bool_decide (seg_ident seg = name) then
        match seg_args seg with
        | AngleBracketed args => Ok args
        | _ => Err not_angle
        end
      else Err not_name
  | _ => Err not_path
  end.

Definition first_type (msg : bytes) (args : list GenericArgument) : macroM Type_ :=
  match args with
  | GenericType ty :: _ => Ok ty
  | _ => Err msg
  end.

(** [E] of [Option<Result<(), RpcError<E>>>] *)
Definition res_error_type (ty : Type_) : macroM Type_ :=
  let? opt := args_of (lit "Option") (lit "res field must be a path type") (lit "res field must be an Option")
                (lit "Option needs angle bracketed arguments") ty in
  let? inner := first_type (lit "Option needs a type argument") opt in
  let? res := args_of (lit "Result") (lit "res field's inner type must be a Result")
                (lit "res field must be an Option<Result<...>>") (lit "Result needs angle bracketed arguments") inner in
  match res with
  | [ok; err] =>
      match ok with
      | GenericType (TypeTuple []) =>
          match err with
          | GenericType ty =>
              let? rpc := args_of (lit "RpcError") (lit "Result's error type must be RpcError")
                            (lit "Result's error type must be RpcError")
                            (lit "RpcError needs angle bracketed arguments") ty in
              first_type (lit "RpcError needs a type argument") rpc
          | _ => Err (lit "Could not get error type from Result")
          end
      | _ => Err (lit "Result's Ok type must be ()")
      end
  | _ => Err (lit "Result needs two type arguments")
  end.

(** [T] of [Option<MTx<T>>] *)
Definition noti_inner_type (ty : Type_) : macroM Type_ :=
  let? opt := args_of (lit "Option") (lit "noti field must be a path type")
                (lit "noti field must be of type Option<MTx<T>>") (lit "Option needs angle bracketed arguments") ty in
  let? inner := first_type (lit "Option needs a type argument") opt in
  let? mtx := args_of (lit "MTx") (lit "Inner type of Option must be a path type") (lit "Inner type of Option must be MTx")
                (lit "MTx needs angle bracketed arguments") inner in
  first_type (lit "MTx needs a type argument") mtx.

(** The impls that are generated: the action, the result and its receiver, and
    the fields behind the task interface. *)
Record DoneImpl := mkDoneImpl { di_res : ident; di_noti : ident; di_error : Type_; di_into : Type_ }.

Record ClientTaskExpansion := mkClientTaskExp {
  ct_fields : list Field;
  ct_debug : bool;
  ct_action : option ActionImpl;
  ct_done : option DoneImpl;
  ct_common : ident * Type_;
  ct_req : ident;
  ct_resp : ident;
  ct_req_blob : option ident;
  ct_resp_blob : option ident;
}.

Definition action_impl (field_action : option (ident * Type_)) (static_action : option NestedMeta)
    : macroM (option ActionImpl) :=
  match field_action, static_action with
  | Some f, _ => let? a := field_action_impl f in Ok (Some a)
  | None, Some s => let? a := static_action_impl s in Ok (Some a)
  | None, None => Ok None
  end.

Definition done_impl (res noti : option (ident * Type_)) : macroM (option DoneImpl) :=
  match res, noti with
  | Some (res, res_ty), Some (noti, noti_ty) =>
      let? error := res_error_type res_ty in
      let? into := noti_inner_type noti_ty in
      Ok (Some (mkDoneImpl res noti error into))
  | _, _ => Ok None
  end.

(** [fields]: the named fields of the struct, none when it is something else. *)
Definition client_task_impl (args : list NestedMeta) (struct_name : ident) (fields : list Field)
    : macroM ClientTaskExpansion :=
  let? a := take_args false None args in
  let '(gen_debug, static_action) := a in
  let? r := take_roles no_roles (fields ≫= field_events) in
  if bool_decide (r_action r <> None) && bool_decide (static_action <> None) then
    Err (lit "Cannot specify both #[field(action)] and #[client_task(action = ...)] attributes.")
  else if xorb (bool_decide (r_res r <> None)) (bool_decide (r_noti r <> None)) then
    Err (lit "#[field(res)] and #[field(noti)] must be specified together.")
  else
    let? common := expect (lit "common field must be tagged with #[field(common)]") (r_common r) in
    let? req := expect (lit "req field must be tagged with #[field(req)]") (r_req r) in
    let? resp := expect (lit "resp field must be tagged with #[field(resp)]") (r_resp r) in
    if check_option_inner_type resp.2 then
      let? action := action_impl (r_action r) static_action in
      let? done := done_impl (r_res r) (r_noti r) in
      Ok (mkClientTaskExp (strip_field_attrs <$> fields) gen_debug action done common req.1 resp.1
            (fst <$> r_req_blob r) (fst <$> r_resp_blob r))
    else Err (lit "`" ++ struct_name ++ lit "::" ++ resp.1 ++ lit "` resp field must be of type Option<T>").

(** ** [client_task_enum] and [server_task_enum] *)

Inductive VariantFields := FieldsUnnamed (tys : list Type_) | FieldsOther.
Record Variant := mkVariant { v_attrs : list Attribute; v_ident : ident; v_fields : VariantFields }.

(** The type a variant wraps. *)
Definition inner_type (v : Variant) : macroM Type_ :=
  match v_fields v with
  | FieldsUnnamed [ty] => Ok ty
  | _ => Err (lit "Enum variants must be tuple-style with a single field")
  end.

(** The client's [get_action_attribute]: the first usable [#[action(..)]]. *)
Fixpoint get_action_attribute (attrs : list Attribute) : macroM (option NestedMeta) :=
  match attrs with
  | [] => Ok None
  | attr :: attrs =>
      if is_ident (lit "action") (attr_path attr) then
        match attr_meta attr with
        | Some (MetaList _ (NestedLit l :: rest)) =>
            match rest with
            | [] => Ok (Some (NestedLit l))
            | _ => Err (lit "Only one action is allowed per variant")
            end
        | Some (MetaList _ (NestedM (MetaPath p) :: _)) => Ok (Some (NestedM (MetaPath p)))
        | _ => get_action_attribute attrs
        end
      else get_action_attribute attrs
  end.

(** An arm of the client's [get_action]: the literal is passed on as it is
    written, or the task inside is asked. *)
Inductive ClientArm := ArmInt (digits : bytes) | ArmStr (s : bytes) | ArmPath (p : Path) | ArmInner.

Definition client_arm (action : option NestedMeta) : macroM ClientArm :=
  match action with
  | Some (NestedLit (LitInt d)) => Ok (ArmInt d)
  | Some (NestedLit (LitStr s)) => Ok (ArmStr s)
  | Some (NestedLit LitOther) => Err (lit "Unsupported action type")
  | Some (NestedM (MetaPath p)) => Ok (ArmPath p)
  | Some (NestedM _) => Err (lit "Unsupported action type")
  | None => Ok ArmInner
  end.

Section enums.
(** The text of a type, as quote prints its tokens. *)
Variable type_text : Type_ -> bytes.

Definition duplicate_msg (text enum_name : bytes) : bytes :=
  lit "Duplicate sub-type `" ++ text ++ lit "` found in enum `" ++ enum_name
  ++ lit "`. `From` implementation cannot be generated for duplicate sub-types.".

(** One pass over the variants, with the types seen so far. *)
Fixpoint client_variants (enum_name : ident) (seen : list bytes) (vs : list Variant)
    : macroM (list (ident * Type_ * ClientArm)) :=
  match vs with
  | [] => Ok []
  | v :: vs =>
      let? ty := inner_type v in
      if bool_decide (type_text ty ∈ seen) then Err (duplicate_msg (type_text ty) enum_name)
      else
        let? action := get_action_attribute (v_attrs v) in
        let? arm := client_arm action in
        let? arms := client_variants enum_name (type_text ty :: seen) vs in
        Ok ((v_ident v, ty, arm) :: arms)
  end.

(** [variants]: [None] when the item is not an enum. *)
Definition client_task_enum_impl (error_ty : option Type_) (enum_name : ident) (variants : option (list Variant))
    : macroM (Type_ * list (ident * Type_ * ClientArm)) :=
  let? error := expect (lit "#[client_task_enum] requires an `error = <Type>` attribute") error_ty in
  let? vs := expect (lit "#[client_task_enum] can only be applied to enums") variants in
  let? arms := client_variants enum_name [] vs in
  Ok (error, arms).

(** *** The attributes of [server_task_enum], token by token *)

Inductive AttrTok := TokIdent (i : ident) | TokEq | TokComma | TokType (ty : Type_) | TokOther.

Record ServerTaskEnumAttrs := mkEnumAttrs {
  ea_req : bool;
  ea_resp : bool;
  ea_resp_type : option Type_;
  ea_error : option Type_;
}.

(** A type after [=]; one that is a name is an identifier to the lexer. *)
Definition tok_type (t : AttrTok) : option Type_ :=
  match t with
  | TokIdent i => Some (named i [])
  | TokType ty => Some ty
  | _ => None
  end.

Fixpoint parse_enum_attrs (a : ServerTaskEnumAttrs) (toks : list AttrTok) : macroM ServerTaskEnumAttrs :=
  match toks with
  | [] => Ok a
  | TokComma :: toks => parse_enum_attrs a toks
  | TokIdent i :: toks =>
      if bool_decide (i = lit "req") then parse_enum_attrs (mkEnumAttrs true (ea_resp a) (ea_resp_type a) (ea_error a)) toks
      else if bool_decide (i = lit "resp") then parse_enum_attrs (mkEnumAttrs (ea_req a) true (ea_resp_type a) (ea_error a)) toks
      else if bool_decide (i = lit "resp_type") then
        match toks with
        | TokEq :: t :: toks =>
            match tok_type t with
            | Some ty => parse_enum_attrs (mkEnumAttrs (ea_req a) (ea_resp a) (Some ty) (ea_error a)) toks
            | None => Err (lit "expected type")
            end
        | [TokEq] => Err (lit "expected type")
        | _ => Err (lit "expected `=`")
        end
      else if bool_decide (i = lit "error") then
        match toks with
        | TokEq :: t :: toks =>
            match tok_type t with
            | Some ty => parse_enum_attrs (mkEnumAttrs (ea_req a) (ea_resp a) (ea_resp_type a) (Some ty)) toks
            | None => Err (lit "expected type")
            end
        | [TokEq] => Err (lit "expected type")
        | _ => Err (lit "expected `=`")
        end
      else Err (lit "unexpected attribute: " ++ i)
  | _ => Err (lit "unexpected token")
  end.

Definition ServerTaskEnumAttrs_parse (toks : list AttrTok) : macroM (ServerTaskEnumAttrs * Type_) :=
  let? a := parse_enum_attrs (mkEnumAttrs false false None None) toks in
  let? error := expect (lit "#[server_task_enum] requires an `error = <Type>` attribute") (ea_error a) in
  Ok (a, error).

(** The server's [get_action_attribute]: all actions of the first non-empty one. *)
Fixpoint get_action_attributes (attrs : list Attribute) : list NestedMeta :=
  match attrs with
  | [] => []
  | attr :: attrs =>
      if is_ident (lit "action") (attr_path attr) then
        match attr_meta attr with
        | Some (MetaList _ (n :: nested)) => n :: nested
        | _ => get_action_attributes attrs
        end
      else get_action_attributes attrs
  end.

Definition server_arm (a : NestedMeta) : macroM ActionImpl :=
  match a with
  | NestedLit (LitStr s) => Ok (StaticStr s)
  | NestedLit (LitInt digits) =>
      let? n := expect (lit "Invalid integer literal for action") (parse_i32 digits) in Ok (StaticNum n)
  | NestedM (MetaPath p) => Ok (StaticPath p)
  | _ => Err (lit "Unsupported action type for decode_arms. Only string/integer literals and enum variants are supported.")
  end.

(** The decode arms of a variant, and its [get_action]: the one action, or
    [None] to ask the task inside. *)
Definition server_variant_arms (has_req : bool) (v : Variant) : macroM (list ActionImpl * option ActionImpl) :=
  if has_req then
    let? arms := mapR server_arm (get_action_attributes (v_attrs v)) in
    match arms with
    | [] => Err (lit "Must specify #[action] attribute for req case")
    | [a] => Ok (arms, Some a)
    | _ => Ok (arms, None)
    end
  else Ok ([], None).

Record ServerVariant := mkServerVariantExp {
  sv_ident : ident;
  sv_type : Type_;
  sv_arms : list ActionImpl;
  sv_get_action : option ActionImpl;
}.

Fixpoint server_variants (enum_name : ident) (has_req : bool) (types : list bytes) (vs : list Variant)
    : macroM (list ServerVariant) :=
  match vs with
  | [] => Ok []
  | v :: vs =>
      let? ty := inner_type v in
      let? arms := server_variant_arms has_req v in
      if bool_decide (1 < length (filter (fun t => t = type_text ty) types))
      then Err (duplicate_msg (type_text ty) enum_name)
      else
        let? rest := server_variants enum_name has_req types vs in
        Ok (mkServerVariantExp (v_ident v) ty arms.1 arms.2 :: rest)
  end.

(** [None] as response type stands for the enum itself. *)
Record ServerEnumExpansion := mkServerEnumExp {
  sn_req : bool;
  sn_resp : bool;
  sn_resp_type : option Type_;
  sn_error : Type_;
  sn_variants : list ServerVariant;
}.

Definition server_task_enum_impl (toks : list AttrTok) (enum_name : ident) (variants : option (list Variant))
    : macroM ServerEnumExpansion :=
  let? vs := expect (lit "#[server_task_enum] can only be applied to enums") variants in
  let? types := mapR inner_type vs in
  let? attrs := ServerTaskEnumAttrs_parse toks in
  let '(a, error) := attrs in
  let? resp_type :=
    (if ea_resp a then
       match ea_resp_type a with
       | Some _ => Err (lit "Cannot specify 'resp_type' when 'resp' is present. Response type is Self.")
       | None => Ok None
       end
     else
       let? ty := expect (lit "resp_type must be specified when 'resp' is not present") (ea_resp_type a) in
       Ok (Some ty)) in
  let? svs := server_variants enum_name (ea_req a) (type_text <$> types) vs in
  Ok (mkServerEnumExp (ea_req a) (ea_resp a) resp_type error svs).
End enums.

(** ** The fields behind the generated code *)

(** The fields that carry a tag, in order. *)
Definition tagged (tag : FieldTag) (es : list tagged_field) : list (ident * Type_) :=
  snd <$> filter (fun e => e.1 = tag) es.

(** The last one counts. *)
Definition role (tag : FieldTag) (es : list tagged_field) (before : option (ident * Type_)) : option (ident * Type_) :=
  match list.last (tagged tag es) with Some f => Some f | None => before end.

Lemma role_cons tag e es before :
  role tag (e :: es) before = role tag es (if decide (e.1 = tag) then Some e.2 else before).
Proof.
  unfold role, tagged. rewrite filter_cons. destruct (decide (e.1 = tag)); [|done]. csimpl. rewrite list.last_cons.
  by destruct (list.last _).
Qed.

Lemma tagged_cons tag e es :
  tagged tag (e :: es) = (if decide (e.1 = tag) then [e.2] else []) ++ tagged tag es.
Proof. unfold tagged. rewrite filter_cons. by destruct (decide (e.1 = tag)). Qed.

Lemma role_none tag es : role tag es None = list.last (tagged tag es).
Proof. unfold role. by destruct (list.last _). Qed.

Definition roles_of (es : list tagged_field) (r : Roles) : Roles :=
  mkRoles (role TagCommon es (r_common r)) (role TagReq es (r_req r)) (role TagResp es (r_resp r))
    (role TagReqBlob es (r_req_blob r)) (role TagRespBlob es (r_resp_blob r)) (role TagAction es (r_action r))
    (role TagRes es (r_res r)) (role TagNoti es (r_noti r)).

(** The scan of the fields: each role goes to the last field that has its tag,
    and at most one field may be the action. *)
Lemma take_roles_spec es r :
  take_roles r es
  = if bool_decide (length (tagged TagAction es) <= match r_action r with Some _ => 0 | None => 1 end)
    then Ok (roles_of es r) else Err (lit "Only one #[field(action)] is allowed.").
Proof.
  revert r. induction es as [|[tag f] es IH]; intros r.
  - rewrite bool_decide_eq_true_2 by (destruct (r_action r); cbn; lia). by destruct r.
  - cbn [take_roles]. destruct r as [c q p qb pb a rs n]. rewrite tagged_cons. unfold roles_of.
    rewrite !role_cons. cbn [r_common r_req r_resp r_req_blob r_resp_blob r_action r_res r_noti fst snd].
    destruct tag; cbn [take_role mbind_result]; try (rewrite IH; reflexivity).
    rewrite !(decide_True (P := TagAction = TagAction)) by done. destruct a as [a|]; cbn [mbind_result app length].
    + rewrite bool_decide_eq_false_2; [done|]. lia.
    + rewrite IH. cbn [r_action]. case_bool_decide as H1; case_bool_decide as H2; try done; lia.
Qed.

(** *** The arguments *)

Definition debug_args (args : list NestedMeta) : list NestedMeta := filter (fun a => is_debug a = true) args.
Definition action_args (args : list NestedMeta) : list NestedMeta := filter (fun a => is_debug a = false) args.

Lemma take_args_ok g s args r :
  take_args g s args = Ok r <->
  length (debug_args args) + (if g then 1 else 0) <= 1
  /\ length (action_args args) + (match s with Some _ => 1 | None => 0 end) <= 1
  /\ r = (g || bool_decide (length (debug_args args) = 1), match s with Some _ => s | None => head (action_args args) end).
Proof.
  revert g s. induction args as [|arg args IH]; intros g s.
  - simpl. rewrite orb_false_r. split; [intros [= <-]|intros (_ & _ & ->)].
    + split; [destruct g; lia|]. split; [destruct s; lia|]. by destruct s.
    + by destruct s.
  - cbn [take_args]. unfold debug_args, action_args. rewrite !filter_cons.
    destruct (is_debug arg) eqn:Ed.
    + rewrite decide_True, decide_False by done. fold (debug_args args) (action_args args). cbn [length].
      destruct g.
      * split; [done|]. intros [Hc _]. lia.
      * rewrite IH. split; intros (H1 & H2 & ->); (split; [lia|split; [done|]]);
          assert (length (debug_args args) = 0) as -> by lia; done.
    + rewrite decide_False, decide_True by done. fold (debug_args args) (action_args args). cbn [length].
      destruct s as [s|].
      * split; [done|]. intros (_ & Hc & _). lia.
      * rewrite IH. split; intros (H1 & H2 & ->); (split; [done|split; [lia|done]]).
Qed.

(** *** The shapes of types *)

(** A path that ends in [name<args>]. *)
Definition path_with (name : ident) (args : list GenericArgument) (ty : Type_) : Prop :=
  exists q p, ty = TypePath q p /\ last_segment p = Some (mkSegment name (AngleBracketed args)).

Lemma args_of_ok name a b c ty args : args_of name a b c ty = Ok args <-> path_with name args ty.
Proof.
  unfold args_of, path_with. split.
  - destruct ty as [|q p| |]; try done. intros E. apply mbind_result_ok in E as (seg & Hseg & E).
    unfold expect in Hseg. destruct (last_segment p) as [seg'|] eqn:El; [|done]. injection Hseg as ->.
    destruct seg as [i sa]. simpl in E. case_bool_decide as Hi; [|done]. subst i.
    destruct sa as [|args'|]; try done. injection E as ->. by eauto.
  - intros (q & p & -> & El). rewrite El. simpl. by rewrite bool_decide_eq_true_2.
Qed.

Lemma first_type_ok msg args ty : first_type msg args = Ok ty <-> exists rest, args = GenericType ty :: rest.
Proof.
  split.
  - destruct args as [|[t|i t|o] rest]; try done. intros [= ->]. by eauto.
  - by intros [rest ->].
Qed.

(** [Option<Result<(), RpcError<E>>>] and [Option<MTx<T>>], by name. *)
Definition res_shape (ty error : Type_) : Prop :=
  exists inner opt err rest, path_with (lit "Option") (GenericType inner :: opt) ty
    /\ path_with (lit "Result") [GenericType (TypeTuple []); GenericType err] inner
    /\ path_with (lit "RpcError") (GenericType error :: rest) err.

Definition noti_shape (ty into : Type_) : Prop :=
  exists inner opt rest, path_with (lit "Option") (GenericType inner :: opt) ty
    /\ path_with (lit "MTx") (GenericType into :: rest) inner.

Lemma res_error_type_ok ty error : res_error_type ty = Ok error <-> res_shape ty error.
Proof.
  unfold res_error_type, res_shape. rewrite mbind_result_ok. split.
  - intros (opt & Hopt & E). apply args_of_ok in Hopt. apply mbind_result_ok in E as (inner & Hin & E).
    apply first_type_ok in Hin as [rest ->]. apply mbind_result_ok in E as (res & Hres & E). apply args_of_ok in Hres.
    destruct res as [|ok [|err [|x res]]]; try done. destruct ok as [[| |[|t ts]|]| |]; try done.
    destruct err as [err| |]; try done. apply mbind_result_ok in E as (rpc & Hrpc & E). apply args_of_ok in Hrpc.
    apply first_type_ok in E as [rest' ->]. by eauto 10.
  - intros (inner & opt & err & rest & H1 & H2 & H3). eexists. split; [by apply args_of_ok|]. simpl.
    apply mbind_result_ok. eexists. split; [by apply args_of_ok|]. simpl.
    apply mbind_result_ok. eexists. split; [by apply args_of_ok|]. done.
Qed.

Lemma noti_inner_type_ok ty into : noti_inner_type ty = Ok into <-> noti_shape ty into.
Proof.
  unfold noti_inner_type, noti_shape. rewrite mbind_result_ok. split.
  - intros (opt & Hopt & E). apply args_of_ok in Hopt. apply mbind_result_ok in E as (inner & Hin & E).
    apply first_type_ok in Hin as [rest ->]. apply mbind_result_ok in E as (mtx & Hmtx & E). apply args_of_ok in Hmtx.
    apply first_type_ok in E as [rest' ->]. by eauto 10.
  - intros (inner & opt & rest & H1 & H2). eexists. split; [by apply args_of_ok|]. simpl.
    apply mbind_result_ok. eexists. split; [by apply args_of_ok|]. done.
Qed.

Lemma check_option_ok ty : check_option_inner_type ty = true <-> exists t, ty = named (lit "Option") [t].
Proof.
  split.
  - destruct ty as [|[] [[] [|[i [|[|[t| |] [|x args]]|]] [|y segs]]]| |]; try done. simpl.
    case_bool_decide as Hi; [|done]. subst. by exists t.
  - intros [t ->]. done.
Qed.

(** *** What [client_task] accepts, and what it generates *)

Record client_task_spec (args : list NestedMeta) (fields : list Field) (e : ClientTaskExpansion)
    (es := fields ≫= field_events) : Prop := {
  cs_fields : ct_fields e = strip_field_attrs <$> fields;
  cs_debug : length (debug_args args) = if ct_debug e then 1 else 0;
  cs_common : list.last (tagged TagCommon es) = Some (ct_common e);
  cs_req : exists ty, list.last (tagged TagReq es) = Some (ct_req e, ty);
  cs_resp : exists t, list.last (tagged TagResp es) = Some (ct_resp e, named (lit "Option") [t]);
  cs_req_blob : ct_req_blob e = fst <$> list.last (tagged TagReqBlob es);
  cs_resp_blob : ct_resp_blob e = fst <$> list.last (tagged TagRespBlob es);
  cs_action :
    match tagged TagAction es, action_args args with
    | [], [] => ct_action e = None
    | [f], [] => exists a, field_action_impl f = Ok a /\ ct_action e = Some a
    | [], [s] => exists a, static_action_impl s = Ok a /\ ct_action e = Some a
    | _, _ => False
    end;
  cs_done :
    match list.last (tagged TagRes es), list.last (tagged TagNoti es) with
    | None, None => ct_done e = None
    | Some (r, res_ty), Some (n, noti_ty) =>
        exists error into, res_shape res_ty error /\ noti_shape noti_ty into
          /\ ct_done e = Some (mkDoneImpl r n error into)
    | _, _ => False
    end;
}.

Lemma done_impl_ok res noti d :
  xorb (bool_decide (res <> None)) (bool_decide (noti <> None)) = false /\ done_impl res noti = Ok d <->
  match res, noti with
  | None, None => d = None
  | Some (r, res_ty), Some (n, noti_ty) =>
      exists error into, res_shape res_ty error /\ noti_shape noti_ty into /\ d = Some (mkDoneImpl r n error into)
  | _, _ => False
  end.
Proof.
  destruct res as [[r rty]|], noti as [[n nty]|]; cbn [done_impl]; try (split; [by intros [? ?]|done]).
  - split.
    + intros [_ E]. apply mbind_result_ok in E as (error & He & E). apply mbind_result_ok in E as (into & Hi & E).
      injection E as <-. apply res_error_type_ok in He. apply noti_inner_type_ok in Hi. by eauto 10.
    + intros (error & into & He & Hi & ->). split; [done|]. apply res_error_type_ok in He. rewrite He. simpl.
      apply noti_inner_type_ok in Hi. by rewrite Hi.
  - split; [by intros [_ [= <-]]|by intros ->].
Qed.

Lemma action_impl_ok fs ss a :
  length fs <= 1 -> length ss <= 1 ->
  bool_decide (list.last fs <> None) && bool_decide (head ss <> None) = false
    /\ action_impl (list.last fs) (head ss) = Ok a <->
  match fs, ss with
  | [], [] => a = None
  | [f], [] => exists x, field_action_impl f = Ok x /\ a = Some x
  | [], [s] => exists x, static_action_impl s = Ok x /\ a = Some x
  | _, _ => False
  end.
Proof.
  intros H1 H2. destruct fs as [|f [|f' fs]]; [..|simpl in H1; lia];
    (destruct ss as [|s [|s' ss]]; [..|simpl in H2; lia]); cbn.
  - split; [by intros [_ [= <-]]|by intros ->].
  - rewrite mbind_result_ok. split; [intros (_ & x & Hx & [= <-]); by eauto|intros (x & Hx & ->); by eauto].
  - rewrite mbind_result_ok. split; [intros (_ & x & Hx & [= <-]); by eauto|intros (x & Hx & ->); by eauto].
  - split; [by intros [? _]|done].
Qed.

Lemma expect_ok {A} msg (o : option A) a : expect msg o = Ok a <-> o = Some a.
Proof. destruct o; simpl; naive_solver. Qed.

(** C31: [client_task] accepts a struct exactly when it can be a task, and then
    the code it generates is about the right fields with the right types: one
    action at most, on the attribute or on one field; a [common] and a [req]
    field; a [resp] field of type [Option<T>]; [res] and [noti] both or
    neither, of types [Option<Result<(), RpcError<E>>>] and [Option<MTx<T>>],
    whose [E] and [T] are the error and the receiver of the generated impls.
    Of several fields with the same tag the last one counts, and the struct
    itself keeps all attributes but [#[field]]. *)
Theorem client_task_expands (args : list NestedMeta) (struct_name : ident) (fields : list Field)
    (e : ClientTaskExpansion) :
  client_task_impl args struct_name fields = Ok e <-> client_task_spec args fields e.
Proof.
  unfold client_task_impl. set (es := fields ≫= field_events). rewrite take_roles_spec. cbn [r_action no_roles]. split.
  - intros E. apply mbind_result_ok in E as ([g s] & Hargs & E). apply take_args_ok in Hargs as (Hd & Ha & [= -> ->]).
    case_bool_decide as Hact; [|done]. cbn [mbind_result] in E. unfold roles_of in E.
    cbn [no_roles r_common r_req r_resp r_req_blob r_resp_blob r_action r_res r_noti] in E. rewrite !role_none in E.
    destruct (bool_decide (_ <> None) && bool_decide (_ <> None)) eqn:Eex in E; [done|].
    destruct (xorb _ _) eqn:Exor in E; [done|].
    apply mbind_result_ok in E as (common & Hc & E). apply expect_ok in Hc.
    apply mbind_result_ok in E as (req & Hq & E). apply expect_ok in Hq.
    apply mbind_result_ok in E as (resp & Hp & E). apply expect_ok in Hp.
    destruct (check_option_inner_type resp.2) eqn:Eopt; [|done]. apply check_option_ok in Eopt as [t Et].
    apply mbind_result_ok in E as (a & Hai & E). apply mbind_result_ok in E as (d & Hdi & E). injection E as <-.
    split; cbn [ct_fields ct_debug ct_action ct_done ct_common ct_req ct_resp ct_req_blob ct_resp_blob]; fold es.
    + done.
    + rewrite Nat.add_0_r in Hd. cbn [orb]. destruct (debug_args args) as [|x [|y l]]; [done|done|cbn [length] in Hd; lia].
    + done.
    + exists req.2. by rewrite Hq, <- surjective_pairing.
    + exists t. by rewrite <- Et, <- surjective_pairing.
    + done.
    + done.
    + rewrite Nat.add_0_r in Ha. by apply action_impl_ok.
    + by apply done_impl_ok.
  - intros [H1 H2 H3 [qty H4] [t H5] H6 H7 H8 H9]. fold es in H3, H4, H5, H6, H7, H8, H9.
    assert (length (tagged TagAction es) <= 1 /\ length (action_args args) <= 1) as [Hfs Hss].
    { destruct (tagged TagAction es) as [|f [|]], (action_args args) as [|s [|]]; simpl; try done; lia. }
    assert (take_args false None args = Ok (ct_debug e, head (action_args args))) as ->.
    { apply take_args_ok. split; [rewrite H2; destruct (ct_debug e); lia|]. split; [lia|]. rewrite H2. by destruct (ct_debug e). }
    apply action_impl_ok in H8 as [H8a H8]; [|done..]. apply done_impl_ok in H9 as [H9a H9].
    rewrite bool_decide_eq_true_2 by done. cbn [mbind_result]. unfold roles_of.
    cbn [no_roles r_common r_req r_resp r_req_blob r_resp_blob r_action r_res r_noti]. rewrite !role_none.
    rewrite H8a, H9a, H3, H4, H5. cbn [expect mbind_result fst snd].
    assert (check_option_inner_type (named (lit "Option") [t]) = true) as -> by (apply check_option_ok; by eauto).
    rewrite H8, H9. cbn [mbind_result]. rewrite <- H1, <- H6, <- H7. by destruct e.
Qed.

(** *** What the enum macros accept *)

Section enum_specs.
Variable type_text : Type_ -> bytes.

Definition client_variant_spec (v : Variant) (x : ident * Type_ * ClientArm) : Prop :=
  x.1.1 = v_ident v /\ v_fields v = FieldsUnnamed [x.1.2]
  /\ exists action, get_action_attribute (v_attrs v) = Ok action /\ client_arm action = Ok x.2.

Definition server_variant_spec (has_req : bool) (v : Variant) (x : ServerVariant) : Prop :=
  sv_ident x = v_ident v /\ v_fields v = FieldsUnnamed [sv_type x]
  /\ if has_req then
       sv_arms x <> [] /\ Forall2 (fun n a => server_arm n = Ok a) (get_action_attributes (v_attrs v)) (sv_arms x)
       /\ sv_get_action x = match sv_arms x with [a] => Some a | _ => None end
     else sv_arms x = [] /\ sv_get_action x = None.

Lemma inner_type_ok v ty : inner_type v = Ok ty <-> v_fields v = FieldsUnnamed [ty].
Proof. unfold inner_type. destruct (v_fields v) as [[|t [|]]|]; naive_solver. Qed.

Lemma client_variants_ok enum_name seen vs xs :
  client_variants type_text enum_name seen vs = Ok xs <->
  Forall2 client_variant_spec vs xs /\ NoDup ((fun x => type_text x.1.2) <$> xs)
  /\ Forall (fun x => type_text x.1.2 ∉ seen) xs.
Proof.
  revert seen xs. induction vs as [|v vs IH]; intros seen xs; cbn [client_variants].
  - split; [intros [= <-]; split; [constructor|]; split; constructor|]. intros (H & _ & _). by inversion H.
  - split.
    + intros E. apply mbind_result_ok in E as (ty & Hty & E). case_bool_decide as Hs; [done|].
      apply mbind_result_ok in E as (action & Hact & E). apply mbind_result_ok in E as (arm & Harm & E).
      apply mbind_result_ok in E as (arms & Harms & E). injection E as <-. apply IH in Harms as (H1 & H2 & H3).
      apply inner_type_ok in Hty. split; [constructor; [by split; [|split; [|by eauto]]|done]|]. csimpl.
      split; [|constructor; [done|]].
      * apply list.NoDup_cons. split; [|done]. rewrite list_elem_of_fmap. intros (y & Hy & Hin).
        rewrite list.Forall_forall in H3. apply (H3 y Hin). rewrite <- Hy. left.
      * eapply list.Forall_impl; [exact H3|]. intros y Hy. set_solver.
    + intros (H1 & H2 & H3). inversion H1 as [|? [[i ty] arm] ? xs' (Hi & Hty & action & Hact & Harm) Hxs]; subst.
      simpl in *. subst i. apply inner_type_ok in Hty. rewrite Hty. cbn [mbind_result].
      apply list.NoDup_cons in H2 as [Hnin H2]. apply list.Forall_cons in H3 as [Hs H3].
      rewrite bool_decide_eq_false_2 by done. rewrite Hact. cbn [mbind_result]. rewrite Harm. cbn [mbind_result].
      assert (client_variants type_text enum_name (type_text ty :: seen) vs = Ok xs') as ->; [|done].
      apply IH. split; [done|]. split; [done|]. apply list.Forall_forall. intros y Hy.
      rewrite list.Forall_forall in H3. apply not_elem_of_cons. split; [|by apply H3].
      intros E. apply Hnin. rewrite <- E. apply list_elem_of_fmap. by eauto.
Qed.

Lemma server_variant_arms_ok has_req v arms ga :
  server_variant_arms has_req v = Ok (arms, ga) <->
  if has_req then
    arms <> [] /\ Forall2 (fun n a => server_arm n = Ok a) (get_action_attributes (v_attrs v)) arms
    /\ ga = match arms with [a] => Some a | _ => None end
  else arms = [] /\ ga = None.
Proof.
  unfold server_variant_arms. destruct has_req; [|naive_solver]. split.
  - intros E. apply mbind_result_ok in E as (as' & Has & E). apply mapR_ok in Has.
    destruct as' as [|a [|b as']]; [done|..]; injection E as <- <-; done.
  - intros (Hne & Has & ->). apply mapR_ok in Has. rewrite Has. simpl. by destruct arms as [|a [|b arms]].
Qed.

Lemma server_variants_ok enum_name has_req types vs xs :
  server_variants type_text enum_name has_req types vs = Ok xs <->
  Forall2 (server_variant_spec has_req) vs xs
  /\ Forall (fun x => length (filter (fun t => t = type_text (sv_type x)) types) <= 1) xs.
Proof.
  revert xs. induction vs as [|v vs IH]; intros xs; cbn [server_variants].
  - split; [intros [= <-]; split; constructor|]. intros (H & _). by inversion H.
  - split.
    + intros E. apply mbind_result_ok in E as (ty & Hty & E). apply mbind_result_ok in E as ([arms ga] & Harms & E).
      case_bool_decide as Hs; [done|]. apply mbind_result_ok in E as (rest & Hrest & E). injection E as <-.
      apply IH in Hrest as (H1 & H2). apply inner_type_ok in Hty. apply server_variant_arms_ok in Harms.
      split; constructor; try done. simpl. lia.
    + intros (H1 & H2). inversion H1 as [|? [i ty arms ga] ? xs' (Hi & Hty & Harms) Hxs]; subst. simpl in *. subst i.
      apply list.Forall_cons in H2 as [Hs H2]. apply inner_type_ok in Hty. rewrite Hty. cbn [mbind_result].
      apply server_variant_arms_ok in Harms. rewrite Harms. cbn [mbind_result]. simpl in Hs.
      rewrite bool_decide_eq_false_2 by lia.
      assert (server_variants type_text enum_name has_req types vs = Ok xs') as -> by (by apply IH). done.
Qed.

(** A list whose elements each occur once at most in it. *)
Lemma NoDup_count (l : list bytes) :
  NoDup l <-> Forall (fun x => length (filter (fun t => t = x) l) <= 1) l.
Proof.
  induction l as [|x l IH]; [split; constructor|]. rewrite list.NoDup_cons, list.Forall_cons, filter_cons, decide_True by done.
  cbn [length]. split.
  - intros [Hx Hnd]. apply IH in Hnd. split.
    + destruct (filter (fun t => t = x) l) as [|y k] eqn:E; [simpl; lia|].
      assert (y ∈ filter (fun t => t = x) l) as Hy by (rewrite E; left). apply list_elem_of_filter in Hy as [-> Hy]. done.
    + rewrite list.Forall_forall in Hnd |- *. intros y Hy. rewrite filter_cons, decide_False by (intros ->; done).
      by apply Hnd.
  - intros [Hx Hf]. assert (x ∉ l) as Hnx.
    { intros Hin. assert (x ∈ filter (fun t => t = x) l) as Hin' by (by apply list_elem_of_filter).
      destruct (filter (fun t => t = x) l); [by apply not_elem_of_nil in Hin'|simpl in Hx; lia]. }
    split; [done|]. apply IH. rewrite list.Forall_forall in Hf |- *. intros y Hy. specialize (Hf y Hy).
    by rewrite filter_cons, decide_False in Hf by (intros ->; done).
Qed.

(** What an accepted [server_task_enum] is. *)
Record server_enum_spec (toks : list AttrTok) (vs : list Variant) (e : ServerEnumExpansion) : Prop := {
  ss_attrs : exists a, ServerTaskEnumAttrs_parse toks = Ok (a, sn_error e)
    /\ sn_req e = ea_req a /\ sn_resp e = ea_resp a /\ sn_resp_type e = ea_resp_type a
    /\ (ea_resp a = true <-> ea_resp_type a = None);
  ss_variants : Forall2 (server_variant_spec (sn_req e)) vs (sn_variants e);
  ss_types : NoDup (type_text ∘ sv_type <$> sn_variants e);
}.

Lemma variant_types has_req vs xs :
  Forall2 (server_variant_spec has_req) vs xs -> mapR inner_type vs = Ok (sv_type <$> xs).
Proof.
  intros H. apply mapR_ok. induction H as [|v x vs xs (_ & Hv & _) _ IH]; csimpl; constructor; [|done].
  by apply inner_type_ok.
Qed.

Lemma server_task_enum_ok toks enum_name vs e :
  server_task_enum_impl type_text toks enum_name (Some vs) = Ok e <-> server_enum_spec toks vs e.
Proof.
  unfold server_task_enum_impl. cbn [expect mbind_result]. split.
  - intros E. apply mbind_result_ok in E as (types & Hty & E). apply mbind_result_ok in E as ([a error] & Ha & E).
    apply mbind_result_ok in E as (rt & Hrt & E). apply mbind_result_ok in E as (svs & Hsv & E). injection E as <-.
    apply server_variants_ok in Hsv as [H1 H2]. rewrite (variant_types _ _ _ H1) in Hty. injection Hty as <-.
    split; simpl; [|done|].
    + exists a. split; [done|]. destruct (ea_resp a), (ea_resp_type a); simpl in Hrt; simplify_eq; done.
    + apply NoDup_count. rewrite list_fmap_compose. by apply Forall_fmap, Forall_fmap.
  - intros [(a & Ha & H1 & H2 & H3 & H4) Hv Hnd]. rewrite (variant_types _ _ _ Hv). cbn [mbind_result].
    rewrite Ha. cbn [mbind_result].
    assert ((if ea_resp a then match ea_resp_type a with
       | Some _ => Err (lit "Cannot specify 'resp_type' when 'resp' is present. Response type is Self.")
       | None => Ok None end
     else let? ty := expect (lit "resp_type must be specified when 'resp' is not present") (ea_resp_type a) in
       Ok (Some ty)) = Ok (sn_resp_type e)) as ->.
    { rewrite H3. destruct (ea_resp a), (ea_resp_type a); simpl; try done; naive_solver. }
    cbn [mbind_result].
    assert (server_variants type_text enum_name (ea_req a) (type_text <$> (sv_type <$> sn_variants e)) vs
      = Ok (sn_variants e)) as ->.
    { apply server_variants_ok. rewrite <- H1. split; [done|]. apply NoDup_count in Hnd.
      rewrite list_fmap_compose in Hnd. rewrite !Forall_fmap in Hnd. exact Hnd. }
    cbn [mbind_result]. rewrite <- H1, <- H2. by destruct e.
Qed.

(** *** The two sides of an action *)

(** The action that generated code means, given the values of constants. *)
Definition impl_action (value_of : Path -> Z) (a : ActionImpl) : option RpcAction :=
  match a with
  | StaticStr s => Some (ActStr s)
  | StaticNum n => Some (ActNum n)
  | StaticPath p => Some (ActNum (as_i32 (value_of p)))
  | _ => None
  end.

Definition arm_action (value_of : Path -> Z) (a : ClientArm) : option RpcAction :=
  match a with
  | ArmStr s => Some (ActStr s)
  | ArmInt digits => ActNum <$> parse_i32 digits
  | ArmPath p => Some (ActNum (as_i32 (value_of p)))
  | ArmInner => None
  end.

(** C32: The enum macros accept exactly the enums they can serve, and agree on
    what an action is.  [client_task_enum]: an [error] type and variants that
    wrap one type each, all different, with at most one literal action or one
    constant each.  [server_task_enum]: the same variants, attributes that
    parse and either [resp] or a [resp_type], and, with [req], an action for
    every variant.  An action written on a variant of both enums is the same
    action: the one the client sends is one the server's [decode_req] has an
    arm for. *)
Theorem task_enums_expand (enum_name : ident) (vs : list Variant) :
  (forall error_ty xs, client_task_enum_impl type_text error_ty enum_name (Some vs) = Ok xs <->
     error_ty = Some xs.1 /\ Forall2 client_variant_spec vs xs.2 /\ NoDup ((fun x => type_text x.1.2) <$> xs.2))
  /\ (forall toks e, server_task_enum_impl type_text toks enum_name (Some vs) = Ok e <-> server_enum_spec toks vs e)
  /\ (forall value_of cv sv n x y,
        client_variant_spec cv x -> server_variant_spec true sv y ->
        get_action_attribute (v_attrs cv) = Ok (Some n) -> n ∈ get_action_attributes (v_attrs sv) ->
        exists a act, a ∈ sv_arms y /\ arm_action value_of x.2 = Some act /\ impl_action value_of a = Some act).
Proof.
  split; [|split; [intros; apply server_task_enum_ok|]].
  - intros error_ty [error arms]. unfold client_task_enum_impl. split.
    + intros E. apply mbind_result_ok in E as (er & Her & E). apply expect_ok in Her. cbn [expect mbind_result] in E.
      apply mbind_result_ok in E as (xs & Hxs & E). injection E as <- <-.
      by apply client_variants_ok in Hxs as (H1 & H2 & _).
    + intros (-> & H1 & H2). cbn [expect mbind_result].
      assert (client_variants type_text enum_name [] vs = Ok arms) as ->; [|done].
      apply client_variants_ok. split; [done|]. split; [done|]. apply list.Forall_forall. intros y _. apply not_elem_of_nil.
  - intros value_of cv sv n [[i ty] arm] y (_ & _ & action & Hact & Harm) (_ & _ & _ & Harms & _) Hn Hin.
    rewrite Hn in Hact. injection Hact as <-. apply list_elem_of_lookup in Hin as [k Hk].
    destruct (Forall2_lookup_l _ _ _ _ _ Harms Hk) as (a & Ha & Heq). exists a. simpl in *.
    assert (a ∈ sv_arms y) as Hay by (by eapply list_elem_of_lookup_2).
    destruct n as [[p|p ns|p l]|[s|d|]]; simpl in *; simplify_eq; try done.
    + by eexists.
    + by eexists.
    + unfold expect in Heq. destruct (parse_i32 d) as [z|] eqn:Ed; simpl in Heq; simplify_eq. exists (ActNum z).
      cbn [arm_action]. by rewrite Ed.
Qed.
End enum_specs.

(** ** Concrete inputs *)

Definition field_attr (tag : ident) : Attribute :=
  mkAttr (name_path (lit "field")) (Some (MetaList (name_path (lit "field")) [NestedM (MetaPath (name_path tag))])).

Definition unit_ty : Type_ := TypeTuple [].
Definition option_ty (t : Type_) : Type_ := named (lit "Option") [t].

(** [#[client_task(1)] struct FileTask { common, sender: noti, res, req, resp }] *)
Definition demo_fields : list Field := [
  mkField [field_attr (lit "common")] (lit "common") (named (lit "ClientTaskCommon") []);
  mkField [field_attr (lit "noti")] (lit "sender") (option_ty (named (lit "MTx") [named (lit "FileTask") []]));
  mkField [field_attr (lit "res")] (lit "res")
    (option_ty (named (lit "Result") [unit_ty; named (lit "RpcError") [named (lit "Errno") []]]));
  mkField [mkAttr (name_path (lit "doc")) None; field_attr (lit "req")] (lit "req") (named (lit "FileOpenReq") []);
  mkField [field_attr (lit "resp")] (lit "resp") (option_ty unit_ty)].

Example client_task_accepts :
  client_task_impl [NestedLit (LitInt (lit "1"))] (lit "FileTask") demo_fields
  = Ok (mkClientTaskExp (strip_field_attrs <$> demo_fields) false (Some (StaticNum 1))
          (Some (mkDoneImpl (lit "res") (lit "sender") (named (lit "Errno") []) (named (lit "FileTask") [])))
          (lit "common", named (lit "ClientTaskCommon") []) (lit "req") (lit "resp") None None).
Proof. reflexivity. Qed.

(** The crate's own tests of what must not compile: a [resp] that is no
    [Option], no [req], no [resp], [res] without [noti] and [noti] without
    [res]. *)
Example client_task_refuses :
  let common := mkField [field_attr (lit "common")] (lit "common") (named (lit "ClientTaskCommon") []) in
  let req := mkField [field_attr (lit "req")] (lit "req") unit_ty in
  let resp := mkField [field_attr (lit "resp")] (lit "resp") (option_ty unit_ty) in
  let refused fields := is_ok (client_task_impl [] (lit "T") fields) = false in
  refused [common; req; mkField [field_attr (lit "resp")] (lit "resp") unit_ty]
  /\ refused [common; resp] /\ refused [common; req]
  /\ refused [common; req; resp; mkField [field_attr (lit "res")] (lit "res")
       (option_ty (named (lit "Result") [unit_ty; named (lit "RpcError") [named (lit "Errno") []]]))]
  /\ refused [common; req; resp; mkField [field_attr (lit "noti")] (lit "noti")
       (option_ty (named (lit "MTx") [named (lit "Self") []]))].
Proof. by vm_compute. Qed.

Definition action_of (ns : list NestedMeta) : Attribute :=
  mkAttr (name_path (lit "action")) (Some (MetaList (name_path (lit "action")) ns)).

(** Types are told apart by their last name. *)
Definition demo_text (ty : Type_) : bytes :=
  match ty with
  | TypePath _ p => match last_segment p with Some seg => seg_ident seg | None => [] end
  | _ => []
  end.

Definition demo_variants : list Variant := [
  mkVariant [action_of [NestedLit (LitInt (lit "1"))]] (lit "Open") (FieldsUnnamed [named (lit "OpenTask") []]);
  mkVariant [action_of [NestedLit (LitStr (lit "close"))]] (lit "Close") (FieldsUnnamed [named (lit "CloseTask") []])].

(** [#[server_task_enum(req, resp, error = Errno)]]; without [error], without
    [resp_type] or with a type twice it is refused. *)
Example server_enum_attrs :
  let impl toks vs := server_task_enum_impl demo_text toks (lit "FileTask") (Some vs) in
  sn_variants <$> (match impl [TokIdent (lit "req"); TokComma; TokIdent (lit "resp"); TokComma;
      TokIdent (lit "error"); TokEq; TokIdent (lit "Errno")] demo_variants with Ok e => Some e | Err _ => None end)
  = Some [mkServerVariantExp (lit "Open") (named (lit "OpenTask") []) [StaticNum 1] (Some (StaticNum 1));
          mkServerVariantExp (lit "Close") (named (lit "CloseTask") []) [StaticStr (lit "close")] (Some (StaticStr (lit "close")))]
  /\ is_ok (impl [TokIdent (lit "req"); TokComma; TokIdent (lit "resp")] demo_variants) = false
  /\ is_ok (impl [TokIdent (lit "req"); TokComma; TokIdent (lit "error"); TokEq; TokIdent (lit "Errno")] demo_variants) = false
  /\ is_ok (impl [TokIdent (lit "resp"); TokComma; TokIdent (lit "error"); TokEq; TokIdent (lit "Errno")]
       (demo_variants ++ demo_variants)) = false.
Proof. by vm_compute. Qed.
